(* ===== verification/_CoqProject ===== *)
-Q . S2P
Prelude.v
Heap.v
Bytes.v
MsMessage.v
MsQueues.v
LibQueues.v
IoPushList.v
IoSampling.v
IoConnection.v
IoAppConnection.v
LinkedList.v
ConnCache.v
IoApp.v
StringAlgos.v
Ini.v
Util.v
IoAppCluster.v
IoNotify.v
IoAccept.v
MsRouter.v
UserRouter.v
Protobuf.v
ImPb.v
ImParser.v
Processors.v
WaitList.v
UpdateTasks.v
ConnPool.v
Zookeeper.v
ZkSession.v
Watcher.v
PooledClient.v
Redis.v
Settings.v
IoBackend.v
Threads.v
Startup.v
Client.v
Locks.v
OnceInit.v
ThreadLife.v
ClientThreads.v
ThriftRpc.v
Delivery.v
ServerFlow.v
ChatFlow.v
EventLoop.v
ThreadBase.v
