(* ===== verification/Prelude.v ===== *)
(** * A message server for instant messaging

    The program (src/msg_handler) keeps long-lived connections of chat clients.
    I/O threads read frames from the sockets and write frames to them; worker
    threads authenticate users and handle chat messages and keep-alives; a message
    for a user on another server goes there by RPC, through a pool of connections
    that follows a zookeeper registry.  This development models those parts as
    executable functions on explicit state and proves what each promises.

    ** How code becomes definitions

    Imperative code is a function into [outcome] (below): a normal return, a sleep on
    a condition variable, [abort], undefined behaviour, or a loop that does not end.
    [let*] sequences it.  A theorem that an operation "returns" therefore excludes
    null and dangling pointers, accesses out of bounds and use of indeterminate bytes.
    Objects linked by pointers live in finite maps from addresses to records (Heap.v),
    and representation predicates relate a pointer to the sequence it stands for.
    Integers are [Z] with the wrap-around of their C++ type written out ([i32], [u32],
    [u64]) where it can matter.  A method that runs under a mutex, and a handler the
    event loop runs to completion, is one function; concurrency appears as arbitrary
    sequences of such calls, and where the code drops its lock half-way the two halves
    are two functions or, where others may run in between, two steps.  An endless thread loop is given by the function of one turn.
    Loops over data are structural; the others carry fuel taken from the size of the
    data they walk over ([Diverge] when it runs out), and the theorems show that it
    does not (the parser of a message has as much as its input is long).  Virtual calls and other components seen through an interface are type
    classes ([ConnVirtual], [ConnOwner], [IoThread], [MsMessageCollectorCore] with
    [CollectorCoreLaws], and [ImCodec], which the generated
    protocol messages discharge); so are the libraries the program
    calls ([Wire] for the protobuf runtime, [ZooApi], [ZooLaws], [ZkLib] and [ZkLibLaws] for
    zookeeper, [TProtocol], [TProtocolLaws] and [TProtocolReads] for thrift, [Hiredis] and
    [HiredisLaws] for redis, [Libevent] and [LibeventLaws] for the event loop) and the two
    queues of the backend I/O thread whose class is not in the repository
    ([BackendSockets], [BackendPush]).  The clock,
    random numbers, the answers of sockets and of remote calls, boost's regular
    expressions, the iteration order of hash maps and the JSON reader are arguments.

    ** Files

    - Prelude.v, Heap.v, Bytes.v: outcomes, the linked store, machine integers and
      byte buffers.
    - MsMessage.v: messages and their frames (framework/ms/ms_message).
    - MsQueues.v: the queues of messages (framework/ms/ms_message_queue and
      its variants).
    - LibQueues.v, LinkedList.v, StringAlgos.v, Ini.v, Util.v: the library
      (framework/lib): queues, the doubly linked list, string algorithms, the
      configuration file, numbers and hashes.
    - IoPushList.v, IoSampling.v, IoConnection.v, IoAppConnection.v: one connection
      (framework/io): frames waiting to be sent, request counters, the socket state
      machine, and the two classes of connections on top of it.
    - ConnCache.v, IoApp.v, IoAppCluster.v: the connections of one I/O thread and the
      group of I/O threads (framework/io).
    - MsRouter.v: the threads that sort queued messages by I/O thread, by destination
      and by user (framework/ms).
    - UserRouter.v: which connection a user is on (message/im_user_message_router,
      im_user_channel_register_table_local).
    - Protobuf.v, ImPb.v: the protobuf runtime as an interface, with the documented encoding
      as an instance, and the generated messages on top of it (proto/im.pb).
    - ImParser.v, Processors.v: protocol packs, the dispatcher, the workers, the
      authentication and message processors and the broker (message, thrift/broker).
    - WaitList.v, UpdateTasks.v, ConnPool.v, Zookeeper.v, PooledClient.v: the RPC pool
      (thrift/pilot): its lists, the tasks the registry's watcher leaves for the update
      thread, the connections to one replica, the registry, and the client that puts
      them together.
    - Watcher.v: which watcher is told of an event of the registry, and how a server joins
      again (thrift/pilot/watcher_action.h).
    - IoNotify.v, IoAccept.v: waking an I/O thread up, and accepting connections
      (framework/io/io_app.cpp, io_accept.cpp, io_app_accept_service.cpp).
    - Redis.v: redis access and publishing where a user is (framework/lib/redis_operator,
      message/route_info_publisher).
    - Threads.v: starting a thread (framework/lib/posix_thread_factory).
    - ZkSession.v: the handle of a registry client, opened, closed and opened again
      (thrift/pilot/zookeeper_client.cc), and the address a server is registered under.
    - Settings.v: what the broker and the processors take from the configuration file,
      and the number a server is known by (thrift/broker/message_broker.cpp,
      message/im_message_auth_processor.cpp).
    - IoBackend.v: the thread, the cluster and the accepting service for connections
      between servers (framework/io/io_backend.cpp, io_backend_cluster.cpp,
      io_backend_accept_service.cpp).
    - Startup.v: [main], in the order it starts the parts (main.cpp,
      framework/io/io_manager.cpp, the [initialize] and [run] methods).
    - Locks.v, OnceInit.v: locks and their guards (framework/lib/lock.h,
      thrift/pilot/lock.h); objects made at first use, one per thread or one for all
      (framework/lib/TLS.h, thrift/pilot/singleton_adapter.h, object_life_cycle_manager).
    - ThreadLife.v: how long a thread object and its work live, [stop] and [join]
      (framework/lib/thread.h, posix_thread_factory.cpp, the [run] methods).
    - ClientThreads.v: the threads of a pooled client, and finding a client by its path
      (thrift/pilot/pooled_client.inl, conn_pool_factory.inl).
    - ThriftRpc.v: the RPC service between two servers, client and server side, and the
      broker on either end (thrift/gen/Message, ms_types).
    - Client.v: the test programs (client/client.cpp and its variants), which speak the
      protocol from the other side.
    - Delivery.v, ServerFlow.v: an I/O thread with its connections, and the router, the I/O
      threads and the connections composed over one store of messages: the way of a message
      from a worker to the kernel.
    - ChatFlow.v: the message broker put before them, and the histories of all these
      turns.
    - EventLoop.v: setting up the event loops and their notification pairs, the settings of
      a thread, and the accepting thread (framework/io/io_app.cpp, io_backend.cpp,
      io_accept.cpp).
    - ThreadBase.v: the base class with a barrier (thrift/pilot/thread_base).

    Names follow the source: [Class_method] or the plain name of a function; a loop of
    a function has a definition of its own named after it.

    ** What is shown

    - Input: whatever the chunks in which a byte stream arrives, the frames in it are
      handed over in order and complete, except that moving a rest longer than what is
      before it is undefined ([app_reads_stream]); every branch of
      the handling of a frame is given ([app_frame_branches]).
    - Output: bytes are sent in the order of the messages whatever [send] accepts
      ([app_sends_in_order]), the push list keeps its two chains in step
      ([push_list_keeps_message_chain]), and a message pushed to a thread reaches
      exactly the connection it names ([pushMessage_delivers]).
    - The whole way out: however the broker, the other workers, the router, the I/O
      threads and the kernel take turns, what a connection has sent is a prefix of the frames routed to it, in
      order ([frames_sent_in_order]), and nothing is left behind
      ([routed_frames_all_sent]); a chat message the broker takes reaches the socket of every
      target in the table, once each ([chat_reaches_sockets]); the proofs keep for every message the one holder it has
      at a time ([single_holder]).
    - Protocol: parsing what was serialised merges it, with the sizes ByteSize cached
      ([pack_parse_merges]); whatever arrives, a parsed pack is well typed
      ([parsed_pack_well_typed]), and parsing ends ([parsing_ends]).
    - Connections: every accepted socket becomes an open, registered connection
      ([newConnection_opens_all]); the cache of connection objects refines a simple
      specification under which no object is reused in the turn it was closed
      ([cache_refines_spec]); closing releases everything ([whenClosed_releases_all]).
    - Queues: the block queues are FIFO and wake their consumers ([block_queue_fifo],
      [pooled_block_queue_is_fifo]), the priority queue orders by priority
      ([priority_queue_order]), routers and collector partition what they take and keep
      its order ([local_router_delivers], [collector_groups_by_user]).
    - Messages: what becomes of a chat message, an authentication and a keep-alive on
      every branch ([chat_acked_and_forwarded], [auth_admits_or_kicks],
      [touch_registers_named_user], [dispatcher_by_state], [fan_out_one_copy_each],
      [routeList_partitions], [broker_delivers_to_each]); frames and numbers round trip.
    - RPC pool: no connection is ever lent twice, and a step fails exactly when it uses
      a place past the end of the vector of pools
      ([pool_lends_each_client_once], [service_keeps_clients_apart]); the pools follow
      the registry ([refresh_follows_registry], [registry_events_reach_the_pools],
      [update_tasks_are_a_stack], [join_registers_once],
      [lost_node_is_restored]), a remote call ends after at most three attempts
      and gives back every client ([proxy_within_three_attempts]), and errors put a pool out of use for a time that
      grows with their square ([backoff_is_quadratic]).
    - Defects, each with the input that shows it: theorems such as
      [pending_collect_frees_queued], [erasing_leaves_stale_indexes],
      [by_id_never_recovers], [pub_reads_freed_reply] and
      [whenClosed_collects_only_first] state what the code does where that is not what
      it means to do.
    - Threads: no wake-up of an I/O thread for a new connection is lost
      ([no_lost_wakeup]), but one for pushed messages can be
      ([pushed_list_loses_wakeup]); a new thread always has the argument it is given,
      unless a signal interrupts the caller ([launch_hands_argument_over]); and accepted
      sockets reach one thread each under different numbers
      ([accepted_sockets_numbered]); these are invariants of step relations in which the
      actions of both sides interleave freely.  Once a loop is set up, libevent calls a
      handler exactly while one of its notifications is unread
      ([notifications_reach_handlers]); the accepting thread serves
      each of its services ([accepting_serves_each]).
    - Redis: a route is stored whatever the state of the connection, and announced if it
      is alive after that ([publish_makes_route_known]); and reading in chunks is reading each key
      ([mget_reads_every_key]).
    - Connections between servers: as long as they only send, at most one connection to a
      server is registered and every registered one is live
      ([backend_one_connection_per_server]); a message goes
      to that connection or opens it ([backend_message_routed]).
    - The whole program: when [main] has started, all its threads run
      ([main_starts_everything]), and no thread that takes traffic is started before what
      it uses was started or refused by the system ([ready_before_traffic]); what is read from the configuration file
      has the types and ranges the code goes on to use ([broker_settings_typed],
      [client_port_bounds], [instance_names_server]); one session with the registry is
      open at a time ([session_calls_keep_one]).
    - Remote calls: a call reaches the handler of the other server once, with the request
      that was sent, and brings its answer back ([rpc_reaches_handler]); a chat message sent
      through the proxy becomes one message in the queue there for every attempt that gets
      through ([chat_crosses_servers]); and reading ends
      for every input ([rpc_reading_ends]).
    - Shared objects: guards exclude ([guards_exclude]), each thread has an object of its
      own ([tls_object_per_thread]), a singleton is made once ([singleton_made_once]), a
      thread keeps its work alive ([thread_keeps_its_work]), but its owner must not delete
      it ([owner_delete_is_wrong]); these are invariants over all interleavings.
    - Client: what it prints is the stream of frames it is sent, however chunked, except
      that moving a long rest is undefined ([client_prints_stream]), and what it sends is a frame the server reads
      ([client_pack_roundtrip]), as long as it fits ([client_send_bounds]).

    ** Not modelled

    The protobuf runtime and the reflection data the protobuf compiler wrote for it, the
    serialising to a stream and Swap; the vendored JSON headers, whose implementation is
    not in the repository; the protocols and the server of the thrift library; weak memory;
    what the pthread library does with the attributes of a thread; the printing of a stack
    by the signal handler; ThriftServer (thrift/pilot) and the buffers of framework/lib,
    which nothing uses; the log. *)
From stdpp Require Export base gmap list numbers option strings.
From Stdlib Require Export ZArith Lia.
#[global] Open Scope Z_scope.

(** ** Outcomes of imperative code

    [Ret a] is a normal return.  [Wait] is a thread that sleeps on a condition
    variable.  [Abort] is [abort()], [exit()] or a failed [assert].  [Fault] is
    undefined behaviour (a null or dangling pointer, an access outside a
    buffer, a read of uninitialised memory that the code branches on).
    [Diverge] is a loop that never ends. *)
Inductive outcome (A : Type) : Type :=
| Ret (a : A)
| Wait
| Abort
| Fault
| Diverge.
Arguments Ret {A} a.
Arguments Wait {A}.
Arguments Abort {A}.
Arguments Fault {A}.
Arguments Diverge {A}.

Definition obind {A B} (c : outcome A) (k : A → outcome B) : outcome B :=
  match c with
  | Ret a => k a
  | Wait => Wait
  | Abort => Abort
  | Fault => Fault
  | Diverge => Diverge
  end.

Declare Scope outcome_scope.
Delimit Scope outcome_scope with outcome.
Notation "'let*' x ':=' c 'in' k" := (obind c (λ x, k))
  (at level 10, x pattern, c at level 100, k at level 200,
   format "'[v' 'let*'  x  ':='  c  'in' '/' k ']'") : outcome_scope.
#[global] Open Scope outcome_scope.

(** [assert(b)] *)
Definition assert_ (b : bool) : outcome unit := if b then Ret tt else Abort.

(** reading a value that may be indeterminate *)
Definition defined {A} (o : option A) : outcome A :=
  match o with Some a => Ret a | None => Fault end.

Lemma obind_ret {A B} (a : A) (k : A → outcome B) : obind (Ret a) k = k a.
Proof. done. Qed.

Lemma obind_Ret_inv {A B} (c : outcome A) (k : A → outcome B) b :
  obind c k = Ret b → ∃ a, c = Ret a ∧ k a = Ret b.
Proof. destruct c; simpl; naive_solver. Qed.

(** ** Machine integers *)
Definition u8 (z : Z) : Z := z mod 2 ^ 8.
Definition u16 (z : Z) : Z := z mod 2 ^ 16.
Definition u32 (z : Z) : Z := z mod 2 ^ 32.
Definition u64 (z : Z) : Z := z mod 2 ^ 64.
Definition i32 (z : Z) : Z := (z + 2 ^ 31) mod 2 ^ 32 - 2 ^ 31.
Definition i64 (z : Z) : Z := (z + 2 ^ 63) mod 2 ^ 64 - 2 ^ 63.
(** a store into a [w]-bit unsigned bit-field *)
Definition bits (w z : Z) : Z := z mod 2 ^ w.

Definition is_byte (b : Z) : Prop := 0 ≤ b < 256.

(** ** Character strings

    A C string is the list of its bytes before the terminating zero. *)
Abbreviation cstr := (list Z).
Definition str (s : string) : cstr :=
  (λ a, Z.of_N (Ascii.N_of_ascii a)) <$> String.list_ascii_of_string s.

(** Pointwise relations, by pairs. *)
Lemma Forall2_zip {A B} (P : A → B → Prop) ls us x : Forall2 P ls us → x ∈ zip ls us → P x.1 x.2.
Proof. induction 1; cbn; set_solver. Qed.
