(* ===== verification/Heap.v ===== *)
(** The linked store.

    Every list of the program is intrusive: the nodes are heap objects with a
    [_next] pointer, and queues hold raw head and tail pointers.  This file
    gives the store (a finite map from addresses to nodes), the pointer
    operations with their undefined cases, the list-segment predicate that
    relates a pointer to the sequence of nodes reachable from it, and the
    generic lemmas every queue of the development uses.  A node type says where
    its link is through the class [LinkNode]. *)
From S2P Require Import Prelude.

(** An address, and a C++ pointer: [None] is the null pointer. *)
Abbreviation loc := positive.
Abbreviation ptr := (option positive).

Class LinkNode (N : Type) := {
  nd_next : N → ptr;
  nd_set_next : ptr → N → N;
  nd_next_set p n : nd_next (nd_set_next p n) = p;
  nd_set_set p q n : nd_set_next p (nd_set_next q n) = nd_set_next p n;
  nd_set_id n : nd_set_next (nd_next n) n = n }.

(** ** The store *)
Section store.
Context {N : Type}.
Implicit Types (h : gmap loc N) (p : ptr).

(** [*p] as an rvalue *)
Definition load h p : outcome N :=
  match p with
  | None => Fault
  | Some l => match h !! l with Some n => Ret n | None => Fault end
  end.

(** [*p = n] *)
Definition store h p (n : N) : outcome (gmap loc N) :=
  match p with
  | None => Fault
  | Some l => match h !! l with Some _ => Ret (<[l := n]> h) | None => Fault end
  end.

(** [malloc]/[new]: an address that is not in use *)
Definition alloc h (n : N) : loc * gmap loc N :=
  let l := fresh (dom h) in (l, <[l := n]> h).

(** [free]/[delete]: a null pointer is ignored, a dangling one is an error *)
Definition dealloc h p : outcome (gmap loc N) :=
  match p with
  | None => Ret h
  | Some l => match h !! l with Some _ => Ret (delete l h) | None => Fault end
  end.
End store.

(** ** Linked nodes *)
Section links.
Context {N : Type} {HN : LinkNode N}.
Implicit Types (h : gmap loc N) (p q : ptr) (l : loc) (ls ks : list loc) (n : N).

(** [p->_next = q] *)
Definition store_next h p q : outcome (gmap loc N) :=
  let* n := load h p in store h p (nd_set_next q n).

(** [while (v->_next) { v = v->_next; ++count; }] *)
Fixpoint walk_last (fuel : nat) h (v : ptr) (count : Z) : outcome (ptr * Z) :=
  match fuel with
  | O => Diverge
  | S fuel =>
      let* n := load h v in
      match nd_next n with
      | None => Ret (v, count)
      | Some w => walk_last fuel h (Some w) (count + 1)
      end
  end.

(** [if (_tail) _tail->_next = v; else _head = v;]: the store and the head
    after linking [v] behind a queue. *)
Definition link_tail h (hd tl v : ptr) : outcome (gmap loc N * ptr) :=
  match tl with
  | Some _ => let* h := store_next h tl v in Ret (h, hd)
  | None => Ret (h, v)
  end.

(** The nodes [ls] are linked from [p] to [q]. *)
Fixpoint lseg h p ls q : Prop :=
  match ls with
  | [] => p = q
  | l :: ls => p = Some l ∧ ∃ n, h !! l = Some n ∧ lseg h (nd_next n) ls q
  end.

(** A queue with head [hd] and tail [tl] holding the nodes [ls]. *)
Definition is_queue h (hd tl : ptr) ls : Prop :=
  lseg h hd ls None ∧ tl = last ls.

(** Two stores that differ in link fields only. *)
Definition unlink n : N := nd_set_next None n.
Definition links_only h h' : Prop := unlink <$> h = unlink <$> h'.

(** [h'] is [h] with links changed inside [fp] only. *)
Definition relinks h h' (fp : list loc) : Prop :=
  links_only h h' ∧ ∀ l, l ∉ fp → h' !! l = h !! l.
End links.
Infix "≃" := links_only (at level 70, no associativity) : stdpp_scope.

(** ** Lemmas on the store *)
Section store_lemmas.
Context {N : Type}.
Implicit Types (h : gmap loc N) (n : N).

Lemma load_Some h l n : h !! l = Some n → load h (Some l) = Ret n.
Proof. intros E. unfold load. by rewrite E. Qed.

Lemma load_Ret_inv h p n : load h p = Ret n → ∃ l, p = Some l ∧ h !! l = Some n.
Proof. unfold load. intros. repeat case_match; simplify_eq; eauto. Qed.

Lemma store_Some h l n n' :
  h !! l = Some n → store h (Some l) n' = Ret (<[l := n']> h).
Proof. intros E. unfold store. by rewrite E. Qed.

Lemma dealloc_Some h l n : h !! l = Some n → dealloc h (Some l) = Ret (delete l h).
Proof. intros E. unfold dealloc. by rewrite E. Qed.

Lemma alloc_fresh h n l h' :
  alloc h n = (l, h') → h !! l = None ∧ h' = <[l := n]> h.
Proof.
  unfold alloc. intros [= <- <-]. split; [|done].
  apply not_elem_of_dom. apply is_fresh.
Qed.

Lemma NoDup_dom_size h (ls : list loc) :
  NoDup ls → (∀ l, l ∈ ls → is_Some (h !! l)) → (length ls ≤ size h)%nat.
Proof.
  intros Hnd Hin. rewrite <-size_dom.
  rewrite <-(size_list_to_set (C:=gset loc) ls) by done.
  apply subseteq_size. intros l. rewrite elem_of_list_to_set, elem_of_dom. auto.
Qed.
End store_lemmas.

(** ** Lemmas on segments *)
Section links_lemmas.
Context {N : Type} {HN : LinkNode N}.
Implicit Types (h : gmap loc N) (p q : ptr) (l : loc) (ls ks : list loc) (n : N).

Lemma store_next_Some h l n q :
  h !! l = Some n → store_next h (Some l) q = Ret (<[l := nd_set_next q n]> h).
Proof.
  intros E. unfold store_next. rewrite (load_Some _ _ _ E). simpl.
  by rewrite E.
Qed.

Lemma lseg_app h p ls ks q :
  lseg h p (ls ++ ks) q ↔ ∃ r, lseg h p ls r ∧ lseg h r ks q.
Proof.
  revert p. induction ls as [|l ls IH]; intros p; simpl.
  - naive_solver.
  - split.
    + intros (-> & n & E & Hs). apply IH in Hs as (r & ? & ?). eauto 10.
    + intros (r & (-> & n & E & Hs) & ?). split; [done|].
      exists n. split; [done|]. apply IH. eauto.
Qed.

Lemma lseg_frame h h' p ls q :
  (∀ l, l ∈ ls → h' !! l = h !! l) → lseg h p ls q → lseg h' p ls q.
Proof.
  revert p. induction ls as [|l ls IH]; intros p Hfr; simpl; [done|].
  intros (-> & n & E & Hs). split; [done|]. exists n. split.
  - rewrite Hfr by set_solver. done.
  - apply IH; [|done]. intros. apply Hfr. set_solver.
Qed.

Lemma lseg_insert_ne h p ls q l n :
  l ∉ ls → lseg h p ls q → lseg (<[l := n]> h) p ls q.
Proof.
  intros Hl. apply lseg_frame. intros k Hk. apply lookup_insert_ne. set_solver.
Qed.

Lemma lseg_delete h p ls q l :
  l ∉ ls → lseg h p ls q → lseg (delete l h) p ls q.
Proof.
  intros Hl. apply lseg_frame. intros k Hk. apply lookup_delete_ne. set_solver.
Qed.

Lemma lseg_in h p ls q l : lseg h p ls q → l ∈ ls → is_Some (h !! l).
Proof.
  revert p. induction ls as [|k ls IH]; intros p; simpl; [set_solver|].
  intros (-> & n & E & Hs) [->|Hin]%elem_of_cons; eauto.
Qed.

Lemma lseg_null h ls q : lseg h None ls q → ls = [] ∧ q = None.
Proof. destruct ls; simpl; naive_solver. Qed.

Lemma lseg_Some h l ls : lseg h (Some l) ls None →
  ∃ ls' n, ls = l :: ls' ∧ h !! l = Some n ∧ lseg h (nd_next n) ls' None.
Proof. destruct ls; simpl; naive_solver. Qed.

(** The segment from a pointer to null is determined by the store, so it cannot
    revisit a node. *)
Lemma lseg_det h p ls ks : lseg h p ls None → lseg h p ks None → ls = ks.
Proof.
  revert p ks. induction ls as [|l ls IH]; intros p ks; simpl.
  - intros ->. by intros [-> _]%lseg_null.
  - intros (-> & n & E & Hs) (ks' & n' & -> & E' & Hs')%lseg_Some.
    simplify_eq. f_equal. eauto.
Qed.

Lemma lseg_NoDup h p ls : lseg h p ls None → NoDup ls.
Proof.
  revert p. induction ls as [|l ls IH]; intros p; simpl.
  - constructor.
  - intros (-> & n & E & Hs). constructor; [|eauto].
    intros (l1 & l2 & ->)%list_elem_of_split.
    pose proof Hs as (r & Hs1 & Hs2)%lseg_app.
    simpl in Hs2. destruct Hs2 as (-> & n' & E' & Hs2). simplify_eq.
    pose proof (lseg_det _ _ _ _ Hs Hs2) as Heq.
    apply (f_equal length) in Heq. rewrite length_app in Heq. simpl in Heq. lia.
Qed.

Lemma lseg_length h p ls : lseg h p ls None → (length ls ≤ size h)%nat.
Proof.
  intros Hs. apply NoDup_dom_size; [by eapply lseg_NoDup|].
  intros l. by apply lseg_in with (1:=Hs).
Qed.

Lemma lseg_last h p ls l : lseg h p (ls ++ [l]) None →
  ∃ n, h !! l = Some n ∧ nd_next n = None.
Proof. intros (r & _ & (_ & n & E & Hn))%lseg_app. eauto. Qed.

(** Linking the segment [ks] behind the last node of [ls ++ [l]]. *)
Lemma lseg_link h p ls l n ks v :
  h !! l = Some n → lseg h p (ls ++ [l]) None →
  lseg h v ks None → l ∉ ks →
  lseg (<[l := nd_set_next v n]> h) p (ls ++ [l] ++ ks) None.
Proof.
  intros E Hs Hk Hnk. pose proof (lseg_NoDup _ _ _ Hs) as Hnd.
  apply NoDup_app in Hnd as (_ & Hnl & _).
  apply lseg_app in Hs as (r & Hs1 & Hs2). simpl in Hs2.
  destruct Hs2 as (-> & n' & E' & Hn'). simplify_eq.
  apply lseg_app. exists (Some l). split.
  - apply lseg_insert_ne; [|done]. intros Hin. apply (Hnl l Hin). set_solver.
  - simpl. split; [done|]. exists (nd_set_next v n).
    rewrite lookup_insert_eq, nd_next_set. split; [done|].
    by apply lseg_insert_ne.
Qed.

(** *** Stores equal up to links *)
#[export] Instance links_only_equiv : Equivalence (links_only (N:=N)).
Proof. unfold links_only. split; red; congruence. Qed.

Lemma links_only_lookup h h' l :
  h ≃ h' → unlink <$> h !! l = unlink <$> h' !! l.
Proof. intros E. rewrite <-!lookup_fmap. by rewrite E. Qed.

Lemma links_only_Some h h' l n :
  h ≃ h' → h !! l = Some n → ∃ n', h' !! l = Some n' ∧ unlink n' = unlink n.
Proof.
  intros E E1. pose proof (links_only_lookup _ _ l E) as E2.
  rewrite E1 in E2. simpl in E2. symmetry in E2.
  apply fmap_Some in E2 as (n' & ? & ?). eauto.
Qed.

Lemma links_only_size h h' : h ≃ h' → size h = size h'.
Proof.
  intros E. rewrite <-(map_size_fmap unlink h), <-(map_size_fmap unlink h').
  by rewrite E.
Qed.

Lemma links_only_dom h h' : h ≃ h' → dom h = dom h'.
Proof.
  intros E. rewrite <-(dom_fmap_L unlink h), <-(dom_fmap_L unlink h').
  by rewrite E.
Qed.

Lemma links_only_set h l n q :
  h !! l = Some n → h ≃ <[l := nd_set_next q n]> h.
Proof.
  intros E. unfold links_only. rewrite fmap_insert. unfold unlink at 2.
  rewrite nd_set_set. symmetry. apply insert_id. by rewrite lookup_fmap, E.
Qed.

Lemma relinks_refl h fp : relinks h h fp.
Proof. by split. Qed.

Lemma relinks_trans h1 h2 h3 fp : relinks h1 h2 fp → relinks h2 h3 fp → relinks h1 h3 fp.
Proof.
  intros [E1 F1] [E2 F2]. split; [by etrans|].
  intros l Hl. by rewrite F2, F1.
Qed.

Lemma relinks_weaken h1 h2 fp fp' : fp ⊆ fp' → relinks h1 h2 fp → relinks h1 h2 fp'.
Proof. intros Hs [E F]. split; [done|]. intros l Hl. apply F. set_solver. Qed.

Lemma relinks_set h l n q fp :
  h !! l = Some n → l ∈ fp → relinks h (<[l := nd_set_next q n]> h) fp.
Proof.
  intros E Hl. split; [by apply links_only_set|].
  intros k Hk. apply lookup_insert_ne. set_solver.
Qed.

Lemma relinks_lseg h h' fp p ls q :
  relinks h h' fp → ls ## fp → lseg h p ls q → lseg h' p ls q.
Proof. intros [_ F] Hd. apply lseg_frame. intros l Hl. apply F. set_solver. Qed.

(** *** Walking a list to its end *)
Lemma walk_last_spec h fuel l ls c :
  lseg h (Some l) (l :: ls) None → (length ls < fuel)%nat →
  walk_last fuel h (Some l) c = Ret (last (l :: ls), c + Z.of_nat (length ls)).
Proof.
  revert l ls c. induction fuel as [|fuel IH]; intros l ls c Hs Hf; [lia|].
  simpl in Hs. destruct Hs as (_ & n & E & Hs). cbn [walk_last].
  rewrite (load_Some _ _ _ E). cbn [obind].
  destruct (nd_next n) as [w|] eqn:En.
  - pose proof Hs as (ls' & n' & -> & _ & _)%lseg_Some.
    rewrite (IH w ls') by (simpl in *; auto; lia).
    rewrite last_cons_cons. do 2 f_equal. simpl. lia.
  - apply lseg_null in Hs as [-> _]. simpl. do 2 f_equal. lia.
Qed.

(** *** Queues *)
Lemma is_queue_NoDup h hd tl ls : is_queue h hd tl ls → NoDup ls.
Proof. intros [Hs _]. by eapply lseg_NoDup. Qed.

Lemma is_queue_nil h : is_queue h None None [].
Proof. done. Qed.

Lemma is_queue_frame h h' hd tl ls :
  (∀ l, l ∈ ls → h' !! l = h !! l) → is_queue h hd tl ls → is_queue h' hd tl ls.
Proof. intros Hf [Hs Ht]. split; [|done]. by eapply lseg_frame. Qed.

Lemma is_queue_head h hd tl ls : is_queue h hd tl ls → hd = head ls.
Proof. intros [Hs _]. destruct ls; simpl in Hs; naive_solver. Qed.

(** Appending the chain [v :: vs] to the queue [ls]. *)
Lemma link_tail_spec h hd tl ls v vs :
  is_queue h hd tl ls → lseg h (Some v) (v :: vs) None → ls ## v :: vs →
  ∃ h' hd', link_tail h hd tl (Some v) = Ret (h', hd') ∧
    lseg h' hd' (ls ++ v :: vs) None ∧ lseg h' (Some v) (v :: vs) None ∧
    relinks h h' ls.
Proof.
  intros [Hs ->] Hv Hd. destruct ls as [|l ls _] using rev_ind.
  - simpl in *. exists h, (Some v). split; [done|]. split; [done|]. split; [done|]. apply relinks_refl.
  - rewrite last_snoc. cbn [link_tail].
    destruct (lseg_last _ _ _ _ Hs) as (n & E & _).
    rewrite (store_next_Some _ _ _ _ E). cbn [obind].
    eexists _, hd. split; [done|]. split; [|split].
    + rewrite <-app_assoc. apply lseg_link; try done. set_solver.
    + apply lseg_insert_ne; [set_solver|done].
    + apply relinks_set; [done|set_solver].
Qed.

(** A single node is a chain of length one. *)
Lemma lseg_single h l n : h !! l = Some n → nd_next n = None → lseg h (Some l) [l] None.
Proof. intros E Hn. simpl. split; [done|]. eauto. Qed.

(** Linking one node and making it the tail. *)
Lemma put_one_spec h hd tl ls l n :
  is_queue h hd tl ls → h !! l = Some n → nd_next n = None → l ∉ ls →
  ∃ h' hd', link_tail h hd tl (Some l) = Ret (h', hd') ∧
    is_queue h' hd' (Some l) (ls ++ [l]) ∧ relinks h h' ls.
Proof.
  intros Hq E Hn Hl.
  destruct (link_tail_spec h hd tl ls l []) as (h' & hd' & Ht & Hs & _ & Hr);
    [done|by eapply lseg_single|set_solver|].
  eexists h', hd'. split; [done|]. split; [|done]. split; [done|].
  by rewrite last_snoc.
Qed.

(** Linking a whole chain and walking to its end, as [putList] does. *)
Lemma put_chain_spec h hd tl ls v vs c :
  is_queue h hd tl ls → lseg h (Some v) (v :: vs) None → ls ## v :: vs →
  ∃ h' hd' tl', link_tail h hd tl (Some v) = Ret (h', hd') ∧
    walk_last (S (size h')) h' (Some v) c = Ret (tl', c + Z.of_nat (length vs)) ∧
    is_queue h' hd' tl' (ls ++ v :: vs) ∧ relinks h h' ls.
Proof.
  intros Hq Hv Hd.
  destruct (link_tail_spec h hd tl ls v vs) as (h' & hd' & Ht & Hs & Hv' & Hr); auto.
  eexists h', hd', _. split; [done|]. split; [|split; [|done]].
  - apply walk_last_spec; [done|]. apply lseg_length in Hv'. simpl in Hv'. lia.
  - split; [done|]. by rewrite last_app_cons.
Qed.

(** Dropping the first node. *)
Lemma is_queue_cons h hd tl l ls n :
  is_queue h hd tl (l :: ls) → h !! l = Some n →
  hd = Some l ∧ lseg h (nd_next n) ls None ∧
  is_queue h (nd_next n) (match nd_next n with None => None | Some _ => tl end) ls.
Proof.
  intros [(-> & n' & E & Hs) ->] E'. assert (n' = n) as -> by congruence.
  split; [done|]. split; [done|].
  destruct (nd_next n) as [w|] eqn:En.
  - pose proof Hs as (ls' & n' & -> & _ & _)%lseg_Some. split; [done|].
    by rewrite last_cons_cons.
  - by apply lseg_null in Hs as [-> _].
Qed.
End links_lemmas.

(** *** Stores that differ in a set of nodes only *)
Section outside.
Context {N : Type}.
Implicit Types (h : gmap loc N) (ls ks : list loc).

Definition same_outside ls h h' : Prop := ∀ l, l ∉ ls → h' !! l = h !! l.

Lemma same_outside_refl ls h : same_outside ls h h.
Proof. done. Qed.

Lemma same_outside_trans ls h1 h2 h3 :
  same_outside ls h1 h2 → same_outside ls h2 h3 → same_outside ls h1 h3.
Proof. intros H1 H2 l Hl. by rewrite H2, H1. Qed.

Lemma same_outside_weaken ls ks h h' : ls ⊆ ks → same_outside ls h h' → same_outside ks h h'.
Proof. intros Hs H l Hl. apply H. set_solver. Qed.

Lemma same_outside_insert ls h l n : l ∈ ls → same_outside ls h (<[l := n]> h).
Proof. intros Hl k Hk. apply lookup_insert_ne. set_solver. Qed.

Lemma same_outside_delete ls h l : l ∈ ls → same_outside ls h (delete l h).
Proof. intros Hl k Hk. apply lookup_delete_ne. set_solver. Qed.

(** Nodes away from the difference are the same. *)
Lemma same_outside_on ls ks h h' : same_outside ls h h' → ks ## ls → ∀ l, l ∈ ks → h' !! l = h !! l.
Proof. intros H Hd l Hl. apply H. set_solver. Qed.
End outside.

Lemma relinks_outside {N} `{LinkNode N} (h h' : gmap loc N) fp : relinks h h' fp → same_outside fp h h'.
Proof. by intros [_ H']. Qed.

Create HintDb heap.
#[export] Hint Resolve same_outside_refl same_outside_insert same_outside_delete relinks_outside : heap.
#[export] Hint Resolve relinks_refl relinks_set links_only_set : heap.
#[export] Hint Resolve lseg_insert_ne lseg_delete lseg_NoDup : heap.
