(* ===== verification/Bytes.v ===== *)
(** Bytes and buffers.

    Byte order conversion ([htonl]/[ntohl] on a little-endian host), the
    little-endian store of an [int], and bounds-checked access to a [malloc]ed
    buffer whose bytes start indeterminate ([None]). *)
From S2P Require Import Prelude.

(** ** Little-endian words *)
Fixpoint le_bytes (n : nat) (z : Z) : list Z :=
  match n with
  | O => []
  | S n => z mod 256 :: le_bytes n (z / 256)
  end.

Fixpoint le_value (bs : list Z) : Z :=
  match bs with
  | [] => 0
  | b :: bs => b + 256 * le_value bs
  end.

(** [htonl] and [ntohl] both reverse the four bytes of the word. *)
Definition htonl (z : Z) : Z := le_value (rev (le_bytes 4 z)).
Definition ntohl (z : Z) : Z := htonl z.

(** ** Buffers *)
Abbreviation buffer := (list (option Z)).

(** A fresh [malloc(n)]: [n] indeterminate bytes. *)
Definition raw_buffer (n : Z) : buffer := replicate (Z.to_nat n) None.

Definition in_bounds (b : buffer) (off len : Z) : bool :=
  (0 <=? off) && (0 <=? len) && (off + len <=? Z.of_nat (length b)).

(** [memcpy(b + off, bs, |bs|)] *)
Definition write_bytes (b : buffer) (off : Z) (bs : list Z) : outcome buffer :=
  if in_bounds b off (Z.of_nat (length bs))
  then Ret (take (Z.to_nat off) b ++ (Some <$> bs)
            ++ drop (Z.to_nat off + length bs) b)
  else Fault.

(** reading [len] bytes at [b + off]; every byte has to be initialised *)
Definition read_bytes (b : buffer) (off len : Z) : outcome (list Z) :=
  if in_bounds b off len
  then defined (mapM id (take (Z.to_nat len) (drop (Z.to_nat off) b)))
  else Fault.

(** [memcpy(b + dst, b + src, n)] within a buffer, which is undefined when the two ranges
    overlap. *)
Definition memcpy_within (b : buffer) (dst src n : Z) : outcome buffer :=
  if (0 <? n) && (dst <? src + n) && (src <? dst + n) then Fault
  else let* bs := read_bytes b src n in write_bytes b dst bs.

(** ** Lemmas *)
Lemma length_le_bytes n z : length (le_bytes n z) = n.
Proof. revert z. induction n; intros z; simpl; auto. Qed.

Lemma le_bytes_range n z : Forall is_byte (le_bytes n z).
Proof.
  revert z. induction n; intros z; simpl; constructor; auto.
  apply Z.mod_pos_bound. lia.
Qed.

Lemma le_value_range bs :
  Forall is_byte bs → 0 ≤ le_value bs < 256 ^ Z.of_nat (length bs).
Proof.
  induction 1 as [|b bs [Hb1 Hb2] _ IH]; [simpl; lia|].
  cbn [le_value length]. rewrite Nat2Z.inj_succ, Z.pow_succ_r by lia. lia.
Qed.

Lemma le_value_bytes n z : le_value (le_bytes n z) = z mod 256 ^ Z.of_nat n.
Proof.
  revert z. induction n as [|n IH]; intros z.
  - simpl. by rewrite Z.mod_1_r.
  - cbn [le_bytes le_value]. rewrite IH, Nat2Z.inj_succ, Z.pow_succ_r by lia.
    rewrite Z.rem_mul_r by lia. lia.
Qed.

Lemma le_bytes_value bs : Forall is_byte bs → le_bytes (length bs) (le_value bs) = bs.
Proof.
  induction 1 as [|b bs Hb _ IH]; [done|]. cbn [le_value length le_bytes].
  unfold is_byte in Hb. f_equal.
  - rewrite Z.mul_comm, Z.mod_add by lia. by apply Z.mod_small.
  - rewrite Z.mul_comm, Z.div_add, Z.div_small by lia. done.
Qed.

Lemma htonl_range z : 0 ≤ htonl z < 2 ^ 32.
Proof.
  unfold htonl. pose proof (le_value_range (rev (le_bytes 4 z))) as Hr.
  rewrite length_rev, length_le_bytes in Hr.
  apply Hr, Forall_rev, le_bytes_range.
Qed.

Lemma ntohl_htonl z : 0 ≤ z < 2 ^ 32 → ntohl (htonl z) = z.
Proof.
  intros Hz. unfold ntohl. unfold htonl at 1. unfold htonl.
  pose proof (le_bytes_value (rev (le_bytes 4 z))) as E.
  rewrite length_rev, length_le_bytes in E.
  rewrite E by apply Forall_rev, le_bytes_range.
  rewrite rev_involutive, le_value_bytes. apply Z.mod_small. exact Hz.
Qed.

Lemma le_value_le_bytes4 z : 0 ≤ z < 2 ^ 32 → le_value (le_bytes 4 z) = z.
Proof. intros Hz. rewrite le_value_bytes. apply Z.mod_small. exact Hz. Qed.

Lemma in_bounds_true b off len :
  in_bounds b off len = true ↔
  0 ≤ off ∧ 0 ≤ len ∧ off + len ≤ Z.of_nat (length b).
Proof. unfold in_bounds. rewrite !andb_true_iff, !Z.leb_le. tauto. Qed.

Lemma mapM_id_Some (bs : list Z) : mapM id (Some <$> bs) = Some bs.
Proof. apply mapM_Some. induction bs; simpl; by constructor. Qed.

Lemma length_raw_buffer n : 0 ≤ n → Z.of_nat (length (raw_buffer n)) = n.
Proof. intros. unfold raw_buffer. rewrite length_replicate. lia. Qed.

(** What a successful write leaves behind. *)
Lemma write_bytes_spec b off bs :
  0 ≤ off → off + Z.of_nat (length bs) ≤ Z.of_nat (length b) →
  ∃ b', write_bytes b off bs = Ret b' ∧ length b' = length b ∧
    b' = take (Z.to_nat off) b ++ (Some <$> bs) ++ drop (Z.to_nat off + length bs) b.
Proof.
  intros H1 H2. unfold write_bytes.
  rewrite (proj2 (in_bounds_true _ _ _)) by lia.
  eexists. split; [done|]. split; [|done].
  rewrite !length_app, length_fmap, length_take, length_drop. lia.
Qed.

Lemma write_bytes_Ret_inv b off bs b' :
  write_bytes b off bs = Ret b' →
  0 ≤ off ∧ off + Z.of_nat (length bs) ≤ Z.of_nat (length b) ∧ length b' = length b.
Proof.
  unfold write_bytes. case_match eqn:E; [|done]. intros [= <-].
  apply in_bounds_true in E as (? & ? & ?). repeat split; try lia.
  rewrite !length_app, length_fmap, length_take, length_drop. lia.
Qed.

(** Reading a range that was just written. *)
Lemma read_write_eq b off bs b' :
  write_bytes b off bs = Ret b' →
  read_bytes b' off (Z.of_nat (length bs)) = Ret bs.
Proof.
  unfold write_bytes, read_bytes. case_match eqn:E; [|done]. intros [= <-].
  apply in_bounds_true in E as (? & ? & ?).
  rewrite (proj2 (in_bounds_true _ _ _)); last first.
  { rewrite !length_app, length_fmap, length_take, length_drop. lia. }
  rewrite drop_app_length' by (rewrite length_take; lia).
  rewrite take_app_length' by (rewrite length_fmap; lia).
  by rewrite mapM_id_Some.
Qed.

(** Reading a range before the written one. *)
Lemma read_write_before b off bs b' off' len :
  write_bytes b off bs = Ret b' → 0 ≤ len → off' + len ≤ off →
  read_bytes b' off' len = read_bytes b off' len.
Proof.
  intros Hw Hlen Hb. pose proof (write_bytes_Ret_inv _ _ _ _ Hw) as (? & ? & Hl).
  unfold read_bytes, in_bounds. rewrite Hl.
  destruct (decide (0 ≤ off')) as [Ho|Ho]; last first.
  { by rewrite (proj2 (Z.leb_gt 0 off')) by lia. }
  unfold write_bytes in Hw. case_match; [|done]. injection Hw as <-.
  case_match; [|done]. do 2 f_equal.
  rewrite drop_app_le by (rewrite length_take; lia).
  rewrite take_app_le by (rewrite length_drop, length_take; lia).
  by rewrite skipn_firstn_comm, take_take, Nat.min_l by lia.
Qed.

(** Reading a range after the written one. *)
Lemma read_write_after b off bs b' off' len :
  write_bytes b off bs = Ret b' → off + Z.of_nat (length bs) ≤ off' →
  read_bytes b' off' len = read_bytes b off' len.
Proof.
  intros Hw Hb. pose proof (write_bytes_Ret_inv _ _ _ _ Hw) as (? & ? & Hl).
  unfold read_bytes, in_bounds. rewrite Hl. case_match; [|done]. do 3 f_equal.
  unfold write_bytes in Hw. case_match; [|done]. injection Hw as <-.
  rewrite app_assoc. rewrite drop_app_ge
    by (rewrite length_app, length_take, length_fmap; lia).
  rewrite drop_drop. f_equal. rewrite length_app, length_take, length_fmap. lia.
Qed.

Create HintDb bytes.
#[export] Hint Resolve le_bytes_range length_le_bytes htonl_range : bytes.

(** *** Buffers given by their initialised prefix *)
Lemma read_bytes_mid (X Y : list Z) (rest : buffer) :
  read_bytes ((Some <$> X) ++ (Some <$> Y) ++ rest)
    (Z.of_nat (length X)) (Z.of_nat (length Y)) = Ret Y.
Proof.
  unfold read_bytes, in_bounds. rewrite !length_app, !length_fmap.
  rewrite !(proj2 (Z.leb_le _ _)) by lia. cbn [andb].
  rewrite !Nat2Z.id, drop_app_length' by (by rewrite length_fmap).
  rewrite take_app_length' by (by rewrite length_fmap).
  by rewrite mapM_id_Some.
Qed.

Lemma write_bytes_end (X bs : list Z) (rest : buffer) :
  (length bs ≤ length rest)%nat →
  write_bytes ((Some <$> X) ++ rest) (Z.of_nat (length X)) bs =
    Ret ((Some <$> (X ++ bs)) ++ drop (length bs) rest).
Proof.
  intros Hl. unfold write_bytes, in_bounds. rewrite length_app, length_fmap.
  rewrite !(proj2 (Z.leb_le _ _)) by lia. cbn [andb].
  rewrite Nat2Z.id, take_app_length' by (by rewrite length_fmap).
  rewrite fmap_app, <-app_assoc. do 3 f_equal.
  rewrite drop_app_ge by (rewrite length_fmap; lia). f_equal. rewrite length_fmap. lia.
Qed.

Lemma write_bytes_start (bs : list Z) (b : buffer) :
  (length bs ≤ length b)%nat →
  write_bytes b 0 bs = Ret ((Some <$> bs) ++ drop (length bs) b).
Proof. intros Hl. apply (write_bytes_end [] bs b Hl). Qed.

(** Copying the bytes behind the first [k] to the front. *)
Lemma memcpy_front (k : list Z) (p : list Z) (rest : buffer) :
  (length p ≤ length k)%nat →
  memcpy_within ((Some <$> (k ++ p)) ++ rest) 0 (Z.of_nat (length k)) (Z.of_nat (length p)) =
    Ret ((Some <$> p) ++ drop (length p) ((Some <$> (k ++ p)) ++ rest)).
Proof.
  intros Hl. unfold memcpy_within. rewrite Z.add_0_l.
  rewrite (proj2 (Z.ltb_ge (Z.of_nat (length k)) _)), andb_false_r by lia.
  rewrite fmap_app, <-app_assoc, read_bytes_mid. cbn [obind].
  apply write_bytes_start. rewrite !length_app, !length_fmap. lia.
Qed.

Lemma memcpy_front_overlap (b : buffer) (k p : nat) :
  (k < p)%nat → memcpy_within b 0 (Z.of_nat k) (Z.of_nat p) = Fault.
Proof. intros Hl. unfold memcpy_within. by rewrite !(proj2 (Z.ltb_lt _ _)) by lia. Qed.
