(* ===== verification/MsMessage.v ===== *)
(** ms::IMessage (framework/ms/ms_message.h, ms_message.cpp).

    The message record, its frame buffer and the four operations that create,
    re-frame and release it.  A frame is
      | int (length of what follows, network order) | int (magic) | payload |
    so a payload of [n] bytes makes a frame of [n + 8] bytes whose first word
    is [htonl (n + 4)].  Fields the constructors leave unset are [None]. *)
From S2P Require Import Prelude Heap Bytes.

(** ** Constants *)
Definition magic : Z := 0x696D696D.
Definition M_FRAME_BYTES : Z := 4.
Definition M_MAGIC_BYTES : Z := 4.
Definition M_FRAME_DATA (b : Z) : Z := b + M_FRAME_BYTES + M_MAGIC_BYTES.
(** The subtraction is on [size_t]; the result is stored in an [int]. *)
Definition M_FRAME_DATA_SIZE (x : Z) : Z := i32 (u64 (x - M_FRAME_BYTES - M_MAGIC_BYTES)).
Definition M_FRAME_SIZE (x : Z) : Z := i32 (u64 (x + M_FRAME_BYTES + M_MAGIC_BYTES)).

(** enum MESSAGE_TYPE *)
Definition TYPE_UNKNOWN : Z := 0.
Definition APP_REQUEST : Z := 1.
Definition APP_REPLY : Z := 2.
(** enum MESSAGE_SOURCE *)
Definition UNKNOWN : Z := 0.
Definition APP : Z := 1.
Definition BACKEND : Z := 2.

(** The only function the program assigns to [_switch_state]. *)
Inductive switch_fn := switch_state_app_msg.

(** ** The message *)
Record IMessage := mkIMessage {
  msg_b : buffer; (** the frame buffer [_b] points to: its bytes, indeterminate at first *)
  msg_data : Z; (** [_data]: the offset of the payload in [_b] *)
  msg_size : Z; (** allocated size of [_b] *)
  msg_data_len : Z; (** payload length *)
  msg_frame_len : Z; (** frame length *)
  msg_state : option Z; (** connection state the message was read in *)
  msg_uid : Z; (** user *)
  msg_io : Z; (** I/O thread it comes from or goes to *)
  msg_conn : Z; (** connection it comes from or goes to, a [uint64_t] *)
  msg_id : option (list Z); (** message id, eight bytes *)
  msg_priority : Z; (** 4 bits *)
  msg_need_collect : Z; (** 1 bit: collect the message when the push fails *)
  msg_force_push : Z; (** 1 bit *)
  msg_close_conn : Z; (** 1 bit: close the connection instead of sending *)
  msg_type : option Z; (** 2 bits *)
  msg_from : option Z; (** 2 bits *)
  msg_to : option Z; (** 2 bits *)
  msg_push_callback : option Empty_set; (** no function is ever assigned to it *)
  msg_switch_state : option switch_fn; (** called with the connection when pushed *)
  msg_gen_time : option (Z * Z); (** seconds and microseconds *)
  msg_process_begin_time : option (Z * Z);
  msg_process_end_time : option (Z * Z);
  msg_next : ptr (** the intrusive link *)
}.

Abbreviation mheap := (gmap loc IMessage).

(** ** Field assignment *)
Definition set_state (v : option Z) (m : IMessage) : IMessage :=
  mkIMessage
    (msg_b m) (msg_data m) (msg_size m) (msg_data_len m) (msg_frame_len m) v
    (msg_uid m) (msg_io m) (msg_conn m) (msg_id m) (msg_priority m)
    (msg_need_collect m) (msg_force_push m) (msg_close_conn m) (msg_type m)
    (msg_from m) (msg_to m) (msg_push_callback m) (msg_switch_state m)
    (msg_gen_time m) (msg_process_begin_time m) (msg_process_end_time m)
    (msg_next m).
Definition set_uid (v : Z) (m : IMessage) : IMessage :=
  mkIMessage
    (msg_b m) (msg_data m) (msg_size m) (msg_data_len m) (msg_frame_len m)
    (msg_state m) v (msg_io m) (msg_conn m) (msg_id m) (msg_priority m)
    (msg_need_collect m) (msg_force_push m) (msg_close_conn m) (msg_type m)
    (msg_from m) (msg_to m) (msg_push_callback m) (msg_switch_state m)
    (msg_gen_time m) (msg_process_begin_time m) (msg_process_end_time m)
    (msg_next m).
Definition set_io (v : Z) (m : IMessage) : IMessage :=
  mkIMessage
    (msg_b m) (msg_data m) (msg_size m) (msg_data_len m) (msg_frame_len m)
    (msg_state m) (msg_uid m) v (msg_conn m) (msg_id m) (msg_priority m)
    (msg_need_collect m) (msg_force_push m) (msg_close_conn m) (msg_type m)
    (msg_from m) (msg_to m) (msg_push_callback m) (msg_switch_state m)
    (msg_gen_time m) (msg_process_begin_time m) (msg_process_end_time m)
    (msg_next m).
Definition set_conn (v : Z) (m : IMessage) : IMessage :=
  mkIMessage
    (msg_b m) (msg_data m) (msg_size m) (msg_data_len m) (msg_frame_len m)
    (msg_state m) (msg_uid m) (msg_io m) v (msg_id m) (msg_priority m)
    (msg_need_collect m) (msg_force_push m) (msg_close_conn m) (msg_type m)
    (msg_from m) (msg_to m) (msg_push_callback m) (msg_switch_state m)
    (msg_gen_time m) (msg_process_begin_time m) (msg_process_end_time m)
    (msg_next m).
Definition set_id (v : option (list Z)) (m : IMessage) : IMessage :=
  mkIMessage
    (msg_b m) (msg_data m) (msg_size m) (msg_data_len m) (msg_frame_len m)
    (msg_state m) (msg_uid m) (msg_io m) (msg_conn m) v (msg_priority m)
    (msg_need_collect m) (msg_force_push m) (msg_close_conn m) (msg_type m)
    (msg_from m) (msg_to m) (msg_push_callback m) (msg_switch_state m)
    (msg_gen_time m) (msg_process_begin_time m) (msg_process_end_time m)
    (msg_next m).
Definition set_priority (v : Z) (m : IMessage) : IMessage :=
  mkIMessage
    (msg_b m) (msg_data m) (msg_size m) (msg_data_len m) (msg_frame_len m)
    (msg_state m) (msg_uid m) (msg_io m) (msg_conn m) (msg_id m) v
    (msg_need_collect m) (msg_force_push m) (msg_close_conn m) (msg_type m)
    (msg_from m) (msg_to m) (msg_push_callback m) (msg_switch_state m)
    (msg_gen_time m) (msg_process_begin_time m) (msg_process_end_time m)
    (msg_next m).
Definition set_need_collect (v : Z) (m : IMessage) : IMessage :=
  mkIMessage
    (msg_b m) (msg_data m) (msg_size m) (msg_data_len m) (msg_frame_len m)
    (msg_state m) (msg_uid m) (msg_io m) (msg_conn m) (msg_id m)
    (msg_priority m) v (msg_force_push m) (msg_close_conn m) (msg_type m)
    (msg_from m) (msg_to m) (msg_push_callback m) (msg_switch_state m)
    (msg_gen_time m) (msg_process_begin_time m) (msg_process_end_time m)
    (msg_next m).
Definition set_force_push (v : Z) (m : IMessage) : IMessage :=
  mkIMessage
    (msg_b m) (msg_data m) (msg_size m) (msg_data_len m) (msg_frame_len m)
    (msg_state m) (msg_uid m) (msg_io m) (msg_conn m) (msg_id m)
    (msg_priority m) (msg_need_collect m) v (msg_close_conn m) (msg_type m)
    (msg_from m) (msg_to m) (msg_push_callback m) (msg_switch_state m)
    (msg_gen_time m) (msg_process_begin_time m) (msg_process_end_time m)
    (msg_next m).
Definition set_close_conn (v : Z) (m : IMessage) : IMessage :=
  mkIMessage
    (msg_b m) (msg_data m) (msg_size m) (msg_data_len m) (msg_frame_len m)
    (msg_state m) (msg_uid m) (msg_io m) (msg_conn m) (msg_id m)
    (msg_priority m) (msg_need_collect m) (msg_force_push m) v (msg_type m)
    (msg_from m) (msg_to m) (msg_push_callback m) (msg_switch_state m)
    (msg_gen_time m) (msg_process_begin_time m) (msg_process_end_time m)
    (msg_next m).
Definition set_type (v : option Z) (m : IMessage) : IMessage :=
  mkIMessage
    (msg_b m) (msg_data m) (msg_size m) (msg_data_len m) (msg_frame_len m)
    (msg_state m) (msg_uid m) (msg_io m) (msg_conn m) (msg_id m)
    (msg_priority m) (msg_need_collect m) (msg_force_push m)
    (msg_close_conn m) v (msg_from m) (msg_to m) (msg_push_callback m)
    (msg_switch_state m) (msg_gen_time m) (msg_process_begin_time m)
    (msg_process_end_time m) (msg_next m).
Definition set_from (v : option Z) (m : IMessage) : IMessage :=
  mkIMessage
    (msg_b m) (msg_data m) (msg_size m) (msg_data_len m) (msg_frame_len m)
    (msg_state m) (msg_uid m) (msg_io m) (msg_conn m) (msg_id m)
    (msg_priority m) (msg_need_collect m) (msg_force_push m)
    (msg_close_conn m) (msg_type m) v (msg_to m) (msg_push_callback m)
    (msg_switch_state m) (msg_gen_time m) (msg_process_begin_time m)
    (msg_process_end_time m) (msg_next m).
Definition set_to (v : option Z) (m : IMessage) : IMessage :=
  mkIMessage
    (msg_b m) (msg_data m) (msg_size m) (msg_data_len m) (msg_frame_len m)
    (msg_state m) (msg_uid m) (msg_io m) (msg_conn m) (msg_id m)
    (msg_priority m) (msg_need_collect m) (msg_force_push m)
    (msg_close_conn m) (msg_type m) (msg_from m) v (msg_push_callback m)
    (msg_switch_state m) (msg_gen_time m) (msg_process_begin_time m)
    (msg_process_end_time m) (msg_next m).
Definition set_switch_state (v : option switch_fn) (m : IMessage) : IMessage :=
  mkIMessage
    (msg_b m) (msg_data m) (msg_size m) (msg_data_len m) (msg_frame_len m)
    (msg_state m) (msg_uid m) (msg_io m) (msg_conn m) (msg_id m)
    (msg_priority m) (msg_need_collect m) (msg_force_push m)
    (msg_close_conn m) (msg_type m) (msg_from m) (msg_to m)
    (msg_push_callback m) v (msg_gen_time m) (msg_process_begin_time m)
    (msg_process_end_time m) (msg_next m).
Definition set_gen_time (v : option (Z * Z)) (m : IMessage) : IMessage :=
  mkIMessage
    (msg_b m) (msg_data m) (msg_size m) (msg_data_len m) (msg_frame_len m)
    (msg_state m) (msg_uid m) (msg_io m) (msg_conn m) (msg_id m)
    (msg_priority m) (msg_need_collect m) (msg_force_push m)
    (msg_close_conn m) (msg_type m) (msg_from m) (msg_to m)
    (msg_push_callback m) (msg_switch_state m) v (msg_process_begin_time m)
    (msg_process_end_time m) (msg_next m).
Definition set_process_begin_time (v : option (Z * Z)) (m : IMessage) : IMessage :=
  mkIMessage
    (msg_b m) (msg_data m) (msg_size m) (msg_data_len m) (msg_frame_len m)
    (msg_state m) (msg_uid m) (msg_io m) (msg_conn m) (msg_id m)
    (msg_priority m) (msg_need_collect m) (msg_force_push m)
    (msg_close_conn m) (msg_type m) (msg_from m) (msg_to m)
    (msg_push_callback m) (msg_switch_state m) (msg_gen_time m) v
    (msg_process_end_time m) (msg_next m).
Definition set_process_end_time (v : option (Z * Z)) (m : IMessage) : IMessage :=
  mkIMessage
    (msg_b m) (msg_data m) (msg_size m) (msg_data_len m) (msg_frame_len m)
    (msg_state m) (msg_uid m) (msg_io m) (msg_conn m) (msg_id m)
    (msg_priority m) (msg_need_collect m) (msg_force_push m)
    (msg_close_conn m) (msg_type m) (msg_from m) (msg_to m)
    (msg_push_callback m) (msg_switch_state m) (msg_gen_time m)
    (msg_process_begin_time m) v (msg_next m).
Definition set_next (v : ptr) (m : IMessage) : IMessage :=
  mkIMessage
    (msg_b m) (msg_data m) (msg_size m) (msg_data_len m) (msg_frame_len m)
    (msg_state m) (msg_uid m) (msg_io m) (msg_conn m) (msg_id m)
    (msg_priority m) (msg_need_collect m) (msg_force_push m)
    (msg_close_conn m) (msg_type m) (msg_from m) (msg_to m)
    (msg_push_callback m) (msg_switch_state m) (msg_gen_time m)
    (msg_process_begin_time m) (msg_process_end_time m) v.
(** the buffer fields, set together *)
Definition set_frame (v_b : buffer) (v_data : Z) (v_size : Z) (v_data_len : Z) (v_frame_len : Z) (m : IMessage) : IMessage :=
  mkIMessage
    v_b v_data v_size v_data_len v_frame_len (msg_state m) (msg_uid m)
    (msg_io m) (msg_conn m) (msg_id m) (msg_priority m) (msg_need_collect m)
    (msg_force_push m) (msg_close_conn m) (msg_type m) (msg_from m) (msg_to m)
    (msg_push_callback m) (msg_switch_state m) (msg_gen_time m)
    (msg_process_begin_time m) (msg_process_end_time m) (msg_next m).
Definition set_b (v : buffer) (m : IMessage) : IMessage :=
  mkIMessage
    v (msg_data m) (msg_size m) (msg_data_len m) (msg_frame_len m)
    (msg_state m) (msg_uid m) (msg_io m) (msg_conn m) (msg_id m)
    (msg_priority m) (msg_need_collect m) (msg_force_push m)
    (msg_close_conn m) (msg_type m) (msg_from m) (msg_to m)
    (msg_push_callback m) (msg_switch_state m) (msg_gen_time m)
    (msg_process_begin_time m) (msg_process_end_time m) (msg_next m).

#[export] Program Instance IMessage_link : LinkNode IMessage :=
  {| nd_next := msg_next; nd_set_next := set_next |}.
Next Obligation. done. Qed.
Next Obligation. done. Qed.
Next Obligation. by intros []. Qed.

(** ** Operations *)

(** [frame[0] = htonl(len + M_MAGIC_BYTES); frame[1] = magic;] *)
Definition write_header (buf : buffer) (len : Z) : outcome buffer :=
  let* buf := write_bytes buf 0 (le_bytes 4 (htonl (u32 (len + M_MAGIC_BYTES)))) in
  write_bytes buf 4 (le_bytes 4 magic).

(** The fields both constructors set. *)
Definition new_message (buf : buffer) (size data_len frame_len : Z) : IMessage :=
  {| msg_b := buf; msg_data := M_FRAME_DATA 0; msg_size := size;
     msg_data_len := data_len; msg_frame_len := frame_len;
     msg_state := None; msg_uid := -1; msg_io := -1; msg_conn := u64 (-1);
     msg_id := None; msg_priority := 15; msg_need_collect := 0;
     msg_force_push := 0; msg_close_conn := 0; msg_type := Some 0;
     msg_from := None; msg_to := None; msg_push_callback := None;
     msg_switch_state := None; msg_gen_time := None;
     msg_process_begin_time := None; msg_process_end_time := None;
     msg_next := None |}.

(** [malloc(n)] of a buffer: a negative [int] becomes a [size_t] no allocator
    can serve, the null result takes the [abort()] branch. *)
Definition malloc_buffer (n : Z) : outcome buffer :=
  if n <? 0 then Abort else Ret (raw_buffer n).

(** [createIMessage(const char* b, int len)]: [b] is the memory readable at the
    pointer; [memcpy] takes [len] as a [size_t]. *)
Definition createIMessage_frame (h : mheap) (b : list Z) (len : Z)
    : outcome (loc * mheap) :=
  let want := len + 32 in
  if 2 ^ 31 <=? want then Fault else
  let* buf := malloc_buffer want in
  if (0 <=? len) && (len <=? Z.of_nat (length b)) then
    let* buf := write_bytes buf 0 (take (Z.to_nat len) b) in
    Ret (alloc h (new_message buf want (M_FRAME_DATA_SIZE len) len))
  else Fault.

(** [createIMessage(int len)] *)
Definition createIMessage (h : mheap) (len : Z) : outcome (loc * mheap) :=
  let want := M_FRAME_SIZE len in
  let* buf := malloc_buffer want in
  let* buf := write_header buf len in
  Ret (alloc h (new_message buf want len want)).

(** The body of [fixIMessage] on the pointed-to message. *)
Definition fix_frame (m : IMessage) (len : Z) : outcome IMessage :=
  let want := M_FRAME_SIZE len in
  if want <=? msg_size m then
    let* buf := write_header (msg_b m) len in
    Ret (set_frame buf (msg_data m) (msg_size m) len want m)
  else
    let* buf := malloc_buffer want in
    let* buf := write_header buf len in
    Ret (set_frame buf (M_FRAME_DATA 0) want len want m).

(** [fixIMessage(IMessage* msg, int len)]; it returns [msg] itself. *)
Definition fixIMessage (h : mheap) (msg : ptr) (len : Z) : outcome mheap :=
  let* m := load h msg in
  let* m' := fix_frame m len in
  store h msg m'.

(** [releaseIMessage(void* v)] *)
Definition releaseIMessage (h : mheap) (v : ptr) : outcome mheap := dealloc h v.

(** [memcpy(msg->_data, bs, |bs|)] and [SerializeToArray(msg->_data, |bs|)] *)
Definition write_data (h : mheap) (msg : ptr) (bs : list Z) : outcome mheap :=
  let* m := load h msg in
  let* buf := write_bytes (msg_b m) (msg_data m) bs in
  store h msg (set_b buf m).

(** the [_data_len] bytes at [_data] *)
Definition read_data (m : IMessage) : outcome (list Z) :=
  read_bytes (msg_b m) (msg_data m) (msg_data_len m).

(** A single field store through a pointer. *)
Definition modify (h : mheap) (msg : ptr) (f : IMessage → IMessage) : outcome mheap :=
  let* m := load h msg in store h msg (f m).

(** ** Well-formed messages *)

(** The buffer has the recorded size and the frame fits in it. *)
Definition wf_msg (m : IMessage) : Prop :=
  Z.of_nat (length (msg_b m)) = msg_size m ∧
  msg_data m = 8 ∧
  0 ≤ msg_data_len m ∧
  msg_frame_len m = msg_data_len m + 8 ∧
  msg_frame_len m ≤ msg_size m ∧
  msg_size m < 2 ^ 31.

(** The header of a frame that carries [n] payload bytes. *)
Definition header_bytes (n : Z) : list Z :=
  le_bytes 4 (htonl (n + 4)) ++ le_bytes 4 magic.

(** The frame is ready for the socket: header in place. *)
Definition framed (m : IMessage) : Prop :=
  wf_msg m ∧ read_bytes (msg_b m) 0 8 = Ret (header_bytes (msg_data_len m)).

(** [readSocket]'s view of a frame: the size announced by its first word. *)
Definition announced_size (bs : list Z) : Z :=
  u32 (ntohl (le_value (take 4 bs)) + 4).

(** ** Lemmas *)
Lemma i32_id z : - 2 ^ 31 ≤ z < 2 ^ 31 → i32 z = z.
Proof. intros. unfold i32. rewrite Z.mod_small; lia. Qed.

Lemma i32_u64 z : - 2 ^ 31 ≤ z < 2 ^ 31 → i32 (u64 z) = z.
Proof.
  intros. unfold i32, u64. change (2 ^ 32) with 4294967296.
  change (2 ^ 64) with (4294967296 * 4294967296). change (2 ^ 31) with 2147483648 in *.
  rewrite <-(Zplus_mod_idemp_l (z mod _)).
  replace ((z mod (4294967296 * 4294967296)) mod 4294967296) with (z mod 4294967296).
  - rewrite Zplus_mod_idemp_l. rewrite Z.mod_small; lia.
  - rewrite Z.rem_mul_r by lia. rewrite Z.mul_comm, Z.mod_add by lia.
    by rewrite Z.mod_mod by lia.
Qed.

Lemma M_FRAME_SIZE_eq len : 0 ≤ len < 2 ^ 31 - 8 → M_FRAME_SIZE len = len + 8.
Proof.
  intros. unfold M_FRAME_SIZE, M_FRAME_BYTES, M_MAGIC_BYTES.
  rewrite i32_u64; lia.
Qed.

Lemma M_FRAME_DATA_SIZE_eq len :
  8 - 2 ^ 31 ≤ len < 2 ^ 31 → M_FRAME_DATA_SIZE len = len - 8.
Proof.
  intros. unfold M_FRAME_DATA_SIZE, M_FRAME_BYTES, M_MAGIC_BYTES.
  rewrite i32_u64; lia.
Qed.

Lemma length_header_bytes n : length (header_bytes n) = 8%nat.
Proof. unfold header_bytes. by rewrite length_app, !length_le_bytes. Qed.

Lemma read_bytes_app buf off n k xs ys :
  read_bytes buf off n = Ret xs → read_bytes buf (off + n) k = Ret ys →
  read_bytes buf off (n + k) = Ret (xs ++ ys).
Proof.
  unfold read_bytes. case_match eqn:E1; [|done]. case_match eqn:E2; [|done].
  apply in_bounds_true in E1, E2. intros Hx Hy.
  rewrite (proj2 (in_bounds_true _ _ _)) by lia.
  unfold defined in *.
  destruct (mapM id (take (Z.to_nat n) _)) as [xs'|] eqn:Ex; simplify_eq.
  destruct (mapM id (take (Z.to_nat k) _)) as [ys'|] eqn:Ey; simplify_eq.
  rewrite Z2Nat.inj_add by lia.
  rewrite <-take_take_drop, drop_drop, <-Z2Nat.inj_add by lia.
  apply mapM_Some in Ex. apply mapM_Some in Ey.
  by rewrite (proj2 (mapM_Some _ _ (xs ++ ys)) (Forall2_app Ex Ey)).
Qed.

Lemma write_header_spec buf len :
  0 ≤ len < 2 ^ 31 - 8 → 8 ≤ Z.of_nat (length buf) →
  ∃ buf', write_header buf len = Ret buf' ∧ length buf' = length buf ∧
    read_bytes buf' 0 8 = Ret (header_bytes len) ∧
    ∀ off n, 8 ≤ off → read_bytes buf' off n = read_bytes buf off n.
Proof.
  intros Hlen Hb. unfold write_header.
  assert (u32 (len + M_MAGIC_BYTES) = len + 4) as ->
    by (unfold u32, M_MAGIC_BYTES; rewrite Z.mod_small; lia).
  destruct (write_bytes_spec buf 0 (le_bytes 4 (htonl (len + 4))))
    as (b1 & E1 & L1 & _); [lia|rewrite length_le_bytes; lia|].
  rewrite E1. cbn [obind].
  destruct (write_bytes_spec b1 4 (le_bytes 4 magic))
    as (b2 & E2 & L2 & _); [lia|rewrite length_le_bytes; lia|].
  rewrite E2. exists b2. split; [done|]. split; [congruence|]. split.
  - apply (read_bytes_app b2 0 4 4).
    + rewrite (read_write_before _ _ _ _ 0 4 E2) by lia.
      pose proof (read_write_eq _ _ _ _ E1) as R. by rewrite length_le_bytes in R.
    + pose proof (read_write_eq _ _ _ _ E2) as R. by rewrite length_le_bytes in R.
  - intros off n Hoff.
    rewrite (read_write_after _ _ _ _ off n E2) by (rewrite length_le_bytes; lia).
    by rewrite (read_write_after _ _ _ _ off n E1) by (rewrite length_le_bytes; lia).
Qed.

Lemma malloc_buffer_spec n : 0 ≤ n →
  malloc_buffer n = Ret (raw_buffer n) ∧ Z.of_nat (length (raw_buffer n)) = n.
Proof.
  intros. unfold malloc_buffer. rewrite (proj2 (Z.ltb_ge n 0)) by lia.
  split; [done|]. by apply length_raw_buffer.
Qed.

Lemma createIMessage_spec h len :
  0 ≤ len < 2 ^ 31 - 8 →
  ∃ l m, createIMessage h len = Ret (l, <[l := m]> h) ∧ h !! l = None ∧
    framed m ∧ msg_data_len m = len ∧ msg_size m = len + 8 ∧
    m = new_message (msg_b m) (len + 8) len (len + 8).
Proof.
  intros Hlen. unfold createIMessage. rewrite M_FRAME_SIZE_eq by lia.
  destruct (malloc_buffer_spec (len + 8)) as [-> Hl]; [lia|]. cbn [obind].
  destruct (write_header_spec (raw_buffer (len + 8)) len)
    as (buf & -> & Lb & Rh & _); [lia|lia|]. cbn [obind].
  destruct (alloc h _) as [l h'] eqn:Ea. apply alloc_fresh in Ea as [Hn ->].
  eexists l, _. split; [done|]. split; [done|]. repeat split; simpl; try lia.
  exact Rh.
Qed.

Lemma fix_frame_spec m len :
  wf_msg m → 0 ≤ len < 2 ^ 31 - 8 →
  ∃ buf size, fix_frame m len = Ret (set_frame buf 8 size len (len + 8) m) ∧
    framed (set_frame buf 8 size len (len + 8) m).
Proof.
  intros (Hb & Hd & Hl & Hf & Hs & Hm) Hlen. unfold fix_frame.
  rewrite M_FRAME_SIZE_eq by lia.
  destruct (len + 8 <=? msg_size m) eqn:E.
  - apply Z.leb_le in E.
    destruct (write_header_spec (msg_b m) len) as (buf & -> & Lb & Rh & _); [lia|lia|].
    cbn [obind]. rewrite Hd. eexists buf, _. split; [done|].
    repeat split; simpl; try lia. exact Rh.
  - apply Z.leb_gt in E.
    destruct (malloc_buffer_spec (len + 8)) as [-> Hr]; [lia|]. cbn [obind].
    destruct (write_header_spec (raw_buffer (len + 8)) len)
      as (buf & -> & Lb & Rh & _); [lia|lia|].
    cbn [obind]. eexists buf, _. split; [done|].
    repeat split; simpl; try lia. exact Rh.
Qed.

Lemma fixIMessage_spec h l m len :
  h !! l = Some m → wf_msg m → 0 ≤ len < 2 ^ 31 - 8 →
  ∃ buf size, let m' := set_frame buf 8 size len (len + 8) m in
    fixIMessage h (Some l) len = Ret (<[l := m']> h) ∧ framed m'.
Proof.
  intros E Hw Hlen. unfold fixIMessage. rewrite (load_Some _ _ _ E). cbn [obind].
  destruct (fix_frame_spec m len Hw Hlen) as (buf & size & -> & Hf).
  cbn [obind]. rewrite (store_Some _ _ _ _ E). eauto.
Qed.

(** Filling the payload keeps the frame and makes the bytes readable. *)
Lemma write_data_spec h l m bs :
  h !! l = Some m → framed m → Z.of_nat (length bs) = msg_data_len m →
  ∃ buf, write_data h (Some l) bs = Ret (<[l := set_b buf m]> h) ∧
    framed (set_b buf m) ∧ read_data (set_b buf m) = Ret bs.
Proof.
  intros E ((Hb & Hd & Hl & Hf & Hs & Hm) & Rh) Hlen. unfold write_data.
  rewrite (load_Some _ _ _ E). cbn [obind].
  destruct (write_bytes_spec (msg_b m) (msg_data m) bs) as (buf & Ew & Lb & _);
    [lia|lia|].
  rewrite Ew. cbn [obind]. rewrite (store_Some _ _ _ _ E).
  exists buf. split; [done|]. split.
  - repeat split; simpl; try lia; try done.
    rewrite (read_write_before _ _ _ _ 0 8 Ew) by lia. exact Rh.
  - unfold read_data. simpl. rewrite <-Hlen. by eapply read_write_eq.
Qed.

Lemma announced_header n bs :
  0 ≤ n < 2 ^ 31 - 8 → announced_size (header_bytes n ++ bs) = n + 8.
Proof.
  intros Hn. unfold announced_size, header_bytes.
  rewrite <-app_assoc, take_app_length' by (by rewrite length_le_bytes).
  rewrite le_value_le_bytes4 by apply htonl_range.
  rewrite ntohl_htonl by lia. unfold u32. rewrite Z.mod_small; lia.
Qed.

Lemma read_bytes_length buf off n xs :
  read_bytes buf off n = Ret xs → Z.of_nat (length xs) = n.
Proof.
  unfold read_bytes. case_match eqn:E; [|done]. apply in_bounds_true in E.
  unfold defined. case_match eqn:E2; [|done]. intros [= <-].
  apply mapM_Some, Forall2_length in E2.
  rewrite length_take, length_drop in E2. lia.
Qed.

(** A filled frame reads back as header and payload. *)
Lemma framed_read m bs :
  framed m → read_data m = Ret bs →
  read_bytes (msg_b m) 0 (msg_frame_len m) = Ret (header_bytes (msg_data_len m) ++ bs).
Proof.
  intros ((Hb & Hd & Hl & Hf & Hs & Hm) & Rh) Hr. unfold read_data in Hr.
  rewrite Hf, Z.add_comm. apply read_bytes_app; [done|].
  by rewrite Hd in Hr.
Qed.

(** The message a peer builds from received frame bytes. *)
Lemma createIMessage_frame_spec h bs :
  8 ≤ Z.of_nat (length bs) < 2 ^ 31 - 32 →
  ∃ l m, createIMessage_frame h bs (Z.of_nat (length bs)) = Ret (l, <[l := m]> h) ∧
    h !! l = None ∧ wf_msg m ∧ read_data m = Ret (drop 8 bs) ∧
    msg_data_len m = Z.of_nat (length bs) - 8 ∧
    m = new_message (msg_b m) (Z.of_nat (length bs) + 32)
          (Z.of_nat (length bs) - 8) (Z.of_nat (length bs)).
Proof.
  intros Hl. unfold createIMessage_frame. rewrite (proj2 (Z.leb_gt (2 ^ 31) _)) by lia.
  destruct (malloc_buffer_spec (Z.of_nat (length bs) + 32)) as [-> Hr]; [lia|].
  cbn [obind].
  rewrite (proj2 (Z.leb_le 0 _)), (proj2 (Z.leb_le _ (Z.of_nat (length bs)))) by lia.
  rewrite Nat2Z.id, firstn_all. cbn [andb].
  destruct (write_bytes_spec (raw_buffer (Z.of_nat (length bs) + 32)) 0 bs)
    as (buf & Ew & Lb & Eb); [lia|lia|].
  rewrite Ew. cbn [obind].
  destruct (alloc h _) as [l h'] eqn:Ea. apply alloc_fresh in Ea as [Hn ->].
  rewrite M_FRAME_DATA_SIZE_eq by lia.
  eexists l, _. split; [done|]. split; [done|].
  repeat split; simpl; try lia.
  unfold read_data, read_bytes. simpl.
  rewrite (proj2 (in_bounds_true _ _ _)) by (change (M_FRAME_DATA 0) with 8; lia).
  rewrite Eb, take_0. change (Z.to_nat (M_FRAME_DATA 0)) with 8%nat. simpl.
  rewrite skipn_app, length_fmap.
  replace (8 - length bs)%nat with 0%nat by lia. rewrite drop_0.
  rewrite take_app_le by (rewrite length_drop, length_fmap; lia).
  rewrite take_ge by (rewrite length_drop, length_fmap; lia).
  by rewrite <-fmap_drop, mapM_id_Some.
Qed.

(** ** Properties *)

(** a reply built with [createIMessage(len)] and filled with its payload is
    a frame a reader takes back: the frame bytes are the header and the
    payload, the first word announces exactly the frame length, rebuilding a
    message from those bytes gives the same payload, and no other message of
    the store changes. *)
Theorem reply_frame_roundtrip h payload
    (Hlen : Z.of_nat (length payload) < 2 ^ 31 - 40) :
  ∃ l m h1 h2 frame,
    createIMessage h (Z.of_nat (length payload)) = Ret (l, h1) ∧
    write_data h1 (Some l) payload = Ret h2 ∧
    h2 !! l = Some m ∧
    read_bytes (msg_b m) 0 (msg_frame_len m) = Ret frame ∧
    announced_size frame = msg_frame_len m ∧
    (∀ k, k ≠ l → h2 !! k = h !! k) ∧
    ∃ l' m', createIMessage_frame h2 frame (msg_frame_len m) = Ret (l', <[l' := m']> h2) ∧
      read_data m' = Ret payload.
Proof.
  destruct (createIMessage_spec h (Z.of_nat (length payload)))
    as (l & m & Hc & Hn & Hf & Hd & Hs & _); [lia|].
  destruct (write_data_spec (<[l := m]> h) l m payload)
    as (buf & Hw & Hf' & Hr); [by rewrite lookup_insert_eq|done|done|].
  rewrite insert_insert_eq in Hw.
  pose proof (framed_read _ _ Hf' Hr) as Hread.
  eexists l, (set_b buf m), _, _, _.
  split; [done|]. split; [done|]. split; [by rewrite lookup_insert_eq|].
  split; [exact Hread|].
  cbn [set_b msg_frame_len msg_data_len msg_b] in *. rewrite Hd.
  destruct Hf as ((_ & _ & _ & Hfl & _) & _).
  split; [rewrite announced_header; lia|]. split.
  { intros k Hk. by rewrite lookup_insert_ne. }
  set (frame := header_bytes _ ++ _).
  assert (Hlf : Z.of_nat (length frame) = msg_frame_len m).
  { unfold frame. rewrite length_app, length_header_bytes. lia. }
  rewrite <-Hlf.
  destruct (createIMessage_frame_spec (<[l := set_b buf m]> h) frame)
    as (l' & m' & ? & _ & _ & Hr' & _); [lia|].
  exists l', m'. split; [done|]. rewrite Hr'. unfold frame.
  by rewrite drop_app_length' by (by rewrite length_header_bytes).
Qed.

Lemma reply_frame_roundtrip_witness :
  ∃ l m h1 h2 frame,
    createIMessage ∅ 3 = Ret (l, h1) ∧ write_data h1 (Some l) [7; 8; 9] = Ret h2 ∧
    h2 !! l = Some m ∧ read_bytes (msg_b m) 0 (msg_frame_len m) = Ret frame ∧
    announced_size frame = msg_frame_len m ∧
    (∀ k, k ≠ l → h2 !! k = (∅ : mheap) !! k) ∧
    ∃ l' m', createIMessage_frame h2 frame (msg_frame_len m) = Ret (l', <[l' := m']> h2) ∧
      read_data m' = Ret [7; 8; 9].
Proof. apply (reply_frame_roundtrip ∅ [7; 8; 9]). vm_compute. reflexivity. Defined.

(** [fixIMessage] re-frames any well-formed message for any payload length:
    it neither faults nor aborts, the header is in place, the buffer is large
    enough (it is replaced exactly when it was too small), every other field
    and every other message is unchanged. *)
Theorem fixIMessage_reframes h l m len
    (Hl : h !! l = Some m) (Hwf : wf_msg m) (Hlen : 0 ≤ len < 2 ^ 31 - 8) :
  ∃ buf size, fixIMessage h (Some l) len
      = Ret (<[l := set_frame buf 8 size len (len + 8) m]> h) ∧
    framed (set_frame buf 8 size len (len + 8) m) ∧
    size = Z.max (msg_size m) (len + 8).
Proof.
  unfold fixIMessage. rewrite (load_Some _ _ _ Hl). cbn [obind].
  unfold fix_frame. rewrite M_FRAME_SIZE_eq by lia.
  destruct Hwf as (Hb & Hd & Hl' & Hf & Hs & Hm).
  destruct (len + 8 <=? msg_size m) eqn:E; [apply Z.leb_le in E|apply Z.leb_gt in E].
  - destruct (write_header_spec (msg_b m) len) as (buf & -> & Lb & Rh & _); [lia|lia|].
    cbn [obind]. rewrite (store_Some _ _ _ _ Hl), Hd. eexists buf, _.
    split; [done|]. split; [|lia]. repeat split; simpl; try lia. exact Rh.
  - destruct (malloc_buffer_spec (len + 8)) as [-> Hr]; [lia|]. cbn [obind].
    destruct (write_header_spec (raw_buffer (len + 8)) len)
      as (buf & -> & Lb & Rh & _); [lia|lia|].
    cbn [obind]. rewrite (store_Some _ _ _ _ Hl). eexists buf, _.
    split; [done|]. split; [|lia]. repeat split; simpl; try lia. exact Rh.
Qed.

Lemma fixIMessage_reframes_witness :
  let m := new_message (raw_buffer 10) 10 2 10 in
  ∃ buf size, fixIMessage {[1%positive := m]} (Some 1%positive) 40
      = Ret (<[1%positive := set_frame buf 8 size 40 48 m]> {[1%positive := m]}) ∧
    framed (set_frame buf 8 size 40 48 m) ∧ size = Z.max (msg_size m) 48.
Proof.
  apply (fixIMessage_reframes {[1%positive := new_message (raw_buffer 10) 10 2 10]}
           1%positive (new_message (raw_buffer 10) 10 2 10) 40).
  - reflexivity.
  - repeat split; vm_compute; congruence.
  - split; vm_compute; congruence.
Defined.
