(* ===== verification/MsQueues.v ===== *)
(** The message queues (framework/ms/ms_message_queue.cpp,
    ms_message_unsafe_queue.cpp, ms_message_block_queue.cpp,
    ms_message_block_queue_limit.cpp, ms_message_priority_queue.cpp).

    All of them link messages through [IMessage::_next].  A method runs between
    [pthread_mutex_lock] and [pthread_mutex_unlock] (or on one thread for the
    unsafe queue), so each is one atomic function on the store and the queue
    record; [pthread_cond_wait] on an empty queue is the outcome [Wait].
    Which consumers sleep, and whom [pthread_cond_signal] wakes, is part of the histories
    of the block queue ([bq_world], [cond_signal]).
    Sizes are [int]s bounded by the number of live messages. *)
From S2P Require Import Prelude Heap Bytes MsMessage.

(** ** ms::MsMessageQueue *)
Record MsMessageQueue := { mq_head : ptr; mq_tail : ptr }.

Definition MsMessageQueue_new : MsMessageQueue := {| mq_head := None; mq_tail := None |}.

(** Takes the whole list. *)
Definition MsMessageQueue_get (q : MsMessageQueue) : ptr * MsMessageQueue :=
  (mq_head q, {| mq_head := None; mq_tail := None |}).

(** Appends the list that starts at [v]. *)
Definition MsMessageQueue_put (h : mheap) (q : MsMessageQueue) (v : ptr)
    : outcome (mheap * MsMessageQueue) :=
  let* (h, hd) := link_tail h (mq_head q) (mq_tail q) v in
  let* (t, _) := walk_last (S (size h)) h v 1 in
  Ret (h, {| mq_head := hd; mq_tail := t |}).

(** ** ms::MsMessageUnsafeQueue *)
Record MsMessageUnsafeQueue := { uq_head : ptr; uq_tail : ptr; uq_total_size : Z }.

Definition MsMessageUnsafeQueue_new : MsMessageUnsafeQueue :=
  {| uq_head := None; uq_tail := None; uq_total_size := 0 |}.

Definition MsMessageUnsafeQueue_getAll (q : MsMessageUnsafeQueue)
    : ptr * MsMessageUnsafeQueue :=
  (uq_head q, {| uq_head := None; uq_tail := None; uq_total_size := 0 |}).

Definition MsMessageUnsafeQueue_get (h : mheap) (q : MsMessageUnsafeQueue)
    : outcome (ptr * MsMessageUnsafeQueue) :=
  match uq_head q with
  | None => Ret (None, q)
  | Some l =>
      let* m := load h (Some l) in
      let hd := msg_next m in
      Ret (Some l,
           {| uq_head := hd;
              uq_tail := match hd with None => None | Some _ => uq_tail q end;
              uq_total_size := uq_total_size q - 1 |})
  end.

(** It does not reset [msg->_next]. *)
Definition MsMessageUnsafeQueue_put (h : mheap) (q : MsMessageUnsafeQueue) (msg : ptr)
    : outcome (mheap * MsMessageUnsafeQueue) :=
  let* (h, hd) := link_tail h (uq_head q) (uq_tail q) msg in
  Ret (h, {| uq_head := hd; uq_tail := msg; uq_total_size := uq_total_size q + 1 |}).

(** ** ms::MsMessageBlockQueue *)
Record MsMessageBlockQueue := { bq_list : ptr; bq_tail : ptr; bq_list_size : Z }.

Definition MsMessageBlockQueue_new : MsMessageBlockQueue :=
  {| bq_list := None; bq_tail := None; bq_list_size := 0 |}.

Definition MsMessageBlockQueue_getQueueSize (q : MsMessageBlockQueue) : Z :=
  bq_list_size q.

Definition MsMessageBlockQueue_get (q : MsMessageBlockQueue)
    : outcome (ptr * MsMessageBlockQueue) :=
  if bq_list_size q =? 0 then Wait
  else Ret (bq_list q, {| bq_list := None; bq_tail := None; bq_list_size := 0 |}).

(** [while (--count) item = item->_next;] *)
Fixpoint advance (fuel : nat) (h : mheap) (item : ptr) (count : Z) : outcome ptr :=
  match fuel with
  | O => Diverge
  | S fuel =>
      let count := count - 1 in
      if count =? 0 then Ret item
      else let* m := load h item in advance fuel h (msg_next m) count
  end.

Definition MsMessageBlockQueue_getN (h : mheap) (q : MsMessageBlockQueue) (count : Z)
    : outcome (ptr * mheap * MsMessageBlockQueue) :=
  if bq_list_size q =? 0 then Wait
  else if count <? bq_list_size q then
    let* item := advance (S (size h)) h (bq_list q) count in
    let* m := load h item in
    let* h' := store_next h item None in
    Ret (bq_list q, h',
         {| bq_list := msg_next m; bq_tail := bq_tail q;
            bq_list_size := bq_list_size q - count |})
  else
    Ret (bq_list q, h, {| bq_list := None; bq_tail := None; bq_list_size := 0 |}).

Definition MsMessageBlockQueue_put (h : mheap) (q : MsMessageBlockQueue) (v : ptr)
    : outcome (mheap * MsMessageBlockQueue) :=
  let* h := store_next h v None in
  let* (h, hd) := link_tail h (bq_list q) (bq_tail q) v in
  Ret (h, {| bq_list := hd; bq_tail := v; bq_list_size := bq_list_size q + 1 |}).

Definition MsMessageBlockQueue_putList (h : mheap) (q : MsMessageBlockQueue) (v : ptr)
    : outcome (mheap * MsMessageBlockQueue) :=
  let* (h, hd) := link_tail h (bq_list q) (bq_tail q) v in
  let* (t, count) := walk_last (S (size h)) h v 1 in
  Ret (h, {| bq_list := hd; bq_tail := t; bq_list_size := bq_list_size q + count |}).

(** ** io::MsMessageBlockQueueLimit *)
Inductive limit_flag := NORMAL | BLOCK.

Record MsMessageBlockQueueLimit := {
  lq_list : ptr; lq_tail : ptr; lq_list_size : Z;
  lq_block_threshold : Z; lq_unblock_threshold : Z; lq_flag : limit_flag }.

Definition MsMessageBlockQueueLimit_new : MsMessageBlockQueueLimit :=
  {| lq_list := None; lq_tail := None; lq_list_size := 0;
     lq_block_threshold := 10000; lq_unblock_threshold := 5000; lq_flag := NORMAL |}.

Definition lq_with_list (q : MsMessageBlockQueueLimit) (hd tl : ptr) (size : Z)
    : MsMessageBlockQueueLimit :=
  {| lq_list := hd; lq_tail := tl; lq_list_size := size;
     lq_block_threshold := lq_block_threshold q;
     lq_unblock_threshold := lq_unblock_threshold q; lq_flag := lq_flag q |}.

Definition lq_with_flag (q : MsMessageBlockQueueLimit) (f : limit_flag)
    : MsMessageBlockQueueLimit :=
  {| lq_list := lq_list q; lq_tail := lq_tail q; lq_list_size := lq_list_size q;
     lq_block_threshold := lq_block_threshold q;
     lq_unblock_threshold := lq_unblock_threshold q; lq_flag := f |}.

Definition MsMessageBlockQueueLimit_get (q : MsMessageBlockQueueLimit)
    : outcome (ptr * MsMessageBlockQueueLimit) :=
  if lq_list_size q =? 0 then Wait
  else Ret (lq_list q, lq_with_list q None None 0).

Definition MsMessageBlockQueueLimit_getN (h : mheap) (q : MsMessageBlockQueueLimit)
    (count : Z) : outcome (ptr * mheap * MsMessageBlockQueueLimit) :=
  if lq_list_size q =? 0 then Wait
  else if count <? lq_list_size q then
    let* item := advance (S (size h)) h (lq_list q) count in
    let* m := load h item in
    let* h' := store_next h item None in
    Ret (lq_list q, h',
         lq_with_list q (msg_next m) (lq_tail q) (lq_list_size q - count))
  else Ret (lq_list q, h, lq_with_list q None None 0).

Definition MsMessageBlockQueueLimit__put (h : mheap) (q : MsMessageBlockQueueLimit)
    (v : ptr) : outcome (mheap * MsMessageBlockQueueLimit) :=
  let* (h, hd) := link_tail h (lq_list q) (lq_tail q) v in
  Ret (h, lq_with_list q hd v (lq_list_size q + 1)).

(** The cases of the [switch] end without [break], so each falls through into
    the next one and the last into [default: abort()]. *)
Definition limit_case_default (h : mheap) (q : MsMessageBlockQueueLimit) (ret : Z)
    : outcome (Z * mheap * MsMessageBlockQueueLimit) := Abort.

Definition limit_case_BLOCK (h : mheap) (q : MsMessageBlockQueueLimit) (v : ptr)
    : outcome (Z * mheap * MsMessageBlockQueueLimit) :=
  if lq_list_size q <=? lq_unblock_threshold q then
    let* (h, q) := MsMessageBlockQueueLimit__put h (lq_with_flag q NORMAL) v in
    limit_case_default h q 0
  else limit_case_default h q (-1).

Definition limit_case_NORMAL (h : mheap) (q : MsMessageBlockQueueLimit) (v : ptr)
    : outcome (Z * mheap * MsMessageBlockQueueLimit) :=
  if lq_list_size q <? lq_block_threshold q then
    let* (h, q) := MsMessageBlockQueueLimit__put h q v in
    limit_case_BLOCK h q v
  else limit_case_BLOCK h (lq_with_flag q BLOCK) v.

Definition MsMessageBlockQueueLimit_put (h : mheap) (q : MsMessageBlockQueueLimit)
    (v : ptr) : outcome (Z * mheap * MsMessageBlockQueueLimit) :=
  let* h := store_next h v None in
  match lq_flag q with
  | NORMAL => limit_case_NORMAL h q v
  | BLOCK => limit_case_BLOCK h q v
  end.

(** ** ms::MsMessagePriorityQueue *)
Record MsMessagePriorityQueue := {
  pq_priority_num : Z; pq_pri_queue : list MsMessageUnsafeQueue; pq_total_size : Z }.

(** Constructor followed by [init(priority_num)]. *)
Definition MsMessagePriorityQueue_init (priority_num : Z)
    : outcome MsMessagePriorityQueue :=
  let* _ := assert_ (0 <? priority_num) in
  let priority_num := if priority_num <=? 0 then 1 else priority_num in
  Ret {| pq_priority_num := priority_num;
         pq_pri_queue := replicate (Z.to_nat priority_num) MsMessageUnsafeQueue_new;
         pq_total_size := 0 |}.

Definition MsMessagePriorityQueue_total_size (q : MsMessagePriorityQueue) : Z :=
  foldl (λ size u, size + uq_total_size u) 0
    (take (Z.to_nat (pq_priority_num q)) (pq_pri_queue q)).

(** [_get]: the first non-empty class; [done] are the classes already seen. *)
Fixpoint pq_scan (h : mheap) (done qs : list MsMessageUnsafeQueue)
    : outcome (ptr * list MsMessageUnsafeQueue) :=
  match qs with
  | [] => Ret (None, done)
  | u :: qs =>
      if 0 <? uq_total_size u then
        let* (v, u') := MsMessageUnsafeQueue_get h u in
        Ret (v, done ++ u' :: qs)
      else pq_scan h (done ++ [u]) qs
  end.

Definition MsMessagePriorityQueue_get (h : mheap) (q : MsMessagePriorityQueue)
    : outcome (ptr * mheap * MsMessagePriorityQueue) :=
  if pq_total_size q =? 0 then Wait
  else
    let* (value, qs) := pq_scan h [] (pq_pri_queue q) in
    let* h := store_next h value None in
    Ret (value, h,
         {| pq_priority_num := pq_priority_num q; pq_pri_queue := qs;
            pq_total_size := pq_total_size q - 1 |}).

Definition MsMessagePriorityQueue_put (h : mheap) (q : MsMessagePriorityQueue)
    (msg : ptr) (priority : Z) : outcome (mheap * MsMessagePriorityQueue) :=
  if pq_priority_num q <=? priority then Ret (h, q)
  else if priority <? 0 then Fault
  else
    match pq_pri_queue q !! Z.to_nat priority with
    | None => Fault
    | Some u =>
        let* (h, u') := MsMessageUnsafeQueue_put h u msg in
        Ret (h, {| pq_priority_num := pq_priority_num q;
                   pq_pri_queue := <[Z.to_nat priority := u']> (pq_pri_queue q);
                   pq_total_size := pq_total_size q + 1 |})
    end.

(** ** Representation *)
Definition mq_rep (h : mheap) (q : MsMessageQueue) (ls : list loc) : Prop :=
  is_queue h (mq_head q) (mq_tail q) ls.

Definition uq_rep (h : mheap) (q : MsMessageUnsafeQueue) (ls : list loc) : Prop :=
  is_queue h (uq_head q) (uq_tail q) ls ∧ uq_total_size q = Z.of_nat (length ls).

Definition bq_rep (h : mheap) (q : MsMessageBlockQueue) (ls : list loc) : Prop :=
  is_queue h (bq_list q) (bq_tail q) ls ∧ bq_list_size q = Z.of_nat (length ls).

Definition lq_rep (h : mheap) (q : MsMessageBlockQueueLimit) (ls : list loc) : Prop :=
  is_queue h (lq_list q) (lq_tail q) ls ∧ lq_list_size q = Z.of_nat (length ls).

(** One list per priority class, all disjoint. *)
Definition pq_rep (h : mheap) (q : MsMessagePriorityQueue) (lss : list (list loc)) : Prop :=
  Forall2 (uq_rep h) (pq_pri_queue q) lss ∧
  NoDup (mjoin lss) ∧
  pq_priority_num q = Z.of_nat (length lss) ∧
  pq_total_size q = Z.of_nat (length (mjoin lss)).

(** What a queue promises to the components that hand messages to it: putting an
    unlinked message the queue does not hold succeeds, the queue then holds it,
    and only links change. *)
Class MsgSink (Q : Type) := {
  sink_rep : mheap → Q → list loc → Prop;
  sink_put : mheap → Q → ptr → outcome (mheap * Q);
  sink_rep_NoDup h q ls : sink_rep h q ls → NoDup ls;
  sink_rep_alloc h q ls l : sink_rep h q ls → l ∈ ls → is_Some (h !! l);
  sink_rep_frame h h' q ls :
    (∀ l, l ∈ ls → h' !! l = h !! l) → sink_rep h q ls → sink_rep h' q ls;
  sink_put_spec h q ls l m :
    sink_rep h q ls → h !! l = Some m → msg_next m = None → l ∉ ls →
    ∃ h' q' ls', sink_put h q (Some l) = Ret (h', q') ∧ sink_rep h' q' ls' ∧
      ls' ≡ₚ l :: ls ∧ relinks h h' (l :: ls) }.

(** ** Lemmas *)
Lemma mq_put_spec h q ls v vs :
  mq_rep h q ls → lseg h (Some v) (v :: vs) None → ls ## v :: vs →
  ∃ h' q', MsMessageQueue_put h q (Some v) = Ret (h', q') ∧
    mq_rep h' q' (ls ++ v :: vs) ∧ relinks h h' ls.
Proof.
  intros Hq Hv Hd. unfold MsMessageQueue_put.
  destruct (put_chain_spec h _ _ ls v vs 1 Hq Hv Hd)
    as (h' & hd' & tl' & -> & Hw & Hq' & Hr).
  cbn [obind]. rewrite Hw. cbn [obind]. eauto.
Qed.

Lemma store_next_unlinked h l m :
  h !! l = Some m → msg_next m = None → store_next h (Some l) None = Ret h.
Proof.
  intros E Hn. rewrite (store_next_Some _ _ _ _ E). f_equal.
  apply insert_id. rewrite E. f_equal. destruct m. simpl in Hn. by rewrite Hn.
Qed.

Lemma uq_put_spec h q ls l m :
  uq_rep h q ls → h !! l = Some m → msg_next m = None → l ∉ ls →
  ∃ h' q', MsMessageUnsafeQueue_put h q (Some l) = Ret (h', q') ∧
    uq_rep h' q' (ls ++ [l]) ∧ relinks h h' ls.
Proof.
  intros [Hq Hs] E Hn Hl. unfold MsMessageUnsafeQueue_put.
  destruct (put_one_spec h _ _ ls l m Hq E Hn Hl) as (h' & hd' & -> & Hq' & Hr).
  cbn [obind]. eexists _, _. split; [done|]. split; [|done].
  split; [done|]. simpl. rewrite length_app. simpl. lia.
Qed.

Lemma uq_get_spec h q l ls :
  uq_rep h q (l :: ls) →
  ∃ q', MsMessageUnsafeQueue_get h q = Ret (Some l, q') ∧ uq_rep h q' ls.
Proof.
  intros [Hq Hs]. unfold MsMessageUnsafeQueue_get.
  pose proof Hq as [(Hh & m & E & _) _]. rewrite Hh.
  rewrite (load_Some _ _ _ E). cbn [obind].
  destruct (is_queue_cons _ _ _ _ _ _ Hq E) as (_ & _ & Hq').
  eexists. split; [done|]. split; [exact Hq'|]. simpl in *. lia.
Qed.

Lemma uq_rep_frame h h' q ls :
  (∀ l, l ∈ ls → h' !! l = h !! l) → uq_rep h q ls → uq_rep h' q ls.
Proof. intros Hf [Hq Hs]. split; [|done]. by eapply is_queue_frame. Qed.

Lemma uq_rep_size h q ls : uq_rep h q ls → (0 <? uq_total_size q) = negb (bool_decide (ls = [])).
Proof.
  intros [_ ->]. destruct ls; [done|]. rewrite bool_decide_eq_false_2 by done.
  simpl. by apply Z.ltb_lt.
Qed.

Lemma bq_put_spec h q ls l m :
  bq_rep h q ls → h !! l = Some m → l ∉ ls →
  ∃ h' q', MsMessageBlockQueue_put h q (Some l) = Ret (h', q') ∧
    bq_rep h' q' (ls ++ [l]) ∧ relinks h h' (l :: ls).
Proof.
  intros [Hq Hs] E Hl. unfold MsMessageBlockQueue_put.
  rewrite (store_next_Some _ _ _ _ E). cbn [obind].
  set (h1 := <[l := _]> h).
  assert (is_queue h1 (bq_list q) (bq_tail q) ls) as Hq1.
  { eapply is_queue_frame; [|exact Hq]. intros k Hk.
    apply lookup_insert_ne. set_solver. }
  destruct (put_one_spec h1 _ _ ls l (set_next None m) Hq1)
    as (h' & hd' & -> & Hq' & Hr); [by apply lookup_insert_eq|done|done|].
  cbn [obind]. eexists _, _. split; [done|]. split.
  - split; [done|]. simpl. rewrite length_app. simpl. lia.
  - apply relinks_trans with h1; [apply relinks_set; set_solver|].
    eapply relinks_weaken; [|exact Hr]. set_solver.
Qed.

Lemma bq_putList_spec h q ls v vs :
  bq_rep h q ls → lseg h (Some v) (v :: vs) None → ls ## v :: vs →
  ∃ h' q', MsMessageBlockQueue_putList h q (Some v) = Ret (h', q') ∧
    bq_rep h' q' (ls ++ v :: vs) ∧ relinks h h' ls.
Proof.
  intros [Hq Hs] Hv Hd. unfold MsMessageBlockQueue_putList.
  destruct (put_chain_spec h _ _ ls v vs 1 Hq Hv Hd)
    as (h' & hd' & tl' & -> & Hw & Hq' & Hr).
  cbn [obind]. rewrite Hw. cbn [obind]. eexists _, _. split; [done|].
  split; [|done]. split; [done|]. simpl. rewrite length_app. simpl. lia.
Qed.

Lemma bq_get_spec h q ls :
  bq_rep h q ls →
  MsMessageBlockQueue_get q =
    match ls with [] => Wait | l :: _ => Ret (Some l, MsMessageBlockQueue_new) end.
Proof.
  intros [Hq Hs]. unfold MsMessageBlockQueue_get. rewrite Hs.
  destruct ls as [|l ls]; [done|].
  pose proof (is_queue_head _ _ _ _ Hq) as ->. done.
Qed.

Lemma bq_new_rep h : bq_rep h MsMessageBlockQueue_new [].
Proof. done. Qed.

Lemma bq_rep_frame h h' q ls :
  (∀ l, l ∈ ls → h' !! l = h !! l) → bq_rep h q ls → bq_rep h' q ls.
Proof. intros Hf [Hq Hs]. split; [|done]. by eapply is_queue_frame. Qed.

Lemma bq_rep_det h q ls ks : bq_rep h q ls → bq_rep h q ks → ls = ks.
Proof. intros [[Hs _] _] [[Hk _] _]. by eapply lseg_det. Qed.

Lemma advance_spec h fuel p ls1 l ls2 :
  lseg h p (ls1 ++ l :: ls2) None → (length ls1 < fuel)%nat →
  advance fuel h p (Z.of_nat (length ls1) + 1) = Ret (Some l).
Proof.
  revert p ls1. induction fuel as [|fuel IH]; intros p ls1 Hs Hf; [lia|].
  cbn [advance]. destruct ls1 as [|k ls1]; simpl in Hs, Hf.
  - by destruct Hs as (-> & _).
  - destruct Hs as (-> & m & E & Hs).
    replace (Z.of_nat (length (k :: ls1)) + 1 - 1) with (Z.of_nat (length ls1) + 1)
      by (simpl; lia).
    rewrite (proj2 (Z.eqb_neq _ 0)) by lia.
    rewrite (load_Some _ _ _ E). cbn [obind]. apply IH; [done|lia].
Qed.

(** Cutting a queue behind its [n]-th node. *)
Lemma cut_spec h hd tl ls1 l ls2 :
  is_queue h hd tl (ls1 ++ l :: ls2) → ls2 ≠ [] →
  ∃ m, h !! l = Some m ∧ store_next h (Some l) None = Ret (<[l := set_next None m]> h) ∧
    let h' := <[l := set_next None m]> h in
    lseg h' hd (ls1 ++ [l]) None ∧ is_queue h' (msg_next m) tl ls2.
Proof.
  intros [Hs ->] Hne. pose proof (lseg_NoDup _ _ _ Hs) as Hnd.
  apply NoDup_app in Hnd as (_ & Hd1 & Hnd2). apply NoDup_cons in Hnd2 as [Hnl _].
  apply lseg_app in Hs as (r & Hs1 & (-> & m & E & Hs2)).
  exists m. split; [done|]. split; [exact (store_next_Some h l m None E)|].
  simpl. split.
  - apply lseg_app. exists (Some l). split.
    + apply lseg_insert_ne; [|done]. intros Hin. eapply Hd1; set_solver.
    + simpl. split; [done|]. exists (set_next None m).
      by rewrite lookup_insert_eq.
  - split; [by apply lseg_insert_ne|].
    rewrite last_app_cons. destruct ls2; [done|]. by rewrite last_cons_cons.
Qed.

Lemma bq_getN_spec h q ls n :
  bq_rep h q ls → (0 < n)%nat → ls ≠ [] →
  ∃ p h' q', MsMessageBlockQueue_getN h q (Z.of_nat n) = Ret (p, h', q') ∧
    lseg h' p (take n ls) None ∧ bq_rep h' q' (drop n ls) ∧
    relinks h h' (take n ls).
Proof.
  intros [Hq Hs] Hn Hne. unfold MsMessageBlockQueue_getN. rewrite Hs.
  destruct (Z.of_nat (length ls) =? 0) eqn:E0.
  { apply Z.eqb_eq in E0. destruct ls; [done|simpl in E0; lia]. }
  destruct (Z.of_nat n <? Z.of_nat (length ls)) eqn:E.
  - apply Z.ltb_lt in E.
    destruct (lookup_lt_is_Some_2 ls (n - 1)) as [l Hl]; [lia|].
    pose proof (take_drop_middle _ _ _ Hl) as Hls.
    replace (S (n - 1)) with n in Hls by lia.
    assert (length (take (n - 1) ls) = n - 1)%nat as Hlt by (rewrite length_take; lia).
    assert (take n ls = take (n - 1) ls ++ [l]) as Htk.
    { rewrite <-(take_S_r _ _ _ Hl). f_equal. lia. }
    rewrite <-Hls in Hq.
    pose proof (lseg_length _ _ _ (proj1 Hq)) as Hsz.
    rewrite length_app in Hsz. simpl in Hsz.
    replace (Z.of_nat n) with (Z.of_nat (length (take (n - 1) ls)) + 1) by lia.
    rewrite (advance_spec _ _ _ _ l (drop n ls)) by (try apply Hq; lia). cbn [obind].
    assert (drop n ls ≠ []) as Hdn.
    { intros Hd. apply (f_equal length) in Hd. rewrite length_drop in Hd. simpl in Hd. lia. }
    destruct (cut_spec _ _ _ _ _ _ Hq Hdn) as (m & Em & Hst & Hseg & Hq').
    rewrite (load_Some _ _ _ Em). cbn [obind]. rewrite Hst. cbn [obind].
    eexists _, _, _. split; [done|]. rewrite Htk. split; [done|]. split.
    + split; [done|]. simpl. rewrite length_drop. lia.
    + refine (relinks_set h l m None _ Em _). set_solver.
  - apply Z.ltb_ge in E. eexists _, _, _. split; [done|].
    rewrite take_ge, drop_ge by lia. split; [apply Hq|].
    split; [apply bq_new_rep|apply relinks_refl].
Qed.

Lemma lq__put_spec h q ls l m :
  lq_rep h q ls → h !! l = Some m → msg_next m = None → l ∉ ls →
  ∃ h' q', MsMessageBlockQueueLimit__put h q (Some l) = Ret (h', q') ∧
    lq_rep h' q' (ls ++ [l]) ∧ lq_tail q' = Some l ∧ is_Some (h' !! l).
Proof.
  intros [Hq Hs] E Hn Hl. unfold MsMessageBlockQueueLimit__put.
  destruct (put_one_spec h _ _ ls l m Hq E Hn Hl) as (h' & hd' & -> & Hq' & Hr).
  cbn [obind]. eexists _, _. split; [done|]. split; [|split; [done|]].
  - split; [done|]. simpl. rewrite length_app. simpl. lia.
  - destruct Hr as [_ Hr]. rewrite Hr by done. eauto.
Qed.

#[export] Program Instance bq_sink : MsgSink MsMessageBlockQueue :=
  {| sink_rep := bq_rep; sink_put := MsMessageBlockQueue_put |}.
Next Obligation. intros h q ls [Hq _]. by eapply is_queue_NoDup. Qed.
Next Obligation. intros h q ls l [[Hs _] _]. by apply lseg_in with (1:=Hs). Qed.
Next Obligation. intros. by eapply bq_rep_frame. Qed.
Next Obligation.
  intros h q ls l m Hq E _ Hl.
  destruct (bq_put_spec h q ls l m Hq E Hl) as (h' & q' & ? & ? & ?).
  exists h', q', (ls ++ [l]). split; [done|]. split; [done|]. split; [|done].
  by rewrite Permutation_app_comm.
Qed.

(** *** The priority queue *)
Lemma pq_scan_spec h k l ls rest qs0 qs :
  Forall2 (uq_rep h) qs (replicate k [] ++ (l :: ls) :: rest) →
  ∃ qs', pq_scan h qs0 qs = Ret (Some l, qs0 ++ qs') ∧
    Forall2 (uq_rep h) qs' (replicate k [] ++ ls :: rest).
Proof.
  revert qs0 qs. induction k as [|k IH]; intros qs0 qs HF; simpl in *.
  - apply Forall2_cons_inv_r in HF as (u & qs' & Hu & HF & ->). cbn [pq_scan].
    rewrite (uq_rep_size _ _ _ Hu). cbn.
    destruct (uq_get_spec _ _ _ _ Hu) as (u' & -> & Hu'). cbn [obind]. eauto.
  - apply Forall2_cons_inv_r in HF as (u & qs' & Hu & HF & ->). cbn [pq_scan].
    rewrite (uq_rep_size _ _ _ Hu). cbn.
    destruct (IH (qs0 ++ [u]) qs' HF) as (qs'' & -> & HF').
    exists (u :: qs''). rewrite <-app_assoc. eauto.
Qed.

(** The first non-empty class of a family of lists. *)
Lemma first_nonempty (lss : list (list loc)) :
  mjoin lss ≠ [] → ∃ k l ls rest, lss = replicate k [] ++ (l :: ls) :: rest.
Proof.
  induction lss as [|[|l ls] lss IH]; simpl; [done| |].
  - intros (k & l & ls & rest & ->)%IH. by exists (S k), l, ls, rest.
  - intros _. by exists 0%nat, l, ls, lss.
Qed.

Lemma mjoin_replicate_nil k (lss : list (list loc)) :
  mjoin (replicate k [] ++ lss) = mjoin lss.
Proof. induction k; simpl; auto. Qed.

Lemma Forall2_uq_frame h h' qs lss :
  (∀ l, l ∈ mjoin lss → h' !! l = h !! l) →
  Forall2 (uq_rep h) qs lss → Forall2 (uq_rep h') qs lss.
Proof.
  intros Hf HF. induction HF as [|u ls qs lss Hu HF IH]; simpl in *; constructor.
  - eapply uq_rep_frame; [|done]. set_solver.
  - apply IH. set_solver.
Qed.

Lemma pq_get_spec h q k l ls rest :
  pq_rep h q (replicate k [] ++ (l :: ls) :: rest) →
  ∃ h' q', MsMessagePriorityQueue_get h q = Ret (Some l, h', q') ∧
    pq_rep h' q' (replicate k [] ++ ls :: rest) ∧
    lseg h' (Some l) [l] None ∧ relinks h h' [l].
Proof.
  intros (HF & Hnd & Hnum & Htot). unfold MsMessagePriorityQueue_get.
  rewrite mjoin_replicate_nil in Hnd, Htot. simpl in Hnd, Htot.
  rewrite Htot, (proj2 (Z.eqb_neq _ 0)) by lia.
  destruct (pq_scan_spec _ _ _ _ _ [] _ HF) as (qs' & -> & HF'). cbn [obind].
  assert (∃ m, h !! l = Some m) as [m E].
  { apply Forall2_app_inv_r in HF as (?&?&_&HF&_).
    apply Forall2_cons_inv_r in HF as (?&?&[Hu _]&_&_). destruct Hu as [(_ & m & ? & _) _]. eauto. }
  rewrite (store_next_Some _ _ _ _ E). cbn [obind].
  apply NoDup_cons in Hnd as [Hl Hnd].
  eexists _, _. split; [done|]. split; [|split].
  - split; [|split; [|split]]; simpl.
    + eapply Forall2_uq_frame; [|done]. intros k' Hk'.
      rewrite mjoin_replicate_nil in Hk'. apply lookup_insert_ne. set_solver.
    + by rewrite mjoin_replicate_nil.
    + rewrite Hnum, !length_app. done.
    + rewrite mjoin_replicate_nil. simpl. rewrite length_app in *. lia.
  - split; [done|]. eexists. by rewrite lookup_insert_eq.
  - refine (relinks_set h l m None _ E _). set_solver.
Qed.

Lemma pq_put_spec h q A ls B l m :
  pq_rep h q (A ++ ls :: B) → h !! l = Some m → msg_next m = None →
  l ∉ mjoin (A ++ ls :: B) →
  ∃ h' q', MsMessagePriorityQueue_put h q (Some l) (Z.of_nat (length A)) = Ret (h', q') ∧
    pq_rep h' q' (A ++ (ls ++ [l]) :: B) ∧ relinks h h' ls.
Proof.
  intros (HF & Hnd & Hnum & Htot) E Hn Hl. unfold MsMessagePriorityQueue_put.
  rewrite join_app in *. change (mjoin (ls :: B)) with (ls ++ mjoin B) in *.
  rewrite Hnum, length_app. cbn [length].
  rewrite (proj2 (Z.leb_gt _ _)) by lia. rewrite (proj2 (Z.ltb_ge _ 0)) by lia.
  rewrite Nat2Z.id. apply Forall2_app_inv_r in HF as (qA & qs & HA & HF & Hq).
  apply Forall2_cons_inv_r in HF as (u & qB & Hu & HB & ->). rewrite Hq.
  pose proof (Forall2_length _ _ _ HA) as HlA.
  rewrite <-HlA, list_lookup_middle by done.
  destruct (uq_put_spec h u ls l m) as (h' & u' & -> & Hu' & Hr);
    [done|done|done|set_solver|]. cbn [obind].
  rewrite insert_app_r_alt, Nat.sub_diag by lia. cbn [list_insert].
  eexists _, _. split; [done|]. split; [|done].
  destruct Hr as [_ Hr]. apply NoDup_app in Hnd as (HnA & HdA & Hnd).
  apply NoDup_app in Hnd as (Hnls & Hdls & HnB).
  split; [|split; [|split]]; cbn [pq_pri_queue pq_priority_num pq_total_size].
  - apply Forall2_app; [|constructor; [done|]];
      (eapply Forall2_uq_frame; [|done]); intros k Hk; apply Hr; set_solver.
  - rewrite join_app. change (mjoin ((ls ++ [l]) :: B)) with ((ls ++ [l]) ++ mjoin B).
    apply NoDup_app. split; [done|]. split; [set_solver|].
    apply NoDup_app. split; [|split; [set_solver|done]].
    apply NoDup_app. split; [done|]. split; [set_solver|apply NoDup_singleton].
  - rewrite HlA, length_app. cbn [length]. lia.
  - rewrite Htot, join_app. change (mjoin ((ls ++ [l]) :: B)) with ((ls ++ [l]) ++ mjoin B). rewrite !length_app. cbn [length]. lia.
Qed.

(** ** Histories of the block queue

    One step is one critical section of a producer or a consumer, with the signal it gives,
    or anything the rest of the program does to messages the queue does not hold.  Consumers
    that found nothing sleep in [pthread_cond_wait].  The event records which messages went
    in or out. *)
Inductive bq_event :=
| EPut (ls : list loc)
| EGet (ls : list loc)
| EOther.

Definition ev_puts (e : bq_event) : list loc := match e with EPut ls => ls | _ => [] end.
Definition ev_gets (e : bq_event) : list loc := match e with EGet ls => ls | _ => [] end.

Record bq_world := mkBq {
  bw_msgs : mheap;
  bw_queue : MsMessageBlockQueue;
  bw_asleep : list bool (** by consumer *) }.

Definition bq_holds (h : mheap) (q : MsMessageBlockQueue) (l : loc) : Prop :=
  ∃ ls, bq_rep h q ls ∧ l ∈ ls.

(** [pthread_cond_signal(&_cond)]: at least one of those that sleep is woken. *)
Definition cond_signal (s s' : list bool) : Prop :=
  Forall2 (λ b b', b = false → b' = false) s s' ∧
  (true ∈ s → ∃ i, s !! i = Some true ∧ s' !! i = Some false).

Inductive bq_step : bq_world → bq_event → bq_world → Prop :=
| bq_step_put h q s l h' q' s' :
    is_Some (h !! l) → ¬ bq_holds h q l →
    MsMessageBlockQueue_put h q (Some l) = Ret (h', q') → cond_signal s s' →
    bq_step (mkBq h q s) (EPut [l]) (mkBq h' q' s')
| bq_step_putList h q s v vs h' q' s' :
    lseg h (Some v) (v :: vs) None → (∀ l, l ∈ v :: vs → ¬ bq_holds h q l) →
    MsMessageBlockQueue_putList h q (Some v) = Ret (h', q') → cond_signal s s' →
    bq_step (mkBq h q s) (EPut (v :: vs)) (mkBq h' q' s')
| bq_step_get h q s i p ls q' :
    s !! i = Some false → MsMessageBlockQueue_get q = Ret (p, q') → lseg h p ls None →
    bq_step (mkBq h q s) (EGet ls) (mkBq h q' s)
| bq_step_getN h q s i n p ls h' q' :
    s !! i = Some false → (0 < n)%nat → MsMessageBlockQueue_getN h q (Z.of_nat n) = Ret (p, h', q') →
    lseg h' p ls None →
    bq_step (mkBq h q s) (EGet ls) (mkBq h' q' s)
| bq_step_sleep h q s i n :
    s !! i = Some false → (0 < n)%nat →
    MsMessageBlockQueue_get q = Wait ∨ MsMessageBlockQueue_getN h q (Z.of_nat n) = Wait →
    bq_step (mkBq h q s) EOther (mkBq h q (<[i := true]> s))
| bq_step_wake h q s i :
    bq_step (mkBq h q s) EOther (mkBq h q (<[i := false]> s)) (** for no reason, which POSIX allows *)
| bq_step_other h q s h' :
    (∀ l, bq_holds h q l → h' !! l = h !! l) →
    bq_step (mkBq h q s) EOther (mkBq h' q s).

(** With [n] consumers. *)
Inductive bq_trace (n : nat) : list bq_event → bq_world → Prop :=
| bq_trace_nil h : bq_trace n [] (mkBq h MsMessageBlockQueue_new (replicate n false))
| bq_trace_snoc es w e w' : bq_trace n es w → bq_step w e w' → bq_trace n (es ++ [e]) w'.

Lemma bq_getN_wait h q ls n :
  bq_rep h q ls → (0 < n)%nat → MsMessageBlockQueue_getN h q (Z.of_nat n) = Wait ↔ ls = [].
Proof.
  intros Hq Hn. split.
  - intros Hw. destruct (decide (ls = [])) as [|Hne]; [done|].
    destruct (bq_getN_spec h q ls n Hq Hn Hne) as (p & h' & q' & Hg & _). congruence.
  - intros ->. unfold MsMessageBlockQueue_getN. by rewrite (proj2 Hq).
Qed.

(** One step keeps the representation, and appends and removes at the ends. *)
Lemma bq_step_rep w ls e w' :
  bq_rep (bw_msgs w) (bw_queue w) ls → bq_step w e w' →
  ∃ ls', bq_rep (bw_msgs w') (bw_queue w') ls' ∧ ls ++ ev_puts e = ev_gets e ++ ls'.
Proof.
  intros Hq Hstep. destruct Hstep as [h q s l h1 q1 s1 Hl Hn Hp _|h q s v vs h1 q1 s1 Hl Hn Hp _|h q s i p ks q1 _ Hp Hl
    |h q s i n p ks h1 q1 _ Hn Hp Hl|h q s i n _ _ _|h q s i|h q s h1 Hf]; simpl in *.
  - destruct Hl as [m E].
    destruct (bq_put_spec h q ls l m Hq E) as (h2 & q2 & Hp' & Hq' & _);
      [unfold bq_holds in *; naive_solver|].
    rewrite Hp in Hp'. simplify_eq. eauto.
  - destruct (bq_putList_spec h q ls v vs Hq Hl) as (h2 & q2 & Hp' & Hq' & _).
    { intros l Hin Hv. apply (Hn l Hv). by exists ls. }
    rewrite Hp in Hp'. simplify_eq. eauto.
  - rewrite (bq_get_spec _ _ _ Hq) in Hp. destruct ls as [|l ls]; [done|].
    destruct Hq as [[Hs _] _]. pose proof Hs as (Hh & _). simplify_eq.
    rewrite Hh in Hs. rewrite (lseg_det _ _ _ _ Hl Hs), app_nil_r.
    exists []. split; [apply bq_new_rep|by rewrite app_nil_r].
  - destruct (decide (ls = [])) as [->|Hne].
    { unfold MsMessageBlockQueue_getN in Hp. by rewrite (proj2 Hq) in Hp. }
    destruct (bq_getN_spec h q ls n Hq Hn Hne) as (p2 & h2 & q2 & Hp' & Hs & Hq' & _).
    rewrite Hp in Hp'. simplify_eq. rewrite (lseg_det _ _ _ _ Hl Hs).
    exists (drop n ls). by rewrite app_nil_r, take_drop.
  - exists ls. by rewrite app_nil_r.
  - exists ls. by rewrite app_nil_r.
  - exists ls. rewrite app_nil_r. split; [|done].
    eapply bq_rep_frame; [|done]. intros l Hin. apply Hf. by exists ls.
Qed.

(** Some consumer will look at what the queue holds. *)
Definition attended (w : bq_world) : Prop := ∃ i, bw_asleep w !! i = Some false.

Lemma cond_signal_attended n s s' :
  (0 < n)%nat → length s = n → cond_signal s s' → ∃ i, s' !! i = Some false.
Proof.
  intros Hn Hl [HF Hw]. destruct (decide (true ∈ s)) as [Ht|Hf].
  - destruct (Hw Ht) as (i & _ & Hi). by exists i.
  - destruct s as [|b s]; [simpl in *; lia|]. apply Forall2_cons_inv_l in HF as (b' & s2 & Hb & _ & ->).
    exists 0%nat. simpl. f_equal. apply Hb. destruct b; [set_solver|done].
Qed.

Lemma bq_step_attended n w e w' ls ls' :
  (0 < n)%nat → length (bw_asleep w) = n → bq_rep (bw_msgs w) (bw_queue w) ls →
  bq_rep (bw_msgs w') (bw_queue w') ls' → bq_step w e w' → (ls ≠ [] → attended w) → ls' ≠ [] → attended w'.
Proof.
  intros Hn Hl Hq Hq' Hstep IH Hne. destruct Hstep as [h q s l h1 q1 s1 _ _ _ Hs|h q s v vs h1 q1 s1 _ _ _ Hs|h q s i p ks q1 Hi _ _
    |h q s i k p ks h1 q1 Hi _ _ _|h q s i k Hi Hk Hw|h q s i|h q s h1 Hf]; simpl in *.
  - by eapply cond_signal_attended.
  - by eapply cond_signal_attended.
  - by exists i.
  - by exists i.
  - exfalso. apply Hne. destruct Hw as [Hw|Hw]; [|by apply (bq_getN_wait _ _ _ _ Hq' Hk)].
    rewrite (bq_get_spec _ _ _ Hq') in Hw. by destruct ls'.
  - destruct (lookup_lt_is_Some_2 s 0) as [b Hb]; [lia|]. destruct (decide (i = 0)%nat) as [->|Hi].
    + exists 0%nat. simpl. rewrite list_lookup_insert_eq; [done|lia].
    + destruct (IH ltac:(by rewrite (bq_rep_det _ _ _ _ Hq Hq'))) as [j Hj]. exists j. simpl in *.
      destruct (decide (i = j)) as [->|Hij]; [apply list_lookup_insert_eq; by eapply lookup_lt_Some|].
      by rewrite list_lookup_insert_ne.
  - destruct IH as [i Hi]; [|by exists i]. intros ->. apply Hne. destruct Hq as [_ H1], Hq' as [_ H2]. rewrite H1 in H2.
    destruct ls'; [done|simpl in H2; lia].
Qed.

Lemma bq_step_consumers w e w' : bq_step w e w' → length (bw_asleep w') = length (bw_asleep w).
Proof.
  destruct 1 as [? ? ? ? ? ? ? _ _ _ [HF _]|? ? ? ? ? ? ? ? _ _ _ [HF _]| | | | |]; simpl; rewrite ?length_insert; try done;
    symmetry; by eapply Forall2_length.
Qed.

Lemma bq_trace_rep n es w :
  bq_trace n es w →
  length (bw_asleep w) = n ∧
  ∃ ls, bq_rep (bw_msgs w) (bw_queue w) ls ∧ es ≫= ev_puts = (es ≫= ev_gets) ++ ls ∧
    ((0 < n)%nat → ls ≠ [] → attended w).
Proof.
  induction 1 as [h|es w e w' _ (Hl & ls & Hq & IH & Ha) Hstep].
  - split; [apply length_replicate|]. exists []. by split.
  - split; [by rewrite (bq_step_consumers _ _ _ Hstep)|]. destruct (bq_step_rep _ _ _ _ Hq Hstep) as (ls' & Hq' & Heq).
    exists ls'. split; [done|]. rewrite !bind_app. simpl. rewrite !app_nil_r.
    split; [by rewrite IH, <-!app_assoc, Heq|]. intros Hn. eapply (bq_step_attended n); eauto.
Qed.

(** ** Properties *)

(** C9: in every interleaving of producers, consumers and unrelated activity,
    the messages taken from a block queue are a prefix of the messages put into
    it, in the same order; the rest are exactly the ones it still holds.  No
    operation fails: [get] and [get(count)] sleep exactly when nothing is left,
    and otherwise give everything, or the first [count] messages, in order;
    [put] and [putList] of messages that are not in it return.  And no wake-up
    is lost: while the queue holds a message, some consumer is awake. *)
Theorem block_queue_fifo n es w (Ht : bq_trace n es w) :
  let h := bw_msgs w in let q := bw_queue w in
  ∃ ls, es ≫= ev_puts = (es ≫= ev_gets) ++ ls ∧
    MsMessageBlockQueue_getQueueSize q = Z.of_nat (length ls) ∧
    (MsMessageBlockQueue_get q = Wait ↔ ls = []) ∧
    (ls ≠ [] → ∃ p, MsMessageBlockQueue_get q = Ret (p, MsMessageBlockQueue_new) ∧ lseg h p ls None) ∧
    (∀ k, (0 < k)%nat → (MsMessageBlockQueue_getN h q (Z.of_nat k) = Wait ↔ ls = []) ∧
       (ls ≠ [] → ∃ p h' q', MsMessageBlockQueue_getN h q (Z.of_nat k) = Ret (p, h', q') ∧
          lseg h' p (take k ls) None ∧ bq_rep h' q' (drop k ls))) ∧
    (∀ l, is_Some (h !! l) → l ∉ ls → ∃ h' q', MsMessageBlockQueue_put h q (Some l) = Ret (h', q')) ∧
    (∀ v vs, lseg h (Some v) (v :: vs) None → ls ## v :: vs →
       ∃ h' q', MsMessageBlockQueue_putList h q (Some v) = Ret (h', q')) ∧
    ((0 < n)%nat → ls ≠ [] → attended w).
Proof.
  destruct (bq_trace_rep _ _ _ Ht) as (_ & ls & Hq & Heq & Ha). intros h q. fold h q in Hq. exists ls.
  rewrite (bq_get_spec _ _ _ Hq). split; [done|]. split; [apply Hq|].
  split; [by destruct ls|]. split; [|split; [|split; [|split; [|done]]]].
  - destruct ls as [|l ls]; [done|]. intros _. exists (Some l). split; [done|]. destruct Hq as [[Hs _] _].
    pose proof Hs as (Hp & _). by rewrite Hp in Hs.
  - intros k Hk. split; [by apply bq_getN_wait|]. intros Hne.
    destruct (bq_getN_spec h q ls k Hq Hk Hne) as (p & h' & q' & H1 & H2 & H3 & _). eauto 10.
  - intros l [m E] Hl. destruct (bq_put_spec h q ls l m Hq E Hl) as (h' & q' & H1 & _). eauto.
  - intros v vs Hs Hd. destruct (bq_putList_spec h q ls v vs Hq Hs Hd) as (h' & q' & H1 & _). eauto.
Qed.

(** Two messages and a queue for the witnesses. *)
Definition wit_heap : mheap :=
  <[1%positive := new_message [] 0 0 0]> (<[2%positive := new_message [] 0 0 0]> ∅).

(** One consumer goes to sleep and a message wakes it. *)
Lemma block_queue_fifo_witness :
  ∃ es w, bq_trace 1 es w ∧ es ≫= ev_puts = [1%positive] ∧ attended w.
Proof.
  set (h0 := wit_heap).
  destruct (MsMessageBlockQueue_put h0 MsMessageBlockQueue_new (Some 1%positive))
    as [[h1 q1]| | | |] eqn:E1; try (vm_compute in E1; discriminate).
  assert (bq_trace 1 [EOther; EPut [1%positive]] (mkBq h1 q1 [false])) as T1.
  { apply (bq_trace_snoc 1 [EOther] (mkBq h0 MsMessageBlockQueue_new [true])).
    - apply (bq_trace_snoc 1 [] (mkBq h0 MsMessageBlockQueue_new [false])); [constructor|].
      apply (bq_step_sleep h0 MsMessageBlockQueue_new [false] 0 1); [done|lia|by left].
    - apply bq_step_put; [by eexists| |done|].
      + intros (ls & Hq & Hl). rewrite (bq_rep_det _ _ _ _ Hq (bq_new_rep _)) in Hl. set_solver.
      + split; [by repeat constructor|]. intros _. by exists 0%nat. }
  destruct (block_queue_fifo _ _ _ T1) as (ls & Heq & _ & _ & _ & _ & _ & _ & Ha).
  exists [EOther; EPut [1%positive]], (mkBq h1 q1 [false]). split; [exact T1|]. split; [done|].
  apply Ha; [lia|]. intros ->. done.
Defined.

(** [get] on a non-empty priority queue returns the oldest message of the
    most urgent non-empty class, unlinked from the rest, and leaves every other
    message queued in its place; [put] appends to its class and is ignored when
    the priority is not below the number of classes. *)
Theorem priority_queue_order h q lss l m
    (Hq : pq_rep h q lss) (E : h !! l = Some m) (Hn : msg_next m = None)
    (Hl : l ∉ mjoin lss) :
  (∀ k x xs rest, lss = replicate k [] ++ (x :: xs) :: rest →
     ∃ h' q', MsMessagePriorityQueue_get h q = Ret (Some x, h', q') ∧
       pq_rep h' q' (replicate k [] ++ xs :: rest) ∧ lseg h' (Some x) [x] None) ∧
  (mjoin lss = [] → MsMessagePriorityQueue_get h q = Wait) ∧
  (∀ A ls B, lss = A ++ ls :: B →
     ∃ h' q', MsMessagePriorityQueue_put h q (Some l) (Z.of_nat (length A)) = Ret (h', q') ∧
       pq_rep h' q' (A ++ (ls ++ [l]) :: B)) ∧
  (∀ k, Z.of_nat (length lss) ≤ k →
     MsMessagePriorityQueue_put h q (Some l) k = Ret (h, q)).
Proof.
  split; [|split; [|split]].
  - intros k x xs rest ->.
    destruct (pq_get_spec _ _ _ _ _ _ Hq) as (h' & q' & ? & ? & ? & _). eauto.
  - intros He. destruct Hq as (_ & _ & _ & Ht). unfold MsMessagePriorityQueue_get.
    by rewrite Ht, He.
  - intros A ls B ->.
    destruct (pq_put_spec h q A ls B l m) as (h' & q' & ? & ? & _); eauto.
  - intros k Hk. unfold MsMessagePriorityQueue_put.
    destruct Hq as (_ & _ & -> & _). by rewrite (proj2 (Z.leb_le _ _)).
Qed.

Lemma priority_queue_order_witness :
  ∃ q, MsMessagePriorityQueue_init 2 = Ret q ∧
    MsMessagePriorityQueue_get wit_heap q = Wait ∧
    MsMessagePriorityQueue_put wit_heap q (Some 1%positive) 2 = Ret (wit_heap, q).
Proof.
  eexists. split; [reflexivity|].
  destruct (priority_queue_order wit_heap
    {| pq_priority_num := 2;
       pq_pri_queue := [MsMessageUnsafeQueue_new; MsMessageUnsafeQueue_new];
       pq_total_size := 0 |} [[]; []] 1%positive (new_message [] 0 0 0))
    as (_ & Hw & _ & Hp).
  - split; [repeat constructor|]. split; [constructor|done].
  - reflexivity.
  - reflexivity.
  - set_solver.
  - split; [by apply Hw|]. apply Hp. simpl. lia.
Defined.

(** whatever the thresholds and the flag, putting a message into the limited
    block queue ends the process: the cases of the [switch] fall through into
    [default: abort()]. *)
Theorem limit_queue_put_aborts h q ls l m
    (Hq : lq_rep h q ls) (E : h !! l = Some m) (Hl : l ∉ ls) :
  MsMessageBlockQueueLimit_put h q (Some l) = Abort.
Proof.
  unfold MsMessageBlockQueueLimit_put. rewrite (store_next_Some _ _ _ _ E). cbn [obind].
  set (h1 := <[l := _]> h).
  assert (h1 !! l = Some (set_next None m)) as E1 by apply lookup_insert_eq.
  assert (lq_rep h1 q ls) as Hq1.
  { destruct Hq as [Hq Hs]. split; [|done]. eapply is_queue_frame; [|exact Hq].
    intros k Hk. apply lookup_insert_ne. set_solver. }
  assert (∀ f, limit_case_BLOCK h1 (lq_with_flag q f) (Some l) = Abort) as HB.
  { intros f. unfold limit_case_BLOCK. case_match; [|done].
    destruct (lq__put_spec h1 (lq_with_flag q NORMAL) ls l (set_next None m))
      as (h' & q' & Hp & _); try done.
    change (lq_with_flag (lq_with_flag q f) NORMAL) with (lq_with_flag q NORMAL).
    by rewrite Hp. }
  destruct (lq_flag q) eqn:Ef.
  - unfold limit_case_NORMAL. case_match; [|apply HB].
    destruct (lq__put_spec h1 q ls l _ Hq1 E1 eq_refl Hl) as (h' & q' & -> & Hq' & Ht & [n En]).
    cbn [obind]. unfold limit_case_BLOCK. case_match; [|done].
    unfold MsMessageBlockQueueLimit__put. cbn [lq_tail lq_with_flag]. rewrite Ht.
    cbn [link_tail]. by rewrite (store_next_Some _ _ _ _ En).
  - specialize (HB BLOCK). unfold lq_with_flag in HB. rewrite <-Ef in HB.
    by destruct q.
Qed.

Lemma limit_queue_put_aborts_witness :
  MsMessageBlockQueueLimit_put wit_heap MsMessageBlockQueueLimit_new (Some 1%positive) = Abort.
Proof.
  apply (limit_queue_put_aborts wit_heap MsMessageBlockQueueLimit_new [] 1%positive
           (new_message [] 0 0 0)); [done|reflexivity|set_solver].
Defined.
