(* ===== verification/LibQueues.v ===== *)
(** The queues of framework/lib: util::Queue (queue.cpp), util::SimpleQueue
    (simple_queue.cpp), util::BlockQueue (block_queue.cpp) and
    util::PriorityQueue (priority_queue.cpp).

    A SimpleQueue and a BlockQueue recycle their nodes through [_idle_list];
    their records and private methods are the same code, here the record
    [PoolQueue] and the operations named [pool_...].  A method of a locked queue
    is one atomic function; waiting on the condition variable is [Wait]. *)
From S2P Require Import Prelude Heap.

(** ** util::Queue *)
Record QueueElement := { qe_next : ptr; qe_id : Z; qe_value : Z }.
Abbreviation qheap := (gmap loc QueueElement).

#[export] Program Instance QueueElement_link : LinkNode QueueElement :=
  {| nd_next := qe_next;
     nd_set_next p e := {| qe_next := p; qe_id := qe_id e; qe_value := qe_value e |} |}.
Next Obligation. done. Qed.
Next Obligation. done. Qed.
Next Obligation. by intros []. Qed.

Record Queue := { q_head : ptr; q_tail : ptr }.
Definition Queue_new : Queue := {| q_head := None; q_tail := None |}.

Definition Queue_put (h : qheap) (q : Queue) (v id : Z) : outcome (qheap * Queue) :=
  let (e, h) := alloc h {| qe_next := None; qe_id := u64 id; qe_value := v |} in
  let* (h, hd) := link_tail h (q_head q) (q_tail q) (Some e) in
  Ret (h, {| q_head := hd; q_tail := Some e |}).

Definition Queue_get (q : Queue) : ptr * Queue :=
  (q_head q, {| q_head := None; q_tail := None |}).

Definition Queue_freeQueueElement (h : qheap) (v : ptr) : outcome qheap := dealloc h v.

(** ** Queues with a node pool *)
Record InternalNode := { in_next : ptr; in_v : option Z }.
Abbreviation nheap := (gmap loc InternalNode).

#[export] Program Instance InternalNode_link : LinkNode InternalNode :=
  {| nd_next := in_next; nd_set_next p n := {| in_next := p; in_v := in_v n |} |}.
Next Obligation. done. Qed.
Next Obligation. done. Qed.
Next Obligation. by intros []. Qed.

Record PoolQueue := {
  pool_idle_list : ptr; pool_list : ptr; pool_tail : ptr; pool_list_size : Z }.

Definition pool_new : PoolQueue :=
  {| pool_idle_list := None; pool_list := None; pool_tail := None; pool_list_size := 0 |}.

Definition DEFAULT_NODE_COUNT : nat := 1024.

(** The loop of [open]: push [n] new nodes on the idle list. *)
Fixpoint pool_grow (n : nat) (h : nheap) (idle : ptr) : nheap * ptr :=
  match n with
  | O => (h, idle)
  | S n =>
      let (node, h) := alloc h {| in_next := idle; in_v := None |} in
      pool_grow n h (Some node)
  end.

Definition pool_open (h : nheap) (q : PoolQueue) : nheap * PoolQueue :=
  let (h, idle) := pool_grow DEFAULT_NODE_COUNT h (pool_idle_list q) in
  (h, {| pool_idle_list := idle; pool_list := pool_list q; pool_tail := pool_tail q;
         pool_list_size := pool_list_size q |}).

(** The private [_get]: the first node goes back to the pool. *)
Definition pool__get (h : nheap) (q : PoolQueue) : outcome (option Z * nheap * PoolQueue) :=
  let* n := load h (pool_list q) in
  let* h := store_next h (pool_list q) (pool_idle_list q) in
  Ret (in_v n, h,
       {| pool_idle_list := pool_list q; pool_list := in_next n;
          pool_tail := match in_next n with None => None | Some _ => pool_tail q end;
          pool_list_size := pool_list_size q - 1 |}).

(** The private [_put]: a node of the pool if there is one, else a new one. *)
Definition pool_node (h : nheap) (q : PoolQueue) : outcome (loc * nheap * ptr) :=
  match pool_idle_list q with
  | Some node => let* n := load h (Some node) in Ret (node, h, in_next n)
  | None => let (node, h) := alloc h {| in_next := None; in_v := None |} in
            Ret (node, h, None)
  end.

Definition pool__put (h : nheap) (q : PoolQueue) (v : Z) : outcome (nheap * PoolQueue) :=
  let* (node, h, idle) := pool_node h q in
  let* h := store h (Some node) {| in_next := None; in_v := Some v |} in
  let* (h, hd) := link_tail h (pool_list q) (pool_tail q) (Some node) in
  Ret (h, {| pool_idle_list := idle; pool_list := hd; pool_tail := Some node;
             pool_list_size := pool_list_size q + 1 |}).

(** The loop of [getM]: the values written to [v], the store, the pool and the
    first node left. *)
Fixpoint pool_take (c : nat) (h : nheap) (idle node : ptr)
    : outcome (list (option Z) * nheap * ptr * ptr) :=
  match c with
  | O => Ret ([], h, idle, node)
  | S c =>
      let* n := load h node in
      let* h := store_next h node idle in
      let* (vs, h, idle, rest) := pool_take c h node (in_next n) in
      Ret (in_v n :: vs, h, idle, rest)
  end.

Definition pool_getM (h : nheap) (q : PoolQueue) (want : Z)
    : outcome (list (option Z) * Z * nheap * PoolQueue) :=
  let c := if pool_list_size q <? want then pool_list_size q else want in
  let* (vs, h, idle, node) := pool_take (Z.to_nat c) h (pool_idle_list q) (pool_list q) in
  Ret (vs, c, h,
       {| pool_idle_list := idle; pool_list := node;
          pool_tail := match node with None => None | Some _ => pool_tail q end;
          pool_list_size := pool_list_size q - c |}).

(** *** util::SimpleQueue *)
Definition SimpleQueue_open := pool_open.

Definition SimpleQueue_get (h : nheap) (q : PoolQueue)
    : outcome (option Z * nheap * PoolQueue) :=
  if 0 <? pool_list_size q then pool__get h q else Ret (Some 0, h, q).

Definition SimpleQueue_getM (h : nheap) (q : PoolQueue) (want : Z)
    : outcome (list (option Z) * Z * nheap * PoolQueue) :=
  if pool_list_size q <=? 0 then Ret ([], 0, h, q) else pool_getM h q want.

Definition SimpleQueue_put (h : nheap) (q : PoolQueue) (v : Z) := pool__put h q v.

(** *** util::BlockQueue *)
Definition BlockQueue_open := pool_open.

Definition BlockQueue_get (h : nheap) (q : PoolQueue)
    : outcome (option Z * nheap * PoolQueue) :=
  if pool_list_size q =? 0 then Wait else pool__get h q.

Definition BlockQueue_getM (h : nheap) (q : PoolQueue) (want : Z)
    : outcome (list (option Z) * Z * nheap * PoolQueue) :=
  if pool_list_size q =? 0 then Wait else pool_getM h q want.

Definition BlockQueue_put (h : nheap) (q : PoolQueue) (v : Z) := pool__put h q v.

(** ** util::PriorityQueue *)
Record PriorityQueue := { prq_priority_num : Z; prq_pri_queue : list PoolQueue }.

Fixpoint open_all (h : nheap) (n : nat) : nheap * list PoolQueue :=
  match n with
  | O => (h, [])
  | S n => let (h, q) := SimpleQueue_open h pool_new in
           let (h, qs) := open_all h n in (h, q :: qs)
  end.

(** The constructor and [init]. *)
Definition PriorityQueue_init (h : nheap) (priority_num : Z) : nheap * PriorityQueue :=
  let priority_num := if priority_num <=? 0 then 1 else priority_num in
  let (h, qs) := open_all h (Z.to_nat priority_num) in
  (h, {| prq_priority_num := priority_num; prq_pri_queue := qs |}).

Definition PriorityQueue_total_size (q : PriorityQueue) : Z :=
  foldl (λ size q, size + pool_list_size q) 0 (prq_pri_queue q).

Fixpoint PriorityQueue__get (h : nheap) (seen qs : list PoolQueue)
    : outcome (option Z * nheap * list PoolQueue) :=
  match qs with
  | [] => Ret (Some 0, h, seen)
  | q :: qs =>
      if 0 <? pool_list_size q then
        let* (v, h, q) := SimpleQueue_get h q in Ret (v, h, seen ++ q :: qs)
      else PriorityQueue__get h (seen ++ [q]) qs
  end.

Definition PriorityQueue_get (h : nheap) (q : PriorityQueue)
    : outcome (option Z * nheap * PriorityQueue) :=
  if PriorityQueue_total_size q =? 0 then Wait
  else
    let* (v, h, qs) := PriorityQueue__get h [] (prq_pri_queue q) in
    Ret (v, h, {| prq_priority_num := prq_priority_num q; prq_pri_queue := qs |}).

(** The loop of [getM] over the classes; [left] is [c - cur]. *)
Fixpoint prq_collect (h : nheap) (left : Z) (qs : list PoolQueue)
    : outcome (list (option Z) * nheap * list PoolQueue) :=
  match qs with
  | [] => Ret ([], h, [])
  | q :: qs =>
      let* (vs, ret, h, q) := SimpleQueue_getM h q left in
      if ret =? left then Ret (vs, h, q :: qs)
      else
        let* (vs', h, qs) := prq_collect h (left - ret) qs in
        Ret (vs ++ vs', h, q :: qs)
  end.

(** [size] is read once, before [while (size == 0) pthread_cond_wait]. *)
Definition PriorityQueue_getM (h : nheap) (q : PriorityQueue) (want : Z)
    : outcome (list (option Z) * Z * nheap * PriorityQueue) :=
  let size := PriorityQueue_total_size q in
  if size =? 0 then Diverge
  else
    let c := if size <? want then size else want in
    let* (vs, h, qs) := prq_collect h c (prq_pri_queue q) in
    Ret (vs, c, h, {| prq_priority_num := prq_priority_num q; prq_pri_queue := qs |}).

Definition PriorityQueue_put (h : nheap) (q : PriorityQueue) (v priority : Z)
    : outcome (nheap * PriorityQueue) :=
  if prq_priority_num q <=? priority then Ret (h, q)
  else if priority <? 0 then Fault
  else
    match prq_pri_queue q !! Z.to_nat priority with
    | None => Fault
    | Some s =>
        let* (h, s) := SimpleQueue_put h s v in
        Ret (h, {| prq_priority_num := prq_priority_num q;
                   prq_pri_queue := <[Z.to_nat priority := s]> (prq_pri_queue q) |})
    end.

(** ** Representation

    [fp] are all the nodes a queue owns (queued first, then idle) and [vs] the
    values it holds. *)
Definition node_vals (h : nheap) (ls : list loc) (vs : list Z) : Prop :=
  Forall2 (λ l v, in_v <$> h !! l = Some (Some v)) ls vs.

Definition pool_rep (h : nheap) (q : PoolQueue) (fp : list loc) (vs : list Z) : Prop :=
  ∃ ls idle, fp = ls ++ idle ∧ is_queue h (pool_list q) (pool_tail q) ls ∧
    lseg h (pool_idle_list q) idle None ∧ NoDup (ls ++ idle) ∧
    node_vals h ls vs ∧ pool_list_size q = Z.of_nat (length vs).

(** A family of queues with disjoint nodes: one footprint and one list of values
    for each class. *)
Definition prq_rep (h : nheap) (q : PriorityQueue) (xs : list (list loc * list Z)) : Prop :=
  Forall2 (λ s x, pool_rep h s (fst x) (snd x)) (prq_pri_queue q) xs ∧
  NoDup (xs ≫= fst) ∧ prq_priority_num q = Z.of_nat (length xs).

(** ** Lemmas *)
Lemma node_vals_frame h h' ls vs :
  (∀ l, l ∈ ls → in_v <$> h' !! l = in_v <$> h !! l) → node_vals h ls vs → node_vals h' ls vs.
Proof.
  intros Hf HF. unfold node_vals in *. induction HF; constructor.
  - rewrite Hf by set_solver. done.
  - apply IHHF. set_solver.
Qed.

Lemma relinks_in_v h h' fp l : relinks h h' fp → in_v <$> h' !! l = in_v <$> h !! l.
Proof.
  intros [E _]. pose proof (links_only_lookup _ _ l E) as El.
  destruct (h !! l), (h' !! l); simpl in *; try done. unfold unlink in El. simpl in El.
  congruence.
Qed.

Lemma node_vals_relinks h h' fp ls vs :
  relinks h h' fp → node_vals h ls vs → node_vals h' ls vs.
Proof. intros Hr. apply node_vals_frame. intros l _. by eapply relinks_in_v. Qed.

(** Moving the first node of a segment to another one. *)
Lemma move_node h node l ls idle ks v :
  lseg h node (l :: ls) None → lseg h idle ks None → NoDup ((l :: ls) ++ ks) →
  in_v <$> h !! l = Some (Some v) →
  ∃ n h', load h node = Ret n ∧ in_v n = Some v ∧ store_next h node idle = Ret h' ∧
    lseg h' (in_next n) ls None ∧ lseg h' node (l :: ks) None ∧ relinks h h' [l].
Proof.
  intros (-> & n & E & Hs) Hi Hnd Hv. rewrite E in Hv. simpl in Hv.
  simpl in Hnd. apply NoDup_cons in Hnd as [Hl _].
  eexists n, _. split; [by apply load_Some|]. split; [congruence|].
  split; [by apply store_next_Some|]. split; [|split].
  - apply lseg_insert_ne; [set_solver|done].
  - split; [done|]. eexists. rewrite lookup_insert_eq. split; [done|].
    rewrite nd_next_set. apply lseg_insert_ne; [set_solver|done].
  - apply (relinks_set h l n idle [l] E). set_solver.
Qed.

Lemma pool_take_spec h ls1 ls2 vs idle ks node :
  lseg h node (ls1 ++ ls2) None → lseg h idle ks None →
  NoDup ((ls1 ++ ls2) ++ ks) → node_vals h ls1 vs →
  ∃ h' idle' rest,
    pool_take (length ls1) h idle node = Ret (Some <$> vs, h', idle', rest) ∧
    lseg h' rest ls2 None ∧ lseg h' idle' (rev ls1 ++ ks) None ∧ relinks h h' ls1.
Proof.
  revert h vs idle ks node.
  induction ls1 as [|l ls1 IH]; intros h vs idle ks node Hs Hi Hnd Hv; simpl in *.
  - apply Forall2_nil_inv_l in Hv as ->. eexists h, idle, node.
    split; [done|]. split; [done|]. split; [done|]. apply relinks_refl.
  - apply Forall2_cons_inv_l in Hv as (v & vs' & Hv & HF & ->).
    destruct (move_node _ _ _ _ _ _ _ Hs Hi Hnd Hv)
      as (n & h1 & -> & Hn & Hst & Hs' & Hi' & Hr).
    cbn [obind]. rewrite Hst. cbn [obind].
    destruct (IH h1 vs' node (l :: ks) (in_next n))
      as (h' & idle' & rest & -> & Hs2 & Hi2 & Hr2); try done.
    + rewrite <-Permutation_middle. done.
    + eapply node_vals_relinks; eauto.
    + cbn [obind]. rewrite Hn. eexists h', idle', rest. split; [done|]. split; [done|].
      split; [by rewrite <-app_assoc|]. 
      apply relinks_trans with h1; (eapply relinks_weaken; [|done]); set_solver.
Qed.

Lemma pool__get_spec h q fp v vs :
  pool_rep h q fp (v :: vs) →
  ∃ h' q' fp', pool__get h q = Ret (Some v, h', q') ∧ pool_rep h' q' fp' vs ∧
    fp' ≡ₚ fp ∧ relinks h h' fp.
Proof.
  intros (ls & idle & -> & Hq & Hi & Hnd & Hv & Hs).
  apply Forall2_cons_inv_r in Hv as (l & ls' & Hl & HF & ->).
  destruct (move_node _ _ _ _ _ _ _ (proj1 Hq) Hi Hnd Hl)
    as (n & h' & Hld & Hn & Hst & Hs' & Hi' & Hr).
  unfold pool__get. rewrite Hld. cbn [obind]. rewrite Hst. cbn [obind]. rewrite Hn.
  pose proof (proj1 Hq) as (Hhd & n' & E & _).
  rewrite Hhd, (load_Some _ _ _ E) in Hld. injection Hld as ->.
  destruct (is_queue_cons _ _ _ _ _ _ Hq E) as (_ & _ & [_ Ht]).
  eexists h', _, (ls' ++ l :: idle). split; [done|]. split; [|split].
  - eexists ls', (l :: idle). split; [done|]. split; [by split|]. split; [done|].
    split; [by rewrite <-Permutation_middle|]. split; [by eapply node_vals_relinks|].
    simpl in *. lia.
  - by rewrite <-Permutation_middle.
  - eapply relinks_weaken; [|done]. set_solver.
Qed.

Lemma last_drop_ne {A} (xs : list A) n : drop n xs ≠ [] → last (drop n xs) = last xs.
Proof.
  intros Hn. rewrite <-(take_drop n xs) at 2. rewrite last_app.
  destruct (last (drop n xs)) eqn:E; [done|]. by apply last_None in E.
Qed.

Lemma lseg_head h p ls : lseg (N:=InternalNode) h p ls None → p = None ↔ ls = [].
Proof. destruct ls; simpl; [by intros ->|]. intros (-> & _). done. Qed.

Lemma pool_getM_spec h q fp vs n :
  pool_rep h q fp vs →
  ∃ h' q' fp', pool_getM h q (Z.of_nat n) =
      Ret (Some <$> take n vs, Z.of_nat (length (take n vs)), h', q') ∧
    pool_rep h' q' fp' (drop n vs) ∧ fp' ≡ₚ fp ∧ relinks h h' fp.
Proof.
  intros (ls & idle & -> & [Hl Ht] & Hi & Hnd & Hv & Hs). unfold pool_getM. rewrite Hs.
  pose proof (Forall2_length _ _ _ Hv) as Hlen.
  set (c := if _ <? _ then _ else _).
  assert (c = Z.of_nat (length (take n ls))) as ->.
  { subst c. rewrite length_take. destruct (Z.ltb_spec (Z.of_nat (length vs)) (Z.of_nat n)); lia. }
  rewrite Nat2Z.id. rewrite <-(take_drop n ls) in Hl, Hnd.
  destruct (pool_take_spec h (take n ls) (drop n ls) (take n vs) _ idle _ Hl Hi Hnd)
    as (h' & idle' & rest & -> & Hr & Hi' & Hrl); [by apply Forall2_take|].
  cbn [obind]. eexists h', _, (drop n ls ++ rev (take n ls) ++ idle). split.
  { rewrite !length_take, Hlen. done. }
  assert (NoDup (drop n ls ++ rev (take n ls) ++ idle)) as Hnd'.
  { rewrite <-Permutation_rev, app_assoc, (Permutation_app_comm (drop _ _)). done. }
  split; [|split].
  - exists (drop n ls), (rev (take n ls) ++ idle). split; [done|]. split.
    { split; [done|]. cbn. destruct rest as [r|] eqn:Er.
      - rewrite last_drop_ne; [done|]. intros Hd. rewrite Hd in Hr. done.
      - by rewrite (proj1 (lseg_head _ _ _ Hr)). }
    split; [done|]. split; [done|]. split.
    { eapply node_vals_relinks; [done|]. by apply Forall2_drop. }
    cbn [pool_list_size]. rewrite length_drop. lia.
  - rewrite <-(take_drop n ls) at 3. rewrite <-Permutation_rev, app_assoc.
    by rewrite (Permutation_app_comm (drop _ _)).
  - eapply relinks_weaken; [|done]. intros x Hx. apply elem_of_app. left.
    by apply elem_of_take in Hx as (? & ?%list_elem_of_lookup_2 & _).
Qed.

Lemma pool_rep_frame h h' q fp vs :
  (∀ l, l ∈ fp → h' !! l = h !! l) → pool_rep h q fp vs → pool_rep h' q fp vs.
Proof.
  intros Hf (ls & idle & -> & Hq & Hi & Hnd & Hv & Hs). exists ls, idle.
  split; [done|]. split; [eapply is_queue_frame; [|done]; set_solver|].
  split; [eapply lseg_frame; [|done]; set_solver|]. split; [done|]. split; [|done].
  eapply node_vals_frame; [|done]. intros l Hl. rewrite Hf by set_solver. done.
Qed.

Lemma pool_rep_alloc h q fp vs l : pool_rep h q fp vs → l ∈ fp → is_Some (h !! l).
Proof.
  intros (ls & idle & -> & [Hq _] & Hi & _) [Hl|Hl]%elem_of_app;
    [exact (lseg_in _ _ _ _ _ Hq Hl)|exact (lseg_in _ _ _ _ _ Hi Hl)].
Qed.

(** The node [_put] uses is not in the queue, and is taken off the pool. *)
Lemma pool_node_spec h q fp vs :
  pool_rep h q fp vs →
  ∃ node h' idle ls ks, pool_node h q = Ret (node, h', idle) ∧
    is_queue h' (pool_list q) (pool_tail q) ls ∧ lseg h' idle ks None ∧
    NoDup (node :: ls ++ ks) ∧ is_Some (h' !! node) ∧ node_vals h' ls vs ∧
    (node ∈ fp ∨ h !! node = None) ∧ (∀ l, l ∈ ls ++ ks → l ∈ fp) ∧
    (∀ l, l ≠ node → h' !! l = h !! l).
Proof.
  intros Hrep. pose proof (λ l, pool_rep_alloc _ _ _ _ l Hrep) as Hal.
  destruct Hrep as (ls & idle & -> & Hq & Hi & Hnd & Hv & Hs). unfold pool_node.
  destruct (pool_idle_list q) as [l|] eqn:El.
  - apply lseg_Some in Hi as (ks & n & -> & E & Hi). rewrite (load_Some _ _ _ E). cbn [obind].
    exists l, h, (in_next n), ls, ks. split; [done|]. split; [done|]. split; [done|].
    split; [by rewrite Permutation_middle|]. split; [by eexists|]. split; [done|].
    split; [set_solver|]. split; [set_solver|done].
  - apply lseg_null in Hi as [-> _].
    destruct (alloc h _) as [node h'] eqn:Ea. apply alloc_fresh in Ea as [En ->].
    assert (node ∉ ls) as Hn.
    { intros Hin. destruct (Hal node) as [? ?]; [set_solver|congruence]. }
    assert (∀ l, l ∈ ls → <[node:={| in_next := None; in_v := None |}]> h !! l = h !! l) as Hf.
    { intros l Hl. apply lookup_insert_ne. set_solver. }
    eexists node, _, None, ls, []. split; [done|]. rewrite app_nil_r in *.
    split; [by eapply is_queue_frame|]. split; [done|]. split; [by constructor|].
    split; [rewrite lookup_insert_eq; by eexists|]. split.
    { eapply node_vals_frame; [|done]. intros l Hl. by rewrite Hf. }
    split; [by right|]. split; [done|]. intros l Hl. by apply lookup_insert_ne.
Qed.

Lemma pool__put_spec h q fp vs v :
  pool_rep h q fp vs →
  ∃ h' q' fp', pool__put h q v = Ret (h', q') ∧ pool_rep h' q' fp' (vs ++ [v]) ∧
    (∀ l, l ∈ fp' → l ∈ fp ∨ h !! l = None) ∧
    (∀ l, l ∉ fp' → l ∉ fp → h' !! l = h !! l).
Proof.
  intros Hrep. assert (pool_list_size q = Z.of_nat (length vs)) as Hsz by (destruct Hrep as (?&?&?&?&?&?&?&?); done).
  destruct (pool_node_spec _ _ _ _ Hrep)
    as (node & h1 & idle & ls & ks & Hn & Hq & Hi & Hnd & [n0 En] & Hv & Hor & Hfp & Hfr).
  unfold pool__put. rewrite Hn. cbn [obind]. rewrite (store_Some _ _ _ _ En). cbn [obind].
  set (nd := {| in_next := None; in_v := Some v |}).
  apply NoDup_cons in Hnd as [Hnn Hnd].
  assert (∀ l, l ∈ ls ++ ks → <[node:=nd]> h1 !! l = h1 !! l) as Hf.
  { intros l Hl. apply lookup_insert_ne. set_solver. }
  destruct (put_one_spec (<[node:=nd]> h1) (pool_list q) (pool_tail q) ls node nd)
    as (h' & hd' & -> & Hq' & Hr).
  { eapply is_queue_frame; [|done]. set_solver. }
  { apply lookup_insert_eq. } { done. } { set_solver. }
  cbn [obind]. eexists h', _, ((ls ++ [node]) ++ ks). split; [done|].
  split; [|split].
  - exists (ls ++ [node]), ks. split; [done|]. split; [done|]. split.
    { cbn. eapply relinks_lseg; [done| |eapply lseg_frame; [|done]; set_solver].
      apply NoDup_app in Hnd as (_ & Hd & _). set_solver. }
    split.
    { rewrite <-app_assoc. simpl. rewrite <-Permutation_middle. by constructor. }
    split.
    + apply (node_vals_relinks _ _ _ _ _ Hr). apply Forall2_app.
      * eapply node_vals_frame; [|done]. intros l Hl. rewrite Hf by set_solver. done.
      * repeat constructor. by rewrite lookup_insert_eq.
    + cbn. rewrite length_app. simpl. lia.
  - intros l Hl. destruct (decide (l = node)) as [->|Hne]; [done|]. left. apply Hfp. set_solver.
  - intros l Hl Hl'. destruct Hr as [_ Hr]. rewrite Hr by set_solver.
    rewrite lookup_insert_ne by set_solver. apply Hfr. set_solver.
Qed.

Lemma SimpleQueue_getM_spec h q fp vs n :
  pool_rep h q fp vs →
  ∃ h' q' fp', SimpleQueue_getM h q (Z.of_nat n) =
      Ret (Some <$> take n vs, Z.of_nat (length (take n vs)), h', q') ∧
    pool_rep h' q' fp' (drop n vs) ∧ fp' ≡ₚ fp ∧ relinks h h' fp.
Proof.
  intros Hrep. unfold SimpleQueue_getM. destruct (Z.leb_spec (pool_list_size q) 0) as [Hz|_].
  - assert (vs = []) as ->.
    { destruct Hrep as (?&?&?&?&?&?&?&Hs). destruct vs; [done|]. simpl in Hs. lia. }
    exists h, q, fp. rewrite take_nil, drop_nil. split; [done|]. split; [done|].
    split; [done|]. apply relinks_refl.
  - by apply pool_getM_spec.
Qed.

Lemma pools_frame h h' qs (xs : list (list loc * list Z)) :
  (∀ l, l ∈ (xs ≫= fst) → h' !! l = h !! l) →
  Forall2 (λ s x, pool_rep h s (fst x) (snd x)) qs xs →
  Forall2 (λ s x, pool_rep h' s (fst x) (snd x)) qs xs.
Proof.
  intros Hf HF. induction HF as [|s x qs xs Hx HF IH]; constructor.
  - eapply pool_rep_frame; [|done]. intros l Hl. apply Hf. simpl. set_solver.
  - apply IH. intros l Hl. apply Hf. simpl. set_solver.
Qed.

Lemma prq_collect_spec h qs xs n :
  Forall2 (λ s x, pool_rep h s (fst x) (snd x)) qs xs → NoDup (xs ≫= fst) →
  ∃ h' qs' xs', prq_collect h (Z.of_nat n) qs = Ret (Some <$> take n (xs ≫= snd), h', qs') ∧
    Forall2 (λ s x, pool_rep h' s (fst x) (snd x)) qs' xs' ∧
    (xs' ≫= fst) ≡ₚ (xs ≫= fst) ∧ (xs' ≫= snd) = drop n (xs ≫= snd) ∧
    Forall2 (λ x x', snd x' `suffix_of` snd x) xs xs' ∧ relinks h h' (xs ≫= fst).
Proof.
  intros HF. revert h n HF.
  induction xs as [|[fp vs] xs IH] in qs |- *; intros h n HF Hnd.
  { apply Forall2_nil_inv_r in HF as ->. exists h, [], []. simpl. rewrite take_nil, drop_nil.
    split; [done|]. split; [done|]. split; [done|]. split; [done|]. split; [done|]. apply relinks_refl. }
  apply Forall2_cons_inv_r in HF as (q & qs' & Hq & HF & ->).
  cbn [mbind list_bind fst snd] in *. change (list_bind _ _ fst xs) with (xs ≫= fst) in *.
  change (list_bind _ _ snd xs) with (xs ≫= snd).
  cbn [prq_collect].
  destruct (SimpleQueue_getM_spec h q fp vs n Hq) as (h1 & q1 & fp1 & -> & Hq1 & Hp1 & Hr1).
  cbn [obind]. apply NoDup_app in Hnd as (Hn1 & Hd & Hn2).
  assert (Forall2 (λ s x, pool_rep h1 s (fst x) (snd x)) qs' xs) as HF1.
  { eapply pools_frame; [|done]. intros l Hl. apply Hr1. set_solver. }
  destruct (Z.eqb_spec (Z.of_nat (length (take n vs))) (Z.of_nat n)) as [He|He].
  - rewrite length_take in He. eexists h1, (q1 :: qs'), ((fp1, drop n vs) :: xs). simpl.
    rewrite take_app_le, drop_app_le by lia. split; [done|]. split; [by constructor|].
    split; [by rewrite Hp1|]. split; [done|]. split.
    + constructor; [apply suffix_drop|]. by apply Forall_Forall2_diag, Forall_true.
    + eapply relinks_weaken; [|done]. set_solver.
  - rewrite length_take in *. rewrite drop_ge in Hq1 by lia. rewrite (take_ge vs) by lia.
    rewrite take_app_ge, drop_app_ge by lia.
    replace (Z.of_nat n - Z.of_nat (n `min` length vs)) with (Z.of_nat (n - length vs)) by lia.
    destruct (IH qs' h1 (n - length vs)%nat HF1 Hn2)
      as (h2 & qs2 & xs2 & -> & HF2 & Hp2 & Hv2 & Hsf & Hr2).
    cbn [obind]. eexists h2, _, ((fp1, []) :: xs2). rewrite fmap_app. split; [done|]. split.
    { constructor; [|done]. eapply pool_rep_frame; [|done]. intros l Hl. apply Hr2.
      intros Hl2. apply (Hd l); [by rewrite <-Hp1|done]. }
    simpl. split; [by rewrite Hp1, Hp2|]. split; [done|].
    split; [constructor; [apply suffix_nil|done]|].
    apply relinks_trans with h1; (eapply relinks_weaken; [|done]); set_solver.
Qed.

Lemma total_size_spec h q xs :
  prq_rep h q xs → PriorityQueue_total_size q = Z.of_nat (length (xs ≫= snd)).
Proof.
  intros (HF & _ & _). unfold PriorityQueue_total_size.
  assert (∀ z, foldl (λ size q, size + pool_list_size q) z (prq_pri_queue q) =
    z + Z.of_nat (length (xs ≫= snd))) as ->; [|lia].
  induction HF as [|s x qs xs Hx HF IH]; intros z; [simpl; lia|].
  change ((x :: xs) ≫= snd) with (snd x ++ (xs ≫= snd)). cbn [foldl].
  rewrite IH, length_app. destruct Hx as (?&?&?&?&?&?&?&->). lia.
Qed.

Lemma prq_put_spec h q A fp vs B v :
  prq_rep h q (A ++ (fp, vs) :: B) →
  ∃ h' q' fp', PriorityQueue_put h q v (Z.of_nat (length A)) = Ret (h', q') ∧
    prq_rep h' q' (A ++ (fp', vs ++ [v]) :: B).
Proof.
  intros (HF & Hnd & Hnum). unfold PriorityQueue_put.
  rewrite Hnum, length_app. cbn [length].
  rewrite (proj2 (Z.leb_gt _ _)) by lia. rewrite (proj2 (Z.ltb_ge _ 0)) by lia.
  rewrite Nat2Z.id. apply Forall2_app_inv_r in HF as (qA & qs & HA & HF & Hq).
  apply Forall2_cons_inv_r in HF as (u & qB & Hu & HB & ->). rewrite Hq.
  pose proof (Forall2_length _ _ _ HA) as HlA.
  rewrite <-HlA, list_lookup_middle by done.
  destruct (pool__put_spec h u fp vs v Hu) as (h' & u' & fp' & Hp & Hu' & Hin & Hfr).
  unfold SimpleQueue_put. rewrite Hp. cbn [obind].
  rewrite insert_app_r_alt, Nat.sub_diag by lia. cbn [list_insert].
  rewrite bind_app in Hnd. simpl in Hnd. apply NoDup_app in Hnd as (HnA & HdA & Hnd).
  apply NoDup_app in Hnd as (Hn & Hd & HnB).
  assert (∀ C qC l, Forall2 (λ s x, pool_rep h s (fst x) (snd x)) qC C →
            l ∈ C ≫= fst → is_Some (h !! l)) as Hal.
  { intros C qC l HC. induction HC as [|s x qC C Hx HC IH]; simpl; [set_solver|].
    intros [Hl|Hl]%elem_of_app; [by eapply pool_rep_alloc|auto]. }
  assert (∀ l, l ∈ A ≫= fst → l ∉ fp') as HdA'.
  { intros l Hl [?|He]%Hin; [set_solver|]. destruct (Hal _ _ _ HA Hl). congruence. }
  assert (∀ l, l ∈ B ≫= fst → l ∉ fp') as HdB'.
  { intros l Hl [?|He]%Hin; [set_solver|]. destruct (Hal _ _ _ HB Hl). congruence. }
  eexists h', _, fp'. split; [done|]. split; [|split].
  - apply Forall2_app; [|constructor; [done|]];
      (eapply pools_frame; [|done]); intros l Hl; apply Hfr; set_solver.
  - rewrite bind_app. simpl. apply NoDup_app. split; [done|]. split; [set_solver|].
    apply NoDup_app. split; [|split; [set_solver|done]].
    by destruct Hu' as (?&?&->&?&?&?&?&?).
  - cbn. rewrite HlA, length_app. simpl. lia.
Qed.

(** The socket queue: the (fd, id) pairs in the order they were put. *)
Definition queue_rep (h : qheap) (q : Queue) (xs : list (Z * Z)) : Prop :=
  ∃ ls, is_queue h (q_head q) (q_tail q) ls ∧
    Forall2 (λ l x, ∃ e, h !! l = Some e ∧ (qe_value e, qe_id e) = x) ls xs.

Lemma Queue_put_spec h q xs v id :
  queue_rep h q xs →
  ∃ h' q', Queue_put h q v id = Ret (h', q') ∧ queue_rep h' q' (xs ++ [(v, u64 id)]).
Proof.
  intros (ls & Hq & HF). unfold Queue_put.
  set (e := {| qe_next := None; qe_id := u64 id; qe_value := v |}).
  destruct (alloc h e) as [l h1] eqn:Ea. apply alloc_fresh in Ea as [En ->].
  assert (∀ k, k ∈ ls → k ≠ l) as Hne.
  { intros k Hk ->. destruct (lseg_in _ _ _ _ _ (proj1 Hq) Hk). congruence. }
  destruct (put_one_spec (<[l:=e]> h) (q_head q) (q_tail q) ls l e)
    as (h' & hd' & -> & Hq' & [El Hr]).
  { eapply is_queue_frame; [|done]. intros k Hk. by apply lookup_insert_ne, not_eq_sym, Hne. }
  { apply lookup_insert_eq. } { done. } { intros Hl. by apply (Hne l Hl). }
  cbn [obind]. eexists h', _. split; [done|]. exists (ls ++ [l]). split; [done|].
  assert (∀ k x, (∃ n, <[l:=e]> h !! k = Some n ∧ (qe_value n, qe_id n) = x) →
    ∃ n, h' !! k = Some n ∧ (qe_value n, qe_id n) = x) as Hkeep.
  { intros k x (n & E & <-). destruct (links_only_Some _ _ _ _ El E) as (n' & E' & Hu).
    exists n'. split; [done|]. unfold unlink in Hu. simpl in Hu. congruence. }
  apply Forall2_app.
  - eapply Forall2_impl; [|intros k x Hx; apply Hkeep; exact Hx].
    clear -HF Hne. induction HF as [|k x ks xs Hx HF IH]; constructor.
    + destruct Hx as (n & E & <-). exists n. split; [|done].
      rewrite lookup_insert_ne; [done|]. apply not_eq_sym, Hne. set_solver.
    + apply IH. set_solver.
  - constructor; [|constructor]. apply Hkeep. exists e. by rewrite lookup_insert_eq.
Qed.

(** ** Properties *)

(** C31: a block queue with a node pool behaves as a first-in first-out list of
    values whatever nodes it recycles: [put] appends, [get] removes the first
    value, [getM] the first [n], and both sleep exactly when it is empty. *)
Theorem pooled_block_queue_is_fifo h q fp vs v n (Hq : pool_rep h q fp vs) :
  (∃ h' q' fp', BlockQueue_put h q v = Ret (h', q') ∧ pool_rep h' q' fp' (vs ++ [v])) ∧
  match vs with
  | [] => BlockQueue_get h q = Wait ∧ BlockQueue_getM h q (Z.of_nat n) = Wait
  | x :: xs =>
      (∃ h' q' fp', BlockQueue_get h q = Ret (Some x, h', q') ∧ pool_rep h' q' fp' xs) ∧
      (∃ h' q' fp', BlockQueue_getM h q (Z.of_nat n) =
           Ret (Some <$> take n vs, Z.of_nat (length (take n vs)), h', q') ∧
         pool_rep h' q' fp' (drop n vs))
  end.
Proof.
  assert (pool_list_size q = Z.of_nat (length vs)) as Hs
    by (destruct Hq as (?&?&?&?&?&?&?&?); done).
  split.
  - destruct (pool__put_spec h q fp vs v Hq) as (h' & q' & fp' & ? & ? & _). eauto.
  - unfold BlockQueue_get, BlockQueue_getM. rewrite Hs. destruct vs as [|x xs]; [done|].
    rewrite (proj2 (Z.eqb_neq _ 0)) by (simpl; lia). split.
    + destruct (pool__get_spec h q fp x xs Hq) as (h' & q' & fp' & ? & ? & _). eauto.
    + destruct (pool_getM_spec h q fp (x :: xs) n Hq) as (h' & q' & fp' & ? & ? & _). eauto.
Qed.

Lemma pooled_block_queue_is_fifo_witness :
  ∃ h q fp, BlockQueue_put ∅ pool_new 7 = Ret (h, q) ∧ pool_rep h q fp [7] ∧
    BlockQueue_get ∅ pool_new = Wait.
Proof.
  destruct (pooled_block_queue_is_fifo ∅ pool_new [] [] 7 1)
    as ((h & q & fp & Hp & Hq) & Hw & _).
  - exists [], []. split; [done|]. split; [done|]. split; [done|]. split; [constructor|].
    split; [constructor|done].
  - exists h, q, fp. auto.
Defined.

(** [getM] of the pooled priority queue returns values in sequence, the most
    urgent class first and each class in arrival order, exactly as many as asked
    for and available; what it leaves in each class is a suffix of it.  On an
    empty queue it never returns: its wait loop tests a copy of the size that
    nothing updates. *)
Theorem priority_getM_in_sequence h q xs n (Hq : prq_rep h q xs) :
  match xs ≫= snd with
  | [] => PriorityQueue_getM h q (Z.of_nat n) = Diverge
  | vs => ∃ h' q' xs',
      PriorityQueue_getM h q (Z.of_nat n) =
        Ret (Some <$> take n vs, Z.of_nat (length (take n vs)), h', q') ∧
      prq_rep h' q' xs' ∧ (xs' ≫= snd) = drop n vs ∧
      Forall2 (λ x x', snd x' `suffix_of` snd x) xs xs'
  end.
Proof.
  pose proof (total_size_spec _ _ _ Hq) as Ht.
  destruct (xs ≫= snd) as [|v vs] eqn:Ev.
  { unfold PriorityQueue_getM. by rewrite Ht. }
  unfold PriorityQueue_getM. rewrite Ht, (proj2 (Z.eqb_neq _ 0)) by (simpl; lia).
  set (c := if _ <? _ then _ else _).
  assert (c = Z.of_nat (length (take n (v :: vs)))) as ->.
  { subst c. rewrite length_take.
    destruct (Z.ltb_spec (Z.of_nat (length (v :: vs))) (Z.of_nat n)); lia. }
  destruct Hq as (HF & Hnd & Hnum).
  destruct (prq_collect_spec h _ xs (length (take n (v :: vs))) HF Hnd)
    as (h' & qs' & xs' & -> & HF' & Hp & Hv & Hsf & _).
  cbn [obind]. rewrite Ev, length_take in *. eexists h', _, xs'. split; [|split; [|split]].
  - do 3 f_equal. destruct (decide (n ≤ length (v :: vs))%nat).
    + by rewrite Nat.min_l by lia.
    + rewrite Nat.min_r by lia. by rewrite !take_ge by lia.
  - split; [done|]. split; [by rewrite Hp|]. cbn. rewrite Hnum.
    by rewrite (Forall2_length _ _ _ Hsf).
  - rewrite Hv. destruct (decide (n ≤ length (v :: vs))%nat).
    + by rewrite Nat.min_l by lia.
    + rewrite Nat.min_r by lia. by rewrite !drop_ge by lia.
  - done.
Qed.

Lemma priority_getM_in_sequence_witness :
  ∃ h q h1 q1 h2 q2 h' q',
    PriorityQueue_put h q 5 1 = Ret (h1, q1) ∧ PriorityQueue_put h1 q1 9 0 = Ret (h2, q2) ∧
    PriorityQueue_getM h2 q2 2 = Ret ([Some 9; Some 5], 2, h', q').
Proof.
  assert (pool_rep ∅ pool_new [] []) as He.
  { exists [], []. split; [done|]. split; [done|]. split; [done|]. split; [constructor|].
    split; [constructor|done]. }
  set (q := {| prq_priority_num := 2; prq_pri_queue := [pool_new; pool_new] |}).
  assert (prq_rep ∅ q [([], []); ([], [])]) as Hq.
  { split; [by repeat constructor|]. split; [constructor|done]. }
  destruct (prq_put_spec ∅ q [([], [])] [] [] [] 5 Hq) as (h1 & q1 & fp1 & E1 & Hq1).
  destruct (prq_put_spec h1 q1 [] [] [] [(fp1, [5])] 9 Hq1) as (h2 & q2 & fp2 & E2 & Hq2).
  destruct (priority_getM_in_sequence h2 q2 [(fp2, [9]); (fp1, [5])] 2%nat Hq2)
    as (h' & q' & _ & E3 & _).
  exists ∅, q, h1, q1, h2, q2, h', q'. auto.
Defined.
