(* ===== verification/IoPushList.v ===== *)
(** io::IoPushList (framework/io/io_push_list.h).

    The frames waiting to be written to one connection.  Every node carries a
    message, and besides the nodes the list keeps the messages themselves linked
    in the same order, so that [stealMsg] can hand all of them over at once. *)
From S2P Require Import Prelude Heap Bytes MsMessage.

(** ** Data *)
(** The only function assigned to [_freev]. *)
Inductive free_fn := free_releaseIMessage.

Record IoPushData := mkPushData {
  pd_next : ptr;
  pd_msg : ptr;
  pd_freev : free_fn;
  pd_wbuf : ptr; (** the message whose frame buffer [_wbuf] points to *)
  pd_wsize : Z;
  pd_wpos : Z }.
Abbreviation pheap := (gmap loc IoPushData).

Definition pd_set_next (p : ptr) (d : IoPushData) : IoPushData :=
  mkPushData p (pd_msg d) (pd_freev d) (pd_wbuf d) (pd_wsize d) (pd_wpos d).
Definition pd_set_wpos (n : Z) (d : IoPushData) : IoPushData :=
  mkPushData (pd_next d) (pd_msg d) (pd_freev d) (pd_wbuf d) (pd_wsize d) n.

#[export] Program Instance IoPushData_link : LinkNode IoPushData :=
  {| nd_next := pd_next; nd_set_next := pd_set_next |}.
Next Obligation. done. Qed.
Next Obligation. done. Qed.
Next Obligation. by intros []. Qed.

Record IoPushList := { pl_list : ptr; pl_tail : ptr; pl_list_size : Z }.

Definition IoPushList_new : IoPushList :=
  {| pl_list := None; pl_tail := None; pl_list_size := 0 |}.

(** ** Operations *)
(** [createPushData] and the assignment of every field that follows it. *)
Definition createPushData (ph : pheap) (d : IoPushData) : loc * pheap := alloc ph d.

Definition destroyPushData (ph : pheap) (data : ptr) : outcome pheap := dealloc ph data.

Definition freev_call (f : free_fn) (mh : mheap) (msg : ptr) : outcome mheap :=
  match f with free_releaseIMessage => releaseIMessage mh msg end.

Definition destroyMsgData (mh : mheap) (ph : pheap) (data : ptr) : outcome (mheap * pheap) :=
  let* d := load ph data in
  let* mh := freev_call (pd_freev d) mh (pd_msg d) in
  let* ph := destroyPushData ph data in
  Ret (mh, ph).

Definition IoPushList_get (mh : mheap) (ph : pheap) (q : IoPushList)
    : outcome (ptr * mheap * pheap * IoPushList) :=
  match pl_list q with
  | None => Ret (None, mh, ph, q)
  | Some _ =>
      let item := pl_list q in
      let* d := load ph item in
      let* ph := store_next ph item None in
      let* mh := store_next mh (pd_msg d) None in
      Ret (item, mh, ph,
           {| pl_list := pd_next d;
              pl_tail := match pd_next d with None => None | Some _ => pl_tail q end;
              pl_list_size := pl_list_size q - 1 |})
  end.

Definition IoPushList_getAll (q : IoPushList) : ptr * IoPushList :=
  (pl_list q, IoPushList_new).

Definition IoPushList_put (mh : mheap) (ph : pheap) (q : IoPushList) (d : ptr)
    : outcome (mheap * pheap * IoPushList) :=
  let* nd := load ph d in
  let* mh := store_next mh (pd_msg nd) None in
  let* ph := store_next ph d None in
  match pl_tail q with
  | Some _ =>
      let* ph := store_next ph (pl_tail q) d in
      let* t := load ph (pl_tail q) in
      let* mh := store_next mh (pd_msg t) (pd_msg nd) in
      Ret (mh, ph, {| pl_list := pl_list q; pl_tail := d; pl_list_size := pl_list_size q + 1 |})
  | None =>
      Ret (mh, ph, {| pl_list := d; pl_tail := d; pl_list_size := pl_list_size q + 1 |})
  end.

Definition IoPushList_putFirst (mh : mheap) (ph : pheap) (q : IoPushList) (d : ptr)
    : outcome (mheap * pheap * IoPushList) :=
  let* nd := load ph d in
  let* mh := store_next mh (pd_msg nd) None in
  let* ph := store_next ph d (pl_list q) in
  match pl_tail q with
  | None =>
      Ret (mh, ph, {| pl_list := d; pl_tail := d; pl_list_size := pl_list_size q + 1 |})
  | Some _ =>
      let* hd := load ph (pl_list q) in
      let* mh := store_next mh (pd_msg nd) (pd_msg hd) in
      Ret (mh, ph, {| pl_list := d; pl_tail := pl_tail q; pl_list_size := pl_list_size q + 1 |})
  end.

(** The loops of [clear] and [shallowClear]. *)
Fixpoint pl_clear (fuel : nat) (mh : mheap) (ph : pheap) (list : ptr)
    : outcome (mheap * pheap) :=
  match list with
  | None => Ret (mh, ph)
  | Some _ =>
      match fuel with
      | O => Diverge
      | S fuel =>
          let* d := load ph list in
          let* (mh, ph) := destroyMsgData mh ph list in
          pl_clear fuel mh ph (pd_next d)
      end
  end.

Fixpoint pl_shallow (fuel : nat) (ph : pheap) (list : ptr) : outcome pheap :=
  match list with
  | None => Ret ph
  | Some _ =>
      match fuel with
      | O => Diverge
      | S fuel =>
          let* d := load ph list in
          let* ph := destroyPushData ph list in
          pl_shallow fuel ph (pd_next d)
      end
  end.

Definition IoPushList_clear (mh : mheap) (ph : pheap) (q : IoPushList)
    : outcome (mheap * pheap * IoPushList) :=
  let* (mh, ph) := pl_clear (size ph) mh ph (pl_list q) in Ret (mh, ph, IoPushList_new).

Definition IoPushList_shallowClear (ph : pheap) (q : IoPushList)
    : outcome (pheap * IoPushList) :=
  let* ph := pl_shallow (size ph) ph (pl_list q) in Ret (ph, IoPushList_new).

Definition IoPushList_stealMsg (ph : pheap) (q : IoPushList) : outcome ptr :=
  match pl_list q with
  | None => Ret None
  | Some _ => let* d := load ph (pl_list q) in Ret (pd_msg d)
  end.

Definition IoPushList_size (q : IoPushList) : Z := pl_list_size q.

Definition IoPushList_empty (q : IoPushList) : bool := bool_decide (pl_list q = pl_tail q).

(** ** Representation

    The nodes [ds] carry the messages [ms], and both are linked in order. *)
Definition carries (ph : pheap) (d m : loc) : Prop :=
  pd_msg <$> ph !! d = Some (Some m).

Definition pl_rep (mh : mheap) (ph : pheap) (q : IoPushList) (ds ms : list loc) : Prop :=
  is_queue ph (pl_list q) (pl_tail q) ds ∧ Forall2 (carries ph) ds ms ∧
  lseg mh (head ms) ms None ∧ pl_list_size q = Z.of_nat (length ds).

(** ** Lemmas *)
Lemma pl_new_rep mh ph : pl_rep mh ph IoPushList_new [] [].
Proof. split; [done|]. split; [constructor|]. done. Qed.

Lemma pd_store_next (ph : pheap) l d p :
  ph !! l = Some d → store_next ph (Some l) p = Ret (<[l := pd_set_next p d]> ph).
Proof. intros E. exact (store_next_Some ph l d p E). Qed.

Lemma msg_store_next (mh : mheap) l m p :
  mh !! l = Some m → store_next mh (Some l) p = Ret (<[l := set_next p m]> mh).
Proof. intros E. exact (store_next_Some mh l m p E). Qed.

Lemma carries_relinks ph ph' fp d m : relinks ph ph' fp → carries ph d m → carries ph' d m.
Proof.
  unfold carries. intros [E _]. pose proof (links_only_lookup _ _ d E) as El.
  destruct (ph !! d), (ph' !! d); simpl in *; try done.
  unfold unlink in El. simpl in El. intros Hm. rewrite <-Hm. f_equal. by injection El.
Qed.

Lemma Forall2_carries_relinks ph ph' fp ds ms :
  relinks ph ph' fp → Forall2 (carries ph) ds ms → Forall2 (carries ph') ds ms.
Proof. intros Hr HF. eapply Forall2_impl; [done|]. intros d m. by eapply carries_relinks. Qed.

Lemma Forall2_carries_frame ph ph' ds ms :
  (∀ d, d ∈ ds → ph' !! d = ph !! d) →
  Forall2 (carries ph) ds ms → Forall2 (carries ph') ds ms.
Proof.
  intros Hf HF. induction HF as [|d m ds ms Hd HF IH]; constructor.
  - unfold carries in *. rewrite Hf by set_solver. done.
  - apply IH. set_solver.
Qed.

Lemma carries_Some ph d m : carries ph d m → ∃ nd, ph !! d = Some nd ∧ pd_msg nd = Some m.
Proof. unfold carries. intros (nd & ? & ?)%fmap_Some. eauto. Qed.

Lemma Forall2_last {A B} (P : A → B → Prop) xs ys x :
  Forall2 P xs ys → last xs = Some x → ∃ y, last ys = Some y ∧ P x y.
Proof.
  intros HF Hl. destruct xs as [|x' xs _] using rev_ind; [done|].
  rewrite last_snoc in Hl. injection Hl as ->.
  apply Forall2_app_inv_l in HF as (ys1 & ys2 & _ & HF & ->).
  apply Forall2_cons_inv_l in HF as (y & ys' & Hy & HF & ->).
  apply Forall2_nil_inv_l in HF as ->. exists y. by rewrite last_snoc.
Qed.

Lemma pl_rep_NoDup mh ph q ds ms : pl_rep mh ph q ds ms → NoDup ds ∧ NoDup ms.
Proof.
  intros (Hq & _ & Hm & _). split; [exact (is_queue_NoDup _ _ _ _ Hq)|exact (lseg_NoDup _ _ _ Hm)].
Qed.

Lemma pl_rep_frame mh mh' ph ph' q ds ms :
  (∀ l, l ∈ ms → mh' !! l = mh !! l) → (∀ l, l ∈ ds → ph' !! l = ph !! l) →
  pl_rep mh ph q ds ms → pl_rep mh' ph' q ds ms.
Proof.
  intros Hm Hd (Hq & HF & Hs & Hz). split; [by eapply is_queue_frame|].
  split; [by eapply Forall2_carries_frame|]. split; [by eapply lseg_frame|done].
Qed.

(** Clearing the link of a node outside a queue. *)
Lemma unlink_first {N} `{LinkNode N} (h : gmap loc N) hd tl ls l n :
  is_queue h hd tl ls → h !! l = Some n → l ∉ ls →
  let h' := <[l := nd_set_next None n]> h in
  store_next h (Some l) None = Ret h' ∧ is_queue h' hd tl ls ∧
  h' !! l = Some (nd_set_next None n) ∧ relinks h h' [l].
Proof.
  intros Hq E Hl. split; [by apply store_next_Some|]. split; [|split].
  - eapply is_queue_frame; [|done]. intros k Hk. apply lookup_insert_ne. set_solver.
  - apply lookup_insert_eq.
  - apply relinks_set; [done|set_solver].
Qed.

Lemma pl_put_spec mh ph q ds ms d m nd :
  pl_rep mh ph q ds ms → ph !! d = Some nd → pd_msg nd = Some m → is_Some (mh !! m) →
  d ∉ ds → m ∉ ms →
  ∃ mh' ph' q', IoPushList_put mh ph q (Some d) = Ret (mh', ph', q') ∧
    pl_rep mh' ph' q' (ds ++ [d]) (ms ++ [m]) ∧
    relinks mh mh' (m :: ms) ∧ relinks ph ph' (d :: ds).
Proof.
  intros (Hq & HF & Hs & Hz) Ed Em [mm E] Hd Hm.
  assert (is_queue mh (head ms) (last ms) ms) as Hqm by done.
  destruct (unlink_first _ _ _ _ _ _ Hq Ed Hd) as (Hst1 & Hq1 & Ed1 & Hr1).
  destruct (unlink_first _ _ _ _ _ _ Hqm E Hm) as (Hst2 & Hq2 & Em1 & Hr2).
  destruct (put_one_spec _ _ _ _ d _ Hq1 Ed1 (nd_next_set _ _) Hd) as (ph' & hd' & Hp & Hq1' & Hr1').
  destruct (put_one_spec _ _ _ _ m _ Hq2 Em1 (nd_next_set _ _) Hm) as (mh' & hm' & Hpm & Hq2' & Hr2').
  unfold IoPushList_put. rewrite (load_Some _ _ _ Ed). cbn [obind].
  rewrite Em, Hst2. cbn [obind]. rewrite Hst1. cbn [obind].
  set (ph1 := <[d:=_]> ph) in *. set (mh1 := <[m:=_]> mh) in *.
  assert (Forall2 (carries ph') (ds ++ [d]) (ms ++ [m])) as HF'.
  { apply (Forall2_carries_relinks _ _ _ _ _ Hr1'), (Forall2_carries_relinks _ _ _ _ _ Hr1).
    apply Forall2_app; [done|]. repeat constructor. unfold carries. by rewrite Ed; simpl; rewrite Em. }
  assert (lseg mh' (head (ms ++ [m])) (ms ++ [m]) None) as Hs'.
  { pose proof (is_queue_head _ _ _ _ Hq2') as <-. apply Hq2'. }
  assert (relinks mh mh' (m :: ms) ∧ relinks ph ph' (d :: ds)) as Hrr.
  { split; (eapply relinks_trans; eapply relinks_weaken; [|eassumption| |eassumption]); set_solver. }
  destruct (pl_tail q) as [t|] eqn:Et; cbn [link_tail] in Hp.
  - apply obind_Ret_inv in Hp as (ph2 & Hst3 & [= -> <-]). rewrite Hst3. cbn [obind].
    pose proof (proj2 Hq) as Ht. symmetry in Ht.
    destruct (Forall2_last _ _ _ _ HF Ht) as (tm & Htm & Hc).
    destruct (carries_Some ph' t tm) as (nt & Ent & Emt).
    { by apply (carries_relinks _ _ _ _ _ Hr1'), (carries_relinks _ _ _ _ _ Hr1). }
    rewrite (load_Some _ _ _ Ent). cbn [obind]. rewrite Emt. rewrite Htm in Hpm. cbn [link_tail] in Hpm.
    apply obind_Ret_inv in Hpm as (mh2 & Hst4 & [= -> <-]). rewrite Hst4. cbn [obind].
    eexists mh', ph', _. split; [done|]. split; [|done]. split; [done|]. split; [done|].
    split; [done|]. cbn. rewrite length_app. simpl. lia.
  - injection Hp as <- <-. pose proof (proj2 Hq) as Ht. symmetry in Ht. apply last_None in Ht as ->.
    apply Forall2_nil_inv_l in HF as ->. cbn [link_tail last] in Hpm. injection Hpm as <- <-.
    eexists mh1, ph1, _. split; [done|]. split; [|done]. split; [done|]. split; [done|].
    split; [done|]. cbn in *. lia.
Qed.

Lemma pl_get_spec mh ph q d ds m ms :
  pl_rep mh ph q (d :: ds) (m :: ms) →
  ∃ mh' ph' q', IoPushList_get mh ph q = Ret (Some d, mh', ph', q') ∧
    pl_rep mh' ph' q' ds ms ∧ carries ph' d m ∧
    relinks mh mh' [m] ∧ relinks ph ph' [d].
Proof.
  intros (Hq & HF & Hs & Hz). pose proof Hq as [(Hhd & nd & Ed & Hds) _].
  apply Forall2_cons in HF as [Hc HF].
  destruct (carries_Some _ _ _ Hc) as (nd' & Ed' & Em). assert (nd' = nd) as -> by congruence.
  destruct Hs as (_ & mm & E & Hms).
  pose proof (is_queue_NoDup _ _ _ _ Hq) as [Hnd _]%NoDup_cons.
  assert (m ∉ ms) as Hnm.
  { assert (lseg mh (Some m) (m :: ms) None) as Hl by (split; [done|eauto]).
    by apply lseg_NoDup, NoDup_cons in Hl as [? _]. }
  destruct (is_queue_cons _ _ _ _ _ _ Hq Ed) as (_ & _ & Hq').
  unfold IoPushList_get. rewrite Hhd, (load_Some _ _ _ Ed). cbn [obind].
  rewrite (pd_store_next _ _ _ _ Ed). cbn [obind]. rewrite Em, (msg_store_next _ _ _ _ E). cbn [obind].
  assert (relinks ph (<[d:=pd_set_next None nd]> ph) [d]) as Hr.
  { refine (relinks_set ph d nd None _ Ed _). set_solver. }
  assert (relinks mh (<[m:=set_next None mm]> mh) [m]) as Hrm.
  { refine (relinks_set mh m mm None _ E _). set_solver. }
  eexists _, _, _. split; [done|]. split; [|split; [by eapply carries_relinks|done]].
  split.
  { eapply is_queue_frame; [|exact Hq']. intros k Hk. apply lookup_insert_ne. set_solver. }
  split; [by eapply Forall2_carries_relinks|]. split; [|cbn in *; lia].
  replace (head ms) with (nd_next mm) by (destruct ms; simpl in Hms; naive_solver).
  by apply lseg_insert_ne.
Qed.

Lemma pl_putFirst_spec mh ph q ds ms d m nd :
  pl_rep mh ph q ds ms → ph !! d = Some nd → pd_msg nd = Some m → is_Some (mh !! m) →
  d ∉ ds → m ∉ ms →
  ∃ mh' ph' q', IoPushList_putFirst mh ph q (Some d) = Ret (mh', ph', q') ∧
    pl_rep mh' ph' q' (d :: ds) (m :: ms) ∧
    relinks mh mh' (m :: ms) ∧ relinks ph ph' (d :: ds).
Proof.
  intros (Hq & HF & Hs & Hz) Ed Em [mm E] Hd Hm. unfold IoPushList_putFirst.
  rewrite (load_Some _ _ _ Ed). cbn [obind].
  rewrite Em, (msg_store_next _ _ _ _ E). cbn [obind].
  rewrite (pd_store_next _ _ _ _ Ed). cbn [obind].
  set (ph1 := <[d:=pd_set_next (pl_list q) nd]> ph).
  assert (relinks ph ph1 [d]) as Hr.
  { refine (relinks_set ph d nd _ _ Ed _). set_solver. }
  assert (Forall2 (carries ph1) (d :: ds) (m :: ms)) as HF'.
  { apply (Forall2_carries_relinks _ _ _ _ _ Hr). constructor; [|done].
    unfold carries. rewrite Ed. simpl. by rewrite Em. }
  assert (lseg ph1 (Some d) (d :: ds) None) as Hsd.
  { split; [done|]. eexists. split; [apply lookup_insert_eq|].
    apply lseg_insert_ne; [done|apply Hq]. }
  assert (relinks ph ph1 (d :: ds)) as Hr' by (eapply relinks_weaken; [|done]; set_solver).
  destruct (pl_tail q) as [t|] eqn:Et.
  - destruct ds as [|d0 ds]; [by destruct Hq|].
    apply Forall2_cons in HF' as [Hc HF']. pose proof HF' as HF0.
    apply Forall2_cons_inv_l in HF0 as (m0 & ms0 & Hc0 & _ & ->).
    pose proof Hq as [(-> & _) Ht]. destruct (carries_Some _ _ _ Hc0) as (n0 & En0 & Em0).
    rewrite (load_Some _ _ _ En0). cbn [obind]. rewrite Em0.
    set (mh1 := <[m:=set_next None mm]> mh).
    assert (mh1 !! m = Some (set_next None mm)) as E1 by apply lookup_insert_eq.
    rewrite (msg_store_next _ _ _ (Some m0) E1). cbn [obind].
    eexists _, ph1, _. split; [done|]. split; [|split; [|done]].
    + split; [split; [done|by rewrite last_cons_cons, <-Ht]|]. split; [by constructor|].
      split; [|cbn in *; lia]. split; [done|]. eexists. split; [apply lookup_insert_eq|].
      apply lseg_insert_ne; [done|]. apply lseg_insert_ne; [done|exact Hs].
    + apply relinks_trans with mh1.
      * refine (relinks_set mh m mm None _ E _). set_solver.
      * refine (relinks_set mh1 m _ (Some m0) _ E1 _). set_solver.
  - destruct ds as [|d0 ds _] using rev_ind; [|destruct Hq as [_ Ht]; by rewrite last_snoc in Ht].
    apply Forall2_nil_inv_l in HF as ->. eexists _, ph1, _. split; [done|].
    split; [|split; [|done]].
    + split; [by split|]. split; [done|]. split; [|cbn in *; lia].
      split; [done|]. eexists. by rewrite lookup_insert_eq.
    + refine (relinks_set mh m mm None _ E _). set_solver.
Qed.

Lemma pl_steal_spec mh ph q ds ms :
  pl_rep mh ph q ds ms → IoPushList_stealMsg ph q = Ret (head ms).
Proof.
  intros ([Hq _] & HF & _). unfold IoPushList_stealMsg.
  destruct HF as [|d m ds ms Hc HF]; simpl in Hq; [by rewrite Hq|].
  destruct Hq as (-> & _). destruct (carries_Some _ _ _ Hc) as (nd & En & Em).
  rewrite (load_Some _ _ _ En). cbn [obind]. by rewrite Em.
Qed.

(** Deleting a list of keys. *)
Definition delete_all {A} (ls : list loc) (h : gmap loc A) : gmap loc A :=
  foldr delete h ls.

Lemma delete_all_ne {A} ls (h : gmap loc A) l : l ∉ ls → delete_all ls h !! l = h !! l.
Proof.
  induction ls as [|k ls IH]; simpl; [done|]. intros Hl.
  rewrite lookup_delete_ne by set_solver. apply IH. set_solver.
Qed.

Lemma delete_all_in {A} ls (h : gmap loc A) l : l ∈ ls → delete_all ls h !! l = None.
Proof.
  induction ls as [|k ls IH]; simpl; [set_solver|]. intros Hl.
  destruct (decide (l = k)) as [->|Hne]; [apply lookup_delete_eq|].
  rewrite lookup_delete_ne by done. apply IH. set_solver.
Qed.

Lemma delete_all_delete {A} ls (h : gmap loc A) l :
  delete_all ls (delete l h) = delete l (delete_all ls h).
Proof. induction ls as [|k ls IH]; simpl; [done|]. by rewrite IH, delete_delete. Qed.

Lemma pl_shallow_spec fuel ph p ds :
  lseg ph p ds None → (length ds ≤ fuel)%nat →
  pl_shallow fuel ph p = Ret (delete_all ds ph).
Proof.
  revert ph p ds. induction fuel as [|fuel IH]; intros ph p ds Hs Hf.
  - destruct ds; [|simpl in Hf; lia]. by simpl in Hs; subst.
  - pose proof (lseg_NoDup _ _ _ Hs) as Hnd.
    destruct ds as [|d ds]; simpl in Hs; [by subst|].
    destruct Hs as (-> & n & E & Hs). apply NoDup_cons in Hnd as [Hd _]. cbn [pl_shallow].
    rewrite (load_Some _ _ _ E). cbn [obind]. unfold destroyPushData.
    rewrite (dealloc_Some _ _ _ E). cbn [obind].
    rewrite (IH _ _ ds) by (try apply lseg_delete; simpl in *; auto; lia).
    simpl. by rewrite delete_all_delete.
Qed.

Lemma pl_clear_spec fuel mh ph p ds ms :
  lseg ph p ds None → Forall2 (carries ph) ds ms → NoDup ms →
  (∀ m, m ∈ ms → is_Some (mh !! m)) → (length ds ≤ fuel)%nat →
  pl_clear fuel mh ph p = Ret (delete_all ms mh, delete_all ds ph).
Proof.
  revert mh ph p ds ms. induction fuel as [|fuel IH]; intros mh ph p ds ms Hs HF Hn Hal Hf.
  - destruct ds; [|simpl in Hf; lia]. apply Forall2_nil_inv_l in HF as ->.
    by simpl in Hs; subst.
  - pose proof (lseg_NoDup _ _ _ Hs) as Hnd.
    destruct HF as [|d m ds ms Hc HF]; simpl in Hs; [by subst|].
    destruct Hs as (-> & n & E & Hs). apply NoDup_cons in Hnd as [Hd _].
    apply NoDup_cons in Hn as [Hm Hn]. cbn [pl_clear].
    rewrite (load_Some _ _ _ E). cbn [obind]. unfold destroyMsgData.
    rewrite (load_Some _ _ _ E). cbn [obind]. unfold carries in Hc. rewrite E in Hc. injection Hc as Hc.
    destruct (Hal m) as [mm Em]; [set_solver|]. destruct (pd_freev n). cbn [freev_call].
    unfold releaseIMessage. rewrite Hc, (dealloc_Some _ _ _ Em). cbn [obind].
    unfold destroyPushData. rewrite (dealloc_Some _ _ _ E). cbn [obind].
    rewrite (IH _ _ _ ds ms).
    + simpl. by rewrite !delete_all_delete.
    + by apply lseg_delete.
    + eapply Forall2_carries_frame; [|done]. intros k Hk. apply lookup_delete_ne. set_solver.
    + done.
    + intros k Hk. rewrite lookup_delete_ne by set_solver. apply Hal. set_solver.
    + simpl in Hf. lia.
Qed.

Lemma pl_clear_all_spec mh ph q ds ms :
  pl_rep mh ph q ds ms →
  IoPushList_clear mh ph q = Ret (delete_all ms mh, delete_all ds ph, IoPushList_new).
Proof.
  intros ([Hq _] & HF & Hs & _). unfold IoPushList_clear.
  rewrite (pl_clear_spec _ _ _ _ ds ms Hq HF); [done| | |].
  - exact (lseg_NoDup _ _ _ Hs).
  - intros m. by apply lseg_in with (1:=Hs).
  - exact (lseg_length _ _ _ Hq).
Qed.

Lemma pl_shallowClear_spec mh ph q ds ms :
  pl_rep mh ph q ds ms →
  IoPushList_shallowClear ph q = Ret (delete_all ds ph, IoPushList_new).
Proof.
  intros ([Hq _] & _). unfold IoPushList_shallowClear.
  rewrite (pl_shallow_spec _ _ _ ds Hq); [done|]. exact (lseg_length _ _ _ Hq).
Qed.

(** ** Properties *)

(** the push list is a double-ended sequence of nodes whose messages stay
    linked in the same order through every operation: [put] appends, [putFirst]
    prepends, [get] removes the first node and unlinks its message, and
    [stealMsg] returns the chain of exactly the queued messages, in order. *)
Theorem push_list_keeps_message_chain mh ph q ds ms d m nd
    (Hq : pl_rep mh ph q ds ms) (Ed : ph !! d = Some nd) (Em : pd_msg nd = Some m)
    (Em' : is_Some (mh !! m)) (Hd : d ∉ ds) (Hm : m ∉ ms) :
  (∃ mh' ph' q', IoPushList_put mh ph q (Some d) = Ret (mh', ph', q') ∧
     pl_rep mh' ph' q' (ds ++ [d]) (ms ++ [m])) ∧
  (∃ mh' ph' q', IoPushList_putFirst mh ph q (Some d) = Ret (mh', ph', q') ∧
     pl_rep mh' ph' q' (d :: ds) (m :: ms)) ∧
  (∀ d0 ds' m0 ms', ds = d0 :: ds' → ms = m0 :: ms' →
     ∃ mh' ph' q', IoPushList_get mh ph q = Ret (Some d0, mh', ph', q') ∧
       pl_rep mh' ph' q' ds' ms' ∧ msg_next <$> mh' !! m0 = Some None) ∧
  (∃ p, IoPushList_stealMsg ph q = Ret p ∧ lseg mh p ms None).
Proof.
  split; [|split; [|split]].
  - destruct (pl_put_spec mh ph q ds ms d m nd) as (mh' & ph' & q' & ? & ? & _); eauto.
  - destruct (pl_putFirst_spec mh ph q ds ms d m nd) as (mh' & ph' & q' & ? & ? & _); eauto.
  - intros d0 ds' m0 ms' -> ->.
    pose proof Hq as (_ & _ & (_ & mm & E & _) & _).
    pose proof Hq as ([(Hl & n0 & En0 & _) _] & [Hc _]%Forall2_cons & _ & _).
    destruct (pl_get_spec _ _ _ _ _ _ _ Hq) as (mh' & ph' & q' & Hg & Hq' & _ & Hr & _).
    exists mh', ph', q'. split; [done|]. split; [done|].
    unfold IoPushList_get in Hg. rewrite Hl, (load_Some _ _ _ En0) in Hg. cbn [obind] in Hg.
    unfold carries in Hc. rewrite En0 in Hc. injection Hc as Hc.
    rewrite (pd_store_next _ _ _ _ En0), Hc, (msg_store_next _ _ _ _ E) in Hg.
    cbn [obind] in Hg. injection Hg as <- _ _. by rewrite lookup_insert_eq.
  - exists (head ms). split; [by eapply pl_steal_spec|]. by destruct Hq as (_ & _ & Hs & _).
Qed.

Definition wit_msgs : mheap := <[1%positive := new_message [] 0 0 0]> ∅.
Definition wit_push : IoPushData :=
  mkPushData None (Some 1%positive) free_releaseIMessage (Some 1%positive) 0 0.

Lemma push_list_keeps_message_chain_witness :
  ∃ mh' ph' q',
    IoPushList_put wit_msgs {[1%positive := wit_push]} IoPushList_new (Some 1%positive)
      = Ret (mh', ph', q') ∧
    pl_rep mh' ph' q' [1%positive] [1%positive].
Proof.
  destruct (push_list_keeps_message_chain wit_msgs {[1%positive := wit_push]}
    IoPushList_new [] [] 1%positive 1%positive wit_push) as (Hp & _).
  - apply pl_new_rep.
  - reflexivity.
  - reflexivity.
  - by eexists.
  - set_solver.
  - set_solver.
  - exact Hp.
Defined.

(** [empty()] compares the head with the tail, so it holds for a list with
    exactly one node as well as for the empty list. *)
Theorem push_list_empty_at_most_one mh ph q ds ms (Hq : pl_rep mh ph q ds ms) :
  IoPushList_empty q = true ↔ (length ds ≤ 1)%nat.
Proof.
  destruct Hq as (Hq & _). pose proof (is_queue_NoDup _ _ _ _ Hq) as Hnd.
  pose proof (is_queue_head _ _ _ _ Hq) as Hh. destruct Hq as [_ Ht].
  unfold IoPushList_empty. rewrite bool_decide_eq_true, Hh, Ht.
  destruct ds as [|x [|y ds]]; simpl; [split; [lia|done]|split; [lia|done]|].
  split; [|lia]. intros Hl. exfalso. apply NoDup_cons in Hnd as [Hx _]. apply Hx.
  change (Some x = last (y :: ds)) in Hl. symmetry in Hl.
  apply last_Some in Hl as (l' & ->). set_solver.
Qed.

Lemma push_list_empty_at_most_one_witness :
  ∃ q, IoPushList_size q = 1 ∧ IoPushList_empty q = true.
Proof.
  exists {| pl_list := Some 1%positive; pl_tail := Some 1%positive; pl_list_size := 1 |}.
  split; [reflexivity|].
  apply (push_list_empty_at_most_one wit_msgs {[1%positive := wit_push]} _ [1%positive] [1%positive]).
  - split; [|split; [repeat constructor|split; [|reflexivity]]];
      (try split); try reflexivity; repeat split; eexists; split; reflexivity.
  - simpl. lia.
Defined.
