(* ===== verification/IoSampling.v ===== *)
(** io::IoSampling (framework/io/io_sampling.cpp): the request counters of a
    connection.

    An [Hour] holds a total and a union of [Minute _m[60]] and
    [Second _s[3600]]; both are arrays of [unsigned int], so [_m[i]] and [_s[i]]
    are the same cell.  [time(NULL)] is the argument [utc]. *)
From S2P Require Import Prelude.

Definition SECONDS_ONE_HOUR : Z := 3600.
Definition TIMEZONE_FIX_SECONDS : Z := 28800.

Record Sample := { sec_total : Z; min_total : Z; hou_total : Z }.

Record IoSampling := {
  hs_total : Z; (** [_hour_sampling.total] *)
  hs_detail : list Z; (** the cells of [_hour_sampling.detail] *)
  hs_current_hour : Z;
  hs_begin_second : Z }.

Definition utcToLocal (utc : Z) : Z := utc + TIMEZONE_FIX_SECONDS.

Definition zeroed (hour : Z) : IoSampling :=
  {| hs_total := 0; hs_detail := replicate 3600 0; hs_current_hour := hour;
     hs_begin_second := hour * SECONDS_ONE_HOUR |}.

Definition IoSampling_new (utc : Z) : IoSampling :=
  zeroed (Z.quot (utcToLocal utc) SECONDS_ONE_HOUR).

Definition fixSampleSpace (sm : IoSampling) (local : Z) : IoSampling :=
  let hour := Z.quot local SECONDS_ONE_HOUR in
  if negb (hour =? hs_current_hour sm) then zeroed hour else sm.

(** The lvalue [cells[i]] and its increment; an index outside the array is
    undefined. *)
Definition cell (cells : list Z) (i : Z) : outcome Z :=
  if i <? 0 then Fault else defined (cells !! Z.to_nat i).

Definition incr_cell (cells : list Z) (i : Z) : outcome (list Z) :=
  let* v := cell cells i in Ret (<[Z.to_nat i := u32 (v + 1)]> cells).

Definition IoSampling_sample (sm : IoSampling) (utc : Z) : outcome IoSampling :=
  let t := utcToLocal utc in
  let sm := fixSampleSpace sm t in
  let s := t - hs_begin_second sm in
  let m := Z.quot s 60 in
  let* cells := incr_cell (hs_detail sm) s in
  let* cells := incr_cell cells m in
  Ret {| hs_total := u32 (hs_total sm + 1); hs_detail := cells;
         hs_current_hour := hs_current_hour sm; hs_begin_second := hs_begin_second sm |}.

Definition IoSampling_getSample (sm : IoSampling) (utc : Z) : outcome (Sample * IoSampling) :=
  let t := utcToLocal utc in
  let sm := fixSampleSpace sm t in
  let s := t - hs_begin_second sm in
  let m := Z.quot s 60 in
  let* sec := cell (hs_detail sm) s in
  let* min := cell (hs_detail sm) m in
  Ret ({| sec_total := sec; min_total := min; hou_total := hs_total sm |}, sm).

(** ** Specification

    [ts] are the (local) times sampled in the current hour. *)
Definition hour_of (t : Z) : Z := t / 3600.
Definition second_of (t : Z) : Z := t mod 3600.
Definition minute_of (t : Z) : Z := second_of t / 60.

Definition count (P : Z → bool) (ts : list Z) : Z := Z.of_nat (length (filter P ts)).

Definition cell_count (ts : list Z) (i : Z) : Z :=
  u32 (count (λ t, second_of t =? i) ts + count (λ t, minute_of t =? i) ts).

Record sampling_rep (sm : IoSampling) (hour : Z) (ts : list Z) : Prop := {
  sr_hour : hs_current_hour sm = hour;
  sr_begin : hs_begin_second sm = hour * 3600;
  sr_total : hs_total sm = u32 (Z.of_nat (length ts));
  sr_len : length (hs_detail sm) = 3600%nat;
  sr_cells : ∀ i, 0 ≤ i < 3600 → hs_detail sm !! Z.to_nat i = Some (cell_count ts i) }.

(** The times of the current hour after one more sample. *)
Definition hour_samples (hour : Z) (ts : list Z) (t : Z) : list Z :=
  if hour_of t =? hour then ts else [].

(** ** Lemmas *)
Lemma count_snoc P ts t : count P (ts ++ [t]) = count P ts + (if P t then 1 else 0).
Proof.
  unfold count. rewrite filter_app, length_app, filter_cons, filter_nil.
  destruct (P t) eqn:E; case_decide as Hd; rewrite ?E in Hd; simpl in *; try done; lia.
Qed.

Lemma u32_add_l a b : u32 (u32 a + b) = u32 (a + b).
Proof. unfold u32. by rewrite Zplus_mod_idemp_l. Qed.

Lemma second_of_range t : 0 ≤ second_of t < 3600.
Proof. unfold second_of. apply Z.mod_pos_bound. lia. Qed.

Lemma minute_of_range t : 0 ≤ minute_of t < 60.
Proof. unfold minute_of. pose proof (second_of_range t). split; [apply Z.div_pos; lia|].
  apply Z.div_lt_upper_bound; lia. Qed.

Lemma zeroed_rep hour : sampling_rep (zeroed hour) hour [].
Proof.
  split; try done.
  intros i Hi. cbn [zeroed hs_detail]. rewrite lookup_replicate_2 by lia. done.
Qed.

Lemma fix_rep sm hour ts t :
  sampling_rep sm hour ts → 0 ≤ t →
  sampling_rep (fixSampleSpace sm t) (hour_of t) (hour_samples hour ts t).
Proof.
  intros Hr Ht. unfold fixSampleSpace, hour_samples, hour_of, SECONDS_ONE_HOUR.
  rewrite Z.quot_div_nonneg by lia. rewrite (sr_hour _ _ _ Hr).
  destruct (Z.eqb_spec (t / 3600) hour) as [->|Hne]; [done|]. apply zeroed_rep.
Qed.

(** Offsets inside the current hour. *)
Lemma offsets sm ts t :
  sampling_rep sm (hour_of t) ts →
  t - hs_begin_second sm = second_of t ∧
  Z.quot (t - hs_begin_second sm) 60 = minute_of t.
Proof.
  intros Hr. assert (t - hs_begin_second sm = second_of t) as ->.
  { rewrite (sr_begin _ _ _ Hr). unfold second_of, hour_of. rewrite Z.mod_eq by lia. lia. }
  pose proof (second_of_range t). split; [done|].
  unfold minute_of. by rewrite Z.quot_div_nonneg by lia.
Qed.

Lemma incr_cell_spec cells i v :
  0 ≤ i → cells !! Z.to_nat i = Some v →
  incr_cell cells i = Ret (<[Z.to_nat i := u32 (v + 1)]> cells).
Proof.
  intros Hi E. unfold incr_cell, cell. rewrite (proj2 (Z.ltb_ge _ _)) by lia.
  by rewrite E.
Qed.

Lemma insert_lookup_Z (cells : list Z) i j v :
  0 ≤ i < Z.of_nat (length cells) → 0 ≤ j →
  <[Z.to_nat i := v]> cells !! Z.to_nat j = if i =? j then Some v else cells !! Z.to_nat j.
Proof.
  intros Hi Hj. destruct (Z.eqb_spec i j) as [->|Hne].
  - apply list_lookup_insert_eq. lia.
  - apply list_lookup_insert_ne. lia.
Qed.

Lemma sample_spec sm hour ts utc :
  sampling_rep sm hour ts → 0 ≤ utcToLocal utc →
  ∃ sm', IoSampling_sample sm utc = Ret sm' ∧
    sampling_rep sm' (hour_of (utcToLocal utc))
      (hour_samples hour ts (utcToLocal utc) ++ [utcToLocal utc]).
Proof.
  set (t := utcToLocal utc). intros Hr Ht. unfold IoSampling_sample. fold t.
  apply (fix_rep _ _ _ t) in Hr; [|done].
  set (sm1 := fixSampleSpace sm t) in *. set (ts1 := hour_samples hour ts t) in *.
  destruct (offsets sm1 ts1 t Hr) as [Hs Hm]. rewrite Hm, Hs.
  pose proof (second_of_range t). pose proof (minute_of_range t).
  pose proof (sr_len _ _ _ Hr) as Hlen. pose proof (sr_cells _ _ _ Hr) as Hc.
  rewrite (incr_cell_spec _ _ _ (proj1 (second_of_range t)) (Hc _ (second_of_range t))).
  cbn [obind].
  set (c1 := <[Z.to_nat (second_of t):=_]> (hs_detail sm1)).
  set (v1 := if second_of t =? minute_of t
             then u32 (cell_count ts1 (second_of t) + 1) else cell_count ts1 (minute_of t)).
  assert (c1 !! Z.to_nat (minute_of t) = Some v1) as E1.
  { unfold c1. rewrite insert_lookup_Z by (rewrite ?Hlen; lia). unfold v1.
    destruct (_ =? _); [done|]. apply Hc. lia. }
  rewrite (incr_cell_spec c1 _ _ (proj1 (minute_of_range t)) E1). cbn [obind].
  eexists. split; [done|]. split; cbn.
  - apply (sr_hour _ _ _ Hr).
  - apply (sr_begin _ _ _ Hr).
  - rewrite (sr_total _ _ _ Hr), u32_add_l, length_app. f_equal. simpl. lia.
  - unfold c1. by rewrite !length_insert.
  - intros i Hi. rewrite insert_lookup_Z by (unfold c1; rewrite ?length_insert, ?Hlen; lia).
    unfold c1. rewrite insert_lookup_Z by (rewrite ?Hlen; lia). unfold v1.
    rewrite (Hc i Hi). unfold cell_count. rewrite !count_snoc.
    destruct (Z.eqb_spec (minute_of t) i) as [Em|Em];
      destruct (Z.eqb_spec (second_of t) i) as [Es|Es]; rewrite ?Em, ?Es, ?Z.eqb_refl.
    + rewrite u32_add_l, <-Z.add_assoc, u32_add_l. do 2 f_equal. lia.
    + rewrite (proj2 (Z.eqb_neq _ _)) by done. rewrite !u32_add_l. do 2 f_equal. lia.
    + rewrite u32_add_l. do 2 f_equal. lia.
    + do 2 f_equal. lia.
Qed.

Lemma getSample_spec sm hour ts utc :
  sampling_rep sm hour ts → 0 ≤ utcToLocal utc →
  let t := utcToLocal utc in let ts' := hour_samples hour ts t in
  ∃ sm', IoSampling_getSample sm utc =
      Ret ({| sec_total := cell_count ts' (second_of t);
              min_total := cell_count ts' (minute_of t);
              hou_total := u32 (Z.of_nat (length ts')) |}, sm') ∧
    sampling_rep sm' (hour_of t) ts'.
Proof.
  intros Hr Ht t ts'. unfold IoSampling_getSample. fold t.
  apply (fix_rep _ _ _ t) in Hr; [|done].
  destruct (offsets _ _ _ Hr) as [Hs Hm]. rewrite Hm, Hs.
  pose proof (second_of_range t). pose proof (minute_of_range t).
  pose proof (sr_cells _ _ _ Hr) as Hc. unfold cell.
  rewrite !(proj2 (Z.ltb_ge _ 0)) by lia. rewrite !Hc by lia. cbn [defined obind].
  rewrite (sr_total _ _ _ Hr). eexists. split; done.
Qed.

(** A run of [sample] calls. *)
Fixpoint sample_all (sm : IoSampling) (utcs : list Z) : outcome IoSampling :=
  match utcs with
  | [] => Ret sm
  | utc :: utcs => let* sm := IoSampling_sample sm utc in sample_all sm utcs
  end.

(** The local times of the hour the last of [utcs] falls in, since the counters
    were last cleared. *)
Fixpoint current_samples (hour : Z) (ts : list Z) (utcs : list Z) : Z * list Z :=
  match utcs with
  | [] => (hour, ts)
  | utc :: utcs =>
      let t := utcToLocal utc in
      current_samples (hour_of t) (hour_samples hour ts t ++ [t]) utcs
  end.

Lemma sample_all_spec sm hour ts utcs :
  sampling_rep sm hour ts → Forall (λ utc, 0 ≤ utc) utcs →
  ∃ sm', sample_all sm utcs = Ret sm' ∧
    sampling_rep sm' (fst (current_samples hour ts utcs)) (snd (current_samples hour ts utcs)).
Proof.
  intros Hr HF. revert sm hour ts Hr.
  induction HF as [|utc utcs Hu HF IH]; intros sm hour ts Hr; simpl; [eauto|].
  destruct (sample_spec sm hour ts utc Hr) as (sm1 & -> & Hr1);
    [unfold utcToLocal, TIMEZONE_FIX_SECONDS; lia|].
  cbn [obind]. by apply IH.
Qed.

(** ** Properties *)

(** after any run of requests the hour counter is the number of requests of
    the current hour (modulo 2^32), while the second and minute counters read
    the shared cells of the union: each reports the requests of its own second
    or minute plus those whose minute or second has the same index.  Sampling
    never leaves the arrays. *)
Theorem sampling_counts_requests utc0 utcs now
    (H0 : 0 ≤ utc0) (Hs : Forall (λ utc, 0 ≤ utc) utcs) (Hn : 0 ≤ now) :
  let cur := current_samples (hour_of (utcToLocal utc0)) [] utcs in
  let t := utcToLocal now in
  let ts := hour_samples (fst cur) (snd cur) t in
  ∃ sm sm' sp, sample_all (IoSampling_new utc0) utcs = Ret sm ∧
    IoSampling_getSample sm now = Ret (sp, sm') ∧
    hou_total sp = u32 (Z.of_nat (length ts)) ∧
    sec_total sp = u32 (count (λ r, second_of r =? second_of t) ts
                        + count (λ r, minute_of r =? second_of t) ts) ∧
    min_total sp = u32 (count (λ r, minute_of r =? minute_of t) ts
                        + count (λ r, second_of r =? minute_of t) ts).
Proof.
  intros cur t ts.
  assert (sampling_rep (IoSampling_new utc0) (hour_of (utcToLocal utc0)) []) as Hr0.
  { unfold IoSampling_new, hour_of, SECONDS_ONE_HOUR.
    rewrite Z.quot_div_nonneg by (unfold utcToLocal, TIMEZONE_FIX_SECONDS; lia). apply zeroed_rep. }
  destruct (sample_all_spec _ _ _ utcs Hr0 Hs) as (sm & Esm & Hr).
  destruct (getSample_spec sm _ _ now Hr) as (sm' & Eg & _);
    [unfold utcToLocal, TIMEZONE_FIX_SECONDS; lia|].
  eexists sm, sm', _. split; [done|]. split; [exact Eg|]. cbn. split; [done|].
  split; [done|]. unfold cell_count. f_equal. apply Z.add_comm.
Qed.

(** One request at second 0 of the hour is counted twice in both counters. *)
Lemma sampling_counts_requests_witness :
  ∃ sm sm' sp, sample_all (IoSampling_new 0) [0] = Ret sm ∧
    IoSampling_getSample sm 0 = Ret (sp, sm') ∧
    hou_total sp = 1 ∧ sec_total sp = 2 ∧ min_total sp = 2.
Proof.
  destruct (sampling_counts_requests 0 [0] 0) as (sm & sm' & sp & E1 & E2 & H1 & H2 & H3);
    [lia|repeat constructor; lia|lia|].
  exists sm, sm', sp. rewrite H1, H2, H3. auto.
Defined.
