(* ===== verification/IoConnection.v ===== *)
(** io::IoConnection (framework/io/io_connection.cpp): the socket state machine
    every connection shares.

    The virtual methods a connection class overrides, and the heaps it works on,
    are the class [ConnVirtual]: theorems about reading and writing are proved
    against it.  The kernel side of the socket is a [socket_io]: what [recv]
    will find (chunks of the byte stream, interruptions, errors), how [send]
    will answer, and the bytes sent so far.  [memcpy] is undefined on overlapping
    ranges, which the last step of [readSocket] may pass to it: the model faults there. *)
From S2P Require Import Prelude Heap Bytes MsMessage IoPushList.

(** ** Constants *)
Definition CONN_DEFAULT_READ_LEN : Z := 1024.
Definition FRAME_MAX_SIZE : Z := 1024.
Definition READ_BUFFER_INCREAMENT_SIZE : Z := 64.
(** the flags of libevent's event.h *)
Definition EV_TIMEOUT : Z := 0x01.
Definition EV_READ : Z := 0x02.
Definition EV_WRITE : Z := 0x04.
Definition EV_PERSIST : Z := 0x10.

Inductive SOCK_STATE :=
| SOCKET_CONNECTING
| SOCKET_DATA_WRITE
| SOCKET_RECV_FRAMING
| SOCKET_DATA_RECV.

(** ** The connection *)
Record IoConnection := mkConn {
  c_id : Z; (** [_id], a [uint64_t] *)
  c_socket : Z;
  c_io : Z;
  c_rsock_state : SOCK_STATE;
  c_wsock_state : SOCK_STATE;
  c_rbuf : buffer; (** the bytes of [_rbuf] *)
  c_rsize : Z;
  c_rpos : Z;
  c_frame_size : Z; (** an [unsigned int] *)
  c_current_push : ptr;
  c_rtimeout : Z;
  c_wtimeout : Z;
  c_destroy : Z;
  c_when_destroy : bool; (** whether [_when_destroy] is set *)
  c_revent_flag : Z;
  c_wevent_flag : Z;
  c_revent : option (Z * option Z); (** the read event added to the event base: flags and timeout *)
  c_wevent : option (Z * option Z) (** the write event *)
}.

Definition cset_id (v : Z) (c : IoConnection) : IoConnection :=
  mkConn v (c_socket c) (c_io c) (c_rsock_state c) (c_wsock_state c) (c_rbuf c)
    (c_rsize c) (c_rpos c) (c_frame_size c) (c_current_push c) (c_rtimeout c)
    (c_wtimeout c) (c_destroy c) (c_when_destroy c) (c_revent_flag c)
    (c_wevent_flag c) (c_revent c) (c_wevent c).
Definition cset_socket (v : Z) (c : IoConnection) : IoConnection :=
  mkConn (c_id c) v (c_io c) (c_rsock_state c) (c_wsock_state c) (c_rbuf c)
    (c_rsize c) (c_rpos c) (c_frame_size c) (c_current_push c) (c_rtimeout c)
    (c_wtimeout c) (c_destroy c) (c_when_destroy c) (c_revent_flag c)
    (c_wevent_flag c) (c_revent c) (c_wevent c).
Definition cset_io (v : Z) (c : IoConnection) : IoConnection :=
  mkConn (c_id c) (c_socket c) v (c_rsock_state c) (c_wsock_state c) (c_rbuf c)
    (c_rsize c) (c_rpos c) (c_frame_size c) (c_current_push c) (c_rtimeout c)
    (c_wtimeout c) (c_destroy c) (c_when_destroy c) (c_revent_flag c)
    (c_wevent_flag c) (c_revent c) (c_wevent c).
Definition cset_rsock_state (v : SOCK_STATE) (c : IoConnection) : IoConnection :=
  mkConn (c_id c) (c_socket c) (c_io c) v (c_wsock_state c) (c_rbuf c) (c_rsize c)
    (c_rpos c) (c_frame_size c) (c_current_push c) (c_rtimeout c) (c_wtimeout c)
    (c_destroy c) (c_when_destroy c) (c_revent_flag c) (c_wevent_flag c)
    (c_revent c) (c_wevent c).
Definition cset_wsock_state (v : SOCK_STATE) (c : IoConnection) : IoConnection :=
  mkConn (c_id c) (c_socket c) (c_io c) (c_rsock_state c) v (c_rbuf c) (c_rsize c)
    (c_rpos c) (c_frame_size c) (c_current_push c) (c_rtimeout c) (c_wtimeout c)
    (c_destroy c) (c_when_destroy c) (c_revent_flag c) (c_wevent_flag c)
    (c_revent c) (c_wevent c).
Definition cset_rbuf (v : buffer) (c : IoConnection) : IoConnection :=
  mkConn (c_id c) (c_socket c) (c_io c) (c_rsock_state c) (c_wsock_state c) v
    (c_rsize c) (c_rpos c) (c_frame_size c) (c_current_push c) (c_rtimeout c)
    (c_wtimeout c) (c_destroy c) (c_when_destroy c) (c_revent_flag c)
    (c_wevent_flag c) (c_revent c) (c_wevent c).
Definition cset_rsize (v : Z) (c : IoConnection) : IoConnection :=
  mkConn (c_id c) (c_socket c) (c_io c) (c_rsock_state c) (c_wsock_state c)
    (c_rbuf c) v (c_rpos c) (c_frame_size c) (c_current_push c) (c_rtimeout c)
    (c_wtimeout c) (c_destroy c) (c_when_destroy c) (c_revent_flag c)
    (c_wevent_flag c) (c_revent c) (c_wevent c).
Definition cset_rpos (v : Z) (c : IoConnection) : IoConnection :=
  mkConn (c_id c) (c_socket c) (c_io c) (c_rsock_state c) (c_wsock_state c)
    (c_rbuf c) (c_rsize c) v (c_frame_size c) (c_current_push c) (c_rtimeout c)
    (c_wtimeout c) (c_destroy c) (c_when_destroy c) (c_revent_flag c)
    (c_wevent_flag c) (c_revent c) (c_wevent c).
Definition cset_frame_size (v : Z) (c : IoConnection) : IoConnection :=
  mkConn (c_id c) (c_socket c) (c_io c) (c_rsock_state c) (c_wsock_state c)
    (c_rbuf c) (c_rsize c) (c_rpos c) v (c_current_push c) (c_rtimeout c)
    (c_wtimeout c) (c_destroy c) (c_when_destroy c) (c_revent_flag c)
    (c_wevent_flag c) (c_revent c) (c_wevent c).
Definition cset_current_push (v : ptr) (c : IoConnection) : IoConnection :=
  mkConn (c_id c) (c_socket c) (c_io c) (c_rsock_state c) (c_wsock_state c)
    (c_rbuf c) (c_rsize c) (c_rpos c) (c_frame_size c) v (c_rtimeout c)
    (c_wtimeout c) (c_destroy c) (c_when_destroy c) (c_revent_flag c)
    (c_wevent_flag c) (c_revent c) (c_wevent c).
Definition cset_rtimeout (v : Z) (c : IoConnection) : IoConnection :=
  mkConn (c_id c) (c_socket c) (c_io c) (c_rsock_state c) (c_wsock_state c)
    (c_rbuf c) (c_rsize c) (c_rpos c) (c_frame_size c) (c_current_push c) v
    (c_wtimeout c) (c_destroy c) (c_when_destroy c) (c_revent_flag c)
    (c_wevent_flag c) (c_revent c) (c_wevent c).
Definition cset_wtimeout (v : Z) (c : IoConnection) : IoConnection :=
  mkConn (c_id c) (c_socket c) (c_io c) (c_rsock_state c) (c_wsock_state c)
    (c_rbuf c) (c_rsize c) (c_rpos c) (c_frame_size c) (c_current_push c)
    (c_rtimeout c) v (c_destroy c) (c_when_destroy c) (c_revent_flag c)
    (c_wevent_flag c) (c_revent c) (c_wevent c).
Definition cset_destroy (v : Z) (c : IoConnection) : IoConnection :=
  mkConn (c_id c) (c_socket c) (c_io c) (c_rsock_state c) (c_wsock_state c)
    (c_rbuf c) (c_rsize c) (c_rpos c) (c_frame_size c) (c_current_push c)
    (c_rtimeout c) (c_wtimeout c) v (c_when_destroy c) (c_revent_flag c)
    (c_wevent_flag c) (c_revent c) (c_wevent c).
Definition cset_when_destroy (v : bool) (c : IoConnection) : IoConnection :=
  mkConn (c_id c) (c_socket c) (c_io c) (c_rsock_state c) (c_wsock_state c)
    (c_rbuf c) (c_rsize c) (c_rpos c) (c_frame_size c) (c_current_push c)
    (c_rtimeout c) (c_wtimeout c) (c_destroy c) v (c_revent_flag c)
    (c_wevent_flag c) (c_revent c) (c_wevent c).
Definition cset_revent_flag (v : Z) (c : IoConnection) : IoConnection :=
  mkConn (c_id c) (c_socket c) (c_io c) (c_rsock_state c) (c_wsock_state c)
    (c_rbuf c) (c_rsize c) (c_rpos c) (c_frame_size c) (c_current_push c)
    (c_rtimeout c) (c_wtimeout c) (c_destroy c) (c_when_destroy c) v
    (c_wevent_flag c) (c_revent c) (c_wevent c).
Definition cset_wevent_flag (v : Z) (c : IoConnection) : IoConnection :=
  mkConn (c_id c) (c_socket c) (c_io c) (c_rsock_state c) (c_wsock_state c)
    (c_rbuf c) (c_rsize c) (c_rpos c) (c_frame_size c) (c_current_push c)
    (c_rtimeout c) (c_wtimeout c) (c_destroy c) (c_when_destroy c) (c_revent_flag c)
    v (c_revent c) (c_wevent c).
Definition cset_revent (v : option (Z * option Z)) (c : IoConnection) : IoConnection :=
  mkConn (c_id c) (c_socket c) (c_io c) (c_rsock_state c) (c_wsock_state c)
    (c_rbuf c) (c_rsize c) (c_rpos c) (c_frame_size c) (c_current_push c)
    (c_rtimeout c) (c_wtimeout c) (c_destroy c) (c_when_destroy c) (c_revent_flag c)
    (c_wevent_flag c) v (c_wevent c).
Definition cset_wevent (v : option (Z * option Z)) (c : IoConnection) : IoConnection :=
  mkConn (c_id c) (c_socket c) (c_io c) (c_rsock_state c) (c_wsock_state c)
    (c_rbuf c) (c_rsize c) (c_rpos c) (c_frame_size c) (c_current_push c)
    (c_rtimeout c) (c_wtimeout c) (c_destroy c) (c_when_destroy c) (c_revent_flag c)
    (c_wevent_flag c) (c_revent c) v.

(** ** The socket *)
Inductive recv_event :=
| RecvData (bs : list Z)
| RecvEof
| RecvEagain
| RecvEintr
| RecvError.

Inductive send_event :=
| SendTakes (n : nat) (** the kernel takes up to [n + 1] bytes *)
| SendZero
| SendEagain
| SendEintr
| SendError.

Record socket_io := {
  net_in : list recv_event;
  net_send : list send_event;
  net_out : list Z; (** bytes handed to the kernel, in order *)
  net_so_error : Z (** what [getsockopt(SO_ERROR)] reports *) }.

Definition net_set_in (v : list recv_event) (n : socket_io) : socket_io :=
  {| net_in := v; net_send := net_send n; net_out := net_out n; net_so_error := net_so_error n |}.

Inductive recv_answer :=
| Fetched (bs : list Z)
| PeerClosed
| WouldBlock
| SockFailed.

(** [recv(fd, ., len, 0)], repeated while it fails with EINTR.  A closed socket
    gives EBADF; an empty request gives 0; an exhausted script EAGAIN. *)
Fixpoint recv_retry (fd : Z) (len : nat) (ins : list recv_event)
    : recv_answer * list recv_event :=
  if fd =? -1 then (SockFailed, ins)
  else match len with
  | O => (PeerClosed, ins)
  | _ =>
      match ins with
      | [] => (WouldBlock, [])
      | RecvEintr :: ins => recv_retry fd len ins
      | RecvEagain :: ins => (WouldBlock, ins)
      | RecvEof :: _ => (PeerClosed, ins)
      | RecvError :: ins => (SockFailed, ins)
      | RecvData bs :: ins =>
          match take len bs with
          | [] => (PeerClosed, ins)
          | got => (Fetched got,
                    match drop len bs with [] => ins | rest => RecvData rest :: ins end)
          end
      end
  end.

Inductive send_answer :=
| Sent (n : nat)
| SentZero
| SendBlocked
| SendFailed.

(** [send(fd, ., len, MSG_NOSIGNAL)], repeated while it fails with EINTR. *)
Fixpoint send_retry (fd : Z) (len : nat) (sends : list send_event)
    : send_answer * list send_event :=
  if fd =? -1 then (SendFailed, sends)
  else match sends with
  | [] => (SendBlocked, [])
  | SendEintr :: sends => send_retry fd len sends
  | SendEagain :: sends => (SendBlocked, sends)
  | SendZero :: sends => (SentZero, sends)
  | SendError :: sends => (SendFailed, sends)
  | SendTakes n :: sends => (Sent (Nat.min (S n) len), sends)
  end.

(** ** The virtual methods *)
Class ConnVirtual (W : Type) := {
  w_msgs : W → mheap;
  w_pushes : W → pheap;
  w_set_heaps : mheap → pheap → W → W;
  (** [whenReceivedFrame(buf, size)], [buf] being [_rbuf] at an offset *)
  whenReceivedFrame : IoConnection → W → Z → Z → outcome (Z * W);
  whenClosed : W → outcome W;
  getPushData : W → outcome (ptr * W);
  pendingPushData : W → ptr → outcome W;
  (** [_when_destroy(this)] *)
  when_destroy : IoConnection → W → outcome W }.

(** ** Construction *)
Definition IoConnection_new : IoConnection :=
  mkConn 0 (-1) 0 SOCKET_RECV_FRAMING SOCKET_DATA_WRITE (raw_buffer CONN_DEFAULT_READ_LEN)
    CONN_DEFAULT_READ_LEN 0 0 None (-1) (-1) 0 false 0 0 None None.

(** [_rbuf] is never null after construction. *)
Definition IoConnection_initialize (c : IoConnection) (fd io id : Z) : IoConnection :=
  mkConn id fd io SOCKET_RECV_FRAMING SOCKET_DATA_WRITE (c_rbuf c) (c_rsize c) 0 0 None
    (c_rtimeout c) (c_wtimeout c) 0 false 0 0 (c_revent c) (c_wevent c).

(** ** Events *)
Definition event_timeout (timeout : Z) : option Z :=
  if 0 <? timeout then Some timeout else None.

Definition setReadFlag (c : IoConnection) (flag timeout : Z) : IoConnection :=
  let c := if negb (c_revent_flag c =? 0) then cset_revent None c else c in
  let c := cset_revent_flag flag c in
  if flag =? 0 then c else cset_revent (Some (flag, event_timeout timeout)) c.

Definition setWriteFlag (c : IoConnection) (flag timeout : Z) : IoConnection :=
  if c_wevent_flag c =? flag then c
  else
    let c := if negb (c_wevent_flag c =? 0) then cset_wevent None c else c in
    let c := cset_wevent_flag flag c in
    if flag =? 0 then c else cset_wevent (Some (flag, event_timeout timeout)) c.

Definition _setRead (c : IoConnection) (flag : bool) : IoConnection :=
  setReadFlag c (if flag then Z.lor EV_READ EV_PERSIST else 0) (c_rtimeout c).

Definition _setWrite (c : IoConnection) (flag : bool) : IoConnection :=
  setWriteFlag c (if flag then Z.lor EV_WRITE EV_PERSIST else 0) (c_wtimeout c).

(** The argument is not used. *)
Definition setWrite (c : IoConnection) (flag : bool) : IoConnection :=
  match c_wsock_state c with
  | SOCKET_CONNECTING => c
  | _ => _setWrite c true
  end.

Definition setConnecting (c : IoConnection) : IoConnection :=
  _setWrite (cset_wsock_state SOCKET_CONNECTING c) true.

(** ** Socket handling *)
Section socket.
Context {W : Type} {HW : ConnVirtual W}.
Implicit Types (c : IoConnection) (w : W) (net : socket_io).

(** What [closeSocket] and [resetSocket] do; they differ in the socket options
    and in [shutdown] only. *)
Definition tear_down c w : outcome (IoConnection * W) :=
  let c := cset_destroy 1 c in
  let c := _setRead c false in
  let c := _setWrite c false in
  let c := cset_socket (-1) c in
  let* w := match c_current_push c with
            | None => Ret w
            | Some _ => pendingPushData w (c_current_push c)
            end in
  let c := cset_current_push None c in
  let* w := whenClosed w in
  let* w := if c_when_destroy c then when_destroy c w else Ret w in
  Ret (c, w).

Definition closeSocket c w := tear_down c w.
Definition resetSocket c w := tear_down c w.

(** A reset followed by [return]. *)
Definition reset_return c w net : outcome (IoConnection * W * socket_io) :=
  let* (c, w) := resetSocket c w in Ret (c, w, net).

(** [_rpos += fetch] after the bytes were stored at [_rbuf + _rpos]. *)
Definition fetch_into c (bs : list Z) : outcome IoConnection :=
  let* buf := write_bytes (c_rbuf c) (c_rpos c) bs in
  Ret (cset_rpos (c_rpos c + Z.of_nat (length bs)) (cset_rbuf buf c)).

(** The first [recv] loop.  The flag says whether [readSocket] returns; on an
    error it resets the connection and goes on. *)
Definition recv_framing c w net : outcome (IoConnection * W * socket_io * bool) :=
  if c_rsize c <? c_rpos c then Fault
  else
    let (a, ins) := recv_retry (c_socket c) (Z.to_nat (c_rsize c - c_rpos c)) (net_in net) in
    let net := net_set_in ins net in
    match a with
    | Fetched bs => let* c := fetch_into c bs in Ret (c, w, net, false)
    | PeerClosed => let* (c, w) := closeSocket c w in Ret (c, w, net, true)
    | WouldBlock => Ret (c, w, net, false)
    | SockFailed => let* (c, w) := resetSocket c w in Ret (c, w, net, false)
    end.

(** The second one, entered with [left > 0]. *)
Definition recv_data c w net (left : Z) : outcome (IoConnection * W * socket_io * bool) :=
  let (a, ins) := recv_retry (c_socket c) (Z.to_nat left) (net_in net) in
  let net := net_set_in ins net in
  match a with
  | Fetched bs => let* c := fetch_into c bs in Ret (c, w, net, false)
  | PeerClosed => let* (c, w) := closeSocket c w in Ret (c, w, net, true)
  | WouldBlock => Ret (c, w, net, true)
  | SockFailed => let* (c, w) := resetSocket c w in Ret (c, w, net, true)
  end.

Definition read_word c (off : Z) : outcome Z :=
  let* bs := read_bytes (c_rbuf c) off 4 in Ret (ntohl (le_value bs)).

(** [if ((int)_frame_size > _rsize) ...] *)
Definition grow_rbuf c : outcome IoConnection :=
  if c_rsize c <? i32 (c_frame_size c) then
    let new_size := i32 (c_frame_size c + READ_BUFFER_INCREAMENT_SIZE) in
    let new_size := if FRAME_MAX_SIZE <? new_size then FRAME_MAX_SIZE else new_size in
    let* bs := read_bytes (c_rbuf c) 0 (c_rpos c) in
    let* buf := write_bytes (raw_buffer new_size) 0 bs in
    Ret (cset_rsize new_size (cset_rbuf buf c))
  else Ret c.

(** [while (len >= frame_size) ...]: [None] when a frame is refused, else the
    offset and the length of what is left. *)
Fixpoint deliver_frames (fuel : nat) c w (b frame_size len : Z)
    : outcome (W * option (Z * Z)) :=
  if len <? frame_size then Ret (w, Some (b, len))
  else match fuel with
  | O => Diverge
  | S fuel =>
      let* (ret, w) := whenReceivedFrame c w b frame_size in
      if ret =? -1 then Ret (w, None)
      else
        let b := b + frame_size in
        let len := len - frame_size in
        if 4 <=? len then
          let* n := read_word c b in
          deliver_frames fuel c w b (i32 (n + 4)) len
        else Ret (w, Some (b, len))
  end.

(** [case SOCKET_DATA_RECV] after its [recv] loop. *)
Definition handle_frames (fuel : nat) c w net : outcome (IoConnection * W * socket_io) :=
  let size := i32 (c_frame_size c) in
  if c_rpos c =? size then
    let* (ret, w) := whenReceivedFrame c w 0 size in
    if ret =? -1 then reset_return c w net
    else Ret (cset_rsock_state SOCKET_RECV_FRAMING (cset_rpos 0 c), w, net)
  else if size <? c_rpos c then
    let* (w, rest) := deliver_frames fuel c w 0 size (c_rpos c) in
    match rest with
    | None => reset_return c w net
    | Some (b, len) =>
        let* buf := memcpy_within (c_rbuf c) 0 b len in
        Ret (cset_rsock_state SOCKET_RECV_FRAMING (cset_rpos len (cset_rbuf buf c)), w, net)
    end
  else Ret (c, w, net).

Definition read_data_state (fuel : nat) c w net : outcome (IoConnection * W * socket_io) :=
  let left := i32 (u32 (c_frame_size c - c_rpos c)) in
  if 0 <? left then
    let* (c, w, net, ret) := recv_data c w net left in
    if (ret : bool) then Ret (c, w, net) else handle_frames fuel c w net
  else handle_frames fuel c w net.

(** [case SOCKET_RECV_FRAMING] after its [recv] loop. *)
Definition read_header (fuel : nat) c w net : outcome (IoConnection * W * socket_io) :=
  if c_rpos c <? 4 then Ret (c, w, net)
  else
    let* n := read_word c 0 in
    let c := cset_frame_size (u32 (n + 4)) c in
    if FRAME_MAX_SIZE <? c_frame_size c then reset_return c w net
    else
      let* c := grow_rbuf c in
      read_data_state fuel (cset_rsock_state SOCKET_DATA_RECV c) w net.

Definition readSocket (fuel : nat) c w net : outcome (IoConnection * W * socket_io) :=
  match c_rsock_state c with
  | SOCKET_RECV_FRAMING =>
      let* (c, w, net, ret) := recv_framing c w net in
      if (ret : bool) then Ret (c, w, net) else read_header fuel c w net
  | SOCKET_DATA_RECV => read_data_state fuel c w net
  | _ => Abort
  end.

(** [_setWrite(false); _setRead(true);] when there is nothing to send. *)
Definition write_idle c : IoConnection := _setRead (_setWrite c false) true.

(** [destroyMsgData(_current_push); _current_push = getPushData();] *)
Definition next_push c w : outcome (IoConnection * W) :=
  let* (mh, ph) := destroyMsgData (w_msgs w) (w_pushes w) (c_current_push c) in
  let* (p, w) := getPushData (w_set_heaps mh ph w) in
  let c := cset_current_push p c in
  Ret (match p with None => write_idle c | Some _ => c end, w).

(** Sending what is left of [_current_push]. *)
Definition send_current c w net : outcome (IoConnection * W * socket_io) :=
  let* d := load (w_pushes w) (c_current_push c) in
  let* m := load (w_msgs w) (pd_msg d) in
  if negb (msg_close_conn m =? 0) then reset_return c w net
  else
    let left := pd_wsize d - pd_wpos d in
    if 0 <? left then
      let (a, sends) := send_retry (c_socket c) (Z.to_nat left) (net_send net) in
      let net := {| net_in := net_in net; net_send := sends; net_out := net_out net;
                    net_so_error := net_so_error net |} in
      match a with
      | Sent n =>
          let* b := load (w_msgs w) (pd_wbuf d) in
          let* bs := read_bytes (msg_b b) (pd_wpos d) (Z.of_nat n) in
          let net := {| net_in := net_in net; net_send := net_send net;
                        net_out := net_out net ++ bs; net_so_error := net_so_error net |} in
          let* ph := store (w_pushes w) (c_current_push c)
                       (pd_set_wpos (pd_wpos d + Z.of_nat n) d) in
          let w := w_set_heaps (w_msgs w) ph w in
          if left - Z.of_nat n =? 0 then
            let* (c, w) := next_push c w in Ret (c, w, net)
          else Ret (c, w, net)
      | SentZero => Ret (c, w, net)
      | SendBlocked => Ret (c, w, net)
      | SendFailed => reset_return c w net
      end
    else if left =? 0 then
      let* (c, w) := next_push c w in Ret (c, w, net)
    else Ret (c, w, net).

(** [case SOCKET_DATA_WRITE] *)
Definition write_data_state c w net : outcome (IoConnection * W * socket_io) :=
  match c_current_push c with
  | Some _ => send_current c w net
  | None =>
      let* (p, w) := getPushData w in
      let c := cset_current_push p c in
      match p with
      | None => Ret (write_idle c, w, net)
      | Some _ => send_current c w net
      end
  end.

Definition writeSocket c w net : outcome (IoConnection * W * socket_io) :=
  match c_wsock_state c with
  | SOCKET_CONNECTING =>
      if negb (net_so_error net =? 0) then reset_return c w net
      else write_data_state (cset_wsock_state SOCKET_DATA_WRITE c) w net
  | SOCKET_DATA_WRITE => write_data_state c w net
  | _ => reset_return c w net
  end.

Definition handleTimeout c w net := reset_return c w net.

Definition readHandler (fuel : nat) (which : Z) c w net
    : outcome (IoConnection * W * socket_io) :=
  if negb (c_destroy c =? 0) then Ret (c, w, net)
  else if negb (Z.land which EV_TIMEOUT =? 0) then handleTimeout c w net
  else readSocket fuel c w net.

Definition writeHandler (which : Z) c w net : outcome (IoConnection * W * socket_io) :=
  if negb (c_destroy c =? 0) then Ret (c, w, net)
  else if negb (Z.land which EV_TIMEOUT =? 0) then handleTimeout c w net
  else writeSocket c w net.
End socket.

(** ** The byte stream as frames *)

(** A frame as a peer sends it: its first word announces its length, its second one is
    the magic number the handlers read. *)
Definition good_frame (f : list Z) : Prop :=
  (8 ≤ length f ≤ 1024)%nat ∧ announced_size f = Z.of_nat (length f).

(** A strict prefix of a frame. *)
Definition incomplete (p : list Z) : Prop :=
  ∃ more, more ≠ [] ∧ good_frame (p ++ more).

(** The connection is open and [p] is in its buffer. *)
Definition conn_buf (io id : Z) (c : IoConnection) (p : list Z) : Prop :=
  c_io c = io ∧ c_id c = id ∧ c_socket c ≠ -1 ∧ c_rsize c = 1024 ∧
  c_rpos c = Z.of_nat (length p) ∧
  ∃ rest, c_rbuf c = (Some <$> p) ++ rest ∧ (length p + length rest)%nat = 1024%nat.

(** Between two calls of [readSocket]. *)
Definition conn_ok (io id : Z) (c : IoConnection) (p : list Z) : Prop :=
  conn_buf io id c p ∧ incomplete p ∧
  (c_rsock_state c = SOCKET_RECV_FRAMING ∨
   c_rsock_state c = SOCKET_DATA_RECV ∧ (4 ≤ length p)%nat ∧
   c_frame_size c = announced_size p).

(** The bytes still to be received, and the progress measure of the script. *)
Definition in_bytes (ins : list recv_event) : list Z :=
  ins ≫= (λ e, match e with RecvData bs => bs | _ => [] end).
Definition in_measure (ins : list recv_event) : nat :=
  sum_list_with (λ e, match e with RecvData bs => S (length bs) | _ => 1%nat end) ins.
(** The peer neither closes nor fails. *)
Definition live (ins : list recv_event) : Prop :=
  Forall (λ e, match e with RecvData bs => bs ≠ [] | RecvEagain | RecvEintr => True | _ => False end) ins.

Lemma recv_retry_live fd len ins :
  fd ≠ -1 → (0 < len)%nat → live ins →
  ∃ ins', live ins' ∧ (in_measure ins' ≤ in_measure ins)%nat ∧
    ((ins ≠ [] → (in_measure ins' < in_measure ins)%nat) ∧
     ((recv_retry fd len ins = (WouldBlock, ins') ∧ in_bytes ins' = in_bytes ins) ∨
      (∃ got, recv_retry fd len ins = (Fetched got, ins') ∧ got ≠ [] ∧
         (length got ≤ len)%nat ∧ got ++ in_bytes ins' = in_bytes ins))).
Proof.
  intros Hfd Hlen Hl. induction Hl as [|e ins He Hl IH].
  - exists []. split; [constructor|]. split; [done|]. split; [done|]. left. cbn.
    rewrite (proj2 (Z.eqb_neq _ _)) by done. by destruct len; [lia|].
  - cbn [recv_retry]. rewrite (proj2 (Z.eqb_neq _ _)) by done. destruct len as [|len]; [lia|].
    destruct e as [bs| | | |]; try done.
    + destruct bs as [|b bs]; [done|]. cbn [take drop].
      exists (match drop len bs with [] => ins | rest => RecvData rest :: ins end).
      pose proof (take_drop len bs) as Htd.
      assert (length (drop len bs) ≤ length bs)%nat by (rewrite length_drop; lia).
      split; [|split; [|split; [intros _|right; eexists; split; [done|]; split; [done|]; split]]].
      * destruct (drop len bs); [done|]. by constructor.
      * destruct (drop len bs) eqn:E; unfold in_measure; simpl in *; lia.
      * destruct (drop len bs) eqn:E; unfold in_measure; simpl in *; lia.
      * simpl. rewrite length_take. lia.
      * unfold in_bytes. simpl. rewrite <-Htd at 3. destruct (drop len bs) eqn:E; simpl.
        -- by rewrite app_nil_r.
        -- by rewrite <-app_assoc.
    + exists ins. split; [done|]. unfold in_measure. simpl. split; [lia|]. split; [lia|]. by left.
    + destruct IH as (ins' & Hl' & Hm & _ & Hor). exists ins'. split; [done|].
      change (in_measure (RecvEintr :: ins)) with (S (in_measure ins)). split; [lia|].
      split; [lia|]. exact Hor.
Qed.

Lemma measure_step {A} (xs : list A) (a b : nat) :
  (a ≤ b)%nat → (xs ≠ [] → (a < b)%nat) → (a ≤ b - 1 `min` length xs)%nat.
Proof. intros Hle Hlt. destruct xs; simpl; [lia|]. specialize (Hlt ltac:(done)). lia. Qed.

(** Splitting what is in the buffer off a stream of frames. *)
Lemma split_stream B R fs tail :
  B ++ R = mjoin fs ++ tail → Forall good_frame fs → incomplete tail →
  ∃ fs1 fs2 p, fs = fs1 ++ fs2 ∧ B = mjoin fs1 ++ p ∧ incomplete p ∧
    p ++ R = mjoin fs2 ++ tail.
Proof.
  intros E HF Ht. revert B E. induction HF as [|f fs Hf HF IH]; intros B E; simpl in E.
  - exists [], [], B. split; [done|]. split; [done|]. split; [|done].
    destruct Ht as (more & Hm & Hg). exists (R ++ more). rewrite app_assoc, E.
    split; [|done]. by destruct R.
  - rewrite <-app_assoc in E. destruct (decide (length f ≤ length B)%nat) as [Hle|Hgt].
    + assert (B = f ++ drop (length f) B) as HB.
      { rewrite <-(take_drop (length f) B) at 1. f_equal.
        apply (f_equal (take (length f))) in E.
        rewrite take_app_le in E by lia. by rewrite take_app_length in E. }
      rewrite HB, <-app_assoc in E. apply app_inv_head in E.
      destruct (IH _ E) as (fs1 & fs2 & p & -> & HB' & Hp & E').
      exists (f :: fs1), fs2, p. split; [done|]. split; [|done].
      simpl. by rewrite <-app_assoc, <-HB'.
    + exists [], (f :: fs), B. split; [done|]. split; [done|]. split.
      * exists (drop (length B) f). split.
        { intros Hd. apply (f_equal length) in Hd. rewrite length_drop in Hd. simpl in Hd. lia. }
        assert (take (length B) f = B) as HB.
        { apply (f_equal (take (length B))) in E. rewrite take_app_length in E.
          rewrite take_app_le in E by lia. done. }
        rewrite <-HB at 1. by rewrite take_drop.
      * simpl. by rewrite <-app_assoc.
Qed.

Lemma announced_app p q : (4 ≤ length p)%nat → announced_size (p ++ q) = announced_size p.
Proof. intros Hp. unfold announced_size. by rewrite take_app_le. Qed.

Lemma incomplete_announced p :
  incomplete p → (4 ≤ length p)%nat → Z.of_nat (length p) < announced_size p ≤ 1024.
Proof.
  intros (more & Hm & Hl & Ha) Hp. rewrite announced_app in Ha by done.
  rewrite length_app in Ha, Hl. destruct more; [done|]. simpl in *. lia.
Qed.

Lemma incomplete_length p : incomplete p → (length p < 1024)%nat.
Proof. intros (more & Hm & Hl & _). rewrite length_app in Hl. destruct more; [done|]. simpl in *. lia. Qed.

Lemma i32_u32_small z n : u32 z = n → n < 2 ^ 31 → i32 z = n.
Proof.
  unfold u32, i32. intros <- Hn. pose proof (Z.mod_pos_bound z (2 ^ 32)).
  rewrite <-(Zplus_mod_idemp_l z). rewrite (Z.mod_small (z mod 2 ^ 32 + 2 ^ 31)); lia.
Qed.

(** The buffer holds complete frames and, behind them, a longer piece of the next one:
    moving the piece to the front is undefined. *)
Definition clobbered (B : list Z) : Prop :=
  ∃ g p, B = mjoin g ++ p ∧ g ≠ [] ∧ Forall good_frame g ∧ incomplete p ∧ (length (mjoin g) < length p)%nat.

Lemma mjoin_announced f fs p :
  good_frame f → announced_size (mjoin (f :: fs) ++ p) = Z.of_nat (length f).
Proof. intros [Hl Ha]. simpl. rewrite <-app_assoc, announced_app by lia. done. Qed.

Lemma incomplete_not_framed f fs p : good_frame f → incomplete (mjoin (f :: fs) ++ p) → False.
Proof.
  intros Hf Hi. pose proof (incomplete_announced _ Hi) as Ha. rewrite mjoin_announced in Ha by done.
  destruct Hf as [Hl _]. simpl in Ha. rewrite !length_app in Ha. lia.
Qed.

(** The frames in a buffer are determined. *)
Lemma frames_unique g p g' p' :
  mjoin g ++ p = mjoin g' ++ p' → Forall good_frame g → Forall good_frame g' → incomplete p → incomplete p' →
  g = g' ∧ p = p'.
Proof.
  intros E HF. revert g' E. induction HF as [|f g Hf HF IH]; intros g' E HF' Hp Hp'.
  - destruct HF' as [|f' g' Hf' HF']; [done|]. simpl in E. subst p.
    destruct (incomplete_not_framed f' g' p' Hf'). exact Hp.
  - destruct HF' as [|f' g' Hf' HF'].
    + simpl in E. destruct (incomplete_not_framed f g p Hf). simpl. by rewrite E.
    + pose proof (f_equal announced_size E) as Ha. rewrite !mjoin_announced in Ha by done.
      simpl in E. rewrite <-!app_assoc in E. apply app_inj_1 in E as [-> E]; [|lia].
      by destruct (IH g' E HF' Hp Hp') as [-> ->].
Qed.

(** What one [recv] may bring. *)
Lemma short_not_clobbered B :
  Z.of_nat (length B) ≤ announced_size B → ¬ clobbered B.
Proof.
  intros Hl (g & p & -> & Hne & HF & _ & Hlt). destruct HF as [|f g Hf _]; [done|].
  rewrite mjoin_announced in Hl by done. simpl in *. rewrite !length_app in *. lia.
Qed.

Lemma incomplete_not_clobbered p : incomplete p → ¬ clobbered p.
Proof.
  intros Hp (g & q & -> & Hne & HF & _). destruct HF as [|f g Hf _]; [done|]. by apply (incomplete_not_framed f g q).
Qed.

Lemma split_clobbered fs p :
  Forall good_frame fs → incomplete p → (length (mjoin fs) < length p)%nat ∧ fs ≠ [] ↔ clobbered (mjoin fs ++ p).
Proof.
  intros HF Hp. split.
  - intros [Hl Hne]. exists fs, p. done.
  - intros (g & p' & E & Hne & HF' & Hp' & Hl). by destruct (frames_unique _ _ _ _ E HF HF' Hp Hp') as [-> ->].
Qed.

Lemma stream_clobbered_dec B R fs tail :
  B ++ R = mjoin fs ++ tail → Forall good_frame fs → incomplete tail → clobbered B ∨ ¬ clobbered B.
Proof.
  intros E HF Ht. destruct (split_stream _ _ _ _ E HF Ht) as (fs1 & fs2 & p & -> & -> & Hp & _).
  apply Forall_app in HF as [HF _]. rewrite <-split_clobbered by done.
  destruct (decide ((length (mjoin fs1) < length p)%nat ∧ fs1 ≠ [])); auto.
Qed.

Section framing.
Context {W : Type} {HW : ConnVirtual W} (io id : Z).
(** The handler sees nothing of the connection but the frame. *)
Context (on_frame : W → list Z → outcome (Z * W)).
Context (Hframe : ∀ c w off size f,
  c_io c = io → c_id c = id → good_frame f →
  read_bytes (c_rbuf c) off size = Ret f → Z.of_nat (length f) = size →
  whenReceivedFrame c w off size = on_frame w f).

(** The handler accepts the frames [fs] one after the other. *)
Inductive feeds : W → list (list Z) → W → Prop :=
| feeds_nil w : feeds w [] w
| feeds_cons w f fs r w1 w2 :
    on_frame w f = Ret (r, w1) → r ≠ -1 → feeds w1 fs w2 → feeds w (f :: fs) w2.

Lemma feeds_app w fs1 fs2 w2 :
  feeds w (fs1 ++ fs2) w2 → ∃ w1, feeds w fs1 w1 ∧ feeds w1 fs2 w2.
Proof.
  revert w. induction fs1 as [|f fs1 IH]; intros w Hf; simpl in Hf.
  - exists w. split; [constructor|done].
  - inversion Hf as [|? ? ? r w1 ? Ho Hr Hf']; subst.
    destruct (IH _ Hf') as (w' & ? & ?). exists w'. split; [by econstructor|done].
Qed.

Lemma fetch_into_ok c p bs :
  conn_buf io id c p → (length p + length bs ≤ 1024)%nat →
  ∃ c', fetch_into c bs = Ret c' ∧ conn_buf io id c' (p ++ bs) ∧
    c_rsock_state c' = c_rsock_state c ∧ c_frame_size c' = c_frame_size c.
Proof.
  intros (Hio & Hid & Hs & Hz & Hp & rest & Hb & Hl) Hle. unfold fetch_into.
  rewrite Hb, Hp, write_bytes_end by lia. cbn [obind].
  eexists. split; [done|]. split; [|done].
  split; [done|]. split; [done|]. split; [done|]. split; [done|]. cbn.
  split; [rewrite length_app; lia|].
  eexists. split; [done|]. rewrite length_app, length_drop. lia.
Qed.

Lemma read_word_ok c p q r :
  conn_buf io id c (p ++ q ++ r) → (4 ≤ length q)%nat →
  ∃ n, read_word c (Z.of_nat (length p)) = Ret n ∧ u32 (n + 4) = announced_size q.
Proof.
  intros (_ & _ & _ & _ & _ & rest & Hb & _) Hq. unfold read_word. rewrite Hb.
  rewrite <-(take_drop 4 q), !fmap_app, <-!app_assoc.
  replace 4 with (Z.of_nat (length (take 4 q))) by (rewrite length_take; lia).
  rewrite read_bytes_mid. cbn [obind]. eexists. split; [done|].
  rewrite length_take, Nat.min_l by lia. unfold announced_size. by rewrite take_drop.
Qed.

Lemma read_frame_ok c p f r :
  conn_buf io id c (p ++ f ++ r) →
  read_bytes (c_rbuf c) (Z.of_nat (length p)) (Z.of_nat (length f)) = Ret f.
Proof.
  intros (_ & _ & _ & _ & _ & rest & Hb & _). rewrite Hb, !fmap_app, <-!app_assoc.
  apply read_bytes_mid.
Qed.

Lemma deliver_frames_ok fuel c w pre f fs p w' :
  conn_buf io id c (pre ++ mjoin (f :: fs) ++ p) → Forall good_frame (f :: fs) →
  incomplete p → feeds w (f :: fs) w' → (length fs < fuel)%nat →
  deliver_frames fuel c w (Z.of_nat (length pre)) (Z.of_nat (length f))
    (Z.of_nat (length (mjoin (f :: fs) ++ p))) =
  Ret (w', Some (Z.of_nat (length (pre ++ mjoin (f :: fs))), Z.of_nat (length p))).
Proof.
  intros Hc HF Hp. revert w pre f fs Hc HF.
  induction fuel as [|fuel IH]; intros w pre f fs Hc HF Hfd Hfu; [lia|].
  apply Forall_cons in HF as [Hf HF]. cbn [deliver_frames].
  change (mjoin (f :: fs)) with (f ++ mjoin fs) in *. rewrite <-!app_assoc in *.
  rewrite (proj2 (Z.ltb_ge _ _)) by (rewrite length_app; lia).
  inversion Hfd as [|? ? ? r w1 ? Ho Hr Hfd']; subst.
  pose proof Hc as (Hio & Hid & _).
  rewrite (Hframe c w _ _ f Hio Hid Hf (read_frame_ok _ _ _ _ Hc) eq_refl), Ho. cbn [obind].
  rewrite (proj2 (Z.eqb_neq _ _)) by done.
  rewrite (app_assoc pre f), <-Nat2Z.inj_add, <-(length_app pre f).
  replace (Z.of_nat (length (f ++ mjoin fs ++ p)) - Z.of_nat (length f))
    with (Z.of_nat (length (mjoin fs ++ p))) by (rewrite (length_app f); lia).
  rewrite app_assoc in Hc. destruct fs as [|f' fs].
  - clear Hio Hid. inversion Hfd'; subst. cbn [mjoin list_join] in *. simpl in Hc |- *. rewrite app_nil_r.
    destruct (Z.leb_spec 4 (Z.of_nat (length p))) as [H4|H4]; [|done].
    rewrite <-(app_nil_r p) in Hc.
    destruct (read_word_ok _ _ _ _ Hc) as (n & -> & Hn); [lia|]. cbn [obind].
    pose proof (incomplete_announced p Hp). rewrite (i32_u32_small _ _ Hn) by lia.
    destruct fuel; cbn [deliver_frames]; rewrite (proj2 (Z.ltb_lt _ _)) by lia; done.
  - pose proof HF as [[Hl' Ha'] _]%Forall_cons.
    rewrite (proj2 (Z.leb_le _ _)) by (simpl; rewrite !length_app; lia).
    assert (conn_buf io id c ((pre ++ f) ++ f' ++ mjoin fs ++ p)) as Hc'.
    { rewrite (app_assoc f'). exact Hc. }
    destruct (read_word_ok _ _ _ _ Hc') as (n & -> & Hn); [lia|]. cbn [obind].
    rewrite Ha' in Hn. rewrite (i32_u32_small _ _ Hn) by lia.
    rewrite (IH w1 (pre ++ f) f' fs Hc HF Hfd') by (simpl in Hfu; lia).
    done.
Qed.

(** What one call of [readSocket] achieves on a stream of frames. *)
Definition progress (fs : list (list Z)) (tail : list Z) (w wN : W)
    (c' : IoConnection) (w' : W) (ins' : list recv_event) : Prop :=
  ∃ fs1 fs2 p, fs = fs1 ++ fs2 ∧ feeds w fs1 w' ∧ feeds w' fs2 wN ∧
    Forall good_frame fs2 ∧ conn_ok io id c' p ∧ p ++ in_bytes ins' = mjoin fs2 ++ tail.

Lemma mjoin_length (fs : list (list Z)) :
  Forall good_frame fs → (4 * length fs ≤ length (mjoin fs))%nat.
Proof.
  induction 1 as [|f fs [Hf _] HF IH]; simpl; [lia|]. rewrite length_app. lia.
Qed.

Lemma handle_frames_ok fuel c w net B fs tail wN :
  conn_buf io id c B → (4 ≤ length B)%nat → c_frame_size c = announced_size B →
  c_rsock_state c = SOCKET_DATA_RECV → (256 ≤ fuel)%nat →
  B ++ in_bytes (net_in net) = mjoin fs ++ tail → Forall good_frame fs → incomplete tail →
  feeds w fs wN → ¬ clobbered B →
  ∃ c' w', handle_frames fuel c w net = Ret (c', w', net) ∧
    progress fs tail w wN c' w' (net_in net).
Proof.
  intros Hc HB Hfs Hst Hfu E HF Ht Hfd Hcl. unfold handle_frames. rewrite Hfs.
  destruct (split_stream _ _ _ _ E HF Ht) as (fs1 & fs2 & p & -> & -> & Hp & E').
  apply Forall_app in HF as [HF1 HF2].
  destruct (feeds_app _ _ _ _ Hfd) as (w1 & Hfd1 & Hfd2).
  assert (c_rpos c = Z.of_nat (length (mjoin fs1 ++ p))) as Hrp by apply Hc. rewrite Hrp.
  destruct fs1 as [|f fs1].
  - simpl in *. inversion Hfd1; subst. pose proof (incomplete_announced p Hp HB).
    assert (i32 (announced_size p) = announced_size p) as -> by (apply i32_id; lia).
    rewrite (proj2 (Z.eqb_neq _ _)), (proj2 (Z.ltb_ge _ _)) by lia.
    eexists _, _. split; [done|]. exists [], fs2, p.
    split; [done|]. split; [constructor|]. split; [done|]. split; [done|]. split; [|done].
    split; [done|]. split; [done|]. right. auto.
  - pose proof HF1 as [Hf _]%Forall_cons. rewrite mjoin_announced by done.
    assert (i32 (Z.of_nat (length f)) = Z.of_nat (length f)) as ->.
    { destruct Hf as [Hf _]. apply i32_id. lia. }
    assert (∃ rest, c_rbuf c = (Some <$> (mjoin (f :: fs1) ++ p)) ++ rest ∧
              (length (mjoin (f :: fs1) ++ p) + length rest)%nat = 1024%nat) as (rest & Hb & Hlb)
      by apply Hc.
    pose proof Hc as (Hio & Hid & Hs & Hz & _ & _).
    destruct (Z.eqb_spec (Z.of_nat (length (mjoin (f :: fs1) ++ p))) (Z.of_nat (length f))) as [He|He].
    + assert (fs1 = [] ∧ p = []) as [-> ->].
      { simpl in He. rewrite !length_app in He. apply Forall_cons in HF1 as [_ HF1].
        pose proof (mjoin_length _ HF1). split; [destruct fs1; simpl in *; [done|lia]|].
        destruct p; simpl in *; [done|lia]. }
      simpl in Hc. rewrite !app_nil_r in Hc.
      inversion Hfd1 as [|? ? ? r w2 ? Ho Hr Hfd']; subst. inversion Hfd'; subst.
      rewrite <-(app_nil_r f) in Hc.
      rewrite (Hframe c w 0 _ f Hio Hid Hf (read_frame_ok c [] f [] Hc) eq_refl), Ho. cbn [obind].
      rewrite (proj2 (Z.eqb_neq _ _)) by done. eexists _, _. split; [done|].
      exists [f], fs2, []. split; [done|]. split; [done|]. split; [done|]. split; [done|].
      split; [|done]. split; [|split; [done|by left]].
      split; [done|]. split; [done|]. split; [done|]. split; [done|]. split; [done|].
      exists (c_rbuf c). split; [done|]. cbn. rewrite Hb, length_app, length_fmap. lia.
    + rewrite (proj2 (Z.ltb_lt _ _)) by (simpl in *; rewrite !length_app in *; lia).
      assert (length fs1 < fuel)%nat as Hfl.
      { pose proof (mjoin_length _ HF1) as Hm. rewrite length_app in Hlb. cbn [length] in Hm. lia. }
      pose proof (deliver_frames_ok fuel c w [] f fs1 p w1 Hc HF1 Hp Hfd1 Hfl) as Hdel.
      change (Z.of_nat (length [])) with 0 in Hdel. rewrite Hdel. cbn [obind].
      change ([] ++ mjoin (f :: fs1)) with (mjoin (f :: fs1)).
      rewrite <-split_clobbered in Hcl by done.
      assert (length p ≤ length (mjoin (f :: fs1)))%nat as Hap by (apply Nat.le_ngt; intros Hlt; by apply Hcl).
      rewrite Hb, memcpy_front by done. cbn [obind]. eexists _, _. split; [done|]. exists (f :: fs1), fs2, p.
      split; [done|]. split; [done|]. split; [done|]. split; [done|]. split; [|done].
      split; [|split; [done|by left]].
      split; [done|]. split; [done|]. split; [done|]. split; [done|]. split; [done|].
      eexists. split; [done|]. rewrite length_drop, length_app, length_fmap.
      rewrite length_app in Hlb |- *. lia.
Qed.

(** The result of the phases of [readSocket]. *)
Definition phase_ok (r : outcome (IoConnection * W * socket_io)) net
    (fs : list (list Z)) (tail : list Z) (w wN : W) (m : nat) : Prop :=
  ∃ c' w' ins', r = Ret (c', w', net_set_in ins' net) ∧
    progress fs tail w wN c' w' ins' ∧ live ins' ∧ (in_measure ins' ≤ m)%nat.

Lemma net_set_in_id net : net_set_in (net_in net) net = net.
Proof. by destruct net. Qed.

Lemma short_incomplete B R fs tail :
  B ++ R = mjoin fs ++ tail → Forall good_frame fs → incomplete tail →
  (4 ≤ length B)%nat → Z.of_nat (length B) < announced_size B → incomplete B.
Proof.
  intros E HF Ht HB Hlt.
  destruct (split_stream _ _ _ _ E HF Ht) as ([|f fs1] & fs2 & p & -> & -> & Hp & _); [done|].
  apply Forall_app in HF as [[Hf _]%Forall_cons _]. rewrite mjoin_announced in Hlt by done.
  simpl in Hlt. rewrite !length_app in Hlt. lia.
Qed.

Lemma progress_none c B R fs tail w wN ins :
  conn_ok io id c B → B ++ R = mjoin fs ++ tail → in_bytes ins = R →
  Forall good_frame fs → feeds w fs wN → progress fs tail w wN c w ins.
Proof.
  intros Hc E <- HF Hfd. exists [], fs, B. split; [done|]. split; [constructor|].
  split; [done|]. split; [done|]. done.
Qed.

Lemma handle_frames_phase fuel c w net ins B fs tail wN m :
  conn_buf io id c B → (4 ≤ length B)%nat → c_frame_size c = announced_size B →
  c_rsock_state c = SOCKET_DATA_RECV → (256 ≤ fuel)%nat →
  B ++ in_bytes ins = mjoin fs ++ tail → Forall good_frame fs → incomplete tail →
  feeds w fs wN → ¬ clobbered B → live ins → (in_measure ins ≤ m)%nat →
  phase_ok (handle_frames fuel c w (net_set_in ins net)) net fs tail w wN m.
Proof.
  intros Hc HB Hfs Hst Hfu E HF Ht Hfd Hcl Hl Hm.
  destruct (handle_frames_ok fuel c w (net_set_in ins net) B fs tail wN)
    as (c' & w' & Hh & Hp); try done.
  exists c', w', ins. done.
Qed.

Lemma read_data_state_ok fuel c w net B fs tail wN :
  conn_buf io id c B → (4 ≤ length B)%nat → c_frame_size c = announced_size B →
  announced_size B ≤ 1024 →
  c_rsock_state c = SOCKET_DATA_RECV → (256 ≤ fuel)%nat →
  B ++ in_bytes (net_in net) = mjoin fs ++ tail → Forall good_frame fs → incomplete tail →
  feeds w fs wN → ¬ clobbered B → live (net_in net) →
  phase_ok (read_data_state fuel c w net) net fs tail w wN
    (in_measure (net_in net) -
       if (Z.of_nat (length B) <? announced_size B)%Z then Nat.min 1 (length (net_in net)) else 0)%nat.
Proof.
  intros Hc HB Hfs Ha Hst Hfu E HF Ht Hfd Hcl Hl. unfold read_data_state.
  assert (c_rpos c = Z.of_nat (length B)) as Hrp by apply Hc. rewrite Hrp, Hfs.
  assert (length B ≤ 1024)%nat as HlB.
  { destruct Hc as (_ & _ & _ & _ & _ & rest & _ & Hlen). lia. }
  assert (0 ≤ announced_size B) as Ha0 by (unfold announced_size, u32; apply Z.mod_pos_bound; lia).
  assert (i32 (u32 (announced_size B - Z.of_nat (length B))) =
          announced_size B - Z.of_nat (length B)) as ->.
  { unfold i32, u32. rewrite Zplus_mod_idemp_l, Z.mod_small; lia. }
  destruct (Z.ltb_spec (Z.of_nat (length B)) (announced_size B)) as [Hlt|Hge].
  - rewrite (proj2 (Z.ltb_lt _ _)) by lia. unfold recv_data.
    assert (c_socket c ≠ -1) as Hsock by apply Hc.
    set (len := Z.to_nat _).
    destruct (recv_retry_live (c_socket c) len (net_in net) Hsock) as
      (ins' & Hl' & Hle & Hdec & [[Hrv Hbs]|(got & Hrv & Hne & Hgl & Hbs)]); [lia|done| |];
      rewrite Hrv; cbn [obind].
    all: assert (in_measure ins' ≤ in_measure (net_in net) - 1 `min` length (net_in net))%nat
      as Hm by (by apply measure_step).
    + exists c, w, ins'. split; [done|]. split; [|done].
      eapply progress_none; [|done|done|done|done].
      split; [done|]. split; [by eapply short_incomplete|]. right. auto.
    + destruct (fetch_into_ok c B got Hc) as (c' & -> & Hc' & Hst' & Hfs'); [lia|]. cbn [obind].
      apply (handle_frames_phase _ _ _ _ _ (B ++ got)); try done.
      * rewrite length_app. lia.
      * rewrite announced_app by done. by rewrite Hfs'.
      * by rewrite Hst'.
      * by rewrite <-app_assoc, Hbs.
      * apply short_not_clobbered. rewrite announced_app, length_app by done. lia.
  - rewrite (proj2 (Z.ltb_ge _ _)) by lia. rewrite <-(net_set_in_id net) at 1.
    apply (handle_frames_phase _ _ _ _ _ B); try done. lia.
Qed.

Lemma phase_ok_weaken r net fs tail w wN m m' :
  phase_ok r net fs tail w wN m → (m ≤ m')%nat → phase_ok r net fs tail w wN m'.
Proof. intros (c & w' & ins & ? & ? & ? & ?) Hm. exists c, w', ins. split_and!; try done. lia. Qed.

(** With a whole header in the buffer the frame size is known. *)
Lemma read_header_step fuel c w net B :
  conn_buf io id c B → (4 ≤ length B)%nat → announced_size B ≤ 1024 →
  read_header fuel c w net =
    read_data_state fuel (cset_rsock_state SOCKET_DATA_RECV (cset_frame_size (announced_size B) c)) w net.
Proof.
  intros Hc H4 Ha. unfold read_header. assert (c_rpos c = Z.of_nat (length B)) as -> by apply Hc.
  rewrite (proj2 (Z.ltb_ge _ _)) by lia. rewrite <-(app_nil_r B) in Hc.
  destruct (read_word_ok c [] B [] Hc) as (n & Hn & Hann); [lia|].
  change (Z.of_nat (length [])) with 0 in Hn. rewrite Hn. cbn [obind]. rewrite Hann.
  rewrite app_nil_r in Hc. set (c1 := cset_frame_size _ c).
  assert (c_frame_size c1 = announced_size B) as Hf1 by done. rewrite Hf1.
  unfold FRAME_MAX_SIZE. rewrite (proj2 (Z.ltb_ge _ _)) by lia.
  assert (conn_buf io id c1 B) as Hc1 by done.
  assert (grow_rbuf c1 = Ret c1) as ->; [|done].
  unfold grow_rbuf. assert (c_rsize c1 = 1024) as -> by apply Hc1.
  rewrite Hf1, i32_id by (unfold announced_size, u32 in *;
    pose proof (Z.mod_pos_bound (ntohl (le_value (take 4 B)) + 4) (2 ^ 32)); lia).
  by rewrite (proj2 (Z.ltb_ge _ _)) by lia.
Qed.

Lemma stream_announced B R fs tail :
  B ++ R = mjoin fs ++ tail → Forall good_frame fs → incomplete tail → (4 ≤ length B)%nat → announced_size B ≤ 1024.
Proof.
  intros E HF Ht H4. destruct (split_stream _ _ _ _ E HF Ht) as ([|f fs1] & fs2 & p & Efs & -> & Hp & _).
  - simpl in *. pose proof (incomplete_announced p Hp). lia.
  - rewrite Efs in HF. apply Forall_app in HF as [[Hf _]%Forall_cons _].
    rewrite mjoin_announced by done. destruct Hf. lia.
Qed.

Lemma read_header_ok fuel c w net B fs tail wN :
  conn_buf io id c B → c_rsock_state c = SOCKET_RECV_FRAMING → (256 ≤ fuel)%nat →
  B ++ in_bytes (net_in net) = mjoin fs ++ tail → Forall good_frame fs → incomplete tail →
  feeds w fs wN → ¬ clobbered B → live (net_in net) →
  phase_ok (read_header fuel c w net) net fs tail w wN (in_measure (net_in net)).
Proof.
  intros Hc Hst Hfu E HF Ht Hfd Hcl Hl.
  destruct (Z.ltb_spec (Z.of_nat (length B)) 4) as [Hlt|Hge].
  - destruct (split_stream _ _ _ _ E HF Ht) as (fs1 & fs2 & p & Efs & EB & Hp & _).
    unfold read_header. assert (c_rpos c = Z.of_nat (length B)) as -> by apply Hc.
    rewrite (proj2 (Z.ltb_lt _ _)) by done.
    exists c, w, (net_in net). rewrite net_set_in_id. split; [done|]. split; [|done].
    eapply progress_none; [|done|done|done|done]. split; [done|]. split; [|by left].
    destruct fs1 as [|f fs1]; [by subst|]. rewrite Efs in HF. apply Forall_app in HF as [HF _].
    pose proof (mjoin_length _ HF) as Hm. rewrite EB, length_app in Hlt. cbn [length] in Hm. lia.
  - assert (announced_size B ≤ 1024) as Ha by (eapply stream_announced; [done..|lia]).
    rewrite (read_header_step _ _ _ _ B) by (done || lia). eapply phase_ok_weaken; [|apply Nat.le_sub_l].
    apply (read_data_state_ok _ _ _ _ B); try done. lia.
Qed.

(** Behind the frames there is a longer piece of the next one. *)
Lemma handle_frames_clobbered fuel c w net B R fs tail wN :
  conn_buf io id c B → c_frame_size c = announced_size B → (256 ≤ fuel)%nat →
  B ++ R = mjoin fs ++ tail → Forall good_frame fs → incomplete tail → feeds w fs wN → clobbered B →
  handle_frames fuel c w net = Fault.
Proof.
  intros Hc Hfs Hfu E HF Ht Hfd Hcl. unfold handle_frames. rewrite Hfs.
  destruct (split_stream _ _ _ _ E HF Ht) as (fs1 & fs2 & p & -> & -> & Hp & E').
  apply Forall_app in HF as [HF1 _]. apply split_clobbered in Hcl as [Hlt Hne]; [|done..].
  destruct (feeds_app _ _ _ _ Hfd) as (w1 & Hfd1 & _).
  assert (c_rpos c = Z.of_nat (length (mjoin fs1 ++ p))) as -> by apply Hc.
  destruct fs1 as [|f fs1]; [done|]. pose proof HF1 as [Hf _]%Forall_cons. rewrite mjoin_announced by done.
  assert (∃ rest, c_rbuf c = (Some <$> (mjoin (f :: fs1) ++ p)) ++ rest ∧
            (length (mjoin (f :: fs1) ++ p) + length rest)%nat = 1024%nat) as (rest & Hb & Hlb) by apply Hc.
  pose proof (mjoin_length _ HF1) as Hm. rewrite length_app in *. cbn [length] in Hm.
  assert (length f ≤ length (mjoin (f :: fs1)))%nat by (simpl; rewrite length_app; lia).
  rewrite i32_id by (destruct Hf; lia). rewrite (proj2 (Z.eqb_neq _ _)), (proj2 (Z.ltb_lt _ _)) by lia.
  assert (length fs1 < fuel)%nat as Hfl by lia.
  pose proof (deliver_frames_ok fuel c w [] f fs1 p w1 Hc HF1 Hp Hfd1 Hfl) as Hdel.
  change (Z.of_nat (length [])) with 0 in Hdel. rewrite length_app in Hdel. rewrite Hdel. cbn [obind].
  by rewrite memcpy_front_overlap.
Qed.

Lemma read_header_clobbered fuel c w net B R fs tail wN :
  conn_buf io id c B → (256 ≤ fuel)%nat →
  B ++ R = mjoin fs ++ tail → Forall good_frame fs → incomplete tail → feeds w fs wN → clobbered B →
  read_header fuel c w net = Fault.
Proof.
  intros Hc Hfu E HF Ht Hfd Hcl. destruct Hcl as (g & p & EB & Hne & HFg & Hp & Hlt).
  destruct g as [|f g]; [done|]. pose proof HFg as [Hf _]%Forall_cons. pose proof (mjoin_length _ HFg) as Hm.
  cbn [length] in Hm. assert (4 ≤ length B)%nat as H4 by (rewrite EB, length_app; lia).
  pose proof (stream_announced _ _ _ _ E HF Ht H4) as Ha. rewrite (read_header_step _ _ _ _ B) by done.
  unfold read_data_state. cbn [c_frame_size c_rpos cset_rsock_state cset_frame_size].
  assert (c_rpos c = Z.of_nat (length B)) as -> by apply Hc.
  assert (announced_size B = Z.of_nat (length f)) as Hann by (rewrite EB; by apply mjoin_announced).
  assert (length f ≤ length B ≤ 1024)%nat as HlB.
  { split; [rewrite EB; simpl; rewrite !length_app; lia|]. destruct Hc as (_ & _ & _ & _ & _ & rest & _ & Hl). lia. }
  assert (i32 (u32 (announced_size B - Z.of_nat (length B))) = announced_size B - Z.of_nat (length B)) as ->.
  { rewrite Hann in *. unfold i32, u32. rewrite Zplus_mod_idemp_l, Z.mod_small; lia. }
  rewrite (proj2 (Z.ltb_ge _ _)) by lia. apply (handle_frames_clobbered _ _ _ _ B R fs tail wN); try done.
  exists (f :: g), p. done.
Qed.

(** What the next call of [readSocket] receives ends in a longer piece of a frame than
    there is before it. *)
Definition clobbers c net : Prop :=
  c_rsock_state c = SOCKET_RECV_FRAMING ∧
  ∃ P got ins, conn_buf io id c P ∧ clobbered (P ++ got) ∧
    recv_retry (c_socket c) (Z.to_nat (c_rsize c - c_rpos c)) (net_in net) = (Fetched got, ins).

(** One call of [readSocket]: the frames completed by what arrived are handed
    over in order, and the rest stays in the buffer. *)
Lemma readSocket_ok fuel c w net P fs tail wN :
  conn_ok io id c P → (256 ≤ fuel)%nat →
  P ++ in_bytes (net_in net) = mjoin fs ++ tail → Forall good_frame fs → incomplete tail →
  feeds w fs wN → live (net_in net) → ¬ clobbers c net →
  phase_ok (readSocket fuel c w net) net fs tail w wN
    (in_measure (net_in net) - Nat.min 1 (length (net_in net))).
Proof.
  intros (Hc & HP & Hst) Hfu E HF Ht Hfd Hl Hcl. unfold readSocket.
  destruct Hst as [Hst|(Hst & H4 & Hfs)]; rewrite Hst.
  - unfold recv_framing. assert (c_rpos c = Z.of_nat (length P)) as -> by apply Hc.
    assert (c_rsize c = 1024) as -> by apply Hc. assert (c_socket c ≠ -1) as Hsock by apply Hc.
    pose proof (incomplete_length P HP). rewrite (proj2 (Z.ltb_ge _ _)) by lia.
    set (len := Z.to_nat _).
    destruct (recv_retry_live (c_socket c) len (net_in net) Hsock) as
      (ins' & Hl' & Hle & Hdec & [[Hrv Hbs]|(got & Hrv & Hne & Hgl & Hbs)]); [lia|done| |];
      rewrite Hrv; cbn [obind].
    all: assert (in_measure ins' ≤ in_measure (net_in net) - 1 `min` length (net_in net))%nat
      as Hm by (by apply measure_step).
    + eapply phase_ok_weaken; [|exact Hm].
      apply (read_header_ok fuel c w (net_set_in ins' net) P); try done; [by rewrite <-Hbs in E|].
      by apply incomplete_not_clobbered.
    + destruct (fetch_into_ok c P got Hc) as (c' & -> & Hc' & Hst' & _); [lia|]. cbn [obind].
      eapply phase_ok_weaken; [|exact Hm].
      apply (read_header_ok fuel c' w (net_set_in ins' net) (P ++ got)); try done.
      * by rewrite Hst'.
      * rewrite <-app_assoc. cbn [net_in net_set_in]. by rewrite Hbs.
      * intros Hb. apply Hcl. split; [done|]. exists P, got, ins'. split; [done|]. split; [done|].
        assert (c_rpos c = Z.of_nat (length P)) as -> by apply Hc. assert (c_rsize c = 1024) as -> by apply Hc. done.
  - pose proof (incomplete_announced P HP H4) as Ha.
    pose proof (read_data_state_ok fuel c w net P fs tail wN Hc H4 Hfs) as Hd.
    rewrite (proj2 (Z.ltb_lt _ _)) in Hd by lia. apply Hd; try done; [lia|by apply incomplete_not_clobbered].
Qed.

Lemma conn_buf_unique c P Q : conn_buf io id c P → conn_buf io id c Q → P = Q.
Proof.
  intros (_ & _ & _ & _ & H1 & r1 & B1 & _) (_ & _ & _ & _ & H2 & r2 & B2 & _). rewrite B1 in B2.
  apply app_inj_1 in B2 as [B2 _]; [by apply (inj (fmap Some)) in B2|]. rewrite !length_fmap. lia.
Qed.

Lemma readSocket_clobbers fuel c w net P fs tail wN :
  conn_ok io id c P → (256 ≤ fuel)%nat →
  P ++ in_bytes (net_in net) = mjoin fs ++ tail → Forall good_frame fs → incomplete tail →
  feeds w fs wN → live (net_in net) → clobbers c net → readSocket fuel c w net = Fault.
Proof.
  intros (Hc & HP & _) Hfu E HF Ht Hfd Hl (Hst & P' & got & ins & Hc' & Hcl & Hrv).
  rewrite <-(conn_buf_unique c P P' Hc Hc') in *. unfold readSocket, recv_framing. rewrite Hst.
  pose proof (incomplete_length P HP) as HlP. assert (c_rpos c = Z.of_nat (length P)) as Hrp by apply Hc.
  assert (c_rsize c = 1024) as Hrs by apply Hc. assert (c_socket c ≠ -1) as Hsock by apply Hc.
  rewrite Hrp, Hrs in *. rewrite (proj2 (Z.ltb_ge _ _)) by lia. rewrite Hrv. cbn [obind].
  destruct (recv_retry_live (c_socket c) (Z.to_nat (1024 - Z.of_nat (length P))) (net_in net) Hsock) as
    (ins' & _ & _ & _ & [[Hrv' _]|(got' & Hrv' & _ & Hgl & Hbs)]); [lia|done|congruence|].
  rewrite Hrv in Hrv'. injection Hrv' as <- <-.
  destruct (fetch_into_ok c P got Hc) as (c' & -> & Hb' & _); [lia|]. cbn [obind].
  apply (read_header_clobbered _ _ _ _ (P ++ got) (in_bytes ins) fs tail wN); try done. by rewrite <-app_assoc, Hbs.
Qed.

Lemma clobbers_dec c net P fs tail :
  conn_ok io id c P → P ++ in_bytes (net_in net) = mjoin fs ++ tail → Forall good_frame fs → incomplete tail →
  live (net_in net) → clobbers c net ∨ ¬ clobbers c net.
Proof.
  intros (Hc & HP & _) E HF Ht Hl. pose proof (incomplete_length P HP) as HlP.
  assert (c_rpos c = Z.of_nat (length P)) as Hrp by apply Hc. assert (c_rsize c = 1024) as Hrs by apply Hc.
  unfold clobbers. rewrite Hrp, Hrs.
  destruct (recv_retry_live (c_socket c) (Z.to_nat (1024 - Z.of_nat (length P))) (net_in net)) as
    (ins' & _ & _ & _ & [[-> _]|(got & -> & _ & Hgl & Hbs)]); [apply Hc|lia|done| |].
  { right. by intros (_ & ? & ? & ? & _ & _ & ?). }
  assert (c_rsock_state c = SOCKET_RECV_FRAMING ∨ c_rsock_state c ≠ SOCKET_RECV_FRAMING) as [Hst|Hst]
    by (destruct (c_rsock_state c); auto); [|right; by intros [? _]].
  destruct (stream_clobbered_dec (P ++ got) (in_bytes ins') fs tail) as [Hb|Hb]; [by rewrite <-app_assoc, Hbs|done..| |].
  - left. split; [done|]. by exists P, got, ins'.
  - right. intros (_ & P' & got' & ins & Hc' & Hcl & [= <- <-]). by rewrite (conn_buf_unique c P P' Hc Hc') in Hb.
Qed.

(** The event loop calls [readHandler] while there is input. *)
Fixpoint drain (n : nat) (fuel : nat) c w net : outcome (IoConnection * W * socket_io) :=
  match net_in net with
  | [] => Ret (c, w, net)
  | _ =>
      match n with
      | O => Diverge
      | S n => let* (c, w, net) := readSocket fuel c w net in drain n fuel c w net
      end
  end.

Lemma incomplete_no_frame fs tail :
  incomplete (mjoin fs ++ tail) → Forall good_frame fs → fs = [].
Proof.
  intros Hi HF. destruct fs as [|f fs]; [done|]. pose proof (mjoin_length _ HF) as Hm.
  apply Forall_cons in HF as [Hf _]. cbn [length] in Hm.
  pose proof (incomplete_announced _ Hi) as Ha. rewrite mjoin_announced in Ha by done.
  simpl in *. rewrite !length_app in *. lia.
Qed.

(** Some call of [readSocket] that [drain] makes receives such a piece. *)
Inductive stumbles fuel : IoConnection → W → socket_io → Prop :=
| stumbles_now c w net : clobbers c net → stumbles fuel c w net
| stumbles_later c w net c1 w1 net1 :
    net_in net ≠ [] → readSocket fuel c w net = Ret (c1, w1, net1) → stumbles fuel c1 w1 net1 →
    stumbles fuel c w net.

Lemma idle_not_stumbling fuel c w net P : conn_ok io id c P → net_in net = [] → ¬ stumbles fuel c w net.
Proof.
  intros (Hc & HP & _) Hi. destruct 1 as [c w net (_ & P' & got & ins & _ & _ & Hrv)|]; [|done].
  rewrite Hi in Hrv. cbn in Hrv. rewrite (proj2 (Z.eqb_neq _ _)) in Hrv by apply Hc.
  pose proof (incomplete_length P HP). assert (c_rpos c = Z.of_nat (length P)) as Hrp by apply Hc.
  assert (c_rsize c = 1024) as Hrs by apply Hc. rewrite Hrp, Hrs in Hrv.
  destruct (Z.to_nat (1024 - Z.of_nat (length P))) eqn:?; [lia|done].
Qed.

Lemma drain_ok n fuel c w net P fs tail wN :
  conn_ok io id c P → (256 ≤ fuel)%nat →
  P ++ in_bytes (net_in net) = mjoin fs ++ tail → Forall good_frame fs → incomplete tail →
  feeds w fs wN → live (net_in net) → (in_measure (net_in net) ≤ n)%nat →
  (¬ stumbles fuel c w net ∧ ∃ c', drain n fuel c w net = Ret (c', wN, net_set_in [] net) ∧ conn_ok io id c' tail) ∨
  (stumbles fuel c w net ∧ drain n fuel c w net = Fault).
Proof.
  revert c w net P fs. induction n as [|n IH]; intros c w net P fs Hc Hfu E HF Ht Hfd Hl Hm.
  all: destruct (net_in net) as [|e ins] eqn:Ei.
  1,3: left; split; [by eapply idle_not_stumbling|];
    simpl in E; rewrite app_nil_r in E; subst P; pose proof Hc as (_ & Hi & _);
    pose proof (incomplete_no_frame _ _ Hi HF) as ->; inversion Hfd; subst;
    exists c; cbn [drain]; rewrite Ei, <-Ei, net_set_in_id; done.
  { destruct e; unfold in_measure in Hm; simpl in Hm; lia. }
  rewrite <-Ei in E, Hl. cbn [drain]. rewrite Ei.
  destruct (clobbers_dec c net P fs tail Hc E HF Ht Hl) as [Hcl|Hcl].
  { right. split; [by constructor|]. by rewrite (readSocket_clobbers fuel c w net P fs tail wN). }
  destruct (readSocket_ok fuel c w net P fs tail wN Hc Hfu E HF Ht Hfd Hl Hcl)
    as (c1 & w1 & ins1 & Hr & (fs1 & fs2 & p & -> & Hfd1 & Hfd2 & HF2 & Hc1 & E1) & Hl1 & Hm1).
  rewrite Ei in Hm1. cbn [length Nat.min] in Hm1. rewrite Hr. cbn [obind].
  destruct (IH c1 w1 (net_set_in ins1 net) p fs2) as [(Hns & c' & Hd & Hc')|[Hs Hd]]; try done.
  { cbn [net_in net_set_in]. destruct e; unfold in_measure in *; simpl in *; lia. }
  - left. split; [|by exists c']. intros Hs. inversion Hs as [|? ? ? c2 w2 net2 _ Hr2 Hs2]; subst; [done|].
    rewrite Hr in Hr2. by injection Hr2 as <- <- <-.
  - right. split; [|done]. eapply stumbles_later; [by rewrite Ei|done|done].
Qed.
End framing.

(** ** Closing *)
Section closing.
Context {W : Type} {HW : ConnVirtual W}.
Implicit Types (c : IoConnection) (w : W) (net : socket_io).

(** What tearing a connection down leaves of it. *)
Lemma tear_down_fields c w c1 w1 :
  tear_down c w = Ret (c1, w1) →
  c_socket c1 = -1 ∧ c_destroy c1 = 1 ∧ c_current_push c1 = None ∧
  c_revent_flag c1 = 0 ∧ c_wevent_flag c1 = 0 ∧
  c_rbuf c1 = c_rbuf c ∧ c_rpos c1 = c_rpos c ∧ c_rsize c1 = c_rsize c ∧
  c_rsock_state c1 = c_rsock_state c ∧ c_id c1 = c_id c ∧ c_io c1 = c_io c.
Proof.
  unfold tear_down. intros H.
  apply obind_Ret_inv in H as (w2 & _ & H). apply obind_Ret_inv in H as (w3 & _ & H).
  apply obind_Ret_inv in H as (w4 & _ & H). injection H as <- <-.
  unfold _setWrite, setWriteFlag, _setRead, setReadFlag. cbn.
  destruct (c_revent_flag c =? 0); cbn;
    destruct (c_wevent_flag c =? 0) eqn:Ew; cbn; try done;
    apply Z.eqb_eq in Ew; done.
Qed.

(** Writing only appends to what was sent. *)
Lemma reset_return_out c w net c' w' net' :
  reset_return c w net = Ret (c', w', net') → net' = net.
Proof. unfold reset_return. by intros ([c1 w1] & _ & [= _ _ <-])%obind_Ret_inv. Qed.

Lemma send_current_out_grows c w net c' w' net' :
  send_current c w net = Ret (c', w', net') → net_out net `prefix_of` net_out net'.
Proof.
  unfold send_current. intros (nd & _ & Hw)%obind_Ret_inv.
  apply obind_Ret_inv in Hw as (mm & _ & Hw). case_match; [by apply reset_return_out in Hw as ->|].
  case_match.
  - destruct (send_retry _ _ _) as [[n| | |] sends2].
    + apply obind_Ret_inv in Hw as (b & _ & Hw). apply obind_Ret_inv in Hw as (bs & _ & Hw).
      apply obind_Ret_inv in Hw as (ph & _ & Hw). case_match.
      * apply obind_Ret_inv in Hw as ([c1 w2] & _ & [= _ _ <-]). by apply prefix_app_r.
      * injection Hw as _ _ <-. by apply prefix_app_r.
    + by injection Hw as _ _ <-.
    + by injection Hw as _ _ <-.
    + by apply reset_return_out in Hw as ->.
  - case_match; [by apply obind_Ret_inv in Hw as ([c1 w2] & _ & [= _ _ <-])|].
    by injection Hw as _ _ <-.
Qed.

Lemma writeSocket_out_grows c w net c' w' net' :
  writeSocket c w net = Ret (c', w', net') → net_out net `prefix_of` net_out net'.
Proof.
  assert (∀ c0, write_data_state c0 w net = Ret (c', w', net') →
            net_out net `prefix_of` net_out net') as Hd.
  { intros c0. unfold write_data_state. destruct (c_current_push c0).
    - apply send_current_out_grows.
    - intros ([[d|] w1] & _ & Hw)%obind_Ret_inv; [by apply send_current_out_grows in Hw|].
      by injection Hw as _ _ <-. }
  unfold writeSocket. destruct (c_wsock_state c).
  - case_match; [by intros ->%reset_return_out|apply Hd].
  - apply Hd.
  - by intros ->%reset_return_out.
  - by intros ->%reset_return_out.
Qed.

Lemma recv_closed len ins : recv_retry (-1) len ins = (SockFailed, ins).
Proof. by destruct ins. Qed.
End closing.

(** A connection class that only records the frames it is given and counts how
    often it is destroyed, for the concrete instances below. *)
Record frame_log := { fl_frames : list (list Z); fl_destroyed : nat }.

Definition log_virtual : ConnVirtual frame_log := {|
  w_msgs _ := ∅;
  w_pushes _ := ∅;
  w_set_heaps _ _ w := w;
  whenReceivedFrame c w off size :=
    let* f := read_bytes (c_rbuf c) off size in
    Ret (0, {| fl_frames := fl_frames w ++ [f]; fl_destroyed := fl_destroyed w |});
  whenClosed w := Ret w;
  getPushData w := Ret (None, w);
  pendingPushData w _ := Ret w;
  when_destroy _ w :=
    Ret {| fl_frames := fl_frames w; fl_destroyed := S (fl_destroyed w) |} |}.

Definition log_frame (w : frame_log) (f : list Z) : outcome (Z * frame_log) :=
  Ret (0, {| fl_frames := fl_frames w ++ [f]; fl_destroyed := fl_destroyed w |}).

Definition log_conn : IoConnection :=
  cset_when_destroy true (IoConnection_initialize IoConnection_new 3 0 7).

Lemma log_conn_ok : conn_ok 0 7 log_conn [].
Proof.
  split; [|split; [|by left]].
  - split; [done|]. split; [done|]. split; [done|]. split; [done|]. split; [done|].
    exists (raw_buffer 1024). done.
  - exists [0; 0; 0; 4; 0; 0; 0; 0]. split; [done|]. split; [simpl; lia|]. reflexivity.
Qed.

(** ** Properties *)

(** a socket error that arrives while an incomplete frame is buffered tears
    the connection down twice: after the first [resetSocket] the code leaves the
    loop instead of returning, goes on to read the rest of the frame from the
    closed descriptor and resets again.  [_when_destroy] runs both times. *)
Theorem readSocket_error_resets_twice {W} (HW : ConnVirtual W) io id fuel c w net ins P
    (Hc : conn_buf io id c P) (Hst : c_rsock_state c = SOCKET_RECV_FRAMING)
    (Hp : incomplete P) (H4 : (4 ≤ length P)%nat) (Hin : net_in net = RecvError :: ins) :
  readSocket fuel c w net =
    let* (c1, w1) := resetSocket c w in
    let c2 := cset_rsock_state SOCKET_DATA_RECV (cset_frame_size (announced_size P) c1) in
    let* (c3, w3) := resetSocket c2 w1 in
    Ret (c3, w3, net_set_in ins net).
Proof.
  pose proof (incomplete_announced P Hp H4) as Ha. pose proof (incomplete_length P Hp) as Hl.
  pose proof Hc as (_ & _ & Hs & Hz & Hr & rest & Hb & Hlen).
  unfold readSocket. rewrite Hst. unfold recv_framing. rewrite Hr, Hz, Hin.
  rewrite (proj2 (Z.ltb_ge _ _)) by lia. cbn [recv_retry].
  rewrite (proj2 (Z.eqb_neq _ _)) by done.
  destruct (Z.to_nat (1024 - Z.of_nat (length P))) as [|len] eqn:En; [lia|].
  destruct (resetSocket c w) as [[c1 w1]| | | |] eqn:Et; try done. cbn [obind].
  destruct (tear_down_fields _ _ _ _ Et) as (Es & _ & _ & _ & _ & Eb & Er & Ez & _ & Eid & Eio).
  unfold read_header. rewrite Er, Hr, (proj2 (Z.ltb_ge _ _)) by lia.
  assert (conn_buf (c_io c1) (c_id c1) (cset_socket 0 c1) ([] ++ P ++ [])) as Hc1.
  { rewrite app_nil_r. split; [done|]. split; [done|]. split; [done|]. split; [by cbn; rewrite Ez|].
    split; [by cbn; rewrite Er|]. exists rest. by cbn; rewrite Eb. }
  destruct (read_word_ok _ _ _ _ _ _ Hc1 H4) as (n & Hn & Hann).
  change (read_word (cset_socket 0 c1) (Z.of_nat (length []))) with (read_word c1 0) in Hn.
  rewrite Hn. cbn [obind]. rewrite Hann.
  unfold FRAME_MAX_SIZE. cbn [c_frame_size cset_frame_size].
  rewrite (proj2 (Z.ltb_ge _ _)) by lia.
  unfold grow_rbuf. cbn [c_rsize c_frame_size cset_frame_size].
  rewrite Ez, Hz, i32_id, (proj2 (Z.ltb_ge _ _)) by lia. cbn [obind].
  unfold read_data_state. cbn [c_frame_size c_rpos c_socket cset_rsock_state cset_frame_size].
  rewrite Er, Hr.
  assert (i32 (u32 (announced_size P - Z.of_nat (length P))) =
          announced_size P - Z.of_nat (length P)) as ->.
  { unfold i32, u32. rewrite Zplus_mod_idemp_l, Z.mod_small; lia. }
  rewrite (proj2 (Z.ltb_lt _ _)) by lia. unfold recv_data.
  cbn [c_socket cset_rsock_state cset_frame_size]. rewrite Es, recv_closed.
  destruct (resetSocket _ w1) as [[c3 w3]| | | |]; done.
Qed.

Definition buffered_conn : IoConnection :=
  cset_rpos 4 (cset_rbuf ((Some <$> [0; 0; 0; 4]) ++ raw_buffer 1020) log_conn).

(** The connection is destroyed twice by one event. *)
Lemma readSocket_error_resets_twice_witness :
  let HW := log_virtual in
  let net := {| net_in := [RecvError]; net_send := []; net_out := []; net_so_error := 0 |} in
  ∃ c', readSocket 1 buffered_conn {| fl_frames := []; fl_destroyed := 0 |} net =
    Ret (c', {| fl_frames := []; fl_destroyed := 2 |}, net_set_in [] net).
Proof.
  intros HW net.
  rewrite (readSocket_error_resets_twice log_virtual 0 7 1 buffered_conn _ net [] [0; 0; 0; 4]).
  - eexists. vm_compute. reflexivity.
  - split; [done|]. split; [done|]. split; [done|]. split; [done|]. split; [done|].
    by exists (raw_buffer 1020).
  - reflexivity.
  - exists [9; 9; 9; 9]. split; [done|]. split; [simpl; lia|]. reflexivity.
  - simpl. lia.
  - reflexivity.
Defined.

(** only the first frame in the buffer has its size checked.  When the four
    bytes behind a complete frame announce a size that is negative as an [int],
    [whenReceivedFrame] is called with that negative size. *)
Theorem pipelined_size_unchecked {W} (HW : ConnVirtual W) io id on_frame
    (Hframe : ∀ c w off size f,
       c_io c = io → c_id c = id → good_frame f →
       read_bytes (c_rbuf c) off size = Ret f → Z.of_nat (length f) = size →
       whenReceivedFrame c w off size = on_frame w f)
    fuel c w net f h r w1
    (Hc : conn_buf io id c (f ++ h)) (Hf : good_frame f) (Hh : length h = 4%nat)
    (Hneg : i32 (announced_size h) < 0) (Hsz : c_frame_size c = announced_size (f ++ h))
    (Hacc : on_frame w f = Ret (r, w1)) (Hr : r ≠ -1) :
  handle_frames (S (S fuel)) c w net =
    let* (ret, w2) := whenReceivedFrame c w1 (Z.of_nat (length f)) (i32 (announced_size h)) in
    let* (w3, rest) :=
      if ret =? -1 then Ret (w2, None)
      else
        let b := Z.of_nat (length f) + i32 (announced_size h) in
        let* n := read_word c b in
        deliver_frames fuel c w2 b (i32 (n + 4)) (4 - i32 (announced_size h)) in
    match rest with
    | None => reset_return c w3 net
    | Some (b, len) =>
        let* buf := memcpy_within (c_rbuf c) 0 b len in
        Ret (cset_rsock_state SOCKET_RECV_FRAMING (cset_rpos len (cset_rbuf buf c)), w3, net)
    end.
Proof.
  pose proof Hf as [Hl Ha]. unfold handle_frames.
  rewrite Hsz, announced_app, Ha by lia.
  assert (c_rpos c = Z.of_nat (length f) + 4) as ->.
  { destruct Hc as (_ & _ & _ & _ & Hp & _). rewrite Hp, length_app, Hh. lia. }
  rewrite i32_id, (proj2 (Z.eqb_neq _ _)), (proj2 (Z.ltb_lt _ _)) by lia.
  cbn [deliver_frames]. rewrite (proj2 (Z.ltb_ge _ _)) by lia.
  assert (conn_buf io id c ([] ++ f ++ h)) as Hc0 by done.
  pose proof Hc as (Hio & Hid & _).
  rewrite (Hframe c w 0 _ f Hio Hid Hf (read_frame_ok _ _ _ _ _ _ Hc0) eq_refl), Hacc. cbn [obind].
  rewrite (proj2 (Z.eqb_neq _ _)) by done.
  replace (Z.of_nat (length f) + 4 - Z.of_nat (length f)) with 4 by lia.
  rewrite (proj2 (Z.leb_le _ _)) by lia. rewrite Z.add_0_l.
  rewrite <-(app_nil_r h) in Hc.
  destruct (read_word_ok _ _ c f h [] Hc) as (n & -> & Hn); [lia|]. cbn [obind].
  assert (i32 (n + 4) = i32 (announced_size h)) as ->.
  { rewrite <-Hn. unfold i32, u32. by rewrite Zplus_mod_idemp_l. }
  rewrite (proj2 (Z.ltb_ge _ _)) by lia.
  destruct (whenReceivedFrame c w1 _ _) as [[ret w2]| | | |]; try done. cbn [obind].
  destruct (ret =? -1); [done|].
  by rewrite (proj2 (Z.leb_le 4 (4 - i32 (announced_size h)))) by lia.
Qed.

Definition pipelined_conn : IoConnection :=
  cset_rsock_state SOCKET_DATA_RECV (cset_frame_size 8 (cset_rpos 12
    (cset_rbuf ((Some <$> [0; 0; 0; 4; 9; 9; 9; 9; 128; 0; 0; 0]) ++ raw_buffer 1012) log_conn))).

(** The recording class itself then reads a negative number of bytes. *)
Lemma pipelined_size_unchecked_witness :
  let HW := log_virtual in
  let net := {| net_in := []; net_send := []; net_out := []; net_so_error := 0 |} in
  handle_frames 2 pipelined_conn {| fl_frames := []; fl_destroyed := 0 |} net = Fault.
Proof.
  intros HW net.
  rewrite (pipelined_size_unchecked log_virtual 0 7 log_frame) with
    (f := [0; 0; 0; 4; 9; 9; 9; 9]) (h := [128; 0; 0; 0]) (r := 0)
    (w1 := {| fl_frames := [[0; 0; 0; 4; 9; 9; 9; 9]]; fl_destroyed := 0 |}).
  - reflexivity.
  - intros c w off size g _ _ _ Hr _. cbn. by rewrite Hr.
  - split; [done|]. split; [done|]. split; [done|]. split; [done|]. split; [done|].
    by exists (raw_buffer 1012).
  - split; [simpl; lia|]. reflexivity.
  - reflexivity.
  - vm_compute. reflexivity.
  - reflexivity.
  - reflexivity.
  - done.
Defined.
