(* ===== verification/IoAppConnection.v ===== *)
(** io::IoAppConnection (framework/io/io_app_connection.cpp): a client
    connection, and io::IoBackendConnection (io_backend_connection.cpp).

    The world a connection's virtual methods act on holds its own fields, the
    two heaps, the [IoProcessor] messages are handed to, the queue of the
    pending-message collector (when there is one), the clock, and the I/O thread
    that owns the connection, known through the class [ConnOwner]. *)
From S2P Require Import Prelude Heap Bytes MsMessage MsQueues IoPushList IoSampling IoConnection.

(** ** Interfaces *)
(** io::IoProcessor: [process] takes over the message. *)
Class IoProcessor (S : Type) := { process : mheap → S → ptr → outcome (mheap * S) }.

(** The owner's [destroy] callback, on the connection at an address. *)
Class ConnOwner (D : Type) := { owner_destroy : loc → IoConnection → D → outcome D }.

(** ** State *)
Record IoAppConnection := mkApp {
  ap_state : Z;
  ap_sampling : IoSampling;
  ap_push_buffer : IoPushList;
  ap_pending_data : ptr;
  ap_second_limit : Z;
  ap_minute_limit : Z;
  ap_hour_limit : Z }.

Definition ap_with_state (s : Z) (a : IoAppConnection) : IoAppConnection :=
  mkApp s (ap_sampling a) (ap_push_buffer a) (ap_pending_data a)
    (ap_second_limit a) (ap_minute_limit a) (ap_hour_limit a).
Definition ap_with_sampling (s : IoSampling) (a : IoAppConnection) : IoAppConnection :=
  mkApp (ap_state a) s (ap_push_buffer a) (ap_pending_data a)
    (ap_second_limit a) (ap_minute_limit a) (ap_hour_limit a).
Definition ap_with_push (q : IoPushList) (a : IoAppConnection) : IoAppConnection :=
  mkApp (ap_state a) (ap_sampling a) q (ap_pending_data a)
    (ap_second_limit a) (ap_minute_limit a) (ap_hour_limit a).
Definition ap_with_pending (p : ptr) (a : IoAppConnection) : IoAppConnection :=
  mkApp (ap_state a) (ap_sampling a) (ap_push_buffer a) p
    (ap_second_limit a) (ap_minute_limit a) (ap_hour_limit a).

(** The constructor; [initialize] and the limit setters complete it. *)
Definition IoAppConnection_new (utc : Z) : IoAppConnection :=
  mkApp 0 (IoSampling_new utc) IoPushList_new None 0 0 0.

(** The part of [initialize] that is not [IoConnection::initialize]. *)
Definition IoAppConnection_initialize (a : IoAppConnection) : IoAppConnection :=
  ap_with_pending None (ap_with_state 0 a).

Definition IoAppConnection_setState (a : IoAppConnection) (s : Z) : IoAppConnection :=
  ap_with_state s a.

Definition switch_state_call (f : switch_fn) (a : IoAppConnection) (s : Z) : IoAppConnection :=
  match f with switch_state_app_msg => IoAppConnection_setState a s end.

Record app_world (S D : Type) := mkWorld {
  aw_self : loc;
  aw_app : IoAppConnection;
  aw_msgs : mheap;
  aw_pushes : pheap;
  aw_proc : S;
  aw_collector : option MsMessageBlockQueue;
  aw_now : Z * Z; (** seconds and microseconds *)
  aw_owner : D }.
Arguments mkWorld {S D}.
Arguments aw_self {S D}.
Arguments aw_app {S D}.
Arguments aw_msgs {S D}.
Arguments aw_pushes {S D}.
Arguments aw_proc {S D}.
Arguments aw_collector {S D}.
Arguments aw_now {S D}.
Arguments aw_owner {S D}.

Section app.
Context {S D : Type} {HS : IoProcessor S} {HD : ConnOwner D}.
Abbreviation world := (app_world S D).
Implicit Types (w : world) (a : IoAppConnection).

Definition aw_set_app a w : world :=
  mkWorld (aw_self w) a (aw_msgs w) (aw_pushes w) (aw_proc w) (aw_collector w) (aw_now w) (aw_owner w).
Definition aw_set_heaps (mh : mheap) (ph : pheap) w : world :=
  mkWorld (aw_self w) (aw_app w) mh ph (aw_proc w) (aw_collector w) (aw_now w) (aw_owner w).
Definition aw_set_proc (s : S) w : world :=
  mkWorld (aw_self w) (aw_app w) (aw_msgs w) (aw_pushes w) s (aw_collector w) (aw_now w) (aw_owner w).
Definition aw_set_collector (q : option MsMessageBlockQueue) w : world :=
  mkWorld (aw_self w) (aw_app w) (aw_msgs w) (aw_pushes w) (aw_proc w) q (aw_now w) (aw_owner w).
Definition aw_set_owner (d : D) w : world :=
  mkWorld (aw_self w) (aw_app w) (aw_msgs w) (aw_pushes w) (aw_proc w) (aw_collector w) (aw_now w) d.

(** ** Operations *)
Definition IoAppConnection_pushMsgData w (msg : ptr) : outcome world :=
  let* m := load (aw_msgs w) msg in
  let (d, ph) := createPushData (aw_pushes w)
    (mkPushData None msg free_releaseIMessage msg (msg_frame_len m) 0) in
  let* (mh, ph, q) := IoPushList_put (aw_msgs w) ph (ap_push_buffer (aw_app w)) (Some d) in
  Ret (aw_set_app (ap_with_push q (aw_app w)) (aw_set_heaps mh ph w)).

(** The comparison with the limits, on [unsigned int]s. *)
Definition over_limit a (sp : Sample) : bool :=
  (u32 (ap_second_limit a) <? sec_total sp) || (u32 (ap_minute_limit a) <? min_total sp)
  || (u32 (ap_hour_limit a) <? hou_total sp).

(** [createIMessage(buf, size)] with [buf] pointing into the read buffer. *)
Definition message_from (mh : mheap) (buf : buffer) (off size : Z) : outcome (loc * mheap) :=
  let* mem := if size <? 0 then Ret [] else read_bytes buf off size in
  createIMessage_frame mh mem size.

Definition IoAppConnection_whenReceivedFrame (c : IoConnection) w (off size : Z)
    : outcome (Z * world) :=
  let* word := read_bytes (c_rbuf c) (off + 4) 4 in
  if i32 (le_value word) =? magic then
    let* (stat, sm) := IoSampling_getSample (ap_sampling (aw_app w)) (fst (aw_now w)) in
    let w := aw_set_app (ap_with_sampling sm (aw_app w)) w in
    if over_limit (aw_app w) stat then Ret (-1, w)
    else
      let* (l, mh) := message_from (aw_msgs w) (c_rbuf c) off size in
      let* mh := modify mh (Some l) (λ m,
        set_gen_time (Some (aw_now w)) (set_type (Some (bits 2 APP)) (set_conn (c_id c)
          (set_io (c_io c) (set_state (Some (ap_state (aw_app w))) m))))) in
      let* (mh, s) := process mh (aw_proc w) (Some l) in
      let w := aw_set_proc s (aw_set_heaps mh (aw_pushes w) w) in
      let* sm := IoSampling_sample (ap_sampling (aw_app w)) (fst (aw_now w)) in
      Ret (0, aw_set_app (ap_with_sampling sm (aw_app w)) w)
  else Ret (-1, w).

Definition IoAppConnection_whenClosed w : outcome world :=
  let a := aw_app w in
  let* (mh, ph, q) :=
    match ap_pending_data a with
    | None => Ret (aw_msgs w, aw_pushes w, ap_push_buffer a)
    | Some _ => IoPushList_putFirst (aw_msgs w) (aw_pushes w) (ap_push_buffer a) (ap_pending_data a)
    end in
  let a := ap_with_pending None a in
  let* msg := IoPushList_stealMsg ph q in
  match msg with
  | None => Ret (aw_set_app (ap_with_push q a) (aw_set_heaps mh ph w))
  | Some _ =>
      match aw_collector w with
      | Some k =>
          let* (mh, k) := MsMessageBlockQueue_put mh k msg in
          let* (ph, q) := IoPushList_shallowClear ph q in
          Ret (aw_set_collector (Some k)
                 (aw_set_app (ap_with_push q a) (aw_set_heaps mh ph w)))
      | None =>
          let* (mh, ph, q) := IoPushList_clear mh ph q in
          Ret (aw_set_app (ap_with_push q a) (aw_set_heaps mh ph w))
      end
  end.

Definition IoAppConnection_getPushData w : outcome (ptr * world) :=
  let* (item, mh, ph, q) :=
    IoPushList_get (aw_msgs w) (aw_pushes w) (ap_push_buffer (aw_app w)) in
  Ret (item, aw_set_app (ap_with_push q (aw_app w)) (aw_set_heaps mh ph w)).

Definition IoAppConnection_pendingPushData w (data : ptr) : outcome world :=
  Ret (aw_set_app (ap_with_pending data (aw_app w)) w).

#[export] Instance app_virtual : ConnVirtual world := {|
  w_msgs := aw_msgs;
  w_pushes := aw_pushes;
  w_set_heaps := aw_set_heaps;
  whenReceivedFrame := IoAppConnection_whenReceivedFrame;
  whenClosed := IoAppConnection_whenClosed;
  getPushData := IoAppConnection_getPushData;
  pendingPushData := IoAppConnection_pendingPushData;
  when_destroy c w :=
    let* d := owner_destroy (aw_self w) c (aw_owner w) in Ret (aw_set_owner d w) |}.
End app.

(** ** io::IoBackendConnection

    Its handler gives every frame to the worker cluster without a magic or limit
    check; the other virtual methods are the base class's. *)
Class MsWorkerCluster (S : Type) := { schedule : mheap → S → ptr → outcome (mheap * S) }.

Section backend.
Context {S : Type} {HS : MsWorkerCluster S}.

Definition IoBackendConnection_whenReceivedFrame (c : IoConnection) (mh : mheap)
    (workers : option S) (off size : Z) : outcome (Z * mheap * option S) :=
  match workers with
  | None => Ret (-1, mh, None)
  | Some s =>
      let* (l, mh) := message_from mh (c_rbuf c) off size in
      let* mh := modify mh (Some l) (λ m,
        set_type (Some (bits 2 BACKEND)) (set_conn (c_id c) (set_io (c_io c) m))) in
      let* (mh, s) := schedule mh s (Some l) in
      Ret (0, mh, Some s)
  end.
End backend.

(** ** What is waiting to be sent

    [frame_of mh ph d m bs k]: the node [d] carries the message [m] whose frame
    is [bs], of which [k] bytes are sent. *)
Definition frame_of (mh : mheap) (ph : pheap) (d m : loc) (bs : list Z) (k : nat) : Prop :=
  ∃ nd mm, ph !! d = Some nd ∧ mh !! m = Some mm ∧ pd_msg nd = Some m ∧
    pd_wbuf nd = Some m ∧ pd_wsize nd = Z.of_nat (length bs) ∧ pd_wpos nd = Z.of_nat k ∧
    (k ≤ length bs)%nat ∧ msg_close_conn mm = 0 ∧ ∃ rest, msg_b mm = (Some <$> bs) ++ rest.

(** A queued frame: node, message, bytes. *)
Definition queued : Type := loc * loc * list Z.
Definition q_node (x : queued) : loc := fst (fst x).
Definition q_msg (x : queued) : loc := snd (fst x).
Definition q_frame (x : queued) : list Z := snd x.

Definition queued_ok (mh : mheap) (ph : pheap) (q : IoPushList) (xs : list queued) : Prop :=
  pl_rep mh ph q (q_node <$> xs) (q_msg <$> xs) ∧
  Forall (λ x, frame_of mh ph (q_node x) (q_msg x) (q_frame x) 0) xs.

(** What a connection has to send: the frame being sent with how many bytes of it
    are gone, and the frames queued behind it. *)
Record outbox := mkOutbox { ob_cur : option (queued * nat); ob_queue : list queued }.

Definition ob_all (o : outbox) : list queued :=
  match ob_cur o with Some (x, _) => x :: ob_queue o | None => ob_queue o end.
Definition ob_nodes (o : outbox) : list loc := q_node <$> ob_all o.
Definition ob_msgs (o : outbox) : list loc := q_msg <$> ob_all o.
Definition ob_left (o : outbox) : list Z :=
  match ob_cur o with Some (x, k) => drop k (q_frame x) | None => [] end.
Definition ob_bytes (o : outbox) : list Z := ob_left o ++ mjoin (q_frame <$> ob_queue o).
(** It becomes smaller whenever the kernel takes something. *)
Definition ob_measure (o : outbox) : nat := (length (ob_bytes o) + length (ob_all o))%nat.
Definition ob_snoc (o : outbox) (x : queued) : outbox := mkOutbox (ob_cur o) (ob_queue o ++ [x]).

Definition outbox_rep (mh : mheap) (ph : pheap) (q : IoPushList) (cur : ptr) (o : outbox) : Prop :=
  queued_ok mh ph q (ob_queue o) ∧
  match ob_cur o with
  | None => cur = None
  | Some (x, k) => cur = Some (q_node x) ∧ frame_of mh ph (q_node x) (q_msg x) (q_frame x) k ∧
      (q_node x ∉ (q_node <$> ob_queue o)) ∧ (q_msg x ∉ (q_msg <$> ob_queue o))
  end.

Definition world_out {S D} (cur : ptr) (w : app_world S D) (o : outbox) : Prop :=
  outbox_rep (aw_msgs w) (aw_pushes w) (ap_push_buffer (aw_app w)) cur o.

(** [out] are the bytes the connection still has to send. *)
Definition out_rep {S D} (cur : ptr) (w : app_world S D) (out : list Z) : Prop :=
  ∃ o, world_out cur w o ∧ out = ob_bytes o.

Lemma links_only_msg (mh mh' : mheap) m mm :
  mh ≃ mh' → mh !! m = Some mm →
  ∃ mm', mh' !! m = Some mm' ∧ msg_b mm' = msg_b mm ∧ msg_close_conn mm' = msg_close_conn mm.
Proof.
  intros E Em. destruct (links_only_Some _ _ _ _ E Em) as (mm' & Em' & Hu).
  exists mm'. split; [done|]. unfold unlink in Hu. cbn in Hu.
  split; [exact (f_equal msg_b Hu)|exact (f_equal msg_close_conn Hu)].
Qed.

Lemma links_only_push (ph ph' : pheap) d nd :
  ph ≃ ph' → ph !! d = Some nd →
  ∃ nd', ph' !! d = Some nd' ∧ pd_set_next None nd' = pd_set_next None nd.
Proof. intros E Ed. exact (links_only_Some _ _ _ _ E Ed). Qed.

Lemma frame_of_relinks mh mh' ph ph' fm fp d m bs k :
  relinks mh mh' fm → relinks ph ph' fp → frame_of mh ph d m bs k → frame_of mh' ph' d m bs k.
Proof.
  intros [Em _] [Ep _] (nd & mm & E1 & E2 & H1 & H2 & H3 & H4 & H5 & H6 & H7).
  destruct (links_only_msg _ _ _ _ Em E2) as (mm' & E2' & Hb & Hc).
  destruct (links_only_push _ _ _ _ Ep E1) as (nd' & E1' & Hn).
  exists nd', mm'. split; [done|]. split; [done|].
  pose proof (f_equal pd_msg Hn) as N1. pose proof (f_equal pd_wbuf Hn) as N2.
  pose proof (f_equal pd_wsize Hn) as N3. pose proof (f_equal pd_wpos Hn) as N4. cbn in *.
  rewrite N1, N2, N3, N4, Hb, Hc. done.
Qed.

Lemma frame_of_frame mh mh' ph ph' d m bs k :
  mh' !! m = mh !! m → ph' !! d = ph !! d →
  frame_of mh ph d m bs k → frame_of mh' ph' d m bs k.
Proof. intros Em Ep (nd & mm & E1 & E2 & H). exists nd, mm. by rewrite Em, Ep. Qed.

Lemma queued_frame mh mh' ph ph' q xs :
  (∀ l, l ∈ (q_msg <$> xs) → mh' !! l = mh !! l) →
  (∀ l, l ∈ (q_node <$> xs) → ph' !! l = ph !! l) →
  queued_ok mh ph q xs → queued_ok mh' ph' q xs.
Proof.
  intros Hm Hp [Hq HF]. split; [by eapply pl_rep_frame|].
  rewrite Forall_forall in *. intros x Hx.
  apply (frame_of_frame mh mh' ph ph'); [apply Hm|apply Hp|by apply HF]; set_solver.
Qed.

Lemma queued_relinks mh mh' ph ph' fm fp xs :
  relinks mh mh' fm → relinks ph ph' fp →
  Forall (λ x, frame_of mh ph (q_node x) (q_msg x) (q_frame x) 0) xs →
  Forall (λ x, frame_of mh' ph' (q_node x) (q_msg x) (q_frame x) 0) xs.
Proof. intros Hm Hp HF. eapply Forall_impl; [done|]. intros x. by eapply frame_of_relinks. Qed.

Lemma outbox_rep_frame mh mh' ph ph' q cur o :
  (∀ l, l ∈ ob_msgs o → mh' !! l = mh !! l) → (∀ d, d ∈ ob_nodes o → ph' !! d = ph !! d) →
  outbox_rep mh ph q cur o → outbox_rep mh' ph' q cur o.
Proof.
  unfold ob_msgs, ob_nodes, ob_all. intros Hm Hp [Hq Hc]. split.
  - eapply queued_frame; [| |exact Hq]; intros l Hl; (apply Hm || apply Hp); destruct (ob_cur o) as [[x k]|];
      [set_solver|done|set_solver|done].
  - destruct (ob_cur o) as [[x k]|]; [|done]. destruct Hc as (-> & Hf & Hx). split; [done|]. split; [|done].
    apply (frame_of_frame mh mh' ph ph'); [apply Hm|apply Hp|done]; set_solver.
Qed.

Lemma outbox_rep_NoDup mh ph q cur o : outbox_rep mh ph q cur o → NoDup (ob_nodes o) ∧ NoDup (ob_msgs o).
Proof.
  intros [[Hq _] Hc]. destruct (pl_rep_NoDup _ _ _ _ _ Hq) as [H1 H2]. unfold ob_nodes, ob_msgs, ob_all.
  destruct (ob_cur o) as [[x k]|]; [|done]. destruct Hc as (_ & _ & H3 & H4). by split; constructor.
Qed.

(** The messages of an outbox are allocated. *)
Lemma outbox_rep_alive mh ph q cur o l : outbox_rep mh ph q cur o → l ∈ ob_msgs o → is_Some (mh !! l).
Proof.
  intros [[_ HF] Hc]. unfold ob_msgs, ob_all. rewrite Forall_forall in HF.
  assert (∀ x k, frame_of mh ph (q_node x) (q_msg x) (q_frame x) k → is_Some (mh !! q_msg x)) as Ha.
  { intros x k (nd & mm & _ & Em & _). by eexists. }
  intros (x & -> & Hx)%list_elem_of_fmap. destruct (ob_cur o) as [[y k]|].
  - apply elem_of_cons in Hx as [->|Hx]; [by eapply Ha, Hc|by eapply Ha, HF].
  - by eapply Ha, HF.
Qed.

(** So are its nodes. *)
Lemma outbox_node_alive mh ph q cur o d : outbox_rep mh ph q cur o → d ∈ ob_nodes o → is_Some (ph !! d).
Proof.
  intros [[_ HF] Hc]. unfold ob_nodes, ob_all. rewrite Forall_forall in HF.
  assert (∀ x k, frame_of mh ph (q_node x) (q_msg x) (q_frame x) k → is_Some (ph !! q_node x)) as Ha.
  { intros x k (nd & mm & Ed & _). by eexists. }
  intros (x & -> & Hx)%list_elem_of_fmap. destruct (ob_cur o) as [[y k]|].
  - apply elem_of_cons in Hx as [->|Hx]; [by eapply Ha, Hc|by eapply Ha, HF].
  - by eapply Ha, HF.
Qed.

(** A message no node carries is in no outbox. *)
Lemma outbox_not_carried mh ph q cur o l :
  outbox_rep mh ph q cur o → (∀ d nd, ph !! d = Some nd → pd_msg nd ≠ Some l) → l ∉ ob_msgs o.
Proof.
  intros [[_ HF] Hcur] Hfree.
  assert (∀ y k, frame_of mh ph (q_node y) (q_msg y) (q_frame y) k → q_msg y ≠ l) as Hne.
  { intros y k (n & mm & E1 & _ & H1 & _) <-. by apply (Hfree _ _ E1). }
  rewrite Forall_forall in HF. unfold ob_msgs, ob_all. intros (x & Hx & Hin)%list_elem_of_fmap. symmetry in Hx.
  destruct (ob_cur o) as [[y k]|].
  - apply elem_of_cons in Hin as [->|Hin]; [by eapply Hne; [apply Hcur|]|by eapply Hne; [apply HF|]].
  - by eapply Hne; [apply HF|].
Qed.

Section out.
Context {S D : Type} {HS : IoProcessor S} {HD : ConnOwner D}.
Implicit Types (w : app_world S D) (c : IoConnection) (o : outbox).

(** [w'] is [w] with the push list changed and the stores changed inside [ms] and
    [ds] only. *)
Definition touches (ms ds : list loc) w w' : Prop :=
  ∃ mh ph q, w' = aw_set_app (ap_with_push q (aw_app w)) (aw_set_heaps mh ph w) ∧
    same_outside ms (aw_msgs w) mh ∧ same_outside ds (aw_pushes w) ph.

Lemma touches_refl ms ds w : touches ms ds w w.
Proof. exists (aw_msgs w), (aw_pushes w), (ap_push_buffer (aw_app w)). by destruct w as [? [] ? ? ? ? ? ?]. Qed.

Lemma touches_trans ms ds w1 w2 w3 : touches ms ds w1 w2 → touches ms ds w2 w3 → touches ms ds w1 w3.
Proof.
  intros (m1 & p1 & q1 & -> & H1 & H2) (m2 & p2 & q2 & -> & H3 & H4). exists m2, p2, q2.
  split; [done|]. split; by eapply same_outside_trans.
Qed.

Lemma touches_weaken ms ds ms' ds' w w' : ms ⊆ ms' → ds ⊆ ds' → touches ms ds w w' → touches ms' ds' w w'.
Proof.
  intros Hm Hd (mh & ph & q & -> & H1 & H2). exists mh, ph, q.
  split; [done|]. split; by eapply same_outside_weaken.
Qed.

Lemma touches_heaps ms ds mh ph w :
  same_outside ms (aw_msgs w) mh → same_outside ds (aw_pushes w) ph → touches ms ds w (aw_set_heaps mh ph w).
Proof. intros. exists mh, ph, (ap_push_buffer (aw_app w)). split; [|done]. by destruct w as [? [] ? ? ? ? ? ?]. Qed.

(** The next frame becomes the one being sent. *)
Definition ob_next (xs : list queued) : outbox :=
  match xs with [] => mkOutbox None [] | x :: xs => mkOutbox (Some (x, O)) xs end.

Lemma ob_next_all xs : ob_all (ob_next xs) = xs.
Proof. by destruct xs. Qed.
Lemma ob_next_bytes xs : ob_bytes (ob_next xs) = mjoin (q_frame <$> xs).
Proof. by destruct xs as [|[[d m] bs] xs]. Qed.
Lemma ob_next_idle xs : ob_cur (ob_next xs) = None → ob_queue (ob_next xs) = [].
Proof. by destruct xs. Qed.

Definition cur_ptr o : ptr := q_node ∘ fst <$> ob_cur o.

Lemma outbox_cur mh ph q cur o : outbox_rep mh ph q cur o → cur = cur_ptr o.
Proof. intros [_ Hc]. unfold cur_ptr. destruct (ob_cur o) as [[x k]|]; [by destruct Hc|done]. Qed.

Lemma app_getPushData_outbox w xs :
  world_out None w (mkOutbox None xs) →
  ∃ w', IoAppConnection_getPushData w = Ret (cur_ptr (ob_next xs), w') ∧
    world_out (cur_ptr (ob_next xs)) w' (ob_next xs) ∧
    touches (q_msg <$> xs) (q_node <$> xs) w w'.
Proof.
  intros [[Hq HF] _]. unfold IoAppConnection_getPushData. cbn [ob_queue] in *.
  destruct xs as [|[[d m] bs] xs].
  - pose proof Hq as ([Hl _] & _). simpl in Hl. unfold IoPushList_get. rewrite Hl.
    cbn [obind]. eexists. split; [done|]. split; [by split; [split|]|].
    eexists _, _, _. split; [done|]. auto with heap.
  - apply Forall_cons in HF as [Hf HF]. cbn [fmap list_fmap q_node q_msg q_frame fst snd] in *.
    destruct (pl_get_spec _ _ _ _ _ _ _ Hq) as (mh' & ph' & q' & -> & Hq' & Hc & Hrm & Hrp).
    cbn [obind]. eexists. split; [done|]. split; [split; [|split; [done|split]]|].
    + split; [done|]. by eapply queued_relinks.
    + by eapply frame_of_relinks.
    + by apply pl_rep_NoDup in Hq as [[Hd _]%NoDup_cons [Hm _]%NoDup_cons].
    + eexists _, _, _. split; [done|].
      split; (eapply same_outside_weaken; [|by apply relinks_outside]); set_solver.
Qed.

(** The connection after a writable event that leaves [o]: when nothing is left it
    waits for reading only. *)
Definition after_write c o : IoConnection :=
  match ob_cur o with
  | Some (x, _) => cset_current_push (Some (q_node x)) c
  | None => write_idle (cset_current_push None c)
  end.

Lemma next_push_outbox c w x k xs :
  c_current_push c = Some (q_node x) → world_out (Some (q_node x)) w (mkOutbox (Some (x, k)) xs) →
  ∃ w', next_push c w = Ret (after_write c (ob_next xs), w') ∧
    world_out (cur_ptr (ob_next xs)) w' (ob_next xs) ∧
    touches (q_msg <$> x :: xs) (q_node <$> x :: xs) w w'.
Proof.
  intros Hcur [Hq (_ & Hf & Hd & Hm)]. cbn [ob_queue] in *. destruct Hf as (nd & mm & E1 & E2 & H1 & _).
  unfold next_push. cbn [w_msgs w_pushes w_set_heaps getPushData app_virtual]. rewrite Hcur.
  unfold destroyMsgData. rewrite (load_Some _ _ _ E1). cbn [obind]. destruct (pd_freev nd). cbn [freev_call].
  unfold releaseIMessage, destroyPushData. rewrite H1, (dealloc_Some _ _ _ E2). cbn [obind].
  rewrite (dealloc_Some _ _ _ E1). cbn [obind].
  set (w1 := aw_set_heaps _ _ w).
  assert (touches (q_msg <$> x :: xs) (q_node <$> x :: xs) w w1) as Ht1
    by (apply touches_heaps; apply same_outside_delete; set_solver).
  destruct (app_getPushData_outbox w1 xs) as (w' & -> & Hout & Ht).
  { split; [|done]. eapply queued_frame; [| |exact Hq]; intros l Hl; apply lookup_delete_ne; set_solver. }
  cbn [obind]. exists w'. split; [|split; [done|]].
  - unfold after_write, cur_ptr. by destruct xs as [|y xs].
  - eapply touches_trans; [exact Ht1|]. eapply touches_weaken; [| |exact Ht]; set_solver.
Qed.

Definition sends_ok (sends : list send_event) : Prop := Forall (λ e, e ≠ SendError) sends.

(** The kernel takes at least one byte. *)
Definition accepts (sends : list send_event) : Prop := ∃ n sends', sends = SendTakes n :: sends'.

Lemma send_retry_ok fd len sends :
  fd ≠ -1 → sends_ok sends → (0 < len)%nat →
  ∃ sends', sends_ok sends' ∧
    (((send_retry fd len sends = (SendBlocked, sends') ∨ send_retry fd len sends = (SentZero, sends')) ∧
      (accepts sends → False)) ∨
     (∃ n, send_retry fd len sends = (Sent n, sends') ∧ (0 < n ≤ len)%nat)).
Proof.
  intros Hfd Hok Hlen. induction Hok as [|e sends He Hok IH].
  - exists []. split; [constructor|]. left. cbn. rewrite (proj2 (Z.eqb_neq _ _)) by done.
    split; [by left|]. by intros (? & ? & ?).
  - cbn [send_retry]. rewrite (proj2 (Z.eqb_neq _ _)) by done. destruct e as [n| | | |].
    + exists sends. split; [done|]. right. eexists. split; [done|]. lia.
    + exists sends. split; [done|]. left. split; [by right|]. by intros (? & ? & ?).
    + exists sends. split; [done|]. left. split; [by left|]. by intros (? & ? & ?).
    + destruct IH as (sends' & H1 & [[H2 _]|H2]); exists sends'; (split; [done|]); [left|by right].
      split; [done|]. by intros (? & ? & ?).
    + done.
Qed.

(** Recording that [n] more bytes of the current frame are sent. *)
Lemma advance_current w x k n xs :
  world_out (Some (q_node x)) w (mkOutbox (Some (x, k)) xs) → (n ≤ length (q_frame x) - k)%nat →
  ∃ nd, aw_pushes w !! q_node x = Some nd ∧
    let w' := aw_set_heaps (aw_msgs w)
                (<[q_node x := pd_set_wpos (pd_wpos nd + Z.of_nat n) nd]> (aw_pushes w)) w in
    world_out (Some (q_node x)) w' (mkOutbox (Some (x, k + n)%nat) xs) ∧
    touches (q_msg <$> x :: xs) (q_node <$> x :: xs) w w'.
Proof.
  intros [Hq (_ & (nd & mm & E1 & E2 & H1 & H2 & H3 & H4 & H5 & H6 & H7) & Hd & Hm)] Hn.
  exists nd. split; [done|]. split; [split; [|split; [done|split; [|done]]]|].
  - eapply queued_frame; [done| |exact Hq]. intros l Hl. apply lookup_insert_ne. set_solver.
  - eexists _, mm. split; [apply lookup_insert_eq|]. split; [done|]. cbn.
    split_and!; try done; lia.
  - apply touches_heaps; [done|]. apply same_outside_insert. set_solver.
Qed.

Lemma read_frame_part (b : buffer) bs rest k n :
  b = (Some <$> bs) ++ rest → (k + n ≤ length bs)%nat →
  read_bytes b (Z.of_nat k) (Z.of_nat n) = Ret (take n (drop k bs)).
Proof.
  intros -> Hl.
  pose proof (read_bytes_mid (take k bs) (take n (drop k bs)) ((Some <$> drop n (drop k bs)) ++ rest)) as H.
  rewrite length_take, Nat.min_l in H by lia.
  rewrite length_take, length_drop, Nat.min_l in H by lia. rewrite <-H. f_equal.
  rewrite !app_assoc, <-!fmap_app, <-app_assoc. by rewrite !take_drop.
Qed.

(** The outbox does not grow, and shrinks when the kernel takes something. *)
Definition ob_shrinks (sends : list send_event) o o' : Prop :=
  (ob_measure o' ≤ ob_measure o)%nat ∧ (accepts sends → ob_all o ≠ [] → (ob_measure o' < ob_measure o)%nat).

(** A writable event on an open connection: bytes move from the outbox to the
    socket, in order, and nothing outside the outbox is touched. *)
Definition wrote (c : IoConnection) w net o (c' : IoConnection) w' net' o' : Prop :=
  c' = after_write c o' ∧ world_out (c_current_push c') w' o' ∧
  net_out net' ++ ob_bytes o' = net_out net ++ ob_bytes o ∧ sends_ok (net_send net') ∧
  ob_all o' `suffix_of` ob_all o ∧ (ob_cur o' = None → ob_queue o' = []) ∧
  touches (ob_msgs o) (ob_nodes o) w w' ∧ ob_shrinks (net_send net) o o'.

Lemma ob_shrinks_lt sends o o' : (ob_measure o' < ob_measure o)%nat → ob_shrinks sends o o'.
Proof. unfold ob_shrinks. lia. Qed.

Lemma after_write_push c o : c_current_push (after_write c o) = cur_ptr o.
Proof.
  unfold after_write, cur_ptr. destruct (ob_cur o) as [[x k]|]; [done|].
  unfold write_idle, _setRead, setReadFlag, _setWrite, setWriteFlag. cbn. repeat case_match; done.
Qed.

(** The frame being sent is done. *)
Lemma next_push_wrote c w0 net0 w net' x k k' xs :
  net_out net' = net_out net0 ++ drop k (q_frame x) → sends_ok (net_send net') →
  touches (q_msg <$> x :: xs) (q_node <$> x :: xs) w0 w →
  c_current_push c = Some (q_node x) → world_out (Some (q_node x)) w (mkOutbox (Some (x, k')) xs) →
  ∃ c' w', next_push c w = Ret (c', w') ∧
    wrote c w0 net0 (mkOutbox (Some (x, k)) xs) c' w' net' (ob_next xs).
Proof.
  intros Hn Hok Ht0 Hcur Ho. destruct (next_push_outbox c w x k' xs Hcur Ho) as (w' & -> & Ho' & Ht).
  eexists _, w'. split; [done|]. split; [done|]. rewrite after_write_push. split; [done|].
  split; [|split; [done|split; [|split; [apply ob_next_idle|split]]]].
  - rewrite Hn, ob_next_bytes. unfold ob_bytes, ob_left. cbn [ob_cur ob_queue]. by rewrite app_assoc.
  - rewrite ob_next_all. by exists [x].
  - unfold ob_msgs, ob_nodes. cbn [ob_all ob_cur ob_queue]. by eapply touches_trans.
  - apply ob_shrinks_lt. unfold ob_measure. rewrite ob_next_all, ob_next_bytes. unfold ob_bytes, ob_left.
    cbn [ob_all ob_cur ob_queue length]. rewrite length_app. lia.
Qed.

Lemma cset_current_push_id c p : c_current_push c = p → cset_current_push p c = c.
Proof. intros <-. by destruct c. Qed.

Lemma send_current_outbox c w net x k xs :
  c_socket c ≠ -1 → c_current_push c = Some (q_node x) →
  world_out (Some (q_node x)) w (mkOutbox (Some (x, k)) xs) → sends_ok (net_send net) →
  ∃ c' w' net' o', send_current c w net = Ret (c', w', net') ∧
    wrote c w net (mkOutbox (Some (x, k)) xs) c' w' net' o'.
Proof.
  intros Hs Hcur Ho Hok. pose proof Ho as [_ (_ & Hf & _)].
  destruct Hf as (nd & mm & E1 & E2 & H1 & H2 & H3 & H4 & H5 & H6 & rest & H7).
  set (o := mkOutbox (Some (x, k)) xs) in *.
  unfold send_current. cbn [w_msgs w_pushes w_set_heaps app_virtual].
  rewrite Hcur, (load_Some _ _ _ E1). cbn [obind]. rewrite H1, (load_Some _ _ _ E2). cbn [obind].
  rewrite H6. cbn [Z.eqb negb]. rewrite H3, H4.
  set (bs := q_frame x) in *.
  destruct (Z.ltb_spec 0 (Z.of_nat (length bs) - Z.of_nat k)) as [Hlt|Hge].
  - set (len := Z.to_nat _).
    destruct (send_retry_ok (c_socket c) len (net_send net) Hs Hok) as
      (sends' & Hok' & [[Hno Hacc]|(n & -> & Hn)]); [lia| |].
    + assert (wrote c w net o c w {| net_in := net_in net; net_send := sends'; net_out := net_out net;
        net_so_error := net_so_error net |} o) as Hsame.
      { split; [symmetry; exact (cset_current_push_id _ _ Hcur)|]. rewrite Hcur. split; [done|].
        split; [done|]. split; [done|]. split; [done|]. split; [done|]. split; [apply touches_refl|].
        split; [done|]. intros Ha. by destruct (Hacc Ha). }
      destruct Hno as [-> | ->]; eauto 10.
    + rewrite H2, (load_Some _ _ _ E2). cbn [obind].
      rewrite (read_frame_part _ bs rest k n H7) by lia. cbn [obind].
      destruct (advance_current w x k n xs Ho) as (nd' & E1' & Ho' & Ht'); [fold bs; lia|].
      assert (nd' = nd) as -> by congruence. rewrite (store_Some _ _ _ _ E1). cbn [obind].
      rewrite H4 in Ho', Ht'. set (w1 := aw_set_heaps _ _ w) in *.
      destruct (Z.eqb_spec (Z.of_nat (length bs) - Z.of_nat k - Z.of_nat n) 0) as [He|He].
      * destruct (next_push_wrote c w net w1 {| net_in := net_in net; net_send := sends';
          net_out := net_out net ++ take n (drop k bs); net_so_error := net_so_error net |} x k (k + n) xs)
          as (c' & w' & -> & Hw); try done.
        { cbn [net_out]. by rewrite take_ge by (rewrite length_drop; lia). }
        cbn [obind]. eauto 10.
      * eexists c, w1, _, (mkOutbox (Some (x, k + n)%nat) xs). split; [done|].
        split; [symmetry; exact (cset_current_push_id _ _ Hcur)|]. rewrite Hcur. split; [done|].
        unfold ob_bytes, ob_left. cbn [net_out net_send ob_cur ob_queue]. fold bs.
        split; [|split; [done|split; [done|split; [done|split; [done|]]]]].
        { rewrite <-app_assoc. f_equal. rewrite app_assoc. f_equal. by rewrite <-drop_drop, take_drop. }
        apply ob_shrinks_lt. unfold ob_measure, ob_bytes, ob_left. cbn [ob_all ob_cur ob_queue]. fold bs.
        rewrite !length_app, !length_drop. unfold o. cbn [ob_all ob_cur ob_queue]. fold bs.
        rewrite length_drop. lia.
  - rewrite (proj2 (Z.eqb_eq _ _)) by lia.
    destruct (next_push_wrote c w net w net x k k xs) as (c' & w' & -> & Hw); try done.
    { by rewrite drop_ge, app_nil_r by (fold bs; lia). }
    { apply touches_refl. }
    cbn [obind]. eauto 10.
Qed.

(** A frame taken from the queue counts as one the connection had. *)
Lemma wrote_fetched c w w1 net xs c' w' net' o' :
  touches (q_msg <$> xs) (q_node <$> xs) w w1 → xs ≠ [] →
  wrote (cset_current_push (cur_ptr (ob_next xs)) c) w1 net (ob_next xs) c' w' net' o' →
  wrote c w net (mkOutbox None xs) c' w' net' o'.
Proof.
  intros Ht Hne (-> & Ho & Hb & Hok & Hsuf & Hidle & Ht' & Hm). unfold ob_msgs, ob_nodes in Ht'.
  unfold ob_shrinks, ob_measure in Hm. rewrite ob_next_all in *. rewrite ob_next_bytes in *.
  assert (∀ p, after_write (cset_current_push p c) o' = after_write c o') as Ha.
  { intros p. unfold after_write. by destruct (ob_cur o') as [[x k]|]. }
  rewrite Ha in *. split; [done|]. split; [done|]. split; [done|]. split; [done|]. split; [done|].
  split; [done|]. split; [|exact Hm]. by eapply touches_trans.
Qed.

Lemma writeSocket_outbox c w net o :
  c_socket c ≠ -1 → c_wsock_state c = SOCKET_DATA_WRITE →
  world_out (c_current_push c) w o → sends_ok (net_send net) →
  ∃ c' w' net' o', writeSocket c w net = Ret (c', w', net') ∧ wrote c w net o c' w' net' o'.
Proof.
  intros Hs Hst Ho Hok. unfold writeSocket. rewrite Hst. unfold write_data_state.
  pose proof (outbox_cur _ _ _ _ _ Ho) as Hcur. unfold cur_ptr in Hcur.
  destruct o as [[[x k]|] xs]; cbn [ob_cur] in Hcur; cbn [fmap option_fmap option_map compose fst] in Hcur.
  - rewrite Hcur in *. by eapply send_current_outbox.
  - rewrite Hcur in *. cbn [getPushData app_virtual].
    destruct (app_getPushData_outbox w xs Ho) as (w1 & -> & Ho1 & Ht). cbn [obind].
    destruct xs as [|x xs]; cbn [cur_ptr ob_next ob_cur fmap option_fmap option_map compose fst] in *.
    + exists (after_write c (mkOutbox None [])), w1, net, (mkOutbox None []). split; [done|]. split; [done|].
      rewrite after_write_push. split; [exact Ho1|]. split; [done|]. split; [done|]. split; [done|].
      split; [done|]. split; [done|]. split; [done|]. by intros _ ?.
    + destruct (send_current_outbox (cset_current_push (Some (q_node x)) c) w1 net x 0 xs)
        as (c' & w' & net' & o' & -> & Hw); try done.
      eexists c', w', net', o'. split; [done|]. by eapply wrote_fetched.
Qed.

(** What a writable event leaves alone in the connection. *)
Lemma after_write_fields c o :
  let c' := after_write c o in
  c_wsock_state c' = c_wsock_state c ∧ c_socket c' = c_socket c ∧ c_destroy c' = c_destroy c ∧
  c_id c' = c_id c ∧ c_io c' = c_io c ∧ c_when_destroy c' = c_when_destroy c ∧ c_wtimeout c' = c_wtimeout c.
Proof.
  unfold after_write. destruct (ob_cur o) as [[x k]|]; [done|].
  unfold write_idle, _setRead, setReadFlag, _setWrite, setWriteFlag. cbn. repeat case_match; done.
Qed.

Lemma ob_snoc_all o x : ob_all (ob_snoc o x) = ob_all o ++ [x].
Proof. unfold ob_all, ob_snoc. cbn. by destruct (ob_cur o) as [[y k]|]. Qed.

Lemma ob_snoc_bytes o x : ob_bytes (ob_snoc o x) = ob_bytes o ++ q_frame x.
Proof.
  unfold ob_bytes, ob_snoc, ob_left. cbn. rewrite fmap_app, join_app. cbn.
  by rewrite app_nil_r, app_assoc.
Qed.

(** A message ready to be pushed: its frame is [bs] and it does not ask for the
    connection to be closed. *)
Definition frame_ready (mh : mheap) (l : loc) (bs : list Z) : Prop :=
  ∃ m, mh !! l = Some m ∧ msg_close_conn m = 0 ∧ msg_frame_len m = Z.of_nat (length bs) ∧
    ∃ rest, msg_b m = (Some <$> bs) ++ rest.

Lemma pushMsgData_outbox cur w o l bs :
  world_out cur w o → frame_ready (aw_msgs w) l bs → l ∉ ob_msgs o →
  ∃ w' d, IoAppConnection_pushMsgData w (Some l) = Ret w' ∧ aw_pushes w !! d = None ∧
    world_out cur w' (ob_snoc o (d, l, bs)) ∧ touches (l :: ob_msgs o) (d :: ob_nodes o) w w'.
Proof.
  intros [[Hq HF] Hcur] (m & El & Hc & Hlen & Hb) Hl.
  unfold IoAppConnection_pushMsgData. rewrite (load_Some _ _ _ El). cbn [obind].
  set (nd := mkPushData None (Some l) free_releaseIMessage (Some l) (msg_frame_len m) 0).
  destruct (createPushData (aw_pushes w) nd) as [d ph] eqn:Ea.
  apply alloc_fresh in Ea as [Ed ->]. set (xs := ob_queue o) in *.
  assert (∀ y k, frame_of (aw_msgs w) (aw_pushes w) (q_node y) (q_msg y) (q_frame y) k → q_node y ≠ d) as Hne
    by (intros y k (n & mm & E1 & _); congruence).
  assert (d ∉ (q_node <$> xs)) as Hnd.
  { intros (x & Hx & Hin)%list_elem_of_fmap. rewrite Forall_forall in HF. by apply (Hne x O (HF x Hin)). }
  assert (l ∉ (q_msg <$> xs)) as Hnl.
  { intros Hin. apply Hl. unfold ob_msgs, ob_all. destruct (ob_cur o) as [[y k]|]; [set_solver|done]. }
  assert (pl_rep (aw_msgs w) (<[d:=nd]> (aw_pushes w)) (ap_push_buffer (aw_app w))
            (q_node <$> xs) (q_msg <$> xs)) as Hq1.
  { eapply pl_rep_frame; [done| |exact Hq]. intros y Hy. apply lookup_insert_ne. set_solver. }
  destruct (pl_put_spec _ _ _ _ _ d l nd Hq1) as (mh' & ph' & q' & -> & Hq' & Hrm & Hrp);
    [apply lookup_insert_eq|done|by eexists|done|done|].
  cbn [obind]. eexists _, d. split; [done|]. split; [done|].
  assert (∀ y k, frame_of (aw_msgs w) (aw_pushes w) (q_node y) (q_msg y) (q_frame y) k →
            frame_of mh' ph' (q_node y) (q_msg y) (q_frame y) k) as Hkeep.
  { intros y k H. apply (frame_of_relinks _ _ _ _ _ _ _ _ _ _ Hrm Hrp).
    eapply frame_of_frame; [done| |exact H]. apply lookup_insert_ne. intros ->. by apply (Hne y k H). }
  split; [split|].
  - split; [cbn; by rewrite !fmap_app|]. apply Forall_app. split.
    + eapply Forall_impl; [exact HF|]. intros y. apply Hkeep.
    + constructor; [|constructor]. apply (frame_of_relinks _ _ _ _ _ _ _ _ _ _ Hrm Hrp).
      exists nd, m. split; [apply lookup_insert_eq|]. split; [done|]. cbn. split_and!; try done. lia.
  - cbn [ob_cur ob_snoc ob_queue]. destruct (ob_cur o) as [[y k]|] eqn:Eo; [|done].
    destruct Hcur as (-> & Hf & H1 & H2). split; [done|]. split; [by apply Hkeep|]. fold xs.
    rewrite !fmap_app. unfold ob_msgs, ob_all in Hl. rewrite Eo in Hl. specialize (Hne _ _ Hf). set_solver.
  - assert (q_msg <$> xs ⊆ ob_msgs o ∧ q_node <$> xs ⊆ ob_nodes o) as [Hs1 Hs2].
    { unfold ob_msgs, ob_nodes, ob_all. destruct (ob_cur o) as [[y k]|]; set_solver. }
    eexists mh', ph', q'. split; [done|]. split.
    + eapply same_outside_weaken; [|by apply relinks_outside]. set_solver.
    + eapply same_outside_trans; [|eapply same_outside_weaken; [|by apply relinks_outside]]; [|set_solver].
      apply same_outside_insert. set_solver.
Qed.

(** The same on the bytes. *)
Lemma app_writeSocket_spec c w net out :
  c_socket c ≠ -1 → c_wsock_state c = SOCKET_DATA_WRITE →
  out_rep (c_current_push c) w out → sends_ok (net_send net) →
  ∃ c' w' net' out', writeSocket c w net = Ret (c', w', net') ∧
    out_rep (c_current_push c') w' out' ∧ net_out net' ++ out' = net_out net ++ out ∧
    c_wsock_state c' = SOCKET_DATA_WRITE ∧ c_socket c' = c_socket c.
Proof.
  intros Hs Hst (o & Ho & ->) Hok.
  destruct (writeSocket_outbox c w net o Hs Hst Ho Hok) as (c' & w' & net' & o' & Hw & -> & Ho' & Hb & _).
  destruct (after_write_fields c o') as (F1 & F2 & _).
  eexists _, w', net', (ob_bytes o'). split; [done|]. split; [by exists o'|]. split; [done|]. by rewrite F1.
Qed.

Lemma app_pushMsgData_spec cur w out l m bs :
  out_rep cur w out → aw_msgs w !! l = Some m → msg_close_conn m = 0 →
  msg_frame_len m = Z.of_nat (length bs) → (∃ rest, msg_b m = (Some <$> bs) ++ rest) →
  (∀ d nd, aw_pushes w !! d = Some nd → pd_msg nd ≠ Some l) →
  ∃ w', IoAppConnection_pushMsgData w (Some l) = Ret w' ∧ out_rep cur w' (out ++ bs).
Proof.
  intros (o & Ho & ->) El Hc Hlen Hb Hfree.
  destruct (pushMsgData_outbox cur w o l bs Ho) as (w' & d & Hp & _ & Ho' & _).
  - by exists m.
  - exact (outbox_not_carried _ _ _ _ o l Ho Hfree).
  - exists w'. split; [done|]. eexists. split; [done|]. by rewrite ob_snoc_bytes.
Qed.

Definition with_sends (sends : list send_event) (net : socket_io) : socket_io :=
  {| net_in := net_in net; net_send := sends; net_out := net_out net;
     net_so_error := net_so_error net |}.

(** Histories of an open connection: frames are pushed, and the socket becomes
    writable and takes some bytes.  [pushed] are the bytes of the frames pushed
    so far. *)
Inductive sending : list Z → IoConnection → app_world S D → socket_io → Prop :=
| sending_init c w net :
    c_socket c ≠ -1 → c_wsock_state c = SOCKET_DATA_WRITE →
    c_current_push c = None → ap_push_buffer (aw_app w) = IoPushList_new →
    net_out net = [] → sending [] c w net
| sending_push pushed c w net l m bs w' :
    sending pushed c w net → aw_msgs w !! l = Some m → msg_close_conn m = 0 →
    msg_frame_len m = Z.of_nat (length bs) → (∃ rest, msg_b m = (Some <$> bs) ++ rest) →
    (∀ d nd, aw_pushes w !! d = Some nd → pd_msg nd ≠ Some l) →
    IoAppConnection_pushMsgData w (Some l) = Ret w' → sending (pushed ++ bs) c w' net
| sending_write pushed c w net sends c' w' net' :
    sending pushed c w net → sends_ok sends →
    writeSocket c w (with_sends sends net) = Ret (c', w', net') →
    sending pushed c' w' net'.

Lemma sending_invariant pushed c w net :
  sending pushed c w net →
  c_socket c ≠ -1 ∧ c_wsock_state c = SOCKET_DATA_WRITE ∧
  ∃ out, out_rep (c_current_push c) w out ∧ pushed = net_out net ++ out.
Proof.
  induction 1 as [c w net Hs Hst Hc Hq Hn
    |pushed c w net l m bs w' _ (Hs & Hst & out & Ho & ->) El Hcl Hlen Hb Hfree Hp
    |pushed c w net sends c' w' net' _ (Hs & Hst & out & Ho & ->) Hok Hw].
  - split; [done|]. split; [done|]. exists []. rewrite Hc, Hn. split; [|done].
    exists (mkOutbox None []). unfold world_out. rewrite Hq.
    split; [|done]. split; [|done]. split; [apply pl_new_rep|constructor].
  - split; [done|]. split; [done|].
    destruct (app_pushMsgData_spec _ _ _ _ _ _ Ho El Hcl Hlen Hb Hfree) as (w2 & Hp' & Ho').
    rewrite Hp in Hp'. injection Hp' as <-. exists (out ++ bs). by rewrite app_assoc.
  - destruct (app_writeSocket_spec c w (with_sends sends net) out Hs Hst Ho Hok)
      as (c2 & w2 & net2 & out2 & Hw' & Ho2 & Hn & Hst2 & Hs2).
    rewrite Hw in Hw'. injection Hw' as <- <- <-. rewrite Hs2. split; [done|]. split; [done|].
    exists out2. by rewrite Hn.
Qed.
End out.

(** ** Closing *)
Section close.
Context {S D : Type}.
Implicit Types (w : app_world S D).

(** [whenClosed] up to the choice between collecting and dropping: the pending
    node is put back in front. *)
Definition closing_rep w (ds ms : list loc) : Prop :=
  match ap_pending_data (aw_app w) with
  | None => pl_rep (aw_msgs w) (aw_pushes w) (ap_push_buffer (aw_app w)) ds ms
  | Some d => ∃ ds' m ms' nd, ds = d :: ds' ∧ ms = m :: ms' ∧
      pl_rep (aw_msgs w) (aw_pushes w) (ap_push_buffer (aw_app w)) ds' ms' ∧
      aw_pushes w !! d = Some nd ∧ pd_msg nd = Some m ∧ is_Some (aw_msgs w !! m) ∧
      (d ∉ ds') ∧ (m ∉ ms')
  end.

Lemma closing_spec w ds ms :
  closing_rep w ds ms →
  ∃ mh ph q,
    match ap_pending_data (aw_app w) with
    | None => Ret (aw_msgs w, aw_pushes w, ap_push_buffer (aw_app w))
    | Some _ => IoPushList_putFirst (aw_msgs w) (aw_pushes w) (ap_push_buffer (aw_app w))
                  (ap_pending_data (aw_app w))
    end = Ret (mh, ph, q) ∧ pl_rep mh ph q ds ms ∧
    relinks (aw_msgs w) mh ms ∧ relinks (aw_pushes w) ph ds.
Proof.
  unfold closing_rep. destruct (ap_pending_data (aw_app w)) as [d|].
  - intros (ds' & m & ms' & nd & -> & -> & Hq & Ed & Em & Hm & Hd & Hnm).
    destruct (pl_putFirst_spec _ _ _ _ _ d m nd Hq Ed Em Hm Hd Hnm) as (mh & ph & q & ? & ? & ? & ?).
    exists mh, ph, q. done.
  - intros Hq. eexists _, _, _. split; [done|]. split; [done|].
    split; apply relinks_refl.
Qed.
End close.

Section frames.
Context {S D : Type} {HS : IoProcessor S} {HD : ConnOwner D}.
Implicit Types (w : app_world S D) (c : IoConnection).

(** The message a frame becomes. *)
Definition frame_message c w (m : IMessage) : IMessage :=
  set_gen_time (Some (aw_now w)) (set_type (Some (bits 2 APP)) (set_conn (c_id c)
    (set_io (c_io c) (set_state (Some (ap_state (aw_app w))) m)))).

Definition frame_word (f : list Z) : Z := i32 (le_value (take 4 (drop 4 f))).

(** The second word of a frame in the buffer. *)
Lemma read_second_word (b : buffer) off f :
  read_bytes b off (Z.of_nat (length f)) = Ret f → (8 ≤ length f)%nat →
  read_bytes b (off + 4) 4 = Ret (take 4 (drop 4 f)).
Proof.
  unfold read_bytes. intros H Hl. destruct (in_bounds b off _) eqn:Hb; [|done].
  apply in_bounds_true in Hb as (H1 & H2 & H3).
  rewrite (proj2 (in_bounds_true _ _ _)) by lia.
  rewrite Nat2Z.id in H. replace (Z.to_nat (off + 4)) with (Z.to_nat off + 4)%nat by lia.
  rewrite <-drop_drop. set (b' := drop (Z.to_nat off) b) in *.
  destruct (mapM id (take (length f) b')) as [g|] eqn:Em; [|done]. injection H as ->.
  assert (take (length f) b' = Some <$> f) as Ht.
  { clear -Em. apply mapM_Some in Em. revert Em. generalize (take (length f) b').
    intros xs HF. induction HF as [|o y xs ys Hy HF IH]; [done|]. cbn. unfold id in Hy.
    by rewrite Hy, IH. }
  change (Z.to_nat 4) with 4%nat.
  replace (take 4 (drop 4 b')) with (take 4 (drop 4 (take (length f) b'))).
  - rewrite Ht, <-fmap_drop, <-fmap_take, mapM_id_Some. done.
  - rewrite <-(take_drop (length f) b') at 2.
    assert (length (take (length f) b') = length f) as Hlt by (by rewrite Ht, length_fmap).
    rewrite drop_app_le, take_app_le by (rewrite ?length_drop; lia). done.
Qed.

(** What the handler does with the frame [f] alone in a buffer. *)
Definition app_frame (io id : Z) w (f : list Z) : outcome (Z * app_world S D) :=
  IoAppConnection_whenReceivedFrame (cset_rbuf (Some <$> f) (cset_io io (cset_id id IoConnection_new)))
    w 0 (Z.of_nat (length f)).

Lemma read_whole (f : list Z) : read_bytes (Some <$> f) 0 (Z.of_nat (length f)) = Ret f.
Proof. pose proof (read_bytes_mid [] f []) as H. cbn [fmap list_fmap app] in H. by rewrite app_nil_r in H. Qed.

(** It sees nothing of the connection but the frame. *)
Lemma app_frame_local io id c w off size f :
  c_io c = io → c_id c = id → good_frame f → read_bytes (c_rbuf c) off size = Ret f → Z.of_nat (length f) = size →
  whenReceivedFrame c w off size = app_frame io id w f.
Proof.
  intros <- <- [Hl _] Hr <-. cbn [whenReceivedFrame app_virtual]. unfold app_frame, IoAppConnection_whenReceivedFrame.
  cbn [c_rbuf cset_rbuf c_io c_id cset_io cset_id].
  rewrite (read_second_word _ _ _ Hr), (read_second_word _ 0 f (read_whole f)) by lia. cbn [obind].
  unfold message_from. by rewrite Hr, read_whole.
Qed.

Lemma app_frame_accept c w off f hour ts :
  read_bytes (c_rbuf c) off (Z.of_nat (length f)) = Ret f → (8 ≤ length f ≤ 1024)%nat →
  sampling_rep (ap_sampling (aw_app w)) hour ts → 0 ≤ fst (aw_now w) →
  frame_word f = magic →
  ∃ stat sm, IoSampling_getSample (ap_sampling (aw_app w)) (fst (aw_now w)) = Ret (stat, sm) ∧
    let w1 := aw_set_app (ap_with_sampling sm (aw_app w)) w in
    (over_limit (aw_app w) stat = true →
       IoAppConnection_whenReceivedFrame c w off (Z.of_nat (length f)) = Ret (-1, w1)) ∧
    (over_limit (aw_app w) stat = false →
       ∃ l m, aw_msgs w !! l = None ∧ wf_msg m ∧ read_data m = Ret (drop 8 f) ∧
         IoAppConnection_whenReceivedFrame c w off (Z.of_nat (length f)) =
           let* (mh, s) := process (<[l := frame_message c w m]> (aw_msgs w)) (aw_proc w) (Some l) in
           let* sm' := IoSampling_sample sm (fst (aw_now w)) in
           Ret (0, aw_set_app (ap_with_sampling sm' (aw_app w))
                     (aw_set_proc s (aw_set_heaps mh (aw_pushes w) w)))).
Proof.
  intros Hr Hl Hsm Hnow Hmag. unfold IoAppConnection_whenReceivedFrame.
  rewrite (read_second_word _ _ _ Hr) by lia. cbn [obind].
  change (i32 (le_value (take 4 (drop 4 f)))) with (frame_word f).
  rewrite Hmag, Z.eqb_refl.
  destruct (getSample_spec _ _ _ (fst (aw_now w)) Hsm) as (sm & Hg & _);
    [unfold utcToLocal, TIMEZONE_FIX_SECONDS; lia|].
  rewrite Hg. eexists _, sm. split; [done|]. cbn [obind].
  set (stat := {| sec_total := _ |}).
  change (over_limit (aw_app (aw_set_app (ap_with_sampling sm (aw_app w)) w)) stat)
    with (over_limit (aw_app w) stat).
  split; intros ->; [done|].
  unfold message_from. rewrite (proj2 (Z.ltb_ge _ _)) by lia. rewrite Hr. cbn [obind].
  destruct (createIMessage_frame_spec (aw_msgs w) f) as (l & m & Hc & Hn & Hwf & Hd & _); [lia|].
  exists l, m. split; [done|]. split; [done|]. split; [done|].
  change (aw_msgs (aw_set_app (ap_with_sampling sm (aw_app w)) w)) with (aw_msgs w).
  rewrite Hc. cbn [obind]. unfold modify.
  rewrite (load_Some _ l m) by apply lookup_insert_eq. cbn [obind].
  rewrite (store_Some _ _ m) by apply lookup_insert_eq. cbn [obind].
  rewrite insert_insert_eq. fold (frame_message c w m). done.
Qed.
End frames.

(** A processor that collects what it is given and an owner that counts, for the
    concrete instances below. *)
Definition list_processor : IoProcessor (list ptr) :=
  {| process mh s msg := Ret (mh, s ++ [msg]) |}.
Definition count_owner : ConnOwner nat := {| owner_destroy _ _ d := Ret (d + 1)%nat |}.

Definition wit_world (msgs : mheap) (collector : option MsMessageBlockQueue)
    : app_world (list ptr) nat :=
  mkWorld 1%positive (mkApp 0 (IoSampling_new 0) IoPushList_new None 3 30 500)
    msgs ∅ [] collector (0, 0) 0%nat.

(** An open connection with nothing in its buffer, and a chat frame. *)
Definition fresh_conn : IoConnection := cset_when_destroy true (IoConnection_initialize IoConnection_new 3 0 7).
Definition wit_app_frame : list Z := [0; 0; 0; 5; 0x6D; 0x69; 0x6D; 0x69; 42].

(** ** Properties *)

(** C1: whatever way the byte stream of a client is cut into chunks and interleaved with
    interruptions and empty reads, reading it to the end hands exactly the complete frames
    to [whenReceivedFrame], each once and in order, keeps the incomplete rest in the buffer
    for the next read, touches no memory outside the buffer, and ends; unless what one read
    leaves in the buffer ends in a piece of a frame that is longer than the complete frames
    before it.  Then, and only then, the behaviour is undefined: the piece is moved with a
    [memcpy] of overlapping ranges.  (The frames are those of clients that keep the format:
    a header of eight bytes and a size that fits the buffer.) *)
Theorem app_reads_stream {S D} (HS : IoProcessor S) (HD : ConnOwner D) io id
    c (w : app_world S D) net P fs tail wN
    (Hc : conn_ok io id c P) (Hl : live (net_in net))
    (Hstream : P ++ in_bytes (net_in net) = mjoin fs ++ tail)
    (Hfs : Forall good_frame fs) (Ht : incomplete tail)
    (Hacc : feeds (app_frame io id) w fs wN) :
  let read := drain (in_measure (net_in net)) 256 c w net in
  (¬ stumbles io id 256 c w net ∧ ∃ c', read = Ret (c', wN, net_set_in [] net) ∧ conn_ok io id c' tail) ∨
  (stumbles io id 256 c w net ∧ read = Fault).
Proof.
  exact (drain_ok io id (app_frame io id) (app_frame_local io id) _ _ c w net P fs tail wN
    Hc (le_n _) Hstream Hfs Ht Hacc Hl (le_n _)).
Qed.

(** Two frames and the first two bytes of a third, in chunks that respect no boundary; and
    a frame with twelve bytes of a longer one behind it, in one chunk. *)
Lemma app_reads_stream_witness :
  let HS := list_processor in let HD := count_owner in
  let f := wit_app_frame in let w := wit_world ∅ None in
  let net ins := {| net_in := ins; net_send := []; net_out := []; net_so_error := 0 |} in
  let cut := net [RecvData [0; 0; 0]; RecvEintr; RecvData ([5; 0x6D; 0x69; 0x6D; 0x69; 42] ++ take 4 f);
                  RecvEagain; RecvData (drop 4 f ++ [0; 0])] in
  let bad := net [RecvData (f ++ [0; 0; 0; 20; 0x6D; 0x69; 0x6D; 0x69; 1; 2; 3; 4])] in
  (∃ c' w' l1 l2, drain (in_measure (net_in cut)) 256 fresh_conn w cut = Ret (c', w', net_set_in [] cut) ∧
    aw_proc w' = [Some l1; Some l2] ∧ conn_ok 0 7 c' [0; 0]) ∧
  drain (in_measure (net_in bad)) 256 fresh_conn w bad = Fault.
Proof.
  intros HS HD f w net cut bad.
  assert (conn_ok 0 7 fresh_conn []) as Hc.
  { split; [|split; [|by left]].
    - split; [done|]. split; [done|]. split; [done|]. split; [done|]. split; [done|]. by exists (raw_buffer 1024).
    - exists f. split; [done|]. split; [simpl; lia|]. reflexivity. }
  assert (good_frame f) as Hf by (split; [simpl; lia|reflexivity]).
  assert (∃ wN l1 l2, feeds (app_frame 0 7) w [f; f] wN ∧ aw_proc wN = [Some l1; Some l2]) as (wN & l1 & l2 & Hacc & Hpr).
  { eexists _, _, _. split; [|].
    - econstructor; [vm_compute; reflexivity|done|]. econstructor; [vm_compute; reflexivity|done|]. constructor.
    - reflexivity. }
  assert (∃ w1, feeds (app_frame 0 7) w [f] w1) as [w1 Hacc1].
  { inversion Hacc as [|? ? ? r w1 ? H1 H2 _]; subst. exists w1. econstructor; [exact H1|exact H2|constructor]. }
  split.
  - destruct (app_reads_stream HS HD 0 7 fresh_conn w cut [] [f; f] [0; 0] wN Hc) as [(_ & c' & Hr & Hc')|[_ Hr]].
    + by repeat constructor.
    + reflexivity.
    + by repeat (constructor; [exact Hf|]).
    + exists [0; 5; 0x6D; 0x69; 0x6D; 0x69; 42]. split; [done|]. split; [simpl; lia|]. reflexivity.
    + exact Hacc.
    + exists c', wN, l1, l2. split; [exact Hr|]. split; [exact Hpr|exact Hc'].
    + exfalso. vm_compute in Hr. discriminate.
  - destruct (app_reads_stream HS HD 0 7 fresh_conn w bad [] [f] [0; 0; 0; 20; 0x6D; 0x69; 0x6D; 0x69; 1; 2; 3; 4] w1 Hc)
      as [(_ & c' & Hr & Hc')|[_ Hr]].
    + by repeat constructor.
    + reflexivity.
    + by repeat (constructor; [exact Hf|]).
    + exists (replicate 12 0). split; [done|]. split; [simpl; lia|]. reflexivity.
    + exact Hacc1.
    + exfalso. vm_compute in Hr. discriminate.
    + exact Hr.
Defined.

(** C5: over any history of pushes and partial writes, the bytes handed to the
    kernel followed by the bytes still queued are exactly the frames pushed, in
    the order they were pushed: nothing is lost, repeated or reordered, however
    the kernel cuts the writes.  A writable event never faults. *)
Theorem app_sends_in_order {S D} (HS : IoProcessor S) (HD : ConnOwner D)
    pushed c (w : app_world S D) net sends
    (Hs : sending pushed c w net) (Hok : sends_ok sends) :
  (∃ out, out_rep (c_current_push c) w out ∧ pushed = net_out net ++ out) ∧
  (∃ c' w' net', writeSocket c w (with_sends sends net) = Ret (c', w', net') ∧
     net_out net `prefix_of` net_out net' ∧ net_out net' `prefix_of` pushed).
Proof.
  pose proof (sending_invariant _ _ _ _ Hs) as (Hsock & Hst & out & Ho & ->).
  split; [by exists out|].
  destruct (app_writeSocket_spec c w (with_sends sends net) out Hsock Hst Ho Hok)
    as (c' & w' & net' & out' & Hw & Ho' & Hn & _).
  exists c', w', net'. split; [done|]. cbn [with_sends net_out] in Hn.
  split; [exact (writeSocket_out_grows _ _ _ _ _ _ Hw)|rewrite <-Hn; by apply prefix_app_r].
Qed.

(** A frame of two bytes; the kernel takes the first. *)
Lemma app_sends_in_order_witness :
  let HS := list_processor in let HD := count_owner in
  let m := new_message [Some 1; Some 2] 2 0 2 in
  let net := {| net_in := []; net_send := []; net_out := []; net_so_error := 0 |} in
  ∃ w c' w' net',
    IoAppConnection_pushMsgData (wit_world {[1%positive := m]} None) (Some 1%positive) = Ret w ∧
    writeSocket log_conn w (with_sends [SendTakes 0] net) = Ret (c', w', net') ∧
    net_out net' `prefix_of` [1; 2].
Proof.
  intros HS HD m net.
  set (w0 := wit_world {[1%positive := m]} None).
  assert (sending [] log_conn w0 net) as H0 by (by apply sending_init).
  destruct (IoAppConnection_pushMsgData w0 (Some 1%positive)) as [w| | | |] eqn:Ep;
    try (vm_compute in Ep; discriminate).
  assert (sending [1; 2] log_conn w net) as H1.
  { apply (sending_push [] log_conn w0 net 1%positive m [1; 2] w); try done.
    exists []. done. }
  destruct (app_sends_in_order list_processor count_owner _ _ _ _ [SendTakes 0] H1)
    as (_ & c' & w' & net' & Hw & _ & Hp); [repeat constructor; done|].
  exists w, c', w', net'. auto.
Defined.

(** closing a connection without a collector releases every message and every
    node it still has to send, the half-sent one included, and nothing else. *)
Theorem whenClosed_releases_all {S D} (w : app_world S D) ds ms
    (Hw : closing_rep w ds ms) (Hc : aw_collector w = None) :
  ∃ w', IoAppConnection_whenClosed w = Ret w' ∧
    (∀ l, l ∈ ms → aw_msgs w' !! l = None) ∧ (∀ l, l ∉ ms → aw_msgs w' !! l = aw_msgs w !! l) ∧
    (∀ d, d ∈ ds → aw_pushes w' !! d = None) ∧
    (∀ d, d ∉ ds → aw_pushes w' !! d = aw_pushes w !! d) ∧
    pl_list (ap_push_buffer (aw_app w')) = None ∧ ap_pending_data (aw_app w') = None.
Proof.
  unfold IoAppConnection_whenClosed.
  destruct (closing_spec w ds ms Hw) as (mh & ph & q & -> & Hq & Hrm & Hrp). cbn [obind].
  rewrite (pl_steal_spec _ _ _ _ _ Hq). cbn [obind].
  destruct Hrm as [_ Hrm], Hrp as [_ Hrp].
  destruct ms as [|m ms]; simpl.
  - pose proof Hq as ([Hl _] & HF & _). apply Forall2_nil_inv_r in HF as ->.
    eexists. split; [done|]. cbn. split; [set_solver|]. split; [intros; by apply Hrm|].
    split; [set_solver|]. split; [intros; by apply Hrp|]. done.
  - rewrite Hc, (pl_clear_all_spec _ _ _ _ _ Hq). cbn [obind]. eexists. split; [done|]. cbn [aw_msgs aw_pushes aw_app aw_set_app aw_set_heaps].
    split; [intros; by apply delete_all_in|].
    split; [intros; rewrite delete_all_ne by done; by apply Hrm|].
    split; [intros; by apply delete_all_in|].
    split; [intros; rewrite delete_all_ne by done; by apply Hrp|]. done.
Qed.

Definition closing_world (collector : option MsMessageBlockQueue) : app_world (list ptr) nat :=
  let m := new_message [] 0 0 0 in
  mkWorld 1%positive
    (mkApp 0 (IoSampling_new 0)
       {| pl_list := Some 1%positive; pl_tail := Some 2%positive; pl_list_size := 2 |} None 3 30 500)
    (<[1%positive := set_next (Some 2%positive) m]> {[2%positive := m]})
    (<[1%positive := pd_set_next (Some 2%positive) wit_push]>
       {[2%positive := mkPushData None (Some 2%positive) free_releaseIMessage (Some 2%positive) 0 0]})
    [] collector (0, 0) 0%nat.

Lemma closing_world_rep collector :
  closing_rep (closing_world collector) [1%positive; 2%positive] [1%positive; 2%positive].
Proof.
  split; [|split; [|split]].
  - split; [|done]. repeat (split; [done|]; eexists; split; [reflexivity|]). done.
  - repeat constructor.
  - repeat (split; [done|]; eexists; split; [reflexivity|]). done.
  - done.
Qed.

Lemma whenClosed_releases_all_witness :
  ∃ w', IoAppConnection_whenClosed (closing_world None) = Ret w' ∧
    aw_msgs w' !! 1%positive = None ∧ aw_msgs w' !! 2%positive = None.
Proof.
  destruct (whenClosed_releases_all (closing_world None) _ _ (closing_world_rep None) eq_refl)
    as (w' & Hw & Hm & _).
  exists w'. split; [done|]. split; apply Hm; set_solver.
Defined.

(** with a collector only the first unsent message reaches it.  [whenClosed]
    passes the head of the message chain to [collect], which enqueues a single
    message and cuts its link; the nodes are then freed, so the other messages
    stay allocated but are in no queue any more. *)
Theorem whenClosed_collects_only_first {S D} (w : app_world S D) ds m ms k ks
    (Hw : closing_rep w ds (m :: ms)) (Hc : aw_collector w = Some k)
    (Hk : bq_rep (aw_msgs w) k ks) (Hdis : (m ∉ ks) ∧ ∀ l, l ∈ ms → l ∉ ks) :
  ∃ w' k', IoAppConnection_whenClosed w = Ret w' ∧ aw_collector w' = Some k' ∧
    bq_rep (aw_msgs w') k' (ks ++ [m]) ∧ msg_next <$> aw_msgs w' !! m = Some None ∧
    pl_list (ap_push_buffer (aw_app w')) = None ∧ ap_pending_data (aw_app w') = None ∧
    (∀ d, d ∈ ds → aw_pushes w' !! d = None) ∧
    (∀ l, l ∈ ms → is_Some (aw_msgs w' !! l) ∧ (l ∉ ks ++ [m])).
Proof.
  destruct Hdis as [Hmk Hms]. unfold IoAppConnection_whenClosed.
  destruct (closing_spec w ds (m :: ms) Hw) as (mh & ph & q & -> & Hq & Hrm & Hrp). cbn [obind].
  rewrite (pl_steal_spec _ _ _ _ _ Hq). cbn [obind head]. rewrite Hc.
  destruct (pl_rep_NoDup _ _ _ _ _ Hq) as [_ [Hm _]%NoDup_cons].
  pose proof Hq as (_ & _ & (_ & mm & Em & Hseg) & _).
  assert (bq_rep mh k ks) as Hk1.
  { eapply bq_rep_frame; [|exact Hk]. intros l Hl. apply Hrm.
    intros [->|Hin]%elem_of_cons; [done|]. by apply (Hms l). }
  destruct (bq_put_spec mh k ks m mm Hk1 Em Hmk) as (mh' & k' & -> & Hk' & [Hlo Hr']). cbn [obind].
  assert (pl_rep mh ph q ds (m :: ms)) as Hq' by done.
  rewrite (pl_shallowClear_spec _ _ _ _ _ Hq'). cbn [obind].
  eexists _, k'. split; [done|]. cbn [aw_msgs aw_pushes aw_app aw_collector aw_set_collector aw_set_app aw_set_heaps].
  split; [done|]. split; [done|]. split.
  { destruct Hk' as [[Hs _] _]. destruct (lseg_last _ _ _ _ Hs) as (n & -> & Hn). cbn. f_equal. exact Hn. }
  split; [done|]. split; [done|]. split; [intros; by apply delete_all_in|].
  intros l Hl. split.
  - destruct (lseg_in _ _ _ _ _ Hseg Hl) as [n En].
    destruct (links_only_Some _ _ _ _ Hlo En) as (n' & -> & _). by eexists.
  - intros [Hk2|Hk2]%elem_of_app; [by apply (Hms l)|]. set_solver.
Qed.

Lemma whenClosed_collects_only_first_witness :
  ∃ w' k', IoAppConnection_whenClosed (closing_world (Some MsMessageBlockQueue_new)) = Ret w' ∧
    aw_collector w' = Some k' ∧ bq_rep (aw_msgs w') k' [1%positive] ∧
    is_Some (aw_msgs w' !! 2%positive).
Proof.
  destruct (whenClosed_collects_only_first (closing_world (Some MsMessageBlockQueue_new)) _ _ _
              MsMessageBlockQueue_new [] (closing_world_rep _) eq_refl)
    as (w' & k' & Hw & Hk & Hq & _ & _ & _ & _ & Hl).
  - done.
  - set_solver.
  - exists w', k'. split; [done|]. split; [done|]. split; [done|]. apply Hl. set_solver.
Defined.

(** what happens to a received frame on every branch.  A frame without the
    magic word is refused and nothing changes.  Over the request limits it is
    refused after the counters are brought to the current hour.  Otherwise one
    new message with the frame's payload, the connection's id, I/O thread and
    state is given to the processor, and the request is counted. *)
Theorem app_frame_branches {S D} (HS : IoProcessor S) (HD : ConnOwner D)
    c (w : app_world S D) off f hour ts
    (Hr : read_bytes (c_rbuf c) off (Z.of_nat (length f)) = Ret f)
    (Hl : (8 ≤ length f ≤ 1024)%nat)
    (Hsm : sampling_rep (ap_sampling (aw_app w)) hour ts) (Hnow : 0 ≤ fst (aw_now w)) :
  let recv := IoAppConnection_whenReceivedFrame c w off (Z.of_nat (length f)) in
  if frame_word f =? magic then
    ∃ stat sm, IoSampling_getSample (ap_sampling (aw_app w)) (fst (aw_now w)) = Ret (stat, sm) ∧
      if over_limit (aw_app w) stat then
        recv = Ret (-1, aw_set_app (ap_with_sampling sm (aw_app w)) w)
      else
        ∃ l m, aw_msgs w !! l = None ∧ wf_msg m ∧ read_data m = Ret (drop 8 f) ∧
          msg_conn (frame_message c w m) = c_id c ∧ msg_io (frame_message c w m) = c_io c ∧
          msg_state (frame_message c w m) = Some (ap_state (aw_app w)) ∧
          recv =
            let* (mh, s) := process (<[l := frame_message c w m]> (aw_msgs w)) (aw_proc w) (Some l) in
            let* sm' := IoSampling_sample sm (fst (aw_now w)) in
            Ret (0, aw_set_app (ap_with_sampling sm' (aw_app w))
                      (aw_set_proc s (aw_set_heaps mh (aw_pushes w) w)))
  else recv = Ret (-1, w).
Proof.
  intros recv. destruct (Z.eqb_spec (frame_word f) magic) as [Hm|Hm].
  - destruct (app_frame_accept c w off f hour ts Hr Hl Hsm Hnow Hm)
      as (stat & sm & Hg & Ht & Hf).
    exists stat, sm. split; [done|]. destruct (over_limit _ _); [by apply Ht|].
    destruct Hf as (l & m & ? & ? & ? & ?); [done|]. exists l, m. done.
  - unfold recv, IoAppConnection_whenReceivedFrame.
    rewrite (read_second_word _ _ _ Hr) by lia. cbn [obind].
    change (i32 (le_value (take 4 (drop 4 f)))) with (frame_word f).
    by rewrite (proj2 (Z.eqb_neq _ _)).
Qed.

Definition magic_conn : IoConnection :=
  cset_rbuf (Some <$> [0; 0; 0; 5; 0x6D; 0x69; 0x6D; 0x69; 42]) log_conn.

Lemma app_frame_branches_witness :
  let HS := list_processor in let HD := count_owner in
  ∃ l m w', IoAppConnection_whenReceivedFrame magic_conn (wit_world ∅ None) 0 9 = Ret (0, w') ∧
    aw_msgs w' !! l = Some m ∧ read_data m = Ret [42] ∧ msg_conn m = 7 ∧
    aw_proc w' = [Some l].
Proof.
  intros HS HD. subst HS HD.
  destruct (app_frame_branches list_processor count_owner magic_conn (wit_world ∅ None) 0
    [0; 0; 0; 5; 0x6D; 0x69; 0x6D; 0x69; 42] 8 []) as (stat & sm & Hg & Hb).
  - reflexivity.
  - simpl. lia.
  - apply zeroed_rep.
  - simpl. lia.
  - vm_compute in Hg. injection Hg as <- <-.
    change (over_limit _ _) with false in Hb. cbv iota in Hb.
    destruct Hb as (l & m & _ & _ & Hd & Hc & _ & _ & Hrec).
    change (Z.of_nat (length _)) with 9 in Hrec. rewrite Hrec.
    eexists l, _, _. split; [reflexivity|]. cbn. rewrite lookup_insert_eq. split; [done|].
    split; [exact Hd|]. done.
Defined.

(** a frame size that is negative as an [int], which [readSocket] passes on
    unchecked for pipelined frames, ends the process: building the message asks
    for a negative amount of memory, or copies a negative number of bytes. *)
Theorem negative_frame_size_crashes {S D} (HS : IoProcessor S) (HD : ConnOwner D)
    c (w : app_world S D) off size word stat sm
    (Hr : read_bytes (c_rbuf c) (off + 4) 4 = Ret word) (Hm : i32 (le_value word) = magic)
    (Hg : IoSampling_getSample (ap_sampling (aw_app w)) (fst (aw_now w)) = Ret (stat, sm))
    (Hlim : over_limit (aw_app w) stat = false) (Hneg : size < 0) :
  IoAppConnection_whenReceivedFrame c w off size = (if size <? -32 then Abort else Fault).
Proof.
  unfold IoAppConnection_whenReceivedFrame. rewrite Hr. cbn [obind].
  rewrite Hm, Z.eqb_refl, Hg. cbn [obind].
  change (over_limit (aw_app (aw_set_app (ap_with_sampling sm (aw_app w)) w)) stat)
    with (over_limit (aw_app w) stat).
  rewrite Hlim. unfold message_from. rewrite (proj2 (Z.ltb_lt _ _)) by done. cbn [obind].
  unfold createIMessage_frame, malloc_buffer. rewrite (proj2 (Z.leb_gt (2 ^ 31) _)) by lia.
  destruct (Z.ltb_spec size (-32)).
  - by rewrite (proj2 (Z.ltb_lt _ _)) by lia.
  - rewrite (proj2 (Z.ltb_ge _ _)) by lia. cbn [obind].
    by rewrite (proj2 (Z.leb_gt _ _)) by lia.
Qed.

Lemma negative_frame_size_crashes_witness :
  let HS := list_processor in let HD := count_owner in
  IoAppConnection_whenReceivedFrame magic_conn (wit_world ∅ None) 0 (-5) = Fault.
Proof.
  intros HS HD.
  apply (negative_frame_size_crashes list_processor count_owner magic_conn (wit_world ∅ None) 0 (-5)
           [0x6D; 0x69; 0x6D; 0x69]
           {| sec_total := 0; min_total := 0; hou_total := 0 |} (IoSampling_new 0)).
  - reflexivity.
  - reflexivity.
  - vm_compute. reflexivity.
  - reflexivity.
  - lia.
Defined.
