(* ===== verification/LinkedList.v ===== *)
(** util::LinkedListType (framework/lib/linked_list.h): the intrusive circular
    doubly linked list.

    The link fields of all nodes and list heads live in one store.  A list is
    the address of its head; [&_head] itself closes the cycle, so on an empty
    list several of the assignments below hit the same object. *)
From S2P Require Import Prelude Heap.

Record ListNodeLinkType := { ln_next : loc; ln_prev : loc }.
Abbreviation lheap := (gmap loc ListNodeLinkType).

Definition set_ln_next (h : lheap) (a v : loc) : outcome lheap :=
  let* n := load h (Some a) in store h (Some a) {| ln_next := v; ln_prev := ln_prev n |}.
Definition set_ln_prev (h : lheap) (a v : loc) : outcome lheap :=
  let* n := load h (Some a) in store h (Some a) {| ln_next := ln_next n; ln_prev := v |}.

(** The constructor, on a head that is not in use. *)
Definition LinkedListType_new (h : lheap) : loc * lheap :=
  let l := fresh (dom h) in (l, <[l := {| ln_next := l; ln_prev := l |}]> h).

Definition LinkedListType_empty (h : lheap) (head : loc) : outcome bool :=
  let* n := load h (Some head) in Ret (bool_decide (ln_next n = head)).

Definition LinkedListType_add (h : lheap) (head node : loc) : outcome lheap :=
  let* hd := load h (Some head) in
  let* h := set_ln_prev h (ln_next hd) node in
  let* hd := load h (Some head) in
  let* h := set_ln_next h node (ln_next hd) in
  let* h := set_ln_prev h node head in
  set_ln_next h head node.

Definition LinkedListType_addLast (h : lheap) (head node : loc) : outcome lheap :=
  let* hd := load h (Some head) in
  let* h := set_ln_next h (ln_prev hd) node in
  let* hd := load h (Some head) in
  let* h := set_ln_prev h node (ln_prev hd) in
  let* h := set_ln_next h node head in
  set_ln_prev h head node.

Definition LinkedListType_addPrev (h : lheap) (node cur : loc) : outcome lheap :=
  let* c := load h (Some cur) in
  let* h := set_ln_next h (ln_prev c) node in
  let* c := load h (Some cur) in
  let* h := set_ln_prev h node (ln_prev c) in
  let* h := set_ln_next h node cur in
  set_ln_prev h cur node.

Definition LinkedListType_addNext (h : lheap) (node cur : loc) : outcome lheap :=
  let* c := load h (Some cur) in
  let* h := set_ln_prev h (ln_next c) node in
  let* c := load h (Some cur) in
  let* h := set_ln_next h node (ln_next c) in
  let* h := set_ln_prev h node cur in
  set_ln_next h cur node.

(** The node keeps its own links. *)
Definition LinkedListType_remove (h : lheap) (node : loc) : outcome lheap :=
  let* n := load h (Some node) in
  let* h := set_ln_prev h (ln_next n) (ln_prev n) in
  let* n := load h (Some node) in
  set_ln_next h (ln_prev n) (ln_next n).

Definition LinkedListType_first (h : lheap) (head : loc) : outcome ptr :=
  let* e := LinkedListType_empty h head in
  let* n := load h (Some head) in
  Ret (if (e : bool) then None else Some (ln_next n)).

Definition LinkedListType_last (h : lheap) (head : loc) : outcome ptr :=
  let* e := LinkedListType_empty h head in
  let* n := load h (Some head) in
  Ret (if (e : bool) then None else Some (ln_prev n)).

(** [_next] and [_prev] of a node: the head has no entry. *)
Definition LinkedListType_next (h : lheap) (head node : loc) : outcome ptr :=
  let* n := load h (Some node) in Ret (if bool_decide (ln_next n = head) then None else Some (ln_next n)).
Definition LinkedListType_prev (h : lheap) (head node : loc) : outcome ptr :=
  let* n := load h (Some node) in Ret (if bool_decide (ln_prev n = head) then None else Some (ln_prev n)).

(** ** Representation *)
Definition nx (h : lheap) (a : loc) : option loc := ln_next <$> h !! a.
Definition pv (h : lheap) (a : loc) : option loc := ln_prev <$> h !! a.

(** Neighbours point at each other. *)
Fixpoint linked (h : lheap) (l : list loc) : Prop :=
  match l with
  | a :: (b :: _) as r => nx h a = Some b ∧ pv h b = Some a ∧ linked h r
  | _ => True
  end.

Definition dl_rep (h : lheap) (head : loc) (ls : list loc) : Prop :=
  NoDup (head :: ls) ∧ linked h (head :: ls ++ [head]).

(** ** Lemmas *)
Lemma linked_app h l1 a l2 : linked h (l1 ++ a :: l2) ↔ linked h (l1 ++ [a]) ∧ linked h (a :: l2).
Proof.
  induction l1 as [|x l1 IH]; [by simpl; naive_solver|].
  destruct l1 as [|y l1]; simpl in *; naive_solver.
Qed.

(** Nodes whose successor or predecessor a chain depends on. *)
Lemma linked_frame h h' a l :
  (∀ x y l1 l2, a :: l = l1 ++ x :: y :: l2 → nx h' x = nx h x ∧ pv h' y = pv h y) →
  linked h (a :: l) → linked h' (a :: l).
Proof.
  revert a. induction l as [|b l IH]; intros a Hf; [done|]. intros (Hn & Hp & Hl).
  destruct (Hf a b [] l eq_refl) as [En Ep].
  split; [by rewrite En|]. split; [by rewrite Ep|]. apply IH; [|done].
  intros x y l1 l2 E. apply (Hf x y (a :: l1) l2). by rewrite E.
Qed.

Lemma load_nx h a v : nx h a = Some v → ∃ n, load h (Some a) = Ret n ∧ ln_next n = v ∧ h !! a = Some n.
Proof.
  unfold nx. intros (n & E & ->)%fmap_Some. exists n. split; [by apply load_Some|done].
Qed.

Lemma load_pv h a v : pv h a = Some v → ∃ n, load h (Some a) = Ret n ∧ ln_prev n = v ∧ h !! a = Some n.
Proof.
  unfold pv. intros (n & E & ->)%fmap_Some. exists n. split; [by apply load_Some|done].
Qed.

Lemma set_ln_next_spec h a v : is_Some (h !! a) →
  ∃ h', set_ln_next h a v = Ret h' ∧ nx h' a = Some v ∧ (∀ x, x ≠ a → nx h' x = nx h x) ∧
    (∀ x, pv h' x = pv h x) ∧ dom h' = dom h ∧ (∀ x, x ≠ a → h' !! x = h !! x).
Proof.
  intros [n E]. unfold set_ln_next. rewrite (load_Some _ _ _ E). cbn [obind].
  rewrite (store_Some _ _ _ _ E). eexists. split; [done|]. unfold nx, pv.
  split; [by rewrite lookup_insert_eq|].
  split; [intros x Hx; by rewrite lookup_insert_ne|]. split; [|split].
  - intros x. destruct (decide (x = a)) as [->|Hx]; [by rewrite lookup_insert_eq, E|by rewrite lookup_insert_ne].
  - apply dom_insert_lookup_L. by eexists.
  - intros x Hx. by apply lookup_insert_ne.
Qed.

Lemma set_ln_prev_spec h a v : is_Some (h !! a) →
  ∃ h', set_ln_prev h a v = Ret h' ∧ pv h' a = Some v ∧ (∀ x, x ≠ a → pv h' x = pv h x) ∧
    (∀ x, nx h' x = nx h x) ∧ dom h' = dom h ∧ (∀ x, x ≠ a → h' !! x = h !! x).
Proof.
  intros [n E]. unfold set_ln_prev. rewrite (load_Some _ _ _ E). cbn [obind].
  rewrite (store_Some _ _ _ _ E). eexists. split; [done|]. unfold nx, pv.
  split; [by rewrite lookup_insert_eq|].
  split; [intros x Hx; by rewrite lookup_insert_ne|]. split; [|split].
  - intros x. destruct (decide (x = a)) as [->|Hx]; [by rewrite lookup_insert_eq, E|by rewrite lookup_insert_ne].
  - apply dom_insert_lookup_L. by eexists.
  - intros x Hx. by apply lookup_insert_ne.
Qed.

(** In a duplicate-free list a node with a successor is not the last, and one
    with a predecessor is not the first. *)
Lemma NoDup_pair (l l1 l2 : list loc) u v :
  NoDup l → l = l1 ++ u :: v :: l2 → last l ≠ Some u ∧ head l ≠ Some v ∧ u ∈ l ∧ v ∈ l.
Proof.
  intros Hnd ->. split_and!; [| |set_solver..].
  - rewrite last_app_cons. change (last (u :: v :: l2)) with (last (v :: l2)).
    intros Hl. apply last_Some in Hl as (l' & Hl').
    apply NoDup_app in Hnd as (_ & _ & Hnd). apply NoDup_cons in Hnd as [Hu _].
    apply Hu. rewrite Hl'. set_solver.
  - destruct l1 as [|w l1]; simpl; intros [= ->].
    + by apply NoDup_cons in Hnd as [Hu _]; set_solver.
    + apply NoDup_cons in Hnd as [Hu _]. set_solver.
Qed.

(** A duplicate-free chain survives changes of its last successor and its first
    predecessor and of foreign nodes. *)
Lemma linked_keep h h' l a b :
  NoDup l → last l = Some a → head l = Some b →
  (∀ y, y ∈ l → y ≠ a → nx h' y = nx h y) → (∀ y, y ∈ l → y ≠ b → pv h' y = pv h y) →
  linked h l → linked h' l.
Proof.
  intros Hnd Ha Hb Hn Hp. destruct l as [|c l]; [done|]. apply linked_frame.
  intros u v l1 l2 E. destruct (NoDup_pair _ _ _ _ _ Hnd E) as (H1 & H2 & H3 & H4).
  split; [apply Hn; [done|]|apply Hp; [done|]]; congruence.
Qed.

Lemma linked_alloc h l1 a b l2 : linked h (l1 ++ a :: b :: l2) → is_Some (h !! a) ∧ is_Some (h !! b).
Proof.
  intros [_ (Ha & Hb & _)]%linked_app.
  apply fmap_Some in Ha as (? & ? & _). apply fmap_Some in Hb as (? & ? & _). eauto.
Qed.

(** The successor of the head and the rest of the cycle. *)
Lemma cycle_first (ls : list loc) head : ∃ b B, ls ++ [head] = b :: B.
Proof. destruct ls; simpl; eauto. Qed.

Lemma cycle_last (ls : list loc) head : ∃ A a, head :: ls = A ++ [a].
Proof. destruct (exists_last (l:=head :: ls)) as (A & a & ?); eauto. Qed.

Lemma NoDup_cycle (ls : list loc) head : NoDup (head :: ls) → NoDup (ls ++ [head]).
Proof. intros H. by rewrite Permutation_app_comm. Qed.

Lemma dl_add_spec h head ls x :
  dl_rep h head ls → x ∉ head :: ls → is_Some (h !! x) →
  ∃ h', LinkedListType_add h head x = Ret h' ∧ dl_rep h' head (x :: ls) ∧
    dom h' = dom h ∧ (∀ y, y ∉ x :: head :: ls → h' !! y = h !! y).
Proof.
  intros [Hnd Hl] Hx Hax. destruct (cycle_first ls head) as (b & B & Eb).
  rewrite Eb in Hl. destruct Hl as (Hn & Hp & Hl).
  assert (b ∈ head :: ls) as Hb by (assert (b ∈ ls ++ [head]) by (rewrite Eb; set_solver); set_solver).
  assert (b ≠ x) as Hbx by set_solver. assert (head ≠ x) as Hhx by set_solver.
  unfold LinkedListType_add.
  destruct (load_nx _ _ _ Hn) as (hd & -> & Eh & Ehd). cbn [obind]. rewrite Eh.
  destruct (set_ln_prev_spec h b x) as (h1 & -> & P1 & P1' & N1 & D1 & F1);
    [apply fmap_Some in Hp as (? & ? & _); eauto|]. cbn [obind].
  assert (nx h1 head = Some b) as Hn1 by (by rewrite N1).
  destruct (load_nx _ _ _ Hn1) as (hd1 & -> & Eh1 & _). cbn [obind]. rewrite Eh1.
  destruct (set_ln_next_spec h1 x b) as (h2 & -> & N2 & N2' & P2 & D2 & F2);
    [apply elem_of_dom; rewrite D1; by apply elem_of_dom|]. cbn [obind].
  destruct (set_ln_prev_spec h2 x head) as (h3 & -> & P3 & P3' & N3 & D3 & F3);
    [apply elem_of_dom; rewrite D2, D1; by apply elem_of_dom|]. cbn [obind].
  destruct (set_ln_next_spec h3 head x) as (h4 & -> & N4 & N4' & P4 & D4 & F4);
    [apply elem_of_dom; rewrite D3, D2, D1; apply elem_of_dom; eauto|].
  exists h4. split; [done|]. split; [|split].
  - split; [rewrite NoDup_cons in Hnd |- *; rewrite NoDup_cons; set_solver|].
    cbn [app]. rewrite Eb. split; [done|]. split; [by rewrite P4, P3|].
    split; [by rewrite N4', N3, N2 by done|]. split; [by rewrite P4, P3', P2, P1 by done|].
    destruct (cycle_last ls head) as (A & a & Ea).
    pose proof (NoDup_cycle _ _ Hnd) as Hc. rewrite Eb in Hc.
    eapply (linked_keep h h4 (b :: B) head b); [done| |done| | |done].
    + rewrite <-Eb. by rewrite last_snoc.
    + intros y Hy Hyh. assert (y ≠ x) by (rewrite <-Eb in Hy; set_solver).
      by rewrite N4', N3, N2', N1 by done.
    + intros y Hy Hyb. assert (y ≠ x) by (rewrite <-Eb in Hy; set_solver).
      by rewrite P4, P3', P2, P1' by done.
  - by rewrite D4, D3, D2, D1.
  - intros y Hy. rewrite F4, F3, F2, F1 by set_solver. done.
Qed.

Lemma linked_snoc_head h head ls A a :
  head :: ls = A ++ [a] → linked h (head :: ls ++ [head]) →
  linked h (head :: ls) ∧ nx h a = Some head ∧ pv h head = Some a.
Proof.
  intros Ea Hl. assert (head :: ls ++ [head] = A ++ a :: [head]) as E.
  { change (head :: ls ++ [head]) with ((head :: ls) ++ [head]). by rewrite Ea, <-app_assoc. }
  rewrite E in Hl. apply linked_app in Hl as [Hl1 (Hn & Hp & _)]. by rewrite <-Ea in Hl1.
Qed.

Lemma dl_addLast_spec h head ls x :
  dl_rep h head ls → x ∉ head :: ls → is_Some (h !! x) →
  ∃ h', LinkedListType_addLast h head x = Ret h' ∧ dl_rep h' head (ls ++ [x]) ∧
    dom h' = dom h ∧ (∀ y, y ∉ x :: head :: ls → h' !! y = h !! y).
Proof.
  intros [Hnd Hl] Hx Hax. destruct (cycle_last ls head) as (A & a & Ea).
  destruct (linked_snoc_head _ _ _ _ _ Ea Hl) as (Hl' & Hn & Hp).
  assert (a ∈ head :: ls) as Ha by (rewrite Ea; set_solver).
  assert (a ≠ x) as Hax' by set_solver. assert (head ≠ x) as Hhx by set_solver.
  unfold LinkedListType_addLast.
  destruct (load_pv _ _ _ Hp) as (hd & -> & Eh & Ehd). cbn [obind]. rewrite Eh.
  destruct (set_ln_next_spec h a x) as (h1 & -> & N1 & N1' & P1 & D1 & F1);
    [apply fmap_Some in Hn as (? & ? & _); eauto|]. cbn [obind].
  assert (pv h1 head = Some a) as Hp1 by (by rewrite P1).
  destruct (load_pv _ _ _ Hp1) as (hd1 & -> & Eh1 & _). cbn [obind]. rewrite Eh1.
  destruct (set_ln_prev_spec h1 x a) as (h2 & -> & P2 & P2' & N2 & D2 & F2);
    [apply elem_of_dom; rewrite D1; by apply elem_of_dom|]. cbn [obind].
  destruct (set_ln_next_spec h2 x head) as (h3 & -> & N3 & N3' & P3 & D3 & F3);
    [apply elem_of_dom; rewrite D2, D1; by apply elem_of_dom|]. cbn [obind].
  destruct (set_ln_prev_spec h3 head x) as (h4 & -> & P4 & P4' & N4 & D4 & F4);
    [apply elem_of_dom; rewrite D3, D2, D1; apply elem_of_dom; eauto|].
  exists h4. split; [done|]. split; [|split].
  - split.
    { rewrite app_comm_cons, Permutation_app_comm. simpl. by apply NoDup_cons. }
    assert (head :: (ls ++ [x]) ++ [head] = A ++ a :: x :: [head]) as ->.
    { rewrite <-app_assoc. change (head :: ls ++ [x] ++ [head]) with ((head :: ls) ++ [x; head]).
      by rewrite Ea, <-app_assoc. }
    apply linked_app. rewrite <-Ea. split.
    + eapply (linked_keep h h4 (head :: ls) a head); [done| |done| | |done].
      * by rewrite Ea, last_snoc.
      * intros y Hy Hya. assert (y ≠ x) by set_solver. by rewrite N4, N3', N2, N1' by done.
      * intros y Hy Hyb. assert (y ≠ x) by set_solver. by rewrite P4', P3, P2', P1 by done.
    + split; [by rewrite N4, N3', N2, N1 by done|]. split; [by rewrite P4', P3, P2 by done|].
      split; [by rewrite N4, N3|]. split; [done|done].
  - by rewrite D4, D3, D2, D1.
  - intros y Hy. rewrite F4, F3, F2, F1 by set_solver. done.
Qed.

Lemma dl_remove_spec h head A x B :
  dl_rep h head (A ++ x :: B) →
  ∃ h', LinkedListType_remove h x = Ret h' ∧ dl_rep h' head (A ++ B) ∧
    dom h' = dom h ∧ (∀ y, y ∉ head :: A ++ B → h' !! y = h !! y).
Proof.
  intros [Hnd Hl]. destruct (cycle_last A head) as (A' & a & Ea).
  destruct (cycle_first B head) as (b & B' & Eb).
  assert (head :: (A ++ x :: B) ++ [head] = A' ++ a :: x :: b :: B') as E.
  { rewrite <-app_assoc. cbn [app]. rewrite Eb.
    change (head :: A ++ x :: b :: B') with ((head :: A) ++ x :: b :: B'). by rewrite Ea, <-app_assoc. }
  rewrite E in Hl. apply linked_app in Hl as [HlA (Hna & Hpx & (Hnx & Hpb & HlB))].
  assert (a ∈ head :: A) as HaA by (rewrite Ea; set_solver).
  assert (b ∈ B ++ [head]) as HbB by (rewrite Eb; set_solver).
  assert (NoDup (head :: A) ∧ NoDup (B ++ [head]) ∧ (x ∉ head :: A) ∧ (x ∉ B ++ [head]) ∧
          (∀ y, y ∈ A → y ∉ B ++ [head]) ∧ (∀ y, y ∈ B → y ∉ head :: A) ∧
          NoDup (head :: A ++ B)) as (NA & NB & HxA & HxB & HAB & HBA & NAB).
  { apply NoDup_cons in Hnd as [Hh Hnd]. pose proof Hnd as Hnd'.
    apply NoDup_app in Hnd as (N1 & Hd & N2). apply NoDup_cons in N2 as [Hx N2].
    rewrite <-Permutation_middle in Hnd'. apply NoDup_cons in Hnd' as [_ NAB].
    split_and!; try (rewrite NoDup_cons; split; [set_solver|done]); try set_solver.
    apply NoDup_app. split; [done|]. split; [set_solver|apply NoDup_singleton]. }
  unfold LinkedListType_remove.
  destruct (load_nx _ _ _ Hnx) as (n & -> & En & Exn). cbn [obind].
  assert (ln_prev n = a) as Epn by (unfold pv in Hpx; rewrite Exn in Hpx; by injection Hpx).
  rewrite En, Epn.
  destruct (set_ln_prev_spec h b a) as (h1 & -> & P1 & P1' & N1 & D1 & F1);
    [apply fmap_Some in Hpb as (? & ? & _); eauto|]. cbn [obind].
  assert (h1 !! x = Some n) as Ex1 by (rewrite F1; [done|set_solver]).
  rewrite (load_Some _ _ _ Ex1). cbn [obind]. rewrite En, Epn.
  destruct (set_ln_next_spec h1 a b) as (h2 & -> & N2 & N2' & P2 & D2 & F2);
    [apply elem_of_dom; rewrite D1; apply elem_of_dom; apply fmap_Some in Hna as (? & ? & _); eauto|].
  exists h2. split; [done|]. split; [|split].
  - split; [done|].
    assert (head :: (A ++ B) ++ [head] = A' ++ a :: b :: B') as ->.
    { rewrite <-app_assoc, Eb. change (head :: A ++ b :: B') with ((head :: A) ++ b :: B').
      by rewrite Ea, <-app_assoc. }
    apply linked_app. rewrite <-Ea in *. split.
    + eapply (linked_keep h h2 (head :: A) a head); [done| |done| | |done].
      * by rewrite Ea, last_snoc.
      * intros y Hy Hya. by rewrite N2', N1 by done.
      * intros y Hy Hyh. rewrite P2, P1'; [done|]. intros ->. apply (HAB b); set_solver.
    + split; [done|]. split; [by rewrite P2|]. rewrite <-Eb in *.
      eapply (linked_keep h h2 (B ++ [head]) head b); [done|by rewrite last_snoc|by rewrite Eb| | |done].
      * intros y Hy Hyh. rewrite N2', N1; [done|]. intros ->. apply (HBA a); [set_solver|done].
      * intros y Hy Hyb. by rewrite P2, P1' by done.
  - by rewrite D2, D1.
  - intros y Hy. rewrite F2, F1; [done|set_solver|]. intros ->. apply Hy. set_solver.
Qed.

Lemma dl_first_spec h hd ls :
  dl_rep h hd ls → LinkedListType_first h hd = Ret (head ls).
Proof.
  intros [Hnd Hl]. unfold LinkedListType_first, LinkedListType_empty.
  destruct ls as [|x ls]; simpl in Hl; destruct Hl as (Hn & _);
    destruct (load_nx _ _ _ Hn) as (n & Eld & En & _); rewrite Eld; cbn [obind]; rewrite En.
  - by rewrite bool_decide_eq_true_2.
  - rewrite bool_decide_eq_false_2; [done|]. intros ->.
    apply NoDup_cons in Hnd as [H _]. set_solver.
Qed.

Lemma dl_rep_frame h h' head ls :
  (∀ y, y ∈ head :: ls → h' !! y = h !! y) → dl_rep h head ls → dl_rep h' head ls.
Proof.
  intros Hf [Hnd Hl]. split; [done|]. eapply linked_frame; [|done].
  intros x y l1 l2 E.
  assert (∀ z, z ∈ head :: ls ++ [head] → h' !! z = h !! z) as Hf' by (intros; apply Hf; set_solver).
  unfold nx, pv. rewrite !Hf' by (rewrite E; set_solver). done.
Qed.

Lemma dl_rep_alloc h head ls y : dl_rep h head ls → y ∈ head :: ls → is_Some (h !! y).
Proof.
  intros [_ Hl] (l1 & l2 & E)%list_elem_of_split.
  change (head :: ls ++ [head]) with ((head :: ls) ++ [head]) in Hl.
  rewrite E, <-app_assoc in Hl. cbn [app] in Hl.
  destruct (cycle_first l2 head) as (b & B & Eb). rewrite Eb in Hl.
  by apply linked_alloc in Hl as [? _].
Qed.

(** A cycle can be read from any of its nodes. *)
Lemma dl_rep_rotate h head A x B : dl_rep h head (A ++ x :: B) ↔ dl_rep h x (B ++ head :: A).
Proof.
  unfold dl_rep. assert (head :: A ++ x :: B ≡ₚ x :: B ++ head :: A) as Hp.
  { change (head :: A ++ x :: B) with ((head :: A) ++ x :: B). change (x :: B ++ head :: A) with ((x :: B) ++ head :: A).
    apply Permutation_app_comm. }
  rewrite Hp. rewrite <-!app_assoc, <-!app_comm_cons.
  change (head :: A ++ x :: B ++ [head]) with ((head :: A) ++ x :: (B ++ [head])).
  change (x :: B ++ head :: A ++ [x]) with ((x :: B) ++ head :: (A ++ [x])).
  rewrite (linked_app h (head :: A)), (linked_app h (x :: B)). cbn [app]. tauto.
Qed.

(** Adding before or after a node is adding at an end of the cycle read from it. *)
Lemma dl_addPrev_spec h head A cur B x :
  dl_rep h head (A ++ cur :: B) → x ∉ head :: A ++ cur :: B → is_Some (h !! x) →
  ∃ h', LinkedListType_addPrev h x cur = Ret h' ∧ dl_rep h' head (A ++ x :: cur :: B) ∧ dom h' = dom h.
Proof.
  intros Hd%dl_rep_rotate Hx Ha. change (LinkedListType_addPrev h x cur) with (LinkedListType_addLast h cur x).
  destruct (dl_addLast_spec h cur _ x Hd) as (h' & E & Hd' & Hdom & _); [set_solver|done|].
  exists h'. split; [done|]. split; [|done]. rewrite <-app_assoc, <-app_comm_cons in Hd'. apply dl_rep_rotate in Hd'.
  by rewrite <-app_assoc in Hd'.
Qed.

Lemma dl_addNext_spec h head A cur B x :
  dl_rep h head (A ++ cur :: B) → x ∉ head :: A ++ cur :: B → is_Some (h !! x) →
  ∃ h', LinkedListType_addNext h x cur = Ret h' ∧ dl_rep h' head (A ++ cur :: x :: B) ∧ dom h' = dom h.
Proof.
  intros Hd%dl_rep_rotate Hx Ha. change (LinkedListType_addNext h x cur) with (LinkedListType_add h cur x).
  destruct (dl_add_spec h cur _ x Hd) as (h' & E & Hd' & Hdom & _); [set_solver|done|].
  exists h'. split; [done|]. split; [|done]. by apply (dl_rep_rotate h' head A cur (x :: B)).
Qed.

(** The neighbours of a node in the list. *)
Lemma dl_next_spec h head A x B : dl_rep h head (A ++ x :: B) → LinkedListType_next h head x = Ret (hd_error B).
Proof.
  intros [Hnd Hl]. rewrite <-app_assoc, <-app_comm_cons in Hl.
  change (head :: A ++ x :: B ++ [head]) with ((head :: A) ++ x :: (B ++ [head])) in Hl. apply linked_app in Hl as [_ Hl].
  unfold LinkedListType_next. destruct B as [|y B]; cbn [app linked] in Hl; destruct Hl as (Hn & _);
    destruct (load_nx _ _ _ Hn) as (n & -> & En & _); cbn [obind hd_error]; rewrite En.
  - by rewrite bool_decide_eq_true_2.
  - rewrite bool_decide_eq_false_2; [done|]. intros ->. apply NoDup_cons in Hnd as [H _]. set_solver.
Qed.

Lemma dl_prev_spec h head A x B : dl_rep h head (A ++ x :: B) → LinkedListType_prev h head x = Ret (last A).
Proof.
  intros [Hnd Hl]. unfold LinkedListType_prev. destruct A as [|a A _] using rev_ind.
  - cbn [app linked] in Hl. destruct Hl as (_ & Hp & _). destruct (load_pv _ _ _ Hp) as (n & -> & En & _).
    cbn [obind last]. rewrite En. by rewrite bool_decide_eq_true_2.
  - rewrite <-!app_assoc, <-app_comm_cons in Hl. cbn [app] in Hl.
    change (head :: A ++ a :: x :: B ++ [head]) with ((head :: A) ++ a :: (x :: B ++ [head])) in Hl.
    apply linked_app in Hl as [_ (_ & Hp & _)]. destruct (load_pv _ _ _ Hp) as (n & -> & En & _).
    cbn [obind]. rewrite En, last_snoc, bool_decide_eq_false_2; [done|]. intros ->.
    apply NoDup_cons in Hnd as [H _]. set_solver.
Qed.
