(* ===== verification/ConnCache.v ===== *)
(** io::ConnectionCache (framework/io/connection_cache.h, connection_cache.inl)
    and io::ConnectionRegister (connection_register.h).

    The cache keeps the connection objects of an I/O thread: closed ones wait in
    [_recycle] until the event loop has turned, then move to [_cache].  Its
    nodes come from [_idle_node].  The links of the nodes and of the three list
    heads are one store, the other fields of the nodes another. *)
From S2P Require Import Prelude Heap LinkedList.

(** ** Data *)
Record ConnNode := { cn_conn : ptr; cn_which_loop : Z }.
Abbreviation cnheap := (gmap loc ConnNode).

Record ConnectionCache := {
  cc_loop_count : Z;
  cc_idle_node : loc;
  cc_cache : loc;
  cc_recycle : loc }.

Record cache_state := { cs_links : lheap; cs_nodes : cnheap; cs_cache : ConnectionCache }.

Definition cs_set (lh : lheap) (nh : cnheap) (s : cache_state) : cache_state :=
  {| cs_links := lh; cs_nodes := nh; cs_cache := cs_cache s |}.

Definition ConnectionCache_new : cache_state :=
  let (idle, lh) := LinkedListType_new ∅ in
  let (cache, lh) := LinkedListType_new lh in
  let (recycle, lh) := LinkedListType_new lh in
  {| cs_links := lh; cs_nodes := ∅;
     cs_cache := {| cc_loop_count := 0; cc_idle_node := idle; cc_cache := cache;
                    cc_recycle := recycle |} |}.

(** ** Operations *)
(** [new ConnNode]: its fields are not set yet. *)
Definition new_node (s : cache_state) : loc * cache_state :=
  let l := fresh (dom (cs_links s)) in
  (l, cs_set (<[l := {| ln_next := l; ln_prev := l |}]> (cs_links s))
             (<[l := {| cn_conn := None; cn_which_loop := 0 |}]> (cs_nodes s)) s).

Fixpoint cache_open_loop (n : nat) (s : cache_state) : outcome cache_state :=
  match n with
  | O => Ret s
  | S n =>
      let (node, s) := new_node s in
      let* lh := LinkedListType_add (cs_links s) (cc_idle_node (cs_cache s)) node in
      cache_open_loop n (cs_set lh (cs_nodes s) s)
  end.

Definition ConnectionCache_open (s : cache_state) : outcome cache_state :=
  cache_open_loop 1024 s.

Definition ConnectionCache_recycle (s : cache_state) (conn : loc) : outcome cache_state :=
  let* first := LinkedListType_first (cs_links s) (cc_idle_node (cs_cache s)) in
  let* (node, s) :=
    match first with
    | Some node =>
        let* lh := LinkedListType_remove (cs_links s) node in
        Ret (node, cs_set lh (cs_nodes s) s)
    | None => Ret (new_node s)
    end in
  let* nh := store (cs_nodes s) (Some node)
               {| cn_conn := Some conn; cn_which_loop := cc_loop_count (cs_cache s) |} in
  let* lh := LinkedListType_addLast (cs_links s) (cc_recycle (cs_cache s)) node in
  Ret (cs_set lh nh s).

(** Taking the first node of [_cache]. *)
Definition cache_take (s : cache_state) (node : loc) : outcome (ptr * cache_state) :=
  let* lh := LinkedListType_remove (cs_links s) node in
  let* n := load (cs_nodes s) (Some node) in
  let* nh := store (cs_nodes s) (Some node)
               {| cn_conn := None; cn_which_loop := cn_which_loop n |} in
  let* lh := LinkedListType_add lh (cc_idle_node (cs_cache s)) node in
  Ret (cn_conn n, cs_set lh nh s).

(** The loop that moves recycled nodes to [_cache]; the flag says whether any
    was moved. *)
Fixpoint cache_refill (fuel : nat) (s : cache_state) (flag : bool)
    : outcome (bool * cache_state) :=
  let* node := LinkedListType_first (cs_links s) (cc_recycle (cs_cache s)) in
  match node with
  | None => Ret (flag, s)
  | Some node =>
      let* n := load (cs_nodes s) (Some node) in
      if cc_loop_count (cs_cache s) <=? cn_which_loop n then Ret (flag, s)
      else
        match fuel with
        | O => Diverge
        | S fuel =>
            let* lh := LinkedListType_remove (cs_links s) node in
            let* lh := LinkedListType_addLast lh (cc_cache (cs_cache s)) node in
            cache_refill fuel (cs_set lh (cs_nodes s) s) true
        end
  end.

(** [None] is the case in which the code constructs a new connection. *)
Definition ConnectionCache_get (s : cache_state) : outcome (ptr * cache_state) :=
  let* node := LinkedListType_first (cs_links s) (cc_cache (cs_cache s)) in
  match node with
  | Some node => cache_take s node
  | None =>
      let* (flag, s) := cache_refill (size (cs_nodes s)) s false in
      if (flag : bool) then
        let* node := LinkedListType_first (cs_links s) (cc_cache (cs_cache s)) in
        match node with
        | Some node => cache_take s node
        | None => Fault
        end
      else Ret (None, s)
  end.

(** [++_cache._loop_count] *)
Definition cache_next_loop (s : cache_state) : cache_state :=
  {| cs_links := cs_links s; cs_nodes := cs_nodes s;
     cs_cache := {| cc_loop_count := cc_loop_count (cs_cache s) + 1;
                    cc_idle_node := cc_idle_node (cs_cache s);
                    cc_cache := cc_cache (cs_cache s);
                    cc_recycle := cc_recycle (cs_cache s) |} |}.

(** ** io::ConnectionRegister *)
Abbreviation conn_register := (gmap Z loc).
Definition ConnectionRegister_get (r : conn_register) (key : Z) : ptr := r !! key.
Definition ConnectionRegister_set (r : conn_register) (key : Z) (conn : loc) : conn_register :=
  <[key := conn]> r.
Definition ConnectionRegister_unset (r : conn_register) (key : Z) : conn_register :=
  delete key r.

(** ** Representation

    [ids] are the idle nodes, [xs] and [rs] the nodes of [_cache] and [_recycle],
    each with its connection and the loop it was recycled in. *)
Record parked := { pk_node : loc; pk_conn : loc; pk_loop : Z }.

Definition node_ok (nh : cnheap) (x : parked) : Prop :=
  nh !! pk_node x = Some {| cn_conn := Some (pk_conn x); cn_which_loop := pk_loop x |}.

Record cache_rep (s : cache_state) (ids : list loc) (xs rs : list parked) : Prop := {
  cr_idle : dl_rep (cs_links s) (cc_idle_node (cs_cache s)) ids;
  cr_cache : dl_rep (cs_links s) (cc_cache (cs_cache s)) (pk_node <$> xs);
  cr_recycle : dl_rep (cs_links s) (cc_recycle (cs_cache s)) (pk_node <$> rs);
  cr_nodup : NoDup ((cc_idle_node (cs_cache s) :: ids) ++
    (cc_cache (cs_cache s) :: (pk_node <$> xs)) ++ cc_recycle (cs_cache s) :: (pk_node <$> rs));
  cr_idle_nodes : ∀ l, l ∈ ids → is_Some (cs_nodes s !! l);
  cr_nodes : Forall (node_ok (cs_nodes s)) (xs ++ rs);
  cr_dom : dom (cs_nodes s) ⊆ dom (cs_links s) }.

(** ** Lemmas *)
(** The three lists and the heads do not share addresses. *)
Lemma cache_disjoint s ids xs rs :
  cache_rep s ids xs rs →
  let I := cc_idle_node (cs_cache s) :: ids in
  let X := cc_cache (cs_cache s) :: (pk_node <$> xs) in
  let R := cc_recycle (cs_cache s) :: (pk_node <$> rs) in
  (∀ y, y ∈ I → y ∉ X) ∧ (∀ y, y ∈ I → y ∉ R) ∧ (∀ y, y ∈ X → y ∉ R).
Proof.
  intros Hr I X R. pose proof (cr_nodup _ _ _ _ Hr) as Hnd. fold I X R in Hnd.
  apply NoDup_app in Hnd as (_ & H1 & Hnd). apply NoDup_app in Hnd as (_ & H2 & _).
  split_and!; set_solver.
Qed.

(** Overwriting the payload of a node outside the parked ones. *)
Lemma nodes_keep nh l n (xs : list parked) :
  l ∉ (pk_node <$> xs) → Forall (node_ok nh) xs → Forall (node_ok (<[l := n]> nh)) xs.
Proof.
  intros Hl HF. rewrite Forall_forall in *. intros x Hx. unfold node_ok.
  rewrite lookup_insert_ne; [by apply HF|]. set_solver.
Qed.

Lemma node_ok_Some nh x : node_ok nh x → is_Some (nh !! pk_node x).
Proof. unfold node_ok. intros ->. by eexists. Qed.

Lemma cache_take_spec s ids x xs rs :
  cache_rep s ids (x :: xs) rs →
  ∃ s', cache_take s (pk_node x) = Ret (Some (pk_conn x), s') ∧
    cache_rep s' (pk_node x :: ids) xs rs ∧ cs_cache s' = cs_cache s.
Proof.
  intros Hr. destruct (cache_disjoint _ _ _ _ Hr) as (HIX & HIR & HXR).
  destruct Hr as [Hi Hx Hrc Hnd Hin Hn Hd]. unfold cache_take.
  apply Forall_app in Hn as [[Hnx Hnxs]%Forall_cons Hnr].
  destruct (dl_remove_spec _ _ [] _ _ Hx) as (h1 & -> & Hx1 & D1 & F1). cbn [obind].
  cbn [app] in Hx1, F1.
  rewrite (load_Some _ _ _ Hnx). cbn [obind]. rewrite (store_Some _ _ _ _ Hnx). cbn [obind].
  assert (dl_rep h1 (cc_idle_node (cs_cache s)) ids) as Hi1.
  { eapply dl_rep_frame; [|exact Hi]. intros y Hy. apply F1. specialize (HIX y Hy). set_solver. }
  destruct (dl_add_spec h1 _ _ (pk_node x) Hi1) as (h2 & -> & Hi2 & D2 & F2).
  { intros Hin'. apply (HIX _ Hin'). set_solver. }
  { apply elem_of_dom. rewrite D1. apply Hd, elem_of_dom. eauto using node_ok_Some. }
  cbn [obind]. eexists. split; [done|]. split; [|done].
  assert (NoDup ((pk_node <$> x :: xs) ++ (pk_node <$> rs))) as Hnd2.
  { apply NoDup_app in Hnd as (_ & _ & Hnd). apply NoDup_app in Hnd as ([_ N1]%NoDup_cons & H & [_ N2]%NoDup_cons).
    apply NoDup_app. split; [done|]. split; [set_solver|done]. }
  apply NoDup_app in Hnd2 as ([Hxx _]%NoDup_cons & Hxr & _).
  split; cbn [cs_set cs_links cs_nodes cs_cache].
  - exact Hi2.
  - eapply dl_rep_frame; [|exact Hx1]. intros y Hy. apply F2. intros Hy2.
    apply elem_of_cons in Hy2 as [->|Hy2]; [|apply (HIX y Hy2); set_solver].
    apply elem_of_cons in Hy as [Hy|Hy]; [|done].
    destruct Hx as [Hndx _]. apply NoDup_cons in Hndx as [Hndx _]. set_solver.
  - eapply dl_rep_frame; [|exact Hrc]. intros y Hy. rewrite F2, F1; [done| |].
    + intros Hy2. apply (HXR y); [set_solver|done].
    + intros Hy2. apply elem_of_cons in Hy2 as [->|Hy2].
      * apply (HXR (pk_node x)); [set_solver|done].
      * by apply (HIR y).
  - refine (proj1 (NoDup_Permutation_proper _ _ _) Hnd). cbn [fmap list_fmap app]. clear.
    apply Permutation_skip. rewrite <-!Permutation_middle. apply Permutation_swap.
  - intros l [->|Hl]%elem_of_cons; [rewrite lookup_insert_eq; by eexists|].
    destruct (decide (l = pk_node x)) as [->|]; [rewrite lookup_insert_eq; by eexists|].
    rewrite lookup_insert_ne by done. by apply Hin.
  - apply nodes_keep; [|by apply Forall_app]. rewrite fmap_app. set_solver.
  - rewrite D2, D1, dom_insert_lookup_L by eauto using node_ok_Some. done.
Qed.

Lemma refill_step s ids xs x rs :
  cache_rep s ids xs (x :: rs) →
  ∃ h1 h2, LinkedListType_remove (cs_links s) (pk_node x) = Ret h1 ∧
    LinkedListType_addLast h1 (cc_cache (cs_cache s)) (pk_node x) = Ret h2 ∧
    cache_rep (cs_set h2 (cs_nodes s) s) ids (xs ++ [x]) rs.
Proof.
  intros Hr. destruct (cache_disjoint _ _ _ _ Hr) as (HIX & HIR & HXR).
  destruct Hr as [Hi Hx Hrc Hnd Hin Hn Hd].
  assert (node_ok (cs_nodes s) x) as Hnx.
  { rewrite Forall_forall in Hn. apply Hn. set_solver. }
  destruct (dl_remove_spec _ _ [] _ _ Hrc) as (h1 & Hrm & Hrc1 & D1 & F1).
  cbn [app] in Hrc1, F1.
  assert (dl_rep h1 (cc_cache (cs_cache s)) (pk_node <$> xs)) as Hx1.
  { eapply dl_rep_frame; [|exact Hx]. intros y Hy. apply F1. specialize (HXR y Hy). set_solver. }
  destruct (dl_addLast_spec h1 _ _ (pk_node x) Hx1) as (h2 & Hal & Hx2 & D2 & F2).
  { intros Hin'. apply (HXR _ Hin'). set_solver. }
  { apply elem_of_dom. rewrite D1. apply Hd, elem_of_dom. eauto using node_ok_Some. }
  exists h1, h2. split; [done|]. split; [done|].
  split; cbn [cs_set cs_links cs_nodes cs_cache].
  - eapply dl_rep_frame; [|exact Hi]. intros y Hy. rewrite F2, F1; [done| |].
    + intros Hy2. apply (HIR y Hy). set_solver.
    + intros Hy2. apply elem_of_cons in Hy2 as [->|Hy2].
      * apply (HIR _ Hy). set_solver.
      * by apply (HIX y).
  - rewrite fmap_app. exact Hx2.
  - eapply dl_rep_frame; [|exact Hrc1]. intros y Hy. apply F2. intros Hy2.
    apply elem_of_cons in Hy2 as [->|Hy2].
    + destruct Hrc as [Hndx _]. cbn [fmap list_fmap] in Hndx.
      apply NoDup_cons in Hndx as [H1 H2]. apply NoDup_cons in H2 as [H2 _]. set_solver.
    + apply (HXR y Hy2). set_solver.
  - refine (proj1 (NoDup_Permutation_proper _ _ _) Hnd). rewrite fmap_app.
    cbn [fmap list_fmap app]. clear.
    apply Permutation_skip, Permutation_app_head, Permutation_skip.
    rewrite <-app_assoc. apply Permutation_app_head. apply Permutation_swap.
  - done.
  - by rewrite <-app_assoc.
  - by rewrite D2, D1.
Qed.

(** Which recycled nodes are old enough. *)
Definition due (lc : Z) (old young : list parked) : Prop :=
  Forall (λ x, pk_loop x < lc) old ∧
  match young with [] => True | y :: _ => lc ≤ pk_loop y end.

Lemma due_split lc rs : ∃ old young, rs = old ++ young ∧ due lc old young.
Proof.
  induction rs as [|r rs IH]; [by exists [], []|].
  destruct (decide (pk_loop r < lc)).
  - destruct IH as (old & young & -> & [HF Hy]). exists (r :: old), young.
    split; [done|]. split; [by constructor|done].
  - exists [], (r :: rs). split; [done|]. split; [constructor|]. lia.
Qed.

Lemma cache_refill_spec fuel s ids xs old young flag :
  cache_rep s ids xs (old ++ young) → due (cc_loop_count (cs_cache s)) old young →
  (length old ≤ fuel)%nat →
  ∃ s', cache_refill fuel s flag = Ret (flag || negb (bool_decide (old = [])), s') ∧
    cache_rep s' ids (xs ++ old) young ∧ cs_cache s' = cs_cache s ∧ cs_nodes s' = cs_nodes s.
Proof.
  revert s xs old flag. induction fuel as [|fuel IH]; intros s xs old flag Hr [Ho Hy] Hf.
  all: pose proof (dl_first_spec _ _ _ (cr_recycle _ _ _ _ Hr)) as Hfirst.
  all: destruct old as [|x old]; [|try (simpl in Hf; lia)].
  1,2: exists s; rewrite orb_false_r, app_nil_r; split; [|done]; cbn [cache_refill];
    rewrite Hfirst; cbn [obind app];
    destruct young as [|y young]; [done|];
    pose proof (cr_nodes _ _ _ _ Hr) as Hn; cbn [app fmap list_fmap head];
    rewrite Forall_forall in Hn; assert (node_ok (cs_nodes s) y) as Hny by (apply Hn; set_solver);
    rewrite (load_Some _ _ _ Hny); cbn [obind cn_which_loop];
    rewrite (proj2 (Z.leb_le _ _)) by lia; done.
  apply Forall_cons in Ho as [Hx Ho]. cbn [app fmap list_fmap head] in *. cbn [cache_refill].
  rewrite Hfirst. cbn [obind].
  pose proof (cr_nodes _ _ _ _ Hr) as Hn. rewrite Forall_forall in Hn.
  assert (node_ok (cs_nodes s) x) as Hnx by (apply Hn; set_solver).
  rewrite (load_Some _ _ _ Hnx). cbn [obind cn_which_loop].
  rewrite (proj2 (Z.leb_gt _ _)) by lia.
  destruct (refill_step _ _ _ _ _ Hr) as (h1 & h2 & -> & Hal & Hr'). cbn [obind].
  rewrite Hal. cbn [obind].
  destruct (IH _ (xs ++ [x]) old true Hr') as (s' & -> & Hr2 & Hc2 & Hn2);
    [by split|simpl in Hf; lia|].
  exists s'. split; [by rewrite orb_true_r|]. split; [by rewrite <-app_assoc in Hr2|done].
Qed.

Lemma cache_rep_nodes s ids xs rs : cache_rep s ids xs rs → (length rs ≤ size (cs_nodes s))%nat.
Proof.
  intros Hr. rewrite <-(length_fmap pk_node). apply NoDup_dom_size.
  - pose proof (cr_recycle _ _ _ _ Hr) as [Hnd _]. by apply NoDup_cons in Hnd as [_ ?].
  - intros l (x & -> & Hx)%list_elem_of_fmap. apply node_ok_Some.
    pose proof (cr_nodes _ _ _ _ Hr) as Hn. rewrite Forall_forall in Hn. apply Hn. set_solver.
Qed.

(** What [get] returns. *)
Lemma cache_get_spec s ids xs rs :
  cache_rep s ids xs rs →
  match xs with
  | x :: xs' => ∃ s', ConnectionCache_get s = Ret (Some (pk_conn x), s') ∧
      cache_rep s' (pk_node x :: ids) xs' rs ∧ cs_cache s' = cs_cache s
  | [] => ∀ old young, rs = old ++ young → due (cc_loop_count (cs_cache s)) old young →
      match old with
      | [] => ∃ s', ConnectionCache_get s = Ret (None, s') ∧ cache_rep s' ids [] rs ∧
                cs_cache s' = cs_cache s
      | x :: old' => ∃ s', ConnectionCache_get s = Ret (Some (pk_conn x), s') ∧
          cache_rep s' (pk_node x :: ids) old' young ∧ cs_cache s' = cs_cache s
      end
  end.
Proof.
  intros Hr. pose proof (dl_first_spec _ _ _ (cr_cache _ _ _ _ Hr)) as Hfirst.
  destruct xs as [|x xs].
  - intros old young -> Hdue. unfold ConnectionCache_get. rewrite Hfirst.
    cbn [obind fmap list_fmap head].
    destruct (cache_refill_spec (size (cs_nodes s)) s ids [] old young false Hr Hdue)
      as (s1 & -> & Hr1 & Hc1 & _).
    { pose proof (cache_rep_nodes _ _ _ _ Hr) as Hl. rewrite length_app in Hl. lia. }
    cbn [obind orb app] in *. destruct old as [|x old].
    + exists s1. split; [done|]. by split.
    + rewrite bool_decide_eq_false_2 by done. cbn [negb].
      rewrite (dl_first_spec _ _ _ (cr_cache _ _ _ _ Hr1)). cbn [obind fmap list_fmap head].
      destruct (cache_take_spec _ _ _ _ _ Hr1) as (s2 & -> & Hr2 & Hc2).
      exists s2. split; [done|]. split; [done|]. congruence.
  - unfold ConnectionCache_get. rewrite Hfirst. cbn [obind fmap list_fmap head].
    by apply cache_take_spec.
Qed.

(** An address outside the three lists. *)
Definition outside (s : cache_state) (ids : list loc) (xs rs : list parked) (l : loc) : Prop :=
  l ∉ (cc_idle_node (cs_cache s) :: ids) ++
    (cc_cache (cs_cache s) :: (pk_node <$> xs)) ++ cc_recycle (cs_cache s) :: (pk_node <$> rs).

Lemma park_spec s ids xs rs node conn loop :
  cache_rep s ids xs rs → outside s ids xs rs node → is_Some (cs_nodes s !! node) →
  ∃ nh lh, store (cs_nodes s) (Some node) {| cn_conn := Some conn; cn_which_loop := loop |} = Ret nh ∧
    LinkedListType_addLast (cs_links s) (cc_recycle (cs_cache s)) node = Ret lh ∧
    cache_rep (cs_set lh nh s) ids xs
      (rs ++ [{| pk_node := node; pk_conn := conn; pk_loop := loop |}]).
Proof.
  unfold outside. intros Hr Ho [n0 En]. destruct (cache_disjoint _ _ _ _ Hr) as (HIX & HIR & HXR).
  destruct Hr as [Hi Hx Hrc Hnd Hin Hn Hd].
  rewrite (store_Some _ _ _ _ En).
  destruct (dl_addLast_spec _ _ _ node Hrc) as (lh & -> & Hrc' & D & F).
  { set_solver. } { apply elem_of_dom, Hd, elem_of_dom. by eexists. }
  eexists _, lh. split; [done|]. split; [done|]. split; cbn [cs_set cs_links cs_nodes cs_cache].
  - eapply dl_rep_frame; [|exact Hi]. intros y Hy. apply F. specialize (HIR y Hy). set_solver.
  - eapply dl_rep_frame; [|exact Hx]. intros y Hy. apply F. specialize (HXR y Hy). set_solver.
  - rewrite fmap_app. exact Hrc'.
  - rewrite fmap_app. cbn [fmap list_fmap pk_node].
    rewrite app_comm_cons, !app_assoc, Permutation_app_comm. cbn [app].
    apply NoDup_cons. rewrite <-app_assoc. split; [exact Ho|exact Hnd].
  - intros l Hl. destruct (decide (l = node)) as [->|]; [rewrite lookup_insert_eq; by eexists|].
    rewrite lookup_insert_ne by done. by apply Hin.
  - rewrite app_assoc. apply Forall_app. split.
    + apply nodes_keep; [|done]. rewrite fmap_app. set_solver.
    + constructor; [|constructor]. unfold node_ok. cbn. apply lookup_insert_eq.
  - rewrite D, dom_insert_lookup_L by (by eexists). done.
Qed.

Lemma idle_take s n ids xs rs :
  cache_rep s (n :: ids) xs rs →
  ∃ lh, LinkedListType_remove (cs_links s) n = Ret lh ∧
    cache_rep (cs_set lh (cs_nodes s) s) ids xs rs ∧ outside s ids xs rs n.
Proof.
  intros Hr. destruct (cache_disjoint _ _ _ _ Hr) as (HIX & HIR & HXR).
  destruct Hr as [Hi Hx Hrc Hnd Hin Hn Hd].
  destruct (dl_remove_spec _ _ [] _ _ Hi) as (lh & -> & Hi' & D & F). cbn [app] in *.
  exists lh. split; [done|].
  apply NoDup_cons in Hnd as [Hh Hnd]. apply NoDup_cons in Hnd as [Hn1 Hnd]. split.
  - split; cbn [cs_set cs_links cs_nodes cs_cache]; try done.
    + eapply dl_rep_frame; [|exact Hx]. intros y Hy. apply F. intros Hy2.
      apply (HIX y); [set_solver|done].
    + eapply dl_rep_frame; [|exact Hrc]. intros y Hy. apply F. intros Hy2.
      apply (HIR y); [set_solver|done].
    + cbn [app]. apply NoDup_cons. split; [set_solver|done].
    + intros l Hl. apply Hin. set_solver.
    + by rewrite D.
  - unfold outside. cbn [app]. set_solver.
Qed.

Lemma rep_links_alloc s ids xs rs l : cache_rep s ids xs rs →
  ¬ outside s ids xs rs l → is_Some (cs_links s !! l).
Proof.
  unfold outside. intros Hr Ho. apply dec_stable in Ho.
  apply elem_of_app in Ho as [Ho|[Ho|Ho]%elem_of_app].
  - exact (dl_rep_alloc _ _ _ _ (cr_idle _ _ _ _ Hr) Ho).
  - exact (dl_rep_alloc _ _ _ _ (cr_cache _ _ _ _ Hr) Ho).
  - exact (dl_rep_alloc _ _ _ _ (cr_recycle _ _ _ _ Hr) Ho).
Qed.

Lemma new_node_spec s ids xs rs node s1 :
  cache_rep s ids xs rs → new_node s = (node, s1) →
  cache_rep s1 ids xs rs ∧ outside s1 ids xs rs node ∧ is_Some (cs_nodes s1 !! node) ∧
  cs_cache s1 = cs_cache s.
Proof.
  intros Hr. unfold new_node. intros [= <- <-]. set (l := fresh _).
  assert (cs_links s !! l = None) as Hl by (apply not_elem_of_dom, is_fresh).
  assert (outside s ids xs rs l) as Ho.
  { destruct (decide (outside s ids xs rs l)) as [|Hno]; [done|].
    destruct (rep_links_alloc _ _ _ _ _ Hr Hno). congruence. }
  split; [|split; [exact Ho|split; [eexists; apply lookup_insert_eq|done]]].
  unfold outside in Ho. destruct Hr as [Hi Hx Hrc Hnd Hin Hn Hd].
  split; cbn [cs_set cs_links cs_nodes cs_cache]; try done.
  - eapply dl_rep_frame; [|exact Hi]. intros y Hy. apply lookup_insert_ne. set_solver.
  - eapply dl_rep_frame; [|exact Hx]. intros y Hy. apply lookup_insert_ne. set_solver.
  - eapply dl_rep_frame; [|exact Hrc]. intros y Hy. apply lookup_insert_ne. set_solver.
  - intros y Hy. rewrite lookup_insert_ne by set_solver. by apply Hin.
  - apply nodes_keep; [|done]. rewrite fmap_app. set_solver.
  - rewrite !dom_insert_L. set_solver.
Qed.

Lemma cache_recycle_spec s ids xs rs conn :
  cache_rep s ids xs rs →
  ∃ s' node, ConnectionCache_recycle s conn = Ret s' ∧
    cache_rep s' (tail ids) xs
      (rs ++ [{| pk_node := node; pk_conn := conn; pk_loop := cc_loop_count (cs_cache s) |}]) ∧
    cs_cache s' = cs_cache s.
Proof.
  intros Hr. unfold ConnectionCache_recycle.
  rewrite (dl_first_spec _ _ _ (cr_idle _ _ _ _ Hr)). cbn [obind].
  destruct ids as [|n ids]; cbn [head tail].
  - destruct (new_node s) as [node s1] eqn:En. cbn [obind].
    destruct (new_node_spec _ _ _ _ _ _ Hr En) as (Hr1 & Ho & Hs & Hc).
    destruct (park_spec s1 [] xs rs node conn (cc_loop_count (cs_cache s1)) Hr1 Ho Hs)
      as (nh & lh & -> & Hal & Hr2). cbn [obind]. rewrite Hal. cbn [obind].
    rewrite Hc in Hr2. eexists _, node. split; [done|]. split; [exact Hr2|done].
  - destruct (idle_take _ _ _ _ _ Hr) as (lh1 & -> & Hr1 & Ho). cbn [obind].
    destruct (park_spec (cs_set lh1 (cs_nodes s) s) ids xs rs n conn (cc_loop_count (cs_cache s)) Hr1 Ho)
      as (nh & lh & Hst & Hal & Hr2).
    { apply (cr_idle_nodes _ _ _ _ Hr). set_solver. }
    cbn [cs_set cs_cache cs_nodes cs_links] in *. rewrite Hst. cbn [obind]. rewrite Hal. cbn [obind].
    eexists _, n. split; [done|]. split; [exact Hr2|done].
Qed.

Lemma next_loop_rep s ids xs rs : cache_rep s ids xs rs → cache_rep (cache_next_loop s) ids xs rs.
Proof. by intros [Hi Hx Hrc Hnd Hin Hn Hd]; split. Qed.

(** ** Histories *)
Inductive cache_event :=
| CRecycle (conn : loc)
| CGet (got : ptr)
| CLoop.

Inductive cache_step : cache_state → cache_event → cache_state → Prop :=
| cache_step_recycle s conn s' :
    ConnectionCache_recycle s conn = Ret s' → cache_step s (CRecycle conn) s'
| cache_step_get s got s' : ConnectionCache_get s = Ret (got, s') → cache_step s (CGet got) s'
| cache_step_loop s : cache_step s CLoop (cache_next_loop s).

Inductive cache_trace (s0 : cache_state) : list cache_event → cache_state → Prop :=
| cache_trace_nil : cache_trace s0 [] s0
| cache_trace_snoc es s e s' :
    cache_trace s0 es s → cache_step s e s' → cache_trace s0 (es ++ [e]) s'.

(** The specification: connections waiting, oldest first, each with the loop it
    was recycled in.  A recycled connection is handed out again only in a later
    loop, oldest first; otherwise a new one is made. *)
Record cache_spec := { sp_loop : Z; sp_waiting : list (loc * Z) }.

Definition spec_step (sp : cache_spec) (e : cache_event) : option cache_spec :=
  match e with
  | CRecycle conn =>
      Some {| sp_loop := sp_loop sp; sp_waiting := sp_waiting sp ++ [(conn, sp_loop sp)] |}
  | CLoop => Some {| sp_loop := sp_loop sp + 1; sp_waiting := sp_waiting sp |}
  | CGet got =>
      match sp_waiting sp with
      | (conn, l) :: rest =>
          if l <? sp_loop sp then
            if decide (got = Some conn)
            then Some {| sp_loop := sp_loop sp; sp_waiting := rest |} else None
          else if decide (got = None) then Some sp else None
      | [] => if decide (got = None) then Some sp else None
      end
  end.

Definition spec_run (sp : cache_spec) (es : list cache_event) : option cache_spec :=
  foldl (λ o e, sp ← o; spec_step sp e) (Some sp) es.

Definition cache_abs (s : cache_state) (sp : cache_spec) : Prop :=
  ∃ ids xs rs, cache_rep s ids xs rs ∧ sp_loop sp = cc_loop_count (cs_cache s) ∧
    sp_waiting sp = (λ x, (pk_conn x, pk_loop x)) <$> xs ++ rs ∧
    Forall (λ x, pk_loop x < cc_loop_count (cs_cache s)) xs.

Lemma cache_step_refines s sp e s' :
  cache_abs s sp → cache_step s e s' → ∃ sp', spec_step sp e = Some sp' ∧ cache_abs s' sp'.
Proof.
  intros (ids & xs & rs & Hr & Hl & Hw & HF) Hst. destruct Hst as [s conn s' H|s got s' H|s].
  - destruct (cache_recycle_spec s ids xs rs conn Hr) as (s2 & node & H2 & Hr2 & Hc2).
    rewrite H in H2. injection H2 as <-. eexists. split; [done|].
    eexists _, xs, _. split; [exact Hr2|]. cbn. rewrite Hc2, Hl, Hw.
    split; [done|]. split; [by rewrite !fmap_app, <-app_assoc|done].
  - pose proof (cache_get_spec s ids xs rs Hr) as Hg. destruct xs as [|x xs].
    + destruct (due_split (cc_loop_count (cs_cache s)) rs) as (old & young & -> & Hdue).
      specialize (Hg old young eq_refl Hdue). destruct Hdue as [Ho Hy].
      destruct old as [|x old]; destruct Hg as (s2 & H2 & Hr2 & Hc2); rewrite H in H2;
        injection H2 as -> <-; cbn [spec_step]; rewrite Hw; cbn [app fmap list_fmap].
      * exists sp. cbn in Hw. split.
        { destruct young as [|y young]; cbn; [done|].
          by rewrite Hl, (proj2 (Z.ltb_ge _ _)) by lia. }
        eexists _, [], _. split; [exact Hr2|]. by rewrite Hc2.
      * apply Forall_cons in Ho as [Hx Ho]. rewrite Hl, (proj2 (Z.ltb_lt _ _)) by done.
        rewrite decide_True by done. eexists. split; [done|].
        eexists _, old, young. split; [exact Hr2|]. cbn. by rewrite Hc2.
    + destruct Hg as (s2 & H2 & Hr2 & Hc2). rewrite H in H2. injection H2 as -> <-.
      apply Forall_cons in HF as [Hx HF]. cbn [spec_step]. rewrite Hw. cbn [app fmap list_fmap].
      rewrite Hl, (proj2 (Z.ltb_lt _ _)) by done. rewrite decide_True by done.
      eexists. split; [done|]. eexists _, xs, rs. split; [exact Hr2|]. cbn. by rewrite Hc2.
  - eexists. split; [done|]. exists ids, xs, rs. split; [by apply next_loop_rep|]. cbn.
    split; [by rewrite Hl|]. split; [done|]. eapply Forall_impl; [done|]. intros x Hx. cbn in *. lia.
Qed.

Lemma list_new_spec h l h' : LinkedListType_new h = (l, h') →
  dl_rep h' l [] ∧ h !! l = None ∧ (∀ y, y ≠ l → h' !! y = h !! y) ∧ dom h' = {[l]} ∪ dom h.
Proof.
  unfold LinkedListType_new. intros [= <- <-].
  assert (h !! fresh (dom h) = None) as Hf by (apply not_elem_of_dom, is_fresh).
  split; [|split; [done|split; [intros; by apply lookup_insert_ne|apply dom_insert_L]]].
  split; [apply NoDup_singleton|]. cbn. unfold nx, pv. by rewrite lookup_insert_eq.
Qed.

Lemma cache_new_rep : cache_rep ConnectionCache_new [] [] [].
Proof.
  unfold ConnectionCache_new.
  destruct (LinkedListType_new ∅) as [i h1] eqn:E1.
  destruct (LinkedListType_new h1) as [c h2] eqn:E2.
  destruct (LinkedListType_new h2) as [r h3] eqn:E3.
  apply list_new_spec in E1 as (R1 & _ & _ & D1). apply list_new_spec in E2 as (R2 & N2 & F2 & D2).
  apply list_new_spec in E3 as (R3 & N3 & F3 & D3).
  apply not_elem_of_dom in N2. apply not_elem_of_dom in N3. rewrite D2, D1 in N3. rewrite D1 in N2.
  assert (c ≠ i) by set_solver. assert (r ≠ c ∧ r ≠ i) as [? ?] by set_solver.
  split; cbn [cs_links cs_nodes cs_cache cc_idle_node cc_cache cc_recycle fmap list_fmap].
  - eapply dl_rep_frame; [|exact R1]. intros y ->%list_elem_of_singleton.
    by rewrite F3, F2 by done.
  - eapply dl_rep_frame; [|exact R2]. intros y ->%list_elem_of_singleton. by rewrite F3.
  - done.
  - cbn [app]. repeat (apply NoDup_cons; split; [set_solver|]). constructor.
  - set_solver.
  - constructor.
  - set_solver.
Qed.

(** ** Properties *)

(** C15: over every history the cache behaves as its specification: a connection
    put back is handed out again only after the event loop has turned, the
    longest waiting first, and as often as it was put back; a new one is made
    exactly when none is due.  No operation can fail. *)
Theorem cache_refines_spec es s (Ht : cache_trace ConnectionCache_new es s) :
  ∃ sp, spec_run {| sp_loop := 0; sp_waiting := [] |} es = Some sp ∧ cache_abs s sp ∧
    (∀ conn, ∃ s', ConnectionCache_recycle s conn = Ret s') ∧
    (∃ got s', ConnectionCache_get s = Ret (got, s')).
Proof.
  assert (∃ sp, spec_run {| sp_loop := 0; sp_waiting := [] |} es = Some sp ∧ cache_abs s sp)
    as (sp & Hrun & Habs).
  { induction Ht as [|es s e s' _ (sp & Hrun & Habs) Hst].
    - eexists. split; [done|]. exists [], [], []. split; [apply cache_new_rep|done].
    - destruct (cache_step_refines _ _ _ _ Habs Hst) as (sp' & Hs & Habs').
      exists sp'. split; [|done]. unfold spec_run in *. by rewrite foldl_snoc, Hrun. }
  exists sp. split; [done|]. split; [done|]. destruct Habs as (ids & xs & rs & Hr & _). split.
  - intros conn. destruct (cache_recycle_spec s ids xs rs conn Hr) as (s' & _ & ? & _). eauto.
  - pose proof (cache_get_spec s ids xs rs Hr) as Hg. destruct xs as [|x xs].
    + destruct (due_split (cc_loop_count (cs_cache s)) rs) as (old & young & -> & Hdue).
      specialize (Hg old young eq_refl Hdue). destruct old; destruct Hg as (? & ? & _); eauto.
    + destruct Hg as (? & ? & _). eauto.
Qed.

(** A connection put back in loop 0 is not available in loop 0, and is in loop 1. *)
Lemma cache_refines_spec_witness :
  ∃ s sp,
    let es := [CRecycle 9%positive; CGet None; CLoop; CGet (Some 9%positive)] in
    cache_trace ConnectionCache_new es s ∧
    spec_run {| sp_loop := 0; sp_waiting := [] |} es = Some sp ∧ cache_abs s sp.
Proof.
  destruct (ConnectionCache_recycle ConnectionCache_new 9%positive) as [s1| | | |] eqn:E1;
    try (vm_compute in E1; discriminate).
  destruct (ConnectionCache_get s1) as [[g2 s2]| | | |] eqn:E2;
    [|vm_compute in E1; injection E1 as <-; vm_compute in E2; discriminate..].
  assert (g2 = None) as -> by (vm_compute in E1; injection E1 as <-; vm_compute in E2; by injection E2).
  destruct (ConnectionCache_get (cache_next_loop s2)) as [[g3 s3]| | | |] eqn:E3;
    [|vm_compute in E1; injection E1 as <-; vm_compute in E2; injection E2 as <-;
      vm_compute in E3; discriminate..].
  assert (g3 = Some 9%positive) as ->
    by (vm_compute in E1; injection E1 as <-; vm_compute in E2; injection E2 as <-;
        vm_compute in E3; by injection E3).
  assert (cache_trace ConnectionCache_new
    [CRecycle 9%positive; CGet None; CLoop; CGet (Some 9%positive)] s3) as Ht.
  { apply (cache_trace_snoc _ [_; _; _] (cache_next_loop s2)); [|by constructor].
    apply (cache_trace_snoc _ [_; _] s2); [|by constructor].
    apply (cache_trace_snoc _ [_] s1); [|by constructor].
    apply (cache_trace_snoc _ [] ConnectionCache_new); [constructor|by constructor]. }
  destruct (cache_refines_spec _ _ Ht) as (sp & Hrun & Habs & _).
  exists s3, sp. split; [exact Ht|]. split; [exact Hrun|exact Habs].
Defined.
