(* ===== verification/IoApp.v ===== *)
(** io::IoApp (framework/io/io_app.cpp): one I/O thread.

    The thread owns its connection objects, the register of open connections by
    id, the cache of closed ones, and reads two queues other threads fill: new
    sockets and messages to push.  Its event loop calls [newConnection], [push]
    and the read and write handlers of its connections one at a time, so each is
    one step on the state.  The notification socket pairs that wake the loop up
    are in IoNotify.v and EventLoop.v. *)
From S2P Require Import Prelude Heap Bytes MsMessage MsQueues LibQueues IoPushList IoSampling IoConnection IoAppConnection LinkedList ConnCache.

(** ** State *)
(** What [destroy] changes. *)
Record app_owner := mkOwner {
  ao_conn_count : Z;
  ao_online : conn_register;
  ao_cache : cache_state }.

(** [IoApp::Impl::destroy] *)
Definition IoApp_destroy (self : loc) (c : IoConnection) (d : app_owner) : outcome app_owner :=
  let* cache := ConnectionCache_recycle (ao_cache d) self in
  Ret (mkOwner (ao_conn_count d - 1) (ConnectionRegister_unset (ao_online d) (c_id c)) cache).

#[export] Instance app_conn_owner : ConnOwner app_owner := {| owner_destroy := IoApp_destroy |}.

Record app_config := {
  cf_id : Z; cf_rtimeout : Z; cf_wtimeout : Z;
  cf_second_limit : Z; cf_minute_limit : Z; cf_hour_limit : Z }.

(** The limits a new thread starts with. *)
Definition IoApp_config_new (id : Z) : app_config :=
  {| cf_id := id; cf_rtimeout := 0; cf_wtimeout := 0; cf_second_limit := 0x0FFFFFFF;
     cf_minute_limit := 0x0FFFFFFF; cf_hour_limit := 0x0FFFFFFF |}.

(** The connection objects: the base class part and the rest. *)
Abbreviation connheap := (gmap loc (IoConnection * IoAppConnection)).

Record IoApp (S : Type) := mkIoApp {
  ia_config : app_config;
  ia_owner : app_owner;
  ia_conns : connheap;
  ia_socks : qheap;
  ia_sock_queue : Queue;
  ia_msg_queue : MsMessageQueue;
  ia_msgs : mheap;
  ia_pushes : pheap;
  ia_proc : S;
  ia_collector : option MsMessageBlockQueue;
  ia_now : Z * Z }.
Arguments mkIoApp {S}.
Arguments ia_config {S}.
Arguments ia_owner {S}.
Arguments ia_conns {S}.
Arguments ia_socks {S}.
Arguments ia_sock_queue {S}.
Arguments ia_msg_queue {S}.
Arguments ia_msgs {S}.
Arguments ia_pushes {S}.
Arguments ia_proc {S}.
Arguments ia_collector {S}.
Arguments ia_now {S}.

Section ioapp.
Context {S : Type} {HS : IoProcessor S}.
Implicit Types (a : IoApp S).

Definition IoApp_connCount a : Z := ao_conn_count (ia_owner a).

Definition ia_set_conns (cs : connheap) a : IoApp S :=
  mkIoApp (ia_config a) (ia_owner a) cs (ia_socks a) (ia_sock_queue a) (ia_msg_queue a)
    (ia_msgs a) (ia_pushes a) (ia_proc a) (ia_collector a) (ia_now a).
Definition ia_set_owner (d : app_owner) a : IoApp S :=
  mkIoApp (ia_config a) d (ia_conns a) (ia_socks a) (ia_sock_queue a) (ia_msg_queue a)
    (ia_msgs a) (ia_pushes a) (ia_proc a) (ia_collector a) (ia_now a).
Definition ia_set_socks (h : qheap) (q : Queue) a : IoApp S :=
  mkIoApp (ia_config a) (ia_owner a) (ia_conns a) h q (ia_msg_queue a)
    (ia_msgs a) (ia_pushes a) (ia_proc a) (ia_collector a) (ia_now a).
Definition ia_set_msg_queue (q : MsMessageQueue) a : IoApp S :=
  mkIoApp (ia_config a) (ia_owner a) (ia_conns a) (ia_socks a) (ia_sock_queue a) q
    (ia_msgs a) (ia_pushes a) (ia_proc a) (ia_collector a) (ia_now a).
Definition ia_set_msgs (mh : mheap) a : IoApp S :=
  mkIoApp (ia_config a) (ia_owner a) (ia_conns a) (ia_socks a) (ia_sock_queue a) (ia_msg_queue a)
    mh (ia_pushes a) (ia_proc a) (ia_collector a) (ia_now a).
Definition ia_set_collector (k : option MsMessageBlockQueue) a : IoApp S :=
  mkIoApp (ia_config a) (ia_owner a) (ia_conns a) (ia_socks a) (ia_sock_queue a) (ia_msg_queue a)
    (ia_msgs a) (ia_pushes a) (ia_proc a) k (ia_now a).

(** The world of the connection at [l], and the thread after it acted. *)
Definition conn_world a (l : loc) (ap : IoAppConnection) : app_world S app_owner :=
  mkWorld l ap (ia_msgs a) (ia_pushes a) (ia_proc a) (ia_collector a) (ia_now a) (ia_owner a).

Definition put_conn a (l : loc) (c : IoConnection) (w : app_world S app_owner) : IoApp S :=
  mkIoApp (ia_config a) (aw_owner w) (<[l := (c, aw_app w)]> (ia_conns a)) (ia_socks a)
    (ia_sock_queue a) (ia_msg_queue a) (aw_msgs w) (aw_pushes w) (aw_proc w) (aw_collector w) (ia_now a).

(** ** Events *)
(** A read or write event on the connection at [l]. *)
Definition IoApp_read_event (fuel : nat) (which : Z) a (l : loc) (net : socket_io)
    : outcome (IoApp S * socket_io) :=
  let* (c, ap) := load (ia_conns a) (Some l) in
  let* (c, w, net) := readHandler fuel which c (conn_world a l ap) net in
  Ret (put_conn a l c w, net).

Definition IoApp_write_event (which : Z) a (l : loc) (net : socket_io)
    : outcome (IoApp S * socket_io) :=
  let* (c, ap) := load (ia_conns a) (Some l) in
  let* (c, w, net) := writeHandler which c (conn_world a l ap) net in
  Ret (put_conn a l c w, net).

(** [_cache.get()], which constructs a connection when the cache has none. *)
Definition take_conn a : outcome (loc * IoApp S) :=
  let d := ia_owner a in
  let* (got, cache) := ConnectionCache_get (ao_cache d) in
  let a := ia_set_owner (mkOwner (ao_conn_count d) (ao_online d) cache) a in
  match got with
  | Some l => Ret (l, a)
  | None =>
      let (l, cs) := alloc (ia_conns a)
        (IoConnection_new, IoAppConnection_new (fst (ia_now a))) in
      Ret (l, ia_set_conns cs a)
  end.

(** The base part of a connection set up for a new socket. *)
Definition setup_base (cf : app_config) (c : IoConnection) (fd id : Z) : IoConnection :=
  let c := IoConnection_initialize c fd (cf_id cf) id in
  let c := cset_rtimeout (cf_rtimeout cf) c in
  let c := cset_wtimeout (cf_wtimeout cf) c in
  let c := cset_when_destroy true c in
  _setRead c true.

Definition setup_app (cf : app_config) (ap : IoAppConnection) : IoAppConnection :=
  let ap := IoAppConnection_initialize ap in
  mkApp (ap_state ap) (ap_sampling ap) (ap_push_buffer ap) (ap_pending_data ap)
    (cf_second_limit cf) (cf_minute_limit cf) (cf_hour_limit cf).

(** One turn of the loop of [newConnection]. *)
Definition new_one a (fd id : Z) : outcome (IoApp S) :=
  let d := ia_owner a in
  let a := ia_set_owner (mkOwner (ao_conn_count d + 1) (ao_online d) (ao_cache d)) a in
  let* (l, a) := take_conn a in
  let* (c, ap) := load (ia_conns a) (Some l) in
  let* cs := store (ia_conns a) (Some l)
               (setup_base (ia_config a) c fd id, setup_app (ia_config a) ap) in
  let d := ia_owner a in
  Ret (ia_set_owner (mkOwner (ao_conn_count d) (ConnectionRegister_set (ao_online d) id l) (ao_cache d))
         (ia_set_conns cs a)).

Fixpoint new_loop (fuel : nat) a (list : ptr) : outcome (IoApp S) :=
  match list with
  | None => Ret a
  | Some _ =>
      match fuel with
      | O => Diverge
      | Datatypes.S fuel =>
          let* e := load (ia_socks a) list in
          let* h := Queue_freeQueueElement (ia_socks a) list in
          let* a := new_one (ia_set_socks h (ia_sock_queue a) a) (qe_value e) (qe_id e) in
          new_loop fuel a (qe_next e)
      end
  end.

Definition IoApp_newConnection a : outcome (IoApp S) :=
  let (list, q) := Queue_get (ia_sock_queue a) in
  let a := ia_set_socks (ia_socks a) q a in
  let* a := new_loop (size (ia_socks a)) a list in
  let d := ia_owner a in
  Ret (ia_set_owner (mkOwner (ao_conn_count d) (ao_online d) (cache_next_loop (ao_cache d))) a).

Definition IoApp_pushMessage a (msg : loc) : outcome (IoApp S) :=
  let* m := load (ia_msgs a) (Some msg) in
  match ConnectionRegister_get (ao_online (ia_owner a)) (msg_conn m) with
  | Some l =>
      let* (c, ap) := load (ia_conns a) (Some l) in
      let* ap := match msg_switch_state m with
                 | Some f => let* s := defined (msg_state m) in Ret (switch_state_call f ap s)
                 | None => Ret ap
                 end in
      let c := setWrite c true in
      let* w := IoAppConnection_pushMsgData (conn_world a l ap) (Some msg) in
      Ret (put_conn a l c w)
  | None =>
      match ia_collector a with
      | Some k =>
          let* (mh, k) := MsMessageBlockQueue_put (ia_msgs a) k (Some msg) in
          Ret (ia_set_collector (Some k) (ia_set_msgs mh a))
      | None =>
          let* mh := releaseIMessage (ia_msgs a) (Some msg) in Ret (ia_set_msgs mh a)
      end
  end.

Fixpoint push_loop (fuel : nat) a (list : ptr) : outcome (IoApp S) :=
  match list with
  | None => Ret a
  | Some item =>
      match fuel with
      | O => Diverge
      | Datatypes.S fuel =>
          let* m := load (ia_msgs a) list in
          let* mh := store_next (ia_msgs a) list None in
          let* a := IoApp_pushMessage (ia_set_msgs mh a) item in
          push_loop fuel a (msg_next m)
      end
  end.

Definition IoApp_push a : outcome (IoApp S) :=
  let (list, q) := MsMessageQueue_get (ia_msg_queue a) in
  push_loop (size (ia_msgs a)) (ia_set_msg_queue q a) list.

(** ** Invariant

    Open connections are registered under their own id and marked for the
    thread's [destroy]; the objects parked in the cache are not among them; the
    count is the number of registered connections. *)
Definition parked_conns (d : app_owner) (ps : list loc) : Prop :=
  ∃ ids xs rs, cache_rep (ao_cache d) ids xs rs ∧ ps = pk_conn <$> (xs ++ rs).

Record app_inv a (ps : list loc) : Prop := {
  ai_count : ao_conn_count (ia_owner a) = Z.of_nat (size (ao_online (ia_owner a)));
  ai_online : ∀ id l, ao_online (ia_owner a) !! id = Some l →
    ∃ c ap, ia_conns a !! l = Some (c, ap) ∧ c_id c = id ∧ c_when_destroy c = true ∧
            c_destroy c = 0;
  ai_parked : parked_conns (ia_owner a) ps;
  ai_parked_objects : ∀ l, l ∈ ps → is_Some (ia_conns a !! l);
  ai_disjoint : ∀ id l, ao_online (ia_owner a) !! id = Some l → l ∉ ps;
  ai_nodup : NoDup ps }.
End ioapp.

(** ** Lemmas *)
Section ioapp_lemmas.
Context {S : Type} {HS : IoProcessor S}.
Implicit Types (a : IoApp S).

(** What the cache hands out is the parked object that waited longest, if any is
    due. *)
Lemma parked_get d ps :
  parked_conns d ps →
  ∃ got cache, ConnectionCache_get (ao_cache d) = Ret (got, cache) ∧
    match got with
    | Some l => ∃ ps', ps = l :: ps' ∧ parked_conns (mkOwner (ao_conn_count d) (ao_online d) cache) ps'
    | None => parked_conns (mkOwner (ao_conn_count d) (ao_online d) cache) ps
    end.
Proof.
  intros (ids & xs & rs & Hr & ->). pose proof (cache_get_spec _ _ _ _ Hr) as Hg.
  destruct xs as [|x xs].
  - destruct (due_split (cc_loop_count (cs_cache (ao_cache d))) rs) as (old & young & -> & Hdue).
    specialize (Hg old young eq_refl Hdue). destruct old as [|x old].
    + destruct Hg as (s & Hg & Hr' & _). exists None, s. split; [done|].
      exists ids, [], young. done.
    + destruct Hg as (s & Hg & Hr' & _). exists (Some (pk_conn x)), s. split; [done|].
      eexists. split; [done|]. exists (pk_node x :: ids), old, young. done.
  - destruct Hg as (s & Hg & Hr' & _). exists (Some (pk_conn x)), s. split; [done|].
    eexists. split; [done|]. exists (pk_node x :: ids), xs, rs. done.
Qed.

Lemma parked_owner d d' ps : ao_cache d' = ao_cache d → parked_conns d ps → parked_conns d' ps.
Proof. intros E (ids & xs & rs & Hr & ->). exists ids, xs, rs. by rewrite E. Qed.

(** A connection object for a new socket, and its previous contents. *)
Lemma take_conn_spec a ps :
  app_inv a ps →
  ∃ l a' c ap ps', take_conn a = Ret (l, a') ∧ ia_conns a' !! l = Some (c, ap) ∧
    parked_conns (ia_owner a') ps' ∧ (l ∉ ps') ∧ ps' ⊆ ps ∧ NoDup ps' ∧
    (∀ id, ao_online (ia_owner a) !! id ≠ Some l) ∧
    ao_online (ia_owner a') = ao_online (ia_owner a) ∧
    ao_conn_count (ia_owner a') = ao_conn_count (ia_owner a) ∧
    ia_config a' = ia_config a ∧ ia_socks a' = ia_socks a ∧
    (∀ k, is_Some (ia_conns a !! k) → ia_conns a' !! k = ia_conns a !! k) ∧
    (is_Some (ia_conns a !! l) → ps = l :: ps').
Proof.
  intros [Hcnt Hon Hpk Hobj Hdis Hnd]. unfold take_conn.
  destruct (parked_get _ _ Hpk) as (got & cache & -> & Hgot). cbn [obind]. destruct got as [l|].
  - destruct Hgot as (ps' & -> & Hpk'). destruct (Hobj l) as [[c ap] El]; [set_solver|].
    apply NoDup_cons in Hnd as [Hl Hnd]. eexists l, _, c, ap, ps'. split; [done|].
    split; [done|]. split; [done|]. split; [done|]. split; [set_solver|]. split; [done|].
    split; [|done]. intros id Hid. apply (Hdis _ _ Hid). set_solver.
  - destruct (alloc _ _) as [l cs] eqn:Ea. apply alloc_fresh in Ea as [En ->]. cbn in En.
    eexists l, _, _, _, ps. split; [done|]. cbn.
    split; [apply lookup_insert_eq|]. split; [exact Hgot|].
    split; [intros Hl; destruct (Hobj l Hl); congruence|]. split; [done|]. split; [done|].
    split; [intros id Hid; destruct (Hon _ _ Hid) as (? & ? & ? & _); congruence|].
    split_and!; try done.
    + intros k [x Hk]. rewrite lookup_insert_ne; [done|congruence].
    + intros [x Hx]. congruence.
Qed.

(** The connection [l] was set up for [fd] under [id]. *)
Definition opened a (fd id : Z) : Prop :=
  ∃ l c ap, ao_online (ia_owner a) !! id = Some l ∧ ia_conns a !! l = Some (c, ap) ∧
    c_socket c = fd ∧ c_id c = id ∧ c_io c = cf_id (ia_config a) ∧
    c_revent c = Some (Z.lor EV_READ EV_PERSIST, event_timeout (cf_rtimeout (ia_config a))) ∧
    ap_state ap = 0.

Lemma setup_base_fields cf c fd id :
  let c' := setup_base cf c fd id in
  c_socket c' = fd ∧ c_id c' = id ∧ c_io c' = cf_id cf ∧ c_when_destroy c' = true ∧
  c_destroy c' = 0 ∧
  c_revent c' = Some (Z.lor EV_READ EV_PERSIST, event_timeout (cf_rtimeout cf)).
Proof. done. Qed.

Lemma new_one_spec a ps fd id :
  app_inv a ps → ao_online (ia_owner a) !! id = None →
  ∃ a' ps', new_one a fd id = Ret a' ∧ app_inv a' ps' ∧ opened a' fd id ∧
    ao_online (ia_owner a') !! id ≠ None ∧
    (∀ k, k ≠ id → ao_online (ia_owner a') !! k = ao_online (ia_owner a) !! k) ∧
    (∀ k l, ao_online (ia_owner a) !! k = Some l → ia_conns a' !! l = ia_conns a !! l) ∧
    ia_config a' = ia_config a ∧ ia_socks a' = ia_socks a ∧
    IoApp_connCount a' = IoApp_connCount a + 1.
Proof.
  intros Hinv Hid. unfold new_one.
  set (a1 := ia_set_owner _ a).
  assert (∃ l a' c ap ps', take_conn a1 = Ret (l, a') ∧ ia_conns a' !! l = Some (c, ap) ∧
    parked_conns (ia_owner a') ps' ∧ (l ∉ ps') ∧ ps' ⊆ ps ∧ NoDup ps' ∧
    (∀ id, ao_online (ia_owner a) !! id ≠ Some l) ∧
    ao_online (ia_owner a') = ao_online (ia_owner a) ∧
    ao_conn_count (ia_owner a') = ao_conn_count (ia_owner a) + 1 ∧
    ia_config a' = ia_config a ∧ ia_socks a' = ia_socks a ∧
    (∀ k, is_Some (ia_conns a !! k) → ia_conns a' !! k = ia_conns a !! k))
    as (l & a' & c & ap & ps' & Ht & El & Hpk & Hl & Hsub & Hnd & Hno & Eo & Ec & Ecf & Esk & Ek).
  { destruct (take_conn_spec a ps Hinv) as
      (l & a' & c & ap & ps' & Ht & El & Hpk & Hl & Hsub & Hnd & Hno & Eo & Ec & Ecf & Esk & Ek & _).
    revert Ht. unfold take_conn. intros (([l0|] & cache) & Hg & Ht)%obind_Ret_inv;
      cbn [ia_set_owner ia_conns ia_now ia_owner ao_conn_count ao_online ao_cache] in *;
      [|destruct (alloc (ia_conns a) _) as [l1 cs] eqn:Ea].
    all: injection Ht as <- <-; cbn [ia_owner ia_conns ao_online ao_conn_count ao_cache ia_set_conns ia_set_owner ia_config ia_socks] in *.
    all: eexists _, _, c, ap, ps'; split; [unfold take_conn, a1; cbn [ia_set_owner ia_owner ao_cache ia_conns ia_now ao_conn_count ao_online];
      rewrite Hg; cbn [obind]; try rewrite Ea; done|]; cbn; split; [done|];
      split; [by eapply parked_owner; [|exact Hpk]|]; done. }
  rewrite Ht. cbn [obind]. rewrite (load_Some _ _ _ El). cbn [obind].
  rewrite (store_Some _ _ _ _ El). cbn [obind].
  destruct Hinv as [Hcnt Hon Hpk0 Hobj Hdis Hnd0].
  destruct (setup_base_fields (ia_config a') c fd id) as (F1 & F2 & F3 & F4 & F5 & F6).
  eexists _, ps'. split; [done|]. unfold opened, IoApp_connCount, ConnectionRegister_set.
  cbn [ia_set_owner ia_set_conns ia_owner ia_conns ia_config ia_socks ao_online ao_conn_count ao_cache] in *.
  rewrite Eo, Ec. split; [|split; [|split; [|split; [|split]]]].
  - split; cbn [ia_set_owner ia_set_conns ia_owner ia_conns ao_online ao_conn_count ao_cache].
    + rewrite map_size_insert_None by done. lia.
    + intros k l0 Hk. destruct (decide (k = id)) as [->|Hne].
      * rewrite lookup_insert_eq in Hk. injection Hk as <-. rewrite lookup_insert_eq. eauto 10.
      * rewrite lookup_insert_ne in Hk by done. destruct (Hon _ _ Hk) as (c0 & ap0 & E0 & H0).
        assert (l0 ≠ l) by (intros ->; by apply (Hno k)).
        exists c0, ap0. rewrite lookup_insert_ne by done. rewrite Ek by eauto. done.
    + eapply parked_owner; [|exact Hpk]. done.
    + intros k Hk. destruct (decide (k = l)) as [->|]; [rewrite lookup_insert_eq; by eexists|].
      rewrite lookup_insert_ne by done. destruct (Hobj k) as [x Hx]; [set_solver|].
      rewrite Ek by eauto. eauto.
    + intros k l0 Hk. destruct (decide (k = id)) as [->|Hne].
      * rewrite lookup_insert_eq in Hk. by injection Hk as <-.
      * rewrite lookup_insert_ne in Hk by done. intros Hin. apply (Hdis _ _ Hk). set_solver.
    + done.
  - eexists l, _, _. rewrite !lookup_insert_eq. split; [done|]. split; [done|]. done.
  - by rewrite lookup_insert_eq.
  - intros k Hk. by rewrite lookup_insert_ne.
  - intros k l0 Hk. destruct (Hon _ _ Hk) as (c0 & ap0 & E0 & _).
    rewrite lookup_insert_ne by (intros ->; by apply (Hno k)). rewrite Ek; eauto.
  - done.
Qed.

(** Later steps leave registered connections alone. *)
Definition keeps a a' : Prop :=
  ia_config a' = ia_config a ∧
  ∀ k l, ao_online (ia_owner a) !! k = Some l →
    ao_online (ia_owner a') !! k = Some l ∧ ia_conns a' !! l = ia_conns a !! l.

Lemma keeps_opened a a' fd id : keeps a a' → opened a fd id → opened a' fd id.
Proof.
  intros [Ec Hk] (l & c & ap & Hl & Hc & H). destruct (Hk _ _ Hl) as [Hl' Hc'].
  exists l, c, ap. rewrite Hl', Hc', Ec. done.
Qed.

Lemma keeps_trans a1 a2 a3 : keeps a1 a2 → keeps a2 a3 → keeps a1 a3.
Proof.
  intros [E1 K1] [E2 K2]. split; [congruence|]. intros k l Hk.
  destruct (K1 _ _ Hk) as [Hk1 Hc1]. destruct (K2 _ _ Hk1) as [Hk2 Hc2]. split; congruence.
Qed.

Definition sock_vals (h : qheap) (ls : list loc) (xs : list (Z * Z)) : Prop :=
  Forall2 (λ l x, ∃ e, h !! l = Some e ∧ (qe_value e, qe_id e) = x) ls xs.

Lemma app_inv_socks a ps h q : app_inv a ps → app_inv (ia_set_socks h q a) ps.
Proof. by intros [? ? ? ? ? ?]; split. Qed.

Lemma new_loop_spec fuel a list ls xs ps :
  app_inv a ps → lseg (ia_socks a) list ls None → sock_vals (ia_socks a) ls xs →
  NoDup (snd <$> xs) → (∀ id, id ∈ (snd <$> xs) → ao_online (ia_owner a) !! id = None) →
  (length ls ≤ fuel)%nat →
  ∃ a' ps', new_loop fuel a list = Ret a' ∧ app_inv a' ps' ∧ keeps a a' ∧
    (∀ x, x ∈ xs → opened a' (fst x) (snd x)) ∧
    IoApp_connCount a' = IoApp_connCount a + Z.of_nat (length xs).
Proof.
  revert a list ls xs ps. induction fuel as [|fuel IH]; intros a list ls xs ps Hinv Hs HF Hnd Hno Hf.
  { destruct ls; [|simpl in Hf; lia]. apply Forall2_nil_inv_l in HF as ->. simpl in Hs. subst list.
    exists a, ps. split; [done|]. split; [done|]. split; [by split|]. split; [set_solver|]. simpl. lia. }
  pose proof (lseg_NoDup _ _ _ Hs) as Hndl.
  destruct HF as [|l [fd id] ls xs (e & Ee & [= <- <-]) HF].
  { simpl in Hs. subst list. exists a, ps. split; [done|]. split; [done|]. split; [by split|].
    split; [set_solver|]. simpl. lia. }
  destruct Hs as (-> & e' & Ee' & Hs). assert (e' = e) as -> by congruence.
  apply NoDup_cons in Hndl as [Hl _]. cbn [fmap list_fmap snd fst] in *.
  apply NoDup_cons in Hnd as [Hid Hnd]. cbn [new_loop].
  rewrite (load_Some _ _ _ Ee). cbn [obind]. unfold Queue_freeQueueElement.
  rewrite (dealloc_Some _ _ _ Ee). cbn [obind].
  destruct (new_one_spec (ia_set_socks (delete l (ia_socks a)) (ia_sock_queue a) a) ps
    (qe_value e) (qe_id e)) as (a1 & ps1 & -> & Hinv1 & Hop & _ & Hon1 & Hk1 & Ecf & Esk & Ecnt);
    [by apply app_inv_socks|apply Hno; set_solver|].
  cbn [obind ia_set_socks ia_socks ia_owner ia_conns ia_config] in *.
  destruct (IH a1 (qe_next e) ls xs ps1) as (a2 & ps2 & -> & Hinv2 & Hk2 & Hop2 & Ecnt2).
  - done.
  - rewrite Esk. by apply lseg_delete.
  - rewrite Esk. clear -HF Hl. induction HF as [|k x ks xs (n & En & Hx) HF IH]; constructor.
    + exists n. rewrite lookup_delete_ne by set_solver. done.
    + apply IH. set_solver.
  - done.
  - intros k Hk. rewrite Hon1 by (intros ->; done). apply Hno. set_solver.
  - simpl in Hf. lia.
  - exists a2, ps2. split; [done|]. split; [done|]. split; [|split].
    + eapply keeps_trans; [|exact Hk2]. split; [done|]. intros k l0 Hk.
      split; [|by apply (Hk1 k)]. rewrite Hon1; [done|]. intros ->.
      rewrite Hno in Hk by set_solver. done.
    + intros x [->|Hx]%elem_of_cons; [|by apply Hop2]. by eapply keeps_opened.
    + rewrite Ecnt2, Ecnt. unfold IoApp_connCount. cbn. lia.
Qed.

(** The thread with other connections and stores. *)
Definition ia_set_out (cs : connheap) (mh : mheap) (ph : pheap) a : IoApp S :=
  mkIoApp (ia_config a) (ia_owner a) cs (ia_socks a) (ia_sock_queue a) (ia_msg_queue a)
    mh ph (ia_proc a) (ia_collector a) (ia_now a).

(** A connection that acted within its outbox. *)
Lemma put_conn_touches ms ds a l ap w c :
  touches ms ds (conn_world a l ap) w →
  ∃ mh ph q, put_conn a l c w = ia_set_out (<[l := (c, ap_with_push q ap)]> (ia_conns a)) mh ph a ∧
    aw_msgs w = mh ∧ aw_pushes w = ph ∧ aw_app w = ap_with_push q ap ∧
    same_outside ms (ia_msgs a) mh ∧ same_outside ds (ia_pushes a) ph.
Proof. intros (mh & ph & q & -> & Hm & Hp). exists mh, ph, q. done. Qed.

(** The state a message switches a connection to. *)
Definition switched_state (m : IMessage) (ap : IoAppConnection) : option Z :=
  match msg_switch_state m with Some _ => msg_state m | None => Some (ap_state ap) end.

(** A message for an open connection is appended to its outbox. *)
Lemma pushMessage_online a l0 m l c ap o bs :
  ia_msgs a !! l0 = Some m → is_Some (switched_state m ap) →
  ConnectionRegister_get (ao_online (ia_owner a)) (msg_conn m) = Some l →
  ia_conns a !! l = Some (c, ap) →
  outbox_rep (ia_msgs a) (ia_pushes a) (ap_push_buffer ap) (c_current_push c) o →
  frame_ready (ia_msgs a) l0 bs → l0 ∉ ob_msgs o →
  ∃ ap' mh ph d, ia_pushes a !! d = None ∧
    IoApp_pushMessage a l0 = Ret (ia_set_out (<[l := (setWrite c true, ap')]> (ia_conns a)) mh ph a) ∧
    outbox_rep mh ph (ap_push_buffer ap') (c_current_push c) (ob_snoc o (d, l0, bs)) ∧
    same_outside (l0 :: ob_msgs o) (ia_msgs a) mh ∧ same_outside (d :: ob_nodes o) (ia_pushes a) ph ∧
    Some (ap_state ap') = switched_state m ap.
Proof.
  intros Em [st Hst] Eg El Ho Hf Hl. unfold IoApp_pushMessage. rewrite (load_Some _ _ _ Em). cbn [obind].
  rewrite Eg, (load_Some _ _ _ El). cbn [obind].
  assert (match msg_switch_state m with
          | Some f => let* s := defined (msg_state m) in Ret (switch_state_call f ap s)
          | None => Ret ap
          end = Ret (ap_with_state st ap)) as ->.
  { unfold switched_state in Hst. destruct (msg_switch_state m) as [[]|].
    - by rewrite Hst.
    - injection Hst as <-. by destruct ap. }
  cbn [obind].
  destruct (pushMsgData_outbox (c_current_push c) (conn_world a l (ap_with_state st ap)) o l0 bs Ho Hf Hl)
    as (w & d & -> & Ed & Ho' & Ht). cbn [obind].
  destruct (put_conn_touches _ _ a l (ap_with_state st ap) w (setWrite c true) Ht)
    as (mh & ph & q & -> & Ew1 & Ew2 & Ew3 & Hm & Hp).
  eexists _, mh, ph, d. split; [done|]. split; [done|]. split; [|by rewrite Hst].
  unfold world_out in Ho'. by rewrite Ew1, Ew2, Ew3 in Ho'.
Qed.

(** A writable event on an open connection. *)
Lemma write_event_outbox which a l c ap o net :
  ia_conns a !! l = Some (c, ap) → c_destroy c = 0 → Z.land which EV_TIMEOUT = 0 →
  c_socket c ≠ -1 → c_wsock_state c = SOCKET_DATA_WRITE →
  outbox_rep (ia_msgs a) (ia_pushes a) (ap_push_buffer ap) (c_current_push c) o → sends_ok (net_send net) →
  ∃ q mh ph net' o', IoApp_write_event which a l net =
      Ret (ia_set_out (<[l := (after_write c o', ap_with_push q ap)]> (ia_conns a)) mh ph a, net') ∧
    outbox_rep mh ph q (c_current_push (after_write c o')) o' ∧
    net_out net' ++ ob_bytes o' = net_out net ++ ob_bytes o ∧
    ob_all o' `suffix_of` ob_all o ∧ (ob_cur o' = None → ob_queue o' = []) ∧
    same_outside (ob_msgs o) (ia_msgs a) mh ∧ same_outside (ob_nodes o) (ia_pushes a) ph ∧
    ob_shrinks (net_send net) o o'.
Proof.
  intros El Hd Hwh Hs Hst Ho Hok. unfold IoApp_write_event, writeHandler.
  rewrite (load_Some _ _ _ El). cbn [obind]. rewrite Hd, Hwh. cbn [Z.eqb negb].
  destruct (writeSocket_outbox c (conn_world a l ap) net o Hs Hst Ho Hok)
    as (c' & w' & net' & o' & -> & -> & Ho' & Hb & _ & Hsuf & Hidle & Ht & Hm). cbn [obind].
  destruct (put_conn_touches _ _ a l ap w' (after_write c o') Ht) as (mh & ph & q & -> & Ew1 & Ew2 & Ew3 & H1 & H2).
  exists q, mh, ph, net', o'. unfold world_out in Ho'. rewrite Ew1, Ew2, Ew3 in Ho'. done.
Qed.
End ioapp_lemmas.

(** A processor for the concrete instances below. *)
Definition wit_ioapp : IoApp (list ptr) :=
  mkIoApp {| cf_id := 0; cf_rtimeout := 10; cf_wtimeout := 10; cf_second_limit := 3;
             cf_minute_limit := 30; cf_hour_limit := 500 |}
    (mkOwner 0 ∅ ConnectionCache_new) ∅ ∅ Queue_new MsMessageQueue_new ∅ ∅ [] None (0, 0).

Lemma wit_ioapp_inv : app_inv wit_ioapp [].
Proof.
  split; try done.
  - exists [], [], []. split; [apply cache_new_rep|done].
  - set_solver.
  - constructor.
Qed.

(** ** Properties *)

(** C21: [newConnection] takes every socket the accepting thread queued.  When the
    ids are new, each gets a connection object of its own, registered under its
    id, initialised for its socket and waiting to be read; connections that were
    open are untouched, the queue is empty, the count is the number of open
    connections, and no object is both open and parked. *)
Theorem newConnection_opens_all {S} (a : IoApp S) xs ps
    (Hinv : app_inv a ps) (Hq : queue_rep (ia_socks a) (ia_sock_queue a) xs)
    (Hnd : NoDup (snd <$> xs))
    (Hnew : ∀ id, id ∈ (snd <$> xs) → ao_online (ia_owner a) !! id = None) :
  ∃ a' ps', IoApp_newConnection a = Ret a' ∧ app_inv a' ps' ∧ keeps a a' ∧
    (∀ fd id, (fd, id) ∈ xs → opened a' fd id) ∧
    IoApp_connCount a' = IoApp_connCount a + Z.of_nat (length xs).
Proof.
  destruct Hq as (ls & Hq & HF). unfold IoApp_newConnection, Queue_get.
  destruct (new_loop_spec (size (ia_socks a)) (ia_set_socks (ia_socks a) Queue_new a)
    (q_head (ia_sock_queue a)) ls xs ps) as (a1 & ps1 & Hl & Hinv1 & Hk & Hop & Hcnt); try done.
  - by apply app_inv_socks.
  - apply Hq.
  - exact (lseg_length _ _ _ (proj1 Hq)).
  - unfold Queue_new in Hl. cbn [ia_socks ia_set_socks] in *. rewrite Hl. cbn [obind].
    eexists _, ps1. split; [done|]. split; [|split; [exact Hk|split; [|done]]].
    + destruct Hinv1 as [? ? (ids & ys & rs & Hr & ->) ? ? ?]. split; try done.
      exists ids, ys, rs. split; [by apply next_loop_rep|done].
    + intros fd id Hin. exact (Hop (fd, id) Hin).
Qed.

Lemma newConnection_opens_all_witness :
  ∃ h q a' ps', Queue_put ∅ Queue_new 5 77 = Ret (h, q) ∧
    IoApp_newConnection (ia_set_socks h q wit_ioapp) = Ret a' ∧ app_inv a' ps' ∧
    opened a' 5 77 ∧ IoApp_connCount a' = 1.
Proof.
  destruct (Queue_put_spec ∅ Queue_new [] 5 77) as (h & q & Hp & Hq).
  { exists []. split; [done|constructor]. }
  destruct (newConnection_opens_all (ia_set_socks h q wit_ioapp) [(5, 77)] [])
    as (a' & ps' & Hn & Hinv & _ & Hop & Hc).
  - apply app_inv_socks, wit_ioapp_inv.
  - exact Hq.
  - apply NoDup_singleton.
  - intros id _. apply lookup_empty.
  - exists h, q, a', ps'. split; [done|]. split; [done|]. split; [done|].
    split; [apply Hop; set_solver|done].
Defined.

(** closing an open connection once keeps the count equal to the number of
    registered connections and parks the object; closing it again, as the error
    path of [readSocket] does, makes the count one too small and parks the same
    object twice, so that two later clients are given the same connection. *)
Theorem destroy_twice_breaks_count l c d ps
    (Hcnt : ao_conn_count d = Z.of_nat (size (ao_online d)))
    (Hon : ao_online d !! c_id c = Some l) (Hpk : parked_conns d ps) :
  ∃ d1 d2, IoApp_destroy l c d = Ret d1 ∧ IoApp_destroy l c d1 = Ret d2 ∧
    ao_conn_count d1 = Z.of_nat (size (ao_online d1)) ∧ parked_conns d1 (ps ++ [l]) ∧
    ao_conn_count d2 = Z.of_nat (size (ao_online d2)) - 1 ∧ parked_conns d2 (ps ++ [l; l]).
Proof.
  destruct Hpk as (ids & xs & rs & Hr & ->). unfold IoApp_destroy.
  destruct (cache_recycle_spec _ _ _ _ l Hr) as (s1 & n1 & -> & Hr1 & _). cbn [obind].
  destruct (cache_recycle_spec _ _ _ _ l Hr1) as (s2 & n2 & E2 & Hr2 & _).
  eexists _, _. split; [done|]. cbn [ao_cache ao_conn_count ao_online]. rewrite E2. cbn [obind].
  split; [done|]. cbn [ao_cache ao_conn_count ao_online]. unfold ConnectionRegister_unset.
  assert (Z.of_nat (size (delete (c_id c) (ao_online d))) = Z.of_nat (size (ao_online d)) - 1) as Hsz.
  { rewrite map_size_delete_Some by eauto.
    assert (size (ao_online d) ≠ 0%nat) by (apply map_size_ne_0_lookup; eauto). lia. }
  rewrite delete_delete_eq, Hsz, Hcnt. split; [lia|]. split; [|split; [lia|]].
  - eexists _, xs, _. split; [exact Hr1|]. by rewrite !fmap_app, <-app_assoc.
  - eexists _, xs, _. split; [exact Hr2|]. by rewrite !fmap_app, <-!app_assoc.
Qed.

Lemma destroy_twice_breaks_count_witness :
  let c := setup_base (IoApp_config_new 0) IoConnection_new 5 77 in
  ∃ d1 d2, IoApp_destroy 4%positive c (mkOwner 1 {[77 := 4%positive]} ConnectionCache_new) = Ret d1 ∧
    IoApp_destroy 4%positive c d1 = Ret d2 ∧ ao_conn_count d2 = -1 ∧
    parked_conns d2 [4%positive; 4%positive].
Proof.
  intros c.
  destruct (destroy_twice_breaks_count 4%positive c (mkOwner 1 {[77 := 4%positive]} ConnectionCache_new) [])
    as (d1 & d2 & H1 & H2 & _ & _ & Hc & Hp).
  - reflexivity.
  - reflexivity.
  - exists [], [], []. split; [apply cache_new_rep|done].
  - exists d1, d2. split; [done|]. split; [done|]. split; [|done].
    unfold IoApp_destroy in H1, H2. apply obind_Ret_inv in H1 as (? & _ & [= <-]).
    apply obind_Ret_inv in H2 as (? & _ & [= <-]). done.
Defined.

(** a message for an open connection is appended to what that connection
    sends, the connection is armed for writing and, when the message says so, its
    protocol state is switched; no other connection changes.  A message for a
    closed connection goes to the collector if there is one, and is released
    otherwise. *)
Theorem pushMessage_delivers {S} (a : IoApp S) l0 m bs
    (Em : ia_msgs a !! l0 = Some m) (Hst : msg_switch_state m = None ∨ is_Some (msg_state m)) :
  match ConnectionRegister_get (ao_online (ia_owner a)) (msg_conn m) with
  | Some l => ∀ c ap out, ia_conns a !! l = Some (c, ap) →
      out_rep (c_current_push c) (conn_world a l ap) out → msg_close_conn m = 0 →
      msg_frame_len m = Z.of_nat (length bs) → (∃ rest, msg_b m = (Some <$> bs) ++ rest) →
      (∀ d nd, ia_pushes a !! d = Some nd → pd_msg nd ≠ Some l0) →
      ∃ a' ap', IoApp_pushMessage a l0 = Ret a' ∧
        ia_conns a' !! l = Some (setWrite c true, ap') ∧
        out_rep (c_current_push c) (conn_world a' l ap') (out ++ bs) ∧
        Some (ap_state ap') =
          match msg_switch_state m with Some _ => msg_state m | None => Some (ap_state ap) end ∧
        (∀ k, k ≠ l → ia_conns a' !! k = ia_conns a !! k)
  | None =>
      match ia_collector a with
      | Some k => ∀ ks, bq_rep (ia_msgs a) k ks → l0 ∉ ks →
          ∃ a' k', IoApp_pushMessage a l0 = Ret a' ∧ ia_collector a' = Some k' ∧
            bq_rep (ia_msgs a') k' (ks ++ [l0])
      | None => IoApp_pushMessage a l0 = Ret (ia_set_msgs (delete l0 (ia_msgs a)) a)
      end
  end.
Proof.
  destruct (ConnectionRegister_get _ _) as [l|] eqn:Eg.
  - intros c ap out El (o & Ho & ->) Hc Hlen Hb Hfree.
    destruct (pushMessage_online a l0 m l c ap o bs Em) as (ap' & mh & ph & d & _ & Hp & Ho' & _ & _ & Hs); try done.
    + unfold switched_state. destruct Hst as [->|Hst]; [by eexists|]. destruct (msg_switch_state m); [done|by eexists].
    + by exists m.
    + exact (outbox_not_carried _ _ _ _ o l0 Ho Hfree).
    + eexists _, ap'. split; [exact Hp|]. split; [apply lookup_insert_eq|]. split; [|split].
      * eexists. split; [exact Ho'|]. by rewrite ob_snoc_bytes.
      * exact Hs.
      * intros k Hk. by apply lookup_insert_ne.
  - unfold IoApp_pushMessage. rewrite (load_Some _ _ _ Em). cbn [obind]. rewrite Eg.
    destruct (ia_collector a) as [k|].
    + intros ks Hk Hl. destruct (bq_put_spec _ _ _ _ _ Hk Em Hl) as (mh & k' & -> & Hk' & _).
      cbn [obind]. eexists _, k'. done.
    + unfold releaseIMessage. by rewrite (dealloc_Some _ _ _ Em).
Qed.

Lemma pushMessage_delivers_witness :
  let m := set_conn 77 (new_message [Some 1; Some 2] 2 0 2) in
  let c := setup_base (IoApp_config_new 0) IoConnection_new 5 77 in
  let ap := IoAppConnection_new 0 in
  let a := ia_set_msgs {[1%positive := m]} (ia_set_conns {[4%positive := (c, ap)]}
             (ia_set_owner (mkOwner 1 {[77 := 4%positive]} ConnectionCache_new) wit_ioapp)) in
  ∃ a' ap', IoApp_pushMessage a 1%positive = Ret a' ∧
    ia_conns a' !! 4%positive = Some (setWrite c true, ap') ∧
    out_rep None (conn_world a' 4%positive ap') [1; 2].
Proof.
  intros m c ap a.
  destruct (pushMessage_delivers a 1%positive m [1; 2] eq_refl (or_introl eq_refl) c ap [])
    as (a' & ap' & Hp & Hc & Ho & _).
  - reflexivity.
  - exists (mkOutbox None []). split; [|done]. split; [|done]. split; [apply pl_new_rep|constructor].
  - reflexivity.
  - reflexivity.
  - exists []. reflexivity.
  - intros d nd Hd. cbn in Hd. by rewrite lookup_empty in Hd.
  - exists a', ap'. auto.
Defined.

(** a connection object taken from the cache for a new client starts with the
    request counters of the client that used it before: neither [initialize] nor
    the thread resets them. *)
Theorem recycled_counters_survive {S} (a : IoApp S) l fd id c ap
    (Hc : ia_conns a !! l = Some (c, ap))
    (Hdue : ∃ cache, ConnectionCache_get (ao_cache (ia_owner a)) = Ret (Some l, cache)) :
  ∃ a' c' ap', new_one a fd id = Ret a' ∧ ia_conns a' !! l = Some (c', ap') ∧
    c_id c' = id ∧ ap_sampling ap' = ap_sampling ap.
Proof.
  destruct Hdue as (cache & Hg). unfold new_one, take_conn.
  cbn [ia_owner ia_set_owner ao_cache]. rewrite Hg. cbn [obind ia_conns ia_set_owner].
  rewrite (load_Some _ _ _ Hc). cbn [obind]. rewrite (store_Some _ _ _ _ Hc). cbn [obind].
  eexists _, _, _. split; [done|]. cbn. split; [apply lookup_insert_eq|]. done.
Qed.

Definition parked_cache : cache_state :=
  match ConnectionCache_recycle ConnectionCache_new 4%positive with
  | Ret s => cache_next_loop s
  | _ => ConnectionCache_new
  end.

Lemma recycled_counters_survive_witness :
  ∃ sm a' c' ap',
    IoSampling_sample (IoSampling_new 0) 0 = Ret sm ∧
    new_one (ia_set_conns {[4%positive := (IoConnection_new, ap_with_sampling sm (IoAppConnection_new 0))]}
       (ia_set_owner (mkOwner 0 ∅ parked_cache) wit_ioapp)) 6 78 = Ret a' ∧
    ia_conns a' !! 4%positive = Some (c', ap') ∧ hs_total (ap_sampling ap') = 1.
Proof.
  destruct (sample_spec (IoSampling_new 0) 8 [] 0) as (sm & Es & Hsm);
    [apply zeroed_rep|vm_compute; discriminate|].
  destruct (recycled_counters_survive
    (ia_set_conns {[4%positive := (IoConnection_new, ap_with_sampling sm (IoAppConnection_new 0))]}
       (ia_set_owner (mkOwner 0 ∅ parked_cache) wit_ioapp)) 4%positive 6 78
    IoConnection_new (ap_with_sampling sm (IoAppConnection_new 0)))
    as (a' & c' & ap' & Hn & Hc & _ & Hs).
  - reflexivity.
  - destruct (ConnectionCache_get parked_cache) as [[g s]| | | |] eqn:E;
      try (vm_compute in E; discriminate).
    exists s. cbn [ia_owner ia_set_conns ia_set_owner ao_cache]. rewrite E.
    vm_compute in E. by injection E as <- _.
  - exists sm, a', c', ap'. split; [done|]. split; [done|]. split; [done|].
    rewrite Hs. cbn. rewrite (sr_total _ _ _ Hsm). reflexivity.
Defined.
