(* ===== verification/StringAlgos.v ===== *)
(** util::StringAlgorithms (framework/lib/string_algorithms.cpp): trimming,
    splitting, longest common subsequence and edit distance.

    The in-place [Trim] writes behind its read position, so it is the function
    on the characters below.  The dynamic-programming matrices are maps from
    index pairs, filled in the order of the loops. *)
From S2P Require Import Prelude.

(** ** Trim *)
Definition isspace (c : Z) : bool := (c =? 32) || ((9 <=? c) && (c <=? 13)).

(** [space] counts the blanks since the last character kept. *)
Fixpoint trim_loop (replace space : Z) (p2 : cstr) : cstr :=
  match p2 with
  | [] => []
  | c :: p2 =>
      if isspace c then trim_loop replace (space + 1) p2
      else (if negb (space =? 0) then [replace] else []) ++ c :: trim_loop replace 0 p2
  end.

Fixpoint skip_space (p2 : cstr) : cstr :=
  match p2 with
  | c :: p2' => if isspace c then skip_space p2' else p2
  | [] => []
  end.

(** The result is read back as a C string: a zero [replace] would end it. *)
Fixpoint c_str (s : cstr) : cstr :=
  match s with
  | [] => []
  | c :: s => if c =? 0 then [] else c :: c_str s
  end.

Definition Trim (s : cstr) (replace : Z) : cstr := c_str (trim_loop replace 0 (skip_space s)).
Definition TrimCopy (s : cstr) (replace : Z) : cstr := Trim s replace.

(** ** Split on a character *)
(** The inner loop: up to the delimiter or the end. *)
Fixpoint scan_to (delim : Z) (p : cstr) : cstr * cstr :=
  match p with
  | [] => ([], [])
  | c :: p' => if c =? delim then ([], p)
               else let (tok, rest) := scan_to delim p' in (c :: tok, rest)
  end.

Fixpoint split_loop (fuel : nat) (delim : Z) (p1 : cstr) : outcome (list cstr) :=
  match p1 with
  | [] => Ret []
  | _ =>
      match fuel with
      | O => Diverge
      | S fuel =>
          let (tok, p2) := scan_to delim p1 in
          let* toks := split_loop fuel delim (match p2 with [] => [] | _ :: p2 => p2 end) in
          Ret (tok :: toks)
      end
  end.

Definition Split (s : cstr) (delim : Z) : outcome (list cstr) := split_loop (length s) delim s.

(** ** Split on a string

    [off] is the offset of the position in the whole string. *)
Definition strncmp0 (r delim : cstr) : bool := bool_decide (take (length delim) r = delim).

Fixpoint scan_str (delim r : cstr) : cstr * cstr :=
  match r with
  | [] => ([], [])
  | c :: r' => if strncmp0 r delim then ([], r)
               else let (tok, rest) := scan_str delim r' in (c :: tok, rest)
  end.

Fixpoint split_str_loop (fuel : nat) (delim l : cstr) : outcome (list cstr) :=
  match l with
  | [] => Ret []
  | _ =>
      match fuel with
      | O => Diverge
      | S fuel =>
          let (tok, r) := scan_str delim l in
          let* toks := split_str_loop fuel delim
            (match r with [] => [] | _ => drop (length delim) r end) in
          Ret (tok :: toks)
      end
  end.

(** The last test looks at the [len] bytes before the end of the string. *)
Definition Split_str (s delim : cstr) : outcome (list cstr) :=
  let* toks := split_str_loop (length s) delim s in
  if (length s <? length delim)%nat then Fault
  else if bool_decide (drop (length s - length delim) s = delim) then Ret (toks ++ [[]])
  else Ret toks.

(** ** Dynamic programming *)
Abbreviation matrix := (gmap (nat * nat) Z).

Definition _Min (a b : Z) : Z := if b <? a then b else a.
Definition _Min3 (a b c : Z) : Z := let t := _Min a b in if c <? t then c else t.
Definition _Max (a b : Z) : Z := if b <? a then a else b.

Definition at_ (m : matrix) (i j : nat) : Z := default 0 (m !! (i, j)).
Definition char_at (s : cstr) (i : nat) : Z := default 0 (s !! i).

(** Borders: [m[i][0]] and [m[0][i]]. *)
Definition init_borders (f : nat → Z) (n k : nat) : matrix :=
  let m := foldl (λ m i, <[(i, 0%nat) := f i]> m) ∅ (seq 0 (S n)) in
  foldl (λ m i, <[(0%nat, i) := f i]> m) m (seq 0 (S k)).

(** The two nested loops, from 1. *)
Definition fill (cellf : matrix → nat → nat → Z) (n k : nat) (m : matrix) : matrix :=
  foldl (λ m i, foldl (λ m j, <[(i, j) := cellf m i j]> m) m (seq 1 k)) m (seq 1 n).

Definition lcss_cell (s1 s2 : cstr) (m : matrix) (i j : nat) : Z :=
  if char_at s1 (i - 1) =? char_at s2 (j - 1) then at_ m (i - 1) (j - 1) + 1
  else _Max (at_ m (i - 1) j) (at_ m i (j - 1)).

Definition LCSS (s1 s2 : cstr) : Z :=
  let n := length s1 in let k := length s2 in
  at_ (fill (lcss_cell s1 s2) n k (init_borders (λ _, 0) n k)) n k.

Definition edit_cell (s1 s2 : cstr) (m : matrix) (i j : nat) : Z :=
  let cost := if char_at s1 (i - 1) =? char_at s2 (j - 1) then 0 else 1 in
  let d := _Min3 (at_ m (i - 1) j + 1) (at_ m i (j - 1) + 1) (at_ m (i - 1) (j - 1) + cost) in
  if (2 <? i)%nat && (2 <? j)%nat && (char_at s1 (i - 1) =? char_at s2 (j - 2))
     && (char_at s1 (i - 2) =? char_at s2 (j - 1))
  then _Min d (at_ m (i - 2) (j - 2) + cost) else d.

Definition EditDistance (s1 s2 : cstr) : Z :=
  let n := length s1 in let k := length s2 in
  at_ (fill (edit_cell s1 s2) n k (init_borders Z.of_nat n k)) n k.

Example lcss_ex : LCSS (str "abcbdab") (str "bdcaba") = 4.
Proof. vm_compute. reflexivity. Qed.
Example edit_ex : EditDistance (str "kitten") (str "sitting") = 3.
Proof. vm_compute. reflexivity. Qed.
Example edit_swap : EditDistance (str "ab") (str "ba") = 2 ∧ EditDistance (str "xxab") (str "xxba") = 1.
Proof. vm_compute. split; reflexivity. Qed.
Example split_ex : Split (str "a,,b,") 44 = Ret [str "a"; []; str "b"].
Proof. reflexivity. Qed.

(** ** Specifications *)
(** Tokens put together again. *)
Fixpoint join_with (d : cstr) (toks : list cstr) : cstr :=
  match toks with
  | [] => []
  | [t] => t
  | t :: ts => t ++ d ++ join_with d ts
  end.

(** [v] is the length of a longest common subsequence. *)
Definition is_lcs (a b : cstr) (v : Z) : Prop :=
  (∃ c, c `sublist_of` a ∧ c `sublist_of` b ∧ Z.of_nat (length c) = v) ∧
  (∀ c, c `sublist_of` a → c `sublist_of` b → Z.of_nat (length c) ≤ v).

(** One edit: insertion, deletion, substitution, or the exchange of two adjacent
    characters. *)
Inductive edit1 : cstr → cstr → Prop :=
| edit_insert a x b : edit1 (a ++ b) (a ++ x :: b)
| edit_delete a x b : edit1 (a ++ x :: b) (a ++ b)
| edit_subst a x y b : edit1 (a ++ x :: b) (a ++ y :: b)
| edit_swap2 a x y b : edit1 (a ++ x :: y :: b) (a ++ y :: x :: b).

Inductive edits : nat → cstr → cstr → Prop :=
| edits_O a : edits 0 a a
| edits_S n a b c : edits n a b → edit1 b c → edits (S n) a c.

(** ** Filling a matrix *)
Definition has (P : nat → nat → Z → Prop) (m : matrix) (i j : nat) : Prop :=
  ∃ v, m !! (i, j) = Some v ∧ P i j v.

Lemma has_at P m i j : has P m i j → P i j (at_ m i j).
Proof. intros (v & E & H). unfold at_. by rewrite E. Qed.

Lemma has_insert_ne P m i j i' j' v : (i', j') ≠ (i, j) → has P m i j → has P (<[(i', j') := v]> m) i j.
Proof. intros Hne (u & E & H). exists u. by rewrite lookup_insert_ne. Qed.

Section filling.
Context (P : nat → nat → Z → Prop) (cellf : matrix → nat → nat → Z) (n k : nat).
Context (Hcell : ∀ m i j, (1 ≤ i ≤ n)%nat → (1 ≤ j ≤ k)%nat →
  (∀ i' j', (j' ≤ k)%nat → (i' < i ∨ i' = i ∧ j' < j)%nat → has P m i' j') →
  P i j (cellf m i j)).

Lemma fill_row i l m :
  (1 ≤ i ≤ n)%nat → (l ≤ k)%nat →
  (∀ i' j', (i' < i)%nat → (j' ≤ k)%nat → has P m i' j') → has P m i 0 →
  let m' := foldl (λ m j, <[(i, j) := cellf m i j]> m) m (seq 1 l) in
  (∀ i' j', i' ≠ i → m' !! (i', j') = m !! (i', j')) ∧ m' !! (i, 0%nat) = m !! (i, 0%nat) ∧
  (∀ j', (1 ≤ j' ≤ l)%nat → has P m' i j').
Proof.
  intros Hi Hl Hprev H0. induction l as [|l IH]; intros m'; subst m'.
  { split; [done|]. split; [done|]. intros j' Hj'. lia. }
  destruct IH as (Hk & Hz & Hd); [lia|].
  rewrite seq_S, foldl_app. cbn [foldl].
  set (m1 := foldl _ m (seq 1 l)) in *. replace (1 + l)%nat with (S l) by lia.
  split; [|split].
  - intros i' j' Hne. rewrite lookup_insert_ne by congruence. by apply Hk.
  - rewrite lookup_insert_ne by (intros [= ?]; lia). done.
  - intros j' Hj'. destruct (decide (j' = S l)) as [->|Hne].
    + eexists. split; [apply lookup_insert_eq|]. apply Hcell; [lia|lia|].
      intros i' j' Hjk [Hlt|[-> Hlt]].
      * destruct (Hprev i' j' Hlt Hjk) as (v & E & H). exists v. rewrite Hk by lia. done.
      * destruct j' as [|j']; [|apply Hd; lia]. destruct H0 as (v & E & H). exists v. by rewrite Hz.
    + apply has_insert_ne; [congruence|]. apply Hd. lia.
Qed.

Lemma fill_spec m :
  (∀ i, (i ≤ n)%nat → has P m i 0) → (∀ j, (j ≤ k)%nat → has P m 0 j) →
  ∀ i j, (i ≤ n)%nat → (j ≤ k)%nat → has P (fill cellf n k m) i j.
Proof.
  intros Hcol Hrow. unfold fill.
  assert (∀ r, (r ≤ n)%nat →
    let m' := foldl (λ m i, foldl (λ m j, <[(i, j) := cellf m i j]> m) m (seq 1 k)) m (seq 1 r) in
    (∀ i j, (i ≤ r)%nat → (j ≤ k)%nat → has P m' i j) ∧
    (∀ i, (i ≤ n)%nat → has P m' i 0)) as H; [|intros i j Hi Hj; by apply (H n (le_n _))].
  induction r as [|r IH]; intros Hr m'; subst m'.
  { split; [|done]. intros i j Hi Hj. assert (i = 0%nat) as -> by lia. by apply Hrow. }
  destruct IH as [Hd Hc]; [lia|].
  rewrite seq_S, foldl_app. cbn [foldl].
  set (m1 := foldl _ m (seq 1 r)) in *. replace (1 + r)%nat with (S r) by lia.
  destruct (fill_row (S r) k m1) as (Hk & Hz & Hn); [lia|lia| | |].
  { intros i' j' Hlt Hj. apply Hd; lia. } { apply Hc. lia. }
  assert (∀ i j, i ≠ S r → has P m1 i j →
    has P (foldl (λ m j, <[(S r, j) := cellf m (S r) j]> m) m1 (seq 1 k)) i j) as Hkeep.
  { intros i j Hne (v & E & Hv). exists v. by rewrite Hk. }
  assert (has P (foldl (λ m j, <[(S r, j) := cellf m (S r) j]> m) m1 (seq 1 k)) (S r) 0) as Hz'.
  { destruct (Hc (S r)) as (v & E & Hv); [lia|]. exists v. by rewrite Hz. }
  split.
  - intros i j Hi Hj. destruct (decide (i = S r)) as [->|Hne]; [|apply Hkeep; [done|]; apply Hd; lia].
    destruct j as [|j]; [done|]. apply Hn. lia.
  - intros i Hi. destruct (decide (i = S r)) as [->|Hne]; [done|]. apply Hkeep; [done|]. by apply Hc.
Qed.
End filling.

Lemma foldl_insert_in (g : nat → nat * nat) (f : nat → Z) (l : list nat) (m : matrix) i :
  (∀ a b, g a = g b → a = b) → i ∈ l →
  foldl (λ m i, <[g i := f i]> m) m l !! g i = Some (f i).
Proof.
  intros Hg. revert m. induction l as [|x l IH] using rev_ind; intros m Hi; [set_solver|].
  rewrite foldl_snoc. destruct (decide (x = i)) as [->|Hne]; [apply lookup_insert_eq|].
  rewrite lookup_insert_ne by (intros ?%Hg; done). apply IH. set_solver.
Qed.

Lemma foldl_insert_notin (g : nat → nat * nat) (f : nat → Z) (l : list nat) (m : matrix) x :
  (∀ i, g i ≠ x) → foldl (λ m i, <[g i := f i]> m) m l !! x = m !! x.
Proof.
  intros Hg. revert m. induction l as [|y l IH]; intros m; simpl; [done|].
  rewrite IH. by apply lookup_insert_ne.
Qed.

Lemma borders_spec f n k :
  (∀ i, (i ≤ n)%nat → init_borders f n k !! (i, 0%nat) = Some (f i)) ∧
  (∀ j, (j ≤ k)%nat → init_borders f n k !! (0%nat, j) = Some (f j)).
Proof.
  assert (∀ j, (j ≤ k)%nat → init_borders f n k !! (0%nat, j) = Some (f j)) as Hrow.
  { intros j Hj. unfold init_borders.
    apply (foldl_insert_in (λ i, (0%nat, i))); [by intros ?? [=]|]. apply elem_of_seq. lia. }
  split; [|done]. intros [|i] Hi; [apply Hrow; lia|]. unfold init_borders.
  rewrite (foldl_insert_notin (λ i, (0%nat, i))) by (intros ? [=]).
  apply (foldl_insert_in (λ i, (i, 0%nat))); [by intros ?? [=]|]. apply elem_of_seq. lia.
Qed.

Lemma take_S_char (s : cstr) i :
  (1 ≤ i ≤ length s)%nat → take i s = take (i - 1) s ++ [char_at s (i - 1)].
Proof.
  intros Hi. destruct (lookup_lt_is_Some_2 s (i - 1)) as [x Hx]; [lia|].
  unfold char_at. rewrite Hx. cbn. rewrite <-(take_S_r _ _ _ Hx). f_equal. lia.
Qed.

(** ** Longest common subsequence *)
Lemma sublist_snoc_inv (c a : cstr) x :
  c `sublist_of` a ++ [x] → c `sublist_of` a ∨ ∃ c', c = c' ++ [x] ∧ c' `sublist_of` a.
Proof.
  intros (c1 & c2 & -> & H1 & H2)%sublist_app_r.
  inversion H2 as [|? ? ? H|? ? ? H]; subst.
  - apply sublist_nil_r in H as ->. right. eauto.
  - apply sublist_nil_r in H as ->. left. by rewrite app_nil_r.
Qed.

Lemma is_lcs_nil_l b : is_lcs [] b 0.
Proof.
  split; [exists []; split; [done|]; split; [apply sublist_nil_l|done]|].
  intros c ->%sublist_nil_r _. done.
Qed.

Lemma is_lcs_nil_r a : is_lcs a [] 0.
Proof.
  split; [exists []; split; [apply sublist_nil_l|done]|].
  intros c _ ->%sublist_nil_r. done.
Qed.

Lemma is_lcs_match a b x v : is_lcs a b v → is_lcs (a ++ [x]) (b ++ [x]) (v + 1).
Proof.
  intros [(c & Ha & Hb & Hl) Hmax]. split.
  - exists (c ++ [x]). split; [by apply sublist_app|]. split; [by apply sublist_app|].
    rewrite length_app. simpl. lia.
  - intros d [Hda|(d1 & -> & Hda)]%sublist_snoc_inv Hdb.
    + apply sublist_snoc_inv in Hdb as [Hdb|(d2 & -> & Hdb)].
      * specialize (Hmax _ Hda Hdb). lia.
      * assert (d2 `sublist_of` a) as Hd2 by (etrans; [apply sublist_inserts_r|exact Hda]; done).
        specialize (Hmax _ Hd2 Hdb). rewrite length_app. simpl. lia.
    + apply sublist_snoc_inv in Hdb as [Hdb|(d2 & Heq & Hdb)].
      * assert (d1 `sublist_of` b) as Hd1 by (etrans; [apply sublist_inserts_r|exact Hdb]; done).
        specialize (Hmax _ Hda Hd1). rewrite length_app. simpl. lia.
      * apply app_inj_tail in Heq as [-> _]. specialize (Hmax _ Hda Hdb). rewrite length_app. simpl. lia.
Qed.

Lemma is_lcs_mismatch a b x y u v :
  x ≠ y → is_lcs a (b ++ [y]) u → is_lcs (a ++ [x]) b v →
  is_lcs (a ++ [x]) (b ++ [y]) (_Max u v).
Proof.
  intros Hne [(c & Hca & Hcb & Hlc) Hu] [(d & Hda & Hdb & Hld) Hv].
  assert (_Max u v = Z.max u v) as -> by (unfold _Max; destruct (Z.ltb_spec v u); lia).
  split.
  - destruct (Z.max_spec u v) as [[_ ->]|[_ ->]].
    + exists d. split; [done|]. split; [by apply sublist_inserts_r|done].
    + exists c. split; [by apply sublist_inserts_r|done].
  - intros e [Hea|(e1 & -> & Hea)]%sublist_snoc_inv Heb.
    + specialize (Hu _ Hea Heb). lia.
    + apply sublist_snoc_inv in Heb as [Heb|(e2 & Heq & Heb)].
      * assert (e1 ++ [x] `sublist_of` a ++ [x]) as H1 by (by apply sublist_app).
        specialize (Hv _ H1 Heb). lia.
      * apply app_inj_tail in Heq as [_ ?]. done.
Qed.

Lemma LCSS_cells s1 s2 i j :
  (i ≤ length s1)%nat → (j ≤ length s2)%nat →
  has (λ i j v, is_lcs (take i s1) (take j s2) v)
    (fill (lcss_cell s1 s2) (length s1) (length s2)
       (init_borders (λ _, 0) (length s1) (length s2))) i j.
Proof.
  destruct (borders_spec (λ _, 0) (length s1) (length s2)) as [Hc Hr].
  apply fill_spec.
  - intros m a b Ha Hb Hprev. unfold lcss_cell.
    rewrite (take_S_char s1 a), (take_S_char s2 b) by lia.
    destruct (Z.eqb_spec (char_at s1 (a - 1)) (char_at s2 (b - 1))) as [->|Hne].
    + apply is_lcs_match. refine (has_at (λ i j v, is_lcs (take i s1) (take j s2) v) m (a - 1) (b - 1) _); apply Hprev; lia.
    + apply is_lcs_mismatch; [done| |].
      * rewrite <-(take_S_char s2 b) by lia. refine (has_at (λ i j v, is_lcs (take i s1) (take j s2) v) m (a - 1) b _); apply Hprev; lia.
      * rewrite <-(take_S_char s1 a) by lia. refine (has_at (λ i j v, is_lcs (take i s1) (take j s2) v) m a (b - 1) _); apply Hprev; lia.
  - intros a Ha. eexists. split; [by apply Hc|]. rewrite take_0. apply is_lcs_nil_r.
  - intros b Hb. eexists. split; [by apply Hr|]. rewrite take_0. apply is_lcs_nil_l.
Qed.

(** ** Edit distance *)
Lemma edit1_app a b x : edit1 a b → edit1 (a ++ [x]) (b ++ [x]).
Proof.
  intros []; rewrite <-!app_assoc; constructor.
Qed.

Lemma edits_app n a b x : edits n a b → edits n (a ++ [x]) (b ++ [x]).
Proof.
  induction 1 as [|n a b c _ IH He]; [constructor|]. econstructor; [exact IH|by apply edit1_app].
Qed.

Lemma edits_snoc_r n a b x : edits n a b → edits (S n) a (b ++ [x]).
Proof.
  intros H. econstructor; [exact H|]. rewrite <-(app_nil_r b) at 1. apply edit_insert.
Qed.

Lemma edits_trans n m a b c : edits n a b → edits m b c → edits (m + n) a c.
Proof. intros H1. induction 1; [done|]. simpl. econstructor; eauto. Qed.

Lemma edits_1 a b : edit1 a b → edits 1 a b.
Proof. intros H. econstructor; [constructor|done]. Qed.

Lemma edits_snoc_l n a b x : edits n a b → edits (S n) (a ++ [x]) b.
Proof.
  intros H. replace (S n) with (n + 1)%nat by lia. eapply edits_trans; [|exact H].
  apply edits_1. rewrite <-(app_nil_r a) at 2. apply edit_delete.
Qed.

Lemma edits_prefix i (s : cstr) : (i ≤ length s)%nat → edits i (take i s) [] ∧ edits i [] (take i s).
Proof.
  induction i as [|i IH]; intros Hi; [rewrite take_0; split; constructor|].
  destruct IH as [H1 H2]; [lia|]. rewrite (take_S_char s (S i)) by lia.
  replace (S i - 1)%nat with i by lia. split; [by apply edits_snoc_l|by apply edits_snoc_r].
Qed.

(** [v] edits are enough. *)
Definition enough (a b : cstr) (v : Z) : Prop := 0 ≤ v ∧ edits (Z.to_nat v) a b.

Lemma enough_min a b u v : enough a b u → enough a b v → enough a b (_Min u v).
Proof. unfold _Min. by destruct (v <? u). Qed.

Lemma enough_min3 a b u v w : enough a b u → enough a b v → enough a b w → enough a b (_Min3 u v w).
Proof. intros Hu Hv Hw. unfold _Min3. case_match; [done|]. by apply enough_min. Qed.

Lemma enough_del a b x v : enough a b v → enough (a ++ [x]) b (v + 1).
Proof.
  intros [H0 H]. split; [lia|]. replace (Z.to_nat (v + 1)) with (S (Z.to_nat v)) by lia.
  by apply edits_snoc_l.
Qed.

Lemma enough_ins a b x v : enough a b v → enough a (b ++ [x]) (v + 1).
Proof.
  intros [H0 H]. split; [lia|]. replace (Z.to_nat (v + 1)) with (S (Z.to_nat v)) by lia.
  by apply edits_snoc_r.
Qed.

Lemma enough_subst a b x y v :
  enough a b v → enough (a ++ [x]) (b ++ [y]) (v + (if x =? y then 0 else 1)).
Proof.
  intros [H0 H]. destruct (Z.eqb_spec x y) as [->|_].
  - split; [lia|]. rewrite Z.add_0_r. by apply edits_app.
  - split; [lia|]. replace (Z.to_nat (v + 1)) with (S (Z.to_nat v)) by lia.
    eapply edits_S; [exact (edits_app _ _ _ x H)|].
    apply (edit_subst b x y []).
Qed.

Lemma enough_swap a b x y v :
  enough a b v → enough ((a ++ [y]) ++ [x]) ((b ++ [x]) ++ [y]) (v + (if x =? y then 0 else 1)).
Proof.
  intros [H0 H]. destruct (Z.eqb_spec x y) as [->|_].
  - split; [lia|]. rewrite Z.add_0_r. by do 2 apply edits_app.
  - split; [lia|]. replace (Z.to_nat (v + 1)) with (S (Z.to_nat v)) by lia.
    eapply edits_S; [exact (edits_app _ _ _ x (edits_app _ _ _ y H))|]. rewrite <-!app_assoc. apply (edit_swap2 b y x []).
Qed.

Lemma edit_cells s1 s2 i j :
  (i ≤ length s1)%nat → (j ≤ length s2)%nat →
  has (λ i j v, enough (take i s1) (take j s2) v)
    (fill (edit_cell s1 s2) (length s1) (length s2)
       (init_borders Z.of_nat (length s1) (length s2))) i j.
Proof.
  destruct (borders_spec Z.of_nat (length s1) (length s2)) as [Hc Hr].
  apply fill_spec.
  - intros m a b Ha Hb Hprev.
    assert (enough (take a s1) (take b s2)
      (_Min3 (at_ m (a - 1) b + 1) (at_ m a (b - 1) + 1) (at_ m (a - 1) (b - 1) +
         (if char_at s1 (a - 1) =? char_at s2 (b - 1) then 0 else 1)))) as Hd.
    { apply enough_min3.
      - rewrite (take_S_char s1 a) by lia. apply enough_del.
        refine (has_at (λ i j v, enough (take i s1) (take j s2) v) m (a - 1) b _); apply Hprev; lia.
      - rewrite (take_S_char s2 b) by lia. apply enough_ins.
        refine (has_at (λ i j v, enough (take i s1) (take j s2) v) m a (b - 1) _); apply Hprev; lia.
      - rewrite (take_S_char s1 a), (take_S_char s2 b) by lia. apply enough_subst.
        refine (has_at (λ i j v, enough (take i s1) (take j s2) v) m (a - 1) (b - 1) _); apply Hprev; lia. }
    unfold edit_cell. destruct (_ && _) eqn:E; [|exact Hd].
    rewrite !andb_true_iff, !Nat.ltb_lt, !Z.eqb_eq in E. destruct E as [[[Hi Hj] E1] E2].
    apply enough_min; [exact Hd|].
    rewrite (take_S_char s1 a), (take_S_char s1 (a - 1)), (take_S_char s2 b), (take_S_char s2 (b - 1)) by lia.
    replace (a - 1 - 1)%nat with (a - 2)%nat by lia. replace (b - 1 - 1)%nat with (b - 2)%nat by lia.
    rewrite E1, E2. replace (char_at s2 (b - 2)) with (char_at s1 (a - 1)) by done.
    apply enough_swap. refine (has_at (λ i j v, enough (take i s1) (take j s2) v) m (a - 2) (b - 2) _); apply Hprev; lia.
  - intros a Ha. eexists. split; [by apply Hc|]. rewrite take_0. split; [lia|].
    rewrite Nat2Z.id. by apply edits_prefix.
  - intros b Hb. eexists. split; [by apply Hr|]. rewrite take_0. split; [lia|].
    rewrite Nat2Z.id. by apply edits_prefix.
Qed.

(** ** Splitting *)
Lemma scan_to_spec d p tok rest :
  scan_to d p = (tok, rest) →
  (d ∉ tok) ∧ p = tok ++ rest ∧ (rest = [] ∨ ∃ r, rest = d :: r).
Proof.
  revert tok. induction p as [|c p IH]; intros tok; simpl.
  { intros [= <- <-]. split; [set_solver|]. eauto. }
  destruct (Z.eqb_spec c d) as [->|Hne].
  { intros [= <- <-]. split; [set_solver|]. eauto. }
  destruct (scan_to d p) as [t q]. intros [= <- <-].
  destruct (IH t) as (Hd & -> & Hr); [done|]. split; [set_solver|]. done.
Qed.

Definition closing (d : Z) (s : cstr) : cstr := if bool_decide (last s = Some d) then [d] else [].

Lemma closing_tail d a c s : closing d (a ++ c :: s) = closing d (c :: s).
Proof. unfold closing. by rewrite last_app_cons. Qed.

Lemma closing_none d s : d ∉ s → closing d s = [].
Proof.
  intros Hd. unfold closing. case_bool_decide as H; [|done].
  destruct Hd. by apply last_Some_elem_of.
Qed.

Lemma split_loop_spec fuel d p :
  (length p ≤ fuel)%nat →
  ∃ toks, split_loop fuel d p = Ret toks ∧ Forall (λ t, d ∉ t) toks ∧ (toks = [] ↔ p = []) ∧
    p = join_with [d] toks ++ closing d p.
Proof.
  revert p. induction fuel as [|fuel IH]; intros p Hf.
  { destruct p; [|simpl in Hf; lia]. by exists []. }
  destruct p as [|c p]; [by exists []|]. cbn [split_loop].
  destruct (scan_to d (c :: p)) as [tok rest] eqn:E.
  apply scan_to_spec in E as (Hd & E & Hr). rewrite E in *.
  destruct Hr as [->|[r ->]].
  - destruct fuel; cbn; exists [tok]; (split; [done|]; split; [by constructor|]);
      rewrite app_nil_r in *; (split; [destruct tok; done|]);
      rewrite closing_none by done; by rewrite app_nil_r.
  - destruct (IH r) as (toks & -> & Hall & Hnil & Hj).
    { rewrite length_app in Hf. simpl in Hf. lia. }
    exists (tok :: toks). split; [done|]. split; [by constructor|].
    split; [by destruct tok|]. rewrite closing_tail. destruct r as [|x r].
    + destruct Hnil as [_ ->]; [|done]. unfold closing. by rewrite bool_decide_true.
    + destruct toks as [|t toks]; [by destruct Hnil as [Hn _]; specialize (Hn eq_refl)|].
      change (d :: x :: r) with ([d] ++ x :: r) at 2. rewrite closing_tail.
      cbn [join_with]. rewrite <-!app_assoc. cbn. rewrite Hj at 1. reflexivity.
Qed.

Lemma scan_to_token d k r : d ∉ k → scan_to d (k ++ d :: r) = (k, d :: r).
Proof.
  induction k as [|c k IH]; intros Hd; simpl; [by rewrite Z.eqb_refl|].
  destruct (Z.eqb_spec c d) as [->|]; [set_solver|]. rewrite IH by set_solver. done.
Qed.

Lemma scan_to_end d k : d ∉ k → scan_to d k = (k, []).
Proof.
  induction k as [|c k IH]; intros Hd; simpl; [done|].
  destruct (Z.eqb_spec c d) as [->|]; [set_solver|]. rewrite IH by set_solver. done.
Qed.

(** Tokens without the delimiter come back, when the last is not empty. *)
Lemma split_loop_join fuel d ks k :
  Forall (λ t, d ∉ t) (ks ++ [k]) → k ≠ [] → (length (join_with [d] (ks ++ [k])) ≤ fuel)%nat →
  split_loop fuel d (join_with [d] (ks ++ [k])) = Ret (ks ++ [k]).
Proof.
  revert ks. induction fuel as [|fuel IH]; intros [|t ks] Hall Hk Hf.
  - destruct k; [done|]. simpl in Hf. lia.
  - destruct ks; simpl in Hf; rewrite length_app in Hf; simpl in Hf; lia.
  - cbn [app join_with]. apply Forall_cons in Hall as [Hd _]. destruct k as [|c k]; [done|].
    cbn [split_loop]. rewrite scan_to_end by done. by destruct fuel.
  - assert (join_with [d] ((t :: ks) ++ [k]) = t ++ d :: join_with [d] (ks ++ [k])) as E
      by (by destruct ks). rewrite E in *. apply Forall_cons in Hall as [Hd Hall].
    assert (split_loop (S fuel) d (t ++ d :: join_with [d] (ks ++ [k])) =
      let (tok, p2) := scan_to d (t ++ d :: join_with [d] (ks ++ [k])) in
      let* toks := split_loop fuel d (match p2 with [] => [] | _ :: p2 => p2 end) in
      Ret (tok :: toks)) as -> by (by destruct t).
    rewrite scan_to_token by done. rewrite length_app in Hf. simpl in Hf.
    rewrite IH by (done || lia). done.
Qed.

Lemma Split_join d ks k :
  Forall (λ t, d ∉ t) (ks ++ [k]) → k ≠ [] → Split (join_with [d] (ks ++ [k])) d = Ret (ks ++ [k]).
Proof. intros. by apply split_loop_join. Qed.

(** ** Properties *)

(** splitting on a character loses nothing and always ends: no token contains
    the delimiter, and the tokens put together with it are the string, up to a
    delimiter that ends the string (after which [Split] gives no empty token). *)
Theorem split_join s d :
  ∃ toks, Split s d = Ret toks ∧ Forall (λ t, d ∉ t) toks ∧ s = join_with [d] toks ++ closing d s.
Proof.
  destruct (split_loop_spec (length s) d s) as (toks & H1 & H2 & _ & H3); [done|]. eauto.
Qed.

(** [LCSS] computes the length of a longest common subsequence of its
    arguments: some common subsequence has that length and none is longer. *)
Theorem LCSS_correct s1 s2 : is_lcs s1 s2 (LCSS s1 s2).
Proof.
  destruct (LCSS_cells s1 s2 (length s1) (length s2)) as (v & E & H); [done|done|].
  rewrite !firstn_all in H. unfold LCSS, at_. by rewrite E.
Qed.

(** the number [EditDistance] returns is enough: the first string becomes the
    second by that many insertions, deletions, substitutions and exchanges of
    adjacent characters. *)
Theorem EditDistance_enough s1 s2 :
  0 ≤ EditDistance s1 s2 ∧ edits (Z.to_nat (EditDistance s1 s2)) s1 s2.
Proof.
  destruct (edit_cells s1 s2 (length s1) (length s2)) as (v & E & H); [done|done|].
  rewrite !firstn_all in H. unfold EditDistance, at_. by rewrite E.
Qed.

(** the distance is not the Damerau-Levenshtein distance of its
    documentation: exchanging the first two characters is one edit, and
    [EditDistance] counts two, because the test of the indices skips row and column
    two. *)
Theorem EditDistance_misses_first_swap x y :
  x ≠ y → edits 1 [x; y] [y; x] ∧ EditDistance [x; y] [y; x] = 2.
Proof.
  intros Hne. split; [apply edits_1; apply (edit_swap2 [] x y [])|].
  assert (EditDistance [x; y] [y; x] =
    let d := λ c e : Z, if c =? e then 0 else 1 in
    let m11 := _Min3 2 2 (0 + d x y) in
    let m12 := _Min3 3 (m11 + 1) (1 + d x x) in
    let m21 := _Min3 (m11 + 1) 3 (1 + d y y) in
    _Min3 (m12 + 1) (m21 + 1) (m11 + d y x)) as -> by reflexivity.
  cbv beta zeta. rewrite !Z.eqb_refl.
  destruct (Z.eqb_spec x y); [done|]. destruct (Z.eqb_spec y x); [done|]. reflexivity.
Qed.

Lemma EditDistance_misses_first_swap_witness :
  97 ≠ 98 ∧ EditDistance [97; 98] [98; 97] = 2.
Proof. split; [done|]. by apply (EditDistance_misses_first_swap 97 98). Defined.
