(* ===== verification/Ini.v ===== *)
(** util::IniFileReader (framework/lib/ini_file_reader.cpp): the configuration
    file.

    Values live in one map under the string [key@section]; the same map holds,
    under the section's own name, the comma-separated list of its keys.  The two
    boost regular expressions that recognise a section line and an item line are
    parameters: functions from a line to what the groups captured.  [exit(1)] is
    the outcome [Abort]. *)
From S2P Require Import Prelude StringAlgos.

Definition SEC_KEY_DELIM : Z := 64.
Definition SEC_KEYS_DELIM : Z := 44.

Record IniFileReader := mkIni {
  ini_section_count : gmap cstr Z;
  ini_kv_map : gmap cstr cstr;
  ini_kv_status_map : gmap cstr (gmap cstr Z) }.

Definition SecKeyValue : Type := cstr * cstr.

(** [key@section] *)
Definition kv_key (item_key section_name : cstr) : cstr :=
  item_key ++ SEC_KEY_DELIM :: section_name.

(** ** Reading *)
Fixpoint skip_blank (start : cstr) : cstr :=
  match start with
  | c :: start' => if (c =? 32) || (c =? 10) || (c =? 9) || (c =? 13) then skip_blank start' else start
  | [] => []
  end.

Definition ini_skipped (line : cstr) : bool :=
  match skip_blank line with
  | [] => true
  | c :: _ => c =? 35
  end.

Definition ini_section (r : IniFileReader) (section_name : cstr) : IniFileReader :=
  mkIni
    (match ini_section_count r !! section_name with
     | None => <[section_name := 1]> (ini_section_count r)
     | Some n => <[section_name := n + 1]> (ini_section_count r)
     end) (ini_kv_map r) (ini_kv_status_map r).

Definition ini_item (r : IniFileReader) (section_name item_key item_value : cstr) : IniFileReader :=
  let m := <[kv_key item_key section_name := item_value]> (ini_kv_map r) in
  let m := match m !! section_name with
           | None => <[section_name := item_key]> m
           | Some ks => <[section_name := ks ++ SEC_KEYS_DELIM :: item_key]> m
           end in
  let st := match ini_kv_status_map r !! item_key with
            | None => <[item_key := {[item_value := 1]}]> (ini_kv_status_map r)
            | Some kv =>
                <[item_key := match kv !! item_value with
                              | None => <[item_value := 1]> kv
                              | Some n => <[item_value := n + 1]> kv
                              end]> (ini_kv_status_map r)
            end in
  mkIni (ini_section_count r) m st.

Section reading.
Context (section_of : cstr → option cstr) (item_of : cstr → option (cstr * cstr)).

(** The loop over the lines. *)
Fixpoint ini_read (lines : list cstr) (section_name : cstr) (r : IniFileReader)
    : outcome IniFileReader :=
  match lines with
  | [] => Ret r
  | line :: lines =>
      if ini_skipped line then ini_read lines section_name r
      else match section_of line with
           | Some s => ini_read lines s (ini_section r s)
           | None =>
               match item_of line with
               | Some (k, v) =>
                   if bool_decide (section_name = []) then Abort
                   else ini_read lines section_name (ini_item r section_name k v)
               | None => Abort
               end
           end
  end.

(** The constructor on a file that can be opened. *)
Definition IniFileReader_new (lines : list cstr) : outcome IniFileReader :=
  ini_read lines [] (mkIni ∅ ∅ ∅).
End reading.

(** ** Queries *)
Definition IniGetValue (r : IniFileReader) (section_name item_key : cstr) : cstr :=
  default [] (ini_kv_map r !! kv_key item_key section_name).

Definition empty_name (section_name item_key : cstr) : bool :=
  bool_decide (section_name = []) || bool_decide (item_key = []).

Definition IniGetStrValue (r : IniFileReader) (section_name item_key default_value : cstr) : cstr :=
  if empty_name section_name item_key then []
  else match IniGetValue r section_name item_key with
       | [] => default_value
       | v => v
       end.

(** [strtoll] and [atoi]: blanks, a sign, then digits.  A number [atoi] cannot
    represent is undefined behaviour. *)
Fixpoint digits (s : cstr) (acc : Z) : Z :=
  match s with
  | c :: s => if (48 <=? c) && (c <=? 57) then digits s (acc * 10 + (c - 48)) else acc
  | [] => acc
  end.

Definition strto (s : cstr) : Z :=
  match skip_space s with
  | c :: s' => if c =? 45 then - digits s' 0 else if c =? 43 then digits s' 0 else digits (c :: s') 0
  | [] => 0
  end.

Definition strtoll (s : cstr) : Z := Z.max (- 2 ^ 63) (Z.min (2 ^ 63 - 1) (strto s)).
Definition atoi (s : cstr) : outcome Z :=
  if (- 2 ^ 31 <=? strto s) && (strto s <? 2 ^ 31) then Ret (strto s) else Fault.

Definition IniGetIntValue (r : IniFileReader) (section_name item_key : cstr) (default_value : Z)
    : outcome Z :=
  if empty_name section_name item_key then Ret default_value
  else match IniGetValue r section_name item_key with
       | [] => Ret default_value
       | v => atoi v
       end.

Definition IniGetInt64Value (r : IniFileReader) (section_name item_key : cstr) (default_value : Z) : Z :=
  if empty_name section_name item_key then default_value
  else match IniGetValue r section_name item_key with
       | [] => default_value
       | v => strtoll v
       end.

Definition tolower (c : Z) : Z := if (65 <=? c) && (c <=? 90) then c + 32 else c.
Definition strcasecmp0 (a b : cstr) : bool := bool_decide (tolower <$> a = tolower <$> b).

Definition IniGetBoolValue (r : IniFileReader) (section_name item_key : cstr) (default_value : bool) : bool :=
  if empty_name section_name item_key then default_value
  else match IniGetValue r section_name item_key with
       | [] => default_value
       | v => strcasecmp0 v (str "true") || strcasecmp0 v (str "yes") || strcasecmp0 v (str "on")
              || bool_decide (v = str "1")
       end.

(** [None] is the return value -1. *)
Definition IniGetSecValues (r : IniFileReader) (section_name : cstr) : outcome (option (list SecKeyValue)) :=
  if bool_decide (section_name = []) then Ret None
  else match ini_kv_map r !! section_name with
       | None => Ret None
       | Some ks =>
           let* sec_keys := Split ks SEC_KEYS_DELIM in
           match sec_keys with
           | [] => Ret None
           | _ => Ret (Some ((λ k, (k, IniGetValue r section_name k)) <$> sec_keys))
           end
       end.

Definition HasSection (r : IniFileReader) (section_name : cstr) : bool :=
  bool_decide (is_Some (ini_kv_map r !! section_name)).

Definition SectionIsUnique (r : IniFileReader) (section_name : cstr) : bool :=
  match ini_section_count r !! section_name with Some n => n =? 1 | None => false end.

Definition HasKeyValue (r : IniFileReader) (key value : cstr) : bool :=
  match ini_kv_status_map r !! key with
  | None => false
  | Some kv => bool_decide (is_Some (kv !! value))
  end.

Definition KeyValueIsUnique (r : IniFileReader) (key value : cstr) : bool :=
  match ini_kv_status_map r !! key with
  | None => false
  | Some kv => match kv !! value with Some n => n =? 1 | None => false end
  end.

(** ** Specification: the items of a file *)
Record ini_entry := mkEntry { en_section : cstr; en_key : cstr; en_value : cstr }.

Section spec.
Context (section_of : cstr → option cstr) (item_of : cstr → option (cstr * cstr)).

(** The items in file order, or [None] for a file that is refused. *)
Fixpoint ini_items (lines : list cstr) (section_name : cstr) : option (list ini_entry) :=
  match lines with
  | [] => Some []
  | line :: lines =>
      if ini_skipped line then ini_items lines section_name
      else match section_of line, item_of line with
           | Some s, _ => ini_items lines s
           | None, Some (k, v) =>
               if bool_decide (section_name = []) then None
               else (λ es, mkEntry section_name k v :: es) <$> ini_items lines section_name
           | None, None => None
           end
  end.
End spec.

Definition at_item (s k : cstr) (e : ini_entry) : bool :=
  bool_decide (en_section e = s) && bool_decide (en_key e = k).
Definition last_value (es : list ini_entry) (s k : cstr) : option cstr :=
  foldl (λ acc e, if at_item s k e then Some (en_value e) else acc) None es.
Definition keys_of (es : list ini_entry) (s : cstr) : list cstr :=
  omap (λ e, if decide (en_section e = s) then Some (en_key e) else None) es.
Definition count_kv (es : list ini_entry) (k v : cstr) : Z :=
  foldl (λ n e, if bool_decide (en_key e = k) && bool_decide (en_value e = v) then n + 1 else n) 0 es.

(** A reader that has seen the items [es]. *)
Record ini_rep (r : IniFileReader) (es : list ini_entry) : Prop := {
  ir_value : ∀ s k, SEC_KEY_DELIM ∉ s → ini_kv_map r !! kv_key k s = last_value es s k;
  ir_keys : ∀ s, SEC_KEY_DELIM ∉ s →
    ini_kv_map r !! s = match keys_of es s with [] => None | ks => Some (join_with [SEC_KEYS_DELIM] ks) end;
  ir_status : ∀ k v, (ini_kv_status_map r !! k ≫= (.!! v)) =
    if count_kv es k v =? 0 then None else Some (count_kv es k v) }.

(** ** Lemmas *)
Lemma kv_key_inj k s k' s' :
  SEC_KEY_DELIM ∉ s → SEC_KEY_DELIM ∉ s' → kv_key k s = kv_key k' s' → k = k' ∧ s = s'.
Proof.
  unfold kv_key. intros Hs Hs'. revert k'. induction k as [|c k IH]; intros [|c' k']; simpl.
  - by intros [= ->].
  - intros [= <- ->]. set_solver.
  - intros [= -> <-]. set_solver.
  - intros [= -> H]. destruct (IH _ H) as [-> ->]. done.
Qed.

Lemma kv_key_ne k s s' : SEC_KEY_DELIM ∉ s' → kv_key k s ≠ s'.
Proof. intros H <-. apply H. unfold kv_key. set_solver. Qed.

Lemma join_with_snoc d ks k :
  ks ≠ [] → join_with d (ks ++ [k]) = join_with d ks ++ d ++ k.
Proof.
  induction ks as [|k1 ks IH]; intros H; [done|]. destruct ks as [|k2 ks]; [done|].
  assert (join_with d (k1 :: (k2 :: ks) ++ [k]) = k1 ++ d ++ join_with d ((k2 :: ks) ++ [k])) as E
    by done.
  cbn [app] in *. rewrite E, IH by done. cbn [join_with]. by rewrite <-!app_assoc.
Qed.

Lemma last_value_snoc es e s k :
  last_value (es ++ [e]) s k = if at_item s k e then Some (en_value e) else last_value es s k.
Proof. unfold last_value. by rewrite foldl_snoc. Qed.

Lemma keys_of_snoc es e s :
  keys_of (es ++ [e]) s = keys_of es s ++ (if decide (en_section e = s) then [en_key e] else []).
Proof. unfold keys_of. rewrite omap_app. simpl. by destruct (decide _). Qed.

Lemma count_kv_snoc es e k v :
  count_kv (es ++ [e]) k v =
  count_kv es k v + (if bool_decide (en_key e = k) && bool_decide (en_value e = v) then 1 else 0).
Proof. unfold count_kv. rewrite foldl_snoc. case_match; lia. Qed.

Lemma count_kv_nonneg es k v : 0 ≤ count_kv es k v.
Proof.
  induction es as [|e es IH] using rev_ind; [done|]. rewrite count_kv_snoc. case_match; lia.
Qed.

Lemma ini_item_values r es s0 k0 v0 s k :
  ini_rep r es → SEC_KEY_DELIM ∉ s0 → SEC_KEY_DELIM ∉ s →
  ini_kv_map (ini_item r s0 k0 v0) !! kv_key k s = last_value (es ++ [mkEntry s0 k0 v0]) s k.
Proof.
  intros Hr Hs0 Hs. rewrite last_value_snoc. unfold ini_item, at_item. cbn [ini_kv_map en_section en_key en_value].
  rewrite lookup_insert_ne by (by apply kv_key_ne).
  assert (<[kv_key k0 s0 := v0]> (ini_kv_map r) !! kv_key k s =
    if bool_decide (s0 = s) && bool_decide (k0 = k) then Some v0 else last_value es s k) as H.
  { destruct (decide (s0 = s ∧ k0 = k)) as [[-> ->]|Hne].
    - rewrite lookup_insert_eq, !bool_decide_true by done. done.
    - rewrite lookup_insert_ne by (intros (-> & ->)%kv_key_inj; auto).
      rewrite (ir_value _ _ Hr) by done. repeat case_bool_decide; naive_solver. }
  rewrite <-H. destruct (ini_kv_map r !! s0); apply lookup_insert_ne; apply not_eq_sym; by apply kv_key_ne.
Qed.

Lemma ini_item_keys r es s0 k0 v0 s :
  ini_rep r es → SEC_KEY_DELIM ∉ s0 → SEC_KEY_DELIM ∉ s →
  ini_kv_map (ini_item r s0 k0 v0) !! s =
  match keys_of (es ++ [mkEntry s0 k0 v0]) s with
  | [] => None
  | ks => Some (join_with [SEC_KEYS_DELIM] ks)
  end.
Proof.
  intros Hr Hs0 Hs. rewrite keys_of_snoc. unfold ini_item. cbn [ini_kv_map en_section en_key].
  rewrite lookup_insert_ne by (by apply kv_key_ne). rewrite (ir_keys _ _ Hr s0 Hs0).
  destruct (decide (s0 = s)) as [->|Hne].
  - destruct (keys_of es s) as [|k1 ks].
    + rewrite lookup_insert_eq. done.
    + rewrite lookup_insert_eq. change ((k1 :: ks) ++ [k0]) with (k1 :: (ks ++ [k0])).
      cbn [app]. f_equal. change (k1 :: ks ++ [k0]) with ((k1 :: ks) ++ [k0]).
      by rewrite join_with_snoc.
  - rewrite app_nil_r, <-(ir_keys _ _ Hr s Hs).
    assert (∀ u, <[s0 := u]> (<[kv_key k0 s0 := v0]> (ini_kv_map r)) !! s = ini_kv_map r !! s) as H.
    { intros u. rewrite lookup_insert_ne by done. apply lookup_insert_ne. by apply kv_key_ne. }
    by case_match; apply H.
Qed.

Lemma ini_item_status r es s0 k0 v0 k v :
  ini_rep r es →
  (ini_kv_status_map (ini_item r s0 k0 v0) !! k ≫= (.!! v)) =
  if count_kv (es ++ [mkEntry s0 k0 v0]) k v =? 0 then None
  else Some (count_kv (es ++ [mkEntry s0 k0 v0]) k v).
Proof.
  intros Hr. rewrite count_kv_snoc. unfold ini_item. cbn [ini_kv_status_map en_key en_value].
  pose proof (ir_status _ _ Hr k v) as H. pose proof (count_kv_nonneg es k v) as Hn.
  set (n := count_kv es k v) in *.
  destruct (decide (k0 = k)) as [->|Hk].
  - rewrite (bool_decide_true (k = k)) by done. cbn [andb].
    destruct (ini_kv_status_map r !! k) as [kv|] eqn:E; cbn [mbind option_bind] in H.
    + destruct (decide (v0 = v)) as [->|Hv].
      * rewrite bool_decide_true by done. rewrite lookup_insert_eq. cbn.
        rewrite H. destruct (Z.eqb_spec n 0) as [->|]; rewrite lookup_insert_eq; [done|].
        by destruct (Z.eqb_spec (n + 1) 0); [lia|].
      * rewrite bool_decide_false by done. rewrite Z.add_0_r, lookup_insert_eq. cbn. rewrite <-H.
        destruct (kv !! v0); by apply lookup_insert_ne.
    + rewrite lookup_insert_eq. cbn. destruct (Z.eqb_spec n 0) as [->|]; [|done].
      destruct (decide (v0 = v)) as [->|Hv].
      * rewrite bool_decide_true by done. by rewrite lookup_singleton_eq.
      * rewrite bool_decide_false by done. by rewrite lookup_singleton_ne.
  - rewrite (bool_decide_false (k0 = k)) by done. cbn [andb]. rewrite Z.add_0_r, <-H.
    by destruct (ini_kv_status_map r !! k0); rewrite lookup_insert_ne.
Qed.

Lemma ini_item_rep r es s k v :
  ini_rep r es → SEC_KEY_DELIM ∉ s → ini_rep (ini_item r s k v) (es ++ [mkEntry s k v]).
Proof.
  intros Hr Hs. split; intros.
  - by apply ini_item_values.
  - by apply ini_item_keys.
  - by apply ini_item_status.
Qed.

Lemma ini_read_refused section_of item_of lines sec r :
  ini_items section_of item_of lines sec = None → ini_read section_of item_of lines sec r = Abort.
Proof.
  revert sec r. induction lines as [|line lines IH]; intros sec r; cbn [ini_items ini_read]; [done|].
  destruct (ini_skipped line); [apply IH|]. destruct (section_of line); [apply IH|].
  destruct (item_of line) as [[k v]|]; [|done]. case_bool_decide; [done|].
  intros Hm%fmap_None. by apply IH.
Qed.

Lemma ini_read_spec section_of item_of lines sec r es es' :
  ini_rep r es → ini_items section_of item_of lines sec = Some es' →
  Forall (λ e, SEC_KEY_DELIM ∉ en_section e) es' →
  ∃ r', ini_read section_of item_of lines sec r = Ret r' ∧ ini_rep r' (es ++ es').
Proof.
  revert sec r es es'. induction lines as [|line lines IH]; intros sec r es es' Hr; cbn [ini_items ini_read].
  { intros [= <-] _. exists r. by rewrite app_nil_r. }
  destruct (ini_skipped line); [by apply IH|].
  destruct (section_of line) as [s|].
  { apply IH. destruct Hr as [H1 H2 H3]. by split. }
  destruct (item_of line) as [[k v]|]; [|done].
  case_bool_decide; [done|]. intros (es1 & E & ->)%fmap_Some [Hs Hall]%Forall_cons.
  destruct (IH _ _ _ _ (ini_item_rep _ _ sec k v Hr Hs) E Hall) as (r' & -> & Hr').
  exists r'. split; [done|]. by rewrite <-app_assoc in Hr'.
Qed.

Lemma ini_rep_new : ini_rep (mkIni ∅ ∅ ∅) [].
Proof. by split. Qed.

(** ** Properties *)

(** reading a configuration file whose section names contain no [@]: the file
    is refused exactly when the specification refuses it; otherwise a value asked
    for by section and key is the last one assigned to that key inside that
    section (the empty string when there is none), whatever else the map holds,
    and the key-value pairs that occur exactly once in the file are the unique
    ones. *)
Theorem ini_last_assignment section_of item_of lines
    (Hsec : ∀ es, ini_items section_of item_of lines [] = Some es →
      Forall (λ e, SEC_KEY_DELIM ∉ en_section e) es) :
  match ini_items section_of item_of lines [] with
  | None => IniFileReader_new section_of item_of lines = Abort
  | Some es => ∃ r, IniFileReader_new section_of item_of lines = Ret r ∧
      (∀ s k, SEC_KEY_DELIM ∉ s → IniGetValue r s k = default [] (last_value es s k)) ∧
      (∀ s, SEC_KEY_DELIM ∉ s → HasSection r s = true ↔ keys_of es s ≠ []) ∧
      (∀ k v, HasKeyValue r k v = true ↔ count_kv es k v ≠ 0) ∧
      (∀ k v, KeyValueIsUnique r k v = true ↔ count_kv es k v = 1)
  end.
Proof.
  destruct (ini_items section_of item_of lines []) as [es|] eqn:E; [|by apply ini_read_refused].
  destruct (ini_read_spec _ _ _ _ _ [] _ ini_rep_new E (Hsec es eq_refl)) as (r & Er & Hr).
  exists r. split; [exact Er|]. split; [|split; [|split]].
  - intros s k Hs. unfold IniGetValue. by rewrite (ir_value _ _ Hr).
  - intros s Hs. unfold HasSection. rewrite (ir_keys _ _ Hr s Hs), bool_decide_eq_true. cbn [app].
    destruct (keys_of es s); split; try done; first [by intros [? [=]]|eauto].
  - intros k v. pose proof (ir_status _ _ Hr k v) as H. unfold HasKeyValue. cbn [app] in H.
    destruct (ini_kv_status_map r !! k) as [kv|]; cbn in H.
    + rewrite H, bool_decide_eq_true. destruct (Z.eqb_spec (count_kv es k v) 0).
      * split; [by intros [? [=]]|done].
      * split; [done|eauto].
    + destruct (Z.eqb_spec (count_kv es k v) 0); done.
  - intros k v. pose proof (ir_status _ _ Hr k v) as H. unfold KeyValueIsUnique. cbn [app] in H.
    destruct (ini_kv_status_map r !! k) as [kv|]; cbn in H; [rewrite H|];
      (destruct (Z.eqb_spec (count_kv es k v) 0); [split; [done|lia]|]); [|done].
    rewrite Z.eqb_eq. done.
Qed.

(** A grammar for the instances: [[s]] is a section, [k=v] an item. *)
Definition wit_section (line : cstr) : option cstr :=
  match line with 91 :: c :: _ => Some [c] | _ => None end.
Definition wit_item (line : cstr) : option (cstr * cstr) :=
  match line with [k; 61; v] => Some ([k], [v]) | _ => None end.
Definition wit_lines : list cstr := [str "# io"; str "[s]"; str "k=1"; str "[t]"; str "k=2"; str "[s]"; str "k=3"].

Lemma ini_last_assignment_witness :
  ∃ r, IniFileReader_new wit_section wit_item wit_lines = Ret r ∧
    IniGetValue r (str "s") (str "k") = str "3" ∧ IniGetValue r (str "t") (str "k") = str "2".
Proof.
  destruct (ini_last_assignment wit_section wit_item wit_lines) as (r & Hr & Hv & _).
  - intros es [= <-]. repeat constructor; cbn; set_solver.
  - exists r. split; [done|]. rewrite !Hv by (cbn; set_solver). done.
Defined.

(** [IniGetSecValues] lists the items of a section in file order, each key
    with its last value, provided no key contains a comma and the last is not
    empty. *)
Theorem ini_section_values r es s ks k
    (Hr : ini_rep r es) (Hs : SEC_KEY_DELIM ∉ s) (Hne : s ≠ [])
    (Hk : keys_of es s = ks ++ [k]) (Hlast : k ≠ [])
    (Hcomma : Forall (λ t, SEC_KEYS_DELIM ∉ t) (ks ++ [k])) :
  IniGetSecValues r s =
  Ret (Some ((λ t, (t, default [] (last_value es s t))) <$> (ks ++ [k]))).
Proof.
  unfold IniGetSecValues. rewrite bool_decide_false by done.
  rewrite (ir_keys _ _ Hr s Hs), Hk.
  destruct (ks ++ [k]) as [|k1 ks'] eqn:E; [by destruct ks|].
  rewrite <-E at 1. rewrite Split_join by (by rewrite ?E). cbn [obind]. rewrite E.
  do 2 f_equal. apply list_fmap_ext. intros i t _. f_equal. unfold IniGetValue.
  by rewrite (ir_value _ _ Hr).
Qed.

Lemma ini_section_values_witness :
  ∃ r, IniFileReader_new wit_section wit_item wit_lines = Ret r ∧
    IniGetSecValues r (str "s") = Ret (Some [(str "k", str "3"); (str "k", str "3")]).
Proof.
  destruct (ini_read_spec wit_section wit_item wit_lines [] _ [] _ ini_rep_new eq_refl)
    as (r & Er & Hr); [repeat constructor; cbn; set_solver|].
  exists r. split; [done|].
  apply (ini_section_values r _ (str "s") [str "k"] (str "k") Hr); try done.
  - cbn. set_solver.
  - repeat constructor; cbn; set_solver.
Defined.
