(* ===== verification/Util.v ===== *)
(** Helpers of framework/lib/util.cpp and util.h: the per-second counter, the two
    hashes, service ids and number formatting. *)
From S2P Require Import Prelude Bytes StringAlgos Ini.

(** ** util::Counter *)
Record Counter := mkCounter { ct_count : Z; ct_second : Z }.

Definition Counter_new (now : Z) : Counter := mkCounter 0 now.

(** [get] at the time [t]. *)
Definition Counter_get (c : Counter) (t : Z) : Z * Counter :=
  if negb (t =? ct_second c) then (1, mkCounter 1 t)
  else let n := u32 (ct_count c + 1) in (n, mkCounter n (ct_second c)).

(** ** Hashes *)
Definition mmh_m : Z := 0x5bd1e995.

(** [k *= m; k ^= k >> r; k *= m;] *)
Definition mmh_mix (k : Z) : Z :=
  let k := u32 (k * mmh_m) in
  let k := Z.lxor k (Z.shiftr k 24) in
  u32 (k * mmh_m).

(** [h *= m; h ^= k;] *)
Definition mmh_add (h k : Z) : Z := Z.lxor (u32 (h * mmh_m)) (mmh_mix k).

(** The loops over the words; the bytes left over are returned. *)
Fixpoint mmh_body (key : list Z) (h1 h2 : Z) : Z * Z * list Z :=
  match key with
  | a0 :: a1 :: a2 :: a3 :: b0 :: b1 :: b2 :: b3 :: rest =>
      mmh_body rest (mmh_add h1 (le_value [a0; a1; a2; a3])) (mmh_add h2 (le_value [b0; b1; b2; b3]))
  | a0 :: a1 :: a2 :: a3 :: rest => (mmh_add h1 (le_value [a0; a1; a2; a3]), h2, rest)
  | rest => (h1, h2, rest)
  end.

(** The [switch] on the last bytes falls through its cases. *)
Definition mmh_tail (rest : list Z) (h2 : Z) : Z :=
  match rest with
  | [b0; b1; b2] =>
      u32 (Z.lxor (Z.lxor (Z.lxor h2 (Z.shiftl b2 16)) (Z.shiftl b1 8)) b0 * mmh_m)
  | [b0; b1] => u32 (Z.lxor (Z.lxor h2 (Z.shiftl b1 8)) b0 * mmh_m)
  | [b0] => u32 (Z.lxor h2 b0 * mmh_m)
  | _ => h2
  end.

Definition murmurHash64B (key : list Z) (seed : Z) : Z :=
  let '(h1, h2, rest) := mmh_body key (Z.lxor seed (Z.of_nat (length key))) 0 in
  let h2 := mmh_tail rest h2 in
  let h1 := u32 (Z.lxor h1 (Z.shiftr h2 18) * mmh_m) in
  let h2 := u32 (Z.lxor h2 (Z.shiftr h1 22) * mmh_m) in
  let h1 := u32 (Z.lxor h1 (Z.shiftr h2 17) * mmh_m) in
  let h2 := u32 (Z.lxor h2 (Z.shiftr h1 19) * mmh_m) in
  Z.lor (Z.shiftl h1 32) h2.

(** The characters are [char]s, signed on this platform. *)
Definition bkdrHash (s : list Z) : Z :=
  Z.land (foldl (λ hash c, u32 (hash * 131 + (if c <? 128 then c else c - 256))) 0 s) 0x7FFFFFFF.

(** ** The address of the host *)
(** An entry of [getifaddrs]: the family and, for AF_INET, the address in network order,
    so that its first byte is the lowest; an interface may have no address. *)
Abbreviation ifaddr := (option (Z * Z)).
Definition AF_INET : Z := 2.
Definition IFNAMSIZ : nat := 16.
Definition LOOPBACK : Z := 127.

(** The loop over the interfaces; [addr] is [addr._ip], which starts indeterminate. *)
Fixpoint gethost_scan (ifs : list ifaddr) (addr : option Z) : outcome (option Z) :=
  match ifs with
  | [] => Ret addr
  | None :: _ => Fault
  | Some (family, ip) :: ifs =>
      if family =? AF_INET then
        if negb (Z.land ip 255 =? LOOPBACK) then Ret (Some ip) else gethost_scan ifs (Some ip)
      else gethost_scan ifs addr
  end.

(** [ioctl eth] is the address the system gives for an interface.  The result is printed,
    so an address that was never set is used. *)
Definition gethost (eth : option cstr) (ioctl : cstr → option Z) (ifs : list ifaddr) : outcome Z :=
  let* addr := match eth with
               | Some name => if (length name <? IFNAMSIZ)%nat then Ret (ioctl name) else Fault
               | None => gethost_scan ifs None
               end in
  defined addr.

Definition buildServiceID (eth : option cstr) (ioctl : cstr → option Z) (ifs : list ifaddr) (port : Z) : outcome Z :=
  let* ip := gethost eth ioctl ifs in
  Ret (u64 (u64 (Z.shiftl ip 32) + port)).

(** [fcntl] answers with the flags, then with the result of setting them. *)
Definition O_NONBLOCK : Z := 2048.
Definition setNonblocking (getfl : Z) (setfl : Z → Z) : bool :=
  if (getfl <? 0) || (setfl (Z.lor getfl O_NONBLOCK) <? 0) then false else true.

(** ** Numbers to strings *)
(** The digits in the order they are written, least significant first; [room] is
    what is left of the buffer. *)
Fixpoint digit_loop (room : nat) (i : Z) : outcome (list Z) :=
  match room with
  | O => Fault
  | S room =>
      let c := 48 + i mod 10 in
      let i := i / 10 in
      if i =? 0 then Ret [c] else let* cs := digit_loop room i in Ret (c :: cs)
  end.

Definition Uint64ToString (value : Z) : outcome cstr :=
  let* cs := digit_loop 31 value in Ret (rev cs).

(** It writes backwards from the end of the buffer. *)
Definition LLToStr (value : Z) : outcome cstr := let* cs := digit_loop 31 value in Ret (rev cs).

(** Negating the least [int64_t] overflows. *)
Definition Int64ToString (value : Z) : outcome cstr :=
  if 0 <=? value then LLToStr value
  else if value =? - 2 ^ 63 then Fault
  else let* s := LLToStr (- value) in Ret (str "-" ++ s).

Example int64_ex : Int64ToString (-1200) = Ret (str "-1200").
Proof. reflexivity. Qed.

(** ** Lemmas *)
Definition is_digit (c : Z) : Prop := 48 ≤ c ≤ 57.

Fixpoint digits_value (cs : list Z) : Z :=
  match cs with
  | [] => 0
  | c :: cs => (c - 48) + 10 * digits_value cs
  end.

Lemma digits_app a b acc : Forall is_digit a → digits (a ++ b) acc = digits b (digits a acc).
Proof.
  intros Ha. revert acc. induction Ha as [|c a Hc _ IH]; intros acc; simpl; [done|].
  unfold is_digit in Hc. destruct (Z.leb_spec 48 c); [|lia]. destruct (Z.leb_spec c 57); [|lia].
  cbn. apply IH.
Qed.

Lemma digits_rev cs : Forall is_digit cs → digits (rev cs) 0 = digits_value cs.
Proof.
  induction 1 as [|c cs Hc Hcs IH]; [done|]. cbn [rev digits_value].
  rewrite digits_app by (apply Forall_rev; done). rewrite IH. simpl. unfold is_digit in Hc.
  destruct (Z.leb_spec 48 c); [|lia]. destruct (Z.leb_spec c 57); [|lia]. cbn. lia.
Qed.

Lemma digit_loop_spec k room i :
  (0 < k ≤ room)%nat → 0 ≤ i < 10 ^ Z.of_nat k →
  ∃ cs, digit_loop room i = Ret cs ∧ digits_value cs = i ∧ Forall is_digit cs ∧ (0 < length cs ≤ k)%nat.
Proof.
  revert k i. induction room as [|room IH]; intros k i Hk Hi; [lia|]. cbn [digit_loop].
  pose proof (Z.mod_pos_bound i 10) as Hm. pose proof (Z.div_mod i 10) as Hd.
  destruct (Z.eqb_spec (i / 10) 0) as [E|Hne].
  - exists [48 + i mod 10]. split; [done|]. split; [cbn; lia|]. split; [|cbn; lia].
    constructor; [unfold is_digit; lia|done].
  - destruct k as [|[|k]]; [lia| |].
    { rewrite Z.pow_1_r in Hi. rewrite Z.div_small in Hne; lia. }
    rewrite (Nat2Z.inj_succ (S k)), Z.pow_succ_r in Hi by lia.
    destruct (IH (S k) (i / 10)) as (cs & -> & Hv & Hall & Hlen); [lia| |].
    { split; [apply Z.div_pos; lia|]. apply Z.div_lt_upper_bound; lia. }
    cbn [obind]. exists (48 + i mod 10 :: cs). split; [done|]. split; [cbn [digits_value]; lia|].
    split; [|cbn; lia]. constructor; [unfold is_digit; lia|done].
Qed.

Lemma strto_digits s :
  Forall is_digit s → s ≠ [] → strto s = digits s 0.
Proof.
  intros Hs Hne. destruct Hs as [|c s Hc Hs]; [done|]. unfold is_digit in Hc. unfold strto. cbn [skip_space].
  unfold isspace. destruct (Z.eqb_spec c 32); [lia|]. destruct (Z.leb_spec c 13); [lia|].
  rewrite andb_false_r. cbn [orb]. destruct (Z.eqb_spec c 45); [lia|]. by destruct (Z.eqb_spec c 43); [lia|].
Qed.

Lemma LLToStr_spec v :
  0 ≤ v < 2 ^ 64 → ∃ s, LLToStr v = Ret s ∧ Forall is_digit s ∧ s ≠ [] ∧ digits s 0 = v ∧ (length s ≤ 20)%nat.
Proof.
  intros Hv. unfold LLToStr.
  destruct (digit_loop_spec 20 31 v) as (cs & -> & Hval & Hall & Hlen); [lia|lia|]. cbn [obind].
  exists (rev cs). split; [done|]. split; [by apply Forall_rev|].
  split; [intros E; apply (f_equal length) in E; rewrite length_rev in E; simpl in E; lia|].
  split; [by rewrite digits_rev|]. rewrite length_rev. lia.
Qed.

(** ** Properties *)

(** every 64-bit number is formatted inside the 32-byte buffer and reads back:
    [strtoll] of [Int64ToString v] is [v], and the digits of [Uint64ToString v]
    have the value [v].  The one exception is the least [int64_t], whose negation
    overflows. *)
Theorem number_strings_roundtrip v :
  (0 ≤ v < 2 ^ 64 → ∃ s, Uint64ToString v = Ret s ∧ digits s 0 = v ∧ (length s ≤ 20)%nat) ∧
  (- 2 ^ 63 < v < 2 ^ 63 → ∃ s, Int64ToString v = Ret s ∧ strtoll s = v) ∧
  Int64ToString (- 2 ^ 63) = Fault.
Proof.
  split; [|split; [|done]].
  - intros Hv. destruct (LLToStr_spec v Hv) as (s & Hs & _ & _ & Hd & Hl). exists s. done.
  - intros Hv. unfold Int64ToString, strtoll. destruct (Z.leb_spec 0 v) as [H0|H0].
    + destruct (LLToStr_spec v) as (s & -> & Hall & Hne & Hd & _); [lia|].
      exists s. split; [done|]. rewrite strto_digits, Hd by done. lia.
    + destruct (Z.eqb_spec v (- 2 ^ 63)); [lia|].
      destruct (LLToStr_spec (- v)) as (s & -> & Hall & Hne & Hd & _); [lia|]. cbn [obind].
      eexists. split; [done|]. change (strto (str "-" ++ s)) with (- digits s 0). rewrite Hd. lia.
Qed.

Lemma number_strings_roundtrip_witness :
  - 2 ^ 63 < -1200 < 2 ^ 63 ∧ ∃ s, Int64ToString (-1200) = Ret s ∧ strtoll s = -1200.
Proof. split; [lia|]. apply (number_strings_roundtrip (-1200)). lia. Defined.

Lemma gethost_scan_first pre ip post addr :
  Forall (λ i, ∃ f a, i = Some (f, a) ∧ (f = AF_INET → Z.land a 255 = LOOPBACK)) pre → Z.land ip 255 ≠ LOOPBACK →
  gethost_scan (pre ++ Some (AF_INET, ip) :: post) addr = Ret (Some ip).
Proof.
  intros Hp Hip. revert addr. induction Hp as [|i pre (f & a & -> & Hf) _ IH]; intros addr; cbn [app gethost_scan].
  - cbn. by rewrite (proj2 (Z.eqb_neq _ _) Hip).
  - destruct (Z.eqb_spec f AF_INET) as [E|]; [|apply IH]. rewrite (Hf E). cbn. apply IH.
Qed.

(** a service id names a server: on a host whose interfaces all have an address, it holds
    the first IPv4 address that is not a loopback address and the port, both of which
    can be read back; an interface without an address in front of it, or a host without
    an IPv4 address, is undefined behaviour. *)
Theorem service_id_names_host pre ip post port
    (Hpre : Forall (λ i, ∃ f a, i = Some (f, a) ∧ (f = AF_INET → Z.land a 255 = LOOPBACK)) pre)
    (Hip : 0 ≤ ip < 2 ^ 32 ∧ Z.land ip 255 ≠ LOOPBACK) (Hport : 0 ≤ port < 2 ^ 16) :
  ∃ id, buildServiceID None (λ _, None) (pre ++ Some (AF_INET, ip) :: post) port = Ret id ∧
    Z.shiftr id 32 = ip ∧ id mod 2 ^ 32 = port ∧
    buildServiceID None (λ _, None) (pre ++ None :: post) port = Fault ∧
    (Forall (λ i, ∃ f a, i = Some (f, a) ∧ f ≠ AF_INET) pre → buildServiceID None (λ _, None) pre port = Fault).
Proof.
  exists (ip * 2 ^ 32 + port). unfold buildServiceID, gethost. rewrite gethost_scan_first by (done || lia). cbn [obind defined].
  rewrite Z.shiftl_mul_pow2 by lia. unfold u64. rewrite (Z.mod_small (ip * 2 ^ 32)), Z.mod_small by lia.
  split_and!.
  - done.
  - rewrite Z.shiftr_div_pow2, Z.div_add_l, Z.div_small by lia. lia.
  - rewrite Z.add_comm, Z_mod_plus_full, Z.mod_small; lia.
  - assert (∀ addr, gethost_scan (pre ++ None :: post) addr = Fault) as ->; [|done].
    clear Hip. induction Hpre as [|i pre (f & a & -> & Hf) _ IH]; intros addr; [done|]. cbn [app gethost_scan].
    destruct (Z.eqb_spec f AF_INET) as [E|]; [|apply IH]. rewrite (Hf E). cbn. apply IH.
  - intros Hno. assert (gethost_scan pre None = Ret None) as ->; [|done].
    clear Hpre. induction Hno as [|i pre (f & a & -> & Hf) _ IH]; [done|]. cbn [gethost_scan].
    by rewrite (proj2 (Z.eqb_neq _ _) Hf).
Qed.

Lemma service_id_names_host_witness :
  ∃ id, buildServiceID None (λ _, None) [Some (AF_INET, 16777343); Some (AF_INET, 167772170)] 8080 = Ret id ∧
    Z.shiftr id 32 = 167772170.
Proof.
  destruct (service_id_names_host [Some (AF_INET, 16777343)] 167772170 [] 8080) as (id & E & H & _).
  - apply Forall_singleton. exists AF_INET, 16777343. done.
  - split; [lia|by vm_compute].
  - lia.
  - by exists id.
Defined.
