(* ===== verification/IoAppCluster.v ===== *)
(** io::IoAppCluster (framework/io/io_app_cluster.cpp): the group of I/O threads,
    its configuration, and the dispatch of accepted sockets and of messages to
    push.

    The cluster sees a thread only through [connCount] and the two wake-up calls:
    the class [IoThread].  The queues belong to the cluster; each thread reads the
    one with its index. *)
From S2P Require Import Prelude Heap MsMessage MsQueues LibQueues IoAppConnection ConnCache IoApp StringAlgos Ini.

(** What the cluster uses of an I/O thread. *)
Class IoThread (T : Type) := {
  th_connCount : T → Z;
  th_newNotify : T → T;
  th_pushNotify : T → T;
  th_newNotify_count t : th_connCount (th_newNotify t) = th_connCount t;
  th_pushNotify_count t : th_connCount (th_pushNotify t) = th_connCount t }.

(** The I/O thread itself: a notification only wakes its event loop up. *)
#[export] Instance ioapp_thread {S} : IoThread (IoApp S).
Proof. by refine {| th_connCount := IoApp_connCount; th_newNotify a := a; th_pushNotify a := a |}. Defined.

Record cluster_settings := mkSettings {
  st_cluster_size : Z;
  st_socket_max : Z;
  st_read_timeout : Z;
  st_write_timeout : Z;
  st_second_limit : Z;
  st_minute_limit : Z;
  st_hour_limit : Z }.

Record IoAppCluster (T : Type) := mkCluster {
  cl_settings : cluster_settings;
  cl_sock_queue : list (qheap * Queue); (** each with the elements it allocated *)
  cl_msgs : mheap;
  cl_msg_queue : list MsMessageQueue;
  cl_core_io : list T }.
Arguments mkCluster {T}.
Arguments cl_settings {T}.
Arguments cl_sock_queue {T}.
Arguments cl_msgs {T}.
Arguments cl_msg_queue {T}.
Arguments cl_core_io {T}.

(** ** Operations *)
Definition settings_default : cluster_settings :=
  mkSettings 0 0x0FFFFFFF 0 0 0x0FFFFFFF 0x0FFFFFFF 0x0FFFFFFF.

(** [int v = IniGetIntValue("IO", key, d); if (v <= 0) v = d;] *)
Definition io_setting (ini : IniFileReader) (key : cstr) (d : Z) : outcome Z :=
  let* v := IniGetIntValue ini (str "IO") key d in
  Ret (if v <=? 0 then d else v).

(** The setters of the limits assert that they are positive. *)
Definition IoAppCluster_settings (ini : IniFileReader) : outcome cluster_settings :=
  let* io_thread_num := io_setting ini (str "io_thread_num") 1 in
  let* io_max := io_setting ini (str "io_max") 1000 in
  let* io_read_timeout := io_setting ini (str "io_read_timeout") 10 in
  let* io_write_timeout := io_setting ini (str "io_write_timeout") 10 in
  let* io_request_limit_second := io_setting ini (str "io_request_limit_second") 3 in
  let* io_request_limit_minute := io_setting ini (str "io_request_limit_minute") 30 in
  let* io_request_limit_hour := io_setting ini (str "io_request_limit_hour") 500 in
  let* _ := assert_ (0 <? io_request_limit_second) in
  let* _ := assert_ (0 <? io_request_limit_minute) in
  let* _ := assert_ (0 <? io_request_limit_hour) in
  Ret (mkSettings io_thread_num io_max io_read_timeout io_write_timeout
         io_request_limit_second io_request_limit_minute io_request_limit_hour).

Section cluster.
Context {T : Type} {HT : IoThread T}.
Implicit Types (k : IoAppCluster T).

Definition IoAppCluster_new : IoAppCluster T := mkCluster settings_default [] ∅ [] [].

Definition IoAppCluster_initialize (ini : IniFileReader) k : outcome (IoAppCluster T) :=
  let* st := IoAppCluster_settings ini in
  Ret (mkCluster st (cl_sock_queue k) (cl_msgs k) (cl_msg_queue k) (cl_core_io k)).

Definition thread_config (st : cluster_settings) (id : nat) : app_config :=
  {| cf_id := Z.of_nat id; cf_rtimeout := st_read_timeout st; cf_wtimeout := st_write_timeout st;
     cf_second_limit := st_second_limit st; cf_minute_limit := st_minute_limit st;
     cf_hour_limit := st_hour_limit st |}.

(** [new_io] is the constructor of a thread with its setters. *)
Definition IoAppCluster_run (new_io : app_config → T) k : Z * IoAppCluster T :=
  let size := st_cluster_size (cl_settings k) in
  if size <=? 0 then (-1, k)
  else
    let n := Z.to_nat size in
    (0, mkCluster (cl_settings k) (replicate n (∅, Queue_new)) (cl_msgs k)
          (replicate n MsMessageQueue_new)
          ((λ i, new_io (thread_config (cl_settings k) i)) <$> seq 0 n)).

(** The loop over the threads: total count, least count, its index. *)
Fixpoint least_loaded (cs : list Z) (i socket_count min to : Z) : Z * Z * Z :=
  match cs with
  | [] => (socket_count, min, to)
  | c :: cs =>
      if c <? min then least_loaded cs (i + 1) (socket_count + c) c i
      else least_loaded cs (i + 1) (socket_count + c) min to
  end.

Definition thread_at {A} (xs : list A) (i : Z) : outcome A :=
  if i <? 0 then Fault else match xs !! Z.to_nat i with Some x => Ret x | None => Fault end.

(** The result, the cluster, and the descriptors closed. *)
Definition dispatchConnection k (fd id : Z) : outcome (Z * IoAppCluster T * list Z) :=
  let max := st_socket_max (cl_settings k) in
  let '(socket_count, _, to) := least_loaded (th_connCount <$> cl_core_io k) 0 0 max 0 in
  if socket_count <? max then
    let* (h, q) := thread_at (cl_sock_queue k) to in
    let* (h, q) := Queue_put h q fd id in
    let* t := thread_at (cl_core_io k) to in
    Ret (0, mkCluster (cl_settings k) (<[Z.to_nat to := (h, q)]> (cl_sock_queue k)) (cl_msgs k)
              (cl_msg_queue k) (<[Z.to_nat to := th_newNotify t]> (cl_core_io k)), [])
  else Ret (-1, k, [fd]).

Definition dispatchPushList k (io : Z) (msg : ptr) : outcome (IoAppCluster T) :=
  let* q := thread_at (cl_msg_queue k) io in
  let* (h, q) := MsMessageQueue_put (cl_msgs k) q msg in
  let* t := thread_at (cl_core_io k) io in
  Ret (mkCluster (cl_settings k) (cl_sock_queue k) h
         (<[Z.to_nat io := q]> (cl_msg_queue k)) (<[Z.to_nat io := th_pushNotify t]> (cl_core_io k))).

(** ** Invariant

    A running cluster has one queue of each kind per thread; the socket queues
    hold [qs], the message queues the disjoint lists [lss]. *)
Record cluster_rep k (qs : list (list (Z * Z))) (lss : list (list loc)) : Prop := {
  cr_running : (0 < length (cl_core_io k))%nat;
  cr_socks : Forall2 (λ hq xs, queue_rep (fst hq) (snd hq) xs) (cl_sock_queue k) qs;
  cr_socks_len : length qs = length (cl_core_io k);
  cr_msgs : Forall2 (mq_rep (cl_msgs k)) (cl_msg_queue k) lss;
  cr_msgs_len : length lss = length (cl_core_io k);
  cr_disjoint : NoDup (mjoin lss) }.

Definition loads k : list Z := th_connCount <$> cl_core_io k.
End cluster.

(** The thread with the least load, the first of several. *)
Definition is_least (cs : list Z) (to : nat) : Prop :=
  ∃ m, cs !! to = Some m ∧ ∀ j c, cs !! j = Some c → m ≤ c ∧ ((j < to)%nat → m < c).

Definition sumZ (cs : list Z) : Z := foldr Z.add 0 cs.

(** ** Lemmas *)
Lemma sumZ_nonneg cs : Forall (λ c, 0 ≤ c) cs → 0 ≤ sumZ cs ∧ Forall (λ c, c ≤ sumZ cs) cs.
Proof.
  induction 1 as [|c cs Hc _ [IH1 IH2]]; [done|]. unfold sumZ in *. cbn. split; [lia|]. constructor; [lia|].
  eapply Forall_impl; [exact IH2|]. cbn. intros. lia.
Qed.

Lemma least_loaded_spec cs i sc mn to :
  ∃ m t, least_loaded cs i sc mn to = (sc + sumZ cs, m, t) ∧ m ≤ mn ∧
    (∀ j c, cs !! j = Some c → m ≤ c) ∧
    ((m = mn ∧ t = to) ∨
     ∃ j, t = i + Z.of_nat j ∧ cs !! j = Some m ∧ m < mn ∧
       ∀ j' c, (j' < j)%nat → cs !! j' = Some c → m < c).
Proof.
  revert i sc mn to. induction cs as [|c cs IH]; intros i sc mn to; cbn [least_loaded sumZ foldr].
  { exists mn, to. rewrite Z.add_0_r. split; [done|]. split; [lia|]. split; [done|auto]. }
  rewrite Z.add_assoc. fold (sumZ cs). destruct (Z.ltb_spec c mn) as [Hlt|Hge].
  - destruct (IH (i + 1) (sc + c) c i) as (m & t & -> & Hm & Hall & Hor).
    exists m, t. split; [done|]. split; [lia|]. split; [intros [|j] x Hx; [naive_solver lia|eauto]|].
    right. destruct Hor as [[-> ->]|(j & -> & Hj & Hlt' & Hfirst)].
    + exists 0%nat. split; [lia|]. split; [done|]. split; [done|]. intros; lia.
    + exists (S j). split; [lia|]. split; [done|]. split; [lia|].
      intros [|j'] x Hj' Hx; [naive_solver lia|]. apply (Hfirst j'); [lia|done].
  - destruct (IH (i + 1) (sc + c) mn to) as (m & t & -> & Hm & Hall & Hor).
    exists m, t. split; [done|]. split; [lia|]. split; [intros [|j] x Hx; [naive_solver lia|eauto]|].
    destruct Hor as [?|(j & -> & Hj & Hlt' & Hfirst)]; [auto|]. right.
    exists (S j). split; [lia|]. split; [done|]. split; [done|].
    intros [|j'] x Hj' Hx; [naive_solver lia|]. apply (Hfirst j'); [lia|done].
Qed.

Lemma least_loaded_least cs max :
  cs ≠ [] → Forall (λ c, 0 ≤ c) cs → sumZ cs < max →
  ∃ m to, least_loaded cs 0 0 max 0 = (sumZ cs, m, Z.of_nat to) ∧ is_least cs to.
Proof.
  intros Hne Hpos Hmax. destruct (sumZ_nonneg cs Hpos) as [_ Hle].
  destruct (least_loaded_spec cs 0 0 max 0) as (m & t & -> & Hm & Hall & Hor).
  destruct Hor as [[-> _]|(j & -> & Hj & Hlt & Hfirst)].
  - destruct cs as [|c cs]; [done|]. specialize (Hall 0%nat c eq_refl).
    apply Forall_cons in Hle as [Hc _]. lia.
  - exists m, j. split; [done|]. exists m. split; [done|]. naive_solver.
Qed.

Lemma thread_at_Some {A} (xs : list A) i x :
  xs !! i = Some x → thread_at xs (Z.of_nat i) = Ret x.
Proof.
  intros E. unfold thread_at. destruct (Z.ltb_spec (Z.of_nat i) 0); [lia|].
  by rewrite Nat2Z.id, E.
Qed.

Lemma mjoin_extend {A} (lss : list (list A)) i ls vs :
  lss !! i = Some ls → mjoin (<[i := ls ++ vs]> lss) ≡ₚ vs ++ mjoin lss.
Proof.
  intros E. rewrite <-(take_drop_middle lss i ls E) at 2.
  rewrite insert_take_drop by (by eapply lookup_lt_Some).
  rewrite !join_app. cbn [mjoin list_join]. rewrite <-(app_assoc ls). solve_Permutation.
Qed.

Lemma mjoin_in {A} (lss : list (list A)) i ls x : lss !! i = Some ls → x ∈ ls → x ∈ mjoin lss.
Proof. intros E Hx. apply list_elem_of_join. exists ls. split; [done|]. by eapply list_elem_of_lookup_2. Qed.

(** Lists at different positions of a duplicate-free join are disjoint. *)
Lemma mjoin_disjoint {A} (lss : list (list A)) i j li lj x :
  NoDup (mjoin lss) → lss !! i = Some li → lss !! j = Some lj → i ≠ j → x ∈ li → x ∉ lj.
Proof.
  intros Hnd Ei Ej Hne Hi Hj.
  assert (∀ a b la lb, (a < b)%nat → lss !! a = Some la → lss !! b = Some lb → x ∈ la → x ∈ lb → False) as H.
  { clear -Hnd. intros a b la lb Hab Ea Eb Ha Hb.
    rewrite <-(take_drop_middle lss b lb Eb), join_app in Hnd. apply NoDup_app in Hnd as (_ & Hd & _).
    apply (Hd x); [|cbn; set_solver]. eapply (mjoin_in _ a); [|exact Ha]. by rewrite lookup_take_lt. }
  destruct (decide (i < j)%nat); [by eapply (H i j)|]. eapply (H j i); try done. lia.
Qed.

Section cluster_lemmas.
Context {T : Type} {HT : IoThread T}.
Implicit Types (k : IoAppCluster T).

Lemma loads_notify k i t f :
  (∀ t, th_connCount (f t) = th_connCount t) → cl_core_io k !! i = Some t →
  th_connCount <$> <[i := f t]> (cl_core_io k) = loads k.
Proof.
  intros Hf E. unfold loads. rewrite list_fmap_insert, Hf. apply list_insert_id.
  by rewrite list_lookup_fmap, E.
Qed.

(** The settings, and the threads when waking them up does not change them. *)
Definition same_threads k k' : Prop :=
  cl_settings k' = cl_settings k ∧ ((∀ t, th_pushNotify t = t) → cl_core_io k' = cl_core_io k).

Lemma dispatchConnection_spec k qs lss fd id :
  cluster_rep k qs lss → Forall (λ c, 0 ≤ c) (loads k) →
  if sumZ (loads k) <? st_socket_max (cl_settings k) then
    ∃ to xs k', is_least (loads k) to ∧ qs !! to = Some xs ∧
      dispatchConnection k fd id = Ret (0, k', []) ∧
      cluster_rep k' (<[to := xs ++ [(fd, u64 id)]]> qs) lss ∧
      loads k' = loads k ∧ cl_settings k' = cl_settings k
  else dispatchConnection k fd id = Ret (-1, k, [fd]).
Proof.
  intros Hr Hpos. unfold dispatchConnection.
  destruct (least_loaded_spec (th_connCount <$> cl_core_io k) 0 0 (st_socket_max (cl_settings k)) 0)
    as (m0 & t0 & E0 & _). fold (loads k) in *. rewrite Z.add_0_l in E0.
  destruct (Z.ltb_spec (sumZ (loads k)) (st_socket_max (cl_settings k))) as [Hlt|Hge].
  2:{ rewrite E0. by destruct (Z.ltb_spec (sumZ (loads k)) (st_socket_max (cl_settings k))); [lia|]. }
  clear E0. destruct (least_loaded_least (loads k) (st_socket_max (cl_settings k))) as (m & to & -> & Hl); try done.
  { pose proof (cr_running _ _ _ Hr). unfold loads. destruct (cl_core_io k); simpl in *; [lia|done]. }
  destruct (Z.ltb_spec (sumZ (loads k)) (st_socket_max (cl_settings k))); [|lia].
  pose proof Hl as (x & Hx & _). apply list_lookup_fmap_Some in Hx as (t & _ & Et).
  destruct Hr as [Hrun Hs Hsl Hm Hml Hd].
  assert (is_Some (qs !! to)) as [xs Exs].
  { apply lookup_lt_is_Some. rewrite Hsl. by apply lookup_lt_Some in Et. }
  destruct (Forall2_lookup_r _ _ _ _ _ Hs Exs) as ([h q] & Eq & Hq).
  rewrite (thread_at_Some _ _ _ Eq). cbn [obind].
  destruct (Queue_put_spec h q xs fd id Hq) as (h' & q' & -> & Hq'). cbn [obind].
  rewrite (thread_at_Some _ _ _ Et). cbn [obind]. rewrite Nat2Z.id.
  eexists to, xs, _. split; [done|]. split; [done|]. split; [done|]. split; [|split; [|done]].
  - split; cbn [cl_core_io cl_sock_queue cl_msg_queue cl_msgs]; rewrite ?length_insert; try done.
    by apply Forall2_insert.
  - apply loads_notify; [apply th_newNotify_count|done].
Qed.

Lemma dispatchPushList_spec k qs lss i ls v vs :
  cluster_rep k qs lss → lss !! i = Some ls → lseg (cl_msgs k) (Some v) (v :: vs) None →
  (∀ l, l ∈ v :: vs → l ∉ mjoin lss) →
  ∃ k', dispatchPushList k (Z.of_nat i) (Some v) = Ret k' ∧
    cluster_rep k' qs (<[i := ls ++ v :: vs]> lss) ∧ relinks (cl_msgs k) (cl_msgs k') ls ∧
    loads k' = loads k ∧ same_threads k k'.
Proof.
  intros [Hrun Hs Hsl Hm Hml Hd] Ei Hv Hdis. unfold dispatchPushList.
  destruct (Forall2_lookup_r _ _ _ _ _ Hm Ei) as (q & Eq & Hq).
  rewrite (thread_at_Some _ _ _ Eq). cbn [obind].
  destruct (mq_put_spec _ _ _ _ _ Hq Hv) as (h' & q' & -> & Hq' & Hrel).
  { intros l H1 H2. apply (Hdis l H2). by eapply mjoin_in. }
  cbn [obind]. assert (is_Some (cl_core_io k !! i)) as [t Et].
  { apply lookup_lt_is_Some. rewrite <-Hml. by apply lookup_lt_Some in Ei. }
  rewrite (thread_at_Some _ _ _ Et). cbn [obind]. rewrite Nat2Z.id.
  eexists. split; [done|]. split; [|split; [done|split; [|split; [done|]]]].
  - split; cbn [cl_core_io cl_sock_queue cl_msg_queue cl_msgs]; rewrite ?length_insert; try done.
    + apply Forall2_same_length_lookup. rewrite !length_insert.
      split; [by eapply Forall2_length|]. intros j qj lj Hj1 Hj2.
      destruct (decide (i = j)) as [<-|Hne].
      * apply list_lookup_insert_Some in Hj1 as [(_ & <- & _)|[? _]]; [|done].
        by apply list_lookup_insert_Some in Hj2 as [(_ & <- & _)|[? _]].
      * rewrite list_lookup_insert_ne in Hj1 by done. rewrite list_lookup_insert_ne in Hj2 by done.
        eapply is_queue_frame; [|exact (Forall2_lookup_lr _ _ _ _ _ _ Hm Hj1 Hj2)].
        intros l Hl. apply Hrel. by eapply (mjoin_disjoint lss j i).
    + rewrite mjoin_extend by done. apply NoDup_app. split; [exact (lseg_NoDup _ _ _ Hv)|].
      split; [exact Hdis|done].
  - apply loads_notify; [apply th_pushNotify_count|done].
  - intros Hid. cbn [cl_core_io]. rewrite Hid. by apply list_insert_id.
Qed.
End cluster_lemmas.

(** A burst of accepted sockets, dispatched before any I/O thread runs. *)
Fixpoint dispatch_all {T} `{IoThread T} (k : IoAppCluster T) (xs : list (Z * Z))
    : outcome (IoAppCluster T * list Z) :=
  match xs with
  | [] => Ret (k, [])
  | (fd, id) :: xs =>
      let* (_, k, closed) := dispatchConnection k fd id in
      let* (k, closed') := dispatch_all k xs in
      Ret (k, closed ++ closed')
  end.

Lemma is_least_unique cs i j : is_least cs i → is_least cs j → i = j.
Proof.
  intros (m & Ei & Hi) (n & Ej & Hj).
  destruct (Hi j n Ej) as [H1 H2]. destruct (Hj i m Ei) as [H3 H4].
  destruct (decide (i < j)%nat); [specialize (H4 l); lia|].
  destruct (decide (j < i)%nat); [specialize (H2 l); lia|]. lia.
Qed.

Definition configured (ini : IniFileReader) (key : cstr) (d v : Z) : Prop :=
  0 < v ∧ ∀ u, IniGetIntValue ini (str "IO") key d = Ret u → 0 < u → v = u.

Lemma io_setting_cases ini key d :
  0 < d → io_setting ini key d = Fault ∨ ∃ v, io_setting ini key d = Ret v ∧ configured ini key d v.
Proof.
  intros Hd. unfold io_setting, configured.
  assert (IniGetIntValue ini (str "IO") key d = Fault ∨
    ∃ u, IniGetIntValue ini (str "IO") key d = Ret u) as [->|[u ->]].
  { unfold IniGetIntValue, atoi. repeat case_match; eauto. }
  - by left.
  - right. cbn [obind]. eexists. split; [done|]. destruct (Z.leb_spec u 0).
    + split; [done|]. intros ? [= <-]. lia.
    + split; [done|]. by intros ? [= <-].
Qed.

Lemma settings_cases ini :
  IoAppCluster_settings ini = Fault ∨
  ∃ st, IoAppCluster_settings ini = Ret st ∧
    configured ini (str "io_thread_num") 1 (st_cluster_size st) ∧
    configured ini (str "io_max") 1000 (st_socket_max st) ∧
    configured ini (str "io_read_timeout") 10 (st_read_timeout st) ∧
    configured ini (str "io_write_timeout") 10 (st_write_timeout st) ∧
    configured ini (str "io_request_limit_second") 3 (st_second_limit st) ∧
    configured ini (str "io_request_limit_minute") 30 (st_minute_limit st) ∧
    configured ini (str "io_request_limit_hour") 500 (st_hour_limit st).
Proof.
  unfold IoAppCluster_settings.
  destruct (io_setting_cases ini (str "io_thread_num") 1) as [->|(v1 & -> & H1)]; [done|by left|].
  destruct (io_setting_cases ini (str "io_max") 1000) as [->|(v2 & -> & H2)]; [done|by left|].
  destruct (io_setting_cases ini (str "io_read_timeout") 10) as [->|(v3 & -> & H3)]; [done|by left|].
  destruct (io_setting_cases ini (str "io_write_timeout") 10) as [->|(v4 & -> & H4)]; [done|by left|].
  destruct (io_setting_cases ini (str "io_request_limit_second") 3) as [->|(v5 & -> & H5)]; [done|by left|].
  destruct (io_setting_cases ini (str "io_request_limit_minute") 30) as [->|(v6 & -> & H6)]; [done|by left|].
  destruct (io_setting_cases ini (str "io_request_limit_hour") 500) as [->|(v7 & -> & H7)]; [done|by left|].
  cbn [obind]. right. unfold assert_.
  rewrite !(proj2 (Z.ltb_lt 0 _)) by (by apply H5 || by apply H6 || by apply H7).
  cbn [obind]. eexists. split; [reflexivity|]. done.
Qed.

Lemma mjoin_nils {A} n : mjoin (replicate n ([] : list A)) = [].
Proof. by induction n. Qed.

(** The instances: a thread is the number of its connections. *)
Definition wit_thread : IoThread Z.
Proof. by refine {| th_connCount c := c; th_newNotify c := c; th_pushNotify c := c |}. Defined.

Definition wit_cluster : IoAppCluster Z :=
  mkCluster (mkSettings 2 10 10 10 3 30 500) [(∅, Queue_new); (∅, Queue_new)] ∅
    [MsMessageQueue_new; MsMessageQueue_new] [4; 2].

Lemma wit_cluster_rep : @cluster_rep Z wit_cluster [[]; []] [[]; []].
Proof.
  split; cbn; try lia; try done.
  - by repeat constructor; exists [].
  - by repeat constructor.
  - constructor.
Qed.

(** ** Properties *)

(** a new socket goes to the thread with the fewest connections, the first
    one of several, and is queued behind the sockets that wait there; nothing else
    changes.  When the threads together have reached [_socket_max] the descriptor
    is closed instead. *)
Theorem dispatch_least_loaded {T} `{HT : IoThread T} (k : IoAppCluster T) qs lss fd id
    (Hr : cluster_rep k qs lss) (Hpos : Forall (λ c, 0 ≤ c) (loads k)) :
  if sumZ (loads k) <? st_socket_max (cl_settings k) then
    ∃ to xs k', is_least (loads k) to ∧ qs !! to = Some xs ∧
      dispatchConnection k fd id = Ret (0, k', []) ∧
      cluster_rep k' (<[to := xs ++ [(fd, u64 id)]]> qs) lss ∧ loads k' = loads k
  else dispatchConnection k fd id = Ret (-1, k, [fd]).
Proof.
  pose proof (dispatchConnection_spec k qs lss fd id Hr Hpos) as H.
  destruct (_ <? _); [|done]. destruct H as (to & xs & k' & ? & ? & ? & ? & ? & _).
  exists to, xs, k'. done.
Qed.

Lemma dispatch_least_loaded_witness :
  let HT := wit_thread in
  ∃ k', dispatchConnection wit_cluster 5 77 = Ret (0, k', []) ∧
    cluster_rep k' [[]; [(5, 77)]] [[]; []].
Proof.
  intros HT. pose proof (dispatch_least_loaded wit_cluster _ _ 5 77 wit_cluster_rep) as H.
  destruct H as (to & xs & k' & Hl & Hx & Hd & Hr & _); [repeat constructor; cbn; lia|].
  assert (to = 1%nat) as ->.
  { apply (is_least_unique [4; 2]); [exact Hl|]. exists 2. split; [done|].
    intros [|[|j]] c Hc; naive_solver lia. }
  injection Hx as <-. exists k'. done.
Defined.

(** the limit and the balance are only as good as the counts the threads
    publish: sockets accepted in a burst, before a thread has run, all go to the
    same thread, and all of them are taken however far they exceed
    [_socket_max]. *)
Theorem burst_exceeds_max {T} `{HT : IoThread T} (k : IoAppCluster T) qs lss to ys xs
    (Hr : cluster_rep k qs lss) (Hpos : Forall (λ c, 0 ≤ c) (loads k))
    (Hmax : sumZ (loads k) < st_socket_max (cl_settings k))
    (Hto : is_least (loads k) to) (Hys : qs !! to = Some ys) :
  ∃ k', dispatch_all k xs = Ret (k', []) ∧
    cluster_rep k' (<[to := ys ++ ((λ x, (fst x, u64 (snd x))) <$> xs)]> qs) lss.
Proof.
  revert k qs ys Hr Hpos Hmax Hto Hys. induction xs as [|[fd id] xs IH]; intros k qs ys Hr Hpos Hmax Hto Hys.
  { exists k. split; [done|]. cbn. rewrite app_nil_r. by rewrite list_insert_id. }
  cbn [dispatch_all]. pose proof (dispatchConnection_spec k qs lss fd id Hr Hpos) as H.
  destruct (Z.ltb_spec (sumZ (loads k)) (st_socket_max (cl_settings k))); [|lia].
  destruct H as (to' & xs' & k1 & Hl & Hx & -> & Hr1 & Hld & Hst). cbn [obind].
  assert (to' = to) as -> by (by eapply is_least_unique). assert (xs' = ys) as -> by congruence.
  destruct (IH k1 (<[to := ys ++ [(fd, u64 id)]]> qs) (ys ++ [(fd, u64 id)])) as (k' & -> & Hr').
  - done.
  - by rewrite Hld.
  - by rewrite Hld, Hst.
  - by rewrite Hld.
  - apply list_lookup_insert_eq. by apply lookup_lt_Some in Hys.
  - cbn [obind]. exists k'. split; [done|]. rewrite list_insert_insert_eq, <-app_assoc in Hr'. done.
Qed.

Lemma burst_exceeds_max_witness :
  let HT := wit_thread in
  let xs := (λ n, (Z.of_nat n, Z.of_nat n)) <$> seq 0 20 in
  ∃ k', dispatch_all wit_cluster xs = Ret (k', []) ∧ cluster_rep k' [[]; xs] [[]; []].
Proof.
  intros HT xs.
  destruct (burst_exceeds_max wit_cluster [[]; []] [[]; []] 1 [] xs wit_cluster_rep) as (k' & Hd & Hr).
  - repeat constructor; cbn; lia.
  - done.
  - exists 2. split; [done|]. intros [|[|j]] c Hc; naive_solver lia.
  - done.
  - exists k'. split; [exact Hd|]. exact Hr.
Defined.

(** configuration.  Unless a number in the file does not fit an [int], the
    settings [initialize] accepts are positive, a positive configured value is the
    one used, no assertion of the setters fails, and [run] then starts that many
    threads with empty queues. *)
Theorem cluster_starts {T} `{HT : IoThread T} (new_io : app_config → T) ini k0 :
  IoAppCluster_initialize ini k0 = Fault ∨
  ∃ k, IoAppCluster_initialize ini k0 = Ret k ∧
    configured ini (str "io_thread_num") 1 (st_cluster_size (cl_settings k)) ∧
    configured ini (str "io_max") 1000 (st_socket_max (cl_settings k)) ∧
    configured ini (str "io_request_limit_second") 3 (st_second_limit (cl_settings k)) ∧
    fst (IoAppCluster_run new_io k) = 0 ∧
    let n := Z.to_nat (st_cluster_size (cl_settings k)) in
    cluster_rep (snd (IoAppCluster_run new_io k)) (replicate n []) (replicate n []).
Proof.
  unfold IoAppCluster_initialize.
  destruct (settings_cases ini) as [->|(st & -> & H1 & H2 & _ & _ & H3 & _)]; [by left|].
  right. cbn [obind]. eexists. split; [reflexivity|]. cbn [cl_settings].
  split; [exact H1|]. split; [exact H2|]. split; [exact H3|]. destruct H1 as [H1 _].
  unfold IoAppCluster_run. cbn [cl_settings]. destruct (Z.leb_spec (st_cluster_size st) 0); [lia|].
  split; [done|]. cbv zeta. cbn [snd].
  split; cbn [cl_core_io cl_sock_queue cl_msg_queue cl_msgs];
    rewrite ?length_fmap, ?length_seq, ?length_replicate; try lia.
  - apply Forall2_replicate. by exists [].
  - by apply Forall2_replicate.
  - rewrite mjoin_nils. constructor.
Qed.
