(* ===== verification/IoNotify.v ===== *)
(** Waking an I/O thread up (framework/io/io_app.cpp: newNotify, pushNotify,
    connectionHandle, pushHandle and the ends of newConnection and push; framework/io/
    io_app_cluster.cpp: the order of put and notify).

    Another thread puts a list of items into a queue and then writes one byte to a socket
    pair; the event loop calls the handler as long as the pair is readable; the handler
    takes the whole queue, works on it, and then reads as many bytes as it took items,
    one at least and 256 at most.  Nothing orders the four actions of the two sides, so
    here each is a step.  The accepting thread puts sockets one at a time
    (dispatchConnection), a router puts the messages for a thread as one list
    (dispatchPushList): one byte then stands for several items, and the handler reads
    more bytes than its items brought.  The pair is taken to have room for every byte. *)
From S2P Require Import Prelude.

(** [nf_late] are the threads that have put their list and not written their byte yet;
    [nf_reading] is the number of bytes the handler will read, while it runs. *)
Record notifier (A : Type) := mkNotifier {
  nf_queue : list A; nf_bytes : nat; nf_late : nat; nf_reading : option nat }.
Arguments mkNotifier {A}.
Arguments nf_queue {A}.
Arguments nf_bytes {A}.
Arguments nf_late {A}.
Arguments nf_reading {A}.

(** [if (count > 256) count = 256; else if (count == 0) count = 1;] *)
Definition read_size (count : nat) : nat :=
  if (256 <? count)%nat then 256 else if (count =? 0)%nat then 1 else count.

Section notifier.
Context {A : Type}.
Implicit Types (s : notifier A).

(** [_sock_queue[to].put(fd, id)] with one item, [_msg_queue[io].put(msg)] with the list
    that starts at [msg]. *)
Definition put_items (xs : list A) s : notifier A :=
  mkNotifier (nf_queue s ++ xs) (nf_bytes s) (S (nf_late s)) (nf_reading s).

(** One byte is written to the pair. *)
Definition notify_byte s : option (notifier A) :=
  match nf_late s with
  | O => None
  | S late => Some (mkNotifier (nf_queue s) (S (nf_bytes s)) late (nf_reading s))
  end.

(** The event fires and the handler takes the queue. *)
Definition handler_take s : option (list A * notifier A) :=
  match nf_reading s, nf_bytes s with
  | None, S _ =>
      Some (nf_queue s, mkNotifier [] (nf_bytes s) (nf_late s) (Some (read_size (length (nf_queue s)))))
  | _, _ => None
  end.

(** [read(fd, buf, count)] *)
Definition handler_read s : option (notifier A) :=
  match nf_reading s with
  | Some n => Some (mkNotifier (nf_queue s) (nf_bytes s - n) (nf_late s) None)
  | None => None
  end.

(** A step, with the items it hands over; [may_put] are the lists that are put. *)
Inductive notify_step (may_put : list A → Prop) : notifier A → list A → notifier A → Prop :=
  | step_put xs s : may_put xs → notify_step may_put s [] (put_items xs s)
  | step_notify s s' : notify_byte s = Some s' → notify_step may_put s [] s'
  | step_take s xs s' : handler_take s = Some (xs, s') → notify_step may_put s xs s'
  | step_read s s' : handler_read s = Some s' → notify_step may_put s [] s'.

Inductive notify_reaches (may_put : list A → Prop) : list A → notifier A → Prop :=
  | reaches_start : notify_reaches may_put [] (mkNotifier [] 0 0 None)
  | reaches_more done_ s xs s' :
      notify_reaches may_put done_ s → notify_step may_put s xs s' → notify_reaches may_put (done_ ++ xs) s'.

(** Sockets come one at a time, messages in lists. *)
Definition one_item (xs : list A) : Prop := length xs = 1%nat.
Definition some_items (xs : list A) : Prop := xs ≠ [].

(** With one item per byte, every waiting item has a byte that is written or will be, and
    the handler's read leaves these bytes alone. *)
Definition wakeful s : Prop := (length (nf_queue s) + default 0 (nf_reading s) ≤ nf_bytes s + nf_late s)%nat.

Lemma read_size_bound n b : (n ≤ b → 0 < b → read_size n ≤ b)%nat.
Proof. unfold read_size. intros. destruct (Nat.ltb_spec 256 n); [lia|]. destruct (Nat.eqb_spec n 0); lia. Qed.

Lemma notify_step_wakeful s xs s' : notify_step one_item s xs s' → wakeful s → wakeful s'.
Proof.
  unfold wakeful. intros Hs Hw. destruct Hs as [xs s Hx|s s' Hs|s xs s' Hs|s s' Hs].
  - unfold one_item in Hx. cbn. rewrite length_app. lia.
  - unfold notify_byte in Hs. destruct (nf_late s); [done|]. injection Hs as <-. cbn. lia.
  - unfold handler_take in Hs. destruct (nf_reading s) as [n|] eqn:Er; [done|].
    destruct (nf_bytes s) as [|b] eqn:Eb; [done|]. injection Hs as <- <-. cbn in *.
    apply read_size_bound; lia.
  - unfold handler_read in Hs. destruct (nf_reading s) as [n|] eqn:Er; [|done]. injection Hs as <-. cbn in *. lia.
Qed.

Lemma notify_reaches_wakeful done_ s : notify_reaches one_item done_ s → wakeful s.
Proof. induction 1 as [|done_ s xs s' _ IH Hs]; [unfold wakeful; cbn; lia|]. by eapply notify_step_wakeful. Qed.

(** When no one is late, the next run of the handler takes what waits. *)
Lemma handler_ready s :
  wakeful s → nf_queue s ≠ [] → nf_late s = O →
  match nf_reading s with
  | None => ∃ s', handler_take s = Some (nf_queue s, s')
  | Some _ => ∃ s1 s2, handler_read s = Some s1 ∧ handler_take s1 = Some (nf_queue s, s2)
  end.
Proof.
  unfold wakeful, handler_take, handler_read. intros Hw Hq Hl. rewrite Hl in Hw.
  assert (0 < length (nf_queue s))%nat by (destruct (nf_queue s); [done|cbn; lia]).
  destruct (nf_reading s) as [n|]; cbn in Hw.
  - destruct (nf_bytes s - n)%nat as [|b] eqn:E; [lia|]. eexists _, _. split; [reflexivity|]. cbn. reflexivity.
  - destruct (nf_bytes s) as [|b] eqn:Eb; [lia|]. by eexists.
Qed.
End notifier.

(** ** Properties *)

(** C13: no wake-up of an I/O thread for a new connection is lost.  When sockets are put one
    at a time, each with a byte of its own after it, as dispatchConnection does, then
    however the threads that put sockets and write their bytes interleave with the
    handler that takes sockets and reads bytes: if a socket waits and no one is about to
    write, the socket pair is readable as soon as the handler is not running, and the
    next run of the handler takes every waiting socket.  So none stays behind because
    its byte was read too early. *)
Theorem no_lost_wakeup {A : Type} (done_ : list A) s
    (Hr : notify_reaches one_item done_ s) (Hq : nf_queue s ≠ []) (Hl : nf_late s = O) :
  ∃ mid s', match nf_reading s with None => mid = s | Some _ => notify_step one_item s [] mid end ∧
    nf_reading mid = None ∧ (0 < nf_bytes mid)%nat ∧ notify_step one_item mid (nf_queue s) s' ∧ nf_queue s' = [].
Proof.
  pose proof (handler_ready s (notify_reaches_wakeful _ _ Hr) Hq Hl) as H. destruct (nf_reading s) as [n|] eqn:Er.
  - destruct H as (s1 & s2 & Hread & Htake). exists s1, s2. split; [by apply step_read|].
    pose proof Htake as Ht. unfold handler_take in Ht. destruct (nf_reading s1) eqn:E1; [done|].
    destruct (nf_bytes s1) eqn:E2; [done|]. injection Ht as Eq <-. split; [done|]. split; [lia|]. split; [|done].
    by apply step_take.
  - destruct H as (s' & Htake). exists s, s'. split; [done|].
    pose proof Htake as Ht. unfold handler_take in Ht. rewrite Er in Ht.
    destruct (nf_bytes s) eqn:E2; [done|]. injection Ht as <-. split; [done|]. split; [lia|]. split; [|done].
    by apply step_take.
Qed.

(** A second item arrives while the handler works on the first. *)
Lemma no_lost_wakeup_witness :
  ∃ mid s', notify_step one_item (mkNotifier [2] 2 0 (Some 1%nat)) [] mid ∧ notify_step one_item mid [2] s' ∧ nf_queue s' = [].
Proof.
  destruct (no_lost_wakeup [1] (mkNotifier [2] 2 0 (Some 1%nat))) as (mid & s' & H1 & _ & _ & H2 & H3).
  - apply (reaches_more _ [1] (mkNotifier [2] 1 1 (Some 1%nat)) []); [|by apply step_notify].
    apply (reaches_more _ [1] (mkNotifier [] 1 0 (Some 1%nat)) []); [|by apply (step_put _ [2])].
    apply (reaches_more _ [] (mkNotifier [1] 1 0 None) [1]); [|by apply step_take].
    apply (reaches_more _ [] (mkNotifier [1] 0 1 None) []); [|by apply step_notify].
    apply (reaches_more _ [] (mkNotifier [] 0 0 None) []); [|by apply (step_put _ [1])].
    apply reaches_start.
  - discriminate.
  - reflexivity.
  - exists mid, s'. split; [exact H1|]. split; [exact H2|exact H3].
Defined.

(** C19: a wake-up for pushed messages can be lost.  dispatchPushList puts a whole list with
    one byte, and the handler reads as many bytes as it took messages.  So when a list of
    two or more is taken and another list is put and announced before the handler reads,
    the handler reads the byte of the second list too: its messages wait, no byte is left
    or about to be written, and the handler is not called for them; only a later push to
    the same thread brings them along. *)
Theorem pushed_list_loses_wakeup {A : Type} (xs ys : list A)
    (Hx : (2 ≤ length xs)%nat) (Hy : ys ≠ []) :
  ∃ s, notify_reaches some_items xs s ∧ nf_queue s = ys ∧ nf_bytes s = O ∧ nf_late s = O ∧ nf_reading s = None ∧
    handler_take s = None ∧
    ∀ zs, zs ≠ [] → ∃ s1 s2, notify_byte (put_items zs s) = Some s1 ∧ handler_take s1 = Some (ys ++ zs, s2).
Proof.
  assert (2 ≤ read_size (length xs))%nat as Hn.
  { unfold read_size. destruct (Nat.ltb_spec 256 (length xs)); [lia|]. destruct (Nat.eqb_spec (length xs) 0); lia. }
  exists (mkNotifier ys 0 0 None). split; [|split_and!; try done; intros zs _; by eexists _, _].
  rewrite <-(app_nil_r xs). apply (reaches_more _ _ (mkNotifier ys 2 0 (Some (read_size (length xs))))).
  2: { apply step_read. unfold handler_read. cbn. by replace (2 - read_size (length xs))%nat with 0%nat by lia. }
  rewrite <-(app_nil_r xs) at 1. apply (reaches_more _ _ (mkNotifier ys 1 1 (Some (read_size (length xs))))); [|by apply step_notify].
  rewrite <-(app_nil_r xs) at 1. apply (reaches_more _ _ (mkNotifier [] 1 0 (Some (read_size (length xs))))); [|by apply (step_put _ ys)].
  apply (reaches_more _ [] (mkNotifier xs 1 0 None) xs); [|by apply step_take].
  apply (reaches_more _ [] (mkNotifier xs 0 1 None) []); [|by apply step_notify].
  apply (reaches_more _ [] (mkNotifier [] 0 0 None) []); [apply reaches_start|]. apply (step_put _ xs). by destruct xs; cbn in Hx; [lia|].
Qed.

Lemma pushed_list_loses_wakeup_witness :
  ∃ s, notify_reaches some_items [1; 2] s ∧ nf_queue s = [3] ∧ nf_bytes s = O ∧ handler_take s = None.
Proof.
  destruct (pushed_list_loses_wakeup [1; 2] [3]) as (s & H1 & H2 & H3 & _ & _ & H4 & _).
  - cbn. lia.
  - discriminate.
  - exists s. split; [exact H1|]. split; [exact H2|]. split; [exact H3|exact H4].
Defined.
