(* ===== verification/IoAccept.v ===== *)
(** io::IoAccept and io::IoAppAcceptService (framework/io/io_accept.cpp,
    io_app_accept_service.cpp): from the listening socket to the I/O threads.

    What [accept] and [fcntl] answer is an argument.  The socket options that are set
    without looking at the result have no effect here. *)
From S2P Require Import Prelude Heap MsMessage MsQueues LibQueues IoAppConnection ConnCache IoApp StringAlgos Ini IoAppCluster.

(** ** The accepting thread *)
Definition EVENT_MAX : nat := 8.

(** [_service[EVENT_MAX]] and [_service_size]. *)
Definition IoAccept_addService {A} (service : list A) (s : option A) : Z * list A :=
  match s with
  | Some s => if (EVENT_MAX <=? length service)%nat then (-1, service) else (0, service ++ [s])
  | None => (-1, service)
  end.

(** A new descriptor, with whether it can be made non-blocking; [EINTR]; another error. *)
Inductive accept_answer := Accept_fd (fd : Z) (nonblocking : bool) | Accept_eintr | Accept_error.

#[export] Instance accept_answer_eq : EqDecision accept_answer. Proof. solve_decision. Defined.

(** The result, the descriptors closed, and the answers left.  It waits when there is no
    answer yet. *)
Fixpoint _accept (answers : list accept_answer) : outcome (option Z * list Z * list accept_answer) :=
  match answers with
  | [] => Wait
  | Accept_eintr :: rest => _accept rest
  | Accept_error :: rest => Ret (None, [], rest)
  | Accept_fd fd true :: rest => Ret (Some fd, [], rest)
  | Accept_fd fd false :: rest => Ret (None, [fd], rest)
  end.

(** ** The service of the I/O threads *)
Record IoAppAcceptService (T : Type) := mkAccept { as_id : Z; as_cluster : IoAppCluster T }.
Arguments mkAccept {T}.
Arguments as_id {T}.
Arguments as_cluster {T}.

Section accept.
Context {T : Type} {HT : IoThread T}.
Implicit Types (s : IoAppAcceptService T).

Definition IoAppAcceptService_run s (fd : Z) : outcome (IoAppAcceptService T * list Z) :=
  let id := u64 (as_id s + 1) in
  let* (_, k, closed) := dispatchConnection (as_cluster s) fd id in
  Ret (mkAccept id k, closed).

(** The service, the descriptors closed, and the answers left. *)
Definition _callback (answers : list accept_answer) s : outcome (IoAppAcceptService T * list Z * list accept_answer) :=
  let* (new_fd, closed, rest) := _accept answers in
  match new_fd with
  | Some fd => let* (s, closed') := IoAppAcceptService_run s fd in Ret (s, closed ++ closed', rest)
  | None => Ret (s, closed, rest)
  end.

(** The event loop calls back as often as there is something to accept. *)
Fixpoint accept_loop (n : nat) (answers : list accept_answer) s : outcome (IoAppAcceptService T * list Z * list accept_answer) :=
  match n with
  | O => Ret (s, [], answers)
  | S n =>
      let* (s, closed, answers) := _callback answers s in
      let* (s, closed', answers) := accept_loop n answers s in
      Ret (s, closed ++ closed', answers)
  end.
End accept.

(** ** Lemmas *)
(** The descriptors a list of answers brings. *)
Definition accepted_fds (answers : list accept_answer) : list Z :=
  omap (λ a, match a with Accept_fd fd _ => Some fd | _ => None end) answers.

Lemma _accept_spec answers :
  match _accept answers with
  | Ret (fd, closed, rest) =>
      ∃ used, answers = used ++ rest ∧ accepted_fds used = closed ++ option_list fd ∧ used ≠ []
  | Wait => Forall (λ a, a = Accept_eintr) answers
  | _ => False
  end.
Proof.
  induction answers as [|[fd [|]| |] answers IH]; cbn [_accept].
  - constructor.
  - by exists [Accept_fd fd true].
  - by exists [Accept_fd fd false].
  - destruct (_accept answers) as [[[fd closed] rest]| | | |]; [|by constructor|done..].
    destruct IH as (used & -> & Hu & _). by exists (Accept_eintr :: used).
  - by exists [Accept_error].
Qed.

(** How often [accept] will return something else than [EINTR]. *)
Definition events (answers : list accept_answer) : nat := length (filter (λ a, a ≠ Accept_eintr) answers).

Lemma _accept_returns answers :
  (0 < events answers)%nat → ∃ fd closed rest, _accept answers = Ret (fd, closed, rest) ∧ events answers = S (events rest).
Proof.
  unfold events. induction answers as [|a answers IH]; cbn [_accept]; [cbn; lia|]. rewrite filter_cons.
  destruct a as [fd [|]| |]; [rewrite decide_True by done..|rewrite decide_False by tauto|rewrite decide_True by done]; cbn; eauto.
Qed.

Section accept_lemmas.
Context {T : Type} {HT : IoThread T}.
Implicit Types (s : IoAppAcceptService T).

(** One accepted socket: queued with the next id, or closed. *)
Lemma run_spec s qs lss fd :
  cluster_rep (as_cluster s) qs lss → Forall (λ c, 0 ≤ c) (loads (as_cluster s)) → 0 ≤ as_id s < 2 ^ 64 - 1 →
  ∃ k' qs' new closed, IoAppAcceptService_run s fd = Ret (mkAccept (as_id s + 1) k', closed) ∧
    cluster_rep k' qs' lss ∧ loads k' = loads (as_cluster s) ∧
    mjoin qs' ≡ₚ new ++ mjoin qs ∧
    (new = [(fd, as_id s + 1)] ∧ closed = [] ∨ new = [] ∧ closed = [fd]).
Proof.
  intros Hr Hpos Hid. unfold IoAppAcceptService_run.
  assert (u64 (as_id s + 1) = as_id s + 1) as Hu by (unfold u64; rewrite Z.mod_small; lia). rewrite Hu.
  pose proof (dispatchConnection_spec (as_cluster s) qs lss fd (as_id s + 1) Hr Hpos) as H.
  destruct (_ <? _).
  - destruct H as (to & xs & k' & _ & Hxs & -> & Hr' & Hl & _). cbn [obind]. rewrite Hu in Hr'.
    eexists k', _, [(fd, as_id s + 1)], []. split; [done|]. split; [exact Hr'|]. split; [done|].
    split; [by apply mjoin_extend|]. by left.
  - rewrite H. cbn [obind]. exists (as_cluster s), qs, [], [fd]. split_and!; try done. by right.
Qed.

(** What [n] callbacks do: the new sockets are numbered in a row. *)
Lemma accept_loop_spec n answers s qs lss s' closed rest :
  cluster_rep (as_cluster s) qs lss → Forall (λ c, 0 ≤ c) (loads (as_cluster s)) →
  0 ≤ as_id s → as_id s + Z.of_nat n < 2 ^ 64 →
  accept_loop n answers s = Ret (s', closed, rest) →
  ∃ used qs' new, answers = used ++ rest ∧ cluster_rep (as_cluster s') qs' lss ∧
    mjoin qs' ≡ₚ new ++ mjoin qs ∧ accepted_fds used ≡ₚ new.*1 ++ closed ∧
    as_id s ≤ as_id s' ≤ as_id s + Z.of_nat n ∧ NoDup new.*2 ∧ Forall (λ x, as_id s < x.2 ≤ as_id s') new.
Proof.
  revert answers s qs closed. induction n as [|n IH]; intros answers s qs closed Hr Hpos Hid Hn; cbn [accept_loop].
  { intros [= <- <- <-]. exists [], qs, []. split_and!; try done; try lia; constructor. }
  intros H. apply obind_Ret_inv in H as ([[s1 closed1] answers1] & Hcb & H).
  apply obind_Ret_inv in H as ([[s2 closed2] answers2] & Hloop & [= <- <- <-]).
  unfold _callback in Hcb. apply obind_Ret_inv in Hcb as ([[fd closed0] rest0] & Hacc & Hcb).
  pose proof (_accept_spec answers) as Ha. rewrite Hacc in Ha. destruct Ha as (used & -> & Hu & _).
  assert (∃ qs1 new1, cluster_rep (as_cluster s1) qs1 lss ∧ loads (as_cluster s1) = loads (as_cluster s) ∧
    mjoin qs1 ≡ₚ new1 ++ mjoin qs ∧ accepted_fds used ≡ₚ new1.*1 ++ closed1 ∧ rest0 = answers1 ∧
    as_id s ≤ as_id s1 ≤ as_id s + 1 ∧ NoDup new1.*2 ∧ Forall (λ x, as_id s < x.2 ≤ as_id s1) new1)
    as (qs1 & new1 & Hr1 & Hl1 & Hq1 & Hu1 & <- & Hid1 & Hnd1 & Hin1).
  { destruct fd as [fd|].
    - destruct (run_spec s qs lss fd Hr Hpos ltac:(lia)) as (k' & qs1 & new & closed' & Hrun & Hr1 & Hl1 & Hq1 & Hor).
      rewrite Hrun in Hcb. injection Hcb as <- <- <-. exists qs1, new. rewrite Hu.
      destruct Hor as [[-> ->]|[-> ->]]; cbn; (split_and!; try done; try lia; try constructor).
      + cbn in *. rewrite app_nil_r. by rewrite Permutation_app_comm.
      + set_solver.
      + constructor.
      + cbn. lia.
      + constructor.
    - injection Hcb as <- <- <-. exists qs, []. rewrite Hu. cbn. rewrite app_nil_r.
      split_and!; try done; try lia; constructor. }
  destruct (IH rest0 s1 qs1 closed2 Hr1) as (used2 & qs2 & new2 & -> & Hr2 & Hq2 & Hu2 & Hid2 & Hnd2 & Hin2);
    [by rewrite Hl1|lia|lia|done|].
  exists (used ++ used2), qs2, (new1 ++ new2). split; [by rewrite app_assoc|]. split; [done|].
  split; [rewrite Hq2, Hq1, !app_assoc; by rewrite (Permutation_app_comm new2)|]. split.
  { unfold accepted_fds in *. rewrite omap_app, Hu1, Hu2, fmap_app. solve_Permutation. }
  split; [lia|]. split.
  - rewrite fmap_app. apply NoDup_app. split; [done|]. split; [|done].
    intros x (y & -> & Hy)%list_elem_of_fmap (z & Ez & Hz)%list_elem_of_fmap.
    rewrite Forall_forall in Hin1, Hin2. specialize (Hin1 _ Hy). specialize (Hin2 _ Hz). lia.
  - apply Forall_app. split; (eapply Forall_impl; [eassumption|]); cbn; intros; lia.
Qed.

Lemma accept_loop_returns n answers s qs lss :
  cluster_rep (as_cluster s) qs lss → Forall (λ c, 0 ≤ c) (loads (as_cluster s)) →
  0 ≤ as_id s → as_id s + Z.of_nat n < 2 ^ 64 → (n ≤ events answers)%nat →
  ∃ s' closed rest, accept_loop n answers s = Ret (s', closed, rest).
Proof.
  revert answers s qs. induction n as [|n IH]; intros answers s qs Hr Hpos Hid Hn He; cbn [accept_loop]; [eauto|].
  destruct (_accept_returns answers) as (fd & closed & rest & Ha & Hrest); [lia|]. unfold _callback. rewrite Ha. cbn [obind].
  assert (∀ s1 closed1 qs1, cluster_rep (as_cluster s1) qs1 lss → loads (as_cluster s1) = loads (as_cluster s) →
    as_id s ≤ as_id s1 ≤ as_id s + 1 → ∃ s' closed' rest', (let* (s2, closed2, answers2) := accept_loop n rest s1 in
      Ret (s2, closed1 ++ closed2, answers2)) = Ret (s', closed', rest')) as Hgo.
  { intros s1 closed1 qs1 Hr1 Hl1 Hid1. destruct (IH rest s1 qs1) as (s' & c' & r' & ->); [done|by rewrite Hl1|lia..|cbn [obind]; eauto]. }
  destruct fd as [fd|]; [|apply (Hgo s closed qs); [done|done|lia]].
  destruct (run_spec s qs lss fd Hr Hpos ltac:(lia)) as (k' & qs1 & new & closed' & Hrun & Hr1 & Hl1 & _).
  rewrite Hrun. cbn [obind]. apply (Hgo (mkAccept (as_id s + 1) k') _ qs1); cbn; [done|done|lia].
Qed.
End accept_lemmas.

(** ** Properties *)

(** what the accepting thread makes of [n] connections.  Interruptions are retried
    and errors skipped; every descriptor accepted is either closed or waits, once, in the
    queue of one I/O thread, behind what waited there, under a new number; the
    numbers given are all different and above those of before. *)
Theorem accepted_sockets_numbered {T} `{HT : IoThread T} n answers (s : IoAppAcceptService T) qs lss
    (Hr : cluster_rep (as_cluster s) qs lss) (Hpos : Forall (λ c, 0 ≤ c) (loads (as_cluster s)))
    (Hid : 0 ≤ as_id s) (Hmax : as_id s + Z.of_nat n < 2 ^ 64) (Hn : (n ≤ events answers)%nat) :
  ∃ s' closed rest used qs' new, accept_loop n answers s = Ret (s', closed, rest) ∧ answers = used ++ rest ∧
    cluster_rep (as_cluster s') qs' lss ∧ mjoin qs' ≡ₚ new ++ mjoin qs ∧ accepted_fds used ≡ₚ new.*1 ++ closed ∧
    NoDup new.*2 ∧ Forall (λ x, as_id s < x.2 ≤ as_id s') new.
Proof.
  destruct (accept_loop_returns n answers s qs lss Hr Hpos Hid Hmax Hn) as (s' & closed & rest & Hrun).
  destruct (accept_loop_spec n answers s qs lss s' closed rest Hr Hpos Hid Hmax Hrun)
    as (used & qs' & new & H1 & H2 & H3 & H4 & _ & H5 & H6).
  by exists s', closed, rest, used, qs', new.
Qed.

Lemma accepted_sockets_numbered_witness :
  let HT := wit_thread in
  ∃ s' closed rest, accept_loop 2 [Accept_eintr; Accept_fd 5 true; Accept_fd 6 false] (mkAccept 0 wit_cluster) =
    Ret (s', closed, rest).
Proof.
  intros HT.
  destruct (accepted_sockets_numbered 2 [Accept_eintr; Accept_fd 5 true; Accept_fd 6 false] (mkAccept 0 wit_cluster)
    [[]; []] [[]; []]) as (s' & closed & rest & used & qs' & new & H & _).
  - exact wit_cluster_rep.
  - repeat constructor; cbn; lia.
  - cbn. lia.
  - cbn. lia.
  - vm_compute. lia.
  - exists s', closed, rest. exact H.
Defined.
