(* ===== verification/MsRouter.v ===== *)
(** The three threads that sort queued messages before handing them on:
    ms::MsMessageRouterLocal (by I/O thread), ms::MsMessageRouterRemote (by
    destination) and ms::MsMessageCollector (by user); framework/ms/
    ms_message_router_local.cpp, ms_message_router_remote.cpp,
    ms_message_collector.cpp.

    Each body is an endless loop; one turn takes the whole queue, unlinks its
    messages one by one into per-key queues [InternalMessageQueue], and hands
    over every non-empty one.  A turn is one function here.  boost::unordered_map
    is a finite map whose iteration order is a parameter [order]. *)
From S2P Require Import Prelude Heap MsMessage MsQueues LibQueues IoAppConnection IoApp IoAppCluster.

Record InternalMessageQueue := mkSlot { iq_head : ptr; iq_tail : ptr; iq_count : Z }.
Definition slot_zero : InternalMessageQueue := mkSlot None None 0.

(** ** The local router *)
Definition IMIO_MAX_SIZE : Z := 1024.

(** The sorting loop, over the array [sort]. *)
Fixpoint sort_by_io (fuel : nat) (h : mheap) (sort : list InternalMessageQueue) (io_count : Z)
    (list : ptr) : outcome (mheap * Datatypes.list InternalMessageQueue) :=
  match list with
  | None => Ret (h, sort)
  | Some _ =>
      match fuel with
      | O => Diverge
      | S fuel =>
          let* m := load h list in
          let* h := store_next h list None in
          let io := u32 (msg_io m) in
          let* _ := assert_ (io <? io_count) in
          let* slot := thread_at sort io in
          let* (h, hd) := link_tail h (iq_head slot) (iq_tail slot) list in
          let sort := <[Z.to_nat io := mkSlot hd list (iq_count slot + 1)]> sort in
          sort_by_io fuel h sort io_count (msg_next m)
      end
  end.

Section local.
Context {T : Type} {HT : IoThread T}.
Implicit Types (k : IoAppCluster T).

(** The loop that hands the sorted lists to the threads, from index [i]. *)
Fixpoint dispatch_sorted (sort : list InternalMessageQueue) (i : Z) k : outcome (IoAppCluster T) :=
  match sort with
  | [] => Ret k
  | slot :: sort =>
      let* k := if 0 <? iq_count slot then dispatchPushList k i (iq_head slot) else Ret k in
      dispatch_sorted sort (i + 1) k
  end.

Definition cl_set_msgs (h : mheap) k : IoAppCluster T :=
  mkCluster (cl_settings k) (cl_sock_queue k) h (cl_msg_queue k) (cl_core_io k).

(** One turn of [run]. *)
Definition MsMessageRouterLocal_turn k (q : MsMessageBlockQueue)
    : outcome (IoAppCluster T * MsMessageBlockQueue) :=
  let io_count := st_cluster_size (cl_settings k) in
  let sort := replicate (Z.to_nat io_count) slot_zero in
  let* (list, q) := MsMessageBlockQueue_get q in
  let* (h, sort) := sort_by_io (S (size (cl_msgs k))) (cl_msgs k) sort io_count list in
  let* k := dispatch_sorted sort 0 (cl_set_msgs h k) in
  Ret (k, q).

(** [run] up to its [n]-th turn; [io_count] is unsigned. *)
Fixpoint local_turns (n : nat) k (q : MsMessageBlockQueue)
    : outcome (IoAppCluster T * MsMessageBlockQueue) :=
  match n with
  | O => Ret (k, q)
  | S n => let* (k, q) := MsMessageRouterLocal_turn k q in local_turns n k q
  end.

Definition MsMessageRouterLocal_run (n : nat) k (q : MsMessageBlockQueue)
    : outcome (IoAppCluster T * MsMessageBlockQueue) :=
  let* _ := assert_ (u32 (st_cluster_size (cl_settings k)) <? IMIO_MAX_SIZE) in
  local_turns n k q.
End local.

Definition MsMessageRouterLocal_route (h : mheap) (q : MsMessageBlockQueue) (msg : ptr) :=
  MsMessageBlockQueue_putList h q msg.

(** ** Sorting by a key *)
(** The loop of the remote router and of the collector. *)
Fixpoint sort_by_key (key : IMessage → Z) (fuel : nat) (h : mheap)
    (map : gmap Z InternalMessageQueue) (list : ptr) : outcome (mheap * gmap Z InternalMessageQueue) :=
  match list with
  | None => Ret (h, map)
  | Some _ =>
      match fuel with
      | O => Diverge
      | S fuel =>
          let* m := load h list in
          let* h := store_next h list None in
          match map !! key m with
          | Some target =>
              let* h := store_next h (iq_tail target) list in
              sort_by_key key fuel h
                (<[key m := mkSlot (iq_head target) list (iq_count target + 1)]> map) (msg_next m)
          | None =>
              sort_by_key key fuel h (<[key m := mkSlot list list 1]> map) (msg_next m)
          end
      end
  end.

(** ms::MsMessageCollectorCore *)
Class MsMessageCollectorCore (C : Type) := { core_collect : mheap → C → ptr → outcome (mheap * C) }.

Section collecting.
Context {C : Type} {HC : MsMessageCollectorCore C}.
Context (order : gmap Z InternalMessageQueue → list (Z * InternalMessageQueue)).

Fixpoint collect_heads (h : mheap) (c : C) (heads : list ptr) : outcome (mheap * C) :=
  match heads with
  | [] => Ret (h, c)
  | p :: heads => let* (h, c) := core_collect h c p in collect_heads h c heads
  end.

(** One turn of [MsMessageCollector::Impl::run]; [core] is null when no collector
    was set. *)
Definition MsMessageCollector_turn (h : mheap) (q : MsMessageBlockQueue) (core : option C)
    : outcome (mheap * MsMessageBlockQueue * option C) :=
  match core with
  | None => Abort
  | Some c =>
      let* (list, q) := MsMessageBlockQueue_get q in
      let* (h, map) := sort_by_key msg_uid (S (size h)) h ∅ list in
      let* (h, c) := collect_heads h c ((λ kv, iq_head (snd kv)) <$> order map) in
      Ret (h, q, Some c)
  end.
End collecting.

Definition MsMessageCollector_collect (h : mheap) (q : MsMessageBlockQueue) (msg : ptr) :=
  MsMessageBlockQueue_put h q msg.
Definition MsMessageCollector_collectList (h : mheap) (q : MsMessageBlockQueue) (msg : ptr) :=
  MsMessageBlockQueue_putList h q msg.

(** The remote router's consumer: [IoBackendCluster::dispatchPushList] appends to
    the only message queue of the backend thread. *)
Definition backend_dispatchPushList (h : mheap) (q : MsMessageQueue) (msg : ptr) :=
  MsMessageQueue_put h q msg.
#[export] Instance backend_core : MsMessageCollectorCore MsMessageQueue :=
  {| core_collect := backend_dispatchPushList |}.

(** One turn of [MsMessageRouterRemote::Impl::run]: the key is the connection, an
    [int64_t] made from the [uint64_t]. *)
Definition MsMessageRouterRemote_turn
    (order : gmap Z InternalMessageQueue → list (Z * InternalMessageQueue))
    (h : mheap) (q : MsMessageBlockQueue) (backend : MsMessageQueue)
    : outcome (mheap * MsMessageBlockQueue * MsMessageQueue) :=
  let* (list, q) := MsMessageBlockQueue_get q in
  let* (h, map) := sort_by_key (λ m, i64 (msg_conn m)) (S (size h)) h ∅ list in
  let* (h, backend) := collect_heads h backend ((λ kv, iq_head (snd kv)) <$> order map) in
  Ret (h, q, backend).

(** ** Specification *)
(** The key of a message in a store. *)
Definition keyof (key : IMessage → Z) (h : mheap) (l : loc) : Z :=
  match h !! l with Some m => key m | None => 0 end.

(** The messages of a list with a given key, in order. *)
Definition with_key (key : IMessage → Z) (h : mheap) (x : Z) (ls : list loc) : list loc :=
  filter (λ l, keyof key h l = x) ls.

Definition slot_rep (h : mheap) (s : InternalMessageQueue) (ls : list loc) : Prop :=
  is_queue h (iq_head s) (iq_tail s) ls ∧ iq_count s = Z.of_nat (length ls).

(** ** Lemmas *)
Lemma slot_rep_frame h h' s ls :
  (∀ l, l ∈ ls → h' !! l = h !! l) → slot_rep h s ls → slot_rep h' s ls.
Proof. intros Hf [Hq Hn]. split; [|done]. by eapply is_queue_frame. Qed.

Section sorting.
Context (key : IMessage → Z) (Hkey : ∀ p m, key (set_next p m) = key m).
Context (h0 : mheap).

Lemma keyof_links h l m : h0 ≃ h → h !! l = Some m → keyof key h0 l = key m.
Proof.
  intros Hl E. symmetry in Hl. destruct (links_only_Some _ _ _ _ Hl E) as (m0 & E0 & Hu).
  unfold keyof. rewrite E0. unfold unlink in Hu. cbn in Hu.
  rewrite <-(Hkey None m), <-(Hkey None m0). by rewrite Hu.
Qed.

Lemma with_key_snoc x ls l :
  with_key key h0 x (ls ++ [l]) = with_key key h0 x ls ++ (if decide (keyof key h0 l = x) then [l] else []).
Proof. unfold with_key. rewrite filter_app. by rewrite filter_cons, filter_nil. Qed.

Lemma with_key_sub x ls l : l ∈ with_key key h0 x ls → l ∈ ls ∧ keyof key h0 l = x.
Proof. unfold with_key. rewrite list_elem_of_filter. tauto. Qed.

(** Moving the first message of the rest behind its queue: what the body of both
    sorting loops does. *)
Lemma sort_step h s done l rest m :
  h0 ≃ h → lseg h (Some l) (l :: rest) None → NoDup (done ++ l :: rest) →
  h !! l = Some m → slot_rep h s (with_key key h0 (key m) done) →
  ∃ h1 h2 hd,
    store_next h (Some l) None = Ret h1 ∧
    link_tail h1 (iq_head s) (iq_tail s) (Some l) = Ret (h2, hd) ∧
    slot_rep h2 (mkSlot hd (Some l) (iq_count s + 1)) (with_key key h0 (key m) (done ++ [l])) ∧
    h0 ≃ h2 ∧ lseg h2 (msg_next m) rest None ∧
    (∀ x s', x ≠ key m → slot_rep h s' (with_key key h0 x done) →
       slot_rep h2 s' (with_key key h0 x (done ++ [l]))) ∧
    (∀ k, k ∉ done ++ l :: rest → h2 !! k = h !! k).
Proof.
  intros Hl0 Hs Hnd E [Hq Hn].
  assert ((l ∉ done) ∧ (l ∉ rest) ∧ done ## rest) as (Hld & Hlr & Hdr).
  { apply NoDup_app in Hnd as (_ & Hd & Hc). apply NoDup_cons in Hc as [Hc _]. set_solver. }
  assert (∀ x, l ∉ with_key key h0 x done) as Hnot by (intros x Hin; by apply with_key_sub in Hin as [? _]).
  destruct Hs as (_ & m' & E' & Hs). assert (m' = m) as -> by congruence. cbn in Hs.
  set (h1 := <[l := set_next None m]> h).
  assert (relinks h h1 [l]) as Hr1 by (refine (relinks_set h l m None _ E _); set_solver).
  destruct (put_one_spec h1 (iq_head s) (iq_tail s) (with_key key h0 (key m) done) l (set_next None m))
    as (h2 & hd & Ht & Hq2 & Hr2).
  { eapply is_queue_frame; [|exact Hq]. intros k Hk. apply Hr1. set_solver. }
  { apply lookup_insert_eq. } { done. } { apply Hnot. }
  assert (∀ k, k ≠ l → k ∉ with_key key h0 (key m) done → h2 !! k = h !! k) as Hfr.
  { intros k H1 H2. destruct Hr2 as [_ ->]; [|done]. apply Hr1. set_solver. }
  exists h1, h2, hd. split; [exact (store_next_Some h l m None E)|]. split; [done|].
  split; [|split; [|split; [|split]]].
  - rewrite with_key_snoc, decide_True by (by apply keyof_links with h). split; [exact Hq2|].
    cbn. rewrite length_app. cbn. lia.
  - etrans; [exact Hl0|]. etrans; [apply Hr1|apply Hr2].
  - eapply lseg_frame; [|exact Hs]. intros k Hk. apply Hfr; [set_solver|].
    intros [? _]%with_key_sub. set_solver.
  - intros x s' Hx Hs'. rewrite with_key_snoc, decide_False by (rewrite (keyof_links h l m) by done; auto).
    rewrite app_nil_r. eapply slot_rep_frame; [|exact Hs']. intros k Hk. apply Hfr.
    + intros ->. by apply (Hnot x).
    + intros [_ Hk1]%with_key_sub. apply with_key_sub in Hk as [_ Hk2]. congruence.
  - intros k Hk. apply Hfr; [set_solver|]. intros [? _]%with_key_sub. set_solver.
Qed.
End sorting.

Abbreviation io_key := (λ m, u32 (msg_io m)).

Lemma u32_range z : 0 ≤ u32 z < 2 ^ 32.
Proof. apply Z.mod_pos_bound. lia. Qed.

Lemma sort_by_io_spec h0 n fuel h sort done rest p :
  h0 ≃ h → lseg h p rest None → NoDup (done ++ rest) → length sort = n → (length rest ≤ fuel)%nat →
  (∀ i s, sort !! i = Some s → slot_rep h s (with_key io_key h0 (Z.of_nat i) done)) →
  if decide (Forall (λ l, keyof io_key h0 l < Z.of_nat n) rest) then
    ∃ h' sort', sort_by_io fuel h sort (Z.of_nat n) p = Ret (h', sort') ∧ h0 ≃ h' ∧
      length sort' = n ∧ (∀ k, k ∉ done ++ rest → h' !! k = h !! k) ∧
      ∀ i s, sort' !! i = Some s → slot_rep h' s (with_key io_key h0 (Z.of_nat i) (done ++ rest))
  else sort_by_io fuel h sort (Z.of_nat n) p = Abort.
Proof.
  revert h sort done rest p. induction fuel as [|fuel IH]; intros h sort done rest p Hl0 Hs Hnd Hlen Hf Hinv.
  { destruct rest; [|simpl in Hf; lia]. simpl in Hs. subst p. rewrite decide_True by constructor.
    exists h, sort. rewrite app_nil_r. done. }
  destruct rest as [|l rest].
  { simpl in Hs. subst p. rewrite decide_True by constructor. exists h, sort. rewrite app_nil_r. done. }
  pose proof Hs as (-> & m & E & _). cbn [sort_by_io]. rewrite (load_Some _ _ _ E). cbn [obind].
  pose proof (keyof_links io_key (λ _ _, eq_refl) h0 h l m Hl0 E) as Hk. cbv beta in Hk.
  assert (store_next h (Some l) None = Ret (<[l := set_next None m]> h)) as Est
    by exact (store_next_Some h l m None E).
  rewrite Est. cbn [obind]. pose proof (u32_range (msg_io m)) as Hu.
  destruct (Z.ltb_spec (u32 (msg_io m)) (Z.of_nat n)) as [Hlt|Hge]; cbn [assert_ obind].
  2:{ rewrite decide_False; [done|]. intros [Hc _]%Forall_cons. lia. }
  destruct (lookup_lt_is_Some_2 sort (Z.to_nat (u32 (msg_io m)))) as [s Es]; [lia|].
  pose proof (thread_at_Some _ _ _ Es) as Ht. rewrite Z2Nat.id in Ht by lia. rewrite Ht. cbn [obind].
  pose proof (Hinv _ _ Es) as Hsl. rewrite Z2Nat.id in Hsl by lia.
  destruct (sort_step io_key (λ _ _, eq_refl) h0 h s done l rest m Hl0 Hs Hnd E Hsl)
    as (h1 & h2 & hd & E1 & Hlk & Hsl2 & Hl2 & Hs2 & Hoth & Hfr).
  rewrite Est in E1. injection E1 as <-. rewrite Hlk. cbn [obind].
  replace (done ++ l :: rest) with ((done ++ [l]) ++ rest) in * by (by rewrite <-app_assoc).
  specialize (IH h2 (<[Z.to_nat (u32 (msg_io m)) := mkSlot hd (Some l) (iq_count s + 1)]> sort)
    (done ++ [l]) rest (msg_next m) Hl2 Hs2 Hnd).
  rewrite length_insert in IH. simpl in Hf. specialize (IH Hlen ltac:(lia)).
  match type of IH with ?P → _ => assert P as HP end.
  { intros i s' [(<- & <- & _)|[Hne Hi]]%list_lookup_insert_Some.
    - by rewrite Z2Nat.id by lia.
    - apply Hoth; [lia|]. by apply Hinv. }
  specialize (IH HP). clear HP.
  destruct (decide (Forall (λ l, keyof io_key h0 l < Z.of_nat n) rest)) as [Hall|Hno].
  - rewrite decide_True by (constructor; [lia|done]).
    destruct IH as (h' & sort' & -> & Hl' & Hlen' & Hfr' & Hinv').
    exists h', sort'. split; [done|]. split; [done|]. split; [done|]. split; [|done].
    intros k Hk'. rewrite Hfr', Hfr by done. done.
  - rewrite decide_False; [done|]. by intros [_ ?]%Forall_cons.
Qed.

Section local_lemmas.
Context {T : Type} {HT : IoThread T}.
Implicit Types (k : IoAppCluster T).

(** Handing the sorted lists [gs] to the threads from index [i] on. *)
Lemma dispatch_sorted_spec sort gs i k qs lss :
  Forall2 (slot_rep (cl_msgs k)) sort gs → (i + length gs = length lss)%nat →
  cluster_rep k qs lss → NoDup (mjoin gs) → (∀ l, l ∈ mjoin gs → l ∉ mjoin lss) →
  ∃ k' lss', dispatch_sorted sort (Z.of_nat i) k = Ret k' ∧ cluster_rep k' qs lss' ∧
    cl_msgs k ≃ cl_msgs k' ∧ same_outside (mjoin lss ++ mjoin gs) (cl_msgs k) (cl_msgs k') ∧ same_threads k k' ∧
    length lss' = length lss ∧
    (∀ j ls, (j < i)%nat → lss !! j = Some ls → lss' !! j = Some ls) ∧
    (∀ j g ls, gs !! j = Some g → lss !! (i + j)%nat = Some ls → lss' !! (i + j)%nat = Some (ls ++ g)).
Proof.
  intros HF. revert gs i k qs lss HF. induction sort as [|s sort IH]; intros gs i k qs lss HF Hlen Hr Hnd Hdis.
  { apply Forall2_nil_inv_l in HF as ->. exists k, lss. done. }
  apply Forall2_cons_inv_l in HF as (g & gs' & [Hq Hn] & HF & ->). cbn [dispatch_sorted].
  cbn [mjoin list_join] in *. apply NoDup_app in Hnd as (Hng & Hgd & Hnd).
  destruct (lookup_lt_is_Some_2 lss i) as [ls Els]; [simpl in Hlen; lia|].
  assert (∃ k1 lss1, (if 0 <? iq_count s then dispatchPushList k (Z.of_nat i) (iq_head s) else Ret k) = Ret k1 ∧
    cluster_rep k1 qs lss1 ∧ relinks (cl_msgs k) (cl_msgs k1) ls ∧ same_threads k k1 ∧
    lss1 = <[i := ls ++ g]> lss) as (k1 & lss1 & -> & Hr1 & Hrel & [Ht1 Ht2] & ->).
  { rewrite Hn. destruct g as [|v vs].
    - exists k, lss. split; [done|]. split; [done|]. split; [apply relinks_refl|]. split; [done|].
      by rewrite app_nil_r, list_insert_id.
    - destruct (Z.ltb_spec 0 (Z.of_nat (length (v :: vs)))); [|simpl in *; lia].
      destruct Hq as [Hq _]. pose proof Hq as [Eh _]. rewrite Eh in *.
      destruct (dispatchPushList_spec k qs lss i ls v vs Hr Els Hq) as (k1 & -> & Hr1 & Hrel & _ & Ht1).
      { intros l Hl. apply Hdis. set_solver. }
      eauto 10. }
  cbn [obind]. replace (Z.of_nat i + 1) with (Z.of_nat (S i)) by lia.
  assert (∀ l, l ∈ mjoin gs' → l ∉ mjoin (<[i := ls ++ g]> lss)) as Hdis1.
  { intros l Hl. rewrite (mjoin_extend lss i ls g Els), elem_of_app. intros [Hg|Hls].
    - by apply (Hgd l).
    - apply (Hdis l); [set_solver|done]. }
  destruct (IH gs' (S i) k1 qs (<[i := ls ++ g]> lss)) as (k' & lss' & -> & Hr' & Hlk & Hso & [Ht3 Ht4] & Hst' & Hlo & Hhi);
    [|rewrite length_insert; simpl in Hlen; lia|done|done|exact Hdis1|].
  { apply Forall2_same_length_lookup. split; [by eapply Forall2_length|]. intros j s' g' H1 H2.
    eapply slot_rep_frame; [|exact (Forall2_lookup_lr _ _ _ _ _ _ HF H1 H2)].
    intros l Hl. apply Hrel. intros Hc. eapply (Hdis l); [|by eapply mjoin_in].
    apply elem_of_app. right. by eapply mjoin_in. }
  exists k', lss'. split; [done|]. split; [done|]. split; [etrans; [apply Hrel|done]|]. split.
  { change (mjoin (g :: gs')) with (g ++ mjoin gs').
    eapply same_outside_trans; (eapply same_outside_weaken; [|by apply relinks_outside || exact Hso]).
    - intros l Hl. apply elem_of_app. left. by eapply mjoin_in.
    - intros l. rewrite !elem_of_app, (mjoin_extend lss i ls g Els), elem_of_app. tauto. }
  split; [by split; [congruence|]; intros Hid; rewrite Ht4, Ht2|].
  split; [by rewrite Hst', length_insert|]. split.
  - intros j lj Hj E. apply Hlo; [lia|]. rewrite list_lookup_insert_ne by lia. done.
  - intros [|j] g' lj Hg E.
    + injection Hg as <-. rewrite Nat.add_0_r in *. assert (lj = ls) as -> by congruence.
      apply Hlo; [lia|]. apply list_lookup_insert_eq. by apply lookup_lt_Some in Els.
    + replace (i + S j)%nat with (S i + j)%nat in * by lia. apply Hhi; [done|].
      by rewrite list_lookup_insert_ne by lia.
Qed.
End local_lemmas.

Section key_lemmas.
Context (key : IMessage → Z).
Context (h0 : mheap).

Definition sorted_map (h : mheap) (map : gmap Z InternalMessageQueue) (ls : list loc) : Prop :=
  ∀ x, match map !! x with
       | Some s => slot_rep h s (with_key key h0 x ls) ∧ with_key key h0 x ls ≠ []
       | None => with_key key h0 x ls = []
       end.

Lemma sort_by_key_spec (Hkey : ∀ p m, key (set_next p m) = key m) fuel h map done rest p :
  h0 ≃ h → lseg h p rest None → NoDup (done ++ rest) → (length rest ≤ fuel)%nat →
  sorted_map h map done →
  ∃ h' map', sort_by_key key fuel h map p = Ret (h', map') ∧ h0 ≃ h' ∧
    (∀ k, k ∉ done ++ rest → h' !! k = h !! k) ∧ sorted_map h' map' (done ++ rest).
Proof.
  revert h map done rest p. induction fuel as [|fuel IH]; intros h map done rest p Hl0 Hs Hnd Hf Hinv.
  { destruct rest; [|simpl in Hf; lia]. simpl in Hs. subst p. exists h, map. rewrite app_nil_r. done. }
  destruct rest as [|l rest].
  { simpl in Hs. subst p. exists h, map. rewrite app_nil_r. done. }
  pose proof Hs as (-> & m & E & _). cbn [sort_by_key]. rewrite (load_Some _ _ _ E). cbn [obind].
  assert (store_next h (Some l) None = Ret (<[l := set_next None m]> h)) as Est
    by exact (store_next_Some h l m None E).
  rewrite Est. cbn [obind].
  set (s := default slot_zero (map !! key m)).
  assert (slot_rep h s (with_key key h0 (key m) done)) as Hsl.
  { subst s. specialize (Hinv (key m)). destruct (map !! key m); [apply Hinv|]. by rewrite Hinv. }
  destruct (sort_step key Hkey h0 h s done l rest m Hl0 Hs Hnd E Hsl)
    as (h1 & h2 & hd & E1 & Hlk & Hsl2 & Hl2 & Hs2 & Hoth & Hfr).
  rewrite Est in E1. injection E1 as <-.
  assert (sort_by_key key (S fuel) h map (Some l) =
    sort_by_key key fuel h2 (<[key m := mkSlot hd (Some l) (iq_count s + 1)]> map) (msg_next m)) as Hbody.
  { cbn [sort_by_key]. rewrite (load_Some _ _ _ E). cbn [obind]. rewrite Est. cbn [obind].
    specialize (Hinv (key m)). clear -Hinv Hlk. subst s. revert Hinv Hlk.
    destruct (map !! key m) as [t|]; cbn [default from_option id]; intros Hinv Hlk.
    - destruct Hinv as [[[_ Ht] _] Hne]. destruct (last_is_Some (with_key key h0 (key m) done)) as [_ Hx].
      destruct (Hx Hne) as [y Hy]. rewrite Ht, Hy in Hlk |- *. cbn [link_tail] in Hlk.
      apply obind_Ret_inv in Hlk as (h3 & -> & [= <- <-]). done.
    - cbn in Hlk. injection Hlk as <- <-. done. }
  cbn [sort_by_key] in Hbody. rewrite (load_Some _ _ _ E) in Hbody. cbn [obind] in Hbody.
  rewrite Est in Hbody. cbn [obind] in Hbody. rewrite Hbody. clear Hbody.
  replace (done ++ l :: rest) with ((done ++ [l]) ++ rest) in * by (by rewrite <-app_assoc).
  destruct (IH h2 (<[key m := mkSlot hd (Some l) (iq_count s + 1)]> map) (done ++ [l]) rest (msg_next m))
    as (h' & map' & -> & Hl' & Hfr' & Hinv'); [done|done|done|simpl in Hf; lia| |].
  - pose proof (keyof_links key Hkey h0 h l m Hl0 E) as Hk. intros x.
    destruct (decide (key m = x)) as [<-|Hne].
    + rewrite lookup_insert_eq. split; [done|].
      rewrite (with_key_snoc key h0), decide_True by done. by destruct (with_key _ _ _ done).
    + rewrite lookup_insert_ne by done. specialize (Hinv x). destruct (map !! x) as [t|].
      * destruct Hinv as [Hx Hn]. split; [by apply Hoth; [congruence|]|].
        rewrite (with_key_snoc key h0), decide_False by congruence. by rewrite app_nil_r.
      * rewrite (with_key_snoc key h0), decide_False by congruence. by rewrite app_nil_r.
  - exists h', map'. split; [done|]. split; [done|]. split; [|done].
    intros k Hk'. rewrite Hfr', Hfr by done. done.
Qed.

(** The groups of a list by key. *)
Definition groups (xs : list Z) (ls : list loc) : list (list loc) :=
  (λ x, with_key key h0 x ls) <$> xs.

Lemma groups_in xs ls l : l ∈ mjoin (groups xs ls) ↔ l ∈ ls ∧ keyof key h0 l ∈ xs.
Proof.
  unfold groups. rewrite list_elem_of_join. setoid_rewrite list_elem_of_fmap. split.
  - intros (g & Hl & x & -> & Hx). apply with_key_sub in Hl as [H1 <-]. done.
  - intros [H1 H2]. eexists. split; [|by exists (keyof key h0 l)].
    unfold with_key. by rewrite list_elem_of_filter.
Qed.

Lemma groups_NoDup xs ls : NoDup xs → NoDup ls → NoDup (mjoin (groups xs ls)).
Proof.
  intros Hx Hl. induction Hx as [|x xs Hnx Hx IH]; [constructor|]. cbn.
  apply NoDup_app. split; [by apply NoDup_filter|]. split; [|exact IH].
  intros l [_ <-]%with_key_sub [_ Hc]%groups_in. done.
Qed.

Lemma with_key_app x a b : with_key key h0 x (a ++ b) = with_key key h0 x a ++ with_key key h0 x b.
Proof. apply filter_app. Qed.

Lemma with_key_twice x y ls :
  with_key key h0 x (with_key key h0 y ls) = if decide (x = y) then with_key key h0 y ls else [].
Proof.
  unfold with_key. induction ls as [|l ls IH]; [by case_decide|].
  destruct (decide (keyof key h0 l = y)) as [Hy|Hy].
  - rewrite !(filter_cons_True _ l ls) by done. destruct (decide (x = y)) as [->|Hne].
    + rewrite filter_cons_True by done. by rewrite IH.
    + rewrite filter_cons_False by congruence. exact IH.
  - rewrite !(filter_cons_False _ l ls) by done. exact IH.
Qed.

Lemma groups_with_key xs ls x :
  NoDup xs → (∀ l, l ∈ ls → keyof key h0 l ∈ xs) →
  with_key key h0 x (mjoin (groups xs ls)) = with_key key h0 x ls.
Proof.
  intros Hx Hall.
  assert (∀ ys, NoDup ys → with_key key h0 x (mjoin (groups ys ls)) =
    if decide (x ∈ ys) then with_key key h0 x ls else []) as H.
  { induction 1 as [|y ys Hny Hy IH]; [done|].
    change (mjoin (groups (y :: ys) ls)) with (with_key key h0 y ls ++ mjoin (groups ys ls)).
    rewrite with_key_app, IH, with_key_twice. destruct (decide (x = y)) as [->|Hne].
    - rewrite decide_False by done. rewrite decide_True by set_solver. by rewrite app_nil_r.
    - cbn [app]. destruct (decide (x ∈ ys)); [rewrite decide_True by set_solver|rewrite decide_False by set_solver]; done. }
  rewrite H by done. destruct (decide _) as [|Hno]; [done|].
  destruct (with_key key h0 x ls) as [|l g] eqn:E; [done|]. destruct Hno.
  assert (l ∈ with_key key h0 x ls) as [Hl <-]%with_key_sub by (rewrite E; set_solver). by apply Hall.
Qed.

(** The keys of the sorted map, in any order, give all the groups. *)
Lemma sorted_map_groups h map ls kvs :
  sorted_map h map ls → kvs ≡ₚ map_to_list map → NoDup ls →
  let xs := kvs.*1 in
  NoDup xs ∧ (∀ l, l ∈ ls → keyof key h0 l ∈ xs) ∧
  Forall2 (λ hd g, lseg h hd g None) ((λ kv, iq_head (snd kv)) <$> kvs) (groups xs ls) ∧
  Forall (λ g, g ≠ []) (groups xs ls).
Proof.
  intros Hm Hp Hnd xs.
  assert (∀ x s, (x, s) ∈ kvs ↔ map !! x = Some s) as Hin.
  { intros x s. rewrite Hp. apply elem_of_map_to_list. }
  split; [|split; [|split]].
  - subst xs. rewrite Hp. apply NoDup_fst_map_to_list.
  - intros l Hl. specialize (Hm (keyof key h0 l)). destruct (map !! keyof key h0 l) as [s|] eqn:E.
    + apply Hin in E. apply list_elem_of_fmap. by exists (keyof key h0 l, s).
    + assert (l ∈ with_key key h0 (keyof key h0 l) ls) as Hc
        by (unfold with_key; by rewrite list_elem_of_filter).
      rewrite Hm in Hc. set_solver.
  - unfold groups, xs. rewrite <-list_fmap_compose. apply Forall2_fmap_2. apply Forall_Forall2_diag.
    apply Forall_forall. intros [x s] Hx. apply Hin in Hx. specialize (Hm x). rewrite Hx in Hm. apply Hm.
  - unfold groups, xs. rewrite <-list_fmap_compose. apply Forall_fmap, Forall_forall.
    intros [x s] Hx. apply Hin in Hx. specialize (Hm x). rewrite Hx in Hm. apply Hm.
Qed.

Lemma groups_permutation xs ls :
  NoDup xs → NoDup ls → (∀ l, l ∈ ls → keyof key h0 l ∈ xs) → mjoin (groups xs ls) ≡ₚ ls.
Proof.
  intros Hx Hl Hall. apply NoDup_Permutation; [by apply groups_NoDup|done|].
  intros l. rewrite groups_in. naive_solver.
Qed.
End key_lemmas.

(** Appending chains to the backend's queue, one after another. *)
Lemma backend_collect_spec h q qs heads gs :
  mq_rep h q qs → Forall2 (λ hd g, lseg h hd g None) heads gs → Forall (λ g, g ≠ []) gs →
  NoDup (qs ++ mjoin gs) →
  ∃ h' q', collect_heads h q heads = Ret (h', q') ∧ mq_rep h' q' (qs ++ mjoin gs) ∧ h ≃ h'.
Proof.
  intros Hq HF. revert h q qs Hq HF. induction heads as [|hd heads IH] in gs |- *; intros h q qs Hq HF Hne Hnd.
  { apply Forall2_nil_inv_l in HF as ->. exists h, q. cbn. by rewrite app_nil_r. }
  apply Forall2_cons_inv_l in HF as (g & gs' & Hg & HF & ->). apply Forall_cons in Hne as [Hg0 Hne].
  destruct g as [|v vs]; [done|]. pose proof Hg as [-> _]. cbn [collect_heads core_collect backend_core].
  change (mjoin ((v :: vs) :: gs')) with ((v :: vs) ++ mjoin gs') in *. rewrite app_assoc in *.
  apply NoDup_app in Hnd as (Hnd & Hd2 & Hnd2). pose proof Hnd as (_ & Hd1 & _)%NoDup_app.
  destruct (mq_put_spec h q qs v vs Hq Hg) as (h1 & q1 & Hp & Hq1 & Hrel).
  { intros l H1 H2. by apply (Hd1 l). }
  unfold backend_dispatchPushList. rewrite Hp. cbn [obind].
  destruct (IH gs' h1 q1 (qs ++ v :: vs)) as (h' & q' & -> & Hq' & Hl); [done| |done|by apply NoDup_app|].
  { apply Forall2_same_length_lookup. split; [by eapply Forall2_length|]. intros j p g H1 H2.
    refine (relinks_lseg _ _ _ _ _ _ Hrel _ (Forall2_lookup_lr _ _ _ _ _ _ HF H1 H2)).
    intros l Hl1 Hl2. apply (Hd2 l); [set_solver|]. by eapply mjoin_in. }
  exists h', q'. split; [done|]. split; [done|]. etrans; [apply Hrel|done].
Qed.

(** ** What a collector's core may do *)
(** [core_owns c ks]: the core still refers to messages of [ks] only.  A call that returns
    has touched its chain and these, and refers to them only afterwards. *)
Class CollectorCoreLaws (C : Type) `{MsMessageCollectorCore C} := {
  core_owns : C → list loc → Prop;
  core_frame : ∀ h c ks hd g h' c', core_owns c ks → ks ## g → g ≠ [] → lseg h hd g None →
    core_collect h c hd = Ret (h', c') →
    ∃ ks', core_owns c' ks' ∧ ks' ⊆ ks ++ g ∧ ∀ l, l ∉ ks ++ g → h' !! l = h !! l }.

(** The core was called once for each of the chains [gs], in order, and with nothing else;
    [r] is how that ended. *)
Inductive core_calls {C} `{MsMessageCollectorCore C} : mheap → C → list (list loc) → outcome (mheap * C) → Prop :=
  | calls_done h c : core_calls h c [] (Ret (h, c))
  | calls_stop h c hd g gs : lseg h hd g None → (∀ x, core_collect h c hd ≠ Ret x) →
      core_calls h c (g :: gs) (core_collect h c hd)
  | calls_next h c hd g gs h1 c1 r : lseg h hd g None → core_collect h c hd = Ret (h1, c1) →
      core_calls h1 c1 gs r → core_calls h c (g :: gs) r.

Lemma collect_heads_calls {C} `{CollectorCoreLaws C} h (c : C) ks heads gs :
  core_owns c ks → Forall2 (λ hd g, lseg h hd g None) heads gs → Forall (λ g, g ≠ []) gs → NoDup (mjoin gs) →
  ks ## mjoin gs → core_calls h c gs (collect_heads h c heads).
Proof.
  intros Hc HF. revert h c ks Hc HF. induction heads as [|hd heads IH] in gs |- *; intros h c ks Hc HF Hne Hnd Hd.
  { apply Forall2_nil_inv_l in HF as ->. constructor. }
  apply Forall2_cons_inv_l in HF as (g & gs' & Hg & HF & ->). apply Forall_cons in Hne as [Hg0 Hne].
  change (mjoin (g :: gs')) with (g ++ mjoin gs') in *. apply NoDup_app in Hnd as (_ & Hd2 & Hnd2).
  cbn [collect_heads]. destruct (core_collect h c hd) as [[h1 c1]| | | |] eqn:E; cbn [obind];
    try (rewrite <-E; apply (calls_stop h c hd g gs' Hg); by rewrite E).
  destruct (core_frame h c ks hd g h1 c1 Hc) as (ks1 & Hc1 & Hsub & Hfr); [set_solver|done..|].
  eapply calls_next; [exact Hg|exact E|]. apply (IH gs' h1 c1 ks1); [done| |done|done|set_solver].
  apply Forall2_same_length_lookup. split; [by eapply Forall2_length|]. intros j p g' H1 H2.
  eapply lseg_frame; [|exact (Forall2_lookup_lr _ _ _ _ _ _ HF H1 H2)].
  intros l Hl. apply Hfr. pose proof (mjoin_in _ _ _ _ H2 Hl). set_solver.
Qed.

(** Appending a chain to a queue writes the link of its tail only. *)
Lemma put_chain_frame (h : mheap) hd tl v vs c h' r :
  (∀ t, tl = Some t → t ∉ v :: vs) → lseg h (Some v) (v :: vs) None →
  (let* (h, hd) := link_tail h hd tl (Some v) in
   let* (t, n) := walk_last (S (size h)) h (Some v) c in Ret (h, (hd, t, n))) = Ret (h', r) →
  r.1.2 = last (v :: vs) ∧ ∀ l, Some l ≠ tl → h' !! l = h !! l.
Proof.
  intros Ht Hs ([h1 hd1] & H1 & H2)%obind_Ret_inv. apply obind_Ret_inv in H2 as ([t n] & H2 & [= <- <-]).
  assert (∀ l, Some l ≠ tl → h1 !! l = h !! l) as Hfr.
  { unfold link_tail in H1. destruct tl as [t0|]; [|by injection H1 as <- <-].
    apply obind_Ret_inv in H1 as (h2 & H1 & [= <- <-]). unfold store_next in H1.
    apply obind_Ret_inv in H1 as (m & Hm & H1). unfold load in Hm. cbn in Hm.
    destruct (h !! t0) as [m0|] eqn:E; [|done]. injection Hm as ->. rewrite (store_Some _ _ _ _ E) in H1. injection H1 as <-.
    intros l Hl. apply lookup_insert_ne. congruence. }
  split; [|done]. cbn. rewrite (walk_last_spec h1 _ v vs c) in H2.
  - by injection H2 as <- _.
  - eapply lseg_frame; [|exact Hs]. intros l Hl. apply Hfr. intros <-. by apply (Ht l).
  - assert (lseg h1 (Some v) (v :: vs) None) as Hs1%lseg_length.
    { eapply lseg_frame; [|exact Hs]. intros l Hl. apply Hfr. intros <-. by apply (Ht l). }
    simpl in Hs1. lia.
Qed.

(** A queue as a core refers to its tail. *)
Definition tail_in (tl : ptr) (ks : list loc) : Prop := ∀ t, tl = Some t → t ∈ ks.

Lemma backend_core_frame h q ks hd g h' q' :
  tail_in (mq_tail q) ks → ks ## g → g ≠ [] → lseg h hd g None → core_collect h q hd = Ret (h', q') →
  ∃ ks', tail_in (mq_tail q') ks' ∧ ks' ⊆ ks ++ g ∧ ∀ l, l ∉ ks ++ g → h' !! l = h !! l.
Proof.
  intros Ho Hd Hg Hs Hput. destruct g as [|v vs]; [done|]. pose proof Hs as [-> _].
  cbn [core_collect backend_core] in Hput. unfold backend_dispatchPushList, MsMessageQueue_put in Hput.
  apply obind_Ret_inv in Hput as ([h1 hd1] & H1 & Hput). apply obind_Ret_inv in Hput as ([t n] & H2 & [= <- <-]).
  destruct (put_chain_frame h (mq_head q) (mq_tail q) v vs 1 h1 (hd1, t, n)) as [Et Hfr].
  { intros t0 E0 Hin. apply (Hd t0); [by apply Ho|done]. }
  { exact Hs. }
  { rewrite H1. cbn [obind]. by rewrite H2. }
  exists (v :: vs). cbn [mq_tail] in *. cbn in Et. split; [|split; [set_solver|]].
  - intros t0 ->. apply last_Some_elem_of. by rewrite <-Et.
  - intros l Hl. apply Hfr. intros E. apply Hl. apply elem_of_app. left. by apply Ho.
Qed.

#[export] Instance backend_core_laws : CollectorCoreLaws MsMessageQueue :=
  {| core_owns q := tail_in (mq_tail q); core_frame := backend_core_frame |}.

Lemma cluster_rep_frame {T} (k : IoAppCluster T) h' qs lss :
  (∀ l, l ∈ mjoin lss → h' !! l = cl_msgs k !! l) → cluster_rep k qs lss →
  cluster_rep (cl_set_msgs h' k) qs lss.
Proof.
  intros Hf [Hrun Hs Hsl Hm Hml Hd]. split; try done. cbn.
  apply Forall2_same_length_lookup. split; [by eapply Forall2_length|]. intros j q ls H1 H2.
  eapply is_queue_frame; [|exact (Forall2_lookup_lr _ _ _ _ _ _ Hm H1 H2)].
  intros l Hl. apply Hf. by eapply mjoin_in.
Qed.

Section local_turn.
Context {T : Type} {HT : IoThread T}.

Lemma local_turn_spec (k : IoAppCluster T) q qs lss ls :
  cluster_rep k qs lss → st_cluster_size (cl_settings k) = Z.of_nat (length lss) →
  bq_rep (cl_msgs k) q ls → ls ≠ [] → (∀ l, l ∈ ls → l ∉ mjoin lss) →
  if decide (Forall (λ l, keyof io_key (cl_msgs k) l < Z.of_nat (length lss)) ls) then
    ∃ k' lss', MsMessageRouterLocal_turn k q = Ret (k', MsMessageBlockQueue_new) ∧
      cluster_rep k' qs lss' ∧ cl_msgs k ≃ cl_msgs k' ∧
      same_outside (ls ++ mjoin lss) (cl_msgs k) (cl_msgs k') ∧ same_threads k k' ∧
      length lss' = length lss ∧
      ∀ i li, lss !! i = Some li →
        lss' !! i = Some (li ++ with_key io_key (cl_msgs k) (Z.of_nat i) ls)
  else MsMessageRouterLocal_turn k q = Abort.
Proof.
  intros Hr Hsize Hq Hne Hdis.
  unfold MsMessageRouterLocal_turn. rewrite (bq_get_spec _ _ _ Hq), Hsize, Nat2Z.id.
  destruct ls as [|l0 ls0] eqn:Els; [done|]. rewrite <-Els in *. clear Hne. cbn [obind].
  assert (lseg (cl_msgs k) (Some l0) ls None) as Hs.
  { destruct Hq as [[Hs _] _]. rewrite Els in *. pose proof Hs as [<- _]. done. }
  pose proof (lseg_NoDup _ _ _ Hs) as Hnd.
  pose proof (sort_by_io_spec (cl_msgs k) (length lss) (S (size (cl_msgs k))) (cl_msgs k)
    (replicate (length lss) slot_zero) [] ls (Some l0)) as H.
  specialize (H (reflexivity _) Hs Hnd (length_replicate _ _)).
  specialize (H ltac:(pose proof (lseg_length _ _ _ Hs); lia)).
  specialize (H ltac:(by intros i s [-> _]%lookup_replicate_1)).
  destruct (decide _) as [Hall|Hno]; [|by rewrite H].
  destruct H as (h1 & sort & -> & Hl1 & Hlen & Hfr & Hsort). cbn [obind app] in *.
  set (xs := Z.of_nat <$> seq 0 (length lss)).
  destruct (dispatch_sorted_spec sort (groups io_key (cl_msgs k) xs ls) 0 (cl_set_msgs h1 k) qs lss)
    as (k' & lss' & Ed & Hr' & Hl' & Hso & [Ht1 Ht2] & Hlen' & _ & Hhi).
  - apply Forall2_same_length_lookup. unfold groups, xs. rewrite !length_fmap, length_seq.
    split; [done|]. intros i s g Es Eg. rewrite !list_lookup_fmap in Eg.
    destruct (seq 0 (length lss) !! i) as [j|] eqn:Ej; [|done]. apply lookup_seq in Ej as [-> _].
    injection Eg as <-. by apply Hsort.
  - unfold groups, xs. by rewrite !length_fmap, length_seq.
  - apply cluster_rep_frame; [|done]. intros l Hl. apply Hfr. intros Hc. by apply (Hdis l).
  - apply groups_NoDup; [|done]. apply NoDup_fmap_2; [intros ??; lia|]. apply NoDup_seq.
  - intros l [Hl _]%groups_in. by apply Hdis.
  - change (Z.of_nat 0) with 0 in Ed. rewrite Ed. cbn [obind]. exists k', lss'.
    split; [done|]. split; [done|]. split; [etrans; [exact Hl1|exact Hl']|]. split; [|split; [done|split; [done|]]].
    { eapply same_outside_trans; [intros l Hl; apply Hfr; set_solver|].
      eapply same_outside_weaken; [|exact Hso]. intros l [Hl|[Hl _]%groups_in]%elem_of_app; set_solver. }
    intros i li Hi. apply (Hhi i); [|done]. unfold groups, xs. rewrite !list_lookup_fmap.
    rewrite lookup_seq_lt by (by apply lookup_lt_Some in Hi). done.
Qed.
End local_turn.

(** ** Properties *)

(** C16: one turn of the local router takes every queued message and appends to
    the queue of each I/O thread exactly the messages addressed to it, in the order
    they were routed; no message is lost, duplicated or sent elsewhere.  A message
    addressed to a thread that does not exist aborts the process. *)
Theorem local_router_delivers {T} `{HT : IoThread T} (k : IoAppCluster T) q qs lss ls
    (Hr : cluster_rep k qs lss) (Hsize : st_cluster_size (cl_settings k) = Z.of_nat (length lss))
    (Hq : bq_rep (cl_msgs k) q ls) (Hne : ls ≠ []) (Hdis : ∀ l, l ∈ ls → l ∉ mjoin lss) :
  if decide (Forall (λ l, keyof io_key (cl_msgs k) l < Z.of_nat (length lss)) ls) then
    ∃ k' lss', MsMessageRouterLocal_turn k q = Ret (k', MsMessageBlockQueue_new) ∧
      cluster_rep k' qs lss' ∧ cl_msgs k ≃ cl_msgs k' ∧ length lss' = length lss ∧
      ∀ i li, lss !! i = Some li →
        lss' !! i = Some (li ++ with_key io_key (cl_msgs k) (Z.of_nat i) ls)
  else MsMessageRouterLocal_turn k q = Abort.
Proof.
  pose proof (local_turn_spec k q qs lss ls Hr Hsize Hq Hne Hdis) as H. destruct (decide _); [|done].
  destruct H as (k' & lss' & ? & ? & ? & _ & _ & ? & ?). by exists k', lss'.
Qed.

(** Three messages for the threads 1, 0, 1. *)
Definition wit_msg (io uid conn : Z) (next : ptr) : IMessage :=
  set_next next (set_conn conn (set_uid uid (set_io io (new_message [Some 1] 1 0 1)))).
Definition wit_msgs : mheap :=
  {[1%positive := wit_msg 1 7 70 (Some 2%positive); 2%positive := wit_msg 0 8 80 (Some 3%positive);
    3%positive := wit_msg 1 7 70 None]}.
Definition wit_router_queue : MsMessageBlockQueue :=
  {| bq_list := Some 1%positive; bq_tail := Some 3%positive; bq_list_size := 3 |}.

Lemma wit_router_rep : bq_rep wit_msgs wit_router_queue [1%positive; 2%positive; 3%positive].
Proof. split; [|done]. split; [|done]. cbn. eauto 20. Qed.

Lemma local_router_delivers_witness :
  let HT := wit_thread in
  ∃ k', MsMessageRouterLocal_turn (cl_set_msgs wit_msgs wit_cluster) wit_router_queue =
      Ret (k', MsMessageBlockQueue_new) ∧
    cluster_rep k' [[]; []] [[2%positive]; [1%positive; 3%positive]].
Proof.
  intros HT.
  pose proof (local_router_delivers (cl_set_msgs wit_msgs wit_cluster) wit_router_queue [[]; []] [[]; []]
    [1%positive; 2%positive; 3%positive]) as H.
  rewrite decide_True in H by (repeat constructor; vm_compute; reflexivity).
  destruct H as (k' & lss' & Ht & Hr & _ & Hn & Hl).
  - apply cluster_rep_frame; [|apply wit_cluster_rep]. cbn. set_solver.
  - done.
  - exact wit_router_rep.
  - done.
  - cbn. set_solver.
  - exists k'. split; [done|].
    pose proof (Hl 0%nat [] eq_refl) as H0. pose proof (Hl 1%nat [] eq_refl) as H1.
    destruct lss' as [|a [|b [|c lss']]]; try done. injection H0 as ->. injection H1 as ->. exact Hr.
Defined.

(** C26: one turn of the collector hands the queued messages to its core grouped by
    user: the core is called exactly once for every user that occurs and for no one else,
    each time with the chain of all the messages of that user in the order they were
    collected, and every message is in one of the chains; the turn ends as these calls
    do.  The core may do anything with its chain and with what it was given before.
    Without a core the thread aborts. *)
Theorem collector_groups_by_user {C} `{CollectorCoreLaws C} order h q ls (c : C) ks
    (Horder : ∀ map, order map ≡ₚ map_to_list map) (Hq : bq_rep h q ls) (Hne : ls ≠ [])
    (Hc : core_owns c ks) (Hks : ks ## ls) :
  MsMessageCollector_turn (C:=C) order h q None = Abort ∧
  ∃ h1 users r, let gs := groups msg_uid h users ls in
    MsMessageCollector_turn order h q (Some c) = (let* (h2, c2) := r in Ret (h2, MsMessageBlockQueue_new, Some c2)) ∧
    core_calls h1 c gs r ∧ h ≃ h1 ∧
    NoDup users ∧ (∀ x, x ∈ users ↔ ∃ l, l ∈ ls ∧ keyof msg_uid h l = x) ∧ mjoin gs ≡ₚ ls.
Proof.
  split; [done|]. unfold MsMessageCollector_turn. rewrite (bq_get_spec _ _ _ Hq).
  destruct ls as [|l0 ls0] eqn:Els; [done|]. rewrite <-Els in *. cbn [obind].
  assert (lseg h (Some l0) ls None) as Hs.
  { destruct Hq as [[Hs _] _]. rewrite Els in *. pose proof Hs as [<- _]. done. }
  pose proof (lseg_NoDup _ _ _ Hs) as Hnd. pose proof (lseg_length _ _ _ Hs) as Hlen.
  destruct (sort_by_key_spec msg_uid h (λ _ _, eq_refl) (S (size h)) h ∅ [] ls (Some l0))
    as (h1 & map & -> & Hl & _ & Hm); [done|done|done|lia|done|]. cbn [obind app] in *.
  destruct (sorted_map_groups _ _ _ _ _ _ Hm (Horder map) Hnd) as (Hx & Hall & HF & Hn).
  pose proof (groups_permutation msg_uid h _ ls Hx Hnd Hall) as Hperm.
  exists h1, (order map).*1, (collect_heads h1 c ((λ kv, iq_head (snd kv)) <$> order map)). cbv zeta.
  split; [done|]. split; [|split; [done|split; [done|split; [|done]]]].
  - apply (collect_heads_calls h1 c ks); [done|done|done|by apply groups_NoDup|]. intros l Hl1 Hl2. rewrite Hperm in Hl2. by apply (Hks l).
  - intros x. split; [|by intros (l & Hin & <-); apply Hall]. intros Hin.
    apply list_elem_of_lookup in Hin as [i Hi].
    assert (groups msg_uid h (order map).*1 ls !! i = Some (with_key msg_uid h x ls)) as Ei
      by (unfold groups; by rewrite list_lookup_fmap, Hi).
    pose proof (proj1 (Forall_lookup _ _) Hn _ _ Ei) as Hne2. cbn in Hne2.
    destruct (with_key msg_uid h x ls) as [|l g] eqn:Eg; [done|]. exists l.
    assert (l ∈ with_key msg_uid h x ls) as [? ?]%with_key_sub by (rewrite Eg; constructor). done.
Qed.

Lemma collector_groups_by_user_witness :
  let order := λ m : gmap Z InternalMessageQueue, map_to_list m in
  ∃ h1 users r,
    MsMessageCollector_turn order wit_msgs wit_router_queue (Some MsMessageQueue_new) =
      (let* (h2, c2) := r in Ret (h2, MsMessageBlockQueue_new, Some c2)) ∧
    core_calls h1 MsMessageQueue_new (groups msg_uid wit_msgs users [1%positive; 2%positive; 3%positive]) r.
Proof.
  intros order.
  destruct (collector_groups_by_user order wit_msgs wit_router_queue [1%positive; 2%positive; 3%positive] MsMessageQueue_new [])
    as [_ (h1 & users & r & H1 & H2 & _)].
  - intros map. reflexivity.
  - exact wit_router_rep.
  - discriminate.
  - by intros t [=].
  - set_solver.
  - exists h1, users, r. split; [exact H1|exact H2].
Defined.

(** one turn of the remote router appends to the backend thread's queue a
    permutation of the queued messages in which the messages of every destination
    are consecutive and keep their order. *)
Theorem remote_router_keeps_order order h q backend bs ls
    (Horder : ∀ map, order map ≡ₚ map_to_list map) (Hq : bq_rep h q ls) (Hne : ls ≠ [])
    (Hb : mq_rep h backend bs) (Hdis : ∀ l, l ∈ bs → l ∉ ls) :
  let conn := λ m, i64 (msg_conn m) in
  ∃ h' backend' dests, MsMessageRouterRemote_turn order h q backend =
      Ret (h', MsMessageBlockQueue_new, backend') ∧
    mq_rep h' backend' (bs ++ mjoin (groups conn h dests ls)) ∧ h ≃ h' ∧
    mjoin (groups conn h dests ls) ≡ₚ ls ∧
    ∀ x, with_key conn h x (mjoin (groups conn h dests ls)) = with_key conn h x ls.
Proof.
  intros conn. unfold MsMessageRouterRemote_turn. rewrite (bq_get_spec _ _ _ Hq).
  destruct ls as [|l0 ls0] eqn:Els; [done|]. rewrite <-Els in *. cbn [obind].
  assert (lseg h (Some l0) ls None) as Hs.
  { destruct Hq as [[Hs _] _]. rewrite Els in *. pose proof Hs as [<- _]. done. }
  pose proof (lseg_NoDup _ _ _ Hs) as Hnd. pose proof (lseg_length _ _ _ Hs) as Hlen.
  destruct (sort_by_key_spec conn h (λ _ _, eq_refl) (S (size h)) h ∅ [] ls (Some l0))
    as (h1 & map & Esort & Hl & Hfr & Hm); [done|done|done|lia|done|]. fold conn. rewrite Esort.
  cbn [obind app] in *.
  destruct (sorted_map_groups _ _ _ _ _ _ Hm (Horder map) Hnd) as (Hx & Hall & HF & Hn).
  assert (mq_rep h1 backend bs) as Hb1.
  { eapply is_queue_frame; [|exact Hb]. intros l Hlb. apply Hfr. by apply Hdis. }
  pose proof (groups_permutation conn h _ ls Hx Hnd Hall) as Hperm.
  destruct (backend_collect_spec h1 backend bs _ _ Hb1 HF Hn) as (h' & b' & -> & Hb' & Hl').
  { apply NoDup_app. split; [exact (is_queue_NoDup _ _ _ _ Hb)|].
    split; [|by apply groups_NoDup]. intros l Hlb. rewrite Hperm. by apply Hdis. }
  cbn [obind]. exists h', b', (order map).*1. split; [done|]. split; [done|].
  split; [etrans; [exact Hl|exact Hl']|]. split; [done|]. intros x. by apply groups_with_key.
Qed.

Lemma remote_router_keeps_order_witness :
  let order := λ m : gmap Z InternalMessageQueue, map_to_list m in
  ∃ h' backend' ls', MsMessageRouterRemote_turn order wit_msgs wit_router_queue MsMessageQueue_new =
      Ret (h', MsMessageBlockQueue_new, backend') ∧ mq_rep h' backend' ls' ∧
    ls' ≡ₚ [1%positive; 2%positive; 3%positive].
Proof.
  intros order.
  destruct (remote_router_keeps_order order wit_msgs wit_router_queue MsMessageQueue_new []
    [1%positive; 2%positive; 3%positive] (λ _, reflexivity _) wit_router_rep)
    as (h' & b' & dests & Ht & Hb & _ & Hp & _); [done|done|set_solver|].
  exists h', b', (mjoin (groups (λ m, i64 (msg_conn m)) wit_msgs dests [1%positive; 2%positive; 3%positive])).
  done.
Defined.
