(* ===== verification/UserRouter.v ===== *)
(** Routing by user: im::ImUserChannelRegisterTableLocal, im::ImUserMessageRouter
    and im::ImPendingMessageCollectorCore (message/im_user_channel_register_table_local.h,
    im_user_message_router.cpp, im_pending_message_collector_core.cpp).

    The table maps a user to the connection he was last seen on.  The router
    stamps a message with that connection and hands it to the local router's
    queue.  The methods of the table run under its mutex; each is one function. *)
From S2P Require Import Prelude Heap MsMessage MsQueues LibQueues IoPushList IoAppConnection IoApp IoAppCluster MsRouter.

(** ** The table *)
Record IoChannel := mkChannel { ch_uid : Z; ch_io : Z; ch_conn : Z; ch_host : Z }.
Abbreviation channel_table := (gmap Z IoChannel).

Definition ch_with_uid (uid : Z) (c : IoChannel) : IoChannel :=
  mkChannel uid (ch_io c) (ch_conn c) (ch_host c).

(** [get(key, channel)]: [channel] keeps its other fields when nothing is found. *)
Definition Table_get (t : channel_table) (key : Z) (channel : IoChannel) : IoChannel :=
  match t !! key with
  | Some c => c
  | None => ch_with_uid (-1) channel
  end.

Definition Table_set (t : channel_table) (key : Z) (channel : IoChannel) : channel_table :=
  <[key := channel]> t.

Definition Table_unset (t : channel_table) (key : Z) : channel_table := delete key t.

Definition Table_getOrUnset (t : channel_table) (key conn : Z) (channel : IoChannel)
    : IoChannel * channel_table :=
  match t !! key with
  | Some c => if ch_conn c <=? conn then (ch_with_uid (-1) channel, delete key t) else (c, t)
  | None => (ch_with_uid (-1) channel, t)
  end.

(** ** The router *)
(** The table and the queue of the local router, [_local->route]. *)
Record ImUserMessageRouter := mkRouter { ur_table : channel_table; ur_local : MsMessageBlockQueue }.

Definition ur_set_local (q : MsMessageBlockQueue) (r : ImUserMessageRouter) : ImUserMessageRouter :=
  mkRouter (ur_table r) q.

(** An automatic [io::IoChannel] that was not written yet. *)
Definition no_channel : IoChannel := mkChannel (-1) 0 0 0.

Definition local_route (h : mheap) (r : ImUserMessageRouter) (msg : ptr)
    : outcome (mheap * ImUserMessageRouter) :=
  let* (h, q) := MsMessageRouterLocal_route h (ur_local r) msg in
  Ret (h, ur_set_local q r).

Definition stamp (c : IoChannel) (m : IMessage) : IMessage := set_conn (ch_conn c) (set_io (ch_io c) m).

(** The returned pointer is the message that was not routed, or null. *)
Definition ImUserMessageRouter_route (h : mheap) (r : ImUserMessageRouter) (msg : ptr)
    : outcome (ptr * mheap * ImUserMessageRouter) :=
  let* m := load h msg in
  let channel := Table_get (ur_table r) (msg_uid m) no_channel in
  if negb (ch_uid channel =? -1) then
    let* h := modify h msg (stamp channel) in
    let* (h, r) := local_route h r msg in
    Ret (None, h, r)
  else Ret (msg, h, r).

(** [*trans = msg; trans = &(msg->_next); msg = msg->_next; *trans = 0;] where
    [trans] points to the head of a list or to the link of its last node. *)
Definition append_trans (h : mheap) (hd tl msg : ptr) : outcome (mheap * ptr * ptr * ptr) :=
  let* (h, hd) := link_tail h hd tl msg in
  let* m := load h msg in
  let* h := store_next h msg None in
  Ret (h, hd, msg, msg_next m).

(** The loop of [routeList]; [lh], [lt], [ph], [pt] are the ends of the two lists. *)
Fixpoint route_list_loop (fuel : nat) (t : channel_table) (h : mheap) (channel : IoChannel)
    (lh lt ph pt msg : ptr) : outcome (mheap * ptr * ptr) :=
  match msg with
  | None => Ret (h, lh, ph)
  | Some _ =>
      match fuel with
      | O => Diverge
      | S fuel =>
          let* m := load h msg in
          let channel := Table_get t (msg_uid m) channel in
          if negb (ch_uid channel =? -1) then
            let* h := modify h msg (stamp channel) in
            let* (h, lh, lt, next) := append_trans h lh lt msg in
            route_list_loop fuel t h channel lh lt ph pt next
          else
            let* (h, ph, pt, next) := append_trans h ph pt msg in
            route_list_loop fuel t h channel lh lt ph pt next
      end
  end.

(** Returns the list of the messages that were not routed. *)
Definition ImUserMessageRouter_routeList (h : mheap) (r : ImUserMessageRouter) (msg : ptr)
    : outcome (ptr * mheap * ImUserMessageRouter) :=
  let* (h, local_list, pending_list) :=
    route_list_loop (S (size h)) (ur_table r) h no_channel None None None None msg in
  match local_list with
  | Some _ => let* (h, r) := local_route h r local_list in Ret (pending_list, h, r)
  | None => Ret (pending_list, h, r)
  end.

Definition ImUserMessageRouter_routeBack (h : mheap) (r : ImUserMessageRouter) (msg : ptr)
    : outcome (mheap * ImUserMessageRouter) := local_route h r msg.

(** The loop of [failureRoute]; [new_conn] is an [int]. *)
Fixpoint restamp_loop (fuel : nat) (h : mheap) (new_io new_conn : Z) (item : ptr) : outcome mheap :=
  match item with
  | None => Ret h
  | Some _ =>
      match fuel with
      | O => Diverge
      | S fuel =>
          let* m := load h item in
          let* h := modify h item (λ m, set_conn (u64 new_conn) (set_io new_io m)) in
          restamp_loop fuel h new_io new_conn (msg_next m)
      end
  end.

Definition ImUserMessageRouter_failureRoute (h : mheap) (r : ImUserMessageRouter) (uid maxConn : Z)
    (msg : ptr) : outcome (Z * mheap * ImUserMessageRouter) :=
  let (channel, t) := Table_getOrUnset (ur_table r) uid maxConn no_channel in
  let r := mkRouter t (ur_local r) in
  if negb (ch_uid channel =? -1) then
    let* h := restamp_loop (S (size h)) h (ch_io channel) (i32 (ch_conn channel)) msg in
    let* (h, r) := local_route h r msg in
    Ret (-1, h, r)
  else Ret (-1, h, r).

(** [g_im_instance] is the argument [instance]. *)
Definition ImUserMessageRouter_update (instance : Z) (h : mheap) (r : ImUserMessageRouter) (msg : ptr)
    : outcome ImUserMessageRouter :=
  let* m := load h msg in
  Ret (mkRouter (Table_set (ur_table r) (msg_uid m)
         (mkChannel (msg_uid m) (msg_io m) (msg_conn m) instance)) (ur_local r)).

(** ** The pending-message collector's core *)
Fixpoint max_conn_loop (fuel : nat) (h : mheap) (max_item : Z) (item : ptr) : outcome Z :=
  match item with
  | None => Ret max_item
  | Some _ =>
      match fuel with
      | O => Diverge
      | S fuel =>
          let* m := load h item in
          max_conn_loop fuel h (if max_item <? msg_conn m then msg_conn m else max_item) (msg_next m)
      end
  end.

Fixpoint release_loop (fuel : nat) (h : mheap) (msg : ptr) : outcome mheap :=
  match msg with
  | None => Ret h
  | Some _ =>
      match fuel with
      | O => Diverge
      | S fuel =>
          let* m := load h msg in
          let* h := releaseIMessage h msg in
          release_loop fuel h (msg_next m)
      end
  end.

Definition ImPendingMessageCollectorCore_collect (h : mheap) (r : ImUserMessageRouter) (msg : ptr)
    : outcome (mheap * ImUserMessageRouter) :=
  let* m := load h msg in
  let* max_conn := max_conn_loop (S (size h)) h (msg_conn m) (msg_next m) in
  let* (ret, h, r) := ImUserMessageRouter_failureRoute h r (msg_uid m) max_conn msg in
  if ret =? -1 then
    let* h := release_loop (S (size h)) h msg in Ret (h, r)
  else Ret (h, r).

#[export] Instance pending_core : MsMessageCollectorCore ImUserMessageRouter :=
  {| core_collect := ImPendingMessageCollectorCore_collect |}.

(** ** Specification *)
(** The connection a user can be reached on. *)
Definition found (t : channel_table) (uid : Z) : option IoChannel :=
  match t !! uid with
  | Some c => if ch_uid c =? -1 then None else Some c
  | None => None
  end.

(** What routing does to a message, and which messages it takes. *)
Definition routed (t : channel_table) (m : IMessage) : IMessage :=
  match found t (msg_uid m) with Some c => stamp c m | None => m end.
Definition reachable (t : channel_table) (h : mheap) (l : loc) : bool :=
  match h !! l with Some m => bool_decide (is_Some (found t (msg_uid m))) | None => false end.

(** Messages equal up to their links. *)
Definition same_msg (o o' : option IMessage) : Prop := set_next None <$> o = set_next None <$> o'.

(** ** Lemmas *)
Lemma Table_get_found t uid ch :
  match found t uid with
  | Some c => Table_get t uid ch = c ∧ (ch_uid c =? -1) = false
  | None => (ch_uid (Table_get t uid ch) =? -1) = true
  end.
Proof.
  unfold found, Table_get. destruct (t !! uid) as [c|]; [|done].
  by destruct (ch_uid c =? -1) eqn:E.
Qed.

(** Changing a message without its link keeps the lists. *)
Lemma lseg_update (h : mheap) l m m' p ls q :
  h !! l = Some m → msg_next m' = msg_next m → lseg h p ls q → lseg (<[l := m']> h) p ls q.
Proof.
  intros E Hn. revert p. induction ls as [|k ls IH]; intros p; cbn [lseg]; [done|].
  intros (-> & n & En & Hs). split; [done|]. destruct (decide (l = k)) as [<-|Hne].
  - exists m'. rewrite lookup_insert_eq. split; [done|]. assert (n = m) as -> by congruence.
    cbn. rewrite Hn. by apply IH.
  - exists n. rewrite lookup_insert_ne by done. split; [done|]. by apply IH.
Qed.

Lemma relinks_same h h' fp l : relinks h h' fp → same_msg (h' !! l) (h !! l).
Proof. intros [Hl _]. symmetry. exact (links_only_lookup h h' l Hl). Qed.

Lemma append_trans_spec h hd tl ks l rest m :
  is_queue h hd tl ks → lseg h (Some l) (l :: rest) None → ks ## l :: rest → h !! l = Some m →
  ∃ h' hd', append_trans h hd tl (Some l) = Ret (h', hd', Some l, msg_next m) ∧
    is_queue h' hd' (Some l) (ks ++ [l]) ∧ lseg h' (msg_next m) rest None ∧ relinks h h' (l :: ks).
Proof.
  intros Hq Hs Hd E. unfold append_trans.
  destruct (link_tail_spec h hd tl ks l rest Hq Hs Hd) as (h1 & hd1 & -> & Hs1 & Hs2 & Hr). cbn [obind].
  assert (h1 !! l = Some m) as E1 by (rewrite (proj2 Hr); [done|set_solver]).
  rewrite (load_Some _ _ _ E1). cbn [obind].
  assert (store_next h1 (Some l) None = Ret (<[l := set_next None m]> h1)) as ->
    by exact (store_next_Some h1 l m None E1). cbn [obind].
  assert (l ∉ rest) as Hlr.
  { pose proof (lseg_NoDup _ _ _ Hs) as Hnd. by apply NoDup_cons in Hnd as [? _]. }
  eexists _, _. split; [done|]. split; [|split].
  - split; [|by rewrite last_snoc]. apply lseg_app in Hs1 as (r & Hk & Hl). pose proof Hl as [-> _].
    apply lseg_app. exists (Some l). split; [apply lseg_insert_ne; [set_solver|done]|].
    cbn. split; [done|]. exists (set_next None m). by rewrite lookup_insert_eq.
  - apply lseg_insert_ne; [done|]. destruct Hs2 as (_ & n & En & Hs2). by assert (n = m) as -> by congruence.
  - apply relinks_trans with h1; [eapply relinks_weaken; [|exact Hr]; set_solver|].
    refine (relinks_set h1 l m None _ E1 _). set_solver.
Qed.

Lemma routed_set_next t p m : set_next p (routed t m) = routed t (set_next p m).
Proof. unfold routed. cbn. by destruct (found t (msg_uid m)). Qed.

Section route_list.
Context (t : channel_table) (h0 : mheap).
Abbreviation locals ls := (filter (λ l, reachable t h0 l = true) ls).
Abbreviation pendings ls := (filter (λ l, reachable t h0 l = false) ls).

(** The store after the messages [done] were routed. *)
Definition routed_store (h : mheap) (seen : list loc) : Prop :=
  ∀ l, same_msg (h !! l) (if decide (l ∈ seen) then routed t <$> h0 !! l else h0 !! l).

Lemma reachable_found h seen l m :
  routed_store h seen → l ∉ seen → h !! l = Some m →
  ∃ m0, h0 !! l = Some m0 ∧ msg_uid m0 = msg_uid m ∧
    reachable t h0 l = bool_decide (is_Some (found t (msg_uid m))).
Proof.
  intros Hst Hl E. specialize (Hst l). rewrite decide_False in Hst by done.
  unfold same_msg in Hst. rewrite E in Hst. cbn in Hst. symmetry in Hst.
  apply fmap_Some in Hst as (m0 & E0 & Hm). apply (f_equal msg_uid) in Hm. cbn in Hm.
  exists m0. unfold reachable. by rewrite E0, Hm.
Qed.

Lemma routed_store_snoc h h' seen l m m' fp :
  routed_store h seen → l ∉ seen → h !! l = Some m → h0 !! l = Some m' →
  relinks (<[l := routed t m]> h) h' fp → routed_store h' (seen ++ [l]).
Proof.
  intros Hst Hl E E0 Hr k. pose proof (relinks_same _ _ _ k Hr) as H. unfold same_msg in *.
  rewrite H. destruct (decide (k = l)) as [->|Hne].
  - rewrite lookup_insert_eq, decide_True by set_solver. rewrite E0. cbn. f_equal.
    specialize (Hst l). rewrite decide_False in Hst by done. unfold same_msg in Hst.
    rewrite E, E0 in Hst. apply (inj Some) in Hst. rewrite !routed_set_next. by f_equal.
  - rewrite lookup_insert_ne by done. specialize (Hst k). unfold same_msg in Hst. rewrite Hst.
    destruct (decide (k ∈ seen)); [rewrite decide_True by set_solver|rewrite decide_False by set_solver]; done.
Qed.

(** One turn of the loop: the message goes behind the list for [b], the other list
    is not touched. *)
Lemma route_step h seen rest l m m0 b hd tl ohd otl :
  routed_store h seen → NoDup (seen ++ l :: rest) → lseg h (Some l) (l :: rest) None →
  h !! l = Some m → h0 !! l = Some m0 → reachable t h0 l = b →
  is_queue h hd tl (filter (λ k, reachable t h0 k = b) seen) →
  is_queue h ohd otl (filter (λ k, reachable t h0 k = negb b) seen) →
  ∃ h2 hd2, append_trans (<[l := routed t m]> h) hd tl (Some l) = Ret (h2, hd2, Some l, msg_next m) ∧
    is_queue h2 hd2 (Some l) (filter (λ k, reachable t h0 k = b) (seen ++ [l])) ∧
    is_queue h2 ohd otl (filter (λ k, reachable t h0 k = negb b) (seen ++ [l])) ∧
    lseg h2 (msg_next m) rest None ∧ routed_store h2 (seen ++ [l]) ∧
    (∀ k, k ∉ seen ++ l :: rest → h2 !! k = h !! k).
Proof.
  intros Hst Hnd Hs E E0 Hb Hq Hoq. pose proof Hnd as (_ & Hdd & _)%NoDup_app.
  assert (l ∉ seen) as Hld by (intros Hc; apply (Hdd l Hc); set_solver).
  assert (msg_next (routed t m) = msg_next m) as Hn by (unfold routed; by destruct (found _ _)).
  assert (∀ c k, k ∈ filter (λ k, reachable t h0 k = c) seen → reachable t h0 k = c ∧ k ≠ l) as Hin.
  { intros c k [Hc Hk]%list_elem_of_filter. split; [done|]. by intros ->. }
  destruct (append_trans_spec (<[l := routed t m]> h) hd tl (filter (λ k, reachable t h0 k = b) seen) l rest
    (routed t m)) as (h2 & hd2 & Ha & Hq2 & Hs2 & Hr2).
  { eapply is_queue_frame; [|exact Hq]. intros k [_ Hk]%Hin. by apply lookup_insert_ne. }
  { by eapply lseg_update. } { intros k [_ Hk]%list_elem_of_filter. by apply Hdd. }
  { apply lookup_insert_eq. }
  rewrite Hn in *. exists h2, hd2. split; [done|]. rewrite !filter_app, !filter_cons, !filter_nil.
  rewrite Hb, decide_True, (decide_False (P:=b = negb b)), app_nil_r by (done || by destruct b).
  assert (∀ k, k ≠ l → reachable t h0 k ≠ b ∨ k ∉ seen → h2 !! k = h !! k) as Hfr.
  { intros k Hk Hor. rewrite (proj2 Hr2); [by apply lookup_insert_ne|].
    intros [->|[? Hc]%list_elem_of_filter]%elem_of_cons; tauto. }
  split; [done|]. split; [|split; [done|split]].
  - eapply is_queue_frame; [|exact Hoq]. intros k [Hk1 Hk2]%Hin. apply Hfr; [done|].
    left. rewrite Hk1. by destruct b.
  - by eapply routed_store_snoc.
  - intros k Hk. apply Hfr; [|right]; set_solver.
Qed.

Lemma route_list_loop_spec fuel h ch lh lt ph pt msg seen rest :
  routed_store h seen → is_queue h lh lt (locals seen) → is_queue h ph pt (pendings seen) →
  lseg h msg rest None → NoDup (seen ++ rest) → (length rest ≤ fuel)%nat →
  ∃ h' lh' ph', route_list_loop fuel t h ch lh lt ph pt msg = Ret (h', lh', ph') ∧
    lseg h' lh' (locals (seen ++ rest)) None ∧ lseg h' ph' (pendings (seen ++ rest)) None ∧
    routed_store h' (seen ++ rest) ∧ (∀ k, k ∉ seen ++ rest → h' !! k = h !! k).
Proof.
  revert h ch lh lt ph pt msg seen rest.
  induction fuel as [|fuel IH]; intros h ch lh lt ph pt msg seen rest Hst Hlq Hpq Hs Hnd Hf;
    (destruct rest as [|l rest];
     [simpl in Hs; subst msg; rewrite app_nil_r; exists h, lh, ph;
      split; [done|]; split; [apply Hlq|]; split; [apply Hpq|done]|]); simpl in Hf; [lia|].
  pose proof Hs as (-> & m & E & _). cbn [route_list_loop]. rewrite (load_Some _ _ _ E). cbn [obind].
  assert (l ∉ seen) as Hld.
  { apply NoDup_app in Hnd as (_ & Hdd & _). intros Hc. apply (Hdd l Hc). set_solver. }
  destruct (reachable_found h seen l m Hst Hld E) as (m0 & E0 & Hu & Hre).
  pose proof (Table_get_found t (msg_uid m) ch) as Hg.
  destruct (found t (msg_uid m)) as [c|] eqn:Ef.
  - destruct Hg as [-> ->]. cbn [negb]. rewrite bool_decide_true in Hre by eauto.
    unfold modify. rewrite (load_Some _ _ _ E). cbn [obind]. rewrite (store_Some _ _ _ _ E). cbn [obind].
    destruct (route_step h seen rest l m m0 true lh lt ph pt) as (h2 & lh2 & Ha & Hl2 & Hp2 & Hs2 & Hst2 & Hfr);
      try done.
    unfold routed in Ha. rewrite Ef in Ha. rewrite Ha. cbn [obind].
    replace (seen ++ l :: rest) with ((seen ++ [l]) ++ rest) in * by (by rewrite <-app_assoc).
    destruct (IH h2 c lh2 (Some l) ph pt (msg_next m) (seen ++ [l]) rest)
      as (h' & lh' & ph' & -> & H1 & H2 & H3 & H4); try done; [lia|].
    exists h', lh', ph'. split_and!; try done. intros k Hk. by rewrite H4, Hfr.
  - rewrite Hg. cbn [negb]. rewrite bool_decide_false in Hre by (by intros [? [=]]).
    destruct (route_step h seen rest l m m0 false ph pt lh lt) as (h2 & ph2 & Ha & Hp2 & Hl2 & Hs2 & Hst2 & Hfr);
      try done.
    unfold routed in Ha. rewrite Ef, insert_id in Ha by done. rewrite Ha. cbn [obind].
    replace (seen ++ l :: rest) with ((seen ++ [l]) ++ rest) in * by (by rewrite <-app_assoc).
    destruct (IH h2 (Table_get t (msg_uid m) ch) lh lt ph2 (Some l) (msg_next m) (seen ++ [l]) rest)
      as (h' & lh' & ph' & -> & H1 & H2 & H3 & H4); try done; [lia|].
    exists h', lh', ph'. split_and!; try done. intros k Hk. by rewrite H4, Hfr.
Qed.
End route_list.

Lemma local_route_spec h r qs v vs :
  bq_rep h (ur_local r) qs → lseg h (Some v) (v :: vs) None → qs ## v :: vs →
  ∃ h' r', local_route h r (Some v) = Ret (h', r') ∧ ur_table r' = ur_table r ∧
    bq_rep h' (ur_local r') (qs ++ v :: vs) ∧ relinks h h' qs ∧
    lseg h' (Some v) (v :: vs) None.
Proof.
  intros Hq Hs Hd. unfold local_route, MsMessageRouterLocal_route.
  destruct (bq_putList_spec h (ur_local r) qs v vs Hq Hs Hd) as (h' & q' & -> & Hq' & Hr).
  cbn [obind]. eexists h', _. split; [done|]. split; [done|]. split; [done|]. split; [done|].
  eapply relinks_lseg; [exact Hr| |exact Hs]. set_solver.
Qed.

Lemma restamp_loop_spec fuel h io conn p ls :
  lseg h p ls None → (length ls ≤ fuel)%nat →
  ∃ h', restamp_loop fuel h io conn p = Ret h' ∧
    (∀ k, h' !! k = if decide (k ∈ ls) then (λ m, set_conn (u64 conn) (set_io io m)) <$> h !! k else h !! k) ∧
    (∀ p' ks q, lseg h p' ks q → lseg h' p' ks q).
Proof.
  revert h p ls. induction fuel as [|fuel IH]; intros h p ls Hs Hf;
    (destruct ls as [|l ls]; [simpl in Hs; subst p; by exists h|]); simpl in Hf; [lia|].
  pose proof (lseg_NoDup _ _ _ Hs) as [Hl _]%NoDup_cons.
  destruct Hs as (-> & m & E & Hs). cbn [restamp_loop]. rewrite (load_Some _ _ _ E). cbn [obind].
  unfold modify. rewrite (load_Some _ _ _ E). cbn [obind]. rewrite (store_Some _ _ _ _ E). cbn [obind].
  set (m' := set_conn (u64 conn) (set_io io m)).
  destruct (IH (<[l := m']> h) (msg_next m) ls) as (h' & -> & Hk & Hls); [by eapply lseg_update|lia|].
  exists h'. split; [done|]. split.
  - intros k. rewrite Hk. destruct (decide (k = l)) as [->|Hne].
    + rewrite decide_False, decide_True by set_solver. by rewrite lookup_insert_eq, E.
    + rewrite lookup_insert_ne by done. by destruct (decide (k ∈ ls));
        [rewrite (decide_True (P:=k ∈ l :: ls)) by set_solver|rewrite (decide_False (P:=k ∈ l :: ls)) by set_solver].
  - intros p' ks q Hp. apply Hls. by eapply lseg_update.
Qed.

Lemma max_conn_loop_spec fuel h v p ls :
  lseg h p ls None → (length ls ≤ fuel)%nat →
  ∃ w, max_conn_loop fuel h v p = Ret w ∧ v ≤ w ∧ (∀ l m, l ∈ ls → h !! l = Some m → msg_conn m ≤ w) ∧
    (w = v ∨ ∃ l m, l ∈ ls ∧ h !! l = Some m ∧ msg_conn m = w).
Proof.
  revert v p ls. induction fuel as [|fuel IH]; intros v p ls Hs Hf;
    (destruct ls as [|l ls];
      [simpl in Hs; subst p; exists v; split; [done|]; split; [lia|]; split; [set_solver|by left]|]);
    simpl in Hf; [lia|].
  destruct Hs as (-> & m & E & Hs). cbn [max_conn_loop]. rewrite (load_Some _ _ _ E). cbn [obind].
  set (v' := if v <? msg_conn m then msg_conn m else v).
  assert (v ≤ v' ∧ msg_conn m ≤ v') as [Hv1 Hv2] by (subst v'; destruct (Z.ltb_spec v (msg_conn m)); lia).
  destruct (IH v' (msg_next m) ls) as (w & -> & Hw & Hall & Hor); [done|lia|].
  exists w. split; [done|]. split; [lia|]. split.
  - intros k n [->|Hk]%elem_of_cons En; [assert (n = m) as -> by congruence; lia|eauto].
  - destruct Hor as [->|(k & n & Hk & En & Hn)].
    + subst v'. destruct (v <? msg_conn m); [|by left]. right. exists l, m. set_solver.
    + right. exists k, n. set_solver.
Qed.

Lemma release_loop_spec fuel h p ls :
  lseg h p ls None → (length ls ≤ fuel)%nat → release_loop fuel h p = Ret (delete_all ls h).
Proof.
  revert h p ls. induction fuel as [|fuel IH]; intros h p ls Hs Hf;
    (destruct ls as [|l ls]; [by simpl in Hs; subst p|]); simpl in Hf; [lia|].
  pose proof (lseg_NoDup _ _ _ Hs) as [Hl _]%NoDup_cons.
  destruct Hs as (-> & m & E & Hs). cbn [release_loop]. rewrite (load_Some _ _ _ E). cbn [obind].
  unfold releaseIMessage. rewrite (dealloc_Some _ _ _ E). cbn [obind].
  rewrite (IH _ _ ls); [|by apply lseg_delete|lia]. simpl. by rewrite delete_all_delete.
Qed.

(** The core of the pending messages touches its chain and the tail of the router's queue,
    so the collector of MsRouter.v may use it. *)
Lemma release_frame (h h' : mheap) v vs :
  lseg h (Some v) (v :: vs) None → release_loop (S (size h)) h (Some v) = Ret h' → ∀ l, l ∉ v :: vs → h' !! l = h !! l.
Proof.
  intros Hs Hr l Hl. pose proof (lseg_length _ _ _ Hs). rewrite (release_loop_spec _ _ _ _ Hs) in Hr by lia.
  injection Hr as <-. by apply (delete_all_ne (v :: vs)).
Qed.

Lemma pending_core_frame h r ks hd g h' r' :
  tail_in (bq_tail (ur_local r)) ks → ks ## g → g ≠ [] → lseg h hd g None → core_collect h r hd = Ret (h', r') →
  ∃ ks', tail_in (bq_tail (ur_local r')) ks' ∧ ks' ⊆ ks ++ g ∧ ∀ l, l ∉ ks ++ g → h' !! l = h !! l.
Proof.
  intros Ho Hd Hg Hs Hc. destruct g as [|v vs]; [done|]. pose proof Hs as [-> _].
  cbn [core_collect pending_core] in Hc. unfold ImPendingMessageCollectorCore_collect in Hc.
  apply obind_Ret_inv in Hc as (m & _ & Hc). apply obind_Ret_inv in Hc as (mx & _ & Hc).
  unfold ImUserMessageRouter_failureRoute in Hc. destruct (Table_getOrUnset _ _ _ _) as [ch t].
  destruct (negb (ch_uid ch =? -1)).
  2: { cbn [obind] in Hc. change (-1 =? -1) with true in Hc. cbn iota in Hc.
       apply obind_Ret_inv in Hc as (h1 & Hr & [= <- <-]). exists ks. split; [done|]. split; [set_solver|].
       intros l Hl. apply (release_frame _ _ _ _ Hs Hr). set_solver. }
  pose proof (lseg_length _ _ _ Hs).
  destruct (restamp_loop_spec (S (size h)) h (ch_io ch) (i32 (ch_conn ch)) _ _ Hs ltac:(lia)) as (h1 & E1 & Hk & Hls).
  rewrite E1 in Hc. cbn [obind] in Hc. specialize (Hls _ _ _ Hs).
  apply obind_Ret_inv in Hc as ([[ret h2] r2] & Hf & Hc). apply obind_Ret_inv in Hf as ([h3 r3] & Hl & [= <- <- <-]).
  unfold local_route, MsMessageRouterLocal_route, MsMessageBlockQueue_putList in Hl. cbn [ur_local] in Hl.
  apply obind_Ret_inv in Hl as ([h4 q4] & Hl & [= <- <-]).
  apply obind_Ret_inv in Hl as ([h5 hd5] & H5 & Hl). apply obind_Ret_inv in Hl as ([t6 n6] & H6 & [= <- <-]).
  destruct (put_chain_frame h1 (bq_list (ur_local r)) (bq_tail (ur_local r)) v vs 1 h5 (hd5, t6, n6)) as [Et Hfr].
  { intros t0 E0 Hin. apply (Hd t0); [by apply Ho|done]. }
  { exact Hls. }
  { rewrite H5. cbn [obind]. by rewrite H6. }
  change (-1 =? -1) with true in Hc. cbn iota in Hc. apply obind_Ret_inv in Hc as (h7 & Hr & [= <- <-]).
  exists (v :: vs). cbn [ur_set_local ur_local bq_tail] in *. cbn in Et. split; [|split; [set_solver|]].
  - intros t0 ->. apply last_Some_elem_of. by rewrite <-Et.
  - intros l Hl. assert (Some l ≠ bq_tail (ur_local r)) as Hnt by (intros E; apply Hl, elem_of_app; left; by apply Ho).
    rewrite (release_frame h5 h7 v vs); [|eapply lseg_frame; [|exact Hls]|done|set_solver].
    + rewrite Hfr by done. rewrite Hk, decide_False; [done|set_solver].
    + intros k Hin. apply Hfr. intros E. apply (Hd k); [by apply Ho|done].
Qed.

#[export] Instance pending_core_laws : CollectorCoreLaws ImUserMessageRouter :=
  {| core_owns r := tail_in (bq_tail (ur_local r)); core_frame := pending_core_frame |}.

(** A list of messages routed again: queued with the connection cut to 32 bits, yet
    reported as a failure. *)
Lemma failureRoute_spec h r uid maxConn qs v vs c :
  ur_table r !! uid = Some c → ch_uid c ≠ -1 → maxConn < ch_conn c →
  bq_rep h (ur_local r) qs → lseg h (Some v) (v :: vs) None → qs ## v :: vs →
  ∃ h' r', ImUserMessageRouter_failureRoute h r uid maxConn (Some v) = Ret (-1, h', r') ∧
    ur_table r' = ur_table r ∧ bq_rep h' (ur_local r') (qs ++ v :: vs) ∧
    lseg h' (Some v) (v :: vs) None ∧ size h' = size h ∧
    ∀ l m, l ∈ v :: vs → h !! l = Some m → ∃ m', h' !! l = Some m' ∧
      msg_io m' = ch_io c ∧ msg_conn m' = u64 (i32 (ch_conn c)).
Proof.
  intros Et Hu Hc Hq Hs Hd. unfold ImUserMessageRouter_failureRoute, Table_getOrUnset. rewrite Et.
  destruct (Z.leb_spec (ch_conn c) maxConn); [lia|].
  rewrite (proj2 (Z.eqb_neq _ _) Hu). cbn [negb].
  destruct (restamp_loop_spec (S (size h)) h (ch_io c) (i32 (ch_conn c)) (Some v) (v :: vs) Hs)
    as (h1 & -> & Hk & Hls); [pose proof (lseg_length _ _ _ Hs); lia|]. cbn [obind].
  assert (bq_rep h1 (ur_local r) qs) as Hq1.
  { eapply bq_rep_frame; [|exact Hq]. intros k Hin. rewrite Hk. rewrite decide_False by set_solver. done. }
  destruct (local_route_spec h1 (mkRouter (ur_table r) (ur_local r)) qs v vs Hq1 (Hls _ _ _ Hs) Hd)
    as (h' & r' & -> & Htab & Hq' & Hrel & Hs').
  cbn [obind]. exists h', r'. split; [done|]. split; [done|]. split; [done|]. split; [done|]. split.
  - rewrite <-(links_only_size _ _ (proj1 Hrel)). rewrite <-!size_dom. f_equal. apply set_eq. intros k.
    rewrite !elem_of_dom, Hk. destruct (decide _); [|done]. by rewrite fmap_is_Some.
  - intros l m Hl E. exists (set_conn (u64 (i32 (ch_conn c))) (set_io (ch_io c) m)).
    rewrite (proj2 Hrel) by set_solver. rewrite Hk, decide_True, E by done. done.
Qed.

(** [routeList], with what it leaves alone. *)
Lemma routeList_spec (h : mheap) r v vs qs :
  lseg h (Some v) (v :: vs) None → bq_rep h (ur_local r) qs → qs ## v :: vs →
  let t := ur_table r in
  let local := filter (λ l, reachable t h l = true) (v :: vs) in
  let pending := filter (λ l, reachable t h l = false) (v :: vs) in
  ∃ p h' r', ImUserMessageRouter_routeList h r (Some v) = Ret (p, h', r') ∧ ur_table r' = t ∧
    bq_rep h' (ur_local r') (qs ++ local) ∧ lseg h' p pending None ∧
    (∀ l, same_msg (h' !! l) (if decide (l ∈ v :: vs) then routed t <$> h !! l else h !! l)) ∧
    (∀ k, k ∉ v :: vs → k ∉ qs → h' !! k = h !! k).
Proof.
  intros Hs Hq Hd t local pending. unfold ImUserMessageRouter_routeList. fold t.
  destruct (route_list_loop_spec t h (S (size h)) h no_channel None None None None (Some v) [] (v :: vs))
    as (h1 & lh & ph & -> & Hl & Hp & Hst & Hfr); try done.
  { exact (lseg_NoDup _ _ _ Hs). } { pose proof (lseg_length _ _ _ Hs). lia. }
  cbn [obind app] in *. fold local in Hl. fold pending in Hp.
  assert (bq_rep h1 (ur_local r) qs) as Hq1.
  { eapply bq_rep_frame; [|exact Hq]. intros k Hk. apply Hfr. set_solver. }
  assert (∀ k b, k ∈ filter (λ l, reachable t h l = b) (v :: vs) → k ∈ v :: vs) as Hsub
    by (intros k b [_ ?]%list_elem_of_filter; done).
  destruct local as [|w ws] eqn:El.
  - simpl in Hl. subst lh. exists ph, h1, r. rewrite app_nil_r. split_and!; try done. intros k Hk _. by apply Hfr.
  - pose proof Hl as [-> _]. destruct (local_route_spec h1 r qs w ws Hq1 Hl) as (h' & r' & -> & Ht & Hq' & Hr & _).
    { intros k Hk1 Hk2. apply (Hd k Hk1). apply (Hsub k true). fold local. by rewrite El. }
    cbn [obind]. exists ph, h', r'. split; [done|]. split; [done|]. split; [done|]. split_and!.
    + eapply relinks_lseg; [exact Hr| |exact Hp]. intros k Hk1 Hk2. apply (Hd k Hk2). by apply (Hsub k false).
    + intros l. unfold same_msg. rewrite (relinks_same _ _ _ l Hr). apply Hst.
    + intros k Hk Hkq. rewrite (proj2 Hr) by done. by apply Hfr.
Qed.

(** ** Properties *)

(** C25: [routeList] splits a list of messages without losing or reordering any:
    those whose user is registered are stamped with his I/O thread and connection
    and appended, in order, to the queue of the local router; the others are
    returned, in order and unchanged. *)
Theorem routeList_partitions (h : mheap) r v vs qs
    (Hs : lseg h (Some v) (v :: vs) None) (Hq : bq_rep h (ur_local r) qs) (Hd : qs ## v :: vs) :
  let t := ur_table r in
  let local := filter (λ l, reachable t h l = true) (v :: vs) in
  let pending := filter (λ l, reachable t h l = false) (v :: vs) in
  ∃ p h' r', ImUserMessageRouter_routeList h r (Some v) = Ret (p, h', r') ∧ ur_table r' = t ∧
    bq_rep h' (ur_local r') (qs ++ local) ∧ lseg h' p pending None ∧
    ∀ l, same_msg (h' !! l) (if decide (l ∈ v :: vs) then routed t <$> h !! l else h !! l).
Proof.
  destruct (routeList_spec h r v vs qs Hs Hq Hd) as (p & h' & r' & H1 & H2 & H3 & H4 & H5 & _).
  exists p, h', r'. done.
Qed.

(** User 7 is on connection 70 of thread 1; user 8 is unknown. *)
Definition wit_user_router : ImUserMessageRouter :=
  mkRouter {[7 := mkChannel 7 1 70 0]} MsMessageBlockQueue_new.

Lemma wit_chain : lseg wit_msgs (Some 1%positive) [1%positive; 2%positive; 3%positive] None.
Proof. apply wit_router_rep. Qed.

Lemma routeList_partitions_witness :
  ∃ p h' r', ImUserMessageRouter_routeList wit_msgs wit_user_router (Some 1%positive) = Ret (p, h', r') ∧
    bq_rep h' (ur_local r') [1%positive; 3%positive] ∧ lseg h' p [2%positive] None.
Proof.
  destruct (routeList_partitions wit_msgs wit_user_router 1%positive [2%positive; 3%positive] [])
    as (p & h' & r' & H1 & _ & H2 & H3 & _).
  - apply wit_chain.
  - apply bq_new_rep.
  - set_solver.
  - exists p, h', r'. split; [exact H1|]. split; [exact H2|exact H3].
Defined.

(** a user is reached where he was seen last: after [update] with a message
    read from one of his connections, [route] stamps any message for him with that
    thread and connection and queues it; a message for a user who was never seen is
    handed back untouched. *)
Theorem route_reaches_last_seen h r instance l0 m0 l m qs
    (E0 : h !! l0 = Some m0) (E : h !! l = Some m) (Hn : msg_next m = None)
    (Hq : bq_rep h (ur_local r) qs) (Hl : l ∉ qs) (Huid : msg_uid m0 ≠ -1) :
  ∃ r1, ImUserMessageRouter_update instance h r (Some l0) = Ret r1 ∧
    if decide (msg_uid m = msg_uid m0) then
      ∃ h' r', ImUserMessageRouter_route h r1 (Some l) = Ret (None, h', r') ∧
        bq_rep h' (ur_local r') (qs ++ [l]) ∧
        h' !! l = Some (set_conn (msg_conn m0) (set_io (msg_io m0) m))
    else ur_table r !! msg_uid m = None → ImUserMessageRouter_route h r1 (Some l) = Ret (Some l, h, r1).
Proof.
  unfold ImUserMessageRouter_update. rewrite (load_Some _ _ _ E0). cbn [obind].
  eexists. split; [done|]. unfold ImUserMessageRouter_route. rewrite (load_Some _ _ _ E). cbn [obind].
  unfold Table_get, Table_set. cbn [ur_table]. destruct (decide _) as [->|Hne].
  - rewrite lookup_insert_eq. cbn [ch_uid]. rewrite (proj2 (Z.eqb_neq _ _) Huid). cbn [negb].
    unfold modify. rewrite (load_Some _ _ _ E). cbn [obind]. rewrite (store_Some _ _ _ _ E). cbn [obind].
    set (m' := stamp _ m). set (r1 := mkRouter _ _).
    destruct (local_route_spec (<[l := m']> h) r1 qs l []) as (h' & r' & -> & _ & Hq' & Hr & _).
    + eapply bq_rep_frame; [|exact Hq]. intros k Hk. apply lookup_insert_ne. set_solver.
    + cbn. split; [done|]. exists m'. by rewrite lookup_insert_eq.
    + set_solver.
    + cbn [obind]. exists h', r'. split; [done|]. split; [done|].
      rewrite (proj2 Hr) by done. apply lookup_insert_eq.
  - intros Hnone. rewrite lookup_insert_ne, Hnone by done. done.
Qed.

Lemma route_reaches_last_seen_witness :
  ∃ r1 h' r', ImUserMessageRouter_update 0 wit_msgs (mkRouter ∅ MsMessageBlockQueue_new) (Some 1%positive) = Ret r1 ∧
    ImUserMessageRouter_route wit_msgs r1 (Some 3%positive) = Ret (None, h', r') ∧
    bq_rep h' (ur_local r') [3%positive].
Proof.
  destruct (route_reaches_last_seen wit_msgs (mkRouter ∅ MsMessageBlockQueue_new) 0 1%positive
    (wit_msg 1 7 70 (Some 2%positive)) 3%positive (wit_msg 1 7 70 None) []) as (r1 & H1 & H2).
  - reflexivity.
  - reflexivity.
  - reflexivity.
  - apply bq_new_rep.
  - set_solver.
  - done.
  - rewrite decide_True in H2 by done. destruct H2 as (h' & r' & H2 & H3 & _). exists r1, h', r'. done.
Defined.

(** when a user has a newer connection, the pending-message collector queues
    his messages for the local router and then frees them, because [failureRoute]
    returns -1 in every case: the next turn of the local router reads a freed
    message. *)
Theorem pending_collect_frees_queued {T} `{HT : IoThread T} (h : mheap) r v vs m c (k : IoAppCluster T)
    (Hs : lseg h (Some v) (v :: vs) None) (Hq : bq_rep h (ur_local r) [])
    (Em : h !! v = Some m) (Et : ur_table r !! msg_uid m = Some c) (Hu : ch_uid c ≠ -1)
    (Hnew : ∀ l n, l ∈ v :: vs → h !! l = Some n → msg_conn n < ch_conn c) :
  ∃ h' r', ImPendingMessageCollectorCore_collect h r (Some v) = Ret (h', r') ∧
    bq_list (ur_local r') = Some v ∧ (∀ l, l ∈ v :: vs → h' !! l = None) ∧
    MsMessageRouterLocal_turn (cl_set_msgs h' k) (ur_local r') = Fault.
Proof.
  unfold ImPendingMessageCollectorCore_collect. rewrite (load_Some _ _ _ Em). cbn [obind].
  pose proof Hs as (_ & m' & E' & Hs'). assert (m' = m) as -> by congruence. cbn in Hs'.
  pose proof (lseg_length _ _ _ Hs) as Hlen.
  destruct (max_conn_loop_spec (S (size h)) h (msg_conn m) (msg_next m) vs Hs') as (w & -> & _ & _ & Hw);
    [simpl in Hlen; lia|]. cbn [obind].
  assert (w < ch_conn c) as Hwc.
  { destruct Hw as [->|(l & n & Hl & En & <-)]; eapply Hnew; try done; set_solver. }
  destruct (failureRoute_spec h r (msg_uid m) w [] v vs c Et Hu Hwc Hq Hs)
    as (h1 & r1 & -> & _ & Hq1 & Hs1 & Hsz & _); [set_solver|]. cbn [obind]. rewrite Z.eqb_refl.
  rewrite (release_loop_spec _ _ _ _ Hs1) by (rewrite Hsz; lia). cbn [obind].
  assert (∀ l, l ∈ v :: vs → delete_all (v :: vs) h1 !! l = None) as Hdel by (intros; by apply delete_all_in).
  eexists _, _. split; [done|]. pose proof (is_queue_head _ _ _ _ (proj1 Hq1)) as Hh.
  split; [exact Hh|]. split; [exact Hdel|].
  unfold MsMessageRouterLocal_turn. rewrite (bq_get_spec _ _ _ Hq1). cbn [obind app].
  cbn [sort_by_io cl_msgs cl_set_msgs]. unfold load. by rewrite (Hdel v) by set_solver.
Qed.

Lemma pending_collect_frees_queued_witness :
  let h : mheap := {[1%positive := wit_msg 0 7 70 None]} in
  let r := mkRouter {[7 := mkChannel 7 1 71 0]} MsMessageBlockQueue_new in
  let HT := wit_thread in
  ∃ h' r', ImPendingMessageCollectorCore_collect h r (Some 1%positive) = Ret (h', r') ∧
    h' !! 1%positive = None ∧
    MsMessageRouterLocal_turn (cl_set_msgs h' wit_cluster) (ur_local r') = Fault.
Proof.
  intros h r HT.
  destruct (pending_collect_frees_queued h r 1%positive [] (wit_msg 0 7 70 None) (mkChannel 7 1 71 0) wit_cluster)
    as (h' & r' & H1 & _ & H2 & H3).
  - cbn. split; [done|]. eexists. split; [reflexivity|done].
  - apply bq_new_rep.
  - reflexivity.
  - reflexivity.
  - done.
  - intros l n ->%list_elem_of_singleton E. assert (n = wit_msg 0 7 70 None) as -> by (by apply (inj Some)). reflexivity.
  - exists h', r'. split; [done|]. split; [apply H2; set_solver|done].
Defined.
