(* ===== verification/Protobuf.v ===== *)
(** The protobuf runtime as the generated code of proto/im.pb.cc uses it, and the loop
    that every MergePartialFromCodedStream has.

    The runtime (google/protobuf/wire_format_lite, io/coded_stream, unknown_field_set) is
    not part of the sources.  The class [Wire] has the operations the generated code calls
    and the laws of the documented encoding that it relies on.  A stream is the list of
    bytes before its current limit.  The unknown fields of a message are kept as pairs of a
    tag and the bytes its value is written as.  [plain_wire] is an instance. *)
From S2P Require Import Prelude Bytes.

(** ** Tags *)
Definition WIRETYPE_VARINT : Z := 0.
Definition WIRETYPE_LENGTH_DELIMITED : Z := 2.
Definition WIRETYPE_END_GROUP : Z := 4.
Definition WIRETYPE_FIXED32 : Z := 5.
Definition GetTagFieldNumber (tag : Z) : Z := Z.shiftr tag 3.
Definition GetTagWireType (tag : Z) : Z := Z.land tag 7.
Definition MakeTag (number type : Z) : Z := Z.lor (Z.shiftl number 3) type.

(** ReadTag gives 0 at the end of the stream, which is a legitimate end of a message, and
    for a tag that is 0 or malformed. *)
Inductive tag_read := TagEnd | TagBad | Tag (tag : Z) (s : list Z).

Definition is_int32 (v : Z) : bool := (- 2 ^ 31 <=? v) && (v <? 2 ^ 31).
Definition is_uint32 (v : Z) : bool := (0 <=? v) && (v <? 2 ^ 32).
(** The library refuses streams of 64 MB or more. *)
Definition STREAM_MAX : Z := 2 ^ 26.
Definition short (bs : list Z) : Prop := Z.of_nat (length bs) < STREAM_MAX.

(** ** The runtime *)
Class Wire := {
  varint : Z → list Z; (** of 64 bits *)
  fixed32 : Z → list Z;
  Int32Size : Z → Z;
  EnumSize : Z → Z;
  LengthDelimitedSize : Z → Z;
  ComputeUnknownFieldsSize : list (Z * list Z) → Z;
  ReadTag : list Z → tag_read;
  ExpectTag : Z → list Z → option (list Z);
  ExpectAtEnd : list Z → bool;
  ReadInt32 : list Z → option (Z * list Z);
  ReadEnum : list Z → option (Z * list Z);
  ReadBool : list Z → option (bool * list Z);
  ReadFloat : list Z → option (Z * list Z); (** the bits *)
  ReadBytes : list Z → option (list Z * list Z);
  ReadRepeatedInt32 : Z → list Z → option (list Z * list Z);
  ReadPackedInt32 : list Z → option (list Z * list Z);
  ReadMessage : ∀ M, (list Z → option (M * bool)) → list Z → option (M * list Z);
  SkipField : Z → list Z → option (list Z * list Z);

  tag_is_byte t : 0 < t < 128 → length (varint t) = 1%nat;
  Int32Size_spec v : is_int32 v = true → Int32Size v = Z.of_nat (length (varint (u64 v)));
  EnumSize_spec v : is_int32 v = true → EnumSize v = Z.of_nat (length (varint (u64 v)));
  LengthDelimitedSize_spec n : 0 ≤ n < STREAM_MAX → LengthDelimitedSize n = Z.of_nat (length (varint n)) + n;
  bool_size b : length (varint (Z.b2z b)) = 1%nat;
  fixed32_size v : length (fixed32 v) = 4%nat;
  ComputeUnknownFieldsSize_spec u :
    ComputeUnknownFieldsSize u = Z.of_nat (length (mjoin ((λ '(t, v), varint t ++ v) <$> u)));

  ReadTag_end : ReadTag [] = TagEnd;
  ReadTag_tag t s : 0 < t < 2 ^ 32 → ReadTag (varint t ++ s) = Tag t s;
  ReadTag_inv s t s' : ReadTag s = Tag t s' → 0 < t < 2 ^ 32 ∧ (length s' < length s)%nat;
  (** These two only look at what is buffered. *)
  ExpectTag_inv t s s' : ExpectTag t s = Some s' → ReadTag s = Tag t s';
  ExpectAtEnd_inv s : ExpectAtEnd s = true → s = [];
  ReadInt32_varint v s : is_int32 v = true → ReadInt32 (varint (u64 v) ++ s) = Some (v, s);
  ReadInt32_inv s v s' : ReadInt32 s = Some (v, s') → is_int32 v = true ∧ (length s' ≤ length s)%nat;
  ReadEnum_varint v s : is_int32 v = true → ReadEnum (varint (u64 v) ++ s) = Some (v, s);
  ReadEnum_inv s v s' : ReadEnum s = Some (v, s') → is_int32 v = true ∧ (length s' ≤ length s)%nat;
  ReadBool_varint b s : ReadBool (varint (Z.b2z b) ++ s) = Some (b, s);
  ReadBool_inv s b s' : ReadBool s = Some (b, s') → (length s' ≤ length s)%nat;
  ReadFloat_fixed v s : is_uint32 v = true → ReadFloat (fixed32 v ++ s) = Some (v, s);
  ReadFloat_inv s v s' : ReadFloat s = Some (v, s') → is_uint32 v = true ∧ (length s' ≤ length s)%nat;
  ReadBytes_delim bs s : short bs → ReadBytes (varint (Z.of_nat (length bs)) ++ bs ++ s) = Some (bs, s);
  ReadBytes_inv s bs s' : ReadBytes s = Some (bs, s') → (length s' ≤ length s)%nat;
  (** It goes on while the same tag follows, as far as that is buffered. *)
  ReadRepeatedInt32_varints t v vs s :
    0 < t < 2 ^ 32 → is_int32 v = true → Forall (λ v, is_int32 v = true) vs → (∀ s', ReadTag s ≠ Tag t s') →
    ∃ k, ReadRepeatedInt32 t (varint (u64 v) ++ mjoin ((λ v, varint t ++ varint (u64 v)) <$> vs) ++ s) =
      Some (v :: take k vs, mjoin ((λ v, varint t ++ varint (u64 v)) <$> drop k vs) ++ s);
  ReadRepeatedInt32_inv t s vs s' :
    ReadRepeatedInt32 t s = Some (vs, s') → Forall (λ v, is_int32 v = true) vs ∧ (length s' ≤ length s)%nat;
  ReadPackedInt32_inv s vs s' :
    ReadPackedInt32 s = Some (vs, s') → Forall (λ v, is_int32 v = true) vs ∧ (length s' ≤ length s)%nat;
  (** The message has to end legitimately at the end of its bytes. *)
  ReadMessage_delim M f bs s : short bs →
    ReadMessage M f (varint (Z.of_nat (length bs)) ++ bs ++ s) =
      match f bs with Some (m, true) => Some (m, s) | _ => None end;
  ReadMessage_inv M f s m s' : ReadMessage M f s = Some (m, s') →
    (length s' ≤ length s)%nat ∧ ∃ bs, f bs = Some (m, true);
  (** What is kept of an unknown field is read back as it is written. *)
  SkipField_inv t s v s' : SkipField t s = Some (v, s') →
    (length s' ≤ length s)%nat ∧ ∀ s2, SkipField t (v ++ s2) = Some (v, s2) }.
Arguments ReadMessage {_ M}.

(** ** Writing *)
Section writing.
Context {HW : Wire}.

Definition WriteInt32 (n v : Z) (out : list Z) : list Z := out ++ varint (MakeTag n WIRETYPE_VARINT) ++ varint (u64 v).
Definition WriteEnum (n v : Z) (out : list Z) : list Z := out ++ varint (MakeTag n WIRETYPE_VARINT) ++ varint (u64 v).
Definition WriteBool (n : Z) (b : bool) (out : list Z) : list Z :=
  out ++ varint (MakeTag n WIRETYPE_VARINT) ++ varint (Z.b2z b).
Definition WriteFloat (n v : Z) (out : list Z) : list Z := out ++ varint (MakeTag n WIRETYPE_FIXED32) ++ fixed32 v.
Definition WriteBytes (n : Z) (bs : list Z) (out : list Z) : list Z :=
  out ++ varint (MakeTag n WIRETYPE_LENGTH_DELIMITED) ++ varint (Z.of_nat (length bs)) ++ bs.
(** The size is the one the message has cached. *)
Definition WriteMessage (n size : Z) (serialize : list Z → list Z) (out : list Z) : list Z :=
  serialize (out ++ varint (MakeTag n WIRETYPE_LENGTH_DELIMITED) ++ varint size).
Definition SerializeUnknownFields (u : list (Z * list Z)) (out : list Z) : list Z :=
  out ++ mjoin ((λ '(t, v), varint t ++ v) <$> u).

(** [if (has_x()) ...] *)
Definition put {A} (o : option A) (write : A → list Z → list Z) (out : list Z) : list Z :=
  match o with Some a => write a out | None => out end.
Definition size_of {A} (o : option A) (size : A → Z) : Z := match o with Some a => size a | None => 0 end.
End writing.

(** ** The parsing loop *)
Inductive field_result (M : Type) := Uninterpreted | Failed | Field (m : M) (s : list Z).
Arguments Uninterpreted {M}.
Arguments Failed {M}.
Arguments Field {M} m s.

(** The switch of a message.  [sc_next] are the tags tried after a field, [sc_last] the
    field after which the end is tried. *)
Record switch (M : Type) := mkSwitch {
  sc_field : Z → M → list Z → field_result M;
  sc_next : Z → list Z;
  sc_last : Z;
  sc_keep : Z → list Z → M → M (** a field is added to the unknown ones *) }.
Arguments mkSwitch {M}.
Arguments sc_field {M}.
Arguments sc_next {M}.
Arguments sc_last {M}.
Arguments sc_keep {M}.

(** [Ended None] is [return false]; otherwise the message, and whether the runtime takes
    the end for a legitimate one. *)
Inductive ended (M : Type) := Unfinished | Ended (r : option (M * bool)).
Arguments Unfinished {M}.
Arguments Ended {M} r.

Section merging.
Context {HW : Wire} {M : Type} (sw : switch M).
Implicit Types (m : M) (s : list Z).

Fixpoint expect (tags : list Z) s : option (Z * list Z) :=
  match tags with
  | [] => None
  | t :: tags => match ExpectTag t s with Some s => Some (t, s) | None => expect tags s end
  end.

(** [jump] is the tag that was expected and found: [goto parse_x] enters the case of that
    tag. *)
Fixpoint merge_loop (fuel : nat) (jump : option Z) m s : ended M :=
  match fuel with
  | O => Unfinished
  | S fuel =>
      match (match jump with Some t => Tag t s | None => ReadTag s end) with
      | TagEnd => Ended (Some (m, true))
      | TagBad => Ended (Some (m, false))
      | Tag t s =>
          match sc_field sw t m s with
          | Field m s =>
              match expect (sc_next sw (GetTagFieldNumber t)) s with
              | Some (t, s) => merge_loop fuel (Some t) m s
              | None =>
                  if (GetTagFieldNumber t =? sc_last sw) && ExpectAtEnd s then Ended (Some (m, true))
                  else merge_loop fuel None m s
              end
          | Failed => Ended None
          | Uninterpreted =>
              if GetTagWireType t =? WIRETYPE_END_GROUP then Ended (Some (m, false))
              else match SkipField t s with
                   | Some (v, s) => merge_loop fuel None (sc_keep sw t v m) s
                   | None => Ended None
                   end
          end
      end
  end.

Definition result (e : ended M) : option (M * bool) :=
  match e with Ended r => r | Unfinished => None end.

(** One iteration reads at least a byte. *)
Definition merge_from m s : option (M * bool) := result (merge_loop (S (length s)) None m s).

(** ** The loop without its short cuts *)
Definition take_field (t : Z) m s : field_result M :=
  match sc_field sw t m s with
  | Uninterpreted =>
      if GetTagWireType t =? WIRETYPE_END_GROUP then Uninterpreted
      else match SkipField t s with Some (v, s) => Field (sc_keep sw t v m) s | None => Failed end
  | r => r
  end.

Fixpoint plain_loop (fuel : nat) m s : ended M :=
  match fuel with
  | O => Unfinished
  | S fuel =>
      match ReadTag s with
      | TagEnd => Ended (Some (m, true))
      | TagBad => Ended (Some (m, false))
      | Tag t s =>
          match take_field t m s with
          | Field m s => plain_loop fuel m s
          | Failed => Ended None
          | Uninterpreted => Ended (Some (m, false))
          end
      end
  end.

(** No field gives bytes back. *)
Definition consumes : Prop :=
  ∀ t m s m' s', sc_field sw t m s = Field m' s' → (length s' ≤ length s)%nat.

Lemma expect_inv tags s t s' : expect tags s = Some (t, s') → ReadTag s = Tag t s'.
Proof.
  induction tags as [|t0 tags IH]; cbn [expect]; [done|].
  destruct (ExpectTag t0 s) eqn:E; [|done]. intros [= <- <-]. by apply ExpectTag_inv.
Qed.

Lemma jump_is_tag fuel m s t s' :
  ReadTag s = Tag t s' → merge_loop fuel (Some t) m s' = merge_loop fuel None m s.
Proof. intros E. destruct fuel as [|fuel]; [done|]. cbn [merge_loop]. by rewrite E. Qed.

Lemma take_field_consumes t m s m' s' : consumes → take_field t m s = Field m' s' → (length s' ≤ length s)%nat.
Proof.
  intros Hc. unfold take_field. destruct (sc_field sw t m s) as [| |m1 s1] eqn:E; try done.
  - destruct (_ =? _); [done|]. destruct (SkipField t s) as [[v s1]|] eqn:Es; [|done].
    intros [= _ <-]. by apply SkipField_inv in Es as [? _].
  - intros [= _ <-]. by eapply Hc.
Qed.

Lemma merge_is_plain fuel fuel' m s :
  consumes → (length s < fuel)%nat → (length s < fuel')%nat →
  merge_loop fuel None m s = plain_loop fuel' m s ∧ plain_loop fuel' m s ≠ Unfinished.
Proof.
  intros Hc. revert fuel' m s. induction fuel as [|fuel IH]; intros fuel' m s Hf Hf'; [lia|].
  destruct fuel' as [|fuel']; [lia|]. cbn [merge_loop plain_loop].
  destruct (ReadTag s) as [| |t s1] eqn:Et; [done..|].
  apply ReadTag_inv in Et as [_ Hlt].
  pose proof (take_field_consumes t m s1) as Htake. unfold take_field in Htake |- *.
  destruct (sc_field sw t m s1) as [| |m2 s2] eqn:Ef; [|done|].
  - destruct (_ =? WIRETYPE_END_GROUP); [done|]. destruct (SkipField t s1) as [[v s2]|] eqn:Es; [|done].
    specialize (Htake _ _ Hc eq_refl). apply IH; lia.
  - specialize (Htake _ _ Hc eq_refl).
    destruct (expect _ s2) as [[t2 s3]|] eqn:Ee.
    + apply expect_inv in Ee. rewrite (jump_is_tag _ _ s2) by done. apply IH; lia.
    + destruct (_ && ExpectAtEnd s2) eqn:Ea; [|apply IH; lia].
      apply andb_true_iff in Ea as [_ ->%ExpectAtEnd_inv].
      destruct fuel' as [|fuel']; [lia|]. cbn [plain_loop]. by rewrite ReadTag_end.
Qed.

Lemma merge_from_plain m s fuel :
  consumes → (length s < fuel)%nat → merge_from m s = result (plain_loop fuel m s).
Proof. intros Hc Hf. unfold merge_from. by rewrite (proj1 (merge_is_plain _ fuel m s Hc (Nat.lt_succ_diag_r _) Hf)). Qed.

(** What holds of the fields read holds of the message. *)
Lemma merge_from_keeps (P : M → Prop) m s m' b :
  consumes →
  (∀ t m s m' s', 0 < t < 2 ^ 32 → P m → take_field t m s = Field m' s' → P m') →
  P m → merge_from m s = Some (m', b) → P m'.
Proof.
  intros Hc Hp Hm. rewrite (merge_from_plain m s (S (length s))) by (done || lia).
  generalize (S (length s)) as fuel. intros fuel. revert m s Hm.
  induction fuel as [|fuel IH]; intros m s Hm; [done|]. cbn [plain_loop].
  destruct (ReadTag s) as [| |t s1] eqn:Et; cbn [result]; [by intros [= <- _]..|].
  apply ReadTag_inv in Et as [Ht _].
  destruct (take_field t m s1) as [| |m2 s2] eqn:Ef; cbn [result]; [by intros [= <- _]|done|].
  apply IH. by eapply Hp.
Qed.

(** ** Reading what was written *)
Inductive reads : M → list Z → M → Prop :=
  | reads_nil m : reads m [] m
  | reads_field m t s m1 s1 m' :
      0 < t < 2 ^ 32 → take_field t m s = Field m1 s1 → reads m1 s1 m' → reads m (varint t ++ s) m'.

Lemma reads_merge m s m' : consumes → reads m s m' → merge_from m s = Some (m', true).
Proof.
  intros Hc Hr. rewrite (merge_from_plain m s (S (length s))) by (done || lia).
  assert (∀ fuel, (length s < fuel)%nat → plain_loop fuel m s = Ended (Some (m', true))) as H;
    [|rewrite H; [done|lia]].
  induction Hr as [m|m t s m1 s1 m' Ht Hf Hr IH]; intros fuel Hl; (destruct fuel as [|fuel]; [lia|]); cbn [plain_loop].
  - by rewrite ReadTag_end.
  - pose proof (ReadTag_tag t s Ht) as Et. rewrite Et, Hf. apply IH.
    apply take_field_consumes in Hf; [|done]. apply ReadTag_inv in Et as [_ ?]. lia.
Qed.

(** A field that is set, or not. *)
Lemma reads_put {A} (o : option A) (t : Z) (val : A → list Z) (set : A → M → M) m s m' :
  0 < t < 2 ^ 32 →
  (∀ a, o = Some a → sc_field sw t m (val a ++ s) = Field (set a m) s) →
  reads (match o with Some a => set a m | None => m end) s m' →
  reads m (match o with Some a => varint t ++ val a | None => [] end ++ s) m'.
Proof.
  intros Ht Hf Hr. destruct o as [a|]; [|done]. rewrite <-app_assoc. eapply reads_field; [done| |exact Hr].
  unfold take_field. by rewrite Hf.
Qed.

(** An unknown field that is written is kept again. *)
Definition kept (tv : Z * list Z) : Prop :=
  0 < tv.1 < 2 ^ 32 ∧ ∀ m s, take_field tv.1 m (tv.2 ++ s) = Field (sc_keep sw tv.1 tv.2 m) s.

Lemma reads_unknown u m :
  Forall kept u → reads m (mjoin ((λ '(t, v), varint t ++ v) <$> u)) (foldl (λ m tv, sc_keep sw tv.1 tv.2 m) m u).
Proof.
  intros Hu. revert m. induction Hu as [|[t v] u [Ht Hk] Hu IH]; intros m; [constructor|].
  cbn [fmap list_fmap mjoin list_join foldl fst snd]. rewrite <-app_assoc. eapply reads_field; [done|apply Hk|apply IH].
Qed.

Lemma skipped_kept t v s0 s' :
  0 < t < 2 ^ 32 → (∀ m s, sc_field sw t m s = Uninterpreted) → GetTagWireType t ≠ WIRETYPE_END_GROUP →
  SkipField t s0 = Some (v, s') → kept (t, v).
Proof.
  intros Ht Hf Hw Hs. split; [done|]. intros m s. cbn [fst snd]. unfold take_field.
  rewrite Hf, (proj2 (Z.eqb_neq _ _) Hw). apply SkipField_inv in Hs as [_ Hs]. by rewrite Hs.
Qed.
End merging.

(** ** The documented encoding, as an instance *)
Fixpoint put_varint (n : nat) (v : Z) : list Z :=
  match n with
  | O => []
  | S n => if v <? 128 then [v] else (128 + v mod 128) :: put_varint n (v / 128)
  end.
Fixpoint get_varint (n : nat) (s : list Z) : option (Z * list Z) :=
  match n, s with
  | S n, b :: s =>
      if (b <? 0) || (256 <=? b) then None
      else if b <? 128 then Some (b, s)
      else match get_varint n s with Some (v, s) => Some (b - 128 + 128 * v, s) | None => None end
  | _, _ => None
  end.
Definition get_bytes (s : list Z) : option (list Z * list Z) :=
  match get_varint 10 s with
  | Some (n, s) => if n <=? Z.of_nat (length s) then Some (take (Z.to_nat n) s, drop (Z.to_nat n) s) else None
  | None => None
  end.
Definition get_fixed (n : nat) (s : list Z) : option (list Z * list Z) :=
  if (n <=? length s)%nat then Some (take n s, drop n s) else None.
Definition get_tag (s : list Z) : tag_read :=
  match s with
  | [] => TagEnd
  | _ => match get_varint 10 s with
         | Some (t, s) => if (0 <? t) && (t <? 2 ^ 32) then Tag t s else TagBad
         | None => TagBad
         end
  end.
Definition get_int32 (s : list Z) : option (Z * list Z) :=
  match get_varint 10 s with Some (v, s) => Some (i32 v, s) | None => None end.
Fixpoint get_repeated (fuel : nat) (t : Z) (s : list Z) : option (list Z * list Z) :=
  match fuel with
  | O => None
  | S fuel =>
      match get_int32 s with
      | None => None
      | Some (v, s) =>
          match get_tag s with
          | Tag t' s' =>
              if t' =? t then match get_repeated fuel t s' with Some (vs, s) => Some (v :: vs, s) | None => None end
              else Some ([v], s)
          | _ => Some ([v], s)
          end
      end
  end.
Fixpoint get_packed (fuel : nat) (s : list Z) : option (list Z) :=
  match fuel, s with
  | _, [] => Some []
  | O, _ => None
  | S fuel, _ =>
      match get_int32 s with
      | Some (v, s) => match get_packed fuel s with Some vs => Some (v :: vs) | None => None end
      | None => None
      end
  end.
(** Groups are refused. *)
Definition skip_wire (t : Z) (s : list Z) : option (list Z * list Z) :=
  match GetTagWireType t with
  | 0 => match get_varint 10 s with Some (v, s) => Some (put_varint 10 v, s) | None => None end
  | 1 => get_fixed 8 s
  | 2 => match get_bytes s with Some (bs, s) => Some (put_varint 10 (Z.of_nat (length bs)) ++ bs, s) | None => None end
  | 5 => get_fixed 4 s
  | _ => None
  end.

Lemma put_varint_get n v s :
  (0 < n)%nat → 0 ≤ v < 128 ^ Z.of_nat n → get_varint n (put_varint n v ++ s) = Some (v, s).
Proof.
  revert v. induction n as [|n IH]; intros v Hn Hv; [lia|]. cbn [put_varint].
  destruct (Z.ltb_spec v 128).
  - cbn [app get_varint]. rewrite (proj2 (Z.ltb_lt v 128)) by done.
    by rewrite (proj2 (Z.ltb_ge v 0)), (proj2 (Z.leb_gt 256 v)) by lia.
  - assert (0 < n)%nat by (destruct n; [change (128 ^ Z.of_nat 1) with 128 in Hv|]; lia).
    pose proof (Z.mod_pos_bound v 128). cbn [app get_varint].
    rewrite (proj2 (Z.ltb_ge _ 0)), (proj2 (Z.leb_gt 256 _)), (proj2 (Z.ltb_ge _ 128)) by lia. cbn [orb].
    rewrite IH; [|done|].
    + f_equal. f_equal. pose proof (Z.div_mod v 128). lia.
    + rewrite Nat2Z.inj_succ, Z.pow_succ_r in Hv by lia. split; [apply Z.div_pos; lia|apply Z.div_lt_upper_bound; lia].
Qed.

Lemma get_varint_inv n s v s' :
  get_varint n s = Some (v, s') → 0 ≤ v < 128 ^ Z.of_nat n ∧ (length s' < length s)%nat.
Proof.
  revert s v. induction n as [|n IH]; intros [|b s] v; cbn [get_varint]; try done.
  destruct (Z.ltb_spec b 0); [done|]. destruct (Z.leb_spec 256 b); [done|]. cbn [orb].
  rewrite Nat2Z.inj_succ, Z.pow_succ_r by lia.
  assert (0 < 128 ^ Z.of_nat n) by (apply Z.pow_pos_nonneg; lia).
  destruct (Z.ltb_spec b 128).
  - intros [= <- <-]. cbn [length]. split; [nia|lia].
  - destruct (get_varint n s) as [[v1 s1]|] eqn:E; [|done]. intros [= <- <-].
    apply IH in E as [? ?]. cbn [length]. split; [nia|lia].
Qed.

Lemma i32_range v : is_int32 (i32 v) = true.
Proof. unfold is_int32, i32. pose proof (Z.mod_pos_bound (v + 2 ^ 31) (2 ^ 32)). lia. Qed.

Lemma int32_u64 v : is_int32 v = true → i32 (u64 v) = v.
Proof.
  unfold is_int32, i32, u64. intros [H1 H2]%andb_true_iff.
  assert ((v mod 2 ^ 64 + 2 ^ 31) mod 2 ^ 32 = v + 2 ^ 31); [|lia].
  Z.div_mod_to_equations. lia.
Qed.

Lemma get_put_int32 v s : is_int32 v = true → get_int32 (put_varint 10 (u64 v) ++ s) = Some (v, s).
Proof.
  intros Hv. unfold get_int32. rewrite put_varint_get; [by rewrite int32_u64|lia|].
  unfold u64. pose proof (Z.mod_pos_bound v (2 ^ 64)). lia.
Qed.

Lemma get_int32_inv s v s' : get_int32 s = Some (v, s') → is_int32 v = true ∧ (length s' < length s)%nat.
Proof.
  unfold get_int32. destruct (get_varint 10 s) as [[x s1]|] eqn:E; [|done]. intros [= <- <-].
  split; [apply i32_range|by apply get_varint_inv in E as [_ ?]].
Qed.

Lemma get_put_bytes bs s :
  Z.of_nat (length bs) < 128 ^ 10 → get_bytes (put_varint 10 (Z.of_nat (length bs)) ++ bs ++ s) = Some (bs, s).
Proof.
  intros Hl. unfold get_bytes. rewrite put_varint_get by lia.
  rewrite length_app, (proj2 (Z.leb_le _ _)) by lia. by rewrite Nat2Z.id, take_app_length, drop_app_length.
Qed.

Lemma get_bytes_inv s bs s' :
  get_bytes s = Some (bs, s') → Z.of_nat (length bs) < 128 ^ 10 ∧ (length s' < length s)%nat.
Proof.
  unfold get_bytes. destruct (get_varint 10 s) as [[n s1]|] eqn:E; [|done].
  apply get_varint_inv in E as [? ?]. destruct (Z.leb_spec n (Z.of_nat (length s1))); [|done]. intros [= <- <-].
  rewrite length_take, length_drop. lia.
Qed.

Lemma get_fixed_inv n s bs s' :
  get_fixed n s = Some (bs, s') → length bs = n ∧ (length s' ≤ length s)%nat ∧ ∀ s2, get_fixed n (bs ++ s2) = Some (bs, s2).
Proof.
  unfold get_fixed. destruct (Nat.leb_spec n (length s)); [|done]. intros [= <- <-].
  assert (length (take n s) = n) as Hl by (rewrite length_take; lia). split; [done|]. rewrite length_drop. split; [lia|].
  intros s2. rewrite length_app, Hl, (proj2 (Nat.leb_le _ _)) by lia. f_equal. f_equal.
  - rewrite take_app_le, take_take, Nat.min_id by lia. done.
  - rewrite drop_app_ge, Hl, Nat.sub_diag by lia. done.
Qed.

Lemma get_put_tag t s : 0 < t < 2 ^ 32 → get_tag (put_varint 10 t ++ s) = Tag t s.
Proof.
  intros Ht. unfold get_tag. destruct (put_varint 10 t ++ s) eqn:E.
  - cbn [put_varint] in E. by destruct (t <? 128).
  - rewrite <-E, put_varint_get by lia. by rewrite !(proj2 (Z.ltb_lt _ _)) by lia.
Qed.

Lemma get_tag_inv s t s' : get_tag s = Tag t s' → 0 < t < 2 ^ 32 ∧ (length s' < length s)%nat.
Proof.
  unfold get_tag. destruct s as [|b s]; [done|]. destruct (get_varint _ _) as [[v s1]|] eqn:E; [|done].
  destruct (_ && _) eqn:Ev; [|done]. intros [= <- <-]. apply get_varint_inv in E as [_ ?]. lia.
Qed.

Lemma get_put_repeated t v vs s fuel :
  0 < t < 2 ^ 32 → is_int32 v = true → Forall (λ v, is_int32 v = true) vs → (∀ s', get_tag s ≠ Tag t s') →
  (length vs < fuel)%nat →
  get_repeated fuel t (put_varint 10 (u64 v) ++ mjoin ((λ v, put_varint 10 t ++ put_varint 10 (u64 v)) <$> vs) ++ s) =
    Some (v :: vs, s).
Proof.
  intros Ht Hv Hvs Hs. revert v fuel Hv. induction Hvs as [|w vs Hw Hvs IH]; intros v [|fuel] Hv Hl; cbn [length] in Hl; try lia;
    cbn [get_repeated fmap list_fmap mjoin list_join app].
  - rewrite get_put_int32 by done. destruct (get_tag s) as [| |t' s'] eqn:Et; try done.
    destruct (Z.eqb_spec t' t) as [->|]; [|done]. by destruct (Hs s').
  - rewrite get_put_int32 by done. rewrite <-!app_assoc, get_put_tag, Z.eqb_refl by done. by rewrite IH by (done || lia).
Qed.

Lemma get_repeated_inv fuel t s vs s' :
  get_repeated fuel t s = Some (vs, s') → Forall (λ v, is_int32 v = true) vs ∧ (length s' ≤ length s)%nat.
Proof.
  revert s vs. induction fuel as [|fuel IH]; intros s vs; cbn [get_repeated]; [done|].
  destruct (get_int32 s) as [[v s1]|] eqn:E; [|done]. apply get_int32_inv in E as [? ?].
  destruct (get_tag s1) as [| |t' s2] eqn:Et;
    [intros [= <- <-]; split; [by repeat constructor|lia]..|]. apply get_tag_inv in Et as [_ ?].
  destruct (_ =? _); [|intros [= <- <-]; split; [by repeat constructor|lia]].
  destruct (get_repeated fuel t s2) as [[vs1 s3]|] eqn:Er; [|done]. intros [= <- <-].
  apply IH in Er as [? ?]. split; [by constructor|lia].
Qed.

Lemma get_packed_inv fuel s vs : get_packed fuel s = Some vs → Forall (λ v, is_int32 v = true) vs.
Proof.
  revert s vs. induction fuel as [|fuel IH]; intros [|b s] vs; cbn [get_packed]; try done; try (intros [= <-]; constructor).
  destruct (get_int32 (b :: s)) as [[v s1]|] eqn:E; [|done]. apply get_int32_inv in E as [? _].
  destruct (get_packed fuel s1) as [vs1|] eqn:Er; [|done]. intros [= <-]. constructor; eauto.
Qed.

Lemma Some_pair_inj {A B} (a c : A) (b d : B) : Some (a, b) = Some (c, d) → a = c ∧ b = d.
Proof. by intros [= -> ->]. Qed.

Lemma skip_wire_inv t s v s' :
  skip_wire t s = Some (v, s') → (length s' ≤ length s)%nat ∧ ∀ s2, skip_wire t (v ++ s2) = Some (v, s2).
Proof.
  unfold skip_wire. destruct (GetTagWireType t) as [|p|p]; [| |done].
  - destruct (get_varint 10 s) as [[x s1]|] eqn:E; [|done]. apply get_varint_inv in E as [? ?]. intros [<- <-]%Some_pair_inj.
    split; [lia|]. intros s2. by rewrite put_varint_get by lia.
  - assert (∀ n, get_fixed n s = Some (v, s') → (length s' ≤ length s)%nat ∧ ∀ s2, get_fixed n (v ++ s2) = Some (v, s2)) as Hf
      by (intros n H; by apply get_fixed_inv in H as [_ ?]).
    destruct p as [[|[| |]|]|[|[]|]|]; try done; try apply Hf.
    destruct (get_bytes s) as [[bs s1]|] eqn:E; [|done]. apply get_bytes_inv in E as [? ?]. intros [<- <-]%Some_pair_inj.
    split; [lia|]. intros s2. by rewrite <-app_assoc, get_put_bytes.
Qed.

Definition plain_wire : Wire.
Proof.
  refine {|
    varint := put_varint 10; fixed32 := le_bytes 4;
    Int32Size v := Z.of_nat (length (put_varint 10 (u64 v)));
    EnumSize v := Z.of_nat (length (put_varint 10 (u64 v)));
    LengthDelimitedSize n := Z.of_nat (length (put_varint 10 n)) + n;
    ComputeUnknownFieldsSize u := Z.of_nat (length (mjoin ((λ '(t, v), put_varint 10 t ++ v) <$> u)));
    ReadTag := get_tag;
    ExpectTag t s := match get_tag s with Tag t' s => if t' =? t then Some s else None | _ => None end;
    ExpectAtEnd s := match s with [] => true | _ => false end;
    ReadInt32 := get_int32; ReadEnum := get_int32;
    ReadBool s := match get_varint 10 s with Some (v, s) => Some (negb (v =? 0), s) | None => None end;
    ReadFloat s := match get_fixed 4 s with Some (bs, s) => Some (u32 (le_value bs), s) | None => None end;
    ReadBytes := get_bytes;
    ReadRepeatedInt32 t s := get_repeated (S (length s)) t s;
    ReadPackedInt32 s :=
      match get_bytes s with
      | Some (bs, s) => match get_packed (length bs) bs with Some vs => Some (vs, s) | None => None end
      | None => None
      end;
    ReadMessage M f s :=
      match get_bytes s with
      | Some (bs, s) => match f bs with Some (m, true) => Some (m, s) | _ => None end
      | None => None
      end;
    SkipField := skip_wire |}; try (intros; reflexivity).
  - intros t Ht. cbn [put_varint]. by rewrite (proj2 (Z.ltb_lt _ _)) by lia.
  - by intros [].
  - intros t s. apply get_put_tag.
  - intros s t s'. apply get_tag_inv.
  - intros t s s'. destruct (get_tag s) as [| |t' s1]; try done. by destruct (Z.eqb_spec t' t) as [->|]; [intros [= ->]|].
  - by intros [].
  - intros v s. apply get_put_int32.
  - intros s v s' H. apply get_int32_inv in H as [? ?]. split; [done|lia].
  - intros v s. apply get_put_int32.
  - intros s v s' H. apply get_int32_inv in H as [? ?]. split; [done|lia].
  - intros b s. rewrite put_varint_get by (destruct b; cbn; lia). by destruct b.
  - intros s b s'. destruct (get_varint 10 s) as [[v s1]|] eqn:E; [|done]. intros [= _ <-].
    apply get_varint_inv in E. lia.
  - intros v s Hv. unfold is_uint32 in Hv. unfold get_fixed. rewrite length_app, length_le_bytes. cbn [Nat.leb Nat.add].
    rewrite take_app_length', drop_app_length' by (symmetry; apply length_le_bytes). rewrite le_value_le_bytes4 by lia.
    unfold u32. by rewrite Z.mod_small by lia.
  - intros s v s'. destruct (get_fixed 4 s) as [[bs s1]|] eqn:E; [|done]. intros [= <- <-].
    apply get_fixed_inv in E as (_ & ? & _). split; [|done]. unfold is_uint32, u32.
    pose proof (Z.mod_pos_bound (le_value bs) (2 ^ 32)). lia.
  - intros bs s Hs. apply get_put_bytes. unfold short, STREAM_MAX in Hs. lia.
  - intros s bs s' E. apply get_bytes_inv in E. lia.
  - intros t v vs s Ht Hv Hvs Hs. exists (length vs). rewrite take_ge, drop_ge by lia. apply get_put_repeated; try done.
    rewrite !length_app. assert (∀ w, (0 < length (put_varint 10 w))%nat) as Hp
      by (intros w; cbn [put_varint]; destruct (w <? 128); cbn [length]; lia).
    pose proof (Hp (u64 v)). enough (length vs ≤ length (mjoin ((λ v, put_varint 10 t ++ put_varint 10 (u64 v)) <$> vs)))%nat by lia.
    clear -Hp. induction vs as [|w vs IH]; [cbn; lia|]. rewrite fmap_cons. cbn [mjoin list_join length].
    rewrite !length_app. pose proof (Hp t). apply (Nat.add_le_mono 1 (length (put_varint 10 t) + _)); [lia|exact IH].
  - intros t s vs s'. apply get_repeated_inv.
  - intros s vs s'. destruct (get_bytes s) as [[bs s1]|] eqn:E; [|done]. apply get_bytes_inv in E as [_ ?].
    destruct (get_packed _ bs) as [ws|] eqn:Ep; [|done]. intros [= <- <-]. split; [by eapply get_packed_inv|lia].
  - intros M f bs s Hs. unfold short, STREAM_MAX in Hs. by rewrite get_put_bytes by lia.
  - intros M f s m s'. destruct (get_bytes s) as [[bs s1]|] eqn:E; [|done]. apply get_bytes_inv in E as [_ ?].
    destruct (f bs) as [[m1 []]|] eqn:Ef; try done. intros [= <- <-]. split; [lia|]. by exists bs.
  - intros t s v s'. apply skip_wire_inv.
Defined.
