(* ===== verification/ImPb.v ===== *)
(** The protocol messages (proto/im.pb.h, proto/im.pb.cc): the generated classes ImTouch,
    ImTouchResponse, ImMsg, ImMsgAck, ImAuthRequest, ImAuthResponse, ImPackContent and
    ImPack with their parsing, serialising, sizes, merging, copying and the check of the
    required fields, over the runtime of [Protobuf].

    A field that is not set is [None]; the has-bits and the default values a getter
    returns for such a field are thus one thing.  [SerializeWithCachedSizesToArray] writes
    in front of a nested message the size that message has cached, which the record
    [cached] holds; [ByteSize] computes it.  The reflection of the library, Swap and the
    serialising to a stream, which nothing calls, are left out. *)
From S2P Require Import Prelude Protobuf.

Abbreviation unknown_fields := (list (Z * list Z)).

(** ** Enumerations *)
Definition IM_REQUEST : Z := 1.
Definition IM_RESPONSE : Z := 2.
Definition IM_UNKNOW : Z := 0.
Definition IM_TOUCH : Z := 1.
Definition IM_TOUCH_ACK : Z := 2.
Definition IM_MSG : Z := 3.
Definition IM_MSG_ACK : Z := 4.
Definition IM_AUTH : Z := 5.
Definition IM_AUTH_RESPONSE : Z := 6.

Definition ImMsgLogicType_IsValid (value : Z) : bool :=
  match value with 1 | 2 => true | _ => false end.
Definition ImPackType_IsValid (value : Z) : bool :=
  match value with 0 | 1 | 2 | 3 | 4 | 5 | 6 => true | _ => false end.

(** ** Messages *)
Record ImTouch := mkTouch { touch_uid : option Z; touch_unknown : unknown_fields }.
Record ImTouchResponse := mkTouchRep { touch_rep_uid : option Z; touch_rep_unknown : unknown_fields }.
Record ImMsg := mkImMsg {
  im_uid : option Z;
  im_seq : option Z;
  im_target_uid : list Z;
  im_type : option Z;
  im_msg_id : option cstr;
  im_points : option Z; (** the bits of the float *)
  im_timeout : option Z;
  im_text_content : option cstr;
  im_pic_id : option cstr;
  im_vid_id : option cstr;
  im_loc_word : option cstr;
  im_unknown : unknown_fields }.
Record ImMsgAck := mkAck { ack_msg_id : option cstr; ack_seq : option Z; ack_unknown : unknown_fields }.
Record ImAuthRequest := mkAuthReq { auth_uid : option Z; auth_token : option cstr; auth_unknown : unknown_fields }.
Record ImAuthResponse :=
  mkAuthRep { rep_token : option cstr; rep_auth_success : option bool; rep_unknown : unknown_fields }.
Record ImPackContent := mkContent {
  c_touch : option ImTouch;
  c_touch_rep : option ImTouchResponse;
  c_msg : option ImMsg;
  c_msg_ack : option ImMsgAck;
  c_auth_req : option ImAuthRequest;
  c_auth_rep : option ImAuthResponse;
  c_unknown : unknown_fields }.
Record ImPack := mkPack {
  p_type : option Z; p_content : option ImPackContent; p_ts : option Z; p_unknown : unknown_fields }.

(** The default instances; Clear makes a message one of these. *)
Definition empty_touch : ImTouch := mkTouch None [].
Definition empty_touch_rep : ImTouchResponse := mkTouchRep None [].
Definition empty_msg : ImMsg := mkImMsg None None [] None None None None None None None None [].
Definition empty_ack : ImMsgAck := mkAck None None [].
Definition empty_auth_req : ImAuthRequest := mkAuthReq None None [].
Definition empty_auth_rep : ImAuthResponse := mkAuthRep None None [].
Definition empty_content : ImPackContent := mkContent None None None None None None [].
Definition empty_pack : ImPack := mkPack None None None [].

(** The setters of [ImMsg]. *)
Definition im_set_uid v m := mkImMsg (Some v) (im_seq m) (im_target_uid m) (im_type m) (im_msg_id m) (im_points m)
  (im_timeout m) (im_text_content m) (im_pic_id m) (im_vid_id m) (im_loc_word m) (im_unknown m).
Definition im_set_seq v m := mkImMsg (im_uid m) (Some v) (im_target_uid m) (im_type m) (im_msg_id m) (im_points m)
  (im_timeout m) (im_text_content m) (im_pic_id m) (im_vid_id m) (im_loc_word m) (im_unknown m).
Definition im_set_target_uid vs m := mkImMsg (im_uid m) (im_seq m) vs (im_type m) (im_msg_id m) (im_points m)
  (im_timeout m) (im_text_content m) (im_pic_id m) (im_vid_id m) (im_loc_word m) (im_unknown m).
Definition im_set_type v m := mkImMsg (im_uid m) (im_seq m) (im_target_uid m) (Some v) (im_msg_id m) (im_points m)
  (im_timeout m) (im_text_content m) (im_pic_id m) (im_vid_id m) (im_loc_word m) (im_unknown m).
Definition im_set_msg_id v m := mkImMsg (im_uid m) (im_seq m) (im_target_uid m) (im_type m) (Some v) (im_points m)
  (im_timeout m) (im_text_content m) (im_pic_id m) (im_vid_id m) (im_loc_word m) (im_unknown m).
Definition im_set_points v m := mkImMsg (im_uid m) (im_seq m) (im_target_uid m) (im_type m) (im_msg_id m) (Some v)
  (im_timeout m) (im_text_content m) (im_pic_id m) (im_vid_id m) (im_loc_word m) (im_unknown m).
Definition im_set_timeout v m := mkImMsg (im_uid m) (im_seq m) (im_target_uid m) (im_type m) (im_msg_id m) (im_points m)
  (Some v) (im_text_content m) (im_pic_id m) (im_vid_id m) (im_loc_word m) (im_unknown m).
Definition im_set_text_content v m := mkImMsg (im_uid m) (im_seq m) (im_target_uid m) (im_type m) (im_msg_id m) (im_points m)
  (im_timeout m) (Some v) (im_pic_id m) (im_vid_id m) (im_loc_word m) (im_unknown m).
Definition im_set_pic_id v m := mkImMsg (im_uid m) (im_seq m) (im_target_uid m) (im_type m) (im_msg_id m) (im_points m)
  (im_timeout m) (im_text_content m) (Some v) (im_vid_id m) (im_loc_word m) (im_unknown m).
Definition im_set_vid_id v m := mkImMsg (im_uid m) (im_seq m) (im_target_uid m) (im_type m) (im_msg_id m) (im_points m)
  (im_timeout m) (im_text_content m) (im_pic_id m) (Some v) (im_loc_word m) (im_unknown m).
Definition im_set_loc_word v m := mkImMsg (im_uid m) (im_seq m) (im_target_uid m) (im_type m) (im_msg_id m) (im_points m)
  (im_timeout m) (im_text_content m) (im_pic_id m) (im_vid_id m) (Some v) (im_unknown m).
Definition im_add_unknown u m := mkImMsg (im_uid m) (im_seq m) (im_target_uid m) (im_type m) (im_msg_id m) (im_points m)
  (im_timeout m) (im_text_content m) (im_pic_id m) (im_vid_id m) (im_loc_word m) (im_unknown m ++ u).

(** The setters of [ImPack]. *)
Definition p_set_type v m := mkPack (Some v) (p_content m) (p_ts m) (p_unknown m).
Definition p_set_ts v m := mkPack (p_type m) (p_content m) (Some v) (p_unknown m).

(** ** Required fields *)
Definition has {A} (o : option A) : bool := match o with Some _ => true | None => false end.
Definition opt_all {A} (f : A → bool) (o : option A) : bool := match o with Some a => f a | None => true end.

Definition ImTouch_IsInitialized m : bool := has (touch_uid m).
Definition ImTouchResponse_IsInitialized m : bool := has (touch_rep_uid m).
Definition ImMsg_IsInitialized m : bool := has (im_uid m) && has (im_seq m) && has (im_type m).
Definition ImMsgAck_IsInitialized m : bool := has (ack_seq m).
Definition ImAuthRequest_IsInitialized m : bool := has (auth_uid m) && has (auth_token m).
Definition ImAuthResponse_IsInitialized m : bool := has (rep_token m) && has (rep_auth_success m).
Definition ImPackContent_IsInitialized m : bool :=
  opt_all ImTouch_IsInitialized (c_touch m) && opt_all ImTouchResponse_IsInitialized (c_touch_rep m) &&
  opt_all ImMsg_IsInitialized (c_msg m) && opt_all ImMsgAck_IsInitialized (c_msg_ack m) &&
  opt_all ImAuthRequest_IsInitialized (c_auth_req m) && opt_all ImAuthResponse_IsInitialized (c_auth_rep m).
Definition ImPack_IsInitialized m : bool :=
  (has (p_type m) && has (p_content m)) && opt_all ImPackContent_IsInitialized (p_content m).

(** ** Merging *)
(** [if (from.has_x()) set_x(from.x())] *)
Definition or_old {A} (new old : option A) : option A := match new with Some _ => new | None => old end.
(** [if (from.has_x()) mutable_x()->MergeFrom(from.x())] *)
Definition merge_sub {A} (merge : A → A → A) (empty : A) (new old : option A) : option A :=
  match new with Some a => Some (merge (default empty old) a) | None => old end.

Definition ImTouch_MergeFrom m from :=
  mkTouch (or_old (touch_uid from) (touch_uid m)) (touch_unknown m ++ touch_unknown from).
Definition ImTouchResponse_MergeFrom m from :=
  mkTouchRep (or_old (touch_rep_uid from) (touch_rep_uid m)) (touch_rep_unknown m ++ touch_rep_unknown from).
Definition ImMsg_MergeFrom m from :=
  mkImMsg (or_old (im_uid from) (im_uid m)) (or_old (im_seq from) (im_seq m)) (im_target_uid m ++ im_target_uid from)
    (or_old (im_type from) (im_type m)) (or_old (im_msg_id from) (im_msg_id m)) (or_old (im_points from) (im_points m))
    (or_old (im_timeout from) (im_timeout m)) (or_old (im_text_content from) (im_text_content m))
    (or_old (im_pic_id from) (im_pic_id m)) (or_old (im_vid_id from) (im_vid_id m))
    (or_old (im_loc_word from) (im_loc_word m)) (im_unknown m ++ im_unknown from).
Definition ImMsgAck_MergeFrom m from :=
  mkAck (or_old (ack_msg_id from) (ack_msg_id m)) (or_old (ack_seq from) (ack_seq m)) (ack_unknown m ++ ack_unknown from).
Definition ImAuthRequest_MergeFrom m from :=
  mkAuthReq (or_old (auth_uid from) (auth_uid m)) (or_old (auth_token from) (auth_token m)) (auth_unknown m ++ auth_unknown from).
Definition ImAuthResponse_MergeFrom m from :=
  mkAuthRep (or_old (rep_token from) (rep_token m)) (or_old (rep_auth_success from) (rep_auth_success m))
    (rep_unknown m ++ rep_unknown from).
Definition ImPackContent_MergeFrom m from :=
  mkContent (merge_sub ImTouch_MergeFrom empty_touch (c_touch from) (c_touch m))
    (merge_sub ImTouchResponse_MergeFrom empty_touch_rep (c_touch_rep from) (c_touch_rep m))
    (merge_sub ImMsg_MergeFrom empty_msg (c_msg from) (c_msg m))
    (merge_sub ImMsgAck_MergeFrom empty_ack (c_msg_ack from) (c_msg_ack m))
    (merge_sub ImAuthRequest_MergeFrom empty_auth_req (c_auth_req from) (c_auth_req m))
    (merge_sub ImAuthResponse_MergeFrom empty_auth_rep (c_auth_rep from) (c_auth_rep m))
    (c_unknown m ++ c_unknown from).
Definition ImPack_MergeFrom m from :=
  mkPack (or_old (p_type from) (p_type m)) (merge_sub ImPackContent_MergeFrom empty_content (p_content from) (p_content m))
    (or_old (p_ts from) (p_ts m)) (p_unknown m ++ p_unknown from).

Definition ImPack_Clear (m : ImPack) : ImPack := empty_pack.
Definition ImPack_CopyFrom (m from : ImPack) : ImPack := ImPack_MergeFrom (ImPack_Clear m) from.

(** The sizes the nested messages have cached. *)
Record cached := mkCached {
  cs_touch : Z; cs_touch_rep : Z; cs_msg : Z; cs_msg_ack : Z; cs_auth_req : Z; cs_auth_rep : Z; cs_content : Z }.
Definition cached_new : cached := mkCached 0 0 0 0 0 0 0.

Section messages.
Context {HW : Wire}.

(** ** Serialising *)
Definition ImTouch_Serialize m (target : list Z) : list Z :=
  let target := put (touch_uid m) (WriteInt32 1) target in
  SerializeUnknownFields (touch_unknown m) target.
Definition ImTouchResponse_Serialize m (target : list Z) : list Z :=
  let target := put (touch_rep_uid m) (WriteInt32 1) target in
  SerializeUnknownFields (touch_rep_unknown m) target.
Definition ImMsg_Serialize m (target : list Z) : list Z :=
  let target := put (im_uid m) (WriteInt32 1) target in
  let target := put (im_seq m) (WriteInt32 2) target in
  let target := foldl (λ target v, WriteInt32 3 v target) target (im_target_uid m) in
  let target := put (im_type m) (WriteEnum 4) target in
  let target := put (im_msg_id m) (WriteBytes 5) target in
  let target := put (im_points m) (WriteFloat 6) target in
  let target := put (im_timeout m) (WriteInt32 7) target in
  let target := put (im_text_content m) (WriteBytes 8) target in
  let target := put (im_pic_id m) (WriteBytes 9) target in
  let target := put (im_vid_id m) (WriteBytes 10) target in
  let target := put (im_loc_word m) (WriteBytes 11) target in
  SerializeUnknownFields (im_unknown m) target.
Definition ImMsgAck_Serialize m (target : list Z) : list Z :=
  let target := put (ack_msg_id m) (WriteBytes 1) target in
  let target := put (ack_seq m) (WriteInt32 2) target in
  SerializeUnknownFields (ack_unknown m) target.
Definition ImAuthRequest_Serialize m (target : list Z) : list Z :=
  let target := put (auth_uid m) (WriteInt32 1) target in
  let target := put (auth_token m) (WriteBytes 2) target in
  SerializeUnknownFields (auth_unknown m) target.
Definition ImAuthResponse_Serialize m (target : list Z) : list Z :=
  let target := put (rep_token m) (WriteBytes 1) target in
  let target := put (rep_auth_success m) (WriteBool 2) target in
  SerializeUnknownFields (rep_unknown m) target.
Definition ImPackContent_Serialize (cs : cached) m (target : list Z) : list Z :=
  let target := put (c_touch m) (λ x, WriteMessage 1 (cs_touch cs) (ImTouch_Serialize x)) target in
  let target := put (c_touch_rep m) (λ x, WriteMessage 2 (cs_touch_rep cs) (ImTouchResponse_Serialize x)) target in
  let target := put (c_msg m) (λ x, WriteMessage 3 (cs_msg cs) (ImMsg_Serialize x)) target in
  let target := put (c_msg_ack m) (λ x, WriteMessage 4 (cs_msg_ack cs) (ImMsgAck_Serialize x)) target in
  let target := put (c_auth_req m) (λ x, WriteMessage 5 (cs_auth_req cs) (ImAuthRequest_Serialize x)) target in
  let target := put (c_auth_rep m) (λ x, WriteMessage 6 (cs_auth_rep cs) (ImAuthResponse_Serialize x)) target in
  SerializeUnknownFields (c_unknown m) target.
Definition ImPack_Serialize (cs : cached) m (target : list Z) : list Z :=
  let target := put (p_type m) (WriteEnum 1) target in
  let target := put (p_content m) (λ x, WriteMessage 2 (cs_content cs) (ImPackContent_Serialize cs x)) target in
  let target := put (p_ts m) (WriteInt32 3) target in
  SerializeUnknownFields (p_unknown m) target.

(** ** Sizes *)
Definition BytesSize (bs : cstr) : Z := LengthDelimitedSize (Z.of_nat (length bs)).

Definition ImTouch_ByteSize m : Z :=
  size_of (touch_uid m) (λ v, 1 + Int32Size v) + ComputeUnknownFieldsSize (touch_unknown m).
Definition ImTouchResponse_ByteSize m : Z :=
  size_of (touch_rep_uid m) (λ v, 1 + Int32Size v) + ComputeUnknownFieldsSize (touch_rep_unknown m).
Definition ImMsg_ByteSize m : Z :=
  size_of (im_uid m) (λ v, 1 + Int32Size v) + size_of (im_seq m) (λ v, 1 + Int32Size v) +
  size_of (im_type m) (λ v, 1 + EnumSize v) + size_of (im_msg_id m) (λ v, 1 + BytesSize v) +
  size_of (im_points m) (λ _, 1 + 4) + size_of (im_timeout m) (λ v, 1 + Int32Size v) +
  size_of (im_text_content m) (λ v, 1 + BytesSize v) + size_of (im_pic_id m) (λ v, 1 + BytesSize v) +
  size_of (im_vid_id m) (λ v, 1 + BytesSize v) + size_of (im_loc_word m) (λ v, 1 + BytesSize v) +
  (1 * Z.of_nat (length (im_target_uid m)) + foldl (λ data_size v, data_size + Int32Size v) 0 (im_target_uid m)) +
  ComputeUnknownFieldsSize (im_unknown m).
Definition ImMsgAck_ByteSize m : Z :=
  size_of (ack_msg_id m) (λ v, 1 + BytesSize v) + size_of (ack_seq m) (λ v, 1 + Int32Size v) +
  ComputeUnknownFieldsSize (ack_unknown m).
Definition ImAuthRequest_ByteSize m : Z :=
  size_of (auth_uid m) (λ v, 1 + Int32Size v) + size_of (auth_token m) (λ v, 1 + BytesSize v) +
  ComputeUnknownFieldsSize (auth_unknown m).
Definition ImAuthResponse_ByteSize m : Z :=
  size_of (rep_token m) (λ v, 1 + BytesSize v) + size_of (rep_auth_success m) (λ _, 1 + 1) +
  ComputeUnknownFieldsSize (rep_unknown m).

(** The size of a nested message is computed, and cached there, when it is set. *)
Definition cache {A} (o : option A) (size : A → Z) (old : Z) : Z :=
  match o with Some a => size a | None => old end.
Definition ImPackContent_ByteSize (cs : cached) m : Z * cached :=
  (size_of (c_touch m) (λ x, 1 + LengthDelimitedSize (ImTouch_ByteSize x)) +
   size_of (c_touch_rep m) (λ x, 1 + LengthDelimitedSize (ImTouchResponse_ByteSize x)) +
   size_of (c_msg m) (λ x, 1 + LengthDelimitedSize (ImMsg_ByteSize x)) +
   size_of (c_msg_ack m) (λ x, 1 + LengthDelimitedSize (ImMsgAck_ByteSize x)) +
   size_of (c_auth_req m) (λ x, 1 + LengthDelimitedSize (ImAuthRequest_ByteSize x)) +
   size_of (c_auth_rep m) (λ x, 1 + LengthDelimitedSize (ImAuthResponse_ByteSize x)) +
   ComputeUnknownFieldsSize (c_unknown m),
   mkCached (cache (c_touch m) ImTouch_ByteSize (cs_touch cs))
     (cache (c_touch_rep m) ImTouchResponse_ByteSize (cs_touch_rep cs)) (cache (c_msg m) ImMsg_ByteSize (cs_msg cs))
     (cache (c_msg_ack m) ImMsgAck_ByteSize (cs_msg_ack cs)) (cache (c_auth_req m) ImAuthRequest_ByteSize (cs_auth_req cs))
     (cache (c_auth_rep m) ImAuthResponse_ByteSize (cs_auth_rep cs)) (cs_content cs)).
Definition ImPack_ByteSize (cs : cached) m : Z * cached :=
  let '(content_size, cs) :=
    match p_content m with
    | Some c =>
        let '(n, cs) := ImPackContent_ByteSize cs c in
        (1 + LengthDelimitedSize n,
         mkCached (cs_touch cs) (cs_touch_rep cs) (cs_msg cs) (cs_msg_ack cs) (cs_auth_req cs) (cs_auth_rep cs) n)
    | None => (0, cs)
    end in
  (size_of (p_type m) (λ v, 1 + EnumSize v) + content_size + size_of (p_ts m) (λ v, 1 + Int32Size v) +
   ComputeUnknownFieldsSize (p_unknown m), cs).

(** ** Parsing *)
(** A field of wire type [type]. *)
Definition read_as {M A} (tag type : Z) (rd : option (A * list Z)) (set : A → M) : field_result M :=
  if GetTagWireType tag =? type then match rd with Some (a, s) => Field (set a) s | None => Failed end
  else Uninterpreted.
(** [AddVarint] *)
Definition AddVarint (number value : Z) : unknown_fields := [(MakeTag number WIRETYPE_VARINT, varint (u64 value))].

Definition ImTouch_switch : switch ImTouch := {|
  sc_field tag m s :=
    match GetTagFieldNumber tag with
    | 1 => read_as tag WIRETYPE_VARINT (ReadInt32 s) (λ v, mkTouch (Some v) (touch_unknown m))
    | _ => Uninterpreted
    end;
  sc_next _ := [];
  sc_last := 1;
  sc_keep t v m := mkTouch (touch_uid m) (touch_unknown m ++ [(t, v)]) |}.

Definition ImTouchResponse_switch : switch ImTouchResponse := {|
  sc_field tag m s :=
    match GetTagFieldNumber tag with
    | 1 => read_as tag WIRETYPE_VARINT (ReadInt32 s) (λ v, mkTouchRep (Some v) (touch_rep_unknown m))
    | _ => Uninterpreted
    end;
  sc_next _ := [];
  sc_last := 1;
  sc_keep t v m := mkTouchRep (touch_rep_uid m) (touch_rep_unknown m ++ [(t, v)]) |}.

Definition ImMsg_switch : switch ImMsg := {|
  sc_field tag m s :=
    match GetTagFieldNumber tag with
    | 1 => read_as tag WIRETYPE_VARINT (ReadInt32 s) (λ v, im_set_uid v m)
    | 2 => read_as tag WIRETYPE_VARINT (ReadInt32 s) (λ v, im_set_seq v m)
    | 3 =>
        if GetTagWireType tag =? WIRETYPE_VARINT then
          read_as tag WIRETYPE_VARINT (ReadRepeatedInt32 24 s) (λ vs, im_set_target_uid (im_target_uid m ++ vs) m)
        else read_as tag WIRETYPE_LENGTH_DELIMITED (ReadPackedInt32 s) (λ vs, im_set_target_uid (im_target_uid m ++ vs) m)
    | 4 => read_as tag WIRETYPE_VARINT (ReadEnum s)
             (λ v, if ImMsgLogicType_IsValid v then im_set_type v m else im_add_unknown (AddVarint 4 v) m)
    | 5 => read_as tag WIRETYPE_LENGTH_DELIMITED (ReadBytes s) (λ v, im_set_msg_id v m)
    | 6 => read_as tag WIRETYPE_FIXED32 (ReadFloat s) (λ v, im_set_points v m)
    | 7 => read_as tag WIRETYPE_VARINT (ReadInt32 s) (λ v, im_set_timeout v m)
    | 8 => read_as tag WIRETYPE_LENGTH_DELIMITED (ReadBytes s) (λ v, im_set_text_content v m)
    | 9 => read_as tag WIRETYPE_LENGTH_DELIMITED (ReadBytes s) (λ v, im_set_pic_id v m)
    | 10 => read_as tag WIRETYPE_LENGTH_DELIMITED (ReadBytes s) (λ v, im_set_vid_id v m)
    | 11 => read_as tag WIRETYPE_LENGTH_DELIMITED (ReadBytes s) (λ v, im_set_loc_word v m)
    | _ => Uninterpreted
    end;
  sc_next n :=
    match n with
    | 1 => [16] | 2 => [24] | 3 => [24; 32] | 4 => [42] | 5 => [53] | 6 => [56] | 7 => [66] | 8 => [74] | 9 => [82]
    | 10 => [90] | _ => []
    end;
  sc_last := 11;
  sc_keep t v m := im_add_unknown [(t, v)] m |}.

Definition ImMsgAck_switch : switch ImMsgAck := {|
  sc_field tag m s :=
    match GetTagFieldNumber tag with
    | 1 => read_as tag WIRETYPE_LENGTH_DELIMITED (ReadBytes s) (λ v, mkAck (Some v) (ack_seq m) (ack_unknown m))
    | 2 => read_as tag WIRETYPE_VARINT (ReadInt32 s) (λ v, mkAck (ack_msg_id m) (Some v) (ack_unknown m))
    | _ => Uninterpreted
    end;
  sc_next n := match n with 1 => [16] | _ => [] end;
  sc_last := 2;
  sc_keep t v m := mkAck (ack_msg_id m) (ack_seq m) (ack_unknown m ++ [(t, v)]) |}.

Definition ImAuthRequest_switch : switch ImAuthRequest := {|
  sc_field tag m s :=
    match GetTagFieldNumber tag with
    | 1 => read_as tag WIRETYPE_VARINT (ReadInt32 s) (λ v, mkAuthReq (Some v) (auth_token m) (auth_unknown m))
    | 2 => read_as tag WIRETYPE_LENGTH_DELIMITED (ReadBytes s) (λ v, mkAuthReq (auth_uid m) (Some v) (auth_unknown m))
    | _ => Uninterpreted
    end;
  sc_next n := match n with 1 => [18] | _ => [] end;
  sc_last := 2;
  sc_keep t v m := mkAuthReq (auth_uid m) (auth_token m) (auth_unknown m ++ [(t, v)]) |}.

Definition ImAuthResponse_switch : switch ImAuthResponse := {|
  sc_field tag m s :=
    match GetTagFieldNumber tag with
    | 1 => read_as tag WIRETYPE_LENGTH_DELIMITED (ReadBytes s) (λ v, mkAuthRep (Some v) (rep_auth_success m) (rep_unknown m))
    | 2 => read_as tag WIRETYPE_VARINT (ReadBool s) (λ v, mkAuthRep (rep_token m) (Some v) (rep_unknown m))
    | _ => Uninterpreted
    end;
  sc_next n := match n with 1 => [16] | _ => [] end;
  sc_last := 2;
  sc_keep t v m := mkAuthRep (rep_token m) (rep_auth_success m) (rep_unknown m ++ [(t, v)]) |}.

(** A nested message is parsed into the one that is there, or into a new one. *)
Definition read_sub {A} (sw : switch A) (empty : A) (old : option A) (s : list Z) : option (A * list Z) :=
  ReadMessage (merge_from sw (default empty old)) s.

Definition ImPackContent_switch : switch ImPackContent := {|
  sc_field tag m s :=
    match GetTagFieldNumber tag with
    | 1 => read_as tag WIRETYPE_LENGTH_DELIMITED (read_sub ImTouch_switch empty_touch (c_touch m) s)
             (λ x, mkContent (Some x) (c_touch_rep m) (c_msg m) (c_msg_ack m) (c_auth_req m) (c_auth_rep m) (c_unknown m))
    | 2 => read_as tag WIRETYPE_LENGTH_DELIMITED (read_sub ImTouchResponse_switch empty_touch_rep (c_touch_rep m) s)
             (λ x, mkContent (c_touch m) (Some x) (c_msg m) (c_msg_ack m) (c_auth_req m) (c_auth_rep m) (c_unknown m))
    | 3 => read_as tag WIRETYPE_LENGTH_DELIMITED (read_sub ImMsg_switch empty_msg (c_msg m) s)
             (λ x, mkContent (c_touch m) (c_touch_rep m) (Some x) (c_msg_ack m) (c_auth_req m) (c_auth_rep m) (c_unknown m))
    | 4 => read_as tag WIRETYPE_LENGTH_DELIMITED (read_sub ImMsgAck_switch empty_ack (c_msg_ack m) s)
             (λ x, mkContent (c_touch m) (c_touch_rep m) (c_msg m) (Some x) (c_auth_req m) (c_auth_rep m) (c_unknown m))
    | 5 => read_as tag WIRETYPE_LENGTH_DELIMITED (read_sub ImAuthRequest_switch empty_auth_req (c_auth_req m) s)
             (λ x, mkContent (c_touch m) (c_touch_rep m) (c_msg m) (c_msg_ack m) (Some x) (c_auth_rep m) (c_unknown m))
    | 6 => read_as tag WIRETYPE_LENGTH_DELIMITED (read_sub ImAuthResponse_switch empty_auth_rep (c_auth_rep m) s)
             (λ x, mkContent (c_touch m) (c_touch_rep m) (c_msg m) (c_msg_ack m) (c_auth_req m) (Some x) (c_unknown m))
    | _ => Uninterpreted
    end;
  sc_next n := match n with 1 => [18] | 2 => [26] | 3 => [34] | 4 => [42] | 5 => [50] | _ => [] end;
  sc_last := 6;
  sc_keep t v m := mkContent (c_touch m) (c_touch_rep m) (c_msg m) (c_msg_ack m) (c_auth_req m) (c_auth_rep m)
                     (c_unknown m ++ [(t, v)]) |}.

Definition ImPack_switch : switch ImPack := {|
  sc_field tag m s :=
    match GetTagFieldNumber tag with
    | 1 => read_as tag WIRETYPE_VARINT (ReadEnum s)
             (λ v, if ImPackType_IsValid v then p_set_type v m
                   else mkPack (p_type m) (p_content m) (p_ts m) (p_unknown m ++ AddVarint 1 v))
    | 2 => read_as tag WIRETYPE_LENGTH_DELIMITED (read_sub ImPackContent_switch empty_content (p_content m) s)
             (λ x, mkPack (p_type m) (Some x) (p_ts m) (p_unknown m))
    | 3 => read_as tag WIRETYPE_VARINT (ReadInt32 s) (λ v, p_set_ts v m)
    | _ => Uninterpreted
    end;
  sc_next n := match n with 1 => [18] | 2 => [24] | _ => [] end;
  sc_last := 3;
  sc_keep t v m := mkPack (p_type m) (p_content m) (p_ts m) (p_unknown m ++ [(t, v)]) |}.

(** ** The runtime's entry points
    ParseFromArray clears the message, parses, and wants the end to be legitimate and the
    required fields set; SerializeToArray computes the sizes and serialises. *)
Definition ParseFromArray (bs : list Z) : option ImPack :=
  match merge_from ImPack_switch (ImPack_Clear empty_pack) bs with
  | Some (m, true) => if ImPack_IsInitialized m then Some m else None
  | _ => None
  end.
Definition SerializeToArray (m : ImPack) : list Z :=
  let '(_, cs) := ImPack_ByteSize cached_new m in ImPack_Serialize cs m [].
End messages.

(** ** Well-typed messages *)
Definition touch_typed m : bool := opt_all is_int32 (touch_uid m).
Definition touch_rep_typed m : bool := opt_all is_int32 (touch_rep_uid m).
Definition msg_typed m : bool :=
  opt_all is_int32 (im_uid m) && opt_all is_int32 (im_seq m) && forallb is_int32 (im_target_uid m) &&
  opt_all ImMsgLogicType_IsValid (im_type m) && opt_all is_uint32 (im_points m) && opt_all is_int32 (im_timeout m).
Definition ack_typed m : bool := opt_all is_int32 (ack_seq m).
Definition auth_req_typed m : bool := opt_all is_int32 (auth_uid m).
Definition content_typed m : bool :=
  opt_all touch_typed (c_touch m) && opt_all touch_rep_typed (c_touch_rep m) && opt_all msg_typed (c_msg m) &&
  opt_all ack_typed (c_msg_ack m) && opt_all auth_req_typed (c_auth_req m).
Definition pack_typed m : bool :=
  opt_all ImPackType_IsValid (p_type m) && opt_all content_typed (p_content m) && opt_all is_int32 (p_ts m).

(** ** Bytes *)
Section bytes.
Context {HW : Wire}.

Definition field_bytes {A} (o : option A) (t : Z) (val : A → list Z) : list Z :=
  match o with Some a => varint t ++ val a | None => [] end.
Definition delim (bs : list Z) : list Z := varint (Z.of_nat (length bs)) ++ bs.
Definition unknown_bytes (u : unknown_fields) : list Z := mjoin ((λ '(t, v), varint t ++ v) <$> u).
Definition int32_bytes (v : Z) : list Z := varint (u64 v).
Definition bool_bytes (b : bool) : list Z := varint (Z.b2z b).

Definition touch_bytes m : list Z := field_bytes (touch_uid m) (MakeTag 1 0) int32_bytes ++ unknown_bytes (touch_unknown m).
Definition touch_rep_bytes m : list Z :=
  field_bytes (touch_rep_uid m) (MakeTag 1 0) int32_bytes ++ unknown_bytes (touch_rep_unknown m).
Definition targets_bytes (vs : list Z) : list Z := mjoin ((λ v, varint 24 ++ varint (u64 v)) <$> vs).
Definition msg_bytes m : list Z :=
  field_bytes (im_uid m) (MakeTag 1 0) int32_bytes ++ field_bytes (im_seq m) (MakeTag 2 0) int32_bytes ++
  targets_bytes (im_target_uid m) ++ field_bytes (im_type m) (MakeTag 4 0) int32_bytes ++
  field_bytes (im_msg_id m) (MakeTag 5 2) delim ++ field_bytes (im_points m) (MakeTag 6 5) fixed32 ++
  field_bytes (im_timeout m) (MakeTag 7 0) int32_bytes ++ field_bytes (im_text_content m) (MakeTag 8 2) delim ++
  field_bytes (im_pic_id m) (MakeTag 9 2) delim ++ field_bytes (im_vid_id m) (MakeTag 10 2) delim ++
  field_bytes (im_loc_word m) (MakeTag 11 2) delim ++ unknown_bytes (im_unknown m).
Definition ack_bytes m : list Z :=
  field_bytes (ack_msg_id m) (MakeTag 1 2) delim ++ field_bytes (ack_seq m) (MakeTag 2 0) int32_bytes ++
  unknown_bytes (ack_unknown m).
Definition auth_req_bytes m : list Z :=
  field_bytes (auth_uid m) (MakeTag 1 0) int32_bytes ++ field_bytes (auth_token m) (MakeTag 2 2) delim ++
  unknown_bytes (auth_unknown m).
Definition auth_rep_bytes m : list Z :=
  field_bytes (rep_token m) (MakeTag 1 2) delim ++ field_bytes (rep_auth_success m) (MakeTag 2 0) bool_bytes ++
  unknown_bytes (rep_unknown m).
(** With the sizes that are right. *)
Definition content_bytes m : list Z :=
  field_bytes (c_touch m) (MakeTag 1 2) (delim ∘ touch_bytes) ++
  field_bytes (c_touch_rep m) (MakeTag 2 2) (delim ∘ touch_rep_bytes) ++
  field_bytes (c_msg m) (MakeTag 3 2) (delim ∘ msg_bytes) ++
  field_bytes (c_msg_ack m) (MakeTag 4 2) (delim ∘ ack_bytes) ++
  field_bytes (c_auth_req m) (MakeTag 5 2) (delim ∘ auth_req_bytes) ++
  field_bytes (c_auth_rep m) (MakeTag 6 2) (delim ∘ auth_rep_bytes) ++ unknown_bytes (c_unknown m).
Definition pack_bytes m : list Z :=
  field_bytes (p_type m) (MakeTag 1 0) int32_bytes ++ field_bytes (p_content m) (MakeTag 2 2) (delim ∘ content_bytes) ++
  field_bytes (p_ts m) (MakeTag 3 0) int32_bytes ++ unknown_bytes (p_unknown m).

(** ** What is written *)
Lemma put_bytes {A} (o : option A) w t val out :
  (∀ a out, w a out = out ++ varint t ++ val a) → put o w out = out ++ field_bytes o t val.
Proof. intros H. destruct o as [a|]; cbn [put field_bytes]; [apply H|by rewrite app_nil_r]. Qed.

Lemma put_message {A} (o : option A) n size ser bytes out :
  (∀ a out, ser a out = out ++ bytes a) →
  put o (λ a, WriteMessage n size (ser a)) out = out ++ field_bytes o (MakeTag n 2) (λ a, varint size ++ bytes a).
Proof.
  intros H. destruct o as [a|]; cbn [put field_bytes]; [|by rewrite app_nil_r].
  unfold WriteMessage. by rewrite H, <-!app_assoc.
Qed.

Lemma field_delim {A} (o : option A) t size bytes :
  (∀ a, o = Some a → size = Z.of_nat (length (bytes a))) →
  field_bytes o t (λ a, varint size ++ bytes a) = field_bytes o t (delim ∘ bytes).
Proof. intros H. destruct o as [a|]; [|done]. by rewrite (H a eq_refl). Qed.

Lemma put_targets vs out : foldl (λ target v, WriteInt32 3 v target) out vs = out ++ targets_bytes vs.
Proof.
  revert out. induction vs as [|v vs IH]; intros out; cbn [foldl]; [by rewrite app_nil_r|].
  rewrite IH. unfold WriteInt32, targets_bytes. rewrite fmap_cons. cbn [mjoin list_join]. by rewrite <-!app_assoc.
Qed.
End bytes.

Ltac put_fields :=
  repeat first
    [ rewrite (put_bytes _ _ _ int32_bytes) by (intros; reflexivity)
    | rewrite (put_bytes _ _ _ bool_bytes) by (intros; reflexivity)
    | rewrite (put_bytes _ _ _ fixed32) by (intros; reflexivity)
    | rewrite (put_bytes _ _ _ delim) by (intros; reflexivity)
    | rewrite put_targets ];
  unfold SerializeUnknownFields; by rewrite <-!app_assoc.

Section written.
Context {HW : Wire}.

Lemma ImTouch_written m out : ImTouch_Serialize m out = out ++ touch_bytes m.
Proof. unfold ImTouch_Serialize, touch_bytes. put_fields. Qed.
Lemma ImTouchResponse_written m out : ImTouchResponse_Serialize m out = out ++ touch_rep_bytes m.
Proof. unfold ImTouchResponse_Serialize, touch_rep_bytes. put_fields. Qed.
Lemma ImMsg_written m out : ImMsg_Serialize m out = out ++ msg_bytes m.
Proof. unfold ImMsg_Serialize, msg_bytes. put_fields. Qed.
Lemma ImMsgAck_written m out : ImMsgAck_Serialize m out = out ++ ack_bytes m.
Proof. unfold ImMsgAck_Serialize, ack_bytes. put_fields. Qed.
Lemma ImAuthRequest_written m out : ImAuthRequest_Serialize m out = out ++ auth_req_bytes m.
Proof. unfold ImAuthRequest_Serialize, auth_req_bytes. put_fields. Qed.
Lemma ImAuthResponse_written m out : ImAuthResponse_Serialize m out = out ++ auth_rep_bytes m.
Proof. unfold ImAuthResponse_Serialize, auth_rep_bytes. put_fields. Qed.
End written.

(** ** Sizes *)
Section sizes.
Context {HW : Wire}.

Lemma short_app a b : short (a ++ b) ↔ short a ∧ short b ∧ short (a ++ b).
Proof. unfold short. rewrite length_app. lia. Qed.

Lemma short_field {A} (o : option A) t val a : short (field_bytes o t val) → o = Some a → short (val a).
Proof. unfold short. intros H ->. cbn [field_bytes] in H. rewrite length_app in H. lia. Qed.

Lemma short_delim bs : short (delim bs) → short bs.
Proof. unfold short, delim. rewrite length_app. lia. Qed.

Lemma size_field {A} (o : option A) t f val :
  0 < t < 128 → (∀ a, o = Some a → f a = Z.of_nat (length (val a))) →
  size_of o (λ a, 1 + f a) = Z.of_nat (length (field_bytes o t val)).
Proof.
  intros Ht Hf. destruct o as [a|]; cbn [size_of field_bytes]; [|done].
  rewrite length_app, (tag_is_byte t) by done. rewrite Hf by done. lia.
Qed.

Lemma size_int32 (o : option Z) t :
  0 < t < 128 → opt_all is_int32 o = true →
  size_of o (λ v, 1 + Int32Size v) = Z.of_nat (length (field_bytes o t int32_bytes)).
Proof. intros Ht Ho. apply size_field; [done|]. intros v ->. by apply Int32Size_spec. Qed.

Lemma size_enum (o : option Z) t valid :
  0 < t < 128 → (∀ v, valid v = true → is_int32 v = true) → opt_all valid o = true →
  size_of o (λ v, 1 + EnumSize v) = Z.of_nat (length (field_bytes o t int32_bytes)).
Proof. intros Ht Hv Ho. apply size_field; [done|]. intros v ->. apply EnumSize_spec. by apply Hv. Qed.

Lemma LengthDelimited_delim n bs : short bs → n = Z.of_nat (length bs) → LengthDelimitedSize n = Z.of_nat (length (delim bs)).
Proof. unfold short. intros Hs ->. rewrite LengthDelimitedSize_spec by lia. unfold delim. rewrite length_app. lia. Qed.

Lemma size_bytes (o : option cstr) t :
  0 < t < 128 → short (field_bytes o t delim) →
  size_of o (λ v, 1 + BytesSize v) = Z.of_nat (length (field_bytes o t delim)).
Proof.
  intros Ht Hs. apply size_field; [done|]. intros bs Ho. apply LengthDelimited_delim; [|done].
  apply short_delim. by eapply short_field.
Qed.

Lemma size_message {A} (o : option A) t f bytes :
  0 < t < 128 → (∀ a, o = Some a → short (bytes a) → f a = Z.of_nat (length (bytes a))) →
  short (field_bytes o t (delim ∘ bytes)) →
  size_of o (λ a, 1 + LengthDelimitedSize (f a)) = Z.of_nat (length (field_bytes o t (delim ∘ bytes))).
Proof.
  intros Ht Hf Hs. apply (size_field o t (λ a, LengthDelimitedSize (f a))); [done|]. intros a Ho.
  assert (short (bytes a)) as Hb by (apply short_delim; by apply (short_field o t (delim ∘ bytes))).
  apply LengthDelimited_delim; [done|]. by apply Hf.
Qed.

Lemma size_targets vs :
  forallb is_int32 vs = true →
  1 * Z.of_nat (length vs) + foldl (λ data_size v, data_size + Int32Size v) 0 vs = Z.of_nat (length (targets_bytes vs)).
Proof.
  intros Hvs. assert (∀ acc, 1 * Z.of_nat (length vs) + foldl (λ data_size v, data_size + Int32Size v) acc vs =
    acc + Z.of_nat (length (targets_bytes vs))) as H; [|by rewrite H].
  induction vs as [|v vs IH]; intros acc; [cbn; lia|]. cbn [forallb] in Hvs. apply andb_true_iff in Hvs as [Hv Hvs].
  cbn [foldl length]. unfold targets_bytes in *. rewrite fmap_cons. cbn [mjoin list_join].
  rewrite !length_app, (tag_is_byte 24) by lia. specialize (IH Hvs (acc + Int32Size v)).
  rewrite Int32Size_spec in IH |- * by done. unfold fmap, mjoin in *. lia.
Qed.

Lemma logic_type_int32 v : ImMsgLogicType_IsValid v = true → is_int32 v = true.
Proof. destruct v as [|[[]|[]|]|]; try done. Qed.
Lemma pack_type_int32 v : ImPackType_IsValid v = true → is_int32 v = true.
Proof. destruct v as [|[[[]|[]|]|[[]|[]|]|]|]; try done. Qed.

Lemma unknown_size u : ComputeUnknownFieldsSize u = Z.of_nat (length (unknown_bytes u)).
Proof. apply ComputeUnknownFieldsSize_spec. Qed.
End sizes.

Ltac split_short :=
  repeat match goal with
  | H : short (_ ++ _) |- _ => apply short_app in H as (? & ? & _)
  | H : _ && _ = true |- _ => apply andb_true_iff in H as [? ?]
  end.

Section message_sizes.
Context {HW : Wire}.

Lemma ImTouch_size m : touch_typed m = true → short (touch_bytes m) → ImTouch_ByteSize m = Z.of_nat (length (touch_bytes m)).
Proof.
  unfold touch_typed, touch_bytes, ImTouch_ByteSize. intros Ht Hs. split_short.
  by rewrite length_app, (size_int32 _ (MakeTag 1 0)), unknown_size, Nat2Z.inj_add by done.
Qed.
Lemma ImTouchResponse_size m :
  touch_rep_typed m = true → short (touch_rep_bytes m) → ImTouchResponse_ByteSize m = Z.of_nat (length (touch_rep_bytes m)).
Proof.
  unfold touch_rep_typed, touch_rep_bytes, ImTouchResponse_ByteSize. intros Ht Hs. split_short.
  by rewrite length_app, (size_int32 _ (MakeTag 1 0)), unknown_size, Nat2Z.inj_add by done.
Qed.
Lemma ImMsg_size m : msg_typed m = true → short (msg_bytes m) → ImMsg_ByteSize m = Z.of_nat (length (msg_bytes m)).
Proof.
  unfold msg_typed, msg_bytes, ImMsg_ByteSize. intros Ht Hs. split_short.
  rewrite !length_app, (size_int32 (im_uid m) (MakeTag 1 0)), (size_int32 (im_seq m) (MakeTag 2 0)),
    (size_enum (im_type m) (MakeTag 4 0) ImMsgLogicType_IsValid), (size_bytes (im_msg_id m) (MakeTag 5 2)),
    (size_int32 (im_timeout m) (MakeTag 7 0)), (size_bytes (im_text_content m) (MakeTag 8 2)),
    (size_bytes (im_pic_id m) (MakeTag 9 2)), (size_bytes (im_vid_id m) (MakeTag 10 2)),
    (size_bytes (im_loc_word m) (MakeTag 11 2)), (size_field (im_points m) (MakeTag 6 5) (λ _, 4) fixed32),
    size_targets, unknown_size by (done || apply logic_type_int32 || (intros; by rewrite fixed32_size)).
  lia.
Qed.
Lemma ImMsgAck_size m : ack_typed m = true → short (ack_bytes m) → ImMsgAck_ByteSize m = Z.of_nat (length (ack_bytes m)).
Proof.
  unfold ack_typed, ack_bytes, ImMsgAck_ByteSize. intros Ht Hs. split_short.
  rewrite !length_app, (size_bytes _ (MakeTag 1 2)), (size_int32 _ (MakeTag 2 0)), unknown_size by done. lia.
Qed.
Lemma ImAuthRequest_size m :
  auth_req_typed m = true → short (auth_req_bytes m) → ImAuthRequest_ByteSize m = Z.of_nat (length (auth_req_bytes m)).
Proof.
  unfold auth_req_typed, auth_req_bytes, ImAuthRequest_ByteSize. intros Ht Hs. split_short.
  rewrite !length_app, (size_bytes _ (MakeTag 2 2)), (size_int32 _ (MakeTag 1 0)), unknown_size by done. lia.
Qed.
Lemma ImAuthResponse_size m : short (auth_rep_bytes m) → ImAuthResponse_ByteSize m = Z.of_nat (length (auth_rep_bytes m)).
Proof.
  unfold auth_rep_bytes, ImAuthResponse_ByteSize. intros Hs. split_short.
  rewrite !length_app, (size_bytes _ (MakeTag 1 2)), (size_field _ (MakeTag 2 0) (λ _, 1) bool_bytes), unknown_size
    by (done || (intros; unfold bool_bytes; by rewrite bool_size)). lia.
Qed.

(** The sizes that ByteSize caches are those of the nested messages. *)
Definition cached_ok (cs : cached) (c : ImPackContent) : Prop :=
  (∀ x, c_touch c = Some x → cs_touch cs = Z.of_nat (length (touch_bytes x))) ∧
  (∀ x, c_touch_rep c = Some x → cs_touch_rep cs = Z.of_nat (length (touch_rep_bytes x))) ∧
  (∀ x, c_msg c = Some x → cs_msg cs = Z.of_nat (length (msg_bytes x))) ∧
  (∀ x, c_msg_ack c = Some x → cs_msg_ack cs = Z.of_nat (length (ack_bytes x))) ∧
  (∀ x, c_auth_req c = Some x → cs_auth_req cs = Z.of_nat (length (auth_req_bytes x))) ∧
  (∀ x, c_auth_rep c = Some x → cs_auth_rep cs = Z.of_nat (length (auth_rep_bytes x))).

Lemma opt_all_Some {A} (f : A → bool) o a : opt_all f o = true → o = Some a → f a = true.
Proof. by intros H ->. Qed.

(** What is written, whatever the caches hold. *)
Definition content_serialized (cs : cached) m : list Z :=
  field_bytes (c_touch m) (MakeTag 1 2) (λ x, varint (cs_touch cs) ++ touch_bytes x) ++
  field_bytes (c_touch_rep m) (MakeTag 2 2) (λ x, varint (cs_touch_rep cs) ++ touch_rep_bytes x) ++
  field_bytes (c_msg m) (MakeTag 3 2) (λ x, varint (cs_msg cs) ++ msg_bytes x) ++
  field_bytes (c_msg_ack m) (MakeTag 4 2) (λ x, varint (cs_msg_ack cs) ++ ack_bytes x) ++
  field_bytes (c_auth_req m) (MakeTag 5 2) (λ x, varint (cs_auth_req cs) ++ auth_req_bytes x) ++
  field_bytes (c_auth_rep m) (MakeTag 6 2) (λ x, varint (cs_auth_rep cs) ++ auth_rep_bytes x) ++ unknown_bytes (c_unknown m).

Lemma ImPackContent_serialized cs m out : ImPackContent_Serialize cs m out = out ++ content_serialized cs m.
Proof.
  unfold ImPackContent_Serialize, content_serialized.
  rewrite (put_message _ 1 _ _ touch_bytes) by apply ImTouch_written.
  rewrite (put_message _ 2 _ _ touch_rep_bytes) by apply ImTouchResponse_written.
  rewrite (put_message _ 3 _ _ msg_bytes) by apply ImMsg_written.
  rewrite (put_message _ 4 _ _ ack_bytes) by apply ImMsgAck_written.
  rewrite (put_message _ 5 _ _ auth_req_bytes) by apply ImAuthRequest_written.
  rewrite (put_message _ 6 _ _ auth_rep_bytes) by apply ImAuthResponse_written.
  unfold SerializeUnknownFields. by rewrite <-!app_assoc.
Qed.

Lemma content_serialized_ok cs m : cached_ok cs m → content_serialized cs m = content_bytes m.
Proof.
  intros (H1 & H2 & H3 & H4 & H5 & H6). unfold content_serialized, content_bytes.
  by rewrite (field_delim _ _ _ _ H1), (field_delim _ _ _ _ H2), (field_delim _ _ _ _ H3), (field_delim _ _ _ _ H4),
    (field_delim _ _ _ _ H5), (field_delim _ _ _ _ H6).
Qed.

Lemma short_sub {A} (o : option A) t size bytes a :
  short (field_bytes o t (λ a, varint size ++ bytes a)) → o = Some a → short (bytes a).
Proof. intros H E. apply (short_field o t _ a) in H as Hs; [|done]. by apply short_app in Hs as (_ & ? & _). Qed.

(** ByteSize caches the right sizes if what is then written is not too long. *)
Lemma cached_right cs cs' m :
  content_typed m = true → short (content_serialized cs' m) → cached_ok (ImPackContent_ByteSize cs m).2 m.
Proof.
  unfold content_typed, content_serialized. intros Ht Hs. split_short.
  unfold cached_ok. cbn [ImPackContent_ByteSize snd cs_touch cs_touch_rep cs_msg cs_msg_ack cs_auth_req cs_auth_rep].
  split_and!; intros x E; rewrite E; cbn [cache];
    [apply ImTouch_size|apply ImTouchResponse_size|apply ImMsg_size|apply ImMsgAck_size|apply ImAuthRequest_size|apply ImAuthResponse_size];
    eauto using opt_all_Some, short_sub.
Qed.

Lemma ImPackContent_size cs m :
  content_typed m = true → short (content_bytes m) →
  (ImPackContent_ByteSize cs m).1 = Z.of_nat (length (content_bytes m)) ∧ cached_ok (ImPackContent_ByteSize cs m).2 m.
Proof.
  unfold content_typed, content_bytes. intros Ht Hs. split_short.
  assert (∀ {A} (o : option A) t bytes a, short (field_bytes o t (delim ∘ bytes)) → o = Some a → short (bytes a)) as Hsub
    by (intros A o t bytes a Ho E; apply short_delim; by apply (short_field o t (delim ∘ bytes))).
  split.
  - cbn [ImPackContent_ByteSize fst]. rewrite !length_app.
    rewrite (size_message _ (MakeTag 1 2) ImTouch_ByteSize touch_bytes), (size_message _ (MakeTag 2 2) ImTouchResponse_ByteSize touch_rep_bytes),
      (size_message _ (MakeTag 3 2) ImMsg_ByteSize msg_bytes), (size_message _ (MakeTag 4 2) ImMsgAck_ByteSize ack_bytes),
      (size_message _ (MakeTag 5 2) ImAuthRequest_ByteSize auth_req_bytes), (size_message _ (MakeTag 6 2) ImAuthResponse_ByteSize auth_rep_bytes),
      unknown_size by
      (done || (intros; first [apply ImTouch_size|apply ImTouchResponse_size|apply ImMsg_size|apply ImMsgAck_size
                              |apply ImAuthRequest_size|apply ImAuthResponse_size]; by eauto using opt_all_Some)).
    lia.
  - unfold cached_ok. cbn [ImPackContent_ByteSize snd cs_touch cs_touch_rep cs_msg cs_msg_ack cs_auth_req cs_auth_rep].
    split_and!; intros x E; rewrite E; cbn [cache];
      [apply ImTouch_size|apply ImTouchResponse_size|apply ImMsg_size|apply ImMsgAck_size|apply ImAuthRequest_size|apply ImAuthResponse_size];
      eauto using opt_all_Some.
Qed.

Lemma ImPackContent_written cs m out : cached_ok cs m → ImPackContent_Serialize cs m out = out ++ content_bytes m.
Proof. intros H. by rewrite ImPackContent_serialized, content_serialized_ok. Qed.

Lemma ImPack_size_written cs m :
  pack_typed m = true → short (pack_bytes m) →
  (ImPack_ByteSize cs m).1 = Z.of_nat (length (pack_bytes m)) ∧
  ImPack_Serialize (ImPack_ByteSize cs m).2 m [] = pack_bytes m.
Proof.
  unfold pack_typed, pack_bytes. intros Ht Hs. split_short. unfold ImPack_ByteSize, ImPack_Serialize.
  rewrite (size_enum (p_type m) (MakeTag 1 0) ImPackType_IsValid), (size_int32 (p_ts m) (MakeTag 3 0)), unknown_size
    by (done || apply pack_type_int32).
  rewrite !(put_bytes _ _ _ int32_bytes) by (intros; reflexivity). rewrite !length_app.
  destruct (p_content m) as [c|] eqn:Ec; cbn [put]; [|cbn [fst snd field_bytes length app]; split; [lia|unfold SerializeUnknownFields; by rewrite <-!app_assoc]].
  assert (short (content_bytes c)) as Hc
    by (apply short_delim; by apply (short_field (Some c) (MakeTag 2 2) (delim ∘ content_bytes))).
  destruct (ImPackContent_size cs c) as [Hn Hok]; [done..|].
  destruct (ImPackContent_ByteSize cs c) as [n cs'] eqn:E. cbn [fst snd] in *. subst n.
  split.
  - rewrite (LengthDelimited_delim _ (content_bytes c)) by done. cbn [field_bytes compose].
    rewrite length_app, (tag_is_byte (MakeTag 2 2)) by done. lia.
  - unfold WriteMessage, SerializeUnknownFields. cbn [cs_content]. rewrite ImPackContent_written by exact Hok.
    cbn [field_bytes compose]. unfold delim. by rewrite <-!app_assoc.
Qed.

(** What is written is as long as it should be, so it is not too long by a wrong size. *)
Lemma short_serialized m : pack_typed m = true → short (SerializeToArray m) → short (pack_bytes m).
Proof.
  intros Ht. unfold SerializeToArray. destruct (ImPack_ByteSize cached_new m) as [n cs] eqn:E.
  revert E. unfold ImPack_ByteSize, ImPack_Serialize, pack_typed in *. split_short.
  rewrite !(put_bytes _ _ _ int32_bytes) by (intros; reflexivity). unfold pack_bytes, SerializeUnknownFields.
  destruct (p_content m) as [c|] eqn:Ec; cbn [put]; [|by rewrite <-!app_assoc].
  destruct (ImPackContent_ByteSize cached_new c) as [n' cs'] eqn:Es. intros [= _ <-] Hs.
  unfold WriteMessage in Hs. rewrite ImPackContent_serialized in Hs. cbn [cs_content] in Hs.
  set (cs := mkCached _ _ _ _ _ _ _) in Hs.
  assert (content_typed c = true) as Htc by done.
  assert (cached_ok cs c) as Hcs.
  { pose proof (cached_right cached_new cs c Htc) as Hr. rewrite Es in Hr. apply Hr. clear Hr.
    rewrite <-!app_assoc in Hs. split_short. done. }
  rewrite (content_serialized_ok cs c Hcs) in Hs.
  destruct (ImPackContent_size cached_new c Htc) as [Hn _];
    [rewrite <-!app_assoc in Hs; by split_short|]. rewrite Es in Hn. cbn [fst] in Hn. subst n'.
  cbn [field_bytes compose]. unfold delim. rewrite <-!app_assoc in Hs. rewrite <-?app_assoc. exact Hs.
Qed.
End message_sizes.

(** ** What is parsed *)
Section parsed.
Context {HW : Wire}.

(** Whether a tag is known depends on the tag only. *)
Definition by_tag {M} (sw : switch M) : Prop :=
  ∀ t m s, sc_field sw t m s = Uninterpreted → ∀ m' s', sc_field sw t m' s' = Uninterpreted.

Lemma read_as_inv {M A} t ty (rd : option (A * list Z)) (set : A → M) m s :
  read_as t ty rd set = Field m s → ∃ a, rd = Some (a, s) ∧ m = set a.
Proof.
  unfold read_as. destruct (_ =? _); [|done]. destruct rd as [[a s1]|]; [|done]. intros [= <- <-]. by exists a.
Qed.

Lemma read_as_other {M A B} t ty (rd : option (A * list Z)) (set : A → M) (rd' : option (B * list Z)) (set' : B → M) :
  read_as t ty rd set = Uninterpreted → read_as t ty rd' set' = Uninterpreted.
Proof. unfold read_as. destruct (_ =? _); [|done]. by destruct rd as [[]|]. Qed.

Lemma take_field_inv {M} (sw : switch M) t m s m' s' :
  by_tag sw → 0 < t < 2 ^ 32 → take_field sw t m s = Field m' s' →
  sc_field sw t m s = Field m' s' ∨ ∃ v, m' = sc_keep sw t v m ∧ kept sw (t, v).
Proof.
  intros Hb Ht. unfold take_field. destruct (sc_field sw t m s) as [| |m1 s1] eqn:E; [|done|by left].
  destruct (Z.eqb_spec (GetTagWireType t) WIRETYPE_END_GROUP) as [|Hw]; [done|].
  destruct (SkipField t s) as [[v s1]|] eqn:Es; [|done]. intros [= <- <-]. right. exists v. split; [done|].
  eapply skipped_kept; [done| |done|exact Es]. intros m2 s2. by eapply Hb.
Qed.

(** A known value of an enumeration field is set, another kept aside. *)
Lemma enum_kept {M} (sw : switch M) n v :
  0 < MakeTag n 0 < 2 ^ 32 →
  (∀ m s, sc_field sw (MakeTag n 0) m (varint (u64 v) ++ s) = Field (sc_keep sw (MakeTag n 0) (varint (u64 v)) m) s) →
  Forall (kept sw) (AddVarint n v).
Proof. intros Ht H. apply Forall_singleton. split; [done|]. intros m s. unfold take_field. cbn [fst snd]. by rewrite H. Qed.

Definition ImTouch_ok m : Prop := touch_typed m = true ∧ Forall (kept ImTouch_switch) (touch_unknown m).
Definition ImTouchResponse_ok m : Prop := touch_rep_typed m = true ∧ Forall (kept ImTouchResponse_switch) (touch_rep_unknown m).
Definition ImMsg_ok m : Prop := msg_typed m = true ∧ Forall (kept ImMsg_switch) (im_unknown m).
Definition ImMsgAck_ok m : Prop := ack_typed m = true ∧ Forall (kept ImMsgAck_switch) (ack_unknown m).
Definition ImAuthRequest_ok m : Prop := auth_req_typed m = true ∧ Forall (kept ImAuthRequest_switch) (auth_unknown m).
Definition ImAuthResponse_ok m : Prop := Forall (kept ImAuthResponse_switch) (rep_unknown m).
Definition opt_ok {A} (P : A → Prop) (o : option A) : Prop := ∀ a, o = Some a → P a.
Record ImPackContent_ok (m : ImPackContent) : Prop := {
  ok_touch : opt_ok ImTouch_ok (c_touch m);
  ok_touch_rep : opt_ok ImTouchResponse_ok (c_touch_rep m);
  ok_msg : opt_ok ImMsg_ok (c_msg m);
  ok_ack : opt_ok ImMsgAck_ok (c_msg_ack m);
  ok_auth_req : opt_ok ImAuthRequest_ok (c_auth_req m);
  ok_auth_rep : opt_ok ImAuthResponse_ok (c_auth_rep m);
  ok_content_unknown : Forall (kept ImPackContent_switch) (c_unknown m) }.
Record ImPack_ok (m : ImPack) : Prop := {
  ok_type : opt_all ImPackType_IsValid (p_type m) = true;
  ok_content : opt_ok ImPackContent_ok (p_content m);
  ok_ts : opt_all is_int32 (p_ts m) = true;
  ok_pack_unknown : Forall (kept ImPack_switch) (p_unknown m) }.

Lemma content_ok_typed m : ImPackContent_ok m → content_typed m = true.
Proof.
  assert (∀ {A} (o : option A) P f, opt_ok P o → (∀ a, P a → f a = true) → opt_all f o = true) as H
    by (intros A [a|] P f Ho Hf; [by apply Hf, Ho|done]).
  intros [H1 H2 H3 H4 H5 H6 _]. unfold content_typed.
  rewrite (H _ _ _ touch_typed H1), (H _ _ _ touch_rep_typed H2), (H _ _ _ msg_typed H3), (H _ _ _ ack_typed H4),
    (H _ _ _ auth_req_typed H5); try done; by intros a [].
Qed.

Lemma pack_ok_typed m : ImPack_ok m → pack_typed m = true.
Proof.
  intros [H1 H2 H3 _]. unfold pack_typed. rewrite H1, H3. destruct (p_content m) as [c|]; cbn [opt_all andb]; [|done].
  by rewrite content_ok_typed by (by apply H2).
Qed.
End parsed.

Ltac show_switch :=
  cbn [sc_field ImTouch_switch ImTouchResponse_switch ImMsg_switch ImMsgAck_switch ImAuthRequest_switch
       ImAuthResponse_switch ImPackContent_switch ImPack_switch].

Ltac by_tags :=
  intros t m s H m' s'; revert H; show_switch; repeat case_match; try done; apply read_as_other.

(** The cases of a field that was read. *)
Ltac field_cases H :=
  revert H; show_switch; intros H; repeat case_match; try done; apply read_as_inv in H as (? & H & ?).

Ltac consume :=
  intros t m s m' s' H; field_cases H;
  first [ by apply ReadInt32_inv in H as [_ ?] | by apply ReadEnum_inv in H as [_ ?] | by apply ReadBool_inv in H
        | by apply ReadFloat_inv in H as [_ ?] | by apply ReadBytes_inv in H | by apply ReadRepeatedInt32_inv in H as [_ ?]
        | by apply ReadPackedInt32_inv in H as [_ ?] | by apply ReadMessage_inv in H as [? _] ].

Section parsed_messages.
Context {HW : Wire}.

Lemma ImTouch_by_tag : by_tag ImTouch_switch. Proof. by_tags. Qed.
Lemma ImTouchResponse_by_tag : by_tag ImTouchResponse_switch. Proof. by_tags. Qed.
Lemma ImMsg_by_tag : by_tag ImMsg_switch. Proof. by_tags. Qed.
Lemma ImMsgAck_by_tag : by_tag ImMsgAck_switch. Proof. by_tags. Qed.
Lemma ImAuthRequest_by_tag : by_tag ImAuthRequest_switch. Proof. by_tags. Qed.
Lemma ImAuthResponse_by_tag : by_tag ImAuthResponse_switch. Proof. by_tags. Qed.
Lemma ImPackContent_by_tag : by_tag ImPackContent_switch. Proof. by_tags. Qed.
Lemma ImPack_by_tag : by_tag ImPack_switch. Proof. by_tags. Qed.

Lemma ImTouch_consumes : consumes ImTouch_switch. Proof. consume. Qed.
Lemma ImTouchResponse_consumes : consumes ImTouchResponse_switch. Proof. consume. Qed.
Lemma ImMsg_consumes : consumes ImMsg_switch. Proof. consume. Qed.
Lemma ImMsgAck_consumes : consumes ImMsgAck_switch. Proof. consume. Qed.
Lemma ImAuthRequest_consumes : consumes ImAuthRequest_switch. Proof. consume. Qed.
Lemma ImAuthResponse_consumes : consumes ImAuthResponse_switch. Proof. consume. Qed.
Lemma ImPackContent_consumes : consumes ImPackContent_switch. Proof. consume. Qed.
Lemma ImPack_consumes : consumes ImPack_switch. Proof. consume. Qed.
End parsed_messages.

(** ** Parsing gives well-typed messages *)
Ltac eval_tags :=
  repeat match goal with
  | |- context [GetTagFieldNumber (MakeTag ?a ?b)] =>
      let v := eval vm_compute in (GetTagFieldNumber (MakeTag a b)) in change (GetTagFieldNumber (MakeTag a b)) with v
  | |- context [GetTagWireType (MakeTag ?a ?b)] =>
      let v := eval vm_compute in (GetTagWireType (MakeTag a b)) in change (GetTagWireType (MakeTag a b)) with v
  end; cbv iota beta.

Ltac show_field := show_switch; unfold read_as; eval_tags.

Section parsed_ok.
Context {HW : Wire}.

Lemma merged_ok {M} (sw : switch M) (P : M → Prop) m s m' b :
  consumes sw → by_tag sw →
  (∀ t m s m' s', 0 < t < 2 ^ 32 → P m → sc_field sw t m s = Field m' s' → P m') →
  (∀ t v m, P m → kept sw (t, v) → P (sc_keep sw t v m)) →
  P m → merge_from sw m s = Some (m', b) → P m'.
Proof.
  intros Hc Hb Hf Hk. apply merge_from_keeps; [done|]. intros t m1 s1 m2 s2 Ht Hm H.
  apply take_field_inv in H as [H|(v & -> & Hv)]; eauto.
Qed.

Lemma kept_snoc {M} (sw : switch M) u t v : Forall (kept sw) u → kept sw (t, v) → Forall (kept sw) (u ++ [(t, v)]).
Proof. intros Hu Hv. apply Forall_app. split; [done|]. by apply Forall_singleton. Qed.

Lemma ImTouch_parsed m s m' b : ImTouch_ok m → merge_from ImTouch_switch m s = Some (m', b) → ImTouch_ok m'.
Proof.
  apply merged_ok; [apply ImTouch_consumes|apply ImTouch_by_tag| |].
  - intros t m1 s1 m2 s2 Ht [Hm Hu] H. field_cases H. subst. apply ReadInt32_inv in H as [? _]. by split.
  - intros t v m1 [Hm Hu] Hk. split; [done|]. by apply kept_snoc.
Qed.
Lemma ImTouchResponse_parsed m s m' b :
  ImTouchResponse_ok m → merge_from ImTouchResponse_switch m s = Some (m', b) → ImTouchResponse_ok m'.
Proof.
  apply merged_ok; [apply ImTouchResponse_consumes|apply ImTouchResponse_by_tag| |].
  - intros t m1 s1 m2 s2 Ht [Hm Hu] H. field_cases H. subst. apply ReadInt32_inv in H as [? _]. by split.
  - intros t v m1 [Hm Hu] Hk. split; [done|]. by apply kept_snoc.
Qed.
Lemma ImMsgAck_parsed m s m' b : ImMsgAck_ok m → merge_from ImMsgAck_switch m s = Some (m', b) → ImMsgAck_ok m'.
Proof.
  apply merged_ok; [apply ImMsgAck_consumes|apply ImMsgAck_by_tag| |].
  - intros t m1 s1 m2 s2 Ht [Hm Hu] H. field_cases H; subst; [|by split]. apply ReadInt32_inv in H as [? _]. by split.
  - intros t v m1 [Hm Hu] Hk. split; [done|]. by apply kept_snoc.
Qed.
Lemma ImAuthRequest_parsed m s m' b : ImAuthRequest_ok m → merge_from ImAuthRequest_switch m s = Some (m', b) → ImAuthRequest_ok m'.
Proof.
  apply merged_ok; [apply ImAuthRequest_consumes|apply ImAuthRequest_by_tag| |].
  - intros t m1 s1 m2 s2 Ht [Hm Hu] H. field_cases H; subst; [by split|]. apply ReadInt32_inv in H as [? _]. by split.
  - intros t v m1 [Hm Hu] Hk. split; [done|]. by apply kept_snoc.
Qed.
Lemma ImAuthResponse_parsed m s m' b : ImAuthResponse_ok m → merge_from ImAuthResponse_switch m s = Some (m', b) → ImAuthResponse_ok m'.
Proof.
  apply merged_ok; [apply ImAuthResponse_consumes|apply ImAuthResponse_by_tag| |].
  - intros t m1 s1 m2 s2 Ht Hu H. field_cases H; by subst.
  - intros t v m1 Hu Hk. by apply kept_snoc.
Qed.

Lemma logic_type_kept v :
  is_int32 v = true → ImMsgLogicType_IsValid v = false → Forall (kept ImMsg_switch) (AddVarint 4 v).
Proof.
  intros Hv Hn. apply enum_kept; [done|]. intros m s. show_field. by rewrite ReadEnum_varint, Hn.
Qed.
Lemma pack_type_kept v : is_int32 v = true → ImPackType_IsValid v = false → Forall (kept ImPack_switch) (AddVarint 1 v).
Proof.
  intros Hv Hn. apply enum_kept; [done|]. intros m s. show_field. by rewrite ReadEnum_varint, Hn.
Qed.

Lemma msg_typed_iff m : msg_typed m = true ↔
  opt_all is_int32 (im_uid m) = true ∧ opt_all is_int32 (im_seq m) = true ∧ forallb is_int32 (im_target_uid m) = true ∧
  opt_all ImMsgLogicType_IsValid (im_type m) = true ∧ opt_all is_uint32 (im_points m) = true ∧
  opt_all is_int32 (im_timeout m) = true.
Proof. unfold msg_typed. rewrite !andb_true_iff. tauto. Qed.

Lemma forallb_Forall' (vs : list Z) : Forall (λ v, is_int32 v = true) vs ↔ forallb is_int32 vs = true.
Proof. rewrite forallb_forall, Forall_forall. split; intros H x Hx; apply H; by apply list_elem_of_In. Qed.

Lemma ImMsg_parsed m s m' b : ImMsg_ok m → merge_from ImMsg_switch m s = Some (m', b) → ImMsg_ok m'.
Proof.
  apply merged_ok; [apply ImMsg_consumes|apply ImMsg_by_tag| |].
  - intros t m1 s1 m2 s2 Ht [Hm Hu] H. apply msg_typed_iff in Hm as (H1 & H2 & H3 & H4 & H5 & H6).
    assert (∀ vs, Forall (λ v, is_int32 v = true) vs → ImMsg_ok (im_set_target_uid (im_target_uid m1 ++ vs) m1)) as Htu.
    { intros vs Hvs. split; [|done]. apply msg_typed_iff. split_and!; try done.
      cbn [im_target_uid im_set_target_uid]. rewrite forallb_app, H3. by apply forallb_Forall'. }
    field_cases H; subst;
      first [ by apply Htu; apply ReadRepeatedInt32_inv in H as [? _]
            | by apply Htu; apply ReadPackedInt32_inv in H as [? _]
            | apply ReadInt32_inv in H as [? _] | apply ReadEnum_inv in H as [? _] | apply ReadFloat_inv in H as [? _]
            | apply ReadBytes_inv in H as _ ];
      try (split; [apply msg_typed_iff; by split_and!|done]).
    destruct (ImMsgLogicType_IsValid _) eqn:Ev.
    + split; [apply msg_typed_iff; by split_and!|done].
    + split; [apply msg_typed_iff; by split_and!|]. apply Forall_app. split; [done|]. by apply logic_type_kept.
  - intros t v m1 [Hm Hu] Hk. split; [done|]. by apply kept_snoc.
Qed.

Lemma default_ok {A} (P : A → Prop) e o : P e → opt_ok P o → P (default e o).
Proof. intros He Ho. destruct o; [by apply Ho|done]. Qed.

Lemma read_sub_ok {A} (sw : switch A) (P : A → Prop) e o s a s' :
  (∀ m s m' b, P m → merge_from sw m s = Some (m', b) → P m') → P e → opt_ok P o →
  read_sub sw e o s = Some (a, s') → P a.
Proof.
  intros Hp He Ho H. apply ReadMessage_inv in H as [_ [bs H]]. eapply Hp; [|exact H]. by apply default_ok.
Qed.

Lemma opt_ok_Some {A} (P : A → Prop) a : P a → opt_ok P (Some a).
Proof. by intros H b [= <-]. Qed.

Lemma ImPackContent_parsed m s m' b : ImPackContent_ok m → merge_from ImPackContent_switch m s = Some (m', b) → ImPackContent_ok m'.
Proof.
  apply merged_ok; [apply ImPackContent_consumes|apply ImPackContent_by_tag| |].
  - intros t m1 s1 m2 s2 Ht [H1 H2 H3 H4 H5 H6 H7] H. field_cases H; subst.
    all: first [ eapply (read_sub_ok _ ImTouch_ok) in H; [|apply ImTouch_parsed|by repeat constructor|done]
               | eapply (read_sub_ok _ ImTouchResponse_ok) in H; [|apply ImTouchResponse_parsed|by repeat constructor|done]
               | eapply (read_sub_ok _ ImMsg_ok) in H; [|apply ImMsg_parsed|by repeat constructor|done]
               | eapply (read_sub_ok _ ImMsgAck_ok) in H; [|apply ImMsgAck_parsed|by repeat constructor|done]
               | eapply (read_sub_ok _ ImAuthRequest_ok) in H; [|apply ImAuthRequest_parsed|by repeat constructor|done]
               | eapply (read_sub_ok _ ImAuthResponse_ok) in H; [|apply ImAuthResponse_parsed|by repeat constructor|done] ].
    all: constructor; try done; by apply opt_ok_Some.
  - intros t v m1 [] Hk. constructor; try done. by apply kept_snoc.
Qed.

Lemma ImPack_parsed m s m' b : ImPack_ok m → merge_from ImPack_switch m s = Some (m', b) → ImPack_ok m'.
Proof.
  apply merged_ok; [apply ImPack_consumes|apply ImPack_by_tag| |].
  - intros t m1 s1 m2 s2 Ht [H1 H2 H3 H4] H. field_cases H; subst.
    + apply ReadInt32_inv in H as [? _]. by constructor.
    + eapply (read_sub_ok _ ImPackContent_ok) in H; [|apply ImPackContent_parsed|by repeat constructor|done].
      constructor; try done. by apply opt_ok_Some.
    + apply ReadEnum_inv in H as [? _]. destruct (ImPackType_IsValid _) eqn:Ev; constructor; try done.
      apply Forall_app. split; [done|]. by apply pack_type_kept.
  - intros t v m1 [] Hk. constructor; try done. by apply kept_snoc.
Qed.

Lemma empty_pack_ok : ImPack_ok empty_pack.
Proof. by repeat constructor. Qed.
End parsed_ok.

(** ** Parsing what was written merges it *)
Section reading.
Context {HW : Wire}.

Lemma reads_eq {M} (sw : switch M) m s m1 m2 : reads sw m s m1 → m1 = m2 → reads sw m s m2.
Proof. by intros H <-. Qed.

Lemma reads_unknown_eq {M} (sw : switch M) (add : unknown_fields → M → M) u m m' :
  Forall (kept sw) u → (∀ m, add [] m = m) → (∀ t v u m, add ((t, v) :: u) m = add u (sc_keep sw t v m)) →
  add u m = m' → reads sw m (unknown_bytes u) m'.
Proof.
  intros Hu Hn Hc <-. eapply reads_eq; [by apply reads_unknown|]. clear Hu. revert m.
  induction u as [|[t v] u IH]; intros m; cbn [foldl fst snd]; [by rewrite Hn|]. by rewrite IH, Hc.
Qed.

Lemma reads_int32 {M} (sw : switch M) (o : option Z) t (set : Z → M → M) m s m' :
  0 < t < 2 ^ 32 → opt_all is_int32 o = true →
  (∀ v, is_int32 v = true → sc_field sw t m (varint (u64 v) ++ s) = Field (set v m) s) →
  reads sw (match o with Some v => set v m | None => m end) s m' → reads sw m (field_bytes o t int32_bytes ++ s) m'.
Proof. intros Ht Ho Hf. apply (reads_put sw o t int32_bytes set); [done|]. intros v ->. by apply Hf. Qed.

Lemma reads_bytes {M} (sw : switch M) (o : option cstr) t (set : cstr → M → M) m s m' :
  0 < t < 2 ^ 32 → short (field_bytes o t delim) →
  (∀ v, short v → sc_field sw t m (varint (Z.of_nat (length v)) ++ v ++ s) = Field (set v m) s) →
  reads sw (match o with Some v => set v m | None => m end) s m' → reads sw m (field_bytes o t delim ++ s) m'.
Proof.
  intros Ht Ho Hf. apply (reads_put sw o t delim set); [done|]. intros v E.
  unfold delim. rewrite <-app_assoc. apply Hf. apply short_delim. by eapply short_field.
Qed.

Lemma reads_sub {M A} (sw : switch M) (swA : switch A) (P : A → Prop) (f : option A → M) (o old : option A) t bytes
    merge empty s m' :
  0 < t < 2 ^ 32 → short (field_bytes o t (delim ∘ bytes)) → opt_ok P o → consumes swA →
  (∀ m q, P q → short (bytes q) → reads swA m (bytes q) (merge m q)) →
  (∀ s0 a, read_sub swA empty old s0 = Some (a, s) → sc_field sw t (f old) s0 = Field (f (Some a)) s) →
  reads sw (f (merge_sub merge empty o old)) s m' →
  reads sw (f old) (field_bytes o t (delim ∘ bytes) ++ s) m'.
Proof.
  intros Ht Hs Ho Hc Hr Hf Hn.
  apply (reads_put sw o t (delim ∘ bytes) (λ a _, f (Some (merge (default empty old) a)))); [done| |by destruct o].
  intros a E.
  assert (short (bytes a)) as Ha by (apply short_delim; by apply (short_field o t (delim ∘ bytes))).
  apply Hf. unfold read_sub, delim. cbn [compose]. rewrite <-app_assoc, ReadMessage_delim by done.
  rewrite (reads_merge _ _ _ (merge (default empty old) a)); [done..|]. apply Hr; [by apply Ho|done].
Qed.
End reading.

Ltac read_int32 set :=
  apply (reads_int32 _ _ _ set); [done|first [done|assumption]|intros; show_field; by rewrite ReadInt32_varint|].
Ltac read_bytes set :=
  apply (reads_bytes _ _ _ set); [done|done|intros; show_field; by rewrite ReadBytes_delim|].

Section reading_messages.
Context {HW : Wire}.

Lemma ImTouch_reads m q : ImTouch_ok q → reads ImTouch_switch m (touch_bytes q) (ImTouch_MergeFrom m q).
Proof.
  intros [Ht Hu]. unfold touch_bytes. read_int32 (λ v m, mkTouch (Some v) (touch_unknown m)).
  apply (reads_unknown_eq _ (λ u m, mkTouch (touch_uid m) (touch_unknown m ++ u))); [done| | |].
  - intros [? ?]. by rewrite app_nil_r.
  - intros t v u [? ?]. cbn. by rewrite <-app_assoc.
  - destruct m, q as [[] ?]; done.
Qed.
Lemma ImTouchResponse_reads m q :
  ImTouchResponse_ok q → reads ImTouchResponse_switch m (touch_rep_bytes q) (ImTouchResponse_MergeFrom m q).
Proof.
  intros [Ht Hu]. unfold touch_rep_bytes. read_int32 (λ v m, mkTouchRep (Some v) (touch_rep_unknown m)).
  apply (reads_unknown_eq _ (λ u m, mkTouchRep (touch_rep_uid m) (touch_rep_unknown m ++ u))); [done| | |].
  - intros [? ?]. by rewrite app_nil_r.
  - intros t v u [? ?]. cbn. by rewrite <-app_assoc.
  - destruct m, q as [[] ?]; done.
Qed.
Lemma ImMsgAck_reads m q :
  ImMsgAck_ok q → short (ack_bytes q) → reads ImMsgAck_switch m (ack_bytes q) (ImMsgAck_MergeFrom m q).
Proof.
  intros [Ht Hu] Hs. unfold ack_typed, ack_bytes in *. split_short.
  read_bytes (λ v m, mkAck (Some v) (ack_seq m) (ack_unknown m)).
  read_int32 (λ v m, mkAck (ack_msg_id m) (Some v) (ack_unknown m)).
  apply (reads_unknown_eq _ (λ u m, mkAck (ack_msg_id m) (ack_seq m) (ack_unknown m ++ u))); [done| | |].
  - intros [? ? ?]. by rewrite app_nil_r.
  - intros t v u [? ? ?]. cbn. by rewrite <-app_assoc.
  - destruct m, q as [[] [] ?]; done.
Qed.
Lemma ImAuthRequest_reads m q :
  ImAuthRequest_ok q → short (auth_req_bytes q) → reads ImAuthRequest_switch m (auth_req_bytes q) (ImAuthRequest_MergeFrom m q).
Proof.
  intros [Ht Hu] Hs. unfold auth_req_typed, auth_req_bytes in *. split_short.
  read_int32 (λ v m, mkAuthReq (Some v) (auth_token m) (auth_unknown m)).
  read_bytes (λ v m, mkAuthReq (auth_uid m) (Some v) (auth_unknown m)).
  apply (reads_unknown_eq _ (λ u m, mkAuthReq (auth_uid m) (auth_token m) (auth_unknown m ++ u))); [done| | |].
  - intros [? ? ?]. by rewrite app_nil_r.
  - intros t v u [? ? ?]. cbn. by rewrite <-app_assoc.
  - destruct m, q as [[] [] ?]; done.
Qed.
Lemma ImAuthResponse_reads m q :
  ImAuthResponse_ok q → short (auth_rep_bytes q) → reads ImAuthResponse_switch m (auth_rep_bytes q) (ImAuthResponse_MergeFrom m q).
Proof.
  intros Hu Hs. unfold auth_rep_bytes in *. split_short.
  read_bytes (λ v m, mkAuthRep (Some v) (rep_auth_success m) (rep_unknown m)).
  apply (reads_put _ _ _ bool_bytes (λ v m, mkAuthRep (rep_token m) (Some v) (rep_unknown m))); [done| |].
  { intros b _. show_field. unfold bool_bytes. by rewrite ReadBool_varint. }
  apply (reads_unknown_eq _ (λ u m, mkAuthRep (rep_token m) (rep_auth_success m) (rep_unknown m ++ u))); [done| | |].
  - intros [? ? ?]. by rewrite app_nil_r.
  - intros t v u [? ? ?]. cbn. by rewrite <-app_assoc.
  - destruct m, q as [[] [] ?]; done.
Qed.

(** *** The repeated field *)
Definition no_target (s : list Z) : Prop := ∀ s', ReadTag s ≠ Tag 24 s'.

Lemma no_target_field {A} (o : option A) t val s :
  0 < t < 2 ^ 32 → t ≠ 24 → no_target s → no_target (field_bytes o t val ++ s).
Proof.
  intros Ht Hn Hs s'. destruct o as [a|]; cbn [field_bytes app]; [|apply Hs].
  rewrite <-app_assoc, ReadTag_tag by done. congruence.
Qed.

Lemma no_target_unknown u : Forall (kept ImMsg_switch) u → no_target (unknown_bytes u).
Proof.
  intros [|[t v] u' [Ht Hk] _] s'; [by rewrite ReadTag_end|].
  unfold unknown_bytes. rewrite fmap_cons. cbn [mjoin list_join]. rewrite <-app_assoc, ReadTag_tag by done.
  intros [= -> _]. specialize (Hk empty_msg []). revert Hk. cbn [fst snd]. unfold take_field. show_switch.
  change (GetTagFieldNumber 24) with 3. change (GetTagWireType 24) with 0. cbn [Z.eqb WIRETYPE_VARINT].
  unfold read_as. change (GetTagWireType 24) with 0. cbn [Z.eqb WIRETYPE_VARINT].
  by destruct (ReadRepeatedInt32 24 (v ++ [])) as [[vs s1]|].
Qed.

Lemma reads_targets vs m s m' :
  forallb is_int32 vs = true → no_target s →
  reads ImMsg_switch (im_set_target_uid (im_target_uid m ++ vs) m) s m' → reads ImMsg_switch m (targets_bytes vs ++ s) m'.
Proof.
  intros Hvs Hs. apply forallb_Forall' in Hvs. remember (length vs) as n eqn:En. revert vs m En Hvs.
  induction n as [n IH] using lt_wf_ind. intros [|v vs] m -> Hvs Hr.
  - revert Hr. rewrite app_nil_r. by destruct m.
  - apply Forall_cons in Hvs as [Hv Hvs]. unfold targets_bytes. rewrite fmap_cons. cbn [mjoin list_join]. rewrite <-!app_assoc.
    destruct (ReadRepeatedInt32_varints 24 v vs s) as [k Hk]; [lia|done..|].
    eapply (reads_field _ _ _ _ (im_set_target_uid (im_target_uid m ++ v :: take k vs) m)); [lia| |].
    + unfold take_field. show_switch. unfold read_as. change (GetTagFieldNumber 24) with 3. change (GetTagWireType 24) with 0.
      cbn [Z.eqb WIRETYPE_VARINT]. unfold fmap, mjoin in Hk |- *. by rewrite Hk.
    + apply (IH (length (drop k vs))); [rewrite length_drop; cbn [length]; lia|done|by apply Forall_drop|].
      cbn [im_set_target_uid im_target_uid]. rewrite <-app_assoc. cbn [app]. by rewrite take_drop.
Qed.

(** A setter that is applied when the field is set. *)
Lemma opt_set {A M} (o : option A) (set : A → M → M) m (f : option A → M) old :
  m = f old → (∀ a, set a m = f (Some a)) → match o with Some a => set a m | None => m end = f (or_old o old).
Proof. intros H1 H2. by destruct o; cbn [or_old]. Qed.

Lemma ImMsg_reads m q : ImMsg_ok q → short (msg_bytes q) → reads ImMsg_switch m (msg_bytes q) (ImMsg_MergeFrom m q).
Proof.
  intros [Hm Hu] Hs. apply msg_typed_iff in Hm as (H1 & H2 & H3 & H4 & H5 & H6). unfold msg_bytes in *.
  pose proof (no_target_unknown _ Hu). split_short. destruct m as [m1 m2 m3 m4 m5 m6 m7 m8 m9 m10 m11 m12].
  read_int32 im_set_uid. rewrite (opt_set (im_uid q) _ _ (λ o, mkImMsg o m2 m3 m4 m5 m6 m7 m8 m9 m10 m11 m12) m1) by done.
  read_int32 im_set_seq. rewrite (opt_set (im_seq q) _ _ (λ o, mkImMsg _ o m3 m4 m5 m6 m7 m8 m9 m10 m11 m12) m2) by done.
  apply reads_targets; [done|by repeat (apply no_target_field; [done..|])|]. cbn [im_set_target_uid im_target_uid im_uid im_seq
    im_type im_msg_id im_points im_timeout im_text_content im_pic_id im_vid_id im_loc_word im_unknown].
  apply (reads_put _ _ _ int32_bytes im_set_type); [done| |].
  { intros v E. rewrite E in H4. show_field. unfold int32_bytes. rewrite ReadEnum_varint by (by apply logic_type_int32).
    cbn [opt_all] in H4. by rewrite H4. }
  rewrite (opt_set (im_type q) _ _ (λ o, mkImMsg _ _ _ o m5 m6 m7 m8 m9 m10 m11 m12) m4) by done.
  read_bytes im_set_msg_id. rewrite (opt_set (im_msg_id q) _ _ (λ o, mkImMsg _ _ _ _ o m6 m7 m8 m9 m10 m11 m12) m5) by done.
  apply (reads_put _ _ _ fixed32 im_set_points); [done| |].
  { intros v E. rewrite E in H5. show_field. by rewrite ReadFloat_fixed. }
  rewrite (opt_set (im_points q) _ _ (λ o, mkImMsg _ _ _ _ _ o m7 m8 m9 m10 m11 m12) m6) by done.
  read_int32 im_set_timeout. rewrite (opt_set (im_timeout q) _ _ (λ o, mkImMsg _ _ _ _ _ _ o m8 m9 m10 m11 m12) m7) by done.
  read_bytes im_set_text_content.
  rewrite (opt_set (im_text_content q) _ _ (λ o, mkImMsg _ _ _ _ _ _ _ o m9 m10 m11 m12) m8) by done.
  read_bytes im_set_pic_id. rewrite (opt_set (im_pic_id q) _ _ (λ o, mkImMsg _ _ _ _ _ _ _ _ o m10 m11 m12) m9) by done.
  read_bytes im_set_vid_id. rewrite (opt_set (im_vid_id q) _ _ (λ o, mkImMsg _ _ _ _ _ _ _ _ _ o m11 m12) m10) by done.
  read_bytes im_set_loc_word. rewrite (opt_set (im_loc_word q) _ _ (λ o, mkImMsg _ _ _ _ _ _ _ _ _ _ o m12) m11) by done.
  apply (reads_unknown_eq _ im_add_unknown); [done| | |done].
  - intros []. unfold im_add_unknown. by rewrite app_nil_r.
  - intros t v u []. cbn. unfold im_add_unknown. cbn. by rewrite <-app_assoc.
Qed.

Lemma ImPackContent_reads m q :
  ImPackContent_ok q → short (content_bytes q) → reads ImPackContent_switch m (content_bytes q) (ImPackContent_MergeFrom m q).
Proof.
  intros [H1 H2 H3 H4 H5 H6 H7] Hs. unfold content_bytes in *. split_short.
  destruct m as [m1 m2 m3 m4 m5 m6 m7].
  apply (reads_sub _ ImTouch_switch ImTouch_ok (λ o, mkContent o m2 m3 m4 m5 m6 m7) _ m1 _ touch_bytes ImTouch_MergeFrom empty_touch);
    [done..|apply ImTouch_consumes|auto using ImTouch_reads|intros s0 a E; show_field; cbn [c_touch]; by rewrite E|].
  apply (reads_sub _ ImTouchResponse_switch ImTouchResponse_ok (λ o, mkContent _ o m3 m4 m5 m6 m7) _ m2 _ touch_rep_bytes ImTouchResponse_MergeFrom empty_touch_rep);
    [done..|apply ImTouchResponse_consumes|auto using ImTouchResponse_reads|intros s0 a E; show_field; cbn [c_touch_rep]; by rewrite E|].
  apply (reads_sub _ ImMsg_switch ImMsg_ok (λ o, mkContent _ _ o m4 m5 m6 m7) _ m3 _ msg_bytes ImMsg_MergeFrom empty_msg);
    [done..|apply ImMsg_consumes|auto using ImMsg_reads|intros s0 a E; show_field; cbn [c_msg]; by rewrite E|].
  apply (reads_sub _ ImMsgAck_switch ImMsgAck_ok (λ o, mkContent _ _ _ o m5 m6 m7) _ m4 _ ack_bytes ImMsgAck_MergeFrom empty_ack);
    [done..|apply ImMsgAck_consumes|auto using ImMsgAck_reads|intros s0 a E; show_field; cbn [c_msg_ack]; by rewrite E|].
  apply (reads_sub _ ImAuthRequest_switch ImAuthRequest_ok (λ o, mkContent _ _ _ _ o m6 m7) _ m5 _ auth_req_bytes ImAuthRequest_MergeFrom empty_auth_req);
    [done..|apply ImAuthRequest_consumes|auto using ImAuthRequest_reads|intros s0 a E; show_field; cbn [c_auth_req]; by rewrite E|].
  apply (reads_sub _ ImAuthResponse_switch ImAuthResponse_ok (λ o, mkContent _ _ _ _ _ o m7) _ m6 _ auth_rep_bytes ImAuthResponse_MergeFrom empty_auth_rep);
    [done..|apply ImAuthResponse_consumes|auto using ImAuthResponse_reads|intros s0 a E; show_field; cbn [c_auth_rep]; by rewrite E|].
  apply (reads_unknown_eq _ (λ u m, mkContent (c_touch m) (c_touch_rep m) (c_msg m) (c_msg_ack m) (c_auth_req m)
           (c_auth_rep m) (c_unknown m ++ u))); [done| | |done].
  - intros []. by rewrite app_nil_r.
  - intros t v u []. cbn. by rewrite <-app_assoc.
Qed.

Lemma ImPack_reads m q : ImPack_ok q → short (pack_bytes q) → reads ImPack_switch m (pack_bytes q) (ImPack_MergeFrom m q).
Proof.
  intros [H1 H2 H3 H4] Hs. unfold pack_bytes in *. split_short. destruct m as [m1 m2 m3 m4].
  apply (reads_put _ _ _ int32_bytes p_set_type); [done| |].
  { intros v E. rewrite E in H1. cbn [opt_all] in H1. show_field. unfold int32_bytes.
    rewrite ReadEnum_varint by (by apply pack_type_int32). by rewrite H1. }
  rewrite (opt_set (p_type q) _ _ (λ o, mkPack o m2 m3 m4) m1) by done.
  apply (reads_sub _ ImPackContent_switch ImPackContent_ok (λ o, mkPack _ o m3 m4) _ m2 _ content_bytes ImPackContent_MergeFrom
           empty_content);
    [done..|apply ImPackContent_consumes|auto using ImPackContent_reads|intros s0 a E; show_field; cbn [p_content]; by rewrite E|].
  read_int32 p_set_ts.
  rewrite (opt_set (p_ts q) _ _ (λ o, mkPack _ _ o m4) m3) by done.
  apply (reads_unknown_eq _ (λ u m, mkPack (p_type m) (p_content m) (p_ts m) (p_unknown m ++ u))); [done| | |done].
  - intros []. by rewrite app_nil_r.
  - intros t v u []. cbn. by rewrite <-app_assoc.
Qed.
End reading_messages.

(** ** Merging into an empty message *)
Lemma ImPackContent_MergeFrom_empty c : ImPackContent_MergeFrom empty_content c = c.
Proof.
  assert (∀ x, ImTouch_MergeFrom empty_touch x = x) as H1 by (by intros [[]]).
  assert (∀ x, ImTouchResponse_MergeFrom empty_touch_rep x = x) as H2 by (by intros [[]]).
  assert (∀ x, ImMsgAck_MergeFrom empty_ack x = x) as H4 by (by intros [[] []]).
  assert (∀ x, ImAuthRequest_MergeFrom empty_auth_req x = x) as H5 by (by intros [[] []]).
  assert (∀ x, ImAuthResponse_MergeFrom empty_auth_rep x = x) as H6 by (by intros [[] []]).
  assert (∀ {A} (o : option A), or_old o None = o) as Hn by (by intros A []).
  assert (∀ x, ImMsg_MergeFrom empty_msg x = x) as H3.
  { intros []. unfold ImMsg_MergeFrom. cbn. by rewrite !Hn. }
  assert (∀ {A} merge (e : A) o, (∀ x, merge e x = x) → merge_sub merge e o None = o) as Hs
    by (intros A merge e [a|] H; cbn; by rewrite ?H).
  destruct c. unfold ImPackContent_MergeFrom. cbn.
  by rewrite (Hs _ _ _ _ H1), (Hs _ _ _ _ H2), (Hs _ _ _ _ H3), (Hs _ _ _ _ H4), (Hs _ _ _ _ H5), (Hs _ _ _ _ H6).
Qed.

Lemma ImPack_MergeFrom_empty p : ImPack_MergeFrom empty_pack p = p.
Proof.
  destruct p as [[] [c|] [] ?]; unfold ImPack_MergeFrom; cbn; by rewrite ?ImPackContent_MergeFrom_empty.
Qed.

(** ** Messages made by this program *)
Definition is_nil (u : unknown_fields) : bool := match u with [] => true | _ => false end.
Definition content_known (c : ImPackContent) : bool :=
  opt_all (is_nil ∘ touch_unknown) (c_touch c) && opt_all (is_nil ∘ touch_rep_unknown) (c_touch_rep c) &&
  opt_all (is_nil ∘ im_unknown) (c_msg c) && opt_all (is_nil ∘ ack_unknown) (c_msg_ack c) &&
  opt_all (is_nil ∘ auth_unknown) (c_auth_req c) && opt_all (is_nil ∘ rep_unknown) (c_auth_rep c) && is_nil (c_unknown c).
(** No unknown fields. *)
Definition pack_known (p : ImPack) : bool := opt_all content_known (p_content p) && is_nil (p_unknown p).

Section known.
Context {HW : Wire}.

Lemma nil_kept {M} (sw : switch M) u : is_nil u = true → Forall (kept sw) u.
Proof. by destruct u. Qed.

Lemma known_content_ok c : content_typed c = true → content_known c = true → ImPackContent_ok c.
Proof.
  unfold content_typed, content_known. intros Ht Hk. split_short.
  constructor; try (intros x Ex); try split; eauto using opt_all_Some, nil_kept; apply nil_kept;
    match goal with H : opt_all (is_nil ∘ _) ?o = true, E : ?o = Some _ |- _ => exact (opt_all_Some _ _ _ H E) end.
Qed.

Lemma known_pack_ok p : pack_typed p = true → pack_known p = true → ImPack_ok p.
Proof.
  unfold pack_typed, pack_known. intros Ht Hk. split_short. constructor; try done; [|by apply nil_kept].
  intros c Ec. apply known_content_ok; eauto using opt_all_Some.
Qed.

(** Changing the fields of the chat message. *)
Lemma update_msg_ok p c m m' :
  ImPack_ok p → p_content p = Some c → c_msg c = Some m → msg_typed m' = true → im_unknown m' = im_unknown m →
  ImPack_ok (mkPack (p_type p)
    (Some (mkContent (c_touch c) (c_touch_rep c) (Some m') (c_msg_ack c) (c_auth_req c) (c_auth_rep c) (c_unknown c)))
    (p_ts p) (p_unknown p)).
Proof.
  intros [H1 H2 H3 H4] Ec Em Ht Hu. constructor; try done. apply opt_ok_Some.
  destruct (H2 c Ec) as [C1 C2 C3 C4 C5 C6 C7]. constructor; try done. apply opt_ok_Some.
  split; [done|]. cbn. rewrite Hu. by apply C3.
Qed.
End known.

Section roundtrip.
Context {HW : Wire}.

Lemma SerializeToArray_bytes p : ImPack_ok p → short (pack_bytes p) → SerializeToArray p = pack_bytes p.
Proof.
  intros Hp Hs. unfold SerializeToArray. destruct (ImPack_ByteSize cached_new p) as [n cs] eqn:E.
  pose proof (ImPack_size_written cached_new p (pack_ok_typed p Hp) Hs) as [_ H]. by rewrite E in H.
Qed.

Lemma parse_pack_bytes m p :
  ImPack_ok p → short (pack_bytes p) → merge_from ImPack_switch m (pack_bytes p) = Some (ImPack_MergeFrom m p, true).
Proof. intros Hp Hs. apply reads_merge; [apply ImPack_consumes|]. by apply ImPack_reads. Qed.

Lemma parse_serialized p :
  ImPack_ok p → short (pack_bytes p) → ImPack_IsInitialized p = true → ParseFromArray (SerializeToArray p) = Some p.
Proof.
  intros Hp Hs Hi. rewrite SerializeToArray_bytes by done. unfold ParseFromArray, ImPack_Clear.
  by rewrite parse_pack_bytes, ImPack_MergeFrom_empty, Hi by done.
Qed.

Lemma parsed_ok bs p : ParseFromArray bs = Some p → ImPack_ok p ∧ ImPack_IsInitialized p = true.
Proof.
  unfold ParseFromArray. destruct (merge_from _ _ bs) as [[m []]|] eqn:E; try done.
  destruct (ImPack_IsInitialized m) eqn:Ei; [|done]. intros [= <-]. split; [|done].
  by eapply ImPack_parsed, E; apply empty_pack_ok.
Qed.
End roundtrip.

(** A chat message with every field set. *)
Definition pb_chat : ImPack :=
  mkPack (Some IM_MSG)
    (Some (mkContent None None
       (Some (mkImMsg (Some 9) (Some (-4)) [7; 300; 8] (Some IM_REQUEST) (Some (str "id")) (Some 1065353216) (Some 60)
                (Some (str "hello")) (Some (str "p")) (Some (str "v")) (Some []) [])) None None None []))
    (Some 123456) [].

(** ** Properties *)

(** C7: parsing what was serialised merges it: for any pack, with unknown fields too, and any
    message it is parsed into, the parser comes to a legitimate end with what MergeFrom
    gives, field by field, the repeated targets appended and nested messages merged.  The
    bytes are as many as ByteSize says, although nested sizes are taken from the caches; so
    parsing into a new message gives the pack back, and CopyFrom is a copy. *)
Theorem pack_parse_merges {HW : Wire} m p (Hp : ImPack_ok p) (Hs : short (pack_bytes p)) :
  merge_from ImPack_switch m (SerializeToArray p) = Some (ImPack_MergeFrom m p, true) ∧
  (∀ cs, (ImPack_ByteSize cs p).1 = Z.of_nat (length (SerializeToArray p)) ∧
     ImPack_Serialize (ImPack_ByteSize cs p).2 p [] = SerializeToArray p) ∧
  ParseFromArray (SerializeToArray p) = (if ImPack_IsInitialized p then Some p else None) ∧ ImPack_CopyFrom m p = p.
Proof.
  assert (merge_from ImPack_switch m (SerializeToArray p) = Some (ImPack_MergeFrom m p, true)) as H
    by (rewrite SerializeToArray_bytes by done; by apply parse_pack_bytes).
  split; [done|]. split; [|split].
  - intros cs. rewrite SerializeToArray_bytes by done. apply ImPack_size_written; [by apply pack_ok_typed|done].
  - rewrite SerializeToArray_bytes by done. unfold ParseFromArray, ImPack_Clear.
    by rewrite parse_pack_bytes, ImPack_MergeFrom_empty by done.
  - apply ImPack_MergeFrom_empty.
Qed.

Lemma pack_parse_merges_witness :
  let HW := plain_wire in
  ParseFromArray (SerializeToArray pb_chat) = Some pb_chat ∧ length (SerializeToArray pb_chat) = 58%nat.
Proof.
  intros HW. split; [|vm_compute; reflexivity].
  apply (pack_parse_merges empty_pack pb_chat); [apply known_pack_ok; reflexivity|vm_compute; reflexivity].
Defined.

(** C8: whatever bytes arrive, a pack that is parsed has its required fields and only values
    of their types: 32-bit integers, known enumeration values, in nested messages too; and
    its unknown fields are such that serialising it gives a pack that is parsed to the
    same. *)
Theorem parsed_pack_well_typed {HW : Wire} bs p (Hp : ParseFromArray bs = Some p) :
  pack_typed p = true ∧ ImPack_IsInitialized p = true ∧
  (short (pack_bytes p) → ParseFromArray (SerializeToArray p) = Some p).
Proof.
  apply parsed_ok in Hp as [Hp Hi]. split; [by apply pack_ok_typed|]. split; [done|]. intros Hs. by apply parse_serialized.
Qed.

(** A touch with a field that is not in the protocol. *)
Definition pb_foreign : list Z := [8; 1; 122; 2; 5; 6; 18; 4; 10; 2; 8; 11].

Lemma parsed_pack_well_typed_witness :
  let HW := plain_wire in
  ∃ p, ParseFromArray pb_foreign = Some p ∧ p_unknown p = [(122, [2; 5; 6])] ∧
    ParseFromArray (SerializeToArray p) = Some p.
Proof.
  intros HW. eexists (mkPack (Some 1) (Some (mkContent (Some (mkTouch (Some 11) [])) None None None None None [])) None
    [(122, [2; 5; 6])]). split; [vm_compute; reflexivity|]. split; [reflexivity|].
  apply (parsed_pack_well_typed pb_foreign); vm_compute; reflexivity.
Defined.

(** C28: parsing ends for every input, and the jumps from a field to the one that is expected
    next change nothing: each loop gives what the loop that reads every tag anew gives. *)
Theorem parsing_ends {HW : Wire} s fuel (Hf : (length s < fuel)%nat) :
  let same {M} (sw : switch M) := ∀ m, merge_loop sw (S (length s)) None m s = plain_loop sw fuel m s ∧
    plain_loop sw fuel m s ≠ Unfinished in
  same ImPack_switch ∧ same ImPackContent_switch ∧ same ImTouch_switch ∧ same ImTouchResponse_switch ∧ same ImMsg_switch ∧
  same ImMsgAck_switch ∧ same ImAuthRequest_switch ∧ same ImAuthResponse_switch.
Proof.
  intros same. assert (∀ {M} (sw : switch M), consumes sw → same M sw) as H
    by (intros M sw Hc m; apply merge_is_plain; [done|lia|done]).
  split_and!; apply H; [apply ImPack_consumes|apply ImPackContent_consumes|apply ImTouch_consumes|apply ImTouchResponse_consumes
    |apply ImMsg_consumes|apply ImMsgAck_consumes|apply ImAuthRequest_consumes|apply ImAuthResponse_consumes].
Qed.

Lemma parsing_ends_witness :
  let HW := plain_wire in merge_loop ImPack_switch 13 None empty_pack pb_foreign ≠ Unfinished.
Proof.
  intros HW. destruct (parsing_ends pb_foreign 13 ltac:(vm_compute; lia)) as [H _].
  destruct (H empty_pack) as [E Hn]. change 13%nat with (S (length pb_foreign)). rewrite E. exact Hn.
Defined.

(** C39: a pack whose type is none this program knows is refused, not read as IM_UNKNOW: the
    value is kept aside and the required type is then missing. *)
Theorem newer_type_refused {HW : Wire} v c ts
    (Hv : is_int32 v = true) (Hn : ImPackType_IsValid v = false) (Hc : opt_ok ImPackContent_ok c)
    (Hts : opt_all is_int32 ts = true) (Hs : short (pack_bytes (mkPack (Some v) c ts []))) :
  ParseFromArray (pack_bytes (mkPack (Some v) c ts [])) = None ∧
  merge_from ImPack_switch empty_pack (pack_bytes (mkPack (Some v) c ts [])) = Some (mkPack None c ts (AddVarint 1 v), true).
Proof.
  assert (merge_from ImPack_switch empty_pack (pack_bytes (mkPack (Some v) c ts [])) = Some (mkPack None c ts (AddVarint 1 v), true)) as H.
  { apply reads_merge; [apply ImPack_consumes|]. unfold pack_bytes. cbn [p_type field_bytes]. rewrite <-app_assoc.
    eapply reads_field; [done| |].
    - unfold take_field. show_field. unfold int32_bytes. by rewrite ReadEnum_varint, Hn by done.
    - cbn [p_type p_content p_ts p_unknown empty_pack app].
      assert (reads ImPack_switch (mkPack None None None (AddVarint 1 v)) (pack_bytes (mkPack None c ts []))
        (ImPack_MergeFrom (mkPack None None None (AddVarint 1 v)) (mkPack None c ts []))) as Hr.
      { apply ImPack_reads; [by constructor|]. unfold pack_bytes in *. cbn [p_type p_content p_ts p_unknown field_bytes app] in *.
        by apply short_app in Hs as (_ & ? & _). }
      unfold pack_bytes in Hr. cbn [p_type p_content p_ts p_unknown field_bytes app] in Hr.
      eapply reads_eq; [exact Hr|]. unfold ImPack_MergeFrom. cbn.
      f_equal; [|by destruct ts]. destruct c; cbn; by rewrite ?ImPackContent_MergeFrom_empty. }
  split; [|done]. unfold ParseFromArray, ImPack_Clear. by rewrite H.
Qed.

Lemma newer_type_refused_witness :
  let HW := plain_wire in
  ParseFromArray (pack_bytes (mkPack (Some 7) (Some empty_content) None [])) = None.
Proof.
  intros HW. apply (newer_type_refused 7 (Some empty_content) None); try reflexivity.
  apply opt_ok_Some. apply known_content_ok; reflexivity.
Defined.
