(* ===== verification/ImParser.v ===== *)
(** im::ImMessageParser (message/im_message_parser.cpp): from frames to protocol
    packs and back.

    What the parser relies on of the protocol messages is the class [ImCodec]; the
    generated code, modelled in [ImPb], is an instance over any protobuf runtime. *)
From S2P Require Import Prelude Heap Bytes MsMessage Protobuf ImPb.

(** ** The protocol messages *)
(** [mutable_content()->mutable_msg()] and an assignment through it. *)
Definition content (p : ImPack) : ImPackContent := default empty_content (p_content p).
Definition pack_msg (p : ImPack) : ImMsg := default empty_msg (c_msg (content p)).
Definition update_msg (f : ImMsg → ImMsg) (p : ImPack) : ImPack :=
  let c := content p in
  mkPack (p_type p)
    (Some (mkContent (c_touch c) (c_touch_rep c) (Some (f (pack_msg p))) (c_msg_ack c) (c_auth_req c) (c_auth_rep c)
             (c_unknown c)))
    (p_ts p) (p_unknown p).

(** Every required field that has to be there is there. *)
Definition complete (p : ImPack) : bool := ImPack_IsInitialized p.

(** Serialising and parsing.  A pack is [codec_ok] if its values are of their types and
    its unknown fields, if any, are ones that were parsed. *)
Class ImCodec := {
  encode_pack : ImPack → list Z;
  decode_pack : list Z → option ImPack;
  codec_ok : ImPack → Prop;
  decode_encode_pack p :
    codec_ok p → complete p = true → short (encode_pack p) → decode_pack (encode_pack p) = Some p;
  decode_complete bs p : decode_pack bs = Some p → codec_ok p ∧ complete p = true;
  codec_ok_typed p : codec_ok p → pack_typed p = true;
  codec_ok_made p : pack_typed p = true → pack_known p = true → codec_ok p;
  codec_ok_update f p :
    codec_ok p → is_Some (c_msg (content p)) → msg_typed (f (pack_msg p)) = true →
    im_unknown (f (pack_msg p)) = im_unknown (pack_msg p) → codec_ok (update_msg f p) }.

(** ** The parser's view of a message *)
Definition TIMESTAMP_20150101000000 : Z := 1420041600.
Definition TIMESTAMP_GAP : Z := 30.
Definition INIT_STATE : Z := 0.
Definition AUTH_STATE : Z := 1.
Definition MSG_STATE : Z := 2.

Inductive IMessagePackType := UNKNOW | TOUCH | MSG | MSG_ACK | AUTH.

(** [_type] is not set by the constructor. *)
Record IMessagePack := mkIPack { pk_msg : ptr; pk_data : ImPack; pk_type : option Z }.

Section parser.
Context {HC : ImCodec}.

Definition createIMessagePack (msg : ptr) : IMessagePack :=
  mkIPack msg empty_pack None.

(** [None] is the null pack. *)
Definition parse (h : mheap) (msg : ptr) : outcome (option IMessagePack) :=
  let* m := load h msg in
  let* bs := read_data m in
  match decode_pack bs with
  | Some data =>
      if has (p_type data) && has (p_content data)
      then Ret (Some (mkIPack msg data None)) else Ret None
  | None => Ret None
  end.

Definition getMessagePackType (pack : IMessagePack) : IMessagePackType :=
  let t := default IM_UNKNOW (p_type (pk_data pack)) in
  if t =? IM_UNKNOW then UNKNOW
  else if t =? IM_TOUCH then TOUCH
  else if t =? IM_MSG then MSG
  else if t =? IM_MSG_ACK then MSG_ACK
  else if t =? IM_AUTH then AUTH
  else UNKNOW.

(** The difference of two [int]s; an overflow is undefined. *)
Definition checkTimeStamp (h : mheap) (pack : IMessagePack) : outcome Z :=
  let pack_ts := default 0 (p_ts (pk_data pack)) in
  let* m := load h (pk_msg pack) in
  let* gen := defined (msg_gen_time m) in
  let now_ts := i32 (fst gen - TIMESTAMP_20150101000000) in
  let gap := now_ts - pack_ts in
  if (gap <? - 2 ^ 31) || (2 ^ 31 <=? gap) then Fault
  else Ret (if TIMESTAMP_GAP <? gap then -1 else 0).

Definition getTouchPackUid (pack : IMessagePack) : Z :=
  match c_touch (content (pk_data pack)) with
  | Some t => default (-1) (touch_uid t)
  | None => -1
  end.

Definition getAuthPackUid (pack : IMessagePack) : Z :=
  match c_auth_req (content (pk_data pack)) with
  | Some a => default (-1) (auth_uid a)
  | None => -1
  end.

Definition getAuthPackToken (pack : IMessagePack) : cstr :=
  match c_auth_req (content (pk_data pack)) with
  | Some a => default [] (auth_token a)
  | None => []
  end.

Definition getMsgPackUser (pack : IMessagePack) : Z :=
  match c_msg (content (pk_data pack)) with
  | Some m => default (-1) (im_uid m)
  | None => -1
  end.

Definition getMsgPackTargetUserCount (pack : IMessagePack) : Z :=
  Z.of_nat (length (im_target_uid (pack_msg (pk_data pack)))).

Definition getMsgPackTargetUser (pack : IMessagePack) (count : Z) : list Z :=
  take (Z.to_nat count) (im_target_uid (pack_msg (pk_data pack))).

(** [int size = data.ByteSize(); fixIMessage(msg, size); ... SerializeToArray] *)
Definition refill (h : mheap) (msg : ptr) (p : ImPack) (f : IMessage → IMessage) : outcome mheap :=
  let bs := encode_pack p in
  let* h := fixIMessage h msg (Z.of_nat (length bs)) in
  let* h := modify h msg f in
  write_data h msg bs.

(** [createIMessage(size); ... SerializeToArray] *)
Definition new_filled (h : mheap) (p : ImPack) (f : IMessage → IMessage) : outcome (loc * mheap) :=
  let bs := encode_pack p in
  let* (l, h) := createIMessage h (Z.of_nat (length bs)) in
  let* h := modify h (Some l) f in
  let* h := write_data h (Some l) bs in
  Ret (l, h).

Definition reply_fields (uid : Z) (m : IMessage) : IMessage := set_need_collect 0 (set_uid uid m).

(** [now] is [time(NULL)]. *)
Definition stamp_now (now : Z) : Z := i32 (now - TIMESTAMP_20150101000000).

Definition touch_ack (now uid : Z) : ImPack :=
  mkPack (Some IM_TOUCH_ACK)
    (Some (mkContent None (Some (mkTouchRep (Some uid) [])) None None None None [])) (Some (stamp_now now)) [].

(** The request message is reused for the reply; the pack gives it up. *)
Definition createTouchAckPack (now : Z) (h : mheap) (uid : Z) (pack : IMessagePack) : outcome (ptr * mheap) :=
  let* h := refill h (pk_msg pack) (touch_ack now uid) (reply_fields uid) in
  Ret (pk_msg pack, h).

Definition auth_response (now : Z) (token : cstr) : ImPack :=
  mkPack (Some IM_AUTH_RESPONSE)
    (Some (mkContent None None None None None
      (Some (mkAuthRep (Some token) (Some true) [])) [])) (Some (stamp_now now)) [].

Definition createAuthPack (now : Z) (h : mheap) (uid : Z) (pack : IMessagePack) : outcome (ptr * mheap) :=
  let token := match c_auth_req (content (pk_data pack)) with
               | Some a => default [] (auth_token a) | None => [] end in
  let* h := refill h (pk_msg pack) (auth_response now token) (reply_fields uid) in
  Ret (pk_msg pack, h).

Definition msg_ack (now : Z) (msg_id : cstr) (seq : Z) : ImPack :=
  mkPack (Some IM_MSG_ACK)
    (Some (mkContent None None None (Some (mkAck (Some msg_id) (Some seq) [])) None None []))
    (Some (stamp_now now)) [].

(** A request is re-serialised with its new id; the acknowledgement is a message of
    its own. *)
Definition createMsgAckPack (now : Z) (h : mheap) (pack : IMessagePack) (uid : Z) (msg_id : cstr)
    : outcome (loc * mheap * IMessagePack) :=
  let msg_data := pack_msg (pk_data pack) in
  let seq := default 0 (im_seq msg_data) in
  let type := if default IM_REQUEST (im_type msg_data) =? IM_REQUEST then APP_REQUEST else APP_REPLY in
  let* (h, data) :=
    if type =? APP_REQUEST then
      let data := update_msg (im_set_msg_id msg_id) (pk_data pack) in
      let bs := encode_pack data in
      let* h := fixIMessage h (pk_msg pack) (Z.of_nat (length bs)) in
      let* h := write_data h (pk_msg pack) bs in
      Ret (h, data)
    else Ret (h, pk_data pack) in
  let* in_msg := load h (pk_msg pack) in
  let* (l, h) := new_filled h (msg_ack now msg_id seq)
    (λ m, set_need_collect 0 (set_conn (msg_conn in_msg) (set_io (msg_io in_msg) (set_uid uid m)))) in
  Ret (l, h, mkIPack (pk_msg pack) data (Some type)).

(** ** Fan-out *)
Definition TARGET_MAX : nat := 1024.

(** The fields of a message on its way to [uid]. *)
Definition out_fields (uid : Z) (type : option Z) (from to : Z) (m : IMessage) : IMessage :=
  set_to (Some (bits 2 to)) (set_from (Some (bits 2 from)) (set_type (bits 2 <$> type)
    (set_need_collect 1 (set_uid uid m)))).

(** One message per user, linked behind [trans]. *)
Fixpoint fan_out (h : mheap) (data : ImPack) (type : option Z) (from to : Z) (trans : loc) (us : list Z)
    : outcome mheap :=
  match us with
  | [] => Ret h
  | u :: us =>
      let* (l, h) := new_filled h (update_msg (im_set_target_uid [u]) data) (out_fields u type from to) in
      let* h := store_next h (Some trans) (Some l) in
      fan_out h data type from to l us
  end.

(** [createLocalMsgPack(pack)]: the static array holds [TARGET_MAX] users. *)
Definition createLocalMsgPack (h : mheap) (pack : IMessagePack) : outcome (ptr * mheap) :=
  match im_target_uid (pack_msg (pk_data pack)) with
  | [] => Ret (None, h)
  | (u :: us) as targets =>
      if (TARGET_MAX <? length targets)%nat then Fault
      else
        match pk_msg pack with
        | None => Fault
        | Some req_msg =>
            let* h := refill h (Some req_msg) (update_msg (im_set_target_uid [u]) (pk_data pack))
                        (out_fields u (pk_type pack) BACKEND APP) in
            let* h := fan_out h (pk_data pack) (pk_type pack) BACKEND APP req_msg us in
            Ret (Some req_msg, h)
        end
  end.

(** [createLocalMsgPack(pack, uid, count, msg_id, len)] *)
Definition createLocalMsgPack_to (h : mheap) (pack : IMessagePack) (us : list Z) (msg_id : cstr)
    : outcome (ptr * mheap) :=
  let data := update_msg (im_set_msg_id msg_id) (pk_data pack) in
  match us with
  | [] => Ret (None, h)
  | u :: us =>
      let* (l, h) := new_filled h (update_msg (im_set_target_uid [u]) data) (out_fields u (pk_type pack) APP APP) in
      let* h := fan_out h data (pk_type pack) APP APP l us in
      Ret (Some l, h)
  end.

Definition createRemoteMsgPack (h : mheap) (pack : IMessagePack) (us : list Z) (msg_id : cstr)
    : outcome (loc * mheap) :=
  new_filled h (update_msg (im_set_msg_id msg_id) (update_msg (im_set_target_uid us) (pk_data pack)))
    (λ m, set_to (Some (bits 2 BACKEND)) (set_from (Some (bits 2 APP)) (set_type (bits 2 <$> pk_type pack)
      (set_need_collect 1 m)))).

Definition createPendingMsgPack (h : mheap) (pack : IMessagePack) (uid : Z) (msg_id : cstr)
    : outcome (loc * mheap) :=
  new_filled h (update_msg (im_set_msg_id msg_id) (update_msg (im_set_target_uid [uid]) (pk_data pack)))
    (out_fields uid (pk_type pack) APP UNKNOWN).

(** ** Lemmas *)
(** An update of fields that leaves the frame and the link alone. *)
Definition keeps_frame (f : IMessage → IMessage) : Prop :=
  ∀ m, msg_b (f m) = msg_b m ∧ msg_data (f m) = msg_data m ∧ msg_size (f m) = msg_size m ∧
    msg_data_len (f m) = msg_data_len m ∧ msg_frame_len (f m) = msg_frame_len m ∧ msg_next (f m) = msg_next m.

Lemma keeps_frame_framed f m : keeps_frame f → framed m → framed (f m).
Proof.
  intros Hf [Hw Hr]. destruct (Hf m) as (E1 & E2 & E3 & E4 & E5 & _).
  unfold framed, wf_msg in *. by rewrite E1, E2, E3, E4, E5.
Qed.

Lemma out_fields_keeps u ty from to : keeps_frame (out_fields u ty from to).
Proof. done. Qed.
Lemma reply_fields_keeps u : keeps_frame (reply_fields u).
Proof. done. Qed.

Definition fits (p : ImPack) : Prop := short (encode_pack p).

Lemma fits_int p : fits p → Z.of_nat (length (encode_pack p)) < 2 ^ 31 - 8.
Proof. unfold fits, short, STREAM_MAX. lia. Qed.

Lemma fill_frame_spec h l m f bs :
  h !! l = Some m → framed m → keeps_frame f → Z.of_nat (length bs) = msg_data_len m →
  ∃ buf, (let* h := modify h (Some l) f in write_data h (Some l) bs) = Ret (<[l := set_b buf (f m)]> h) ∧
    framed (set_b buf (f m)) ∧ read_data (set_b buf (f m)) = Ret bs.
Proof.
  intros E Hm Hf Hlen. unfold modify. rewrite (load_Some _ _ _ E). cbn [obind].
  rewrite (store_Some _ _ _ _ E). cbn [obind].
  destruct (write_data_spec (<[l := f m]> h) l (f m) bs) as (buf & -> & Hfr & Hr).
  - apply lookup_insert_eq.
  - by apply keeps_frame_framed.
  - destruct (Hf m) as (_ & _ & _ & -> & _). done.
  - exists buf. by rewrite insert_insert_eq.
Qed.

Lemma new_filled_spec h p f :
  fits p → keeps_frame f →
  ∃ l m buf, new_filled h p f = Ret (l, <[l := set_b buf (f m)]> h) ∧ h !! l = None ∧
    (∃ b, m = new_message b (msg_size m) (msg_data_len m) (msg_frame_len m)) ∧
    framed (set_b buf (f m)) ∧ read_data (set_b buf (f m)) = Ret (encode_pack p).
Proof.
  intros Hp Hf. unfold new_filled.
  destruct (createIMessage_spec h (Z.of_nat (length (encode_pack p)))) as (l & m & -> & Hn & Hfr & Hd & Hs & Em);
    [apply fits_int in Hp; lia|].
  cbn [obind]. destruct (fill_frame_spec (<[l := m]> h) l m f (encode_pack p)) as (buf & Hfill & Hfr' & Hr);
    [apply lookup_insert_eq|done|done|done|].
  destruct (modify (<[l := m]> h) (Some l) f) as [h1| | | |]; cbn [obind] in *; try done.
  rewrite Hfill. cbn [obind]. exists l, m, buf. rewrite insert_insert_eq. split; [done|]. split; [done|].
  split; [|done]. exists (msg_b m). rewrite Em at 1. destruct Hfr as [(_ & _ & _ & Hfl & _) _]. f_equal; lia.
Qed.

Lemma refill_spec h l m p f :
  h !! l = Some m → wf_msg m → fits p → keeps_frame f →
  ∃ buf buf0 size, let m1 := set_frame buf0 8 size (Z.of_nat (length (encode_pack p)))
      (Z.of_nat (length (encode_pack p)) + 8) m in
    refill h (Some l) p f = Ret (<[l := set_b buf (f m1)]> h) ∧
    framed (set_b buf (f m1)) ∧ read_data (set_b buf (f m1)) = Ret (encode_pack p).
Proof.
  intros E Hw Hp%fits_int Hf. unfold refill in *.
  destruct (fixIMessage_spec h l m (Z.of_nat (length (encode_pack p))) E Hw) as (buf0 & size & -> & Hfr); [lia|].
  cbn [obind]. set (m1 := set_frame _ _ _ _ _ m) in *.
  destruct (fill_frame_spec (<[l := m1]> h) l m1 f (encode_pack p)) as (buf & Hfill & Hfr' & Hr);
    [apply lookup_insert_eq|done|done|done|].
  rewrite Hfill. exists buf, buf0, size. by rewrite insert_insert_eq.
Qed.

Lemma complete_has p : complete p = true → has (p_type p) = true ∧ has (p_content p) = true.
Proof. unfold complete, ImPack_IsInitialized. rewrite !andb_true_iff. tauto. Qed.

Lemma complete_update f p m :
  complete p = true → c_msg (content p) = Some m →
  (ImMsg_IsInitialized m = true → ImMsg_IsInitialized (f m) = true) → complete (update_msg f p) = true.
Proof.
  unfold complete, ImPack_IsInitialized, update_msg, content, pack_msg.
  destruct p as [ty [c|] ts u]; cbn; [|by rewrite andb_false_r].
  intros H E Hf. unfold content, ImPackContent_IsInitialized in *. cbn in *. rewrite E in *. cbn in *.
  rewrite !andb_true_iff in *. naive_solver.
Qed.

Lemma targets_typed p : codec_ok p → Forall (λ u, is_int32 u = true) (im_target_uid (pack_msg p)).
Proof.
  intros Hp%codec_ok_typed. unfold pack_msg, content. unfold pack_typed, content_typed in Hp.
  destruct (p_content p) as [c|]; [|constructor]. cbn in *. destruct (c_msg c) as [m|]; [|constructor]. cbn in *.
  split_short. by apply forallb_Forall', msg_typed_iff.
Qed.

Lemma msg_typed_of p : codec_ok p → msg_typed (pack_msg p) = true.
Proof.
  intros Hp%codec_ok_typed. unfold pack_msg, content. unfold pack_typed, content_typed in Hp.
  destruct (p_content p) as [c|]; [|done]. cbn in *. destruct (c_msg c) as [m|]; [|done]. cbn in *. by split_short.
Qed.

(** The packs the server makes. *)
Lemma stamp_typed now : is_int32 (stamp_now now) = true.
Proof. apply i32_range. Qed.

Lemma auth_response_ok now token : codec_ok (auth_response now token).
Proof. apply codec_ok_made; [|done]. unfold pack_typed. cbn. by rewrite stamp_typed. Qed.

Lemma touch_ack_ok now uid : is_int32 uid = true → codec_ok (touch_ack now uid).
Proof.
  intros Hu. apply codec_ok_made; [|done]. unfold pack_typed, content_typed, touch_rep_typed. cbn. by rewrite Hu, stamp_typed.
Qed.

Lemma msg_ack_ok now mid seq : is_int32 seq = true → codec_ok (msg_ack now mid seq).
Proof.
  intros Hu. apply codec_ok_made; [|done]. unfold pack_typed, content_typed, ack_typed. cbn. by rewrite Hu, stamp_typed.
Qed.

Lemma touch_uid_typed pack : codec_ok (pk_data pack) → is_int32 (getTouchPackUid pack) = true.
Proof.
  intros Hp%codec_ok_typed. unfold getTouchPackUid, content. unfold pack_typed, content_typed in Hp.
  destruct (p_content (pk_data pack)) as [c|]; [|done]. cbn in *. destruct (c_touch c) as [t|]; [|done]. cbn in *.
  split_short. unfold touch_typed in *. by destruct (touch_uid t).
Qed.

Lemma seq_typed p : codec_ok p → is_int32 (default 0 (im_seq (pack_msg p))) = true.
Proof.
  intros Hp%msg_typed_of. apply msg_typed_iff in Hp as (_ & Hs & _). by destruct (im_seq (pack_msg p)).
Qed.

(** A message on its way to [u], with a copy of [data] for him alone. *)
Record delivers (data : ImPack) (type : option Z) (from to u : Z) (m : IMessage) : Prop := {
  dv_uid : msg_uid m = u;
  dv_collect : msg_need_collect m = 1;
  dv_type : msg_type m = bits 2 <$> type;
  dv_from : msg_from m = Some (bits 2 from);
  dv_to : msg_to m = Some (bits 2 to);
  dv_framed : framed m;
  dv_bytes : read_data m = Ret (encode_pack (update_msg (im_set_target_uid [u]) data));
  dv_payload : decode_pack (encode_pack (update_msg (im_set_target_uid [u]) data)) =
    Some (update_msg (im_set_target_uid [u]) data) }.

Lemma delivers_next data ty from to u m p :
  delivers data ty from to u m → delivers data ty from to u (set_next p m).
Proof. intros [H1 H2 H3 H4 H5 H6 H7 H8]. by split. Qed.

(** A chat pack whose copies for the users [us] can be framed. *)
Definition sendable (data : ImPack) (us : list Z) : Prop :=
  complete data = true ∧ codec_ok data ∧ is_Some (c_msg (content data)) ∧
  Forall (λ u, is_int32 u = true ∧ fits (update_msg (im_set_target_uid [u]) data)) us.

Lemma sendable_decode data us u :
  sendable data us → u ∈ us →
  decode_pack (encode_pack (update_msg (im_set_target_uid [u]) data)) = Some (update_msg (im_set_target_uid [u]) data).
Proof.
  intros (Hc & Hok & [m Hm] & HF) Hu. rewrite Forall_forall in HF. destruct (HF u Hu) as [Hi Hf].
  apply decode_encode_pack; [|by apply (complete_update _ _ m)|done]. apply codec_ok_update; [done|by eexists| |done].
  pose proof (msg_typed_of data Hok) as Ht. apply msg_typed_iff in Ht as (? & ? & _ & ? & ? & ?).
  apply msg_typed_iff. split_and!; try done. cbn. by rewrite Hi.
Qed.

(** A message that neither closes its connection nor changes its state. *)
Definition unmarked (m : IMessage) : Prop := msg_close_conn m = 0 ∧ msg_switch_state m = None.

Lemma fan_out_spec data ty from to us h trans mt :
  sendable data us → h !! trans = Some mt → msg_next mt = None →
  ∃ h' ls, fan_out h data ty from to trans us = Ret h' ∧
    lseg h' (Some trans) (trans :: ls) None ∧
    Forall2 (λ l u, ∃ m, h' !! l = Some m ∧ delivers data ty from to u m) ls us ∧
    h' !! trans = Some (set_next (head ls) mt) ∧
    (∀ l, l ∈ ls → h !! l = None) ∧ (∀ k, k ≠ trans → is_Some (h !! k) → h' !! k = h !! k) ∧
    (∀ k, k ∈ ls → ∃ m, h' !! k = Some m ∧ unmarked m).
Proof.
  intros Hd. revert Hd h trans mt. induction us as [|u us IH]; intros Hd h trans mt Et Hn; cbn [fan_out].
  { exists h, []. split; [done|]. split; [by eapply lseg_single|]. split; [constructor|].
    split; [|split; [set_solver|split; [done|set_solver]]]. rewrite Et. f_equal. destruct mt. cbn in *. by rewrite Hn. }
  destruct (new_filled_spec h (update_msg (im_set_target_uid [u]) data) (out_fields u ty from to))
    as (l & m & buf & -> & El & [b Em] & Hfr & Hr); [by destruct Hd as (_ & _ & _ & [[_ ?] _]%Forall_cons)|apply out_fields_keeps|].
  cbn [obind]. set (m1 := set_b buf (out_fields u ty from to m)) in *.
  assert (trans ≠ l) as Hne by congruence.
  assert (<[l := m1]> h !! trans = Some mt) as Et1 by (by rewrite lookup_insert_ne).
  assert (store_next (<[l := m1]> h) (Some trans) (Some l) =
    Ret (<[trans := set_next (Some l) mt]> (<[l := m1]> h))) as -> by exact (store_next_Some _ trans mt _ Et1).
  cbn [obind]. set (h2 := <[trans := _]> _).
  assert (h2 !! l = Some m1) as El2 by (subst h2; rewrite lookup_insert_ne by done; apply lookup_insert_eq).
  assert (msg_next m1 = None) as Hn1 by (subst m1; rewrite Em; done).
  assert (sendable data us) as Hd' by (by destruct Hd as (? & ? & ? & [_ ?]%Forall_cons)).
  destruct (IH Hd' h2 l m1 El2 Hn1) as (h' & ls & -> & Hs & HF & Hl' & Hfresh & Hfr' & Hun).
  assert (h' !! trans = Some (set_next (Some l) mt)) as Et'.
  { rewrite Hfr'; [by apply lookup_insert_eq|done|]. subst h2. rewrite lookup_insert_eq. eauto. }
  exists h', (l :: ls). split; [done|]. split; [cbn; eauto|]. split; [|split; [done|split; [|split]]].
  - constructor; [|done]. exists (set_next (head ls) m1). split; [done|]. apply delivers_next.
    split; try done. eapply sendable_decode; [exact Hd|left].
  - intros k [->|Hk]%elem_of_cons; [done|]. specialize (Hfresh k Hk). subst h2.
    destruct (decide (k = trans)) as [->|]; [by rewrite lookup_insert_eq in Hfresh|].
    rewrite lookup_insert_ne in Hfresh by done.
    destruct (decide (k = l)) as [->|]; [by rewrite lookup_insert_eq in Hfresh|].
    by rewrite lookup_insert_ne in Hfresh.
  - intros k Hk [x Hx]. assert (k ≠ l) by congruence.
    assert (h2 !! k = h !! k) as E2 by (subst h2; rewrite !lookup_insert_ne by done; done).
    rewrite Hfr'; [done|done|]. rewrite E2. eauto.
  - intros k [->|Hk]%elem_of_cons; [|by apply Hun]. eexists. split; [exact Hl'|]. subst m1. by rewrite Em.
Qed.

Lemma createLocalMsgPack_spec h pack l m u us :
  pk_msg pack = Some l → h !! l = Some m → wf_msg m → msg_next m = None → sendable (pk_data pack) (u :: us) →
  im_target_uid (pack_msg (pk_data pack)) = u :: us → (length (u :: us) ≤ TARGET_MAX)%nat →
  ∃ h' ls, createLocalMsgPack h pack = Ret (Some l, h') ∧ lseg h' (Some l) (l :: ls) None ∧
    Forall2 (λ k v, ∃ m, h' !! k = Some m ∧ delivers (pk_data pack) (pk_type pack) BACKEND APP v m)
      (l :: ls) (u :: us) ∧
    (∀ k, k ∈ ls → h !! k = None) ∧ (∀ k, k ≠ l → is_Some (h !! k) → h' !! k = h !! k) ∧
    (unmarked m → ∀ k, k ∈ l :: ls → ∃ m, h' !! k = Some m ∧ unmarked m).
Proof.
  intros Ep E Hw Hn Hd Ht Hmax. unfold createLocalMsgPack. rewrite Ht.
  destruct (Nat.ltb_spec TARGET_MAX (length (u :: us))); [lia|]. rewrite Ep.
  destruct (refill_spec h l m (update_msg (im_set_target_uid [u]) (pk_data pack))
    (out_fields u (pk_type pack) BACKEND APP) E Hw) as (buf & buf0 & size & -> & Hfr & Hr);
    [by destruct Hd as (_ & _ & _ & [[_ ?] _]%Forall_cons)|apply out_fields_keeps|].
  cbn [obind]. set (m1 := set_b buf _) in *.
  assert (sendable (pk_data pack) us) as Hd' by (by destruct Hd as (? & ? & ? & [_ ?]%Forall_cons)).
  assert (msg_next m1 = None) as Hn1 by (subst m1; cbn; done).
  destruct (fan_out_spec (pk_data pack) (pk_type pack) BACKEND APP us (<[l := m1]> h) l m1 Hd'
    (lookup_insert_eq _ _ _) Hn1) as (h' & ls & -> & Hs & HF & Hl & Hfresh & Hk & Hun).
  cbn [obind]. exists h', ls. split; [done|]. split; [done|]. split; [|split; [|split]].
  - constructor; [|done]. exists (set_next (head ls) m1). split; [done|]. apply delivers_next.
    split; try done. eapply sendable_decode; [exact Hd|left].
  - intros k Hin. specialize (Hfresh k Hin). destruct (decide (k = l)) as [->|];
      [by rewrite lookup_insert_eq in Hfresh|]. by rewrite lookup_insert_ne in Hfresh.
  - intros k Hkl Hx. rewrite Hk; [by apply lookup_insert_ne|done|]. by rewrite lookup_insert_ne.
  - intros Hm k [->|Hin]%elem_of_cons; [|by apply Hun]. eexists. split; [exact Hl|]. by subst m1.
Qed.
End parser.

(** ** The generated code is such a codec *)
Section codec.
Context {HW : Wire}.

Lemma ImPack_ok_update f p :
  ImPack_ok p → is_Some (c_msg (content p)) → msg_typed (f (pack_msg p)) = true →
  im_unknown (f (pack_msg p)) = im_unknown (pack_msg p) → ImPack_ok (update_msg f p).
Proof.
  unfold update_msg, pack_msg, content. intros Hp [m Em] Ht Hu. rewrite Em in *. cbn [default] in *.
  destruct (p_content p) as [c|] eqn:Ec; [|done]. by apply (update_msg_ok p c m).
Qed.

#[export] Instance wire_codec : ImCodec.
Proof.
  refine {| encode_pack := SerializeToArray; decode_pack := ParseFromArray; codec_ok := ImPack_ok |}.
  - intros p Hp Hc Hs. apply parse_serialized; [done| |done]. apply short_serialized; [by apply pack_ok_typed|done].
  - intros bs p. apply parsed_ok.
  - intros p. apply pack_ok_typed.
  - intros p. apply known_pack_ok.
  - intros f p. apply ImPack_ok_update.
Defined.
End codec.

(** The documented encoding. *)
Definition plain_codec : ImCodec := @wire_codec plain_wire.

Definition wit_chat (targets : list Z) : ImPack :=
  mkPack (Some IM_MSG) (Some (mkContent None None
    (Some (mkImMsg (Some 9) (Some 4) targets (Some IM_REQUEST) None None None (Some (str "hi")) None None None [])) None None
    None [])) (Some 0) [].

Example wit_chat_codec :
  let _ := plain_codec in decode_pack (encode_pack (wit_chat [7; 8])) = Some (wit_chat [7; 8]).
Proof. vm_compute. reflexivity. Qed.

(** A message that holds the frame of a pack. *)
Definition wit_frame `{ImCodec} (p : ImPack) : IMessage :=
  let bs := encode_pack p in
  let n := Z.of_nat (length bs) in
  set_gen_time (Some (TIMESTAMP_20150101000000 + 20, 0))
    (set_state (Some MSG_STATE)
       (set_io 1 (set_conn 70 (new_message ((Some <$> header_bytes n) ++ (Some <$> bs)) (n + 8) n (n + 8))))).

Lemma wf_wit_frame `{ImCodec} p :
  Z.of_nat (length (encode_pack p)) < 2 ^ 31 - 8 → wf_msg (wit_frame p).
Proof.
  intros Hl. set (n := Z.of_nat (length (encode_pack p))) in *. unfold wf_msg.
  change (msg_b (wit_frame p)) with ((Some <$> header_bytes n) ++ (Some <$> encode_pack p)).
  change (msg_size (wit_frame p)) with (n + 8). change (msg_data_len (wit_frame p)) with n.
  change (msg_frame_len (wit_frame p)) with (n + 8).
  rewrite length_app, !length_fmap, length_header_bytes. split_and!; try done; lia.
Qed.

(** ** Properties *)

(** a chat message fans out into one message per target user: a chain in the
    order of the targets, the first in the request's own buffer and the others new,
    each addressed to its user, marked for collection when it cannot be pushed, and
    carrying a well-formed frame that decodes to the same pack with that user as
    the only target.  Without targets nothing happens; more than 1024 targets
    overrun the static array. *)
Theorem fan_out_one_copy_each {HC : ImCodec} h pack l m
    (Hp : pk_msg pack = Some l) (E : h !! l = Some m) (Hw : wf_msg m) (Hn : msg_next m = None)
    (Hd : sendable (pk_data pack) (im_target_uid (pack_msg (pk_data pack)))) :
  match im_target_uid (pack_msg (pk_data pack)) with
  | [] => createLocalMsgPack h pack = Ret (None, h)
  | u :: us =>
      if decide (length (u :: us) ≤ TARGET_MAX)%nat then
        ∃ h' ls, createLocalMsgPack h pack = Ret (Some l, h') ∧ lseg h' (Some l) (l :: ls) None ∧
          Forall2 (λ k v, ∃ m, h' !! k = Some m ∧ delivers (pk_data pack) (pk_type pack) BACKEND APP v m)
            (l :: ls) (u :: us) ∧
          (∀ k, k ∈ ls → h !! k = None) ∧ (∀ k, k ≠ l → is_Some (h !! k) → h' !! k = h !! k)
      else createLocalMsgPack h pack = Fault
  end.
Proof.
  destruct (im_target_uid (pack_msg (pk_data pack))) as [|u us] eqn:Et.
  - unfold createLocalMsgPack. by rewrite Et.
  - destruct (decide _) as [Hle|Hgt].
    + destruct (createLocalMsgPack_spec h pack l m u us Hp E Hw Hn Hd Et Hle) as (h' & ls & H1 & H2 & H3 & H4 & H5 & _).
      by exists h', ls.
    + unfold createLocalMsgPack. rewrite Et. by destruct (Nat.ltb_spec TARGET_MAX (length (u :: us))); [|lia].
Qed.

Lemma fan_out_one_copy_each_witness :
  let HC := plain_codec in
  let pack := mkIPack (Some 1%positive) (wit_chat [7; 8]) None in
  ∃ h' k, createLocalMsgPack {[1%positive := wit_frame (wit_chat [7; 8])]} pack = Ret (Some 1%positive, h') ∧
    lseg h' (Some 1%positive) [1%positive; k] None ∧
    ∃ m, h' !! k = Some m ∧ msg_uid m = 8.
Proof.
  intros HC pack.
  destruct (fan_out_one_copy_each {[1%positive := wit_frame (wit_chat [7; 8])]} pack 1%positive
    (wit_frame (wit_chat [7; 8]))) as (h' & ls & H1 & H2 & H3 & _).
  - reflexivity.
  - reflexivity.
  - apply wf_wit_frame. vm_compute. reflexivity.
  - reflexivity.
  - split; [vm_compute; reflexivity|]. split; [by apply codec_ok_made; vm_compute|]. split; [eexists; reflexivity|].
    repeat constructor; vm_compute; reflexivity.
  - apply Forall2_cons in H3 as [_ H3]. apply Forall2_cons_inv_r in H3 as (k & ks & (m & Em & Hm) & H3 & ->).
    apply Forall2_nil_inv_r in H3 as ->. exists h', k. split; [done|]. split; [done|].
    exists m. split; [done|]. apply Hm.
Defined.
