(* ===== verification/Processors.v ===== *)
(** The message processors: im::ImMessageDispatcher, the worker clusters behind
    it, im::ImMessageAuthProcessor, im::ImMessageProcessor, im::MessageBroker and
    im::MessageBrokerProcessor (message/*.cpp, thrift/broker/*.cpp).

    The dispatcher is the [IoProcessor] of the I/O threads: it sorts messages by
    the state of their connection.  The processors run on worker threads; they
    share the user router, the collector's queue and the store of messages.  What
    they read from outside (the clock, random numbers, the thread id) is an
    environment argument; the RPC to the message server is a parameter. *)
From S2P Require Import Prelude Heap Bytes MsMessage MsQueues LibQueues IoPushList IoAppConnection IoApp StringAlgos Ini Util IoAppCluster MsRouter UserRouter Protobuf ImPb ImParser.

(** ** Dispatcher and workers *)
(** im::ImAuthWorkerCluster and im::ImAppWorkerCluster: their queues. *)
Record ImMessageDispatcher := mkDispatcher {
  di_auth_workers : MsMessageBlockQueue;
  di_app_workers : MsMessagePriorityQueue }.

Definition ImAuthWorkerCluster_schedule (h : mheap) (q : MsMessageBlockQueue) (msg : ptr) :=
  MsMessageBlockQueue_put h q msg.

Definition ImAppWorkerCluster_schedule (h : mheap) (q : MsMessagePriorityQueue) (msg : ptr)
    : outcome (mheap * MsMessagePriorityQueue) :=
  let* m := load h msg in MsMessagePriorityQueue_put h q msg (msg_priority m).

(** [_pri_queue.init(2)] *)
Definition ImMessageDispatcher_new : outcome ImMessageDispatcher :=
  let* q := MsMessagePriorityQueue_init 2 in Ret (mkDispatcher MsMessageBlockQueue_new q).

(** [case AUTH_STATE], into which [case INIT_STATE] falls. *)
Definition dispatch_auth (h : mheap) (d : ImMessageDispatcher) (msg : ptr)
    : outcome (mheap * ImMessageDispatcher) :=
  let* h := modify h msg (set_priority (bits 4 0)) in
  let* (h, q) := ImAuthWorkerCluster_schedule h (di_auth_workers d) msg in
  Ret (h, mkDispatcher q (di_app_workers d)).

Definition ImMessageDispatcher_process (h : mheap) (d : ImMessageDispatcher) (msg : ptr)
    : outcome (mheap * ImMessageDispatcher) :=
  let* m := load h msg in
  let* state := defined (msg_state m) in
  if state =? INIT_STATE then
    let* h := modify h msg (set_state (Some AUTH_STATE)) in
    dispatch_auth h d msg
  else if state =? AUTH_STATE then dispatch_auth h d msg
  else
    let* h := modify h msg (set_priority (bits 4 1)) in
    let* (h, q) := ImAppWorkerCluster_schedule h (di_app_workers d) msg in
    Ret (h, mkDispatcher (di_auth_workers d) q).

#[export] Instance dispatcher_processor : IoProcessor ImMessageDispatcher :=
  {| process := ImMessageDispatcher_process |}.

(** ** What the processors share *)
Record im_world := mkIm {
  iw_msgs : mheap;
  iw_router : ImUserMessageRouter;
  iw_collector : option MsMessageBlockQueue;
  iw_published : list (Z * Z) (** user and instance, as published to redis *) }.

Definition iw_set (h : mheap) (r : ImUserMessageRouter) (w : im_world) : im_world :=
  mkIm h r (iw_collector w) (iw_published w).
Definition iw_set_msgs (h : mheap) (w : im_world) : im_world := iw_set h (iw_router w) w.

(** The clock ([time] and [gettimeofday]) and the global instance ids. *)
Record env := mkEnv { ev_time : Z; ev_tod : Z * Z; ev_im_instance : Z; ev_broker_instance : Z }.

Definition im_routeBack (w : im_world) (msg : ptr) : outcome im_world :=
  let* (h, r) := ImUserMessageRouter_routeBack (iw_msgs w) (iw_router w) msg in
  Ret (iw_set h r w).

(** The same code in both processors. *)
Definition processErrorPack (e : env) (w : im_world) (msg : ptr) : outcome im_world :=
  let* h := modify (iw_msgs w) msg (λ m,
    set_process_end_time (Some (ev_tod e)) (set_close_conn 1 (set_force_push 1 (set_need_collect 0 m)))) in
  im_routeBack (iw_set_msgs h w) msg.

(** ** Message ids *)
Record MessageIdDetail := mkDetail {
  id_time : Z; id_rand1 : Z; id_tid : Z; id_host_id : Z; id_counter : Z; id_rand2 : Z }.

(** The sixteen bytes of the union: bit-fields are allocated from the low end. *)
Definition detail_bytes (d : MessageIdDetail) : list Z :=
  le_bytes 4 (u32 (id_time d)) ++
  le_bytes 4 (bits 12 (id_rand1 d) + Z.shiftl (bits 20 (id_tid d)) 12) ++
  le_bytes 4 (u32 (id_host_id d)) ++
  le_bytes 4 (bits 16 (id_counter d) + Z.shiftl (bits 16 (id_rand2 d)) 16).

(** [rand1] and [rand2] are two results of [rand_r]. *)
Definition genMsgId (now rand1 tid host_id counter rand2 : Z) : cstr :=
  let d := mkDetail now (rand1 mod 4095) tid host_id counter (rand2 mod 65535) in
  le_bytes 8 (murmurHash64B (detail_bytes d) 0xEE6B27EB).

(** ** im::MessageBroker::dispatch *)
Record MessageRequest := mkRequest { rq_msh_id : Z; rq_msg_id : cstr; rq_msg : cstr }.
Inductive ResponseCode := RC_UNKNOWN | RC_OK | RC_ERROR.
(** The call returns a response or throws. *)
Inductive rpc_result := Rpc_response (code : ResponseCode) | Rpc_exception.

Definition MessageBroker_dispatch (call : MessageRequest → rpc_result) (e : env) (m : IMessage) : outcome Z :=
  let* id := defined (msg_id m) in
  let* data := read_data m in
  match call (mkRequest (ev_broker_instance e) id data) with
  | Rpc_response _ => Ret 0
  | Rpc_exception => Ret (-1)
  end.

Section processors.
Context {HC : ImCodec} (call : MessageRequest → rpc_result).

(** [_msg_router->update(msg)] *)
Definition im_update (e : env) (w : im_world) (msg : ptr) : outcome im_world :=
  let* r := ImUserMessageRouter_update (ev_im_instance e) (iw_msgs w) (iw_router w) msg in
  Ret (iw_set (iw_msgs w) r w).

(** The checks every handler starts with: age and connection state. *)
Definition acceptable (w : im_world) (pack : IMessagePack) (state : Z) : outcome bool :=
  let* ts := checkTimeStamp (iw_msgs w) pack in
  if ts =? -1 then Ret false
  else
    let* m := load (iw_msgs w) (pk_msg pack) in
    let* s := defined (msg_state m) in
    Ret (s =? state).

(** ** im::ImMessageProcessor *)
Definition processTouchPack (e : env) (w : im_world) (pack : IMessagePack) : outcome (Z * im_world) :=
  let* ok := acceptable w pack MSG_STATE in
  if negb ok then Ret (-1, w)
  else
    let uid := getTouchPackUid pack in
    if uid =? -1 then Ret (-1, w)
    else
      let* (msg, h) := createTouchAckPack (ev_time e) (iw_msgs w) uid pack in
      let* w := im_update e (iw_set_msgs h w) msg in
      let* w := im_routeBack w msg in
      Ret (0, w).

(** [mid] is the id [genMsgId] made. *)
Definition processMsgPack (e : env) (mid : cstr) (w : im_world) (pack : IMessagePack) : outcome (Z * im_world) :=
  let* ok := acceptable w pack MSG_STATE in
  if negb ok then Ret (-1, w)
  else
    let uid := getMsgPackUser pack in
    if uid =? -1 then Ret (-1, w)
    else if getMsgPackTargetUserCount pack <=? 0 then Ret (-1, w)
    else
      let* (ack, h, pack) := createMsgAckPack (ev_time e) (iw_msgs w) pack uid mid in
      let* w := im_routeBack (iw_set_msgs h w) (Some ack) in
      let* h := modify (iw_msgs w) (pk_msg pack) (λ m, set_id (Some mid) (set_uid uid m)) in
      let* m := load h (pk_msg pack) in
      let* ret := MessageBroker_dispatch call e m in
      if ret =? 0 then
        let* h := releaseIMessage h (pk_msg pack) in Ret (0, iw_set_msgs h w)
      else
        match iw_collector w with
        | Some q =>
            let* (h, q) := MsMessageCollector_collect h q (pk_msg pack) in
            Ret (0, mkIm h (iw_router w) (Some q) (iw_published w))
        | None => let* h := releaseIMessage h (pk_msg pack) in Ret (0, iw_set_msgs h w)
        end.

Definition processAuthPack (e : env) (w : im_world) (pack : IMessagePack) : outcome (Z * im_world) :=
  let* ok := acceptable w pack MSG_STATE in
  if negb ok then Ret (-1, w)
  else
    let uid := getAuthPackUid pack in
    if negb (uid =? -1) then
      let* (msg, h) := createAuthPack (ev_time e) (iw_msgs w) uid pack in
      let* w := im_routeBack (iw_set_msgs h w) msg in
      Ret (0, w)
    else Ret (-1, w).

(** The frame both processors share: parse, handle, and kick on failure. *)
Definition process_with (handle : im_world → IMessagePack → outcome (Z * im_world))
    (e : env) (w : im_world) (msg : ptr) : outcome (Z * im_world) :=
  let* h := modify (iw_msgs w) msg (set_process_begin_time (Some (ev_tod e))) in
  let w := iw_set_msgs h w in
  let* pack := parse (iw_msgs w) msg in
  match pack with
  | None => let* w := processErrorPack e w msg in Ret (-1, w)
  | Some pack =>
      let* (ret, w) := handle w pack in
      if ret =? 0 then Ret (0, w)
      else let* w := processErrorPack e w msg in Ret (-1, w)
  end.

Definition ImMessageProcessor_process (e : env) (mid : cstr) : im_world → ptr → outcome (Z * im_world) :=
  process_with (λ w pack,
    match getMessagePackType pack with
    | MSG => processMsgPack e mid w pack
    | TOUCH => processTouchPack e w pack
    | AUTH => processAuthPack e w pack
    | _ => Ret (-1, w)
    end) e.

(** ** im::ImMessageAuthProcessor *)
(** The authentication itself is still to be written. *)
Definition ImMessageAuthProcessor_auth (pack : IMessagePack) : Z :=
  if getAuthPackUid pack =? -1 then -1
  else match getAuthPackToken pack with [] => -1 | _ => 0 end.

Definition ImMessageAuthProcessor_processAuthPack (e : env) (w : im_world) (pack : IMessagePack)
    : outcome (Z * im_world) :=
  let* ok := acceptable w pack AUTH_STATE in
  if negb ok then Ret (-1, w)
  else if ImMessageAuthProcessor_auth pack =? 0 then
    let uid := getAuthPackUid pack in
    let* (msg, h) := createAuthPack (ev_time e) (iw_msgs w) uid pack in
    let* h := modify h msg (λ m, set_switch_state (Some switch_state_app_msg) (set_state (Some MSG_STATE) m)) in
    let* w := im_update e (iw_set_msgs h w) msg in
    let* w := im_routeBack w msg in
    Ret (0, mkIm (iw_msgs w) (iw_router w) (iw_collector w)
              (iw_published w ++ [(uid, ev_broker_instance e)]))
  else Ret (-1, w).

Definition ImMessageAuthProcessor_process (e : env) : im_world → ptr → outcome (Z * im_world) :=
  process_with (λ w pack,
    match getMessagePackType pack with
    | AUTH => ImMessageAuthProcessor_processAuthPack e w pack
    | _ => Ret (-1, w)
    end) e.

(** ** im::MessageBrokerProcessor *)
Definition MessageBrokerProcessor_processMsgPack (w : im_world) (pack : IMessagePack) : outcome (Z * im_world) :=
  if getMsgPackUser pack =? -1 then Ret (-1, w)
  else
    let* (msg, h) := createLocalMsgPack (iw_msgs w) pack in
    match msg with
    | Some _ =>
        let* (pending, h, r) := ImUserMessageRouter_routeList h (iw_router w) msg in
        match pending with
        | Some _ =>
            match iw_collector w with
            | Some q =>
                let* (h, q) := MsMessageCollector_collectList h q pending in
                Ret (0, mkIm h r (Some q) (iw_published w))
            | None => let* h := release_loop (S (size h)) h pending in Ret (0, iw_set h r w)
            end
        | None => Ret (0, iw_set h r w)
        end
    | None => Ret (-1, iw_set_msgs h w)
    end.

Definition MessageBrokerProcessor_process (w : im_world) (msg : ptr) : outcome (Z * im_world) :=
  let* pack := parse (iw_msgs w) msg in
  match pack with
  | None => let* h := releaseIMessage (iw_msgs w) msg in Ret (-1, iw_set_msgs h w)
  | Some pack =>
      let* (ret, w) := match getMessagePackType pack with
                       | MSG => MessageBrokerProcessor_processMsgPack w pack
                       | _ => Ret (-1, w)
                       end in
      if ret =? -1 then let* h := releaseIMessage (iw_msgs w) msg in Ret (ret, iw_set_msgs h w)
      else Ret (ret, w)
  end.

(** The RPC handler: a request becomes a message for the broker's workers. *)
Definition MessageHandler_dispatch (h : mheap) (q : MsMessageBlockQueue) (request : MessageRequest)
    : outcome (ResponseCode * mheap * MsMessageBlockQueue) :=
  match rq_msg request with
  | [] => Ret (RC_ERROR, h, q)
  | bs =>
      let* (l, h) := createIMessage h (i32 (Z.of_nat (length bs))) in
      let* h := modify h (Some l) (set_priority (bits 4 1)) in
      let* h := write_data h (Some l) bs in
      let* (h, q) := MsMessageBlockQueue_put h q (Some l) in
      Ret (RC_OK, h, q)
  end.

(** One turn of the worker threads: the application workers take by priority, the
    others one message at a time. *)
Definition ImAppMessageWorkerCore_turn (e : env) (mid : cstr) (q : MsMessagePriorityQueue) (w : im_world)
    : outcome (MsMessagePriorityQueue * im_world) :=
  let* (msg, h, q) := MsMessagePriorityQueue_get (iw_msgs w) q in
  let* (_, w) := ImMessageProcessor_process e mid (iw_set_msgs h w) msg in
  Ret (q, w).

Definition ImAuthMessageWorkerCore_turn (e : env) (q : MsMessageBlockQueue) (w : im_world)
    : outcome (MsMessageBlockQueue * im_world) :=
  let* (msg, h, q) := MsMessageBlockQueue_getN (iw_msgs w) q 1 in
  let* (_, w) := ImMessageAuthProcessor_process e (iw_set_msgs h w) msg in
  Ret (q, w).

Definition BrokerMessageWorkerCore_turn (q : MsMessageBlockQueue) (w : im_world)
    : outcome (MsMessageBlockQueue * im_world) :=
  let* (msg, h, q) := MsMessageBlockQueue_getN (iw_msgs w) q 1 in
  let* (_, w) := MessageBrokerProcessor_process (iw_set_msgs h w) msg in
  Ret (q, w).
End processors.

(** ** Lemmas *)
(** A message waiting to be processed: alone, framed, readable, with the fields the
    I/O thread set, and not in the local router's queue. *)
Record incoming (w : im_world) (qs : list loc) (l : loc) (m : IMessage) (bs : list Z) (st : Z) (gen : Z * Z)
    : Prop := {
  in_msg : iw_msgs w !! l = Some m;
  in_wf : wf_msg m;
  in_alone : msg_next m = None;
  in_switch : msg_switch_state m = None;
  in_data : read_data m = Ret bs;
  in_state : msg_state m = Some st;
  in_gen : msg_gen_time m = Some gen;
  in_queue : bq_rep (iw_msgs w) (ur_local (iw_router w)) qs;
  in_free : l ∉ qs }.

Lemma modify_Some h l m f : h !! l = Some m → modify h (Some l) f = Ret (<[l := f m]> h).
Proof.
  intros E. unfold modify. rewrite (load_Some _ _ _ E). cbn [obind]. by rewrite (store_Some _ _ _ _ E).
Qed.

Lemma im_routeBack_spec w qs l m :
  iw_msgs w !! l = Some m → msg_next m = None → bq_rep (iw_msgs w) (ur_local (iw_router w)) qs → l ∉ qs →
  ∃ w', im_routeBack w (Some l) = Ret w' ∧ bq_rep (iw_msgs w') (ur_local (iw_router w')) (qs ++ [l]) ∧
    iw_msgs w' !! l = Some m ∧ ur_table (iw_router w') = ur_table (iw_router w) ∧
    iw_collector w' = iw_collector w ∧ iw_published w' = iw_published w ∧
    relinks (iw_msgs w) (iw_msgs w') qs.
Proof.
  intros E Hn Hq Hl. unfold im_routeBack, ImUserMessageRouter_routeBack.
  destruct (local_route_spec (iw_msgs w) (iw_router w) qs l []) as (h & r & -> & Ht & Hq' & Hr & _);
    [done|cbn; eauto|set_solver|].
  cbn [obind]. eexists. split; [done|]. cbn. split; [done|]. split; [|done].
  rewrite (proj2 Hr) by done. done.
Qed.

(** A kicked message goes back to its connection with the order to close it. *)
Definition kicked (w : im_world) (qs : list loc) (l : loc) (r : outcome (Z * im_world)) : Prop :=
  ∃ w' m', r = Ret (-1, w') ∧ bq_rep (iw_msgs w') (ur_local (iw_router w')) (qs ++ [l]) ∧
    iw_msgs w' !! l = Some m' ∧ msg_close_conn m' = 1 ∧ msg_switch_state m' = None ∧
    ur_table (iw_router w') = ur_table (iw_router w) ∧ iw_published w' = iw_published w ∧
    iw_collector w' = iw_collector w.

Lemma processErrorPack_spec e w qs l m :
  iw_msgs w !! l = Some m → msg_next m = None → msg_switch_state m = None →
  bq_rep (iw_msgs w) (ur_local (iw_router w)) qs → l ∉ qs →
  kicked w qs l (let* w := processErrorPack e w (Some l) in Ret (-1, w)).
Proof.
  intros E Hn Hsw Hq Hl. unfold processErrorPack. rewrite (modify_Some _ _ _ _ E). cbn [obind].
  set (m1 := set_process_end_time _ _). set (w1 := iw_set_msgs _ w).
  destruct (im_routeBack_spec w1 qs l m1) as (w' & -> & Hq' & E' & Ht & Hc & Hp & _).
  - apply lookup_insert_eq.
  - done.
  - eapply bq_rep_frame; [|exact Hq]. intros k Hk. apply lookup_insert_ne. set_solver.
  - done.
  - cbn [obind]. exists w', m1. done.
Qed.

Section processor_lemmas.
Context {HC : ImCodec}.

(** The age of a pack when it was read. *)
Definition pack_age (gen : Z * Z) (p : ImPack) : Z :=
  i32 (fst gen - TIMESTAMP_20150101000000) - default 0 (p_ts p).
Definition age_defined (gen : Z * Z) (p : ImPack) : Prop := - 2 ^ 31 ≤ pack_age gen p < 2 ^ 31.

Lemma acceptable_spec w pack l m st gen state :
  pk_msg pack = Some l → iw_msgs w !! l = Some m → msg_state m = Some st → msg_gen_time m = Some gen →
  age_defined gen (pk_data pack) →
  acceptable w pack state = Ret ((pack_age gen (pk_data pack) <=? TIMESTAMP_GAP) && (st =? state)).
Proof.
  intros Hp E Hst Hg Ha. unfold acceptable, checkTimeStamp. rewrite Hp, (load_Some _ _ _ E). cbn [obind].
  rewrite Hg. cbn [defined obind]. fold (pack_age gen (pk_data pack)). unfold age_defined in Ha.
  destruct (Z.ltb_spec (pack_age gen (pk_data pack)) (- 2 ^ 31)); [lia|].
  destruct (Z.leb_spec (2 ^ 31) (pack_age gen (pk_data pack))); [lia|]. cbn [orb obind].
  destruct (Z.ltb_spec TIMESTAMP_GAP (pack_age gen (pk_data pack)));
    destruct (Z.leb_spec (pack_age gen (pk_data pack)) TIMESTAMP_GAP); try lia; [done|].
  cbn. rewrite Hst. done.
Qed.

(** What [process_with] hands to its handler. *)
Lemma process_with_spec handle e w qs l m bs st gen :
  incoming w qs l m bs st gen →
  let m1 := set_process_begin_time (Some (ev_tod e)) m in
  let w1 := iw_set_msgs (<[l := m1]> (iw_msgs w)) w in
  incoming w1 qs l m1 bs st gen ∧
  process_with handle e w (Some l) =
    match decode_pack bs with
    | Some p =>
        let* (ret, w2) := handle w1 (mkIPack (Some l) p None) in
        if ret =? 0 then Ret (0, w2) else let* w2 := processErrorPack e w2 (Some l) in Ret (-1, w2)
    | None => let* w2 := processErrorPack e w1 (Some l) in Ret (-1, w2)
    end.
Proof.
  intros [E Hw Hn Hsw Hd Hst Hg Hq Hl] m1 w1. split.
  - split; try done.
    + apply lookup_insert_eq.
    + eapply bq_rep_frame; [|exact Hq]. intros k Hk. apply lookup_insert_ne. set_solver.
  - unfold process_with. rewrite (modify_Some _ _ _ _ E). cbn [obind]. fold m1 w1. unfold parse.
    rewrite (load_Some (iw_msgs w1) l m1) by apply lookup_insert_eq. cbn [obind].
    change (read_data m1) with (read_data m). rewrite Hd. cbn [obind].
    destruct (decode_pack bs) as [p|] eqn:Ep; [|done].
    destruct (decode_complete _ _ Ep) as [_ [-> ->]%complete_has]. done.
Qed.

(** A reply in the request's own message, routed back. *)
Lemma reply_spec w qs l m bs st gen p uid :
  incoming w qs l m bs st gen → fits p → complete p = true → codec_ok p →
  ∃ m1, refill (iw_msgs w) (Some l) p (reply_fields uid) = Ret (<[l := m1]> (iw_msgs w)) ∧
    msg_next m1 = None ∧ msg_uid m1 = uid ∧ msg_io m1 = msg_io m ∧ msg_conn m1 = msg_conn m ∧
    msg_close_conn m1 = msg_close_conn m ∧ msg_switch_state m1 = None ∧ framed m1 ∧
    ∃ bs', read_data m1 = Ret bs' ∧ decode_pack bs' = Some p.
Proof.
  intros Hin Hf Hc Hok.
  destruct (refill_spec (iw_msgs w) l m p (reply_fields uid) (in_msg _ _ _ _ _ _ _ Hin) (in_wf _ _ _ _ _ _ _ Hin) Hf)
    as (buf & buf0 & size & -> & Hfr & Hr); [apply reply_fields_keeps|].
  eexists. split; [done|]. pose proof (in_alone _ _ _ _ _ _ _ Hin). pose proof (in_switch _ _ _ _ _ _ _ Hin).
  split_and!; try done. exists (encode_pack p). split; [done|]. by apply decode_encode_pack.
Qed.

(** Storing an updated message keeps the queue it is not in. *)
Lemma bq_rep_store (h : mheap) q qs l m : bq_rep h q qs → l ∉ qs → bq_rep (<[l := m]> h) q qs.
Proof. intros Hq Hl. eapply bq_rep_frame; [|exact Hq]. intros k Hk. apply lookup_insert_ne. set_solver. Qed.
End processor_lemmas.

(** ** Authentication *)
Section authentication.
Context {HC : ImCodec}.

(** What it takes to be let in. *)
Definition admitted (gen : Z * Z) (st : Z) (p : ImPack) : bool :=
  (default IM_UNKNOW (p_type p) =? IM_AUTH) && (pack_age gen p <=? TIMESTAMP_GAP) && (st =? AUTH_STATE) &&
  match c_auth_req (content p) with
  | Some a => negb (default (-1) (auth_uid a) =? -1) && negb (bool_decide (default [] (auth_token a) = []))
  | None => false
  end.

Lemma getMessagePackType_is_auth pack :
  match getMessagePackType pack with AUTH => true | _ => false end =
  (default IM_UNKNOW (p_type (pk_data pack)) =? IM_AUTH).
Proof.
  unfold getMessagePackType. set (t := default _ _).
  destruct (Z.eqb_spec t IM_UNKNOW) as [->|]; [done|]. destruct (Z.eqb_spec t IM_TOUCH) as [->|]; [done|].
  destruct (Z.eqb_spec t IM_MSG) as [->|]; [done|]. destruct (Z.eqb_spec t IM_MSG_ACK) as [->|]; [done|].
  by destruct (t =? IM_AUTH).
Qed.

Lemma auth_handler_rejects e w qs l m bs st gen p :
  incoming w qs l m bs st gen → age_defined gen p → admitted gen st p = false →
  let pack := mkIPack (Some l) p None in
  match getMessagePackType pack with
  | AUTH => ImMessageAuthProcessor_processAuthPack e w pack
  | _ => Ret (-1, w)
  end = Ret (-1, w).
Proof.
  intros Hin Ha Had pack. pose proof (getMessagePackType_is_auth pack) as Hty. unfold admitted in Had.
  cbn [pack pk_data] in Hty. rewrite <-Hty in Had. destruct (getMessagePackType pack); try done.
  cbn [andb] in Had. unfold ImMessageAuthProcessor_processAuthPack.
  rewrite (acceptable_spec w pack l m st gen) by (done || apply Hin). cbn [obind pk_data pack].
  destruct ((pack_age gen p <=? TIMESTAMP_GAP) && (st =? AUTH_STATE)); [|done]. cbn [andb negb] in *.
  unfold ImMessageAuthProcessor_auth, getAuthPackUid, getAuthPackToken. cbn [pk_data pack].
  destruct (c_auth_req (content p)) as [a|]; [|done].
  destruct (default (-1) (auth_uid a) =? -1); [done|]. cbn [negb andb] in Had.
  destruct (default [] (auth_token a)); [done|]. by rewrite bool_decide_false in Had.
Qed.

Lemma auth_handler_admits e w qs l m bs st gen p a :
  incoming w qs l m bs st gen → age_defined gen p → admitted gen st p = true →
  c_auth_req (content p) = Some a → fits (auth_response (ev_time e) (default [] (auth_token a))) →
  let uid := default (-1) (auth_uid a) in
  ∃ w' m', ImMessageAuthProcessor_processAuthPack e w (mkIPack (Some l) p None) = Ret (0, w') ∧
    bq_rep (iw_msgs w') (ur_local (iw_router w')) (qs ++ [l]) ∧ iw_msgs w' !! l = Some m' ∧
    msg_switch_state m' = Some switch_state_app_msg ∧ msg_state m' = Some MSG_STATE ∧
    msg_close_conn m' = msg_close_conn m ∧ framed m' ∧
    (∃ bs', read_data m' = Ret bs' ∧
       decode_pack bs' = Some (auth_response (ev_time e) (default [] (auth_token a)))) ∧
    ur_table (iw_router w') = <[uid := mkChannel uid (msg_io m) (msg_conn m) (ev_im_instance e)]> (ur_table (iw_router w)) ∧
    iw_published w' = iw_published w ++ [(uid, ev_broker_instance e)] ∧ iw_collector w' = iw_collector w.
Proof.
  intros Hin Ha Had Ea Hf uid. unfold admitted in Had. rewrite Ea in Had. rewrite !andb_true_iff in Had.
  destruct Had as [[[_ Hage] Hst] [Hu Htok]]. set (pack := mkIPack (Some l) p None).
  unfold ImMessageAuthProcessor_processAuthPack.
  rewrite (acceptable_spec w pack l m st gen) by (done || apply Hin). cbn [obind pk_data pack].
  rewrite Hage, Hst. cbn [andb negb]. unfold ImMessageAuthProcessor_auth, getAuthPackUid, getAuthPackToken, createAuthPack.
  cbn [pk_data pk_msg pack]. rewrite Ea. fold uid. fold uid in Hu. apply negb_true_iff in Hu. rewrite Hu.
  set (tok := default [] (auth_token a)) in *.
  destruct tok as [|c tok'] eqn:Etok; [done|]. rewrite <-Etok in *.
  destruct (reply_spec w qs l m bs st gen (auth_response (ev_time e) tok) uid Hin Hf eq_refl (auth_response_ok _ _))
    as (m1 & -> & Hn1 & Huid & Hio & Hcn & Hcl & _ & Hfr & Hread).
  cbn [obind]. rewrite (modify_Some _ l m1) by apply lookup_insert_eq. cbn [obind]. rewrite insert_insert_eq.
  set (m2 := set_switch_state _ _). unfold im_update, ImUserMessageRouter_update. cbn [iw_msgs iw_set_msgs iw_set].
  rewrite (load_Some _ l m2) by apply lookup_insert_eq. cbn [obind].
  set (w2 := iw_set _ _ _).
  destruct (im_routeBack_spec w2 qs l m2) as (w' & -> & Hq' & E' & Ht & Hc & Hp & _).
  - apply lookup_insert_eq.
  - done.
  - apply bq_rep_store; apply Hin.
  - apply Hin.
  - cbn [obind]. eexists _, m2. split; [done|]. cbn [iw_msgs iw_router iw_published iw_collector].
    split; [done|]. split; [done|]. split; [done|]. split; [done|]. split; [done|]. split; [done|].
    split; [done|]. split; [|by rewrite Hp]. rewrite Ht. subst w2. cbn.
    change (msg_uid m2) with (msg_uid m1). change (msg_io m2) with (msg_io m1).
    change (msg_conn m2) with (msg_conn m1). by rewrite Huid, Hio, Hcn.
Qed.
End authentication.

(** ** Keep-alives *)
Section touch.
Context {HC : ImCodec}.

Definition touch_ok (gen : Z * Z) (st : Z) (p : ImPack) : bool :=
  (pack_age gen p <=? TIMESTAMP_GAP) && (st =? MSG_STATE) && negb (getTouchPackUid (mkIPack None p None) =? -1).

Lemma touch_handler_rejects e w qs l m bs st gen p :
  incoming w qs l m bs st gen → age_defined gen p → touch_ok gen st p = false →
  processTouchPack e w (mkIPack (Some l) p None) = Ret (-1, w).
Proof.
  intros Hin Ha Hok. unfold processTouchPack. set (pack := mkIPack (Some l) p None).
  rewrite (acceptable_spec w pack l m st gen) by (done || apply Hin). cbn [obind pk_data pack].
  unfold touch_ok in Hok. destruct ((pack_age gen p <=? TIMESTAMP_GAP) && (st =? MSG_STATE)); [|done].
  cbn [andb negb] in *. change (getTouchPackUid pack) with (getTouchPackUid (mkIPack None p None)).
  by destruct (getTouchPackUid _ =? -1).
Qed.

Lemma touch_handler_accepts e w qs l m bs st gen p :
  codec_ok p → incoming w qs l m bs st gen → age_defined gen p → touch_ok gen st p = true →
  let uid := getTouchPackUid (mkIPack None p None) in
  fits (touch_ack (ev_time e) uid) →
  ∃ w' m', processTouchPack e w (mkIPack (Some l) p None) = Ret (0, w') ∧
    bq_rep (iw_msgs w') (ur_local (iw_router w')) (qs ++ [l]) ∧ iw_msgs w' !! l = Some m' ∧ framed m' ∧
    (∃ bs', read_data m' = Ret bs' ∧ decode_pack bs' = Some (touch_ack (ev_time e) uid)) ∧
    ur_table (iw_router w') =
      <[uid := mkChannel uid (msg_io m) (msg_conn m) (ev_im_instance e)]> (ur_table (iw_router w)).
Proof.
  intros Hcp Hin Ha Hok uid Hf. unfold touch_ok in Hok. rewrite !andb_true_iff in Hok. destruct Hok as [[Hage Hst] Hu].
  fold uid in Hu. set (pack := mkIPack (Some l) p None). unfold processTouchPack.
  rewrite (acceptable_spec w pack l m st gen) by (done || apply Hin). cbn [obind pk_data pack].
  rewrite Hage, Hst. cbn [andb negb]. change (getTouchPackUid pack) with uid. apply negb_true_iff in Hu. rewrite Hu.
  unfold createTouchAckPack. cbn [pk_msg pack].
  destruct (reply_spec w qs l m bs st gen (touch_ack (ev_time e) uid) uid Hin Hf eq_refl
    (touch_ack_ok _ _ (touch_uid_typed (mkIPack None p None) Hcp)))
    as (m1 & -> & Hn1 & Huid & Hio & Hcn & _ & _ & Hfr & Hread).
  cbn [obind]. unfold im_update, ImUserMessageRouter_update. cbn [iw_msgs iw_set_msgs iw_set].
  rewrite (load_Some _ l m1) by apply lookup_insert_eq. cbn [obind]. set (w2 := iw_set _ _ _).
  destruct (im_routeBack_spec w2 qs l m1) as (w' & -> & Hq' & E' & Ht & _); [apply lookup_insert_eq|done|
    apply bq_rep_store; apply Hin|apply Hin|].
  cbn [obind]. exists w', m1. split_and!; try done. rewrite Ht. subst w2. cbn. by rewrite Huid, Hio, Hcn.
Qed.
End touch.

(** ** Chat messages *)
Section chat.
Context {HC : ImCodec} (call : MessageRequest → rpc_result).

Definition is_request (p : ImPack) : bool := default IM_REQUEST (im_type (pack_msg p)) =? IM_REQUEST.

(** The payload the message carries on: a request gets its id. *)
Definition forwarded (mid : cstr) (p : ImPack) (bs : list Z) : list Z :=
  if is_request p then encode_pack (update_msg (im_set_msg_id mid) p) else bs.

Lemma createMsgAckPack_spec now h l m bs p uid mid :
  codec_ok p → h !! l = Some m → wf_msg m → read_data m = Ret bs →
  fits (update_msg (im_set_msg_id mid) p) → fits (msg_ack now mid (default 0 (im_seq (pack_msg p)))) →
  ∃ ack mack m1 pack', createMsgAckPack now h (mkIPack (Some l) p None) uid mid =
      Ret (ack, <[ack := mack]> (<[l := m1]> h), pack') ∧ pk_msg pack' = Some l ∧ h !! ack = None ∧
    read_data m1 = Ret (forwarded mid p bs) ∧ msg_next m1 = msg_next m ∧
    msg_next mack = None ∧ msg_uid mack = uid ∧ msg_io mack = msg_io m ∧ msg_conn mack = msg_conn m ∧ framed mack ∧
    ∃ bs', read_data mack = Ret bs' ∧
      decode_pack bs' = Some (msg_ack now mid (default 0 (im_seq (pack_msg p)))).
Proof.
  intros Hcp E Hw Hr Hf1 Hf2. unfold createMsgAckPack. cbn [pk_data pk_msg]. fold (is_request p).
  assert (∃ m1 data, (if (if is_request p then APP_REQUEST else APP_REPLY) =? APP_REQUEST then
      let* h := fixIMessage h (Some l) (Z.of_nat (length (encode_pack (update_msg (im_set_msg_id mid) p)))) in
      let* h := write_data h (Some l) (encode_pack (update_msg (im_set_msg_id mid) p)) in
      Ret (h, update_msg (im_set_msg_id mid) p) else Ret (h, p)) = Ret (<[l := m1]> h, data) ∧
    read_data m1 = Ret (forwarded mid p bs) ∧ msg_next m1 = msg_next m ∧ msg_io m1 = msg_io m ∧
    msg_conn m1 = msg_conn m) as (m1 & data & -> & Hr1 & Hn1 & Hio & Hcn).
  { unfold forwarded. destruct (is_request p); cbn [Z.eqb].
    - set (bs1 := encode_pack _) in *. apply fits_int in Hf1. fold bs1 in Hf1.
      destruct (fixIMessage_spec h l m (Z.of_nat (length bs1)) E Hw) as (buf & size & Hfix & Hfr); [lia|].
      change (APP_REQUEST =? APP_REQUEST) with true. cbn iota. rewrite Hfix. cbn [obind].
      set (mf := set_frame _ _ _ _ _ m) in *.
      destruct (write_data_spec (<[l := mf]> h) l mf bs1 (lookup_insert_eq _ _ _) Hfr eq_refl)
        as (buf' & -> & _ & Hr').
      cbn [obind]. rewrite insert_insert_eq. eexists _, _. done.
    - exists m, p. rewrite insert_id by done. done. }
  cbn [obind]. rewrite (load_Some _ l m1) by apply lookup_insert_eq. cbn [obind].
  set (f := λ m0 : IMessage, set_need_collect 0 _).
  destruct (new_filled_spec (<[l := m1]> h) (msg_ack now mid (default 0 (im_seq (pack_msg p)))) f)
    as (ack & m0 & buf & -> & En & [b Em0] & Hfr & Hrd); [done|done|].
  cbn [obind]. assert (l ≠ ack) as Hne by (intros ->; by rewrite lookup_insert_eq in En).
  rewrite lookup_insert_ne in En by done.
  eexists ack, _, m1, _. split; [done|]. split; [done|]. split; [done|]. split; [done|]. split; [done|].
  split; [by rewrite Em0|]. split; [done|]. split; [done|]. split; [done|]. split; [done|].
  eexists. split; [done|]. apply decode_encode_pack; [|done..]. by apply msg_ack_ok, seq_typed.
Qed.

(** What becomes of the message after the call to the message server. *)
Definition settled (w w' : im_world) (ks : list loc) (l : loc) (result : rpc_result) : Prop :=
  match result, iw_collector w with
  | Rpc_exception, Some _ => ∃ q', iw_collector w' = Some q' ∧ bq_rep (iw_msgs w') q' (ks ++ [l])
  | _, c => iw_msgs w' !! l = None ∧ iw_collector w' = c
  end.

(** The second half of [processMsgPack], once the acknowledgement is on its way. *)
Definition forward_msg (e : env) (mid : cstr) (uid : Z) (w : im_world) (l : loc) : outcome (Z * im_world) :=
  let* h := modify (iw_msgs w) (Some l) (λ m, set_id (Some mid) (set_uid uid m)) in
  let* m := load h (Some l) in
  let* ret := MessageBroker_dispatch call e m in
  if ret =? 0 then let* h := releaseIMessage h (Some l) in Ret (0, iw_set_msgs h w)
  else
    match iw_collector w with
    | Some q =>
        let* (h, q) := MsMessageCollector_collect h q (Some l) in
        Ret (0, mkIm h (iw_router w) (Some q) (iw_published w))
    | None => let* h := releaseIMessage h (Some l) in Ret (0, iw_set_msgs h w)
    end.

Lemma forward_msg_spec e mid uid w rs ks l m bs :
  iw_msgs w !! l = Some m → read_data m = Ret bs →
  bq_rep (iw_msgs w) (ur_local (iw_router w)) rs → l ∉ rs → ks ## rs →
  (∀ q, iw_collector w = Some q → bq_rep (iw_msgs w) q ks ∧ l ∉ ks) →
  ∃ w', forward_msg e mid uid w l = Ret (0, w') ∧ iw_router w' = iw_router w ∧
    bq_rep (iw_msgs w') (ur_local (iw_router w')) rs ∧
    (∀ k, k ∉ l :: ks → iw_msgs w' !! k = iw_msgs w !! k) ∧
    settled w w' ks l (call (mkRequest (ev_broker_instance e) mid bs)).
Proof.
  intros E Hr Hq Hl Hkr Hcol. unfold forward_msg. rewrite (modify_Some _ _ _ _ E). cbn [obind].
  set (m1 := set_id _ _). set (h1 := <[l := m1]> (iw_msgs w)).
  assert (h1 !! l = Some m1) as E1 by apply lookup_insert_eq.
  assert (∀ k, k ≠ l → h1 !! k = iw_msgs w !! k) as Hk1 by (intros; by apply lookup_insert_ne).
  rewrite (load_Some _ _ _ E1). cbn [obind]. unfold MessageBroker_dispatch.
  change (msg_id m1) with (Some mid). change (read_data m1) with (read_data m). cbn [defined obind].
  rewrite Hr. cbn [obind]. unfold settled.
  assert (∃ w', (let* h := releaseIMessage h1 (Some l) in Ret (0, iw_set_msgs h w)) = Ret (0, w') ∧
    iw_router w' = iw_router w ∧ bq_rep (iw_msgs w') (ur_local (iw_router w')) rs ∧
    (∀ k, k ∉ l :: ks → iw_msgs w' !! k = iw_msgs w !! k) ∧
    iw_msgs w' !! l = None ∧ iw_collector w' = iw_collector w) as (wr & Hrel & Hr1 & Hr2 & Hr3 & Hr4 & Hr5).
  { unfold releaseIMessage. rewrite (dealloc_Some _ _ _ E1). cbn [obind]. eexists. split; [done|]. cbn.
    split; [done|]. split; [|split; [|split; [apply lookup_delete_eq|done]]].
    - eapply bq_rep_frame; [|exact Hq]. intros k Hk. rewrite lookup_delete_ne by set_solver. apply Hk1. set_solver.
    - intros k Hk. rewrite lookup_delete_ne by set_solver. apply Hk1. set_solver. }
  destruct (call _) as [code|]; cbn [obind].
  - change (0 =? 0) with true. cbn iota. rewrite Hrel. exists wr. done.
  - change (-1 =? 0) with false. cbn iota. destruct (iw_collector w) as [q|] eqn:Ec.
    + destruct (Hcol q eq_refl) as [Hks Hlk].
      destruct (bq_put_spec h1 q ks l m1) as (h' & q' & Hput & Hq' & Hrelk); [by apply bq_rep_store|done|done|].
      unfold MsMessageCollector_collect. rewrite Hput. cbn [obind]. eexists. split; [done|]. cbn.
      split; [done|]. split; [|split; [|eauto]].
      * eapply bq_rep_frame; [|exact Hq]. intros k Hk. rewrite (proj2 Hrelk) by set_solver. apply Hk1. set_solver.
      * intros k Hk. rewrite (proj2 Hrelk) by done. apply Hk1. set_solver.
    + rewrite Hrel. exists wr. done.
Qed.
(** The collector's queue, when there is a collector. *)
Definition collector_rep (w : im_world) (ks : list loc) : Prop :=
  match iw_collector w with Some q => bq_rep (iw_msgs w) q ks | None => ks = [] end.

Lemma collector_rep_alloc w ks k : collector_rep w ks → k ∈ ks → is_Some (iw_msgs w !! k).
Proof.
  unfold collector_rep. destruct (iw_collector w); [|intros ->; set_solver].
  intros [[Hs _] _] Hk. by eapply lseg_in.
Qed.

Lemma collector_rep_frame w w' ks :
  iw_collector w' = iw_collector w → (∀ k, k ∈ ks → iw_msgs w' !! k = iw_msgs w !! k) →
  collector_rep w ks → collector_rep w' ks.
Proof.
  unfold collector_rep. intros -> Hf. destruct (iw_collector w); [|done]. by apply bq_rep_frame.
Qed.

(** What makes a chat pack good enough to be sent on. *)
Definition chat_ok (gen : Z * Z) (st : Z) (p : ImPack) : bool :=
  (pack_age gen p <=? TIMESTAMP_GAP) && (st =? MSG_STATE) &&
  negb (getMsgPackUser (mkIPack None p None) =? -1) && negb (bool_decide (im_target_uid (pack_msg p) = [])).

Lemma msg_handler_rejects e mid w qs l m bs st gen p :
  incoming w qs l m bs st gen → age_defined gen p → chat_ok gen st p = false →
  processMsgPack call e mid w (mkIPack (Some l) p None) = Ret (-1, w).
Proof.
  intros Hin Ha Hok. unfold processMsgPack. set (pack := mkIPack (Some l) p None).
  rewrite (acceptable_spec w pack l m st gen) by (done || apply Hin). cbn [obind pk_data pack].
  unfold chat_ok in Hok. destruct ((pack_age gen p <=? TIMESTAMP_GAP) && (st =? MSG_STATE)); [|done].
  cbn [andb negb] in *. change (getMsgPackUser pack) with (getMsgPackUser (mkIPack None p None)).
  destruct (getMsgPackUser _ =? -1); [done|]. cbn [negb andb] in Hok.
  unfold getMsgPackTargetUserCount. cbn [pk_data pack].
  destruct (im_target_uid (pack_msg p)); [done|]. by rewrite bool_decide_false in Hok.
Qed.

(** The acknowledgement goes back to the sender's connection, before the message
    itself is sent on. *)
Lemma msg_handler_accepts e mid w qs ks l m bs st gen p :
  codec_ok p → incoming w qs l m bs st gen → age_defined gen p → chat_ok gen st p = true →
  fits (update_msg (im_set_msg_id mid) p) → fits (msg_ack (ev_time e) mid (default 0 (im_seq (pack_msg p)))) →
  collector_rep w ks → l ∉ ks → ks ## qs →
  ∃ w' ack mack, processMsgPack call e mid w (mkIPack (Some l) p None) = Ret (0, w') ∧
    iw_msgs w !! ack = None ∧ iw_msgs w' !! ack = Some mack ∧
    bq_rep (iw_msgs w') (ur_local (iw_router w')) (qs ++ [ack]) ∧
    msg_uid mack = getMsgPackUser (mkIPack None p None) ∧ msg_io mack = msg_io m ∧ msg_conn mack = msg_conn m ∧
    framed mack ∧ (∃ bs', read_data mack = Ret bs' ∧
      decode_pack bs' = Some (msg_ack (ev_time e) mid (default 0 (im_seq (pack_msg p))))) ∧
    ur_table (iw_router w') = ur_table (iw_router w) ∧
    settled w w' ks l (call (mkRequest (ev_broker_instance e) mid (forwarded mid p bs))).
Proof.
  intros Hcp Hin Ha Hok Hf1 Hf2 Hc Hlk Hkq. unfold chat_ok in Hok. rewrite !andb_true_iff in Hok.
  destruct Hok as [[[Hage Hst] Hu] Ht]. unfold processMsgPack. set (pack := mkIPack (Some l) p None).
  rewrite (acceptable_spec w pack l m st gen) by (done || apply Hin). cbn [obind pk_data pack].
  rewrite Hage, Hst. cbn [andb negb]. change (getMsgPackUser pack) with (getMsgPackUser (mkIPack None p None)).
  set (uid := getMsgPackUser _) in *. apply negb_true_iff in Hu. rewrite Hu.
  assert ((getMsgPackTargetUserCount pack <=? 0) = false) as ->.
  { unfold getMsgPackTargetUserCount. cbn [pk_data pack]. by destruct (im_target_uid (pack_msg p)). }
  subst pack. destruct (createMsgAckPack_spec (ev_time e) (iw_msgs w) l m bs p uid mid) as
    (ack & mack & m1 & pack' & -> & Ep & Eack & Hr1 & Hn1 & Hna & Hau & Hai & Hac & Hfr & Hread); try apply Hin; try done.
  cbn [obind]. rewrite Ep. set (w1 := iw_set_msgs _ w).
  assert (l ≠ ack) as Hne by (intros ->; pose proof (in_msg _ _ _ _ _ _ _ Hin); congruence).
  assert (∀ k, k ≠ l → k ≠ ack → iw_msgs w1 !! k = iw_msgs w !! k) as Hk1
    by (intros; subst w1; cbn; by rewrite !lookup_insert_ne).
  assert (∀ k, is_Some (iw_msgs w !! k) → k ≠ ack) as Hal by (intros k [x Hx]; congruence).
  assert ((ack ∉ qs) ∧ (ack ∉ ks)) as [Haq Hak].
  { split; intros Hx; [destruct (in_queue _ _ _ _ _ _ _ Hin) as [[Hs _] _]; apply (Hal ack); [by eapply lseg_in|done]|].
    apply (Hal ack); [by eapply collector_rep_alloc|done]. }
  pose proof (in_free _ _ _ _ _ _ _ Hin) as Hlq.
  destruct (im_routeBack_spec w1 qs ack mack) as (w2 & -> & Hq2 & E2 & Ht2 & Hc2 & _ & Hrel).
  { apply lookup_insert_eq. } { done. }
  { eapply bq_rep_frame; [|apply Hin]. intros k Hk. apply Hk1; set_solver. } { done. }
  cbn [obind]. change (let* h := _ in _) with (forward_msg e mid uid w2 l).
  destruct (forward_msg_spec e mid uid w2 (qs ++ [ack]) ks l m1 (forwarded mid p bs))
    as (w' & -> & Hr' & Hq' & Hfr' & Hset); try done.
  { rewrite (proj2 Hrel) by done. subst w1. cbn. rewrite lookup_insert_ne by done. apply lookup_insert_eq. }
  { set_solver. } { set_solver. }
  { intros q Hq. split; [|done]. assert (collector_rep w2 ks) as Hc2'; [|unfold collector_rep in Hc2'; by rewrite Hq in Hc2'].
    eapply (collector_rep_frame w); [exact (eq_trans Hc2 eq_refl)| |exact Hc]. intros k Hk.
    rewrite (proj2 Hrel) by set_solver. apply Hk1; set_solver. }
  exists w', ack, mack. rewrite Hfr', Hr' by set_solver. split_and!; try done; [by rewrite <-Hr'|].
  unfold settled in *. rewrite Hc2 in Hset. exact Hset.
Qed.
End chat.

(** ** The broker *)
Section broker.
Context {HC : ImCodec}.

(** A message stamped with the connection of its user, if he has one. *)
Definition sent (t : channel_table) (data : ImPack) (v : Z) (m : IMessage) : Prop :=
  delivers data None BACKEND APP v m ∧
  match found t v with Some c => msg_io m = ch_io c ∧ msg_conn m = ch_conn c | None => True end.

Definition online (t : channel_table) (x : loc * Z) : bool := bool_decide (is_Some (found t x.2)).

Lemma set_next_same p m m' : set_next None m = set_next None m' → set_next p m = set_next p m'.
Proof. intros E. change (set_next p (set_next None m) = set_next p (set_next None m')). by rewrite E. Qed.

Lemma set_next_id m : set_next (msg_next m) m = m.
Proof. by destruct m. Qed.

Lemma sent_routed t data v m o :
  delivers data None BACKEND APP v m → same_msg o (Some (routed t m)) → ∃ m', o = Some m' ∧ sent t data v m'.
Proof.
  intros Hd Hs. destruct o as [m'|]; [|done]. unfold same_msg in Hs. cbn in Hs. apply (inj Some) in Hs. exists m'. split; [done|].
  rewrite <-(set_next_id m'), (set_next_same _ _ _ Hs). pose proof (dv_uid _ _ _ _ _ _ Hd) as Hu.
  unfold routed, sent. rewrite Hu. split.
  - apply delivers_next. destruct (found t v); [|done]. destruct Hd. by split.
  - by destruct (found t v).
Qed.

(** The messages that can be routed, by the users they are for. *)
Lemma filter_reachable t (h : mheap) data b ls us :
  Forall2 (λ k v, ∃ m, h !! k = Some m ∧ delivers data None BACKEND APP v m) ls us →
  filter (λ l, reachable t h l = b) ls = (filter (λ x, online t x = b) (zip ls us)).*1.
Proof.
  induction 1 as [|k v ls us (m & E & Hd) _ IH]; [done|]. cbn [zip]. rewrite !filter_cons.
  assert (reachable t h k = online t (k, v)) as ->.
  { unfold reachable, online. rewrite E. by rewrite (dv_uid _ _ _ _ _ _ Hd). }
  destruct (decide _); cbn; [by f_equal|done].
Qed.

(** What the collector, if there is one, does with the messages nobody reads now. *)
Definition kept_or_freed (w w' : im_world) (data : ImPack) (ks : list loc) (xs : list (loc * Z)) : Prop :=
  match iw_collector w with
  | Some _ => collector_rep w' (ks ++ xs.*1) ∧
      ∀ x, x ∈ xs → ∃ m', iw_msgs w' !! x.1 = Some m' ∧ delivers data None BACKEND APP x.2 m'
  | None => ∀ x, x ∈ xs → iw_msgs w' !! x.1 = None
  end.
(** The second half of [processMsgPack]: the messages that were not routed. *)
Definition settle_pending (w : im_world) (h : mheap) (r : ImUserMessageRouter) (pending : ptr)
    : outcome (Z * im_world) :=
  match pending with
  | Some _ =>
      match iw_collector w with
      | Some q =>
          let* (h, q) := MsMessageCollector_collectList h q pending in
          Ret (0, mkIm h r (Some q) (iw_published w))
      | None => let* h := release_loop (S (size h)) h pending in Ret (0, iw_set h r w)
      end
  | None => Ret (0, iw_set h r w)
  end.

Lemma settle_pending_spec w h r p pend qs ks :
  lseg h p pend None → bq_rep h (ur_local r) qs → collector_rep (iw_set h r w) ks →
  pend ## qs → pend ## ks → ks ## qs →
  ∃ w', settle_pending w h r p = Ret (0, w') ∧ iw_router w' = r ∧ (iw_collector w' = None ↔ iw_collector w = None) ∧
    bq_rep (iw_msgs w') (ur_local r) qs ∧
    (∀ k, k ∉ ks → k ∉ pend → iw_msgs w' !! k = h !! k) ∧
    match iw_collector w with
    | Some _ => collector_rep w' (ks ++ pend) ∧ ∀ k, k ∈ pend → iw_msgs w' !! k = h !! k
    | None => ∀ k, k ∈ pend → iw_msgs w' !! k = None
    end.
Proof.
  intros Hs Hq Hc Hpq Hpk Hkq. unfold settle_pending, collector_rep in *. cbn in Hc.
  destruct pend as [|v vs].
  { simpl in Hs. subst p. eexists. split; [done|]. cbn. split_and!; try done.
    destruct (iw_collector w); [by rewrite app_nil_r|set_solver]. }
  pose proof Hs as [-> _]. destruct (iw_collector w) as [q|] eqn:Ec.
  - destruct (bq_putList_spec h q ks v vs Hc Hs) as (h' & q' & Hput & Hq' & Hrel); [set_solver|].
    unfold MsMessageCollector_collectList. rewrite Hput. cbn [obind]. eexists. split; [done|]. cbn.
    split; [done|]. split; [done|]. split; [|split; [|split; [done|]]].
    + eapply bq_rep_frame; [|exact Hq]. intros k Hk. apply (proj2 Hrel). set_solver.
    + intros k Hk _. by apply (proj2 Hrel).
    + intros k Hk. apply (proj2 Hrel). set_solver.
  - rewrite (release_loop_spec _ _ _ _ Hs) by (pose proof (lseg_length _ _ _ Hs); lia). cbn [obind].
    eexists. split; [done|]. cbn [iw_msgs iw_router iw_set iw_collector].
    split; [done|]. split; [done|]. split; [|split; [|intros; by apply delete_all_in]].
    + eapply bq_rep_frame; [|exact Hq]. intros k Hk. apply delete_all_ne. set_solver.
    + intros k _ Hk. by apply delete_all_ne.
Qed.
(** What else the broker does to the store. *)
Lemma broker_handler_full w l m p u us qs ks :
  iw_msgs w !! l = Some m → wf_msg m → msg_next m = None → getMsgPackUser (mkIPack (Some l) p None) ≠ -1 →
  im_target_uid (pack_msg p) = u :: us → (length (u :: us) ≤ TARGET_MAX)%nat → sendable p (u :: us) →
  bq_rep (iw_msgs w) (ur_local (iw_router w)) qs → l ∉ qs → collector_rep w ks → l ∉ ks → ks ## qs →
  let t := ur_table (iw_router w) in
  ∃ w' ls, let xs := zip ls (u :: us) in
    MessageBrokerProcessor_processMsgPack w (mkIPack (Some l) p None) = Ret (0, w') ∧
    length ls = length (u :: us) ∧ ur_table (iw_router w') = t ∧
    bq_rep (iw_msgs w') (ur_local (iw_router w')) (qs ++ (filter (λ x, online t x = true) xs).*1) ∧
    (∀ x, x ∈ filter (λ x, online t x = true) xs → ∃ m', iw_msgs w' !! x.1 = Some m' ∧ sent t p x.2 m') ∧
    kept_or_freed w w' p ks (filter (λ x, online t x = false) xs) ∧
    (∀ k, k ∈ ls → k = l ∨ iw_msgs w !! k = None) ∧
    (∀ k, is_Some (iw_msgs w !! k) → k ≠ l → k ∉ qs → k ∉ ks → iw_msgs w' !! k = iw_msgs w !! k) ∧
    (∀ k, k ∈ qs → same_msg (iw_msgs w' !! k) (iw_msgs w !! k)) ∧
    (iw_collector w' = None ↔ iw_collector w = None) ∧
    (unmarked m → ∀ x, x ∈ filter (λ x, online t x = true) xs → ∃ m', iw_msgs w' !! x.1 = Some m' ∧ unmarked m').
Proof.
  intros E Hw Hn Hu Ht Hmax Hsend Hq Hlq Hc Hlk Hkq t. set (pack := mkIPack (Some l) p None) in *.
  destruct (createLocalMsgPack_spec (iw_msgs w) pack l m u us eq_refl E Hw Hn Hsend Ht Hmax)
    as (h1 & ls & Hcreate & Hls & HF & Hfresh & Hold & Hun).
  assert (∀ k, k ∈ qs → k ∉ l :: ls) as Hqd.
  { intros k Hk [->|Hin]%elem_of_cons; [done|]. destruct (proj1 Hq) as [Hsq _].
    destruct (lseg_in _ _ _ _ _ Hsq Hk) as [x Hx]. by rewrite (Hfresh k Hin) in Hx. }
  assert (∀ k, k ∈ ks → k ∉ l :: ls) as Hkd.
  { intros k Hk [->|Hin]%elem_of_cons; [done|]. destruct (collector_rep_alloc _ _ _ Hc Hk) as [x Hx].
    by rewrite (Hfresh k Hin) in Hx. }
  assert (∀ k, is_Some (iw_msgs w !! k) → k ∉ l :: ls → h1 !! k = iw_msgs w !! k) as Hold'
    by (intros k Hk Hnin; apply Hold; [set_solver|done]).
  assert (bq_rep h1 (ur_local (iw_router w)) qs) as Hq1.
  { eapply bq_rep_frame; [|exact Hq]. intros k Hk. apply Hold'; [|by apply Hqd].
    destruct (proj1 Hq) as [Hsq _]. by eapply lseg_in. }
  destruct (routeList_spec h1 (iw_router w) l ls qs Hls Hq1) as (pp & h2 & r2 & Hroute & Htab & Hq2 & Hp & Hsame & Hfr).
  { intros k Hk Hin. exact (Hqd k Hk Hin). }
  fold t in Htab, Hq2, Hp, Hsame.
  set (loc1 := filter (λ k, reachable t h1 k = true) (l :: ls)) in *.
  set (pend := filter (λ k, reachable t h1 k = false) (l :: ls)) in *.
  assert (∀ k, k ∈ pend → (k ∈ l :: ls) ∧ (k ∉ loc1)) as Hpl.
  { intros k [Hk1 Hk2]%list_elem_of_filter. split; [done|]. intros [Hk3 _]%list_elem_of_filter. congruence. }
  destruct (settle_pending_spec w h2 r2 pp pend (qs ++ loc1) ks Hp Hq2) as (w' & Hset & <- & Hcn & Hq' & Hfr' & Hcol).
  { eapply (collector_rep_frame w); [done| |exact Hc]. intros k Hk. cbn. rewrite Hfr by set_solver.
    apply Hold'; [by eapply collector_rep_alloc|by apply Hkd]. }
  { intros k [Hk1 Hk2]%Hpl [Hk3|Hk3]%elem_of_app; [exact (Hqd k Hk3 Hk1)|done]. }
  { intros k [Hk1 _]%Hpl Hk3. exact (Hkd k Hk3 Hk1). }
  { intros k Hk [Hk3|[_ Hk3]%list_elem_of_filter]%elem_of_app; [set_solver|exact (Hkd k Hk Hk3)]. }
  exists w', (l :: ls). split.
  { unfold MessageBrokerProcessor_processMsgPack. rewrite (proj2 (Z.eqb_neq _ _) Hu), Hcreate. cbn [obind].
    rewrite Hroute. cbn [obind]. exact Hset. }
  pose proof (filter_reachable t h1 p true _ _ HF) as Hft. pose proof (filter_reachable t h1 p false _ _ HF) as Hff.
  fold loc1 in Hft. fold pend in Hff.
  assert (∀ x, x ∈ zip (l :: ls) (u :: us) → ∃ m', h2 !! x.1 = Some m' ∧ sent t p x.2 m') as Hx2.
  { intros [k v] Hx. destruct (Forall2_zip _ _ _ _ HF Hx) as (m1 & E1 & Hd). cbn. cbn in E1. specialize (Hsame k). rewrite decide_True, E1 in Hsame by (by eapply elem_of_zip_l). by eapply sent_routed. }
  split; [by eapply Forall2_length|]. split; [done|]. split; [by rewrite <-Hft|]. split; [|split; [|split; [|split; [|split; [|split]]]]].
  - intros x Hx. assert (x.1 ∈ loc1) as Hx1 by (rewrite Hft; by apply list_elem_of_fmap_2).
    apply list_elem_of_filter in Hx as [_ Hx]. destruct (Hx2 x Hx) as (m' & E' & Hm'). exists m'. split; [|done].
    rewrite Hfr'; [done| |by intros [_ ?]%Hpl]. apply list_elem_of_filter in Hx1 as [_ Hx1].
    intros Hk. exact (Hkd _ Hk Hx1).
  - unfold kept_or_freed. rewrite <-Hff.
    assert (∀ x, x ∈ filter (λ x, online t x = false) (zip (l :: ls) (u :: us)) → x.1 ∈ pend) as Hxp
      by (intros x Hx; rewrite Hff; by apply list_elem_of_fmap_2).
    destruct (iw_collector w); [|intros x Hx; by apply Hcol, Hxp].
    destruct Hcol as [Hc' Hk']. split; [done|]. intros x Hx. rewrite Hk' by (by apply Hxp).
    apply list_elem_of_filter in Hx as [_ Hx]. destruct (Hx2 x Hx) as (m' & E' & Hm' & _). eauto.
  - intros k [->|Hk]%elem_of_cons; [by left|right; by apply Hfresh].
  - intros k Hk Hkl Hkq' Hkk. assert (k ∉ l :: ls) as Hkn.
    { intros [->|Hin]%elem_of_cons; [done|]. rewrite (Hfresh k Hin) in Hk. by destruct Hk. }
    rewrite Hfr', Hfr; [by apply Hold'|done|done|done|]. by intros [? _]%Hpl.
  - intros k Hk. rewrite Hfr'; [|set_solver|intros [? _]%Hpl; by apply (Hqd k)].
    specialize (Hsame k). rewrite decide_False in Hsame by (by apply Hqd). rewrite Hold' in Hsame; [done| |by apply Hqd].
    destruct (proj1 Hq) as [Hsq _]. by eapply lseg_in.
  - exact Hcn.
  - intros Hm x Hx. assert (x.1 ∈ loc1) as Hx1 by (rewrite Hft; by apply list_elem_of_fmap_2).
    assert (x.1 ∈ l :: ls) as Hxl by (by apply list_elem_of_filter in Hx1 as [_ ?]).
    destruct (Hun Hm _ Hxl) as (m1 & E1 & Hm1). specialize (Hsame x.1). rewrite decide_True, E1 in Hsame by done.
    rewrite Hfr'; [|intros Hk; exact (Hkd _ Hk Hxl)|by intros [_ ?]%Hpl].
    destruct (h2 !! x.1) as [m2|]; [|done]. exists m2. split; [done|]. unfold same_msg in Hsame. cbn in Hsame.
    apply (inj Some) in Hsame. unfold unmarked in *.
    assert (msg_close_conn m2 = msg_close_conn (routed t m1)) as -> by exact (f_equal msg_close_conn Hsame).
    assert (msg_switch_state m2 = msg_switch_state (routed t m1)) as -> by exact (f_equal msg_switch_state Hsame).
    unfold routed. by destruct (found t (msg_uid m1)).
Qed.

Lemma broker_handler_spec w l m p u us qs ks :
  iw_msgs w !! l = Some m → wf_msg m → msg_next m = None → getMsgPackUser (mkIPack (Some l) p None) ≠ -1 →
  im_target_uid (pack_msg p) = u :: us → (length (u :: us) ≤ TARGET_MAX)%nat → sendable p (u :: us) →
  bq_rep (iw_msgs w) (ur_local (iw_router w)) qs → l ∉ qs → collector_rep w ks → l ∉ ks → ks ## qs →
  let t := ur_table (iw_router w) in
  ∃ w' ls, let xs := zip ls (u :: us) in
    MessageBrokerProcessor_processMsgPack w (mkIPack (Some l) p None) = Ret (0, w') ∧
    length ls = length (u :: us) ∧ ur_table (iw_router w') = t ∧
    bq_rep (iw_msgs w') (ur_local (iw_router w')) (qs ++ (filter (λ x, online t x = true) xs).*1) ∧
    (∀ x, x ∈ filter (λ x, online t x = true) xs → ∃ m', iw_msgs w' !! x.1 = Some m' ∧ sent t p x.2 m') ∧
    kept_or_freed w w' p ks (filter (λ x, online t x = false) xs).
Proof.
  intros E Hw Hn Hu Ht Hmax Hsend Hq Hlq Hc Hlk Hkq t.
  destruct (broker_handler_full w l m p u us qs ks) as (w' & ls & H1 & H2 & H3 & H4 & H5 & H6 & _); try done.
  by exists w', ls.
Qed.
(** A readable chat pack is handled by [processMsgPack], and its copies can be framed. *)
Lemma broker_process_chat w l m bs p w' :
  iw_msgs w !! l = Some m → read_data m = Ret bs → decode_pack bs = Some p → p_type p = Some IM_MSG →
  MessageBrokerProcessor_processMsgPack w (mkIPack (Some l) p None) = Ret (0, w') →
  MessageBrokerProcessor_process w (Some l) = Ret (0, w').
Proof.
  intros E Hr Hp Hty Hh. destruct (decode_complete _ _ Hp) as [_ Hcp]. unfold MessageBrokerProcessor_process, parse.
  rewrite (load_Some _ _ _ E). cbn [obind]. rewrite Hr. cbn [obind]. rewrite Hp.
  apply complete_has in Hcp as [-> ->]. cbn [andb obind].
  assert (getMessagePackType (mkIPack (Some l) p None) = MSG) as -> by (unfold getMessagePackType; cbn; by rewrite Hty).
  rewrite Hh. cbn [obind]. done.
Qed.

Lemma decoded_sendable bs p us :
  decode_pack bs = Some p → getMsgPackUser (mkIPack None p None) ≠ -1 → im_target_uid (pack_msg p) = us →
  Forall (λ v, fits (update_msg (im_set_target_uid [v]) p)) us → sendable p us.
Proof.
  intros Hp Hu Ht Hfit. destruct (decode_complete _ _ Hp) as [Hok Hcp]. split; [done|]. split; [done|]. split.
  - unfold getMsgPackUser in Hu. cbn in Hu. destruct (c_msg (content p)); [eauto|done].
  - pose proof (targets_typed p Hok) as Hty. rewrite Ht in Hty. by apply Forall_and.
Qed.
End broker.

Lemma pq_rep_frame h h' q lss :
  (∀ l, l ∈ mjoin lss → h' !! l = h !! l) → pq_rep h q lss → pq_rep h' q lss.
Proof. intros Hf (HF & Hr). split; [by eapply Forall2_uq_frame|done]. Qed.

Lemma pq_rep_store h q lss l m : pq_rep h q lss → l ∉ mjoin lss → pq_rep (<[l := m]> h) q lss.
Proof. intros Hq Hl. eapply pq_rep_frame; [|exact Hq]. intros k Hk. apply lookup_insert_ne. set_solver. Qed.

Lemma dispatch_auth_spec h d l m qs lss :
  h !! l = Some m → bq_rep h (di_auth_workers d) qs → pq_rep h (di_app_workers d) lss →
  l ∉ qs → l ∉ mjoin lss → qs ## mjoin lss →
  ∃ h' d' m', dispatch_auth h d (Some l) = Ret (h', d') ∧ h' !! l = Some m' ∧ msg_state m' = msg_state m ∧
    bq_rep h' (di_auth_workers d') (qs ++ [l]) ∧ pq_rep h' (di_app_workers d') lss.
Proof.
  intros E Hq Hp Hl1 Hl2 Hd. unfold dispatch_auth, ImAuthWorkerCluster_schedule.
  rewrite (modify_Some _ _ _ _ E). cbn [obind]. set (m1 := set_priority _ m).
  destruct (bq_put_spec (<[l := m1]> h) (di_auth_workers d) qs l m1) as (h' & q' & -> & Hq' & Hr);
    [by apply bq_rep_store|apply lookup_insert_eq|done|].
  cbn [obind]. destruct (links_only_Some _ _ _ _ (proj1 Hr) (lookup_insert_eq h l m1)) as (m' & E' & Hm).
  exists h', (mkDispatcher q' (di_app_workers d)), m'. split; [done|]. split; [done|].
  split; [exact (f_equal msg_state Hm)|]. split; [done|].
  eapply pq_rep_frame; [|exact Hp]. intros k Hk. rewrite (proj2 Hr) by set_solver.
  apply lookup_insert_ne. set_solver.
Qed.

(** ** Properties *)

(** the dispatcher sends a message to the authentication workers exactly when
    its connection is not authenticated yet, a new connection being moved to the
    authentication state first; every other message goes to the application workers
    at the second priority.  The message is queued once and nothing else moves. *)
Theorem dispatcher_by_state h d l m st qs us0 us1
    (E : h !! l = Some m) (Hn : msg_next m = None) (Hst : msg_state m = Some st)
    (Hauth : bq_rep h (di_auth_workers d) qs) (Happ : pq_rep h (di_app_workers d) [us0; us1])
    (Hl1 : l ∉ qs) (Hl2 : l ∉ us0 ++ us1) (Hdis : qs ## us0 ++ us1) :
  ∃ h' d' m', ImMessageDispatcher_process h d (Some l) = Ret (h', d') ∧ h' !! l = Some m' ∧
    if (st =? INIT_STATE) || (st =? AUTH_STATE) then
      bq_rep h' (di_auth_workers d') (qs ++ [l]) ∧ pq_rep h' (di_app_workers d') [us0; us1] ∧
      msg_state m' = Some AUTH_STATE
    else
      bq_rep h' (di_auth_workers d') qs ∧ pq_rep h' (di_app_workers d') [us0; us1 ++ [l]] ∧
      msg_state m' = Some st.
Proof.
  assert (mjoin [us0; us1] = us0 ++ us1) as Hj by (cbn; by rewrite app_nil_r).
  unfold ImMessageDispatcher_process. rewrite (load_Some _ _ _ E). cbn [obind]. rewrite Hst. cbn [defined obind].
  destruct (Z.eqb_spec st INIT_STATE) as [->|H0]; [|destruct (Z.eqb_spec st AUTH_STATE) as [->|H1]].
  - rewrite (modify_Some _ _ _ _ E). cbn [obind orb].
    destruct (dispatch_auth_spec (<[l := set_state (Some AUTH_STATE) m]> h) d l (set_state (Some AUTH_STATE) m) qs
      [us0; us1]) as (h' & d' & m' & -> & E' & Hs & H1 & H2).
    + apply lookup_insert_eq.
    + by apply bq_rep_store.
    + apply pq_rep_store; [done|by rewrite Hj].
    + done.
    + by rewrite Hj.
    + by rewrite Hj.
    + exists h', d', m'. done.
  - cbn [orb]. destruct (dispatch_auth_spec h d l m qs [us0; us1])
      as (h' & d' & m' & -> & E' & Hs & Ha & Hb); rewrite ?Hj; try done.
    exists h', d', m'. by rewrite Hs, Hst.
  - cbn [orb]. rewrite (modify_Some _ _ _ _ E). cbn [obind]. unfold ImAppWorkerCluster_schedule.
    set (m1 := set_priority _ m). rewrite (load_Some _ l m1) by apply lookup_insert_eq. cbn [obind].
    destruct (pq_put_spec (<[l := m1]> h) (di_app_workers d) [us0] us1 [] l m1) as (h' & q' & Hput & Hp' & Hr).
    + exact (pq_rep_store h (di_app_workers d) [us0; us1] l m1 Happ ltac:(by rewrite Hj)).
    + apply lookup_insert_eq.
    + done.
    + change (l ∉ mjoin [us0; us1]). by rewrite Hj.
    + change (msg_priority m1) with (Z.of_nat (length [us0])). rewrite Hput. cbn [obind].
      assert (∀ k, k ∉ us1 → h' !! k = <[l := m1]> h !! k) as Hfr by apply Hr.
      eexists h', _, m1. split; [done|]. split; [rewrite Hfr by set_solver; apply lookup_insert_eq|].
      split; [|done]. eapply bq_rep_frame; [|exact Hauth].
      intros k Hk. rewrite Hfr by set_solver. apply lookup_insert_ne. set_solver.
Qed.

Definition wit_dispatcher : ImMessageDispatcher :=
  mkDispatcher MsMessageBlockQueue_new
    {| pq_priority_num := 2; pq_pri_queue := [MsMessageUnsafeQueue_new; MsMessageUnsafeQueue_new];
       pq_total_size := 0 |}.

Lemma dispatcher_by_state_witness :
  let m := set_state (Some INIT_STATE) (new_message [] 0 0 0) in
  ∃ h' d' m', ImMessageDispatcher_process {[1%positive := m]} wit_dispatcher (Some 1%positive) = Ret (h', d') ∧
    h' !! 1%positive = Some m' ∧ bq_rep h' (di_auth_workers d') [1%positive] ∧ msg_state m' = Some AUTH_STATE.
Proof.
  intros m.
  destruct (dispatcher_by_state {[1%positive := m]} wit_dispatcher 1%positive m INIT_STATE [] [] [])
    as (h' & d' & m' & H1 & H2 & H3 & _ & H4).
  - reflexivity.
  - reflexivity.
  - reflexivity.
  - apply bq_new_rep.
  - split; [by repeat constructor|]. split; [constructor|done].
  - set_solver.
  - set_solver.
  - set_solver.
  - exists h', d', m'. done.
Defined.

(** C11: authentication, on every branch.  A connection is switched to the
    messaging state only by a readable, fresh authentication pack with a user and a
    non-empty token, read in the authentication state; the reply then carries the
    switch, the user is registered on this connection and published.  Any token
    will do.  Everything else is kicked: the same message goes back with the order
    to close the connection, and neither the table nor the published routes
    change. *)
Theorem auth_admits_or_kicks {HC : ImCodec} e w qs l m bs st gen
    (Hin : incoming w qs l m bs st gen)
    (Hage : ∀ p, decode_pack bs = Some p → age_defined gen p)
    (Hfit : ∀ p a, decode_pack bs = Some p → c_auth_req (content p) = Some a →
       fits (auth_response (ev_time e) (default [] (auth_token a)))) :
  let result := ImMessageAuthProcessor_process e w (Some l) in
  match decode_pack bs with
  | Some p =>
      if admitted gen st p then
        ∃ a w' m', let uid := default (-1) (auth_uid a) in
          c_auth_req (content p) = Some a ∧ result = Ret (0, w') ∧
          bq_rep (iw_msgs w') (ur_local (iw_router w')) (qs ++ [l]) ∧ iw_msgs w' !! l = Some m' ∧
          msg_switch_state m' = Some switch_state_app_msg ∧ msg_state m' = Some MSG_STATE ∧ framed m' ∧
          ur_table (iw_router w') =
            <[uid := mkChannel uid (msg_io m) (msg_conn m) (ev_im_instance e)]> (ur_table (iw_router w)) ∧
          iw_published w' = iw_published w ++ [(uid, ev_broker_instance e)]
      else kicked w qs l result
  | None => kicked w qs l result
  end.
Proof.
  intros result. subst result. unfold ImMessageAuthProcessor_process.
  match goal with |- context [process_with ?f _ _ _] => set (handle := f) end.
  destruct (process_with_spec handle e w qs l m bs st gen Hin) as [Hin1 ->].
  set (w1 := iw_set_msgs _ w) in *.
  assert (kicked w qs l (let* w2 := processErrorPack e w1 (Some l) in Ret (-1, w2))) as Hkick.
  { apply (processErrorPack_spec e w1 qs l _ (in_msg _ _ _ _ _ _ _ Hin1)); apply Hin1. }
  destruct (decode_pack bs) as [p|] eqn:Ep; [|exact Hkick]. specialize (Hage p eq_refl).
  destruct (admitted gen st p) eqn:Had.
  - assert (∃ a, c_auth_req (content p) = Some a) as [a Ea].
    { unfold admitted in Had. rewrite !andb_true_iff in Had. destruct Had as [_ Had].
      destruct (c_auth_req (content p)); [eauto|done]. }
    pose proof (Hfit p a eq_refl Ea) as Hf.
    destruct (auth_handler_admits e w1 qs l _ bs st gen p a Hin1 Hage Had Ea Hf)
      as (w' & m' & Hh & H1 & H2 & H3 & H4 & _ & H5 & _ & H6 & H7 & _).
    assert (handle w1 (mkIPack (Some l) p None) = Ret (0, w')) as ->.
    { subst handle. cbn beta. pose proof (getMessagePackType_is_auth (mkIPack (Some l) p None)) as Hty.
      cbn [pk_data] in Hty. unfold admitted in Had. rewrite !andb_true_iff in Had.
      destruct Had as [[[Hauth _] _] _]. rewrite Hauth in Hty. by destruct (getMessagePackType _). }
    cbn [obind]. exists a, w', m'. done.
  - subst handle. cbn beta. rewrite (auth_handler_rejects e w1 qs l _ bs st gen p Hin1 Hage Had).
    cbn [obind]. exact Hkick.
Qed.

Definition wit_auth : ImPack :=
  mkPack (Some IM_AUTH) (Some (mkContent None None None None
    (Some (mkAuthReq (Some 9) (Some (str "any")) [])) None [])) (Some 0) [].
Definition wit_env : env := mkEnv (TIMESTAMP_20150101000000 + 20) (TIMESTAMP_20150101000000 + 20, 0) 5 6.
Definition wit_world `{ImCodec} (st : Z) (p : ImPack) : im_world :=
  mkIm {[1%positive := set_state (Some st) (wit_frame p)]}
    (mkRouter ∅ MsMessageBlockQueue_new) None [].

Lemma wit_incoming st p :
  let HC := plain_codec in
  Z.of_nat (length (encode_pack p)) < 2 ^ 31 - 8 →
  read_data (wit_frame p) = Ret (encode_pack p) →
  incoming (wit_world st p) [] 1%positive (set_state (Some st) (wit_frame p)) (encode_pack p) st
    (TIMESTAMP_20150101000000 + 20, 0).
Proof.
  intros HC Hl Hr. split; try done.
  - exact (wf_wit_frame p Hl).
  - set_solver.
Qed.

Lemma auth_admits_or_kicks_witness :
  let HC := plain_codec in
  ∃ w' m', ImMessageAuthProcessor_process wit_env (wit_world AUTH_STATE wit_auth) (Some 1%positive) = Ret (0, w') ∧
    iw_msgs w' !! 1%positive = Some m' ∧ msg_state m' = Some MSG_STATE ∧
    ur_table (iw_router w') = {[9 := mkChannel 9 1 70 5]}.
Proof.
  intros HC. pose proof (@auth_admits_or_kicks HC) as Hthm. subst HC.
  assert (@decode_pack plain_codec (@encode_pack plain_codec wit_auth) = Some wit_auth) as Hdec by (vm_compute; reflexivity).
  pose proof (Hthm wit_env (@wit_world plain_codec AUTH_STATE wit_auth) [] 1%positive _ _ AUTH_STATE _
    (wit_incoming AUTH_STATE wit_auth ltac:(vm_compute; reflexivity) ltac:(vm_compute; reflexivity))) as H.
  cbv zeta in H. rewrite Hdec in H.
  destruct H as (a & w' & m' & Ea & H1 & _ & H2 & _ & H3 & _ & H4 & _).
  - intros p [= <-]. split; vm_compute; congruence.
  - intros p a [= <-] [= <-]. vm_compute. reflexivity.
  - injection Ea as <-. exists w', m'. split; [done|]. split; [done|]. split; [done|]. exact H4.
Defined.

(** C10: a chat message in a messaging connection, on every branch.  If it is recent
    enough and names its sender and a target, the acknowledgement, with the
    message's id and the sender's sequence number, is queued for the connection the
    message came from, and only then is the message sent on: the request to the
    message server carries its id, and its payload holds that id too when it is a
    request.  Then the message is freed; when the call throws, it is kept by the
    collector.  Everything else is kicked. *)
Theorem chat_acked_and_forwarded {HC : ImCodec} call e mid w qs ks l m bs st gen p
    (Hin : incoming w qs l m bs st gen) (Hp : decode_pack bs = Some p) (Hty : p_type p = Some IM_MSG)
    (Hage : age_defined gen p) (Hf1 : fits (update_msg (im_set_msg_id mid) p))
    (Hf2 : fits (msg_ack (ev_time e) mid (default 0 (im_seq (pack_msg p)))))
    (Hc : collector_rep w ks) (Hlk : l ∉ ks) (Hkq : ks ## qs) :
  let result := ImMessageProcessor_process call e mid w (Some l) in
  if chat_ok gen st p then
    ∃ w' ack mack, result = Ret (0, w') ∧ iw_msgs w !! ack = None ∧ iw_msgs w' !! ack = Some mack ∧
      bq_rep (iw_msgs w') (ur_local (iw_router w')) (qs ++ [ack]) ∧
      msg_uid mack = getMsgPackUser (mkIPack None p None) ∧ msg_io mack = msg_io m ∧ msg_conn mack = msg_conn m ∧
      framed mack ∧ (∃ bs', read_data mack = Ret bs' ∧
        decode_pack bs' = Some (msg_ack (ev_time e) mid (default 0 (im_seq (pack_msg p))))) ∧
      ur_table (iw_router w') = ur_table (iw_router w) ∧
      settled w w' ks l (call (mkRequest (ev_broker_instance e) mid (forwarded mid p bs)))
  else kicked w qs l result.
Proof.
  intros result. subst result. unfold ImMessageProcessor_process.
  match goal with |- context [process_with ?f _ _ _] => set (handle := f) end.
  destruct (process_with_spec handle e w qs l m bs st gen Hin) as [Hin1 ->]. rewrite Hp.
  set (w1 := iw_set_msgs _ w) in *.
  assert (handle w1 (mkIPack (Some l) p None) = processMsgPack call e mid w1 (mkIPack (Some l) p None)) as ->
    by (subst handle; unfold getMessagePackType; cbn; by rewrite Hty).
  destruct (chat_ok gen st p) eqn:Hok.
  - destruct (msg_handler_accepts call e mid w1 qs ks l _ bs st gen p (proj1 (decode_complete _ _ Hp)) Hin1 Hage Hok Hf1 Hf2)
      as (w' & ack & mack & -> & En & H2 & H3); [|done|done|].
    { eapply (collector_rep_frame w); [done| |exact Hc]. intros k Hk. apply lookup_insert_ne. set_solver. }
    cbn [obind]. exists w', ack, mack. split; [done|]. split; [|done].
    cbn in En. by apply lookup_insert_None in En as [? _].
  - rewrite (msg_handler_rejects call e mid w1 qs l _ bs st gen p Hin1 Hage Hok). cbn [obind].
    apply (processErrorPack_spec e w1 qs l _ (in_msg _ _ _ _ _ _ _ Hin1)); apply Hin1.
Qed.

Lemma chat_acked_and_forwarded_witness :
  let HC := plain_codec in
  ∃ w' ack mack, ImMessageProcessor_process (λ _, Rpc_exception) wit_env (str "ident")
      (wit_world MSG_STATE (wit_chat [7; 8])) (Some 1%positive) = Ret (0, w') ∧
    iw_msgs w' !! ack = Some mack ∧ msg_conn mack = 70 ∧ iw_msgs w' !! 1%positive = None.
Proof.
  intros HC. pose proof (@chat_acked_and_forwarded HC) as Hthm. subst HC.
  destruct (Hthm (λ _, Rpc_exception) wit_env (str "ident") (@wit_world plain_codec MSG_STATE (wit_chat [7; 8])) [] []
    1%positive _ _ MSG_STATE _ (wit_chat [7; 8])
    (wit_incoming MSG_STATE (wit_chat [7; 8]) ltac:(vm_compute; reflexivity) ltac:(vm_compute; reflexivity)))
    as (w' & ack & mack & H1 & _ & H2 & _ & _ & _ & H3 & _ & _ & _ & H4 & _).
  - vm_compute. reflexivity.
  - reflexivity.
  - split; vm_compute; congruence.
  - vm_compute. reflexivity.
  - vm_compute. reflexivity.
  - reflexivity.
  - set_solver.
  - set_solver.
  - exists w', ack, mack. split; [exact H1|]. split; [exact H2|]. split; [exact H3|exact H4].
Defined.

(** a keep-alive registers the user it names, whoever the connection belongs to:
    in a messaging connection a recent enough keep-alive for any user moves that
    user's entry in the table to this connection, so that his messages come here,
    and is answered with an acknowledgement for him.  Everything else is kicked. *)
Theorem touch_registers_named_user {HC : ImCodec} call e mid w qs l m bs st gen p
    (Hin : incoming w qs l m bs st gen) (Hp : decode_pack bs = Some p) (Hty : p_type p = Some IM_TOUCH)
    (Hage : age_defined gen p) (Hf : fits (touch_ack (ev_time e) (getTouchPackUid (mkIPack None p None)))) :
  let result := ImMessageProcessor_process call e mid w (Some l) in
  let uid := getTouchPackUid (mkIPack None p None) in
  if touch_ok gen st p then
    ∃ w' m', result = Ret (0, w') ∧ bq_rep (iw_msgs w') (ur_local (iw_router w')) (qs ++ [l]) ∧
      iw_msgs w' !! l = Some m' ∧ framed m' ∧
      (∃ bs', read_data m' = Ret bs' ∧ decode_pack bs' = Some (touch_ack (ev_time e) uid)) ∧
      found (ur_table (iw_router w')) uid = Some (mkChannel uid (msg_io m) (msg_conn m) (ev_im_instance e)) ∧
      ∀ v, v ≠ uid → found (ur_table (iw_router w')) v = found (ur_table (iw_router w)) v
  else kicked w qs l result.
Proof.
  intros result uid. subst result. unfold ImMessageProcessor_process.
  match goal with |- context [process_with ?f _ _ _] => set (handle := f) end.
  destruct (process_with_spec handle e w qs l m bs st gen Hin) as [Hin1 ->]. rewrite Hp.
  set (w1 := iw_set_msgs _ w) in *.
  assert (handle w1 (mkIPack (Some l) p None) = processTouchPack e w1 (mkIPack (Some l) p None)) as ->
    by (subst handle; unfold getMessagePackType; cbn; by rewrite Hty).
  destruct (touch_ok gen st p) eqn:Hok.
  - destruct (touch_handler_accepts e w1 qs l _ bs st gen p (proj1 (decode_complete _ _ Hp)) Hin1 Hage Hok Hf)
      as (w' & m' & -> & H1 & H2 & H3 & H4 & Htab).
    cbn [obind]. exists w', m'. split_and!; try done; unfold found; rewrite Htab.
    + rewrite lookup_insert_eq. cbn [ch_uid]. fold uid. unfold touch_ok in Hok. fold uid in Hok.
      by destruct (uid =? -1); [rewrite andb_false_r in Hok|].
    + intros v Hv. by rewrite lookup_insert_ne.
  - rewrite (touch_handler_rejects e w1 qs l _ bs st gen p Hin1 Hage Hok). cbn [obind].
    apply (processErrorPack_spec e w1 qs l _ (in_msg _ _ _ _ _ _ _ Hin1)); apply Hin1.
Qed.

Definition wit_touch : ImPack :=
  mkPack (Some IM_TOUCH) (Some (mkContent (Some (mkTouch (Some 11) [])) None None None None None [])) (Some 0) [].

Lemma touch_registers_named_user_witness :
  let HC := plain_codec in
  ∃ w', ImMessageProcessor_process (λ _, Rpc_exception) wit_env [] (wit_world MSG_STATE wit_touch) (Some 1%positive)
      = Ret (0, w') ∧ found (ur_table (iw_router w')) 11 = Some (mkChannel 11 1 70 5).
Proof.
  intros HC. pose proof (@touch_registers_named_user HC) as Hthm. subst HC.
  destruct (Hthm (λ _, Rpc_exception) wit_env [] (@wit_world plain_codec MSG_STATE wit_touch) []
    1%positive _ _ MSG_STATE _ wit_touch
    (wit_incoming MSG_STATE wit_touch ltac:(vm_compute; reflexivity) ltac:(vm_compute; reflexivity)))
    as (w' & m' & H1 & _ & _ & _ & _ & H2 & _).
  - vm_compute. reflexivity.
  - reflexivity.
  - split; vm_compute; congruence.
  - vm_compute. reflexivity.
  - exists w'. split; [exact H1|exact H2].
Defined.

(** C6: the broker delivers a chat message to every target exactly once.  A readable
    message with a sender and at most 1024 targets fans out into one message per
    target, in order, each carrying the pack for that user alone.  The messages of
    users in the table are stamped with their connections and queued for the local
    router, in order; the others go to the collector, in order, or are freed when
    there is none. *)
Theorem broker_delivers_to_each {HC : ImCodec} w l m bs p u us qs ks
    (E : iw_msgs w !! l = Some m) (Hw : wf_msg m) (Hn : msg_next m = None)
    (Hr : read_data m = Ret bs) (Hp : decode_pack bs = Some p) (Hty : p_type p = Some IM_MSG)
    (Hu : getMsgPackUser (mkIPack None p None) ≠ -1) (Ht : im_target_uid (pack_msg p) = u :: us)
    (Hmax : (length (u :: us) ≤ TARGET_MAX)%nat)
    (Hfit : Forall (λ v, fits (update_msg (im_set_target_uid [v]) p)) (u :: us))
    (Hq : bq_rep (iw_msgs w) (ur_local (iw_router w)) qs) (Hlq : l ∉ qs)
    (Hc : collector_rep w ks) (Hlk : l ∉ ks) (Hkq : ks ## qs) :
  let t := ur_table (iw_router w) in
  ∃ w' ls, let xs := zip ls (u :: us) in
    MessageBrokerProcessor_process w (Some l) = Ret (0, w') ∧
    length ls = length (u :: us) ∧ ur_table (iw_router w') = t ∧
    bq_rep (iw_msgs w') (ur_local (iw_router w')) (qs ++ (filter (λ x, online t x = true) xs).*1) ∧
    (∀ x, x ∈ filter (λ x, online t x = true) xs → ∃ m', iw_msgs w' !! x.1 = Some m' ∧ sent t p x.2 m') ∧
    kept_or_freed w w' p ks (filter (λ x, online t x = false) xs).
Proof.
  intros t. assert (sendable p (u :: us)) as Hsend by (by eapply decoded_sendable).
  destruct (broker_handler_spec w l m p u us qs ks) as (w' & ls & Hh & Hrest); try done.
  exists w', ls. split; [|done]. by eapply broker_process_chat.
Qed.

Lemma broker_delivers_to_each_witness :
  let HC := plain_codec in
  let w := mkIm {[1%positive := wit_frame (wit_chat [7; 8])]} wit_user_router None [] in
  ∃ w' ls, MessageBrokerProcessor_process w (Some 1%positive) = Ret (0, w') ∧
    bq_rep (iw_msgs w') (ur_local (iw_router w')) ((filter (λ x, online (ur_table wit_user_router) x = true)
      (zip ls [7; 8])).*1) ∧ length ls = 2%nat.
Proof.
  intros HC. pose proof (@broker_delivers_to_each HC) as Hthm. subst HC. intros w.
  destruct (Hthm w 1%positive _ (@encode_pack plain_codec (wit_chat [7; 8])) (wit_chat [7; 8]) 7 [8] [] [] eq_refl) as (w' & ls & H1 & H2 & _ & H3 & _).
  - apply (@wf_wit_frame plain_codec). vm_compute. reflexivity.
  - reflexivity.
  - vm_compute. reflexivity.
  - vm_compute. reflexivity.
  - reflexivity.
  - done.
  - reflexivity.
  - vm_compute. lia.
  - repeat constructor; vm_compute; reflexivity.
  - apply bq_new_rep.
  - set_solver.
  - reflexivity.
  - set_solver.
  - set_solver.
  - exists w', ls. split; [exact H1|]. split; [exact H3|exact H2].
Defined.
