(* ===== verification/WaitList.v ===== *)
(** The lists of the RPC pool (thrift/pilot/linked_list.h, unsafe_wait_list.h and
    wait_list.h).

    [linked_list_t] is the code of util::LinkedListType under other names.  On top
    of it [unsafe_wait_list_t] counts its nodes and can be flushed; [wait_list_t] is
    the same under a mutex, with operations that sleep on an empty list.  Nodes are
    always added at the head; [get] and [try_get] take the last one, the
    [_from_head] operations the first. *)
From S2P Require Import Prelude Heap LinkedList.

(** ** The lists *)
Definition linked_list_is_empty (h : lheap) (head : loc) : outcome bool :=
  let* n := load h (Some head) in Ret (bool_decide (ln_next n = head)).

Definition linked_list_add (h : lheap) (head node : loc) : outcome lheap :=
  let* hd := load h (Some head) in
  let* h := set_ln_prev h (ln_next hd) node in
  let* hd := load h (Some head) in
  let* h := set_ln_next h node (ln_next hd) in
  let* h := set_ln_prev h node head in
  set_ln_next h head node.

Definition linked_list_del (h : lheap) (node : loc) : outcome lheap :=
  let* n := load h (Some node) in
  let* h := set_ln_prev h (ln_next n) (ln_prev n) in
  let* n := load h (Some node) in
  set_ln_next h (ln_prev n) (ln_next n).

(** [empty] only resets the head: the nodes keep their links. *)
Definition linked_list_empty (h : lheap) (head : loc) : outcome lheap :=
  let* h := set_ln_prev h head head in set_ln_next h head head.

Definition linked_list_add_prev (h : lheap) (node cur : loc) : outcome lheap :=
  let* c := load h (Some cur) in
  let* h := set_ln_next h (ln_prev c) node in
  let* c := load h (Some cur) in
  let* h := set_ln_prev h node (ln_prev c) in
  let* h := set_ln_next h node cur in
  set_ln_prev h cur node.

Definition linked_list_add_next (h : lheap) (node cur : loc) : outcome lheap :=
  let* c := load h (Some cur) in
  let* h := set_ln_prev h (ln_next c) node in
  let* c := load h (Some cur) in
  let* h := set_ln_next h node (ln_next c) in
  let* h := set_ln_prev h node cur in
  set_ln_next h cur node.

Definition linked_list_next (h : lheap) (head node : loc) : outcome ptr :=
  let* n := load h (Some node) in Ret (if bool_decide (ln_next n = head) then None else Some (ln_next n)).
Definition linked_list_prev (h : lheap) (head node : loc) : outcome ptr :=
  let* n := load h (Some node) in Ret (if bool_decide (ln_prev n = head) then None else Some (ln_prev n)).

(** [_head], [_alive] and [_num]. *)
Record wait_list := mkWait { wl_head : loc; wl_alive : bool; wl_num : Z }.

Definition wait_list_new (h : lheap) : wait_list * lheap :=
  let (l, h) := LinkedListType_new h in (mkWait l true 0, h).

Definition wait_list_len (q : wait_list) : Z := wl_num q.

Definition wait_list_put (h : lheap) (q : wait_list) (node : loc) : outcome (lheap * wait_list) :=
  if wl_alive q then
    let* h := linked_list_add h (wl_head q) node in
    Ret (h, mkWait (wl_head q) (wl_alive q) (wl_num q + 1))
  else Ret (h, q).

(** The entry of a neighbour of the head, unlinked; the head itself has no entry. *)
Definition take_entry (h : lheap) (q : wait_list) (which : ListNodeLinkType → loc)
    : outcome (ptr * lheap * wait_list) :=
  let* hd := load h (Some (wl_head q)) in
  let node := which hd in
  if bool_decide (node = wl_head q) then Fault
  else
    let* h := linked_list_del h node in
    Ret (Some node, h, mkWait (wl_head q) (wl_alive q) (wl_num q - 1)).

Definition try_take (h : lheap) (q : wait_list) (which : ListNodeLinkType → loc)
    : outcome (ptr * lheap * wait_list) :=
  let* e := linked_list_is_empty h (wl_head q) in
  if wl_alive q && negb e then take_entry h q which else Ret (None, h, q).

Definition wait_list_try_get (h : lheap) (q : wait_list) := try_take h q ln_prev.
Definition wait_list_try_get_from_head (h : lheap) (q : wait_list) := try_take h q ln_next.

(** [while (_alive && is_empty()) pthread_cond_wait] sleeps until a [put] or a
    [flush]. *)
Definition wait_take (h : lheap) (q : wait_list) (which : ListNodeLinkType → loc)
    : outcome (ptr * lheap * wait_list) :=
  let* e := linked_list_is_empty h (wl_head q) in
  if wl_alive q && e then Wait
  else if wl_alive q then take_entry h q which
  else Ret (None, h, q).

Definition wait_list_get (h : lheap) (q : wait_list) := wait_take h q ln_prev.
Definition wait_list_get_from_head (h : lheap) (q : wait_list) := wait_take h q ln_next.

(** [expired] says that the sleep of [timed_get] ended with a time-out. *)
Definition timed_take (h : lheap) (q : wait_list) (expired : bool) (which : ListNodeLinkType → loc)
    : outcome (ptr * lheap * wait_list) :=
  let* e := linked_list_is_empty h (wl_head q) in
  if wl_alive q && e then if expired then Ret (None, h, q) else Wait
  else if wl_alive q then take_entry h q which
  else Ret (None, h, q).

Definition wait_list_timed_get (h : lheap) (q : wait_list) (expired : bool) := timed_take h q expired ln_prev.
Definition wait_list_timed_get_from_head (h : lheap) (q : wait_list) (expired : bool) :=
  timed_take h q expired ln_next.

Definition wait_list_flush (q : wait_list) : wait_list := mkWait (wl_head q) false (wl_num q).

(** ** Representation *)
Definition wl_rep (h : lheap) (q : wait_list) (ls : list loc) : Prop :=
  dl_rep h (wl_head q) ls ∧ wl_num q = Z.of_nat (length ls).

Lemma wl_rep_frame h h' q ls :
  (∀ y, y ∈ wl_head q :: ls → h' !! y = h !! y) → wl_rep h q ls → wl_rep h' q ls.
Proof. intros Hf [Hd Hn]. split; [by eapply dl_rep_frame|done]. Qed.

Lemma wl_flush_rep h q ls : wl_rep h q ls → wl_rep h (wait_list_flush q) ls.
Proof. done. Qed.

Lemma is_empty_spec h q ls :
  wl_rep h q ls → linked_list_is_empty h (wl_head q) = Ret (bool_decide (ls = [])).
Proof.
  intros [[Hnd Hl] _]. unfold linked_list_is_empty. destruct ls as [|x ls]; simpl in Hl; destruct Hl as (Hn & _);
    destruct (load_nx _ _ _ Hn) as (n & -> & En & _); cbn [obind]; rewrite En.
  - by rewrite !bool_decide_eq_true_2.
  - rewrite !bool_decide_eq_false_2; [done|done|]. intros ->. apply NoDup_cons in Hnd as [H _]. set_solver.
Qed.

Lemma wl_put_spec h q ls x :
  wl_rep h q ls → x ∉ wl_head q :: ls → is_Some (h !! x) → wl_alive q = true →
  ∃ h' q', wait_list_put h q x = Ret (h', q') ∧ wl_rep h' q' (x :: ls) ∧
    wl_head q' = wl_head q ∧ wl_alive q' = true ∧ dom h' = dom h ∧
    (∀ y, y ∉ x :: wl_head q :: ls → h' !! y = h !! y).
Proof.
  intros [Hd Hn] Hx Hax Hal. unfold wait_list_put. rewrite Hal.
  destruct (dl_add_spec h (wl_head q) ls x Hd Hx Hax) as (h' & E & Hd' & Hdom & Hf).
  change (linked_list_add h (wl_head q) x) with (LinkedListType_add h (wl_head q) x). rewrite E. cbn [obind].
  eexists h', _. split; [done|]. split; [|done]. split; [done|]. cbn. lia.
Qed.

(** Taking the node [x] that [which] finds. *)
Lemma take_entry_spec h q A x B which :
  wl_rep h q (A ++ x :: B) → wl_alive q = true →
  (∀ n, h !! wl_head q = Some n → which n = x) →
  ∃ h' q', take_entry h q which = Ret (Some x, h', q') ∧ wl_rep h' q' (A ++ B) ∧
    wl_head q' = wl_head q ∧ wl_alive q' = true ∧ dom h' = dom h ∧
    (∀ y, y ∉ wl_head q :: A ++ B → h' !! y = h !! y).
Proof.
  intros [Hd Hn] Hal Hw. unfold take_entry.
  destruct (dl_rep_alloc h (wl_head q) _ (wl_head q) Hd) as [n En]; [set_solver|].
  rewrite (load_Some _ _ _ En). cbn [obind]. rewrite (Hw n En).
  rewrite bool_decide_eq_false_2 by (intros ->; destruct Hd as [[Hh _]%NoDup_cons _]; set_solver).
  destruct (dl_remove_spec h (wl_head q) A x B Hd) as (h' & E & Hd' & Hdom & Hf).
  change (linked_list_del h x) with (LinkedListType_remove h x). rewrite E. cbn [obind].
  eexists h', _. split; [done|]. split; [|done]. split; [done|]. cbn.
  rewrite !length_app in *. cbn in Hn. lia.
Qed.

Lemma wl_first h q x B n : wl_rep h q (x :: B) → h !! wl_head q = Some n → ln_next n = x.
Proof. intros [[_ Hl] _] E. simpl in Hl. destruct Hl as (Hn & _). unfold nx in Hn. rewrite E in Hn. by injection Hn. Qed.

Lemma wl_last h q A x n : wl_rep h q (A ++ [x]) → h !! wl_head q = Some n → ln_prev n = x.
Proof.
  intros [[_ Hl] _] E. destruct (linked_snoc_head h (wl_head q) (A ++ [x]) (wl_head q :: A) x) as (_ & _ & Hp);
    [done|done|]. unfold pv in Hp. rewrite E in Hp. by injection Hp.
Qed.

(** [try_get] takes the node that was put first. *)
Lemma wl_try_get_spec h q ls :
  wl_rep h q ls → wl_alive q = true →
  match last ls with
  | None => wait_list_try_get h q = Ret (None, h, q)
  | Some x => ∃ A h' q', ls = A ++ [x] ∧ wait_list_try_get h q = Ret (Some x, h', q') ∧ wl_rep h' q' A ∧
      wl_head q' = wl_head q ∧ wl_alive q' = true ∧ dom h' = dom h ∧
      (∀ y, y ∉ wl_head q :: A → h' !! y = h !! y)
  end.
Proof.
  intros Hq Hal. unfold wait_list_try_get, try_take. rewrite (is_empty_spec _ _ _ Hq). cbn [obind]. rewrite Hal.
  destruct ls as [|y ls] using rev_ind; [done|]. rewrite last_snoc.
  rewrite bool_decide_eq_false_2 by (by destruct ls). cbn [andb negb].
  destruct (take_entry_spec h q ls y [] ln_prev Hq Hal) as (h' & q' & E & Hq' & Hh & Ha & Hd & Hf);
    [intros n En; by eapply wl_last|].
  rewrite app_nil_r in *. exists ls, h', q'. done.
Qed.

(** [get_from_head] takes the node that was put last. *)
Lemma wl_get_from_head_spec h q ls :
  wl_rep h q ls → wl_alive q = true →
  match ls with
  | [] => wait_list_get_from_head h q = Wait
  | x :: B => ∃ h' q', wait_list_get_from_head h q = Ret (Some x, h', q') ∧ wl_rep h' q' B ∧
      wl_head q' = wl_head q ∧ wl_alive q' = true ∧ dom h' = dom h ∧
      (∀ y, y ∉ wl_head q :: B → h' !! y = h !! y)
  end.
Proof.
  intros Hq Hal. unfold wait_list_get_from_head, wait_take. rewrite (is_empty_spec _ _ _ Hq). cbn [obind]. rewrite Hal.
  destruct ls as [|x B]; [done|]. rewrite bool_decide_eq_false_2 by done. cbn [andb].
  apply (take_entry_spec h q [] x B ln_next Hq Hal). intros n En. by eapply wl_first.
Qed.

(** [try_get_from_head] takes the node that was put last, and never sleeps. *)
Lemma wl_try_get_from_head_spec h q ls :
  wl_rep h q ls → wl_alive q = true →
  match ls with
  | [] => wait_list_try_get_from_head h q = Ret (None, h, q)
  | x :: B => ∃ h' q', wait_list_try_get_from_head h q = Ret (Some x, h', q') ∧ wl_rep h' q' B ∧ wl_alive q' = true
  end.
Proof.
  intros Hq Hal. unfold wait_list_try_get_from_head, try_take. rewrite (is_empty_spec _ _ _ Hq). cbn [obind]. rewrite Hal.
  destruct ls as [|x B]; [done|]. rewrite bool_decide_eq_false_2 by done. cbn [andb negb].
  destruct (take_entry_spec h q [] x B ln_next Hq Hal) as (h' & q' & -> & Hq' & _ & Ha & _);
    [intros n En; by eapply wl_first|]. by exists h', q'.
Qed.

(** [get] takes the node that was put first. *)
Lemma wl_get_spec h q ls x : wl_rep h q (ls ++ [x]) → wl_alive q = true →
  ∃ h' q', wait_list_get h q = Ret (Some x, h', q') ∧ wl_rep h' q' ls ∧ wl_alive q' = true.
Proof.
  intros Hq Hal. unfold wait_list_get, wait_take. rewrite (is_empty_spec _ _ _ Hq). cbn [obind]. rewrite Hal.
  rewrite bool_decide_eq_false_2 by (by destruct ls). cbn [andb].
  destruct (take_entry_spec h q ls x [] ln_prev Hq Hal) as (h' & q' & -> & Hq' & _ & Ha & _);
    [intros n En; by eapply wl_last|]. rewrite app_nil_r in Hq'. by exists h', q'.
Qed.

(** ** Properties *)

(** a wait list is a queue at one end and a stack at the other.  The node that was
    put last is taken by [try_get_from_head], the one that was put first by [get] and
    [try_get]; a timed [get] on an empty list sleeps until its time is over and then
    returns nothing; and a list that was flushed takes no node, gives none, and wakes
    every thread that sleeps on it. *)
Theorem wait_list_two_ends h q ls x y
    (Hq : wl_rep h q (ls ++ [y])) (Hx : x ∉ wl_head q :: ls ++ [y]) (Ha : is_Some (h !! x)) (Hal : wl_alive q = true) :
  ∃ h1 q1, wait_list_put h q x = Ret (h1, q1) ∧ wait_list_len q1 = wait_list_len q + 1 ∧
    (∃ h2 q2, wait_list_try_get_from_head h1 q1 = Ret (Some x, h2, q2) ∧ wl_rep h2 q2 (ls ++ [y])) ∧
    (∃ h2 q2, wait_list_get h1 q1 = Ret (Some y, h2, q2) ∧ wl_rep h2 q2 (x :: ls)) ∧
    (∃ h2 q2, wait_list_try_get h1 q1 = Ret (Some y, h2, q2) ∧ wl_rep h2 q2 (x :: ls)) ∧
    wait_list_put h1 (wait_list_flush q1) x = Ret (h1, wait_list_flush q1) ∧
    wait_list_get h1 (wait_list_flush q1) = Ret (None, h1, wait_list_flush q1) ∧
    wait_list_try_get h1 (wait_list_flush q1) = Ret (None, h1, wait_list_flush q1).
Proof.
  destruct (wl_put_spec h q _ x Hq Hx Ha Hal) as (h1 & q1 & E & Hq1 & _ & Hal1 & _). exists h1, q1. split; [done|].
  pose proof (proj2 Hq) as N0. pose proof (proj2 Hq1) as N1. cbn [length] in N1. split; [unfold wait_list_len; lia|]. split_and!.
  - destruct (wl_try_get_from_head_spec h1 q1 _ Hq1 Hal1) as (h2 & q2 & E2 & H2 & _). by exists h2, q2.
  - destruct (wl_get_spec h1 q1 (x :: ls) y Hq1 Hal1) as (h2 & q2 & E2 & H2 & _). by exists h2, q2.
  - pose proof (wl_try_get_spec h1 q1 _ Hq1 Hal1) as H. change (x :: ls ++ [y]) with ((x :: ls) ++ [y]) in H.
    rewrite last_snoc in H. destruct H as (A & h2 & q2 & EA & E2 & H2 & _). apply app_inj_tail in EA as [<- _]. by exists h2, q2.
  - done.
  - unfold wait_list_get, wait_take. change (wl_head (wait_list_flush q1)) with (wl_head q1).
    rewrite (is_empty_spec _ _ _ Hq1). done.
  - unfold wait_list_try_get, try_take. change (wl_head (wait_list_flush q1)) with (wl_head q1).
    rewrite (is_empty_spec _ _ _ Hq1). done.
Qed.

(** A list with its head at 1, the node 2 in it and a node 3. *)
Definition wit_wheap : lheap :=
  {[1%positive := {| ln_next := 2%positive; ln_prev := 2%positive |};
    2%positive := {| ln_next := 1%positive; ln_prev := 1%positive |};
    3%positive := {| ln_next := 3%positive; ln_prev := 3%positive |}]}.

Lemma wait_list_two_ends_witness :
  ∃ h1 q1, wait_list_put wit_wheap (mkWait 1%positive true 1) 3%positive = Ret (h1, q1) ∧ wait_list_len q1 = 2 ∧
    ∃ h2 q2, wait_list_get h1 q1 = Ret (Some 2%positive, h2, q2).
Proof.
  destruct (wait_list_two_ends wit_wheap (mkWait 1%positive true 1) [] 3%positive 2%positive)
    as (h1 & q1 & E & Hn & _ & (h2 & q2 & E2 & _) & _).
  - split; [|done]. split; [|repeat split]. apply NoDup_cons. split; [set_solver|]. apply NoDup_singleton.
  - set_solver.
  - by eexists.
  - done.
  - exists h1, q1. split; [done|]. split; [exact Hn|]. by exists h2, q2.
Defined.

(** The neighbours of a node, and adding beside it. *)
Lemma linked_list_neighbours h head A cur B :
  dl_rep h head (A ++ cur :: B) →
  linked_list_next h head cur = Ret (hd_error B) ∧ linked_list_prev h head cur = Ret (last A) ∧
  ∀ x, x ∉ head :: A ++ cur :: B → is_Some (h !! x) →
    (∃ h', linked_list_add_prev h x cur = Ret h' ∧ dl_rep h' head (A ++ x :: cur :: B)) ∧
    (∃ h', linked_list_add_next h x cur = Ret h' ∧ dl_rep h' head (A ++ cur :: x :: B)).
Proof.
  intros Hd. split; [by apply (dl_next_spec h head A)|]. split; [by apply (dl_prev_spec h head A cur B)|].
  intros x Hx Ha. split.
  - destruct (dl_addPrev_spec h head A cur B x Hd Hx Ha) as (h' & E & H & _). by exists h'.
  - destruct (dl_addNext_spec h head A cur B x Hd Hx Ha) as (h' & E & H & _). by exists h'.
Qed.
