(* ===== verification/UpdateTasks.v ===== *)
(** UpdateTaskManager, its factory and the zookeeper watcher that feeds it
    (thrift/pilot/update_task_manager.cc, watcher_action.cc).

    A manager owns a pool of five nodes: free ones wait in one list, those with a
    task in the other.  A task is owned by the node that points to it, so the node
    holds the task itself.  Each list has a mutex of its own; [put_update_task] and
    [get_update_task] take a node from one and then put it into the other.  Here both
    halves are one function, so histories of calls are sequential: between the halves of
    a call another thread would find the node in neither list. *)
From S2P Require Import Prelude Heap LinkedList WaitList StringAlgos.

Inductive UpdateTaskType :=
  REFRESH_ALL | TIMED_REFRESH_ALL | SESSION_EXPIRED | NODE_CREATED | NODE_VALUE_CHANGED | NODE_DELETED
  | CHILD_CHANGED | EXIT.
Record UpdateTask := mkTask { task_type : UpdateTaskType; task_arg : cstr; task_timed : Z }.

Definition UPDATE_TASK_POOL_SIZE : nat := 5.

Record UpdateTaskManager := mkManager {
  um_links : lheap;
  um_data : gmap loc UpdateTask; (** [node->data] *)
  um_task_list : wait_list;
  um_wait_list : wait_list }.

(** ** Operations *)
Definition UpdateTaskManager_new : UpdateTaskManager :=
  let (t, h) := wait_list_new ∅ in
  let (w, h) := wait_list_new h in
  mkManager h ∅ t w.

Fixpoint open_loop (n : nat) (m : UpdateTaskManager) : outcome UpdateTaskManager :=
  match n with
  | O => Ret m
  | S n =>
      let l := fresh (dom (um_links m)) in
      let h := <[l := {| ln_next := l; ln_prev := l |}]> (um_links m) in
      let* (h, w) := wait_list_put h (um_wait_list m) l in
      open_loop n (mkManager h (um_data m) (um_task_list m) w)
  end.

Definition UpdateTaskManager_open (m : UpdateTaskManager) : outcome UpdateTaskManager :=
  open_loop UPDATE_TASK_POOL_SIZE m.

Definition UpdateTaskManager_close (m : UpdateTaskManager) : UpdateTaskManager :=
  mkManager (um_links m) (um_data m) (wait_list_flush (um_task_list m)) (wait_list_flush (um_wait_list m)).

(** [put_update_task(taskp)]: the two lists are locked one after the other. *)
Definition put_task (m : UpdateTaskManager) (task : UpdateTask) : outcome (bool * UpdateTaskManager) :=
  let* (node, h, w) := wait_list_try_get (um_links m) (um_wait_list m) in
  match node with
  | Some l =>
      let* (h, t) := wait_list_put h (um_task_list m) l in
      Ret (true, mkManager h (<[l := task]> (um_data m)) t w)
  | None => Ret (false, mkManager h (um_data m) (um_task_list m) w)
  end.

(** [put_update_task(task_type, task_arg)]; [tod] is the time of day. *)
Definition put_update_task (tod : Z * Z) (m : UpdateTaskManager) (type : UpdateTaskType) (arg : cstr)
    : outcome (bool * UpdateTaskManager) :=
  let timed := match type with
               | TIMED_REFRESH_ALL => u32 (fst tod * 1000 + snd tod / 1000 + 3000)
               | _ => 0
               end in
  put_task m (mkTask type arg timed).

(** [None] is the null task of a closed manager. *)
Definition get_update_task (m : UpdateTaskManager) : outcome (option UpdateTask * UpdateTaskManager) :=
  let* (node, h, t) := wait_list_get_from_head (um_links m) (um_task_list m) in
  match node with
  | Some l =>
      let* task := defined (um_data m !! l) in
      let* (h, w) := wait_list_put h (um_wait_list m) l in
      Ret (Some task, mkManager h (um_data m) t w)
  | None => Ret (None, mkManager h (um_data m) t (um_wait_list m))
  end.

(** ** The factory *)
Abbreviation task_managers := (gmap cstr UpdateTaskManager).

Definition get_update_task_manager (f : task_managers) (key : cstr) : outcome (UpdateTaskManager * task_managers) :=
  match f !! key with
  | Some m => Ret (m, f)
  | None => let* m := UpdateTaskManager_open UpdateTaskManager_new in Ret (m, <[key := m]> f)
  end.

Definition notify (tod : Z * Z) (f : task_managers) (key : cstr) (type : UpdateTaskType) (arg : cstr)
    : outcome task_managers :=
  match f !! key with
  | Some m => let* (_, m) := put_update_task tod m type arg in Ret (<[key := m]> f)
  | None => Ret f
  end.

Fixpoint notify_keys (tod : Z * Z) (keys : list cstr) (f : task_managers) (type : UpdateTaskType) (arg : cstr)
    : outcome task_managers :=
  match keys with
  | [] => Ret f
  | k :: keys => let* f := notify tod f k type arg in notify_keys tod keys f type arg
  end.

(** The managers are independent of each other, so the order of the keys does not
    matter. *)
Definition notify_all (tod : Z * Z) (f : task_managers) (type : UpdateTaskType) (arg : cstr)
    : outcome task_managers :=
  notify_keys tod (map_to_list f).*1 f type arg.

(** ** The watcher *)
Definition DEFAULT_NAMESPACE : cstr := str "/jdns".

(** [find_last_of("/")] and the [substr] before it. *)
Fixpoint parent_path (s : cstr) : option cstr :=
  match s with
  | [] => None
  | c :: s =>
      match parent_path s with
      | Some p => Some (c :: p)
      | None => if c =? 47 then Some [] else None
      end
  end.

Definition notify_parent (tod : Z * Z) (f : task_managers) (path : cstr) (type : UpdateTaskType)
    : outcome task_managers :=
  match parent_path path with
  | Some key =>
      if (length DEFAULT_NAMESPACE <? length key)%nat then notify tod f key type path else Ret f
  | None => Ret f
  end.

Definition on_connected (tod : Z * Z) (f : task_managers) := notify_all tod f REFRESH_ALL [].
Definition on_node_created (tod : Z * Z) (f : task_managers) (path : cstr) := notify_parent tod f path NODE_CREATED.
Definition on_node_value_changed (tod : Z * Z) (f : task_managers) (path : cstr) :=
  notify_parent tod f path NODE_VALUE_CHANGED.
Definition on_node_deleted (tod : Z * Z) (f : task_managers) (path : cstr) := notify_parent tod f path NODE_DELETED.
Definition on_child_changed (tod : Z * Z) (f : task_managers) (path : cstr) := notify tod f path CHILD_CHANGED path.

(** ** Specification

    A stack of at most five tasks, until it is closed. *)
Record task_stack := mkStack { ts_open : bool; ts_tasks : list UpdateTask }.

Inductive task_op := Put_task (t : UpdateTask) | Get_task | Close_tasks.
(** [Slept] is a [get] that found no task: nothing happened. *)
Inductive task_result := Put_result (ok : bool) | Got (t : option UpdateTask) | Slept | Closed.

Definition spec_op (o : task_op) (s : task_stack) : task_result * task_stack :=
  match o with
  | Put_task t =>
      if ts_open s && (length (ts_tasks s) <? UPDATE_TASK_POOL_SIZE)%nat
      then (Put_result true, mkStack true (t :: ts_tasks s)) else (Put_result false, s)
  | Get_task =>
      if ts_open s then
        match ts_tasks s with [] => (Slept, s) | t :: ts => (Got (Some t), mkStack true ts) end
      else (Got None, s)
  | Close_tasks => (Closed, mkStack false (ts_tasks s))
  end.

Definition manager_op (o : task_op) (m : UpdateTaskManager) : outcome (task_result * UpdateTaskManager) :=
  match o with
  | Put_task t => let* (ok, m) := put_task m t in Ret (Put_result ok, m)
  | Get_task =>
      match get_update_task m with
      | Ret (t, m) => Ret (Got t, m)
      | Wait => Ret (Slept, m)
      | Abort => Abort
      | Fault => Fault
      | Diverge => Diverge
      end
  | Close_tasks => Ret (Closed, UpdateTaskManager_close m)
  end.

Fixpoint spec_run (os : list task_op) (s : task_stack) : list task_result * task_stack :=
  match os with
  | [] => ([], s)
  | o :: os => let (r, s) := spec_op o s in let (rs, s) := spec_run os s in (r :: rs, s)
  end.

Fixpoint manager_run (os : list task_op) (m : UpdateTaskManager) : outcome (list task_result * UpdateTaskManager) :=
  match os with
  | [] => Ret ([], m)
  | o :: os => let* (r, m) := manager_op o m in let* (rs, m) := manager_run os m in Ret (r :: rs, m)
  end.

(** ** Representation *)
Record um_rep (m : UpdateTaskManager) (s : task_stack) (busy free : list loc) : Prop := {
  ur_tasks : wl_rep (um_links m) (um_task_list m) busy;
  ur_free : wl_rep (um_links m) (um_wait_list m) free;
  ur_disj : wl_head (um_task_list m) :: busy ## wl_head (um_wait_list m) :: free;
  ur_data : Forall2 (λ l t, um_data m !! l = Some t) busy (ts_tasks s);
  ur_open_t : wl_alive (um_task_list m) = ts_open s;
  ur_open_w : wl_alive (um_wait_list m) = ts_open s;
  ur_total : (length busy + length free = UPDATE_TASK_POOL_SIZE)%nat }.

Lemma data_insert (d : gmap loc UpdateTask) x v ls ts :
  x ∉ ls → Forall2 (λ l t, d !! l = Some t) ls ts → Forall2 (λ l t, <[x := v]> d !! l = Some t) ls ts.
Proof.
  intros Hx HF. induction HF as [|l t ls ts E _ IH]; constructor; [|apply IH; set_solver].
  rewrite lookup_insert_ne; [done|set_solver].
Qed.

Lemma put_task_refines m s busy free t :
  um_rep m s busy free →
  ∃ m' busy' free', put_task m t = Ret (ts_open s && (length (ts_tasks s) <? UPDATE_TASK_POOL_SIZE)%nat, m') ∧
    um_rep m' (snd (spec_op (Put_task t) s)) busy' free'.
Proof.
  intros Hr. pose proof Hr as [Ht Hf Hd Hdat Hot How Htot]. unfold put_task.
  pose proof (Forall2_length _ _ _ Hdat) as Hlen. cbn [spec_op]. destruct (ts_open s) eqn:Eo; cbn [andb].
  2: { unfold wait_list_try_get, try_take. rewrite (is_empty_spec _ _ _ Hf). cbn [obind]. rewrite How. cbn [andb].
       exists m, busy, free. split; [by destruct m|done]. }
  pose proof (wl_try_get_spec _ _ _ Hf How) as Hg. destruct (last free) as [x|] eqn:El.
  - destruct Hg as (A & h1 & w1 & -> & -> & Hf1 & Hh1 & Ha1 & Hdom1 & Hfr1). cbn [obind].
    rewrite length_app in Htot. cbn in Htot. unfold UPDATE_TASK_POOL_SIZE in *.
    destruct (Nat.ltb_spec (length (ts_tasks s)) 5); [|lia]. cbn [snd].
    assert (wl_rep h1 (um_task_list m) busy) as Ht1.
    { eapply wl_rep_frame; [|exact Ht]. intros y Hy. apply Hfr1. set_solver. }
    destruct (wl_put_spec h1 (um_task_list m) busy x Ht1) as (h2 & t2 & -> & Ht2 & Hh2 & Ha2 & Hdom2 & Hfr2);
      [set_solver| |by rewrite Hot|].
    { rewrite Hfr1 by (destruct Hf as [[Hnd _] _]; rewrite app_comm_cons in Hnd;
        apply NoDup_app in Hnd as (_ & Hnd & _); set_solver).
      eapply dl_rep_alloc; [apply Hf|set_solver]. }
    assert (x ∉ A) as HxA by (destruct Hf as [[Hnd _] _]; apply NoDup_cons in Hnd as [_ Hnd];
      apply NoDup_app in Hnd as (_ & Hnd & _); set_solver).
    assert (x ≠ wl_head (um_wait_list m)) as Hxw
      by (intros ->; destruct Hf as [[[Hnd _]%NoDup_cons _] _]; set_solver).
    cbn [obind]. eexists _, (x :: busy), A. split; [done|]. split; cbn [um_links um_data um_task_list um_wait_list ts_tasks ts_open].
    + done.
    + eapply wl_rep_frame; [|exact Hf1]. intros y Hy. apply Hfr2. rewrite Hh1 in Hy. set_solver.
    + rewrite Hh1, Hh2. set_solver.
    + constructor; [by rewrite lookup_insert_eq|]. apply data_insert; [set_solver|done].
    + done.
    + done.
    + cbn. unfold UPDATE_TASK_POOL_SIZE. lia.
  - apply last_None in El as ->. rewrite Hg. cbn [obind]. cbn in Htot.
    destruct (Nat.ltb_spec (length (ts_tasks s)) UPDATE_TASK_POOL_SIZE); [lia|].
    exists m, busy, []. split; [by destruct m|done].
Qed.

Lemma get_task_refines m s busy free :
  um_rep m s busy free →
  if ts_open s then
    match ts_tasks s with
    | [] => get_update_task m = Wait
    | t :: ts => ∃ m' busy' free', get_update_task m = Ret (Some t, m') ∧ um_rep m' (mkStack true ts) busy' free'
    end
  else get_update_task m = Ret (None, m).
Proof.
  intros Hr. pose proof Hr as [Ht Hf Hd Hdat Hot How Htot]. unfold get_update_task. destruct (ts_open s) eqn:Eo.
  2: { unfold wait_list_get_from_head, wait_take. rewrite (is_empty_spec _ _ _ Ht). cbn [obind]. rewrite Hot.
       cbn [andb obind]. by destruct m. }
  pose proof (wl_get_from_head_spec _ _ _ Ht Hot) as Hg.
  destruct Hdat as [|x t busy ts Ex Hdat]; [by rewrite Hg|].
  destruct Hg as (h1 & t1 & -> & Ht1 & Hh1 & Ha1 & Hdom1 & Hfr1). cbn [obind]. rewrite Ex. cbn [defined obind].
  pose proof Ht as [[[Hxt [Hxb _]%NoDup_cons]%NoDup_cons _] _].
  assert (wl_rep h1 (um_wait_list m) free) as Hf1.
  { eapply wl_rep_frame; [|exact Hf]. intros y Hy. apply Hfr1. set_solver. }
  destruct (wl_put_spec h1 (um_wait_list m) free x Hf1) as (h2 & w2 & -> & Hf2 & Hh2 & Ha2 & Hdom2 & Hfr2);
    [set_solver| |by rewrite How|].
  { rewrite Hfr1 by set_solver. eapply dl_rep_alloc; [exact (proj1 Ht)|set_solver]. }
  cbn [obind]. eexists _, busy, (x :: free). split; [done|]. split; cbn [um_links um_data um_task_list um_wait_list ts_tasks ts_open].
  - eapply wl_rep_frame; [|exact Ht1]. intros y Hy. apply Hfr2. rewrite Hh1 in Hy. set_solver.
  - done.
  - rewrite Hh1, Hh2. set_solver.
  - done.
  - done.
  - done.
  - cbn in *. lia.
Qed.

Lemma manager_op_refines o m s busy free :
  um_rep m s busy free →
  ∃ m' busy' free', manager_op o m = Ret (fst (spec_op o s), m') ∧ um_rep m' (snd (spec_op o s)) busy' free'.
Proof.
  intros Hr. destruct o as [t| |]; cbn [manager_op].
  - destruct (put_task_refines m s busy free t Hr) as (m' & b' & f' & -> & Hr'). cbn [obind].
    exists m', b', f'. split; [|done]. cbn [spec_op]. by destruct (_ && _).
  - pose proof (get_task_refines m s busy free Hr) as Hg. cbn [spec_op]. destruct (ts_open s) eqn:Eo.
    + destruct (ts_tasks s) as [|t ts]; [rewrite Hg; exists m, busy, free; done|].
      destruct Hg as (m' & b' & f' & -> & Hr'). exists m', b', f'. done.
    + rewrite Hg. exists m, busy, free. done.
  - exists (UpdateTaskManager_close m), busy, free. split; [done|]. by destruct Hr.
Qed.

Lemma manager_run_refines os m s busy free :
  um_rep m s busy free →
  ∃ m' busy' free', manager_run os m = Ret (fst (spec_run os s), m') ∧ um_rep m' (snd (spec_run os s)) busy' free'.
Proof.
  revert m s busy free. induction os as [|o os IH]; intros m s busy free Hr; cbn [manager_run spec_run]; [eauto 10|].
  destruct (manager_op_refines o m s busy free Hr) as (m1 & b1 & f1 & -> & Hr1). cbn [obind].
  destruct (spec_op o s) as [r s1]. cbn [fst snd] in *.
  destruct (IH m1 s1 b1 f1 Hr1) as (m2 & b2 & f2 & -> & Hr2). cbn [obind].
  destruct (spec_run os s1) as [rs s2]. cbn [fst snd] in *. eauto.
Qed.

(** Opening a manager: five free nodes. *)
Definition opened : UpdateTaskManager :=
  Eval vm_compute in match UpdateTaskManager_open UpdateTaskManager_new with Ret m => m | _ => UpdateTaskManager_new end.

Lemma opened_open : UpdateTaskManager_open UpdateTaskManager_new = Ret opened.
Proof. vm_compute. reflexivity. Qed.

Lemma opened_rep : ∃ free, um_rep opened (mkStack true []) [] free.
Proof.
  exists [7%positive; 6%positive; 5%positive; 4%positive; 3%positive]. split.
  - split; [|reflexivity]. split; [repeat constructor; set_solver|]. vm_compute. tauto.
  - split; [|reflexivity]. split; [|vm_compute; tauto]. apply (bool_decide_unpack _). vm_compute. exact I.
  - cbn. set_solver.
  - constructor.
  - reflexivity.
  - reflexivity.
  - reflexivity.
Qed.

(** ** Properties *)

(** C24: over every history of calls, one after the other, an opened task manager is a
    stack of at most five tasks: [put_update_task] succeeds exactly when it is open and holds fewer
    than five, [get_update_task] returns the task put last, sleeps while there is
    none and returns null once the manager is closed.  No call ever fails or
    corrupts the two lists, which always hold the five nodes between them. *)
Theorem update_tasks_are_a_stack os :
  ∃ m m', UpdateTaskManager_open UpdateTaskManager_new = Ret m ∧
    manager_run os m = Ret (fst (spec_run os (mkStack true [])), m') ∧
    ∃ busy free, um_rep m' (snd (spec_run os (mkStack true []))) busy free.
Proof.
  destruct opened_rep as [free Hr]. destruct (manager_run_refines os _ _ _ _ Hr) as (m' & busy' & free' & Hrun & Hr').
  exists opened, m'. split; [exact opened_open|eauto].
Qed.

Example last_put_first_got :
  fst (spec_run [Put_task (mkTask REFRESH_ALL [] 0); Put_task (mkTask EXIT [] 0); Get_task; Get_task; Get_task]
    (mkStack true [])) =
  [Put_result true; Put_result true; Got (Some (mkTask EXIT [] 0)); Got (Some (mkTask REFRESH_ALL [] 0)); Slept].
Proof. reflexivity. Qed.
