(* ===== verification/ConnPool.v ===== *)
(** Pilot::ThriftClient and Pilot::ConnPool (thrift/pilot/thrift_client.inl,
    conn_pool.inl): the connections to one replica of a service.

    A client is an object with a transport that is open or not; whether the next
    attempts to open a transport succeed is an oracle, since the thrift runtime is
    not part of the program.  A pool keeps idle clients in a list of its own; its
    nodes never leave the pool.  Every public method runs under the pool's mutex
    and is one function. *)
From S2P Require Import Prelude Heap LinkedList WaitList.

(** ** Clients *)
Record ThriftClient := mkClient { tc_replica : cstr * Z; tc_protocol : cstr; tc_is_open : bool }.

(** The client objects and the answers of the coming calls of [transport_->open()]. *)
Record net := mkNet { nt_clients : gmap loc ThriftClient; nt_opens : list bool }.
Definition nt_set (cs : gmap loc ThriftClient) (n : net) : net := mkNet cs (nt_opens n).

Definition TBINARY_PROTOCOL : cstr := str "TBinaryProtocol".
Definition known_protocols : list cstr :=
  [TBINARY_PROTOCOL; str "TCompactProtocol"; str "TJSONProtocol"; str "TDenseProtocol"; str "TDebugProtocol"].

(** The constructor: an unknown protocol becomes the binary one. *)
Definition ThriftClient_new (n : net) (host : cstr) (port : Z) (protocol : cstr) : loc * net :=
  let l := fresh (dom (nt_clients n)) in
  let protocol := if bool_decide (protocol ∈ known_protocols) then protocol else TBINARY_PROTOCOL in
  (l, nt_set (<[l := mkClient (host, port) protocol false]> (nt_clients n)) n).

Definition set_open (b : bool) (c : ThriftClient) : ThriftClient := mkClient (tc_replica c) (tc_protocol c) b.

Definition open_service (n : net) (l : loc) : outcome (Z * net) :=
  let* c := load (nt_clients n) (Some l) in
  if tc_is_open c then Ret (0, n)
  else
    match nt_opens n with
    | true :: os =>
        let* cs := store (nt_clients n) (Some l) (set_open true c) in Ret (0, mkNet cs os)
    | _ :: os => Ret (-1, mkNet (nt_clients n) os)
    | [] => Ret (-1, n)
    end.

Definition close_service (n : net) (l : loc) : outcome (Z * net) :=
  let* c := load (nt_clients n) (Some l) in
  if negb (tc_is_open c) then Ret (0, n)
  else let* cs := store (nt_clients n) (Some l) (set_open false c) in Ret (0, nt_set cs n).

(** [delete thrift_client]: the destructor closes the service. *)
Definition delete_client (n : net) (l : loc) : outcome net :=
  let* (_, n) := close_service n l in
  let* cs := dealloc (nt_clients n) (Some l) in Ret (nt_set cs n).

(** ** The pool *)
Inductive HealthyStatus :=
  HEALTHY | NOT_HEALTHY_BUT_CAN_HAVEATRY | NOT_HEALTHY_AND_CANNOT_BE_USED_TEMP | DEAD.
#[export] Instance HealthyStatus_eq : EqDecision HealthyStatus. Proof. solve_decision. Defined.

Definition MAX_ERROR_CNT_THRESHOLD : Z := 10.

Record ConnPool := mkPool {
  cp_host : cstr; cp_port : Z; cp_conn_num : Z; cp_tprotocol : cstr;
  cp_links : lheap; cp_nodes : gmap loc loc; (** [nodep->data] *)
  cp_list : wait_list;
  cp_error_cnt : Z;
  cp_last_err : option (Z * Z) }.

Definition cp_set (h : lheap) (nodes : gmap loc loc) (q : wait_list) (p : ConnPool) : ConnPool :=
  mkPool (cp_host p) (cp_port p) (cp_conn_num p) (cp_tprotocol p) h nodes q (cp_error_cnt p) (cp_last_err p).
Definition cp_set_error (cnt : Z) (ts : option (Z * Z)) (p : ConnPool) : ConnPool :=
  mkPool (cp_host p) (cp_port p) (cp_conn_num p) (cp_tprotocol p) (cp_links p) (cp_nodes p) (cp_list p) cnt ts.

Definition pool_size (p : ConnPool) : Z := wait_list_len (cp_list p).

Definition release_client (n : net) (p : ConnPool) (client : loc) : outcome (net * ConnPool) :=
  let node := fresh (dom (cp_links p)) in
  if cp_conn_num p <? pool_size p then
    let* n := delete_client n client in Ret (n, p)
  else
    let h := <[node := {| ln_next := node; ln_prev := node |}]> (cp_links p) in
    let* (h, q) := wait_list_put h (cp_list p) node in
    Ret (n, cp_set h (<[node := client]> (cp_nodes p)) q p).

Definition acquire_client (p : ConnPool) : outcome (ptr * ConnPool) :=
  let* (node, h, q) := wait_list_try_get (cp_links p) (cp_list p) in
  match node with
  | Some l =>
      let* client := defined (cp_nodes p !! l) in
      Ret (Some client, cp_set (delete l h) (delete l (cp_nodes p)) q p)
  | None => Ret (None, cp_set h (cp_nodes p) q p)
  end.

Definition init_one_conn (n : net) (p : ConnPool) : outcome (Z * net * ConnPool) :=
  let (conn, n) := ThriftClient_new n (cp_host p) (cp_port p) (cp_tprotocol p) in
  let* (ret, n) := open_service n conn in
  if ret =? 0 then
    let* (n, p) := release_client n p conn in Ret (pool_size p, n, p)
  else
    let* n := delete_client n conn in Ret (pool_size p, n, p).

Fixpoint init_loop (i : nat) (conn_num : Z) (n : net) (p : ConnPool) : outcome (Z * net * ConnPool) :=
  match i with
  | O => Ret (conn_num, n, p)
  | S i => let* (conn_num, n, p) := init_one_conn n p in init_loop i conn_num n p
  end.

Definition init (n : net) (p : ConnPool) : outcome (Z * net * ConnPool) :=
  init_loop (Z.to_nat (cp_conn_num p)) 0 n p.

Fixpoint clear_loop (fuel : nat) (n : net) (p : ConnPool) : outcome (net * ConnPool) :=
  let* (client, p) := acquire_client p in
  match client with
  | None => Ret (n, p)
  | Some c =>
      match fuel with
      | O => Diverge
      | S fuel => let* n := delete_client n c in clear_loop fuel n p
      end
  end.

Definition clear (n : net) (p : ConnPool) : outcome (net * ConnPool) :=
  clear_loop (size (cp_links p)) n p.

Definition refresh (n : net) (p : ConnPool) : outcome (bool * net * ConnPool) :=
  let* (n, p) := clear n p in
  let* (num, n, p) := init n p in
  Ret (0 <? num, n, p).

Definition ConnPool_new (n : net) (host : cstr) (port conn_num : Z) (protocol : cstr) : outcome (net * ConnPool) :=
  let (q, h) := wait_list_new ∅ in
  let* (_, n, p) := init n (mkPool host port conn_num protocol h ∅ q 0 None) in
  Ret (n, p).

(** ** Health *)
Definition timeval_add (t u : Z * Z) : Z * Z :=
  let s := fst t + fst u in
  let us := snd t + snd u in
  if 1000000 <=? us then (s + 1, us - 1000000) else (s, us).

(** [now] is the time of day. *)
Definition is_healthy (now : Z * Z) (p : ConnPool) : outcome HealthyStatus :=
  if cp_error_cnt p =? 0 then Ret HEALTHY
  else if MAX_ERROR_CNT_THRESHOLD <? cp_error_cnt p then Ret DEAD
  else
    let* last_ts := defined (cp_last_err p) in
    let tscmp := timeval_add last_ts (cp_error_cnt p * cp_error_cnt p, 0) in
    Ret (if (fst now <? fst tscmp) || ((fst tscmp =? fst now) && (snd now <? snd tscmp))
         then NOT_HEALTHY_AND_CANNOT_BE_USED_TEMP else NOT_HEALTHY_BUT_CAN_HAVEATRY).

Definition report_error (now : Z * Z) (p : ConnPool) : outcome (HealthyStatus * ConnPool) :=
  if cp_error_cnt p =? 2 ^ 31 - 1 then Fault
  else
    let p := cp_set_error (cp_error_cnt p + 1) (Some now) p in
    let* s := is_healthy now p in Ret (s, p).

Definition clear_error (now : Z * Z) (p : ConnPool) : outcome ConnPool :=
  let* s := is_healthy now p in
  if bool_decide (s = HEALTHY) then Ret p else Ret (cp_set_error 0 (cp_last_err p) p).

(** Everything of a pool but its idle clients. *)
Definition config (p : ConnPool) :=
  (cp_host p, cp_port p, cp_conn_num p, cp_tprotocol p, cp_error_cnt p, cp_last_err p).

Lemma config_num p p' : config p' = config p → cp_conn_num p' = cp_conn_num p.
Proof. by intros [= ]. Qed.

(** ** Representation *)
(** The idle clients of a pool, the one released last first. *)
Record pool_rep (p : ConnPool) (nodes cs : list loc) : Prop := {
  pr_list : wl_rep (cp_links p) (cp_list p) nodes;
  pr_alive : wl_alive (cp_list p) = true;
  pr_data : Forall2 (λ l c, cp_nodes p !! l = Some c) nodes cs }.

Lemma pool_size_rep p nodes cs : pool_rep p nodes cs → pool_size p = Z.of_nat (length cs).
Proof. intros [[_ Hn] _ Hd]. unfold pool_size, wait_list_len. by rewrite Hn, (Forall2_length _ _ _ Hd). Qed.

Lemma delete_client_spec n l c :
  nt_clients n !! l = Some c →
  delete_client n l = Ret (mkNet (delete l (nt_clients n)) (nt_opens n)).
Proof.
  intros E. unfold delete_client, close_service. rewrite (load_Some _ _ _ E). cbn [obind].
  destruct (tc_is_open c); cbn [negb].
  - rewrite (store_Some _ _ _ _ E). cbn [obind]. cbn [nt_clients nt_set].
    rewrite (dealloc_Some _ l (set_open false c)) by apply lookup_insert_eq. cbn [obind].
    unfold nt_set. cbn. by rewrite delete_insert_eq.
  - cbn [obind]. by rewrite (dealloc_Some _ _ _ E).
Qed.

Lemma nodes_insert (d : gmap loc loc) x v ls cs :
  x ∉ ls → Forall2 (λ l c, d !! l = Some c) ls cs → Forall2 (λ l c, <[x := v]> d !! l = Some c) ls cs.
Proof.
  intros Hx HF. induction HF as [|l t ls ts E _ IH]; constructor; [|apply IH; set_solver].
  rewrite lookup_insert_ne; [done|set_solver].
Qed.

Lemma nodes_delete (d : gmap loc loc) x ls cs :
  x ∉ ls → Forall2 (λ l c, d !! l = Some c) ls cs → Forall2 (λ l c, delete x d !! l = Some c) ls cs.
Proof.
  intros Hx HF. induction HF as [|l t ls ts E _ IH]; constructor; [|apply IH; set_solver].
  rewrite lookup_delete_ne; [done|set_solver].
Qed.

Lemma release_client_spec n p nodes cs l c :
  pool_rep p nodes cs → nt_clients n !! l = Some c →
  if cp_conn_num p <? Z.of_nat (length cs)
  then release_client n p l = Ret (mkNet (delete l (nt_clients n)) (nt_opens n), p)
  else ∃ p' nodes', release_client n p l = Ret (n, p') ∧ pool_rep p' nodes' (l :: cs) ∧
    config p' = config p.
Proof.
  intros Hr E. unfold release_client. rewrite (pool_size_rep _ _ _ Hr).
  destruct (cp_conn_num p <? Z.of_nat (length cs)); [by rewrite (delete_client_spec _ _ _ E)|].
  destruct Hr as [Hl Ha Hd]. set (node := fresh _).
  assert (cp_links p !! node = None) as En by (apply not_elem_of_dom, is_fresh).
  set (h := <[node := _]> (cp_links p)).
  assert (∀ y, y ∈ wl_head (cp_list p) :: nodes → y ≠ node) as Hne.
  { intros y Hy ->. destruct (dl_rep_alloc _ _ _ _ (proj1 Hl) Hy) as [x Hx]. congruence. }
  destruct (wl_put_spec h (cp_list p) nodes node) as (h' & q' & -> & Hl' & Hh' & Ha' & _).
  { eapply wl_rep_frame; [|exact Hl]. intros y Hy. apply lookup_insert_ne. by apply not_eq_sym, Hne. }
  { intros Hy. by apply (Hne _ Hy). }
  { subst h. rewrite lookup_insert_eq. eauto. } { done. }
  cbn [obind]. eexists _, (node :: nodes). split; [done|]. split; [|done]. split; cbn; [done|done|].
  constructor; [by rewrite lookup_insert_eq|]. apply nodes_insert; [|done].
  intros Hy. apply (Hne node); [set_solver|done].
Qed.

Lemma acquire_client_spec p nodes cs :
  pool_rep p nodes cs →
  match last cs with
  | None => acquire_client p = Ret (None, p)
  | Some c => ∃ cs' p' nodes', cs = cs' ++ [c] ∧ acquire_client p = Ret (Some c, p') ∧ pool_rep p' nodes' cs' ∧
      config p' = config p
  end.
Proof.
  intros [Hl Ha Hd]. unfold acquire_client. pose proof (wl_try_get_spec _ _ _ Hl Ha) as Hg.
  destruct cs as [|c cs] using rev_ind.
  { apply Forall2_nil_inv_r in Hd as ->. cbn in *. rewrite Hg. cbn [obind]. by destruct p. }
  rewrite last_snoc. apply Forall2_app_inv_r in Hd as (A & B & Hd & HdB & ->).
  apply Forall2_cons_inv_r in HdB as (x & B' & Ex & HB & ->). apply Forall2_nil_inv_r in HB as ->.
  rewrite last_snoc in Hg. destruct Hg as (A' & h' & q' & EA & -> & Hl' & Hh & Ha' & _ & _).
  apply app_inj_tail in EA as [<- _]. cbn [obind]. rewrite Ex. cbn [defined obind].
  pose proof Hl as [[[Hxh Hnd]%NoDup_cons _] _]. apply NoDup_app in Hnd as (_ & HxA & _).
  assert (x ∉ A) as Hx by set_solver.
  eexists cs, _, A. split; [done|]. split; [done|]. split; [|done]. split; cbn; [|done|by apply nodes_delete].
  eapply wl_rep_frame; [|exact Hl']. intros y Hy. apply lookup_delete_ne. rewrite Hh in Hy. set_solver.
Qed.

(** ** The life of a pool *)
(** The idle and the borrowed clients are all different and are all the clients that
    are alive, and there are not too many idle ones. *)
Record pool_inv (n : net) (p : ConnPool) (nodes cs out : list loc) : Prop := {
  pi_rep : pool_rep p nodes cs;
  pi_distinct : NoDup (cs ++ out);
  pi_alive : ∀ l, l ∈ cs ++ out ↔ is_Some (nt_clients n !! l);
  pi_bound : Z.of_nat (length cs) ≤ cp_conn_num p + 1 }.

Lemma alive_delete (m : gmap loc ThriftClient) l ls ls' :
  (∀ k, k ∈ ls ↔ is_Some (m !! k)) → l ∉ ls' → ls ≡ₚ l :: ls' → ∀ k, k ∈ ls' ↔ is_Some (delete l m !! k).
Proof.
  intros Hm Hl Hperm k. rewrite lookup_delete_is_Some, <-Hm, Hperm, elem_of_cons.
  split; [|naive_solver]. intros Hk. split; [by intros ->|by right].
Qed.

Lemma alive_insert (m : gmap loc ThriftClient) l c (ls ls' : list loc) :
  (∀ k, k ∈ ls ↔ is_Some (m !! k)) → ls' ≡ₚ l :: ls → ∀ k, k ∈ ls' ↔ is_Some (<[l := c]> m !! k).
Proof. intros Hm Hperm k. rewrite lookup_insert_is_Some', <-Hm, Hperm, elem_of_cons. naive_solver. Qed.

Lemma alive_update (m : gmap loc ThriftClient) l c (ls : list loc) :
  (∀ k, k ∈ ls ↔ is_Some (m !! k)) → l ∈ ls → ∀ k, k ∈ ls ↔ is_Some (<[l := c]> m !! k).
Proof. intros Hm Hl k. rewrite lookup_insert_is_Some', <-Hm. naive_solver. Qed.

Lemma alive_perm (m : gmap loc ThriftClient) ls ls' :
  (∀ k, k ∈ ls ↔ is_Some (m !! k)) → ls' ≡ₚ ls → ∀ k, k ∈ ls' ↔ is_Some (m !! k).
Proof. intros Hm Hperm k. by rewrite Hperm. Qed.

Lemma no_clients os l : l ∈ @nil loc ↔ is_Some (nt_clients (mkNet ∅ os) !! l).
Proof. cbn. rewrite lookup_empty. split; [by intros ?%elem_of_nil|by intros []]. Qed.

Lemma take_out (cs out1 out2 : list loc) l : cs ++ out1 ++ l :: out2 ≡ₚ l :: cs ++ out1 ++ out2.
Proof. rewrite !app_assoc. symmetry. apply Permutation_middle. Qed.

Lemma release_inv n p nodes cs out1 l out2 :
  pool_inv n p nodes cs (out1 ++ l :: out2) →
  ∃ n' p' nodes' cs', release_client n p l = Ret (n', p') ∧ pool_inv n' p' nodes' cs' (out1 ++ out2) ∧
    nt_opens n' = nt_opens n ∧ config p' = config p.
Proof.
  intros [Hr Hnd Hal Hb]. destruct (proj1 (Hal l)) as [c E]; [set_solver|].
  pose proof Hnd as Hnd'. rewrite take_out in Hnd'.
  apply NoDup_cons in Hnd' as [Hl Hnd'].
  pose proof (release_client_spec n p nodes cs l c Hr E) as Hs.
  destruct (Z.ltb_spec (cp_conn_num p) (Z.of_nat (length cs))) as [Hlt|Hle].
  - eexists _, _, nodes, cs. split; [exact Hs|]. split; [|done]. split; try done.
    eapply alive_delete; [exact Hal|done|apply take_out].
  - destruct Hs as (p' & nodes' & -> & Hr' & En). exists n, p', nodes', (l :: cs). split; [done|].
    split; [|done]. split; [done|by constructor| |cbn; rewrite (config_num _ _ En); lia].
    eapply alive_perm; [exact Hal|by rewrite take_out].
Qed.

Lemma acquire_inv n p nodes cs out :
  pool_inv n p nodes cs out →
  ∃ c p' nodes' cs', acquire_client p = Ret (c, p') ∧
    pool_inv n p' nodes' cs' (match c with Some l => l :: out | None => out end) ∧ config p' = config p ∧
    c = last cs ∧ cs = cs' ++ option_list c.
Proof.
  intros [Hr Hnd Hal Hb]. pose proof (acquire_client_spec p nodes cs Hr) as Hs.
  destruct (last cs) as [c|] eqn:El.
  - destruct Hs as (cs' & p' & nodes' & -> & -> & Hr' & En). exists (Some c), p', nodes', cs'.
    split; [done|]. split; [|done]. rewrite length_app in Hb. cbn in Hb.
    rewrite <-app_assoc in Hnd, Hal. split; [done..|rewrite (config_num _ _ En); lia].
  - apply last_None in El as ->. exists None, p, nodes, []. done.
Qed.

Lemma clear_loop_inv fuel n p nodes cs out :
  pool_inv n p nodes cs out → (length cs ≤ fuel)%nat →
  ∃ n' p' nodes', clear_loop fuel n p = Ret (n', p') ∧ pool_inv n' p' nodes' [] out ∧
    (∀ l, l ∈ cs → nt_clients n' !! l = None) ∧ (∀ l, l ∉ cs → nt_clients n' !! l = nt_clients n !! l) ∧
    nt_opens n' = nt_opens n ∧ config p' = config p.
Proof.
  revert n p nodes cs. induction fuel as [|fuel IH]; intros n p nodes cs Hi Hf; cbn [clear_loop];
    destruct (acquire_inv n p nodes cs out Hi) as (c & p1 & nodes1 & cs1 & -> & Hi1 & En & Elast & Ecs); cbn [obind];
    (destruct c as [c|]; [|symmetry in Elast; apply last_None in Elast as ->; destruct cs1; [|done];
      exists n, p1, nodes1; split_and!; try done; set_solver]).
  - rewrite Ecs, length_app in Hf. cbn in Hf. lia.
  - destruct Hi1 as [Hr1 Hnd1 Hal1 Hb1]. destruct (proj1 (Hal1 c)) as [x E]; [set_solver|].
    rewrite (delete_client_spec _ _ _ E). cbn [obind].
    pose proof Hnd1 as Hnd. rewrite <-Permutation_middle in Hnd. apply NoDup_cons in Hnd as [Hc Hnd].
    destruct (IH (mkNet (delete c (nt_clients n)) (nt_opens n)) p1 nodes1 cs1) as (n' & p' & nodes' & -> & Hi' & Hdel & Hkeep & Ho & Hn).
    + split; [done|done| |lia]. eapply alive_delete; [exact Hal1|done|apply (take_out cs1 [] out)].
    + rewrite Ecs, length_app in Hf. cbn in Hf. lia.
    + exists n', p', nodes'. split; [done|]. split; [done|]. split; [|split; [|split; [done|congruence]]].
      * intros l Hl. rewrite Ecs in Hl. apply elem_of_app in Hl as [Hl|Hl]; [by apply Hdel|].
        cbn in Hl. assert (l = c) as -> by set_solver. rewrite Hkeep by set_solver. cbn. apply lookup_delete_eq.
      * intros l Hl. rewrite Ecs in Hl. cbn in Hl. rewrite Hkeep by set_solver. cbn. apply lookup_delete_ne. set_solver.
Qed.

Lemma clear_inv n p nodes cs out :
  pool_inv n p nodes cs out →
  ∃ n' p' nodes', clear n p = Ret (n', p') ∧ pool_inv n' p' nodes' [] out ∧
    (∀ l, l ∈ cs → nt_clients n' !! l = None) ∧ nt_opens n' = nt_opens n ∧ config p' = config p.
Proof.
  intros Hi. destruct (clear_loop_inv (size (cp_links p)) n p nodes cs out Hi)
    as (n' & p' & nodes' & E & Hi' & Hd & _ & Ho & Hn).
  - destruct Hi as [[[[Hnd Hl] Hn] _ Hd] _ _ _]. rewrite <-(Forall2_length _ _ _ Hd).
    pose proof Hnd as [_ Hnd']%NoDup_cons. apply NoDup_dom_size; [done|]. intros l Hl'.
    eapply dl_rep_alloc; [split; [exact Hnd|exact Hl]|set_solver].
  - exists n', p', nodes'. done.
Qed.

Lemma ThriftClient_new_spec n host port protocol :
  let (l, n') := ThriftClient_new n host port protocol in
  nt_clients n !! l = None ∧ nt_opens n' = nt_opens n ∧
  ∃ pr, nt_clients n' = <[l := mkClient (host, port) pr false]> (nt_clients n).
Proof. cbn. split; [apply not_elem_of_dom, is_fresh|]. split; [done|]. by eexists. Qed.

(** One attempt to add a connection. *)
Lemma init_one_inv n p nodes cs out :
  pool_inv n p nodes cs out →
  ∃ n' p' nodes' cs', init_one_conn n p = Ret (Z.of_nat (length cs'), n', p') ∧ pool_inv n' p' nodes' cs' out ∧
    config p' = config p ∧ nt_opens n' = tail (nt_opens n) ∧
    (Z.of_nat (length cs) ≤ cp_conn_num p →
     length cs' = (length cs + if head (nt_opens n) is Some true then 1 else 0)%nat).
Proof.
  intros Hi. unfold init_one_conn. pose proof (ThriftClient_new_spec n (cp_host p) (cp_port p) (cp_tprotocol p)) as Hnew.
  destruct (ThriftClient_new _ _ _ _) as [l n1]. destruct Hnew as (El & Ho & pr & En1).
  assert (nt_clients n1 !! l = Some (mkClient (cp_host p, cp_port p) pr false)) as E1
    by (rewrite En1; apply lookup_insert_eq).
  unfold open_service. rewrite (load_Some _ _ _ E1). cbn [obind tc_is_open].
  destruct Hi as [Hr Hnd Hal Hb]. assert (∀ k, k ∈ cs ++ out → k ≠ l) as Hne.
  { intros k Hk ->. destruct (proj1 (Hal l) Hk) as [x Hx]. congruence. }
  assert (∀ os, delete l (nt_clients n1) = nt_clients n ∧ nt_opens n = os →
    ∃ n' p' nodes' cs', (let* n2 := delete_client (mkNet (nt_clients n1) (tail os)) l in Ret (pool_size p, n2, p)) =
      Ret (Z.of_nat (length cs'), n', p') ∧ pool_inv n' p' nodes' cs' out ∧ config p' = config p ∧
      nt_opens n' = tail os ∧ length cs' = length cs) as Hfail.
  { intros os [Hdel _]. rewrite (delete_client_spec (mkNet (nt_clients n1) (tail os)) l _ E1). cbn [obind nt_clients nt_opens]. rewrite Hdel.
    eexists _, p, nodes, cs. rewrite (pool_size_rep _ _ _ Hr). split; [done|]. by split. }
  assert (delete l (nt_clients n1) = nt_clients n) as Hdel by (rewrite En1; by apply delete_insert_id).
  rewrite Ho. destruct (nt_opens n) as [|[|] os] eqn:Eo.
  - destruct (Hfail [] (conj Hdel eq_refl)) as (n' & p' & nodes' & cs' & Hf & Hi' & Hn & Ho' & Hlen).
    replace (mkNet (nt_clients n1) (tail [])) with n1 in Hf by (destruct n1; cbn in *; by rewrite Ho).
    change (-1 =? 0) with false. cbn [obind]. exists n', p', nodes', cs'.
    split_and!; try done. intros _. cbn. lia.
  - rewrite (store_Some _ _ _ _ E1). cbn [obind]. change (0 =? 0) with true. cbn iota.
    set (n2 := mkNet _ os).
    destruct (release_inv n2 p nodes cs [] l out) as (n' & p' & nodes' & cs' & Hrel & Hi' & Ho' & Hn).
    + split; [done| | |done].
      * cbn. rewrite (Permutation_app_comm cs). cbn. rewrite (Permutation_app_comm out). constructor; [|done].
        intros Hk. by apply (Hne l).
      * unfold n2. cbn [nt_clients app]. rewrite En1, insert_insert_eq. eapply alive_insert; [exact Hal|apply (take_out cs [] out)].
    + rewrite Hrel. cbn [obind]. exists n', p', nodes', cs'. rewrite (pool_size_rep _ _ _ (pi_rep _ _ _ _ _ Hi')).
      split_and!; try done. intros Hroom. cbn.
      pose proof (release_client_spec n2 p nodes cs l _ Hr (lookup_insert_eq _ _ _)) as Hs.
      destruct (Z.ltb_spec (cp_conn_num p) (Z.of_nat (length cs))); [lia|].
      destruct Hs as (p2 & nodes2 & Hs & Hr2 & _). rewrite Hrel in Hs. injection Hs as _ ->.
      pose proof (pool_size_rep _ _ _ Hr2) as Z1. pose proof (pool_size_rep _ _ _ (pi_rep _ _ _ _ _ Hi')) as Z2.
      cbn in Z1. lia.
  - destruct (Hfail (false :: os) (conj Hdel eq_refl)) as (n' & p' & nodes' & cs' & Hf & Hi' & Hn & Ho' & Hlen).
    change (-1 =? 0) with false. cbn [obind]. cbn [tail] in Hf. exists n', p', nodes', cs'.
    split_and!; try done. intros _. cbn. lia.
Qed.

(** How many of the next [k] attempts to connect succeed. *)
Definition successes (k : nat) (os : list bool) : nat := length (filter (λ b, b = true) (take k os)).

Lemma successes_S k os :
  successes (S k) os = ((if head os is Some true then 1 else 0) + successes k (tail os))%nat.
Proof. unfold successes. by destruct os as [|[|] os]; cbn; rewrite ?take_nil. Qed.

Lemma init_loop_inv i num n p nodes cs out :
  pool_inv n p nodes cs out → Z.of_nat (length cs + i) ≤ cp_conn_num p →
  ∃ n' p' nodes' cs', init_loop i num n p = Ret (if (i =? 0)%nat then num else Z.of_nat (length cs'), n', p') ∧
    pool_inv n' p' nodes' cs' out ∧ config p' = config p ∧
    nt_opens n' = drop i (nt_opens n) ∧ length cs' = (length cs + successes i (nt_opens n))%nat.
Proof.
  revert num n p nodes cs. induction i as [|i IH]; intros num n p nodes cs Hi Hb; cbn [init_loop].
  { exists n, p, nodes, cs. by rewrite Nat.add_0_r. }
  destruct (init_one_inv n p nodes cs out Hi) as (n1 & p1 & nodes1 & cs1 & -> & Hi1 & Hn1 & Ho1 & Hlen1). cbn [obind].
  specialize (Hlen1 ltac:(lia)). pose proof (config_num _ _ Hn1).
  assert (length cs1 ≤ length cs + 1)%nat as Hle by (rewrite Hlen1; destruct (head (nt_opens n)) as [[|]|]; lia).
  destruct (IH (Z.of_nat (length cs1)) n1 p1 nodes1 cs1 Hi1) as (n2 & p2 & nodes2 & cs2 & -> & Hi2 & Hn2 & Ho2 & Hlen2);
    [lia|].
  exists n2, p2, nodes2, cs2. split_and!; try done.
  - destruct (Nat.eqb_spec i 0) as [->|]; [|done]. rewrite Hlen2. unfold successes. cbn. by rewrite Nat.add_0_r.
  - congruence.
  - rewrite Ho2, Ho1. destruct (nt_opens n); cbn; by rewrite ?drop_nil.
  - rewrite Hlen2, Hlen1, Ho1, successes_S. lia.
Qed.

Lemma init_inv n p nodes out :
  pool_inv n p nodes [] out → 0 ≤ cp_conn_num p →
  ∃ n' p' nodes' cs', init n p = Ret (Z.of_nat (length cs'), n', p') ∧ pool_inv n' p' nodes' cs' out ∧
    config p' = config p ∧ nt_opens n' = drop (Z.to_nat (cp_conn_num p)) (nt_opens n) ∧
    length cs' = successes (Z.to_nat (cp_conn_num p)) (nt_opens n).
Proof.
  intros Hi Hn. destruct (init_loop_inv (Z.to_nat (cp_conn_num p)) 0 n p nodes [] out Hi)
    as (n' & p' & nodes' & cs' & E & Hi' & Hn' & Ho & Hlen); [cbn; lia|].
  exists n', p', nodes', cs'. split_and!; try done. unfold init. rewrite E.
  destruct (Nat.eqb_spec (Z.to_nat (cp_conn_num p)) 0) as [E0|]; [|done].
  rewrite Hlen, E0. unfold successes. done.
Qed.

Lemma refresh_inv n p nodes cs out :
  pool_inv n p nodes cs out → 0 ≤ cp_conn_num p →
  ∃ n' p' nodes' cs', refresh n p = Ret (0 <? Z.of_nat (length cs'), n', p') ∧ pool_inv n' p' nodes' cs' out ∧
    config p' = config p ∧ nt_opens n' = drop (Z.to_nat (cp_conn_num p)) (nt_opens n) ∧
    length cs' = successes (Z.to_nat (cp_conn_num p)) (nt_opens n).
Proof.
  intros Hi Hn. unfold refresh.
  destruct (clear_inv n p nodes cs out Hi) as (n1 & p1 & nodes1 & -> & Hi1 & _ & Ho1 & Hn1). cbn [obind].
  destruct (init_inv n1 p1 nodes1 out Hi1) as (n2 & p2 & nodes2 & cs2 & -> & Hi2 & Hn2 & Ho2 & Hl2); [by rewrite (config_num _ _ Hn1)|].
  cbn [obind]. exists n2, p2, nodes2, cs2. rewrite (config_num _ _ Hn1) in *. rewrite <-Ho1.
  split_and!; try done. congruence.
Qed.

Lemma ConnPool_new_inv n host port num protocol out :
  0 ≤ num → NoDup out → (∀ l, l ∈ out ↔ is_Some (nt_clients n !! l)) →
  ∃ n' p nodes cs, ConnPool_new n host port num protocol = Ret (n', p) ∧ pool_inv n' p nodes cs out ∧
    config p = (host, port, num, protocol, 0, None) ∧ length cs = successes (Z.to_nat num) (nt_opens n) ∧
    nt_opens n' = drop (Z.to_nat num) (nt_opens n).
Proof.
  intros Hn Hnd Hal. unfold ConnPool_new. destruct (wait_list_new ∅) as [q h] eqn:Eq.
  set (p0 := mkPool host port num protocol h ∅ q 0 None).
  destruct (init_inv n p0 [] out) as (n' & p & nodes & cs & -> & Hi & Hc & Ho & Hl).
  - injection Eq as <- <-. split; [|done|done|cbn; lia].
    split; [|done|constructor]. split; [|done]. split; [repeat constructor; set_solver|].
    cbn. unfold nx, pv. by rewrite lookup_insert_eq.
  - done.
  - cbn [obind]. exists n', p, nodes, cs. done.
Qed.

(** ** Histories *)
(** The calls of a client of the pool: [Pool_release i] gives back the [i]-th of the
    clients it holds, the one taken last being the first. *)
Inductive pool_op := Pool_acquire | Pool_release (i : nat) | Pool_refresh | Pool_clear.

Definition pool_step (o : pool_op) (n : net) (p : ConnPool) (out : list loc) : outcome (net * ConnPool * list loc) :=
  match o with
  | Pool_acquire =>
      let* (c, p) := acquire_client p in
      Ret (n, p, match c with Some l => l :: out | None => out end)
  | Pool_release i =>
      match out !! i with
      | Some l => let* (n, p) := release_client n p l in Ret (n, p, delete i out)
      | None => Ret (n, p, out)
      end
  | Pool_refresh => let* (_, n, p) := refresh n p in Ret (n, p, out)
  | Pool_clear => let* (n, p) := clear n p in Ret (n, p, out)
  end.

Fixpoint pool_run (os : list pool_op) (n : net) (p : ConnPool) (out : list loc) : outcome (net * ConnPool * list loc) :=
  match os with
  | [] => Ret (n, p, out)
  | o :: os => let* (n, p, out) := pool_step o n p out in pool_run os n p out
  end.

Lemma pool_step_inv o n p nodes cs out :
  pool_inv n p nodes cs out → 0 ≤ cp_conn_num p →
  ∃ n' p' out' nodes' cs', pool_step o n p out = Ret (n', p', out') ∧ pool_inv n' p' nodes' cs' out' ∧
    config p' = config p.
Proof.
  intros Hi Hn. destruct o as [|i| |]; cbn [pool_step].
  - destruct (acquire_inv n p nodes cs out Hi) as (c & p' & nodes' & cs' & -> & Hi' & Hn' & _).
    cbn [obind]. eexists _, _, _, nodes', cs'. done.
  - destruct (out !! i) as [l|] eqn:El; [|eauto 10].
    rewrite delete_take_drop. pose proof (take_drop_middle _ _ _ El) as Eo. rewrite <-Eo in Hi.
    destruct (release_inv n p nodes cs _ l _ Hi) as (n' & p' & nodes' & cs' & -> & Hi' & _ & Hn').
    cbn [obind]. eexists _, _, _, nodes', cs'. done.
  - destruct (refresh_inv n p nodes cs out Hi Hn) as (n' & p' & nodes' & cs' & -> & Hi' & Hn' & _).
    cbn [obind]. eexists _, _, _, nodes', cs'. done.
  - destruct (clear_inv n p nodes cs out Hi) as (n' & p' & nodes' & -> & Hi' & _ & _ & Hn').
    cbn [obind]. eexists _, _, _, nodes', []. done.
Qed.

Lemma pool_run_inv os n p nodes cs out :
  pool_inv n p nodes cs out → 0 ≤ cp_conn_num p →
  ∃ n' p' out' nodes' cs', pool_run os n p out = Ret (n', p', out') ∧ pool_inv n' p' nodes' cs' out' ∧
    config p' = config p.
Proof.
  revert n p nodes cs out. induction os as [|o os IH]; intros n p nodes cs out Hi Hn; cbn [pool_run]; [eauto 10|].
  destruct (pool_step_inv o n p nodes cs out Hi Hn) as (n1 & p1 & out1 & nodes1 & cs1 & -> & Hi1 & Hc1). cbn [obind].
  destruct (IH n1 p1 nodes1 cs1 out1 Hi1) as (n2 & p2 & out2 & nodes2 & cs2 & -> & Hi2 & Hc2);
    [by rewrite (config_num _ _ Hc1)|].
  eexists _, _, _, nodes2, cs2. split; [done|]. split; [done|]. congruence.
Qed.

(** ** Errors in a row *)
Fixpoint report_errors (ts : list (Z * Z)) (p : ConnPool) : outcome ConnPool :=
  match ts with
  | [] => Ret p
  | t :: ts => let* (_, p) := report_error t p in report_errors ts p
  end.

Lemma is_healthy_total now p : (cp_error_cnt p ≠ 0 → is_Some (cp_last_err p)) → ∃ s, is_healthy now p = Ret s.
Proof.
  intros H. unfold is_healthy. destruct (Z.eqb_spec (cp_error_cnt p) 0); [eauto|].
  destruct (_ <? _); [eauto|]. destruct H as [t ->]; [done|]. cbn [defined obind]. eauto.
Qed.

Lemma report_error_spec t p :
  0 ≤ cp_error_cnt p < 2 ^ 31 - 1 →
  ∃ s, report_error t p = Ret (s, cp_set_error (cp_error_cnt p + 1) (Some t) p).
Proof.
  intros Hc. unfold report_error. destruct (Z.eqb_spec (cp_error_cnt p) (2 ^ 31 - 1)); [lia|].
  destruct (is_healthy_total t (cp_set_error (cp_error_cnt p + 1) (Some t) p)) as [s ->]; [cbn; eauto|]. eauto.
Qed.

Lemma report_errors_spec ts t p :
  0 ≤ cp_error_cnt p → cp_error_cnt p + Z.of_nat (length ts) < 2 ^ 31 - 1 →
  report_errors (ts ++ [t]) p = Ret (cp_set_error (cp_error_cnt p + Z.of_nat (length ts) + 1) (Some t) p).
Proof.
  revert p. induction ts as [|t0 ts IH]; intros p H0 Hlt; cbn [app report_errors].
  - destruct (report_error_spec t p) as [s ->]; [cbn in Hlt; lia|]. cbn [obind report_errors]. cbn. by rewrite Z.add_0_r.
  - cbn in Hlt. destruct (report_error_spec t0 p) as [s ->]; [lia|]. cbn [obind]. rewrite IH by (cbn; lia).
    replace (cp_error_cnt p + Z.of_nat (length (t0 :: ts)) + 1)
      with (cp_error_cnt p + 1 + Z.of_nat (length ts) + 1) by (cbn [length]; lia). done.
Qed.

(** [a] is earlier than [b]. *)
Definition earlier (a b : Z * Z) : bool := (fst a <? fst b) || ((fst b =? fst a) && (snd a <? snd b)).

(** ** Properties *)

(** a pool never lends a client twice, whatever its users do and whatever the
    network answers: after any history of borrowing, giving back, refreshing and
    clearing, no call has failed, and the clients that are idle in the pool and
    those that are borrowed are all different and are exactly those alive.  The pool holds one
    client more than its nominal size at most. *)
Theorem pool_lends_each_client_once opens host port num protocol os
    (Hnum : 0 ≤ num) :
  ∃ n1 p1, ConnPool_new (mkNet ∅ opens) host port num protocol = Ret (n1, p1) ∧
    ∃ n' p' out, pool_run os n1 p1 [] = Ret (n', p', out) ∧
      ∃ nodes idle, pool_rep p' nodes idle ∧ NoDup (idle ++ out) ∧
        (∀ l, l ∈ idle ++ out ↔ is_Some (nt_clients n' !! l)) ∧ pool_size p' ≤ num + 1.
Proof.
  destruct (ConnPool_new_inv (mkNet ∅ opens) host port num protocol [] Hnum) as (n1 & p1 & nodes1 & cs1 & -> & Hi1 & Hc1 & _);
    [constructor|by apply no_clients|].
  assert (cp_conn_num p1 = num) as Hn1 by (by injection Hc1).
  destruct (pool_run_inv os n1 p1 nodes1 cs1 [] Hi1) as (n' & p' & out & nodes & cs & Hrun & Hi & Hc); [lia|].
  exists n1, p1. split; [done|]. exists n', p', out. split; [done|]. exists nodes, cs.
  destruct Hi as [Hr Hnd Hal Hb]. split_and!; try done. rewrite (pool_size_rep _ _ _ Hr).
  rewrite (config_num _ _ Hc) in Hb. lia.
Qed.

Lemma pool_lends_each_client_once_witness :
  ∃ n' p' out, (let* (n, p) := ConnPool_new (mkNet ∅ [true; false; true]) (str "10.0.0.1") 9090 2 (str "TBinaryProtocol") in
      pool_run [Pool_acquire; Pool_acquire; Pool_release 1] n p []) = Ret (n', p', out) ∧ NoDup out.
Proof.
  destruct (pool_lends_each_client_once [true; false; true] (str "10.0.0.1") 9090 2 (str "TBinaryProtocol")
    [Pool_acquire; Pool_acquire; Pool_release 1]) as (n1 & p1 & -> & n' & p' & out & H1 & nodes & idle & _ & H2 & _).
  - lia.
  - exists n', p', out. split; [exact H1|]. by apply NoDup_app in H2 as (_ & _ & ?).
Defined.

(** the back-off of a pool.  After [k] errors in a row, the last at time [t], the
    pool is out of use until [k] squared seconds after [t] and may be tried again
    from then on; after more than ten it is dead.  A success reported at any time
    makes it healthy at once, even a dead one. *)
Theorem backoff_is_quadratic ts t p now
    (Hp : cp_error_cnt p = 0) (Hlen : Z.of_nat (length ts) < 2 ^ 31 - 1) (Ht : 0 ≤ snd t < 1000000) :
  let k := Z.of_nat (length ts) + 1 in
  ∃ p' p'', report_errors (ts ++ [t]) p = Ret p' ∧
    is_healthy now p' = Ret (if 10 <? k then DEAD
      else if earlier now (fst t + k * k, snd t) then NOT_HEALTHY_AND_CANNOT_BE_USED_TEMP
      else NOT_HEALTHY_BUT_CAN_HAVEATRY) ∧
    clear_error now p' = Ret p'' ∧ is_healthy now p'' = Ret HEALTHY ∧ pool_size p'' = pool_size p.
Proof.
  intros k. rewrite report_errors_spec by lia. rewrite Hp. cbn [Z.add]. fold k.
  set (p' := cp_set_error k (Some t) p).
  assert (is_healthy now p' = Ret (if 10 <? k then DEAD
      else if earlier now (fst t + k * k, snd t) then NOT_HEALTHY_AND_CANNOT_BE_USED_TEMP
      else NOT_HEALTHY_BUT_CAN_HAVEATRY)) as Hh.
  { unfold is_healthy. cbn [cp_error_cnt cp_last_err p' cp_set_error]. destruct (Z.eqb_spec k 0); [lia|].
    unfold MAX_ERROR_CNT_THRESHOLD. destruct (10 <? k); [done|]. cbn [defined obind].
    unfold timeval_add, earlier. cbn [fst snd]. rewrite Z.add_0_r.
    by destruct (Z.leb_spec 1000000 (snd t)); [lia|]. }
  exists p', (cp_set_error 0 (Some t) p). split; [done|]. split; [done|]. unfold clear_error. rewrite Hh.
  cbn [obind]. rewrite bool_decide_eq_false_2; [done|]. by repeat destruct (_ : bool).
Qed.

Definition wit_pool : ConnPool :=
  mkPool (str "10.0.0.1") 9090 1 (str "TBinaryProtocol") ∅ ∅ (mkWait 1 true 0) 0 None.

Lemma backoff_is_quadratic_witness :
  ∃ p', report_errors [(100, 0); (100, 5)] wit_pool = Ret p' ∧
    is_healthy (103, 9) p' = Ret NOT_HEALTHY_AND_CANNOT_BE_USED_TEMP.
Proof.
  destruct (backoff_is_quadratic [(100, 0)] (100, 5) wit_pool (103, 9)) as (p' & p'' & H1 & H2 & _).
  - reflexivity.
  - reflexivity.
  - cbn. lia.
  - exists p'. split; [exact H1|exact H2].
Defined.
