(* ===== verification/Zookeeper.v ===== *)
(** The service registry: StringAlgo::tokenize, Pilot::ZookeeperClient and
    Pilot::ServerCluster (thrift/pilot/string_algo.cc, zookeeper_client.cc,
    server_cluster.h).

    The zookeeper C library is the class [ZooApi]: its answers and its effect on the
    state of the registry.  [ZooLaws] states what its documentation promises of a
    connected session; the proofs of the other files do not need it. *)
From S2P Require Import Prelude StringAlgos Ini Util UpdateTasks.

(** ** StringAlgo *)
Definition start_with (s start : cstr) : bool := bool_decide (take (length start) s = start).

(** [str.compare(str.size() - end.size(), ...)] throws when [end] is longer. *)
Definition end_with (s e : cstr) : outcome bool :=
  if (length s <? length e)%nat then Abort else Ret (bool_decide (drop (length s - length e) s = e)).

(** [s.find(split)] *)
Fixpoint find_sub (split s : cstr) : option nat :=
  if start_with s split then Some O
  else match s with [] => None | _ :: s => S <$> find_sub split s end.

Definition keep_token (t : cstr) : list cstr := match t with [] => [] | _ => [t] end.

(** [s] is what follows [last_pos]. *)
Fixpoint tokenize_loop (fuel : nat) (split s : cstr) : outcome (list cstr) :=
  match find_sub split s with
  | None => Ret (keep_token s)
  | Some i =>
      match fuel with
      | O => Diverge
      | S fuel =>
          let* ts := tokenize_loop fuel split (drop (i + length split) s) in
          Ret (keep_token (take i s) ++ ts)
      end
  end.

Definition tokenize (s split : cstr) : outcome (list cstr) :=
  match s with [] => Ret [] | _ => tokenize_loop (length s) split s end.

(** ** The C library *)
Definition ZOK : Z := 0.
Definition ZNONODE : Z := -101.
Definition ZNODEEXISTS : Z := -110.
Definition ZBADARGUMENTS : Z := -8.
Definition MAX_VALUE_LEN : Z := 8192.
Definition ZOO_EPHEMERAL : Z := 1.

Class ZooApi (R : Type) := {
  zoo_wexists : R → cstr → Z;
  zoo_wget_children2 : R → cstr → Z * list cstr;
  zoo_wget : R → cstr → Z * cstr;
  zoo_create : R → cstr → cstr → Z → Z * R;
  zoo_delete : R → cstr → Z * R }.

(** A connected session on a tree of nodes with values: a node can be created once,
    below an existing parent. *)
Class ZooLaws (R : Type) `{ZooApi R} := {
  zoo_nodes : R → gmap cstr cstr;
  wexists_law r p : zoo_wexists r p = match zoo_nodes r !! p with Some _ => ZOK | None => ZNONODE end;
  wget_law r p v : zoo_nodes r !! p = Some v → zoo_wget r p = (ZOK, v);
  create_dup_law r p v f w : zoo_nodes r !! p = Some w → zoo_create r p v f = (ZNODEEXISTS, r);
  create_law r p v f q : zoo_nodes r !! p = None → parent_path p = Some q →
    (q = [] ∨ is_Some (zoo_nodes r !! q)) →
    ∃ r', zoo_create r p v f = (ZOK, r') ∧ zoo_nodes r' = <[p := v]> (zoo_nodes r) }.

(** ** Pilot::ZookeeperClient

    The handle is [true] once [open] was called. *)
Section client.
Context {R : Type} {HR : ZooApi R}.

Definition zk_get_children (zh : bool) (r : R) (path : cstr) : Z * list cstr :=
  if zh then
    let (rc, cs) := zoo_wget_children2 r path in
    (rc, if rc =? ZOK then (λ c, path ++ str "/" ++ c) <$> cs else [])
  else (-1, []).

(** The buffer has no room for a terminator when the value fills it. *)
Definition zk_get_nodevalue (zh : bool) (r : R) (path : cstr) : outcome (Z * option cstr) :=
  if zh then
    let (rc, v) := zoo_wget r path in
    if rc =? ZOK then
      if MAX_VALUE_LEN <=? Z.of_nat (length v) then Fault else Ret (rc, Some (c_str v))
    else Ret (rc, None)
  else Ret (-1, None).

(** [None]: [exists] is not written. *)
Definition zk_node_exists (zh : bool) (r : R) (path : cstr) : Z * option bool :=
  if zh then let rc := zoo_wexists r path in (rc, Some (rc =? ZOK)) else (-1, None).

Definition zk_node_create (zh : bool) (r : R) (path value : cstr) (flags : Z) : Z * R :=
  if MAX_VALUE_LEN <=? Z.of_nat (length value) then (ZBADARGUMENTS, r)
  else if zh then zoo_create r path value flags else (-1, r).

Definition zk_node_delete (zh : bool) (r : R) (path : cstr) : Z * R :=
  if zh then zoo_delete r path else (-1, r).
End client.

(** ** Pilot::ServerCluster *)
Record ServerCluster := mkCluster {
  sc_service_path : cstr; sc_service_value : cstr; sc_zk_nodes : list cstr; sc_host_ip : cstr }.

Definition last_char (s : cstr) : Z := default 0 (last s).
Definition slash : cstr := str "/".

(** [cur_pos += snprintf(json + cur_pos, total_len - cur_pos, ...)] for each piece:
    past the end the size wraps around. *)
Fixpoint snprintf_all (total pos : nat) (pieces : list cstr) (json : cstr) : outcome cstr :=
  match pieces with
  | [] => Ret (take (total - 1) json)
  | p :: ps =>
      if (total <? pos)%nat then Fault else snprintf_all total (pos + length p) ps (json ++ p)
  end.

(** ["%d"] *)
Definition print_d (n : Z) : outcome cstr := Int64ToString n.

Definition quoted (s : cstr) : cstr := [34] ++ s ++ [34].

Definition service_value (ip protocol port : cstr) : outcome cstr :=
  snprintf_all 2048 0 [str "{" ++ quoted (str "ip") ++ str ":"; quoted ip ++ str ",";
    quoted (str "port") ++ str ":"; port ++ str ","; quoted (str "protocol") ++ str ":";
    quoted protocol ++ str ","; quoted (str "status") ++ str ":1}"] [].

Definition service_node (ip protocol port : cstr) : outcome cstr :=
  snprintf_all 2048 0 [str "{" ++ quoted (str "ip") ++ str ":"; quoted ip ++ str ",";
    quoted (str "port") ++ str ":"; port ++ str ","; quoted (str "protocol") ++ str ":";
    quoted protocol ++ str "}"] [].

(** The path of the service's directory: it is the namespace, not the service's
    path, whose first character is looked at. *)
Definition real_service_path (service_path : cstr) : cstr :=
  let p := DEFAULT_NAMESPACE in
  let p := if default 0 (head p) =? 47 then p ++ service_path else p ++ slash ++ service_path in
  let p := if negb (last_char p =? 47) then p ++ slash else p in
  p ++ str "rpc/".

(** [ip] is the answer of [fetch_host]. *)
Definition ServerCluster_new (ip service_path protocol : cstr) (port : Z) : outcome ServerCluster :=
  let* _ := assert_ (negb (bool_decide (service_path = []))) in
  let* _ := assert_ (negb (bool_decide (protocol = []))) in
  let* _ := assert_ ((0 <? port) && (port <? 65535)) in
  let* _ := assert_ (negb (bool_decide (ip = []))) in
  let* digits := print_d port in
  let* value := service_value ip protocol digits in
  let* node := service_node ip protocol digits in
  let path := real_service_path service_path ++ node in
  let* nodes := tokenize path slash in
  let* _ := assert_ (0 <? length nodes)%nat in
  Ret (mkCluster path value nodes ip).

(** The client's side: [PooledClientImpl::fixpath]. *)
Definition fixpath (path : cstr) : cstr :=
  match path with
  | [] => []
  | c :: _ =>
      let tmp := DEFAULT_NAMESPACE in
      let tmp := if c =? 47 then tmp ++ path else tmp ++ slash ++ path in
      if last_char path =? 47 then tmp ++ str "rpc" else tmp ++ str "/rpc"
  end.

Section join.
Context {R : Type} {HR : ZooApi R}.

(** The loop of [join]; [curr] is [curr_path]. *)
Fixpoint join_loop (zh : bool) (r : R) (value curr : cstr) (nodes : list cstr) : outcome (Z * R) :=
  match nodes with
  | [] => Ret (0, r)
  | s :: rest =>
      let curr := curr ++ slash ++ s in
      let (rc, exists_) := zk_node_exists zh r curr in
      let is_last := bool_decide (rest = []) in
      if (rc =? ZOK) && bool_decide (exists_ = Some true) then
        if is_last then
          let* (rc, v) := zk_get_nodevalue zh r curr in
          let (rc, r) := if (rc =? ZOK) && negb (bool_decide (v = Some value))
                         then zk_node_create zh r curr value ZOO_EPHEMERAL else (rc, r) in
          Ret (if negb (rc =? ZOK) then -1 else 0, r)
        else join_loop zh r value curr rest
      else
        let (rc, r) := if is_last then zk_node_create zh r curr value ZOO_EPHEMERAL
                       else zk_node_create zh r curr (str "jd_service") 0 in
        if negb (rc =? ZOK) then Ret (-1, r) else join_loop zh r value curr rest
  end.

Definition ServerCluster_join (zh : bool) (r : R) (c : ServerCluster) : outcome (Z * R) :=
  join_loop zh r (sc_service_value c) [] (sc_zk_nodes c).

Definition ServerCluster_quit (zh : bool) (r : R) (c : ServerCluster) : R :=
  snd (zk_node_delete zh r (sc_service_path c)).
End join.

Example server_ex :
  sc_service_path <$> match ServerCluster_new (str "10.0.0.1") (str "/im/ms") (str "TBinaryProtocol") 9090 with
                      | Ret c => Some c | _ => None end =
  Some (str "/jdns/im/ms/rpc/{" ++ quoted (str "ip") ++ str ":" ++ quoted (str "10.0.0.1") ++ str "," ++
        quoted (str "port") ++ str ":9090," ++ quoted (str "protocol") ++ str ":" ++
        quoted (str "TBinaryProtocol") ++ str "}").
Proof. vm_compute. reflexivity. Qed.

(** ** Lemmas *)
Definition path_of (nodes : list cstr) : cstr := mjoin ((λ s, slash ++ s) <$> nodes).

Lemma path_of_snoc pre s : path_of (pre ++ [s]) = path_of pre ++ slash ++ s.
Proof. unfold path_of. rewrite fmap_app, join_app. cbn. by rewrite app_nil_r. Qed.

Lemma parent_path_none s : 47 ∉ s → parent_path s = None.
Proof.
  induction s as [|c s IH]; intros Hs; [done|]. cbn. rewrite IH by set_solver.
  destruct (Z.eqb_spec c 47); [set_solver|done].
Qed.

Lemma parent_path_child c s : 47 ∉ s → parent_path (c ++ slash ++ s) = Some c.
Proof.
  intros Hs. induction c as [|x c IH]; cbn; [by rewrite parent_path_none|]. cbn in IH. by rewrite IH.
Qed.

Section join_lemmas.
Context {R : Type} {HR : ZooApi R} {HL : ZooLaws R}.

(** Creating a node below one that exists. *)
Lemma create_below r pre s v f :
  47 ∉ s → pre = [] ∨ is_Some (zoo_nodes r !! path_of pre) → zoo_nodes r !! path_of (pre ++ [s]) = None →
  Z.of_nat (length v) < MAX_VALUE_LEN →
  ∃ r', zk_node_create true r (path_of (pre ++ [s])) v f = (ZOK, r') ∧
    zoo_nodes r' = <[path_of (pre ++ [s]) := v]> (zoo_nodes r).
Proof.
  intros Hs Hpre Hn Hv. unfold zk_node_create. destruct (Z.leb_spec MAX_VALUE_LEN (Z.of_nat (length v))); [lia|].
  apply (create_law r _ v f (path_of pre) Hn); [rewrite path_of_snoc; by apply parent_path_child|].
  destruct Hpre as [->|]; [by left|by right].
Qed.

(** The directories above the node are made if need be; nothing else changes. *)
Lemma join_directories value toks pre r rest :
  rest ≠ [] → Forall (λ s, 47 ∉ s) toks → pre = [] ∨ is_Some (zoo_nodes r !! path_of pre) →
  ∃ r', join_loop true r value (path_of pre) (toks ++ rest) = join_loop true r' value (path_of (pre ++ toks)) rest ∧
    (pre ++ toks = [] ∨ is_Some (zoo_nodes r' !! path_of (pre ++ toks))) ∧
    (∀ p v, zoo_nodes r !! p = Some v → zoo_nodes r' !! p = Some v) ∧
    (∀ p, (length (path_of (pre ++ toks)) < length p)%nat → zoo_nodes r' !! p = zoo_nodes r !! p).
Proof.
  intros Hrest. revert pre r. induction toks as [|s toks IH]; intros pre r Hs Hpre.
  { exists r. rewrite !app_nil_r. done. }
  apply Forall_cons in Hs as [Hs Htoks]. cbn [app join_loop]. rewrite <-path_of_snoc.
  rewrite bool_decide_eq_false_2 by (by destruct toks).
  assert (∃ r1, (let (rc, exists_) := zk_node_exists true r (path_of (pre ++ [s])) in
      if (rc =? ZOK) && bool_decide (exists_ = Some true) then join_loop true r value (path_of (pre ++ [s])) (toks ++ rest)
      else let (rc, r0) := zk_node_create true r (path_of (pre ++ [s])) (str "jd_service") 0 in
        if negb (rc =? ZOK) then Ret (-1, r0) else join_loop true r0 value (path_of (pre ++ [s])) (toks ++ rest)) =
      join_loop true r1 value (path_of (pre ++ [s])) (toks ++ rest) ∧
    is_Some (zoo_nodes r1 !! path_of (pre ++ [s])) ∧ (∀ p v, zoo_nodes r !! p = Some v → zoo_nodes r1 !! p = Some v) ∧
    (∀ p, p ≠ path_of (pre ++ [s]) → zoo_nodes r1 !! p = zoo_nodes r !! p)) as (r1 & -> & He1 & Hk1 & Hf1).
  { unfold zk_node_exists. rewrite wexists_law. destruct (zoo_nodes r !! path_of (pre ++ [s])) as [v|] eqn:Ev.
    - exists r. rewrite Ev. split; [done|]. split; [eauto|done].
    - change ((ZNONODE =? ZOK) && _) with false. cbn iota.
      destruct (create_below r pre s (str "jd_service") 0 Hs Hpre Ev) as (r1 & -> & Hn1); [done|].
      exists r1. split; [done|]. rewrite Hn1. split; [rewrite lookup_insert_eq; eauto|]. split.
      + intros p v Hp. rewrite lookup_insert_ne; [done|]. intros <-. congruence.
      + intros p Hp. by apply lookup_insert_ne. }
  destruct (IH (pre ++ [s]) r1 Htoks (or_intror He1)) as (r' & -> & He & Hk & Hf).
  rewrite <-app_assoc in *. cbn [app] in *. exists r'. split; [done|]. split; [done|]. split; [eauto|].
  intros p Hp. rewrite Hf by done. apply Hf1. intros ->. revert Hp.
  unfold path_of. rewrite !fmap_app, !join_app, !length_app. cbn. rewrite !length_app. cbn. lia.
Qed.
End join_lemmas.

(** ** Tokens *)
Lemma find_slash s :
  match find_sub slash s with
  | Some i => (i < length s)%nat ∧ (47 ∉ take i s) ∧ s = take i s ++ 47 :: drop (i + 1) s
  | None => 47 ∉ s
  end.
Proof.
  induction s as [|c s IH]; cbn [find_sub]; [set_solver|]. unfold start_with. cbn [slash str length].
  change (take (length slash) (c :: s)) with [c]. case_bool_decide as Hc.
  - injection Hc as ->. cbn. rewrite drop_0. split; [lia|]. split; [set_solver|done].
  - assert (c ≠ 47) by (intros ->; by apply Hc). destruct (find_sub slash s) as [i|]; cbn; [|set_solver].
    destruct IH as (H1 & H2 & H3). split; [lia|]. split; [set_solver|]. by f_equal.
Qed.

Lemma keep_token_spec t : 47 ∉ t → Forall (λ t, t ≠ [] ∧ 47 ∉ t) (keep_token t) ∧ mjoin (keep_token t) = t.
Proof. destruct t as [|c t]; intros Ht; [by split|]. split; [by repeat constructor|]. cbn. by rewrite app_nil_r. Qed.

Lemma tokenize_loop_spec fuel s :
  (length s ≤ fuel)%nat →
  ∃ ts, tokenize_loop fuel slash s = Ret ts ∧ Forall (λ t, t ≠ [] ∧ 47 ∉ t) ts ∧
    mjoin ts = filter (λ c, c ≠ 47) s.
Proof.
  assert (∀ t : cstr, 47 ∉ t → filter (λ c, c ≠ 47) t = t) as Hid.
  { intros t Ht. induction t as [|c t IHt]; [done|]. rewrite filter_cons, decide_True by set_solver.
    f_equal. apply IHt. set_solver. }
  revert s. induction fuel as [|fuel IH]; intros s Hf; pose proof (find_slash s) as Hfs; cbn [tokenize_loop];
    destruct (find_sub slash s) as [i|].
  - destruct Hfs as (? & _). lia.
  - destruct (keep_token_spec s Hfs) as [H1 H2]. eexists. split; [done|]. split; [done|]. by rewrite H2, Hid.
  - destruct Hfs as (Hi & Htok & Es). change (length slash) with 1%nat.
    destruct (IH (drop (i + 1) s)) as (ts & -> & Hts & Hj); [rewrite length_drop; lia|]. cbn [obind].
    destruct (keep_token_spec (take i s) Htok) as [H1 H2].
    eexists. split; [done|]. split; [by apply Forall_app|]. rewrite join_app, H2, Hj.
    transitivity (filter (λ c, c ≠ 47) (take i s ++ 47 :: drop (i + 1) s)); [|by rewrite <-Es].
    by rewrite filter_app, (Hid (take i s) Htok), filter_cons, decide_False by tauto.
  - destruct (keep_token_spec s Hfs) as [H1 H2]. eexists. split; [done|]. split; [done|]. by rewrite H2, Hid.
Qed.

Lemma tokenize_spec s :
  ∃ ts, tokenize s slash = Ret ts ∧ Forall (λ t, t ≠ [] ∧ 47 ∉ t) ts ∧ mjoin ts = filter (λ c, c ≠ 47) s.
Proof. destruct s as [|c s]; [by exists []|]. unfold tokenize. by apply tokenize_loop_spec. Qed.

Lemma ServerCluster_new_nodes ip path protocol port c :
  ServerCluster_new ip path protocol port = Ret c →
  Forall (λ t, t ≠ [] ∧ 47 ∉ t) (sc_zk_nodes c) ∧ sc_zk_nodes c ≠ [].
Proof.
  unfold ServerCluster_new. intros H. repeat (apply obind_Ret_inv in H as (? & ? & H)).
  injection H as <-. cbn. match goal with E : tokenize ?s _ = Ret ?t |- _ =>
    destruct (tokenize_spec s) as (ts & Ets & Hts & _); rewrite Ets in E; injection E as <- end.
  split; [done|]. intros ->. done.
Qed.

Section join_spec.
Context {R : Type} {HR : ZooApi R} {HL : ZooLaws R}.

(** A new server gets as far as its own node; what it finds there decides. *)
Lemma join_reaches_node ip path protocol port c (r : R) :
  ServerCluster_new ip path protocol port = Ret c →
  ∃ toks t r1, sc_zk_nodes c = toks ++ [t] ∧ (47 ∉ t) ∧
    ServerCluster_join true r c = join_loop true r1 (sc_service_value c) (path_of toks) [t] ∧
    (toks = [] ∨ is_Some (zoo_nodes r1 !! path_of toks)) ∧
    zoo_nodes r1 !! path_of (sc_zk_nodes c) = zoo_nodes r !! path_of (sc_zk_nodes c) ∧
    (∀ p w, zoo_nodes r !! p = Some w → zoo_nodes r1 !! p = Some w).
Proof.
  intros Hnew. destruct (ServerCluster_new_nodes _ _ _ _ _ Hnew) as [Hs Hne].
  destruct (sc_zk_nodes c) as [|t toks] eqn:En using rev_ind; [done|]. clear IHtoks.
  apply Forall_app in Hs as [Htoks [[_ Ht] _]%Forall_cons].
  assert (Forall (λ s, 47 ∉ s) toks) as Htoks' by (eapply Forall_impl; [exact Htoks|by intros ? []]).
  unfold ServerCluster_join. rewrite En.
  destruct (join_directories (sc_service_value c) toks [] r [t]) as (r1 & Hj & Hd1 & Hk1 & Hf1); [done|done|by left|].
  cbn [app] in *. change (path_of []) with (@nil Z) in Hj. exists toks, t, r1. split_and!; try done.
  apply Hf1. rewrite path_of_snoc, !length_app. cbn. lia.
Qed.

(** A server without a node gets one. *)
Lemma join_absent ip path protocol port c (r : R) :
  ServerCluster_new ip path protocol port = Ret c → Z.of_nat (length (sc_service_value c)) < MAX_VALUE_LEN →
  zoo_nodes r !! path_of (sc_zk_nodes c) = None →
  ∃ r', ServerCluster_join true r c = Ret (0, r') ∧
    zoo_nodes r' !! path_of (sc_zk_nodes c) = Some (sc_service_value c) ∧
    (∀ p w, zoo_nodes r !! p = Some w → zoo_nodes r' !! p = Some w) ∧
    (∀ d, parent_path (path_of (sc_zk_nodes c)) = Some d → d = [] ∨ is_Some (zoo_nodes r' !! d)).
Proof.
  intros Hnew Hv Hnone. destruct (join_reaches_node _ _ _ _ _ r Hnew) as (toks & t & r1 & En & Ht & -> & Hd & Hsame & Hk).
  rewrite En in *. cbn [join_loop]. rewrite bool_decide_eq_true_2 by done. rewrite <-path_of_snoc.
  unfold zk_node_exists. rewrite wexists_law, Hsame, Hnone. change ((ZNONODE =? ZOK) && _) with false. cbn iota.
  destruct (create_below r1 toks t (sc_service_value c) ZOO_EPHEMERAL Ht Hd) as (r' & Hc & Hn'); [congruence|done|].
  rewrite Hc. change (negb (ZOK =? ZOK)) with false. cbn iota. exists r'. split; [done|].
  assert (∀ p w, zoo_nodes r1 !! p = Some w → zoo_nodes r' !! p = Some w) as Hk'.
  { intros p w Hp. rewrite Hn', lookup_insert_ne; [done|]. intros <-. congruence. }
  split; [by rewrite Hn', lookup_insert_eq|]. split; [eauto|]. intros d. rewrite path_of_snoc, parent_path_child by done.
  intros [= <-]. destruct Hd as [->|[w Hw]]; [by left|right; eauto].
Qed.
End join_spec.

(** ** A registry

    An instance of the library's contract: the tree itself. *)
#[export] Instance tree_zoo : ZooApi (gmap cstr cstr) := {|
  zoo_wexists r p := match r !! p with Some _ => ZOK | None => ZNONODE end;
  zoo_wget_children2 r p :=
    (ZOK, drop (S (length p)) <$> filter (λ q, parent_path q = Some p) (map_to_list r).*1);
  zoo_wget r p := match r !! p with Some v => (ZOK, v) | None => (ZNONODE, []) end;
  zoo_create r p v f :=
    match r !! p, parent_path p with
    | Some _, _ => (ZNODEEXISTS, r)
    | None, Some q => if bool_decide (q = [] ∨ is_Some (r !! q)) then (ZOK, <[p := v]> r) else (ZNONODE, r)
    | None, None => (ZBADARGUMENTS, r)
    end;
  zoo_delete r p := match r !! p with Some _ => (ZOK, delete p r) | None => (ZNONODE, r) end |}.

#[export] Instance tree_laws : ZooLaws (gmap cstr cstr).
Proof.
  refine {| zoo_nodes r := r |}; cbn.
  - done.
  - intros r p v E. by rewrite E.
  - intros r p v f w E. by rewrite E.
  - intros r p v f q E Eq Hq. rewrite E, Eq. case_bool_decide; [eauto|done].
Defined.

(** ** Properties *)

(** joining the cluster.  In a connected session, a server that joins ends up
    registered: its node holds its description, every directory above it exists,
    and nodes that were there keep their values; joining again with the same
    description succeeds and changes nothing there.  A node left behind with
    another description makes joining fail and keeps it. *)
Theorem join_registers_once {R} `{HR : ZooApi R} {HL : ZooLaws R} ip path protocol port c (r : R)
    (Hnew : ServerCluster_new ip path protocol port = Ret c)
    (Hv : Z.of_nat (length (sc_service_value c)) < MAX_VALUE_LEN)
    (Hold : ∀ v, zoo_nodes r !! path_of (sc_zk_nodes c) = Some v → Z.of_nat (length v) < MAX_VALUE_LEN ∧ c_str v = v) :
  let node := path_of (sc_zk_nodes c) in
  let v := default (sc_service_value c) (zoo_nodes r !! node) in
  ∃ r', ServerCluster_join true r c = Ret (if decide (v = sc_service_value c) then 0 else -1, r') ∧
    zoo_nodes r' !! node = Some v ∧
    (∀ p w, zoo_nodes r !! p = Some w → zoo_nodes r' !! p = Some w) ∧
    (∀ d, parent_path node = Some d → d = [] ∨ is_Some (zoo_nodes r' !! d)).
Proof.
  intros node v. subst v. destruct (zoo_nodes r !! node) as [v|] eqn:Ev.
  - destruct (join_reaches_node _ _ _ _ _ r Hnew) as (toks & t & r1 & En & Ht & -> & Hd & Hsame & Hk).
    destruct (Hold v Ev) as [Hlen Hcs]. subst node. rewrite En in *. cbn [default from_option id]. unfold id.
    exists r1. split; [|split; [by rewrite Hsame|split; [done|]]].
    2: { intros d. rewrite path_of_snoc, parent_path_child by done. intros [= <-]. destruct Hd as [->|]; [by left|by right]. }
    cbn [join_loop]. rewrite bool_decide_eq_true_2 by done. rewrite <-path_of_snoc.
    unfold zk_node_exists. rewrite wexists_law, Hsame, Ev. change (ZOK =? ZOK) with true.
    rewrite bool_decide_eq_true_2 by done. cbn [andb].
    unfold zk_get_nodevalue. rewrite (wget_law r1 _ v) by congruence. change (ZOK =? ZOK) with true. cbn iota.
    destruct (Z.leb_spec MAX_VALUE_LEN (Z.of_nat (length v))); [lia|]. cbn [obind]. rewrite Hcs.
    destruct (decide (v = sc_service_value c)) as [->|Hneq]; [by rewrite bool_decide_eq_true_2|].
    rewrite bool_decide_eq_false_2 by congruence. cbn [andb negb]. unfold zk_node_create.
    destruct (Z.leb_spec MAX_VALUE_LEN (Z.of_nat (length (sc_service_value c)))); [lia|].
    by rewrite (create_dup_law r1 _ _ _ v) by congruence.
  - cbn [default from_option]. rewrite decide_True by done.
    destruct (join_absent _ _ _ _ _ r Hnew Hv Ev) as (r' & Hj & Hn & Hk & Hd). by exists r'.
Qed.

Lemma join_registers_once_witness :
  ∃ c r', ServerCluster_new (str "10.0.0.1") (str "/ms") (str "TBinaryProtocol") 9090 = Ret c ∧
    ServerCluster_join true (∅ : gmap cstr cstr) c = Ret (0, r') ∧
    r' !! path_of (sc_zk_nodes c) = Some (sc_service_value c).
Proof.
  eexists. destruct (join_registers_once (str "10.0.0.1") (str "/ms") (str "TBinaryProtocol") 9090 _ (∅ : gmap cstr cstr)
    ltac:(vm_compute; reflexivity)) as (r' & H1 & H2 & _).
  - vm_compute. reflexivity.
  - intros v Hv. vm_compute in Hv. discriminate Hv.
  - exists r'. split; [vm_compute; reflexivity|]. split; [exact H1|exact H2].
Defined.

(** a server and its clients meet under the same path exactly when the configured
    path starts with a slash.  Otherwise the server appends it to the namespace
    without a separator, and registers in a directory no client looks at. *)
Theorem server_and_client_paths path
    (Hne : path ≠ []) :
  real_service_path path = fixpath path ++ slash ↔ head path = Some 47.
Proof.
  unfold real_service_path. change (default 0 (head DEFAULT_NAMESPACE) =? 47) with true. cbn iota.
  assert (last_char (DEFAULT_NAMESPACE ++ path) = last_char path) as ->.
  { unfold last_char. rewrite last_app. destruct (last path) eqn:El; [done|]. by apply last_None in El. }
  destruct path as [|c path]; [done|]. cbn [head]. unfold fixpath.
  destruct (Z.eqb_spec c 47) as [->|Hc]; destruct (last_char _ =? 47); cbn [negb]; rewrite <-!app_assoc;
    (split; intros H; [try done|try done]).
  all: first [by injection H|apply (f_equal length) in H; rewrite !length_app in H; cbn in H; lia].
Qed.

Lemma server_and_client_paths_witness :
  real_service_path (str "/ms") = fixpath (str "/ms") ++ slash.
Proof. apply server_and_client_paths; [done|reflexivity]. Defined.
