(* ===== verification/ZkSession.v ===== *)
(** The session of a Pilot::ZookeeperClient (thrift/pilot/zookeeper_client.cc:
    [open], [close], [reopen] and the setters) and the address a server registers
    under ([fetch_host] of thrift/pilot/server_cluster.h).

    The handles of the C library are the class [ZkLib]: [zookeeper_init] makes one
    or fails, [zookeeper_close] ends one, whatever it returns.  What the resolver and
    the network interfaces answer is an argument of [fetch_host]. *)
From S2P Require Import Prelude StringAlgos Zookeeper.

(** ** The C library *)
Class ZkLib (L : Type) := {
  zookeeper_init : L → cstr → Z → option Z * L;
  zookeeper_close : L → option Z → Z * L;
  (** the sessions that are open: handle, host and time-out *)
  zk_live : L → gmap Z (cstr * Z) }.

Class ZkLibLaws (L : Type) `{ZkLib L} := {
  init_law l host t h l' : zookeeper_init l host t = (Some h, l') →
    zk_live l !! h = None ∧ zk_live l' = <[h := (host, t)]> (zk_live l);
  init_fail_law l host t l' : zookeeper_init l host t = (None, l') → zk_live l' = zk_live l;
  close_law l h rc l' : zookeeper_close l (Some h) = (rc, l') → zk_live l' = delete h (zk_live l);
  close_null_law l rc l' : zookeeper_close l None = (rc, l') →
    rc = ZBADARGUMENTS ∧ zk_live l' = zk_live l }.

(** ** Pilot::ZookeeperClient *)
Record ZookeeperClient := mkZk {
  zc_host : cstr;
  zc_recv_timeout : Z;
  zc_zh : option Z }.

Definition ZookeeperClient_new : ZookeeperClient := mkZk [] 10000 None.
Definition set_host (host : cstr) (c : ZookeeperClient) : ZookeeperClient :=
  mkZk host (zc_recv_timeout c) (zc_zh c).
Definition set_recv_timeout (t : Z) (c : ZookeeperClient) : ZookeeperClient :=
  mkZk (zc_host c) (t * 3) (zc_zh c).

Section session.
Context {L : Type} {HL : ZkLib L}.
Implicit Types (c : ZookeeperClient) (l : L).

(** [zh_ = zookeeper_init(...); assert(zh_ != NULL);] *)
Definition zk_start c l : outcome (Z * ZookeeperClient * L) :=
  let (zh, l) := zookeeper_init l (zc_host c) (zc_recv_timeout c) in
  let* _ := assert_ (bool_decide (is_Some zh)) in
  Ret (0, mkZk (zc_host c) (zc_recv_timeout c) zh, l).

Definition ZookeeperClient_open c l : outcome (Z * ZookeeperClient * L) :=
  match zc_zh c with
  | Some _ => Ret (-2, c, l)
  | None => zk_start c l
  end.

(** [zookeeper_close(zh_)]: the handle must be null or a session that is open. *)
Definition zk_end c l : outcome (Z * L) :=
  match zc_zh c with
  | Some h => if bool_decide (is_Some (zk_live l !! h)) then Ret (zookeeper_close l (Some h)) else Fault
  | None => Ret (zookeeper_close l None)
  end.

Definition ZookeeperClient_close c l : outcome (Z * ZookeeperClient * L) :=
  let* (rc, l) := zk_end c l in
  Ret (rc, if rc =? ZOK then mkZk (zc_host c) (zc_recv_timeout c) None else c, l).

Definition ZookeeperClient_reopen c l : outcome (Z * ZookeeperClient * L) :=
  let* (_, l) := zk_end c l in
  zk_start c l.

(** The client's handle is a session of its own host, or null. *)
Definition session_ok c l : Prop :=
  match zc_zh c with
  | Some h => zk_live l !! h = Some (zc_host c, zc_recv_timeout c)
  | None => True
  end.

(** The sessions other clients hold. *)
Definition others c l : gmap Z (cstr * Z) :=
  match zc_zh c with Some h => delete h (zk_live l) | None => zk_live l end.
End session.

(** Any sequence of the calls; the result of each. *)
Inductive zk_call := Call_open | Call_close | Call_reopen.
Definition zk_do {L} `{ZkLib L} (k : zk_call) (c : ZookeeperClient) (l : L)
    : outcome (Z * ZookeeperClient * L) :=
  match k with
  | Call_open => ZookeeperClient_open c l
  | Call_close => ZookeeperClient_close c l
  | Call_reopen => ZookeeperClient_reopen c l
  end.
Fixpoint zk_run {L} `{ZkLib L} (ks : list zk_call) (c : ZookeeperClient) (l : L)
    : outcome (list Z * ZookeeperClient * L) :=
  match ks with
  | [] => Ret ([], c, l)
  | k :: ks =>
      let* (rc, c, l) := zk_do k c l in
      let* (rcs, c, l) := zk_run ks c l in
      Ret (rc :: rcs, c, l)
  end.

(** ** The address of the server *)
(** What gethostbyname answers: nothing, addresses of another family, or IPv4
    addresses as inet_ntop prints them. *)
Inductive host_entry := No_host | Other_family | Inet_addresses (addrs : list cstr).
(** An interface: no address, an address of another family, an IPv4 address. *)
Inductive if_address := If_null | If_other | If_inet (addr : cstr).

Definition loopback (a : cstr) : bool := bool_decide (take 4 a = str "127.").

Fixpoint first_public (addrs : list cstr) : cstr :=
  match addrs with
  | [] => []
  | a :: addrs => if negb (loopback a) then a else first_public addrs
  end.

(** The loop over the interfaces dereferences [ifa_addr] of each. *)
Fixpoint first_interface (ifs : list if_address) : outcome cstr :=
  match ifs with
  | [] => Ret []
  | If_null :: _ => Fault
  | If_other :: ifs => first_interface ifs
  | If_inet a :: ifs => if negb (loopback a) then Ret a else first_interface ifs
  end.

(** [sock]: whether a socket could be made; [eth0]: what SIOCGIFADDR answers. *)
Definition fetch_host (entry : host_entry) (sock : bool) (eth0 : option cstr)
    (ifs : list if_address) : outcome cstr :=
  let host := match entry with Inet_addresses addrs => first_public addrs | _ => [] end in
  let* host :=
    match host with
    | [] => let* _ := assert_ sock in Ret (default [] eth0)
    | _ => Ret host
    end in
  match host with
  | [] => first_interface ifs
  | _ => Ret host
  end.

(** ** Lemmas *)
Section session_lemmas.
Context {L : Type} {HL : ZkLib L} {HLL : ZkLibLaws L}.
Implicit Types (c : ZookeeperClient) (l : L).

Lemma zk_start_spec c l ret c' l' :
  zk_start c l = Ret (ret, c', l') →
  ∃ h, ret = 0 ∧ c' = mkZk (zc_host c) (zc_recv_timeout c) (Some h) ∧ zk_live l !! h = None ∧
    zk_live l' = <[h := (zc_host c, zc_recv_timeout c)]> (zk_live l).
Proof.
  unfold zk_start. destruct (zookeeper_init _ _ _) as [[h|] l1] eqn:E; cbn; [|done].
  intros [= <- <- <-]. exists h. destruct (init_law _ _ _ _ _ E) as [? ?]. done.
Qed.

Lemma zk_end_spec c l :
  session_ok c l →
  ∃ rc l', zk_end c l = Ret (rc, l') ∧ zk_live l' = others c l ∧ (zc_zh c = None → rc = ZBADARGUMENTS).
Proof.
  unfold zk_end, session_ok, others. intros Hs. destruct (zc_zh c) as [h|].
  - rewrite bool_decide_eq_true_2 by eauto.
    destruct (zookeeper_close l (Some h)) as [rc l'] eqn:E. exists rc, l'.
    by rewrite (close_law _ _ _ _ E).
  - destruct (zookeeper_close l None) as [rc l'] eqn:E. exists rc, l'.
    destruct (close_null_law _ _ _ E) as [-> ->]. done.
Qed.

Lemma zk_start_session c l0 l ret c' l' :
  zk_live l = others c l0 → zk_start c l = Ret (ret, c', l') →
  ret = 0 ∧ session_ok c' l' ∧ others c' l' = others c l0 ∧ is_Some (zc_zh c') ∧
  zc_host c' = zc_host c ∧ zc_recv_timeout c' = zc_recv_timeout c.
Proof.
  intros El (h & -> & -> & Hh & Hl)%zk_start_spec. unfold session_ok, others. cbn.
  rewrite Hl. split_and!; try done.
  - apply lookup_insert_eq.
  - by rewrite delete_insert_id.
Qed.

(** One call: the other sessions are left alone, and the handle is good again unless
    a [close] failed. *)
Lemma zk_do_spec k c l rc c' l' :
  session_ok c l → zk_do k c l = Ret (rc, c', l') →
  others c' l' = others c l ∧ zc_host c' = zc_host c ∧ zc_recv_timeout c' = zc_recv_timeout c ∧
  (session_ok c' l' ∧ (k = Call_reopen → is_Some (zc_zh c')) ∨
   k = Call_close ∧ rc ≠ ZOK ∧ c' = c ∧ ∃ h, zc_zh c' = Some h ∧ zk_live l' !! h = None).
Proof.
  intros Hs. destruct k; cbn [zk_do].
  - unfold ZookeeperClient_open. destruct (zc_zh c) as [h|] eqn:Eh.
    + intros [= <- <- <-]. split_and!; try done. by left.
    + intros (_ & ? & ? & ? & ? & ?)%(zk_start_session c l l); [by auto 10|]. unfold others. by rewrite Eh.
  - unfold ZookeeperClient_close. destruct (zk_end_spec _ _ Hs) as (rc1 & l1 & -> & Hl & Hn).
    cbn [obind]. intros [= <- <- <-]. destruct (Z.eqb_spec rc1 ZOK) as [->|Hrc].
    + split; [by unfold others at 1; cbn|]. split_and!; try done. by left.
    + unfold others in *. destruct (zc_zh c) as [h|] eqn:Eh.
      * split; [rewrite Hl; apply delete_delete_eq|].
        split; [done|]. split; [done|]. right. split_and!; try done. exists h. by rewrite Hl, lookup_delete_eq.
      * split; [done|]. split; [done|]. split; [done|]. left. unfold session_ok. by rewrite Eh.
  - unfold ZookeeperClient_reopen. destruct (zk_end_spec _ _ Hs) as (rc1 & l1 & -> & Hl & _).
    cbn [obind]. intros (_ & ? & ? & ? & ? & ?)%(zk_start_session _ _ _ _ _ _ Hl). by auto 10.
Qed.

(** A handle whose session is gone. *)
Definition dangling c l : Prop := ∃ h, zc_zh c = Some h ∧ zk_live l !! h = None.

Lemma dangling_do k c l :
  dangling c l →
  match k with Call_open => zk_do k c l = Ret (-2, c, l) | _ => zk_do k c l = Fault end.
Proof.
  intros (h & Eh & Hh). destruct k; cbn [zk_do]; unfold ZookeeperClient_open, ZookeeperClient_close,
    ZookeeperClient_reopen, zk_end; rewrite Eh; [done| |]; by rewrite Hh.
Qed.

Lemma zk_run_spec ks c l rcs c' l' :
  session_ok c l ∨ dangling c l → zk_run ks c l = Ret (rcs, c', l') →
  others c' l' = others c l ∧ zc_host c' = zc_host c ∧ zc_recv_timeout c' = zc_recv_timeout c ∧
  (session_ok c' l' ∨ dangling c' l').
Proof.
  revert c l rcs. induction ks as [|k ks IH]; intros c l rcs Hs; cbn [zk_run].
  { intros [= <- <- <-]. done. }
  intros ([[rc c1] l1] & H1 & H2)%obind_Ret_inv.
  apply obind_Ret_inv in H2 as ([[rcs' c2] l2] & H2 & [= <- <- <-]).
  assert (others c1 l1 = others c l ∧ zc_host c1 = zc_host c ∧
    zc_recv_timeout c1 = zc_recv_timeout c ∧ (session_ok c1 l1 ∨ dangling c1 l1)) as (Ho & Eh & Et & Hs1).
  { destruct Hs as [Hs|Hd].
    - destruct (zk_do_spec _ _ _ _ _ _ Hs H1) as (? & ? & ? & [[? _]|(_ & _ & _ & ?)]);
        split_and!; try done; [by left|by right].
    - pose proof (dangling_do k _ _ Hd) as Hk. destruct k; rewrite H1 in Hk; [|done|done].
      injection Hk as -> -> ->. by auto. }
  destruct (IH _ _ _ Hs1 H2) as (? & ? & ? & ?). split_and!; congruence || done.
Qed.
End session_lemmas.

Lemma first_public_spec addrs : loopback (first_public addrs) = false.
Proof.
  induction addrs as [|a addrs IH]; cbn; [done|]. by destruct (loopback a) eqn:E.
Qed.

Lemma first_interface_spec ifs a : first_interface ifs = Ret a → loopback a = false.
Proof.
  induction ifs as [|[| |b] ifs IH]; cbn; [by intros [= <-]|done|done|].
  destruct (loopback b) eqn:E; cbn; [done|]. by intros [= <-].
Qed.

(** ** Properties *)

(** whatever sequence of [open], [close] and [reopen] a client makes, it holds at
    most one session, which is for its own host and time-out; the sessions of the
    other clients are never touched, and no session is left behind that the client
    does not hold. *)
Theorem session_calls_keep_one {L} {HL : ZkLib L} {HLL : ZkLibLaws L} ks host t (l : L) rcs c' l'
    (Hrun : zk_run ks (set_recv_timeout t (set_host host ZookeeperClient_new)) l = Ret (rcs, c', l')) :
  (zk_live l' = zk_live l ∧ (zc_zh c' = None ∨ dangling c' l')) ∨
  ∃ h, zc_zh c' = Some h ∧ zk_live l !! h = None ∧
    zk_live l' = <[h := (host, t * 3)]> (zk_live l).
Proof.
  apply zk_run_spec in Hrun as (Ho & Eh & Et & Hs); [|by left]. cbn in Eh, Et.
  unfold others at 2 in Ho. cbn in Ho. unfold others in Ho.
  destruct Hs as [Hs|Hd].
  - unfold session_ok in Hs. destruct (zc_zh c') as [h|]; [|by auto].
    right. exists h. rewrite Eh, Et in Hs. rewrite <-Ho. split_and!; [done|apply lookup_delete_eq|].
    by rewrite insert_delete_id.
  - left. split; [|by right]. destruct Hd as (h & Eq & Hh). rewrite Eq in Ho.
    by rewrite delete_id in Ho.
Qed.

(** a library whose calls succeed, for concrete instances *)
Definition wit_lib : Type := Z * gmap Z (cstr * Z).
Definition next_handle (m : gmap Z (cstr * Z)) : Z := 1 + foldr Z.max 0 (fst <$> map_to_list m).
Definition wit_zklib : ZkLib wit_lib := {|
  zookeeper_init l host t := (Some (next_handle l.2), (l.1, <[next_handle l.2 := (host, t)]> l.2));
  zookeeper_close l zh :=
    match zh with Some h => (l.1, (l.1, delete h l.2)) | None => (ZBADARGUMENTS, l) end;
  zk_live l := l.2 |}.
Lemma foldr_max_ge (xs : list Z) x : x ∈ xs → x ≤ foldr Z.max 0 xs.
Proof. induction xs as [|y xs IH]; [by intros ?%elem_of_nil|]. intros [->|Hx]%elem_of_cons; cbn; [lia|]. specialize (IH Hx). lia. Qed.
Definition wit_zklaws : @ZkLibLaws wit_lib wit_zklib.
Proof.
  split; cbn.
  - intros l host t h l' [= <- <-]. split; [|done]. destruct (l.2 !! next_handle l.2) as [v|] eqn:E; [|done].
    assert (next_handle l.2 ≤ foldr Z.max 0 (fst <$> map_to_list l.2)); [|unfold next_handle in *; lia].
    apply foldr_max_ge, list_elem_of_fmap. exists (next_handle l.2, v). split; [done|]. by apply elem_of_map_to_list.
  - done.
  - by intros l h rc l' [= <- <-].
  - by intros l rc l' [= <- <-].
Defined.

Lemma session_calls_keep_one_witness :
  ∃ l' h, @zk_run wit_lib wit_zklib [Call_open; Call_open; Call_close; Call_close; Call_reopen]
      (set_recv_timeout 3 (set_host (str "zk:2181") ZookeeperClient_new)) (0, ∅) =
      Ret ([0; -2; 0; -8; 0], mkZk (str "zk:2181") 9 (Some h), l') ∧
    snd l' = {[h := (str "zk:2181", 9)]}.
Proof.
  pose proof (@session_calls_keep_one wit_lib wit_zklib wit_zklaws
    [Call_open; Call_open; Call_close; Call_close; Call_reopen] (str "zk:2181") 3 (0, ∅)
    [0; -2; 0; -8; 0] (mkZk (str "zk:2181") 9 (Some 1)) (0, {[1 := (str "zk:2181", 9)]}) eq_refl) as H.
  exists (0, {[1 := (str "zk:2181", 9)]}), 1. split; [reflexivity|].
  destruct H as [[H _]|(h & [= <-] & _ & H)]; [discriminate H|exact H].
Defined.

(** when [zookeeper_close] reports an error the client keeps the handle of a session
    that is gone: [open] refuses, and [close] and [reopen], the reaction to an expired
    session, use the dead handle. *)
Theorem failed_close_breaks_client {L} {HL : ZkLib L} {HLL : ZkLibLaws L} c (l : L) rc c' l'
    (Hs : session_ok c l) (Hclose : ZookeeperClient_close c l = Ret (rc, c', l'))
    (Hrc : rc ≠ ZOK) (Hopen : is_Some (zc_zh c)) :
  ZookeeperClient_open c' l' = Ret (-2, c', l') ∧
  ZookeeperClient_close c' l' = Fault ∧ ZookeeperClient_reopen c' l' = Fault.
Proof.
  destruct (zk_do_spec Call_close _ _ _ _ _ Hs Hclose) as (_ & _ & _ & [[Hok _]|(_ & _ & -> & Hd)]).
  - exfalso. revert Hclose. unfold ZookeeperClient_close.
    destruct (zk_end_spec _ _ Hs) as (rc1 & l1 & -> & Hl & _). cbn [obind]. intros [= -> <- ->].
    rewrite (proj2 (Z.eqb_neq _ _) Hrc) in Hok. destruct Hopen as [h Eh].
    unfold session_ok in Hok. unfold others in Hl. rewrite Eh in Hok, Hl.
    by rewrite Hl, lookup_delete_eq in Hok.
  - split_and!; [apply (dangling_do Call_open)|apply (dangling_do Call_close)|apply (dangling_do Call_reopen)]; done.
Qed.

Lemma failed_close_breaks_client_witness :
  ∃ c l c' l', @ZookeeperClient_open wit_lib wit_zklib ZookeeperClient_new (-13, ∅) = Ret (0, c, l) ∧
    @ZookeeperClient_close wit_lib wit_zklib c l = Ret (-13, c', l') ∧
    @ZookeeperClient_reopen wit_lib wit_zklib c' l' = Fault.
Proof.
  set (c := mkZk [] 10000 (Some 1)).
  exists c, (-13, {[1 := ([], 10000)]}), c, (-13, ∅). split; [reflexivity|]. split; [reflexivity|].
  destruct (@failed_close_breaks_client wit_lib wit_zklib wit_zklaws c (-13, {[1 := ([], 10000)]})
    (-13) c (-13, ∅)) as (_ & _ & H).
  - reflexivity.
  - reflexivity.
  - discriminate.
  - by exists 1.
  - exact H.
Defined.

(** the address a server registers under is never a loopback address, except one that
    the interface eth0 itself has. *)
Theorem registered_address_is_public entry sock eth0 ifs host
    (Hf : fetch_host entry sock eth0 ifs = Ret host) :
  loopback host = false ∨ eth0 = Some host.
Proof.
  revert Hf. unfold fetch_host.
  set (h0 := match entry with Inet_addresses addrs => first_public addrs | _ => [] end).
  assert (loopback h0 = false) as H0 by (destruct entry; [done|done|apply first_public_spec]).
  destruct h0 as [|x h0].
  - destruct sock; cbn [assert_ obind]; [|done].
    destruct eth0 as [[|x a]|]; cbn [default from_option id]; unfold id.
    + intros H. left. by eapply first_interface_spec.
    + intros [= <-]. by right.
    + intros H. left. by eapply first_interface_spec.
  - cbn [obind]. intros [= <-]. by left.
Qed.

Lemma registered_address_is_public_witness :
  fetch_host (Inet_addresses [str "127.0.0.1"; str "10.1.2.3"]) true None [] = Ret (str "10.1.2.3") ∧
  (loopback (str "10.1.2.3") = false ∨ None = Some (str "10.1.2.3")).
Proof.
  split; [reflexivity|].
  apply (registered_address_is_public (Inet_addresses [str "127.0.0.1"; str "10.1.2.3"]) true None []).
  reflexivity.
Defined.
