(* ===== verification/Watcher.v ===== *)
(** The watchers of the registry (thrift/pilot/watcher_action.h): who is told of an
    event, and how a server that lost its node joins again.

    Zookeeper calls [active_watcher] with a [WatcherAction]; the methods of the base
    class only print, except that an expired session is reopened.  The effect of
    reopening on the registry is a parameter.  [ServiceWatcherAction] is in
    UpdateTasks.v. *)
From S2P Require Import Prelude Heap LinkedList WaitList StringAlgos Ini Util UpdateTasks Zookeeper.

(** ** std::map<string, ...> *)
Fixpoint str_ltb (a b : cstr) : bool :=
  match a, b with
  | _, [] => false
  | [], _ :: _ => true
  | x :: a, y :: b => (x <? y) || ((x =? y) && str_ltb a b)
  end.

(** [find], and [insert] of a key that is not there, into the sorted sequence. *)
Fixpoint servers_find (m : list (cstr * ServerCluster)) (key : cstr) : option ServerCluster :=
  match m with
  | [] => None
  | (k, c) :: m => if bool_decide (k = key) then Some c else servers_find m key
  end.
Fixpoint servers_insert (key : cstr) (c : ServerCluster) (m : list (cstr * ServerCluster)) : list (cstr * ServerCluster) :=
  match m with
  | [] => [(key, c)]
  | (k, c') :: m => if str_ltb key k then (key, c) :: (k, c') :: m else (k, c') :: servers_insert key c m
  end.

(** ** The watchers *)
(** [rg_delegate] says that [m_watcher_action], a [ServiceWatcherAction], is not null. *)
Record RegServiceWatcherAction := mkReg { rg_server : list (cstr * ServerCluster); rg_delegate : bool }.

Fixpoint reg_insert_all (servers : list ServerCluster) (m : list (cstr * ServerCluster)) : list (cstr * ServerCluster) :=
  match servers with
  | [] => m
  | c :: cs =>
      reg_insert_all cs (match servers_find m (sc_service_path c) with
                         | None => servers_insert (sc_service_path c) c m
                         | Some _ => m
                         end)
  end.

Definition RegServiceWatcherAction_new (servers : list ServerCluster) (delegate : bool) : outcome RegServiceWatcherAction :=
  let m := reg_insert_all servers [] in
  let* _ := assert_ (0 <? length m)%nat in
  Ret (mkReg m delegate).

Inductive WatcherAction := Base_action | Service_action | Reg_action (a : RegServiceWatcherAction).

Inductive zoo_state :=
  | ZOO_EXPIRED_SESSION_STATE | ZOO_AUTH_FAILED_STATE | ZOO_CONNECTING_STATE | ZOO_ASSOCIATING_STATE | ZOO_CONNECTED_STATE.
Inductive zoo_event :=
  | ZOO_CREATED_EVENT (path : cstr) | ZOO_DELETED_EVENT (path : cstr) | ZOO_CHANGED_EVENT (path : cstr)
  | ZOO_CHILD_EVENT (path : cstr) | ZOO_SESSION_EVENT (state : zoo_state) | ZOO_NOTWATCHING_EVENT (path : cstr).

Section watcher.
Context {R : Type} {HR : ZooApi R} (reopen : R → R) (tod : Z * Z) (zh : bool).

(** The registry and the task managers of the services. *)
Abbreviation watched := (R * task_managers)%type.

(** The methods of the delegate, or of the base class. *)
Definition delegate_to (delegate : bool) (handler : task_managers → outcome task_managers) (s : watched) : outcome watched :=
  if delegate then let* f := handler (snd s) in Ret (fst s, f) else Ret s.

Definition join_ignored (r : R) (c : ServerCluster) : outcome R :=
  let* (_, r) := ServerCluster_join zh r c in Ret r.

Fixpoint join_all (m : list (cstr * ServerCluster)) (r : R) : outcome R :=
  match m with
  | [] => Ret r
  | (_, c) :: m => let* r := join_ignored r c in join_all m r
  end.

Definition reg_on_connected (a : RegServiceWatcherAction) (s : watched) : outcome watched :=
  let* r := join_all (rg_server a) (fst s) in
  delegate_to (rg_delegate a) (on_connected tod) (r, snd s).

(** [node_exists] only sets the watch again. *)
Definition reg_on_node_created (a : RegServiceWatcherAction) (path : cstr) (s : watched) : outcome watched :=
  match servers_find (rg_server a) path with
  | None => delegate_to (rg_delegate a) (λ f, on_node_created tod f path) s
  | Some _ => Ret s
  end.

Definition reg_on_node_value_changed (a : RegServiceWatcherAction) (path : cstr) (s : watched) : outcome watched :=
  match servers_find (rg_server a) path with
  | None => delegate_to (rg_delegate a) (λ f, on_node_value_changed tod f path) s
  | Some c => let* r := join_ignored (fst s) c in Ret (r, snd s)
  end.

Definition reg_on_node_deleted (a : RegServiceWatcherAction) (path : cstr) (s : watched) : outcome watched :=
  match servers_find (rg_server a) path with
  | None => delegate_to (rg_delegate a) (λ f, on_node_deleted tod f path) s
  | Some c => let* r := join_ignored (fst s) c in Ret (r, snd s)
  end.

Definition reg_on_child_changed (a : RegServiceWatcherAction) (path : cstr) (s : watched) : outcome watched :=
  match servers_find (rg_server a) path with
  | None => delegate_to (rg_delegate a) (λ f, on_child_changed tod f path) s
  | Some _ => Ret s
  end.

(** A virtual call. *)
Definition action_call (action : WatcherAction) (svc : task_managers → outcome task_managers)
    (reg : RegServiceWatcherAction → watched → outcome watched) (s : watched) : outcome watched :=
  match action with
  | Base_action => Ret s
  | Service_action => delegate_to true svc s
  | Reg_action a => reg a s
  end.

Definition active_watcher (action : WatcherAction) (e : zoo_event) (s : watched) : outcome watched :=
  match e with
  | ZOO_CREATED_EVENT path => action_call action (λ f, on_node_created tod f path) (λ a, reg_on_node_created a path) s
  | ZOO_DELETED_EVENT path => action_call action (λ f, on_node_deleted tod f path) (λ a, reg_on_node_deleted a path) s
  | ZOO_CHANGED_EVENT path =>
      action_call action (λ f, on_node_value_changed tod f path) (λ a, reg_on_node_value_changed a path) s
  | ZOO_CHILD_EVENT path => action_call action (λ f, on_child_changed tod f path) (λ a, reg_on_child_changed a path) s
  | ZOO_SESSION_EVENT ZOO_EXPIRED_SESSION_STATE => Ret (reopen (fst s), snd s)
  | ZOO_SESSION_EVENT ZOO_CONNECTED_STATE => action_call action (on_connected tod) reg_on_connected s
  | ZOO_SESSION_EVENT _ | ZOO_NOTWATCHING_EVENT _ => Ret s
  end.
End watcher.

(** ** Lemmas *)
Lemma servers_find_insert key c m key' :
  servers_find m key = None →
  servers_find (servers_insert key c m) key' = if bool_decide (key = key') then Some c else servers_find m key'.
Proof.
  induction m as [|[k c'] m IH]; cbn; intros Hn; [done|]. case_bool_decide as Hk; [done|].
  destruct (str_ltb key k); cbn; [done|]. rewrite IH by done.
  do 2 case_bool_decide; try done. congruence.
Qed.

(** Every server is found under its node, the first one that claims it. *)
Lemma reg_insert_all_find servers m key :
  servers_find (reg_insert_all servers m) key =
  match servers_find m key with
  | Some c => Some c
  | None => List.find (λ c, bool_decide (sc_service_path c = key)) servers
  end.
Proof.
  revert m. induction servers as [|c cs IH]; intros m; cbn; [by destruct (servers_find m key)|]. rewrite IH.
  destruct (servers_find m (sc_service_path c)) as [c0|] eqn:Ec.
  - case_bool_decide as Hk; [subst key; by rewrite Ec|done].
  - rewrite servers_find_insert by done. case_bool_decide as Hk; [subst key; by rewrite Ec|done].
Qed.

(** ** Properties *)

(** a server that lost its node joins again.  When the node of one of its servers is
    deleted, the watcher registers it anew, with its value, next to all other nodes and
    without a word to the services; an event of any other node is handled as the
    watcher behind it handles it. *)
Theorem lost_node_is_restored {R} {HR : ZooApi R} {HL : ZooLaws R} (reopen : R → R) tod servers delegate a
    ip path protocol port c (r : R) f
    (Ha : RegServiceWatcherAction_new servers delegate = Ret a)
    (Hc : ServerCluster_new ip path protocol port = Ret c)
    (Hfirst : List.find (λ c', bool_decide (sc_service_path c' = sc_service_path c)) servers = Some c)
    (Hv : Z.of_nat (length (sc_service_value c)) < MAX_VALUE_LEN)
    (Hpath : path_of (sc_zk_nodes c) = sc_service_path c) (Hlost : zoo_nodes r !! sc_service_path c = None) :
  (∃ r', active_watcher reopen tod true (Reg_action a) (ZOO_DELETED_EVENT (sc_service_path c)) (r, f) = Ret (r', f) ∧
     zoo_nodes r' !! sc_service_path c = Some (sc_service_value c) ∧
     ∀ p w, zoo_nodes r !! p = Some w → zoo_nodes r' !! p = Some w) ∧
  (∀ other e, List.find (λ c', bool_decide (sc_service_path c' = other)) servers = None →
     e ∈ [ZOO_CREATED_EVENT other; ZOO_DELETED_EVENT other; ZOO_CHANGED_EVENT other; ZOO_CHILD_EVENT other] →
     active_watcher reopen tod true (Reg_action a) e (r, f) =
     active_watcher reopen tod true (if delegate then Service_action else Base_action) e (r, f)).
Proof.
  unfold RegServiceWatcherAction_new in Ha. apply obind_Ret_inv in Ha as (_ & _ & [= <-]). split.
  - cbn. unfold reg_on_node_deleted. cbn [rg_server]. rewrite reg_insert_all_find. cbn [servers_find]. rewrite Hfirst.
    rewrite <-Hpath in Hlost. destruct (join_absent _ _ _ _ _ r Hc Hv Hlost) as (r' & Hj & Hn & Hk & _).
    unfold join_ignored. cbn [fst]. rewrite Hj. cbn [obind]. exists r'. rewrite <-Hpath. done.
  - intros other e Hnone He.
    assert (servers_find (reg_insert_all servers []) other = None) as Hf by (by rewrite reg_insert_all_find).
    repeat (apply elem_of_cons in He as [->|He]); [..|by apply elem_of_nil in He];
      cbn [active_watcher action_call];
      unfold reg_on_node_created, reg_on_node_deleted, reg_on_node_value_changed, reg_on_child_changed;
      cbn [rg_server rg_delegate]; rewrite Hf; by destruct delegate.
Qed.

Definition wit_server : ServerCluster :=
  Eval vm_compute in
    match ServerCluster_new (str "10.0.0.1") (str "/ms") (str "TBinaryProtocol") 9090 with
    | Ret c => c | _ => mkCluster [] [] [] [] end.

Lemma lost_node_is_restored_witness :
  ∃ r', active_watcher id (0, 0) true (Reg_action (mkReg [(sc_service_path wit_server, wit_server)] false))
      (ZOO_DELETED_EVENT (sc_service_path wit_server)) (∅ : gmap cstr cstr, ∅) = Ret (r', ∅).
Proof.
  destruct (lost_node_is_restored (R := gmap cstr cstr) id (0, 0) [wit_server] false
    (mkReg [(sc_service_path wit_server, wit_server)] false) (str "10.0.0.1") (str "/ms")
    (str "TBinaryProtocol") 9090 wit_server ∅ ∅) as [(r' & H1 & _) _].
  - reflexivity.
  - vm_compute. reflexivity.
  - vm_compute. reflexivity.
  - vm_compute. reflexivity.
  - vm_compute. reflexivity.
  - reflexivity.
  - exists r'. exact H1.
Defined.

(** The watcher knows its servers by the path they were given, and the registry tells
    the path of the node: with a doubled slash the two differ, and a lost node stays
    lost. *)
Example doubled_slash_is_not_found :
  match ServerCluster_new (str "10.0.0.1") (str "/im//ms") (str "TBinaryProtocol") 9090 with
  | Ret c => bool_decide (path_of (sc_zk_nodes c) = sc_service_path c)
  | _ => true
  end = false.
Proof. vm_compute. reflexivity. Qed.
