(* ===== verification/PooledClient.v ===== *)
(** Pilot::PooledClientImpl and the proxy macros (thrift/pilot/pooled_client.inl,
    thrift_proxy.h): clients of a replicated service.

    The pool of every live replica sits in a vector; a map leads from the id of a
    replica to its place in the vector.  The JSON reader is a parameter: [json_node]
    gives the fields ["ip"], ["port"], ["protocol"] and ["status"] of a document it
    accepts.  [now] is the time of day.

    A method that holds the lock of the vector is one step.  [release_thrift_client] drops
    it after its search; what it then does is a list of stages, each a step of its own
    between which others may run ([release_stage_step], [service_step]). *)
From Stdlib Require Import Sorting.Sorted.
From S2P Require Import Prelude Heap LinkedList WaitList StringAlgos Ini Util UpdateTasks ConnPool Zookeeper Processors.

(** ** Replicas *)
Record ReplicaInfo := mkInfo {
  ri_host : cstr; ri_port : Z; ri_replica_id : Z; ri_protocol : cstr; ri_status : Z }.

Record ReplicaConnPool := mkReplica {
  rc_backend : cstr * Z; rc_replica_id : Z; rc_index : Z; rc_protocol : cstr; rc_status : Z; rc_pool : ConnPool }.
Definition rc_set_pool (p : ConnPool) (r : ReplicaConnPool) : ReplicaConnPool :=
  mkReplica (rc_backend r) (rc_replica_id r) (rc_index r) (rc_protocol r) (rc_status r) p.

Record PooledClientImpl := mkPooled {
  pc_vec : list ReplicaConnPool;
  pc_map : gmap Z Z;
  pc_num_clients : Z;
  pc_path : cstr;
  pc_cur : Z }.
Definition pc_set (vec : list ReplicaConnPool) (map : gmap Z Z) (c : PooledClientImpl) : PooledClientImpl :=
  mkPooled vec map (pc_num_clients c) (pc_path c) (pc_cur c).
Definition pc_set_cur (cur : Z) (c : PooledClientImpl) : PooledClientImpl :=
  mkPooled (pc_vec c) (pc_map c) (pc_num_clients c) (pc_path c) cur.

Definition PooledClientImpl_new (path : cstr) (num : Z) : PooledClientImpl := mkPooled [] ∅ num path 0.

(** [inet_pton(AF_INET, ...)]: four numbers below 256 without leading zeros. *)
Fixpoint inet_pton_loop (s : cstr) (octets : list Z) (cur : option Z) : option (list Z) :=
  match s with
  | [] => match cur with
          | Some v => if (length octets =? 3)%nat then Some (octets ++ [v]) else None
          | None => None
          end
  | c :: s =>
      if (48 <=? c) && (c <=? 57) then
        match cur with
        | Some v => if v =? 0 then None
                    else if 255 <? v * 10 + (c - 48) then None
                    else inet_pton_loop s octets (Some (v * 10 + (c - 48)))
        | None => inet_pton_loop s octets (Some (c - 48))
        end
      else if c =? 46 then
        match cur with
        | Some v => if (length octets =? 3)%nat then None else inet_pton_loop s (octets ++ [v]) None
        | None => None
        end
      else None
  end.

Definition genReplicId (host : cstr) (port : Z) : Z :=
  match inet_pton_loop host [] None with
  | Some [a; b; c; d] =>
      let ip := a + Z.shiftl b 8 + Z.shiftl c 16 + Z.shiftl d 24 in
      Z.lor (Z.shiftl ip 32) (u64 port)
  | _ => 0
  end.

Section pooled.
Context {R : Type} {HR : ZooApi R} (json_node : cstr → outcome (option (cstr * Z * cstr * Z))).

Definition json_parse (src : cstr) : outcome (option ReplicaInfo) :=
  let* fields := json_node src in
  Ret (match fields with
       | Some (ip, port, protocol, status) =>
           let id := genReplicId ip port in
           if id =? 0 then None else Some (mkInfo ip port id protocol status)
       | None => None
       end).

Fixpoint read_children (zh : bool) (r : R) (children : list cstr) : outcome (option (list ReplicaInfo)) :=
  match children with
  | [] => Ret (Some [])
  | c :: cs =>
      let* (rc, v) := zk_get_nodevalue zh r c in
      match v with
      | Some v =>
          let* ri := json_parse v in
          let* rest := read_children zh r cs in
          Ret (match rest with Some ris => Some (option_list ri ++ ris) | None => None end)
      | None => Ret None
      end
  end.

(** [None] is the result -1. *)
Definition get_all_replicas (zh : bool) (r : R) (path : cstr) : outcome (option (list ReplicaInfo)) :=
  let (rc, ex) := zk_node_exists zh r path in
  if negb ((rc =? ZOK) && bool_decide (ex = Some true)) then Ret None
  else
    let (rc, children) := zk_get_children zh r path in
    if negb (rc =? ZOK) then Ret None else read_children zh r children.

(** [None] is the result 0. *)
Definition get_one_replica (zh : bool) (r : R) (path : cstr) : outcome (option ReplicaInfo) :=
  let (rc, ex) := zk_node_exists zh r path in
  if negb ((rc =? ZOK) && bool_decide (ex = Some true)) then Ret None
  else
    let* (rc, v) := zk_get_nodevalue zh r path in
    match v with
    | Some [] | None => Ret None
    | Some v => json_parse v
    end.

(** ** Keeping the pools up to date *)
Definition same_server (r : ReplicaConnPool) (i : ReplicaInfo) : bool :=
  bool_decide (rc_backend r = (ri_host i, ri_port i)) && bool_decide (rc_protocol r = ri_protocol i).
Definition same_replica (r : ReplicaConnPool) (i : ReplicaInfo) : bool :=
  same_server r i && (rc_status r =? ri_status i).

(** [conn_pool_vec_.clear()]: the last pointer to a pool goes, and its destructor
    clears it. *)
Fixpoint destroy_pools (n : net) (vec : list ReplicaConnPool) : outcome net :=
  match vec with
  | [] => Ret n
  | r :: vec => let* (n, _) := clear n (rc_pool r) in destroy_pools n vec
  end.

(** The first loop of [REFRESH_ALL]: pools of replicas that are gone are erased. *)
Fixpoint erase_missing (riv : list ReplicaInfo) (n : net) (vec : list ReplicaConnPool) (map : gmap Z Z)
    : outcome (net * list ReplicaConnPool * gmap Z Z) :=
  match vec with
  | [] => Ret (n, [], map)
  | r :: vec =>
      if existsb (same_replica r) riv then
        let* (n, vec, map) := erase_missing riv n vec map in Ret (n, r :: vec, map)
      else
        let* (n, _) := clear n (rc_pool r) in
        erase_missing riv n vec (delete (rc_replica_id r) map)
  end.

(** A pool for a new replica, kept if it could connect. *)
Definition add_replica (n : net) (c : PooledClientImpl) (i : ReplicaInfo) : outcome (net * PooledClientImpl) :=
  let* (n, p) := ConnPool_new n (ri_host i) (ri_port i) (pc_num_clients c) (ri_protocol i) in
  if 0 <? pool_size p then
    let index := Z.of_nat (length (pc_vec c)) in
    let r := mkReplica (ri_host i, ri_port i) (ri_replica_id i) index (ri_protocol i) (ri_status i) p in
    Ret (n, pc_set (pc_vec c ++ [r]) (<[ri_replica_id i := index]> (pc_map c)) c)
  else let* (n, _) := clear n p in Ret (n, c).

(** The second loop. *)
Fixpoint add_missing (riv : list ReplicaInfo) (n : net) (c : PooledClientImpl) : outcome (net * PooledClientImpl) :=
  match riv with
  | [] => Ret (n, c)
  | i :: riv =>
      if existsb (λ r, same_replica r i) (pc_vec c) then add_missing riv n c
      else let* (n, c) := add_replica n c i in add_missing riv n c
  end.

(** What [REFRESH_ALL] does with the replicas it read. *)
Definition refresh_with (riv : list ReplicaInfo) (n : net) (c : PooledClientImpl) : outcome (net * PooledClientImpl) :=
  match filter (λ i, ri_status i ≠ 0) riv with
  | [] => let* n := destroy_pools n (pc_vec c) in Ret (n, pc_set [] ∅ c)
  | riv =>
      let* (n, vec, map) := erase_missing riv n (pc_vec c) (pc_map c) in
      add_missing riv n (pc_set vec map c)
  end.

Definition refresh_all (zh : bool) (r : R) (n : net) (c : PooledClientImpl) : outcome (net * PooledClientImpl) :=
  let* riv := get_all_replicas zh r (pc_path c) in
  match riv with
  | None => Ret (n, c)
  | Some riv => refresh_with riv n c
  end.

(** [clear]: every pool goes. *)
Definition pc_clear (n : net) (c : PooledClientImpl) : outcome (net * PooledClientImpl) :=
  let* n := destroy_pools n (pc_vec c) in Ret (n, pc_set [] ∅ c).

(** The loop of [NODE_VALUE_CHANGED]: the first pool of the server is erased. *)
Fixpoint erase_server (i : ReplicaInfo) (n : net) (vec : list ReplicaConnPool) (map : gmap Z Z)
    : outcome (net * list ReplicaConnPool * gmap Z Z) :=
  match vec with
  | [] => Ret (n, [], map)
  | r :: vec =>
      if same_server r i then
        let* (n, _) := clear n (rc_pool r) in Ret (n, vec, delete (rc_replica_id r) map)
      else let* (n, vec, map) := erase_server i n vec map in Ret (n, r :: vec, map)
  end.

(** What [NODE_VALUE_CHANGED] does with the replica it read. *)
Definition change_with (i : ReplicaInfo) (n : net) (c : PooledClientImpl) : outcome (net * PooledClientImpl) :=
  let* (n, vec, map) := erase_server i n (pc_vec c) (pc_map c) in
  let c := pc_set vec map c in
  if ri_status i =? 1 then add_replica n c i else Ret (n, c).

Definition value_changed (zh : bool) (r : R) (n : net) (c : PooledClientImpl) (path : cstr)
    : outcome (net * PooledClientImpl) :=
  let* ri := get_one_replica zh r path in
  match ri with
  | None => Ret (n, c)
  | Some i => change_with i n c
  end.

(** [m] is the manager of this client's path. *)
Definition process_update_task (zh : bool) (r : R) (now : Z * Z) (n : net) (c : PooledClientImpl)
    (m : UpdateTaskManager) (t : UpdateTask) : outcome (net * PooledClientImpl * UpdateTaskManager) :=
  match task_type t with
  | REFRESH_ALL => let* (n, c) := refresh_all zh r n c in Ret (n, c, m)
  | NODE_CREATED | CHILD_CHANGED =>
      if bool_decide (task_arg t = []) || negb (bool_decide (task_arg t = pc_path c)) then Ret (n, c, m)
      else let* (_, m) := put_update_task now m REFRESH_ALL [] in Ret (n, c, m)
  | NODE_VALUE_CHANGED =>
      if bool_decide (task_arg t = []) || bool_decide (task_arg t = pc_path c) then Ret (n, c, m)
      else let* (n, c) := value_changed zh r n c (task_arg t) in Ret (n, c, m)
  | _ => Ret (n, c, m)
  end.

(** One turn of [svc]; the flag says that the loop goes on. *)
Definition svc_turn (zh : bool) (r : R) (now : Z * Z) (n : net) (c : PooledClientImpl) (m : UpdateTaskManager)
    : outcome (bool * net * PooledClientImpl * UpdateTaskManager) :=
  let* (task, m) := get_update_task m in
  match task with
  | None => Ret (false, n, c, m)
  | Some t =>
      match task_type t with
      | EXIT => Ret (false, n, c, m)
      | TIMED_REFRESH_ALL =>
          if task_timed t <=? u32 (fst now * 1000 + snd now / 1000) then
            let* (n, c, m) := process_update_task zh r now n c m (mkTask REFRESH_ALL (task_arg t) (task_timed t)) in
            Ret (true, n, c, m)
          else let* (_, m) := put_task m t in Ret (true, n, c, m)
      | _ => let* (n, c, m) := process_update_task zh r now n c m t in Ret (true, n, c, m)
      end
  end.
End pooled.

(** ** Opening a client *)
(** [thread_ok] says that the update thread could be created. *)
Definition PooledClientImpl_open (tod : Z * Z) (f : task_managers) (path : cstr) (thread_ok : bool)
    : outcome (Z * task_managers) :=
  let* (m, f) := get_update_task_manager f path in
  let* (_, m) := put_update_task tod m REFRESH_ALL [] in
  Ret (if thread_ok then 0 else -1, <[path := m]> f).

(** ConnPoolFactory::get_pooled_client: one client per path; the flag says that the
    result is not null. *)
Definition get_pooled_client (tod : Z * Z) (clients : gmap cstr PooledClientImpl) (f : task_managers)
    (path : cstr) (num : Z) (thread_ok : bool) : outcome (bool * gmap cstr PooledClientImpl * task_managers) :=
  match clients !! path with
  | Some _ => Ret (true, clients, f)
  | None =>
      let* (_, f) := get_update_task_manager f path in
      let* (ret, f) := PooledClientImpl_open tod f path thread_ok in
      if ret =? 0 then Ret (true, <[path := PooledClientImpl_new path num]> clients, f)
      else Ret (false, clients, f)
  end.

(** ** Borrowing a client *)
(** [conn_pool_vec_[i]] *)
Definition replica_at (vec : list ReplicaConnPool) (i : Z) : outcome ReplicaConnPool :=
  if i <? 0 then Fault else defined (vec !! Z.to_nat i).
Definition set_pool_at (i : Z) (p : ConnPool) (r : ReplicaConnPool) (c : PooledClientImpl) : PooledClientImpl :=
  pc_set (<[Z.to_nat i := rc_set_pool p r]> (pc_vec c)) (pc_map c) c.

(** Refreshing a pool that may be tried again. *)
Definition retry_pool (now : Z * Z) (n : net) (p : ConnPool) : outcome (net * ConnPool) :=
  let* (ok, n, p) := refresh n p in
  if (ok : bool) then Ret (n, p) else let* (_, p) := report_error now p in Ret (n, p).

(** A client of the pool with an open transport. *)
Definition borrow (n : net) (p : ConnPool) : outcome (ptr * net * ConnPool) :=
  let* (client, p) := acquire_client p in
  match client with
  | Some l =>
      let* (ret, n) := open_service n l in
      if ret =? 0 then Ret (Some l, n, p)
      else
        let* (_, n) := open_service n l in
        let* (n, p) := release_client n p l in
        Ret (None, n, p)
  | None => Ret (None, n, p)
  end.

(** The loop of [acquire_thrift_client()]; [i] counts down from the size. *)
Fixpoint acquire_loop (i : nat) (now : Z * Z) (n : net) (c : PooledClientImpl)
    : outcome (ptr * net * PooledClientImpl) :=
  match i with
  | O => Ret (None, n, c)
  | S i =>
      let idx := u64 (pc_cur c) mod Z.of_nat (length (pc_vec c)) in
      let c := pc_set_cur (i32 (pc_cur c + 1)) c in
      let* r := replica_at (pc_vec c) idx in
      if rc_status r =? 0 then acquire_loop i now n c
      else
        let* s := is_healthy now (rc_pool r) in
        match s with
        | NOT_HEALTHY_AND_CANNOT_BE_USED_TEMP | DEAD => acquire_loop i now n c
        | _ =>
            let* (n, p) := if bool_decide (s = NOT_HEALTHY_BUT_CAN_HAVEATRY) then retry_pool now n (rc_pool r)
                           else Ret (n, rc_pool r) in
            let* (client, n, p) := borrow n p in
            let c := set_pool_at idx p r c in
            match client with
            | Some l => Ret (Some l, n, c)
            | None => acquire_loop i now n c
            end
        end
  end.

Definition acquire_thrift_client (now : Z * Z) (n : net) (c : PooledClientImpl)
    : outcome (ptr * net * PooledClientImpl) :=
  acquire_loop (length (pc_vec c)) now n c.

Definition acquire_thrift_client_by_id (now : Z * Z) (n : net) (c : PooledClientImpl) (id : Z)
    : outcome (ptr * net * PooledClientImpl) :=
  match pc_map c !! id with
  | None => Ret (None, n, c)
  | Some i =>
      let* r := replica_at (pc_vec c) i in
      if (rc_replica_id r =? id) && (rc_status r =? 1) then
        let* s := is_healthy now (rc_pool r) in
        let* (s, n, p) :=
          if bool_decide (s = NOT_HEALTHY_BUT_CAN_HAVEATRY) then
            let* (n, p) := retry_pool now n (rc_pool r) in
            let* s := is_healthy now p in Ret (s, n, p)
          else Ret (s, n, rc_pool r) in
        if bool_decide (s = HEALTHY) then
          let* (client, n, p) := borrow n p in
          Ret (client, n, set_pool_at i p r c)
        else Ret (None, n, set_pool_at i p r c)
      else Ret (None, n, c)
  end.

(** ** Giving a client back *)
Inductive ConnErrorStatus := CONN_OK | CONN_DROP | CONN_RECONNECT.

(** The search of [release_thrift_client(client, error)], under the read lock. *)
Fixpoint find_replica (vec : list ReplicaConnPool) (replica : cstr * Z) (i : Z) : option Z :=
  match vec with
  | [] => None
  | r :: vec => if bool_decide (rc_backend r = replica) then Some i else find_replica vec replica (i + 1)
  end.

(** The statements that follow once the lock was released.  Each looks
    [conn_pool_vec_[i]] up anew. *)
Inductive release_stage := Rel_clear_error | Rel_report_error | Rel_reopen | Rel_back | Rel_delete.

Definition release_stages (error : ConnErrorStatus) : list release_stage :=
  match error with
  | CONN_OK => [Rel_clear_error; Rel_back]
  | CONN_DROP => [Rel_report_error; Rel_delete]
  | CONN_RECONNECT => [Rel_reopen; Rel_back]
  end.

Definition release_stage_step (now : Z * Z) (n : net) (c : PooledClientImpl) (i : Z) (l : loc) (st : release_stage)
    : outcome (net * PooledClientImpl) :=
  match st with
  | Rel_clear_error =>
      let* r := replica_at (pc_vec c) i in
      let* p := clear_error now (rc_pool r) in Ret (n, set_pool_at i p r c)
  | Rel_report_error =>
      let* r := replica_at (pc_vec c) i in
      let* (_, p) := report_error now (rc_pool r) in Ret (n, set_pool_at i p r c)
  | Rel_reopen =>
      let* (_, n) := close_service n l in
      let* (_, n) := open_service n l in Ret (n, c)
  | Rel_back =>
      let* r := replica_at (pc_vec c) i in
      let* (n, p) := release_client n (rc_pool r) l in Ret (n, set_pool_at i p r c)
  | Rel_delete => let* n := delete_client n l in Ret (n, c)
  end.

Fixpoint run_stages (now : Z * Z) (n : net) (c : PooledClientImpl) (i : Z) (l : loc) (sts : list release_stage)
    : outcome (net * PooledClientImpl) :=
  match sts with
  | [] => Ret (n, c)
  | st :: sts => let* (n, c) := release_stage_step now n c i l st in run_stages now n c i l sts
  end.

(** All of them, with nothing in between. *)
Definition release_at (now : Z * Z) (n : net) (c : PooledClientImpl) (i : Z) (l : loc) (error : ConnErrorStatus)
    : outcome (net * PooledClientImpl) :=
  run_stages now n c i l (release_stages error).

Definition release_thrift_client (now : Z * Z) (n : net) (c : PooledClientImpl) (client : ptr)
    (error : ConnErrorStatus) : outcome (bool * net * PooledClientImpl) :=
  match client with
  | None => Ret (true, n, c)
  | Some l =>
      let* tc := load (nt_clients n) (Some l) in
      match find_replica (pc_vec c) (tc_replica tc) 0 with
      | Some i => let* (n, c) := release_at now n c i l error in Ret (true, n, c)
      | None => let* n := delete_client n l in Ret (false, n, c)
      end
  end.

Definition release_thrift_client_by_id (now : Z * Z) (n : net) (c : PooledClientImpl) (id : Z) (client : ptr)
    (error : ConnErrorStatus) : outcome (bool * net * PooledClientImpl) :=
  match client with
  | None => Ret (true, n, c)
  | Some l =>
      let* tc := load (nt_clients n) (Some l) in
      let drop_it := let* n := delete_client n l in Ret (false, n, c) in
      match pc_map c !! id with
      | Some i =>
          let* r := replica_at (pc_vec c) i in
          if (rc_replica_id r =? id) && bool_decide (rc_backend r = tc_replica tc) then
            let* (n, p) :=
              match error with
              | CONN_OK => let* p := clear_error now (rc_pool r) in release_client n p l
              | _ =>
                  let* (_, n) := close_service n l in
                  let* (_, n) := open_service n l in
                  release_client n (rc_pool r) l
              end in
            Ret (true, n, set_pool_at i p r c)
          else drop_it
      | None => drop_it
      end
  end.

(** ** The proxy *)
Inductive ExceptCode :=
  TZE_NOSERVICE | TZE_NET_TIMEOUT | TZE_NET_PEERRESET | TZE_NET_OTHER | TZE_OPEN_SERVICE | TZE_APP | TZE_OTHER.
(** What a call on a client does: it returns or throws one of thrift's exceptions. *)
Inductive call_result :=
  Call_return (code : ResponseCode) | Call_timed_out | Call_not_open | Call_transport | Call_application | Call_other.
Inductive proxy_result := Proxy_return (code : ResponseCode) | Proxy_throw (e : ExceptCode).

(** What is reported about the connection, and what is thrown in the end. *)
Definition after_call (r : call_result) : ConnErrorStatus * proxy_result :=
  match r with
  | Call_return code => (CONN_OK, Proxy_return code)
  | Call_timed_out => (CONN_RECONNECT, Proxy_throw TZE_NET_TIMEOUT)
  | Call_not_open => (CONN_DROP, Proxy_throw TZE_NET_PEERRESET)
  | Call_transport => (CONN_RECONNECT, Proxy_throw TZE_NET_OTHER)
  | Call_application => (CONN_OK, Proxy_throw TZE_APP)
  | Call_other => (CONN_RECONNECT, Proxy_throw TZE_OTHER)
  end.

(** INVOKE_AND_RETURN_WITHIN_3_ATTEMPTS: [retry] attempts are left.  [call] is what a call
    in an attempt does to the rest of the world when it goes to a replica, and [clock] the
    time of day; the log has the attempt, the replica and the result of every call made,
    the last one first. *)
Fixpoint invoke {W} (retry : nat) (clock : nat → Z * Z) (call : nat → cstr * Z → W → outcome (call_result * W)) (w : W)
    (n : net) (c : PooledClientImpl) (log : list (nat * (cstr * Z) * call_result))
    : outcome (proxy_result * W * net * PooledClientImpl * list (nat * (cstr * Z) * call_result)) :=
  match retry with
  | O => Ret (Proxy_throw TZE_NOSERVICE, w, n, c, log)
  | S retry =>
      let* (client, n, c) := acquire_thrift_client (clock retry) n c in
      match client with
      | Some l =>
          let* tc := load (nt_clients n) (Some l) in
          let* (r, w) := call retry (tc_replica tc) w in
          let (error, result) := after_call r in
          let* (_, n, c) := release_thrift_client (clock retry) n c (Some l) error in
          let log := (retry, tc_replica tc, r) :: log in
          match result, retry with
          | Proxy_return _, _ => Ret (result, w, n, c, log)
          | _, O => Ret (result, w, n, c, log)
          | _, _ => invoke retry clock call w n c log
          end
      | None => invoke retry clock call w n c log
      end
  end.

(** INVOKE_AND_RETURN_ONE_SHOT *)
Definition invoke_one_shot (now : Z * Z) (answer : call_result) (n : net) (c : PooledClientImpl)
    : outcome (proxy_result * net * PooledClientImpl) :=
  let* (client, n, c) := acquire_thrift_client now n c in
  match client with
  | Some l =>
      let (error, result) := after_call answer in
      let* (_, n, c) := release_thrift_client now n c (Some l) error in Ret (result, n, c)
  | None => Ret (Proxy_throw TZE_NOSERVICE, n, c)
  end.

(** INVOKE_AND_RETURN_ONE_SHOT_BY_ID; the helper releases by id unless it is 0. *)
Definition invoke_one_shot_by_id (now : Z * Z) (answer : call_result) (n : net) (c : PooledClientImpl) (id : Z)
    : outcome (proxy_result * net * PooledClientImpl) :=
  let* (client, n, c) := acquire_thrift_client_by_id now n c id in
  match client with
  | Some l =>
      let (error, result) := after_call answer in
      let* (_, n, c) := (if id =? 0 then release_thrift_client now n c (Some l) error
                         else release_thrift_client_by_id now n c id (Some l) error) in
      Ret (result, n, c)
  | None => Ret (Proxy_throw TZE_NOSERVICE, n, c)
  end.

(** MessageProxy::dispatch *)
Definition MessageProxy_dispatch {W} (clock : nat → Z * Z) (call : nat → cstr * Z → W → outcome (call_result * W)) (w : W)
    (n : net) (c : PooledClientImpl)
    : outcome (proxy_result * W * net * PooledClientImpl * list (nat * (cstr * Z) * call_result)) :=
  invoke 3 clock call w n c [].

(** What [MessageBroker::dispatch] sees of it. *)
Definition as_rpc_result (r : proxy_result) : rpc_result :=
  match r with Proxy_return code => Rpc_response code | Proxy_throw _ => Rpc_exception end.

(** ** Invariant *)
(** The bookkeeping of a pool's errors. *)
Definition health_ok (p : ConnPool) : Prop :=
  0 ≤ cp_error_cnt p ∧ (cp_error_cnt p ≠ 0 → is_Some (cp_last_err p)).

(** [css] are the idle clients of the pools, [out] the borrowed ones: together they are
    all the clients that are alive, and none is there twice. *)
Record service_inv (n : net) (vec : list ReplicaConnPool) (css : list (list loc)) (out : list loc) : Prop := {
  si_pools : Forall2 (λ r cs, (∃ nodes, pool_rep (rc_pool r) nodes cs) ∧ 0 ≤ cp_conn_num (rc_pool r) ∧
    Z.of_nat (length cs) ≤ cp_conn_num (rc_pool r) + 1 ∧ health_ok (rc_pool r)) vec css;
  si_distinct : NoDup (mjoin css ++ out);
  si_alive : ∀ l, l ∈ mjoin css ++ out ↔ is_Some (nt_clients n !! l) }.

(** No error counter is near its end. *)
Definition errors_below (k : nat) (vec : list ReplicaConnPool) : Prop :=
  Forall (λ r, cp_error_cnt (rc_pool r) + Z.of_nat k < 2 ^ 31) vec.

Lemma mjoin_focus (css : list (list loc)) i cs :
  css !! i = Some cs → mjoin css ≡ₚ cs ++ mjoin (delete i css).
Proof. intros E. by rewrite (delete_Permutation css i cs E) at 1. Qed.

Lemma mjoin_unfocus (css : list (list loc)) i cs cs' :
  css !! i = Some cs → mjoin (<[i := cs']> css) ≡ₚ cs' ++ mjoin (delete i css).
Proof.
  intros E. assert (i < length css)%nat as Hi by (apply lookup_lt_is_Some; eauto).
  rewrite (mjoin_focus _ i cs') by (by apply list_lookup_insert_eq).
  rewrite !delete_take_drop, take_insert_ge, drop_insert_lt by lia. done.
Qed.

(** One pool, with all other clients out of it. *)
Lemma service_focus n vec css out i r :
  service_inv n vec css out → vec !! i = Some r →
  ∃ cs nodes, css !! i = Some cs ∧ pool_inv n (rc_pool r) nodes cs (mjoin (delete i css) ++ out) ∧
    0 ≤ cp_conn_num (rc_pool r) ∧ health_ok (rc_pool r).
Proof.
  intros [Hp Hd Ha] E. destruct (Forall2_lookup_l _ _ _ _ _ Hp E) as (cs & Ecs & (nodes & Hr) & Hn & Hb & Hh).
  assert (mjoin css ++ out ≡ₚ cs ++ mjoin (delete i css) ++ out) as Hperm by (by rewrite app_assoc, <-mjoin_focus).
  exists cs, nodes. split; [done|]. split; [|done]. split; [done|by rewrite <-Hperm| |done].
  by eapply alive_perm.
Qed.

Lemma service_unfocus n n' vec css out out' i r cs p nodes cs' :
  service_inv n vec css out → vec !! i = Some r → css !! i = Some cs →
  pool_inv n' p nodes cs' (mjoin (delete i css) ++ out') → 0 ≤ cp_conn_num p → health_ok p →
  service_inv n' (<[i := rc_set_pool p r]> vec) (<[i := cs']> css) out'.
Proof.
  intros [Hp Hd Ha] E Ecs [Hr' Hd' Ha' Hb'] Hn Hh.
  assert (mjoin (<[i := cs']> css) ++ out' ≡ₚ cs' ++ mjoin (delete i css) ++ out') as Hperm
    by (by rewrite app_assoc, <-(mjoin_unfocus css i cs)).
  split; [|by rewrite Hperm|by eapply alive_perm].
  apply Forall2_insert; [done|]. split; [eauto|]. done.
Qed.

Lemma pool_inv_net n n' p nodes cs out out' :
  pool_inv n p nodes cs out → out' ≡ₚ out →
  (∀ l, is_Some (nt_clients n !! l) ↔ is_Some (nt_clients n' !! l)) → pool_inv n' p nodes cs out'.
Proof.
  intros [Hr Hd Ha Hb] Hperm Hn. split; [done|by rewrite Hperm| |done].
  intros l. by rewrite <-Hn, <-Ha, Hperm.
Qed.

Lemma pool_inv_config n p p' nodes cs out :
  pool_inv n p nodes cs out → cp_links p' = cp_links p → cp_nodes p' = cp_nodes p → cp_list p' = cp_list p →
  cp_conn_num p' = cp_conn_num p → pool_inv n p' nodes cs out.
Proof. intros [[H1 H2 H3] Hd Ha Hb] E1 E2 E3 E4. split; [split|..]; by rewrite ?E1, ?E2, ?E3, ?E4. Qed.

Lemma config_health p p' : config p' = config p → health_ok p → health_ok p'.
Proof. unfold health_ok. intros [= _ _ _ _ E1 E2]. by rewrite E1, E2. Qed.

(** ** Operations on one pool *)
Lemma open_service_spec n l c :
  nt_clients n !! l = Some c →
  ∃ ret n' c', open_service n l = Ret (ret, n') ∧ nt_clients n' = <[l := c']> (nt_clients n) ∧
    tc_replica c' = tc_replica c ∧ (ret = 0 → tc_is_open c' = true).
Proof.
  intros E. unfold open_service. rewrite (load_Some _ _ _ E). cbn [obind]. destruct (tc_is_open c) eqn:Eo.
  { exists 0, n, c. by rewrite insert_id. }
  destruct (nt_opens n) as [|[|] os]; [|rewrite (store_Some _ _ _ _ E); cbn [obind]|].
  - exists (-1), n, c. by rewrite insert_id.
  - by eexists 0, _, (set_open true c).
  - eexists (-1), _, c. split; [done|]. cbn. by rewrite insert_id.
Qed.

Lemma close_service_spec n l c :
  nt_clients n !! l = Some c →
  ∃ ret n' c', close_service n l = Ret (ret, n') ∧ nt_clients n' = <[l := c']> (nt_clients n) ∧
    tc_replica c' = tc_replica c.
Proof.
  intros E. unfold close_service. rewrite (load_Some _ _ _ E). cbn [obind]. destruct (tc_is_open c); cbn [negb].
  - rewrite (store_Some _ _ _ _ E). cbn [obind]. by eexists 0, _, (set_open false c).
  - exists 0, n, c. by rewrite insert_id.
Qed.

Lemma alive_again (m : gmap loc ThriftClient) l c : is_Some (m !! l) → ∀ k, is_Some (m !! k) ↔ is_Some (<[l := c]> m !! k).
Proof. intros Hl k. rewrite lookup_insert_is_Some'. naive_solver. Qed.

Lemma borrow_inv n p nodes cs out :
  pool_inv n p nodes cs out →
  ∃ client n' p' nodes' cs', borrow n p = Ret (client, n', p') ∧
    pool_inv n' p' nodes' cs' (option_list client ++ out) ∧ config p' = config p ∧
    (∀ l, client = Some l → l ∈ cs ∧ ∃ c, nt_clients n' !! l = Some c ∧ tc_is_open c = true).
Proof.
  intros Hi. unfold borrow.
  destruct (acquire_inv n p nodes cs out Hi) as (client & p1 & nodes1 & cs1 & -> & Hi1 & Hc1 & _ & Ecs). cbn [obind].
  destruct client as [l|]; [|exists None, n, p1, nodes1, cs1; done].
  destruct (proj1 (pi_alive _ _ _ _ _ Hi1 l)) as [c E]; [set_solver|].
  destruct (open_service_spec n l c E) as (ret & n2 & c2 & -> & En2 & _ & Hopen). cbn [obind].
  assert (∀ n' c', nt_clients n' = <[l := c']> (nt_clients n2) → pool_inv n' p1 nodes1 cs1 (l :: out)) as Hi2.
  { intros n' c' En'. eapply (pool_inv_net n); [exact Hi1|done|]. intros k. rewrite En', En2, insert_insert_eq.
    apply alive_again. eauto. }
  assert (nt_clients n2 !! l = Some c2) as E2 by (rewrite En2; apply lookup_insert_eq).
  destruct (Z.eqb_spec ret 0) as [->|].
  - exists (Some l), n2, p1, nodes1, cs1. split; [done|]. split; [apply (Hi2 n2 c2); by rewrite insert_id|].
    split; [done|]. intros k [= <-]. split; [rewrite Ecs; cbn; set_solver|eauto].
  - destruct (open_service_spec n2 l c2 E2) as (ret3 & n3 & c3 & -> & En3 & _). cbn [obind].
    destruct (release_inv n3 p1 nodes1 cs1 [] l out) as (n4 & p4 & nodes4 & cs4 & -> & Hi4 & _ & Hc4); [by eapply Hi2|].
    cbn [obind]. exists None, n4, p4, nodes4, cs4. split; [done|]. split; [done|]. split; [congruence|done].
Qed.

Lemma retry_pool_inv now n p nodes cs out :
  pool_inv n p nodes cs out → 0 ≤ cp_conn_num p → health_ok p → cp_error_cnt p < 2 ^ 31 - 1 →
  ∃ n' p' nodes' cs', retry_pool now n p = Ret (n', p') ∧ pool_inv n' p' nodes' cs' out ∧
    cp_conn_num p' = cp_conn_num p ∧ health_ok p' ∧ cp_error_cnt p ≤ cp_error_cnt p' ≤ cp_error_cnt p + 1.
Proof.
  intros Hi Hn Hh He. unfold retry_pool.
  destruct (refresh_inv n p nodes cs out Hi Hn) as (n1 & p1 & nodes1 & cs1 & -> & Hi1 & Hc1 & _). cbn [obind].
  pose proof Hc1 as [= _ _ En _ Ee El]. destruct (0 <? Z.of_nat (length cs1)).
  { exists n1, p1, nodes1, cs1. split; [done|]. split; [done|]. split; [done|].
    split; [by apply (config_health p)|lia]. }
  destruct (report_error_spec now p1) as [s ->]; [destruct Hh; lia|]. cbn [obind].
  eexists n1, _, nodes1, cs1. split; [done|].
  split; [by eapply pool_inv_config; [exact Hi1|..]|]. split; [done|]. split; [|cbn; lia].
  split; cbn; [destruct Hh; lia|eauto].
Qed.

(** A visit of a pool that may be used. *)
Lemma visit_inv now n p nodes cs out (s : HealthyStatus) :
  pool_inv n p nodes cs out → 0 ≤ cp_conn_num p → health_ok p → cp_error_cnt p < 2 ^ 31 - 1 →
  ∃ n1 p1 client n' p' nodes' cs',
    (if bool_decide (s = NOT_HEALTHY_BUT_CAN_HAVEATRY) then retry_pool now n p else Ret (n, p)) = Ret (n1, p1) ∧
    borrow n1 p1 = Ret (client, n', p') ∧ pool_inv n' p' nodes' cs' (option_list client ++ out) ∧
    0 ≤ cp_conn_num p' ∧ health_ok p' ∧ cp_error_cnt p' ≤ cp_error_cnt p + 1 ∧
    (∀ l, client = Some l → ∃ c, nt_clients n' !! l = Some c ∧ tc_is_open c = true).
Proof.
  intros Hi Hn Hh He.
  assert (∃ n1 p1 nodes1 cs1,
    (if bool_decide (s = NOT_HEALTHY_BUT_CAN_HAVEATRY) then retry_pool now n p else Ret (n, p)) = Ret (n1, p1) ∧
    pool_inv n1 p1 nodes1 cs1 out ∧ 0 ≤ cp_conn_num p1 ∧ health_ok p1 ∧ cp_error_cnt p1 ≤ cp_error_cnt p + 1)
    as (n1 & p1 & nodes1 & cs1 & Hr & Hi1 & Hn1 & Hh1 & He1).
  { case_bool_decide; [|exists n, p, nodes, cs; split_and!; try done; lia].
    destruct (retry_pool_inv now n p nodes cs out Hi Hn Hh He) as (n1 & p1 & nodes1 & cs1 & Hr & Hi1 & Hn1 & Hh1 & He1).
    exists n1, p1, nodes1, cs1. split_and!; try done; lia. }
  destruct (borrow_inv n1 p1 nodes1 cs1 out Hi1) as (client & n' & p' & nodes' & cs' & Hb & Hi' & Hc & Ho).
  pose proof Hc as [= _ _ En _ Ee _].
  exists n1, p1, client, n', p', nodes', cs'. split_and!; try done; [lia|by apply (config_health p1)|lia|].
  intros l Hl. by destruct (Ho l Hl).
Qed.

(** What does not change about a replica. *)
Definition ident (r : ReplicaConnPool) := (rc_backend r, rc_replica_id r, rc_protocol r, rc_status r).

Lemma ident_set_pool (vec : list ReplicaConnPool) i r p :
  vec !! i = Some r → ident <$> <[i := rc_set_pool p r]> vec = ident <$> vec.
Proof. intros E. rewrite list_fmap_insert. apply list_insert_id. by rewrite list_lookup_fmap, E. Qed.

Lemma errors_below_weaken k k' vec : (k' ≤ k)%nat → errors_below k vec → errors_below k' vec.
Proof. intros Hk Hv. eapply Forall_impl; [exact Hv|]. cbn. lia. Qed.

Lemma errors_below_insert k vec i p r :
  errors_below k vec → cp_error_cnt p + Z.of_nat k < 2 ^ 31 → errors_below k (<[i := rc_set_pool p r]> vec).
Proof. intros Hv Hp. by apply Forall_insert. Qed.

(** What the calls on a client of the service leave as it is. *)
Definition kept (c c' : PooledClientImpl) : Prop :=
  ident <$> pc_vec c' = ident <$> pc_vec c ∧ pc_map c' = pc_map c ∧ pc_num_clients c' = pc_num_clients c ∧
  pc_path c' = pc_path c.

Lemma kept_refl c : kept c c.
Proof. done. Qed.
Lemma kept_trans c1 c2 c3 : kept c1 c2 → kept c2 c3 → kept c1 c3.
Proof. unfold kept. intros (-> & -> & -> & ->) (-> & -> & -> & ->). done. Qed.
Lemma kept_cur c k : kept c (pc_set_cur k c).
Proof. done. Qed.
Lemma kept_length c c' : kept c c' → length (pc_vec c') = length (pc_vec c).
Proof. intros [E _]. apply (f_equal length) in E. by rewrite !length_fmap in E. Qed.

(** Back from one pool to the service. *)
Lemma set_pool_inv k n n' c css out out' i r cs p nodes cs' :
  service_inv n (pc_vec c) css out → errors_below k (pc_vec c) →
  pc_vec c !! Z.to_nat i = Some r → css !! Z.to_nat i = Some cs →
  pool_inv n' p nodes cs' (mjoin (delete (Z.to_nat i) css) ++ out') →
  0 ≤ cp_conn_num p → health_ok p → cp_error_cnt p + Z.of_nat k < 2 ^ 31 →
  ∃ css', service_inv n' (pc_vec (set_pool_at i p r c)) css' out' ∧ kept c (set_pool_at i p r c) ∧
    errors_below k (pc_vec (set_pool_at i p r c)).
Proof.
  intros Hs He Er Ecs Hi Hn Hh Hk. exists (<[Z.to_nat i := cs']> css).
  split; [by eapply (service_unfocus n)|]. split; [|by apply errors_below_insert].
  split; [by apply ident_set_pool|done].
Qed.

Lemma replica_at_Some vec i r : 0 ≤ i → vec !! Z.to_nat i = Some r → replica_at vec i = Ret r.
Proof. intros Hi E. unfold replica_at. destruct (Z.ltb_spec i 0); [lia|]. by rewrite E. Qed.

Lemma acquire_loop_inv k i now n c css out :
  service_inv n (pc_vec c) css out → errors_below (i + k) (pc_vec c) → (i ≠ O → pc_vec c ≠ []) →
  ∃ client n' c' css', acquire_loop i now n c = Ret (client, n', c') ∧
    service_inv n' (pc_vec c') css' (option_list client ++ out) ∧ kept c c' ∧ errors_below k (pc_vec c') ∧
    (∀ l, client = Some l → ∃ tc, nt_clients n' !! l = Some tc ∧ tc_is_open tc = true).
Proof.
  revert n c css out. induction i as [|i IH]; intros n c css out Hs He Hne; cbn [acquire_loop].
  { exists None, n, c, css. done. }
  specialize (Hne ltac:(done)). set (idx := u64 (pc_cur c) mod _). set (c1 := pc_set_cur _ c).
  assert (0 < Z.of_nat (length (pc_vec c))) as Hlen by (destruct (pc_vec c); [done|cbn; lia]).
  assert (0 ≤ idx < Z.of_nat (length (pc_vec c))) as Hidx by (apply Z.mod_pos_bound; lia).
  destruct (lookup_lt_is_Some_2 (pc_vec c) (Z.to_nat idx)) as [r Er]; [lia|].
  rewrite (replica_at_Some _ _ r) by (done || lia). cbn [obind].
  assert (errors_below (i + k) (pc_vec c1)) as He' by (eapply errors_below_weaken; [|exact He]; lia).
  assert (∃ client n' c' css', acquire_loop i now n c1 = Ret (client, n', c') ∧
    service_inv n' (pc_vec c') css' (option_list client ++ out) ∧ kept c c' ∧ errors_below k (pc_vec c') ∧
    (∀ l, client = Some l → ∃ tc, nt_clients n' !! l = Some tc ∧ tc_is_open tc = true)) as Hskip
    by (by apply (IH n c1 css out)).
  destruct (rc_status r =? 0); [exact Hskip|].
  destruct (service_focus n (pc_vec c) css out _ r Hs Er) as (cs & nodes & Ecs & Hi & Hn & Hh).
  destruct (is_healthy_total now (rc_pool r)) as [s ->]; [apply Hh|]. cbn [obind].
  pose proof (proj1 (Forall_lookup _ _) He _ _ Er) as Her.
  destruct (visit_inv now n (rc_pool r) nodes cs _ s Hi Hn Hh)
    as (n1 & p1 & client & n' & p' & nodes' & cs' & Hr1 & Hb & Hi' & Hn' & Hh' & He1 & Ho); [cbn in Her; lia|].
  destruct (set_pool_inv (i + k) n n' c1 css out (option_list client ++ out) idx r cs p' nodes' cs') as (css2 & Hs2 & Hk2 & He2);
    try done; [|cbn in Her; lia|].
  { eapply pool_inv_net; [exact Hi'| |done]. by rewrite !app_assoc, (Permutation_app_comm (mjoin _)). }
  assert (∃ client0 n'' c'' css'', match client with Some l => Ret (Some l, n', set_pool_at idx p' r c1)
      | None => acquire_loop i now n' (set_pool_at idx p' r c1) end = Ret (client0, n'', c'') ∧
    service_inv n'' (pc_vec c'') css'' (option_list client0 ++ out) ∧ kept c c'' ∧ errors_below k (pc_vec c'') ∧
    (∀ l, client0 = Some l → ∃ tc, nt_clients n'' !! l = Some tc ∧ tc_is_open tc = true)) as Hvisit.
  { destruct client as [l|].
    - eexists _, _, _, css2. split; [done|]. split; [exact Hs2|]. split; [exact Hk2|].
      split; [eapply errors_below_weaken; [|exact He2]; lia|done].
    - destruct (IH n' (set_pool_at idx p' r c1) css2 out Hs2 He2) as (cl & n2 & c2 & css3 & Hrun & H1 & H2 & H3).
      + intros _ E0. pose proof (kept_length _ _ Hk2) as E1. rewrite E0 in E1. change (pc_vec c1) with (pc_vec c) in E1. cbn in E1. lia.
      + exists cl, n2, c2, css3. split; [done|]. split; [done|]. split; [by eapply kept_trans|done]. }
  destruct s; try exact Hskip; rewrite Hr1; cbn [obind]; rewrite Hb; cbn [obind]; exact Hvisit.
Qed.

Lemma acquire_inv_service k now n c css out :
  service_inv n (pc_vec c) css out → errors_below (length (pc_vec c) + k) (pc_vec c) →
  ∃ client n' c' css', acquire_thrift_client now n c = Ret (client, n', c') ∧
    service_inv n' (pc_vec c') css' (option_list client ++ out) ∧ kept c c' ∧ errors_below k (pc_vec c') ∧
    (∀ l, client = Some l → ∃ tc, nt_clients n' !! l = Some tc ∧ tc_is_open tc = true).
Proof. intros Hs He. apply (acquire_loop_inv k _ now n c css out Hs He). intros Hl Hv. by rewrite Hv in Hl. Qed.

Lemma acquire_by_id_inv k now n c css out id :
  service_inv n (pc_vec c) css out → errors_below (S k) (pc_vec c) →
  (∀ i, pc_map c !! id = Some i → 0 ≤ i < Z.of_nat (length (pc_vec c))) →
  ∃ client n' c' css', acquire_thrift_client_by_id now n c id = Ret (client, n', c') ∧
    service_inv n' (pc_vec c') css' (option_list client ++ out) ∧ kept c c' ∧ errors_below k (pc_vec c') ∧
    (∀ l, client = Some l → ∃ tc, nt_clients n' !! l = Some tc ∧ tc_is_open tc = true).
Proof.
  intros Hs He Hmap. unfold acquire_thrift_client_by_id.
  assert (errors_below k (pc_vec c)) as He' by (eapply errors_below_weaken; [|exact He]; lia).
  assert (∃ client n' c' css', Ret (None, n, c) = Ret (client, n', c') ∧
    service_inv n' (pc_vec c') css' (option_list client ++ out) ∧ kept c c' ∧ errors_below k (pc_vec c') ∧
    (∀ l, client = Some l → ∃ tc, nt_clients n' !! l = Some tc ∧ tc_is_open tc = true)) as Hnone
    by (by exists None, n, c, css).
  destruct (pc_map c !! id) as [i|]; [|exact Hnone]. destruct (Hmap i eq_refl) as [Hi0 Hlt].
  destruct (lookup_lt_is_Some_2 (pc_vec c) (Z.to_nat i)) as [r Er]; [lia|].
  rewrite (replica_at_Some _ _ r) by done. cbn [obind]. destruct (_ && _); [|exact Hnone].
  destruct (service_focus _ _ _ _ _ r Hs Er) as (cs & nodes & Ecs & Hi & Hn & Hh).
  pose proof (proj1 (Forall_lookup _ _) He _ _ Er) as Her. cbn in Her.
  destruct (is_healthy_total now (rc_pool r)) as [s ->]; [apply Hh|]. cbn [obind].
  assert (∃ s' n1 p1 nodes1 cs1,
    (if bool_decide (s = NOT_HEALTHY_BUT_CAN_HAVEATRY) then
       let* (n, p) := retry_pool now n (rc_pool r) in let* s := is_healthy now p in Ret (s, n, p)
     else Ret (s, n, rc_pool r)) = Ret (s', n1, p1) ∧
    pool_inv n1 p1 nodes1 cs1 (mjoin (delete (Z.to_nat i) css) ++ out) ∧ 0 ≤ cp_conn_num p1 ∧ health_ok p1 ∧
    cp_error_cnt p1 ≤ cp_error_cnt (rc_pool r) + 1) as (s' & n1 & p1 & nodes1 & cs1 & -> & Hi1 & Hn1 & Hh1 & He1).
  { case_bool_decide; [|exists s, n, (rc_pool r), nodes, cs; split_and!; try done; lia].
    destruct (retry_pool_inv now n (rc_pool r) nodes cs _ Hi Hn Hh) as (n1 & p1 & nodes1 & cs1 & -> & Hi1 & Hn1 & Hh1 & He1); [lia|].
    cbn [obind]. destruct (is_healthy_total now p1) as [s' ->]; [apply Hh1|]. cbn [obind].
    exists s', n1, p1, nodes1, cs1. split_and!; try done; lia. }
  cbn [obind]. case_bool_decide.
  - destruct (borrow_inv n1 p1 nodes1 cs1 _ Hi1) as (client & n' & p' & nodes' & cs' & -> & Hi' & Hc & Ho). cbn [obind].
    pose proof Hc as [= _ _ En _ Ee _].
    destruct (set_pool_inv k n n' c css out (option_list client ++ out) i r cs p' nodes' cs') as (css2 & H1 & H2 & H3); try done;
      [|lia|by apply (config_health p1)|lia|].
    { eapply pool_inv_net; [exact Hi'| |done]. by rewrite !app_assoc, (Permutation_app_comm (mjoin _)). }
    eexists client, n', _, css2. split_and!; try done. intros l Hl. by destruct (Ho l Hl).
  - destruct (set_pool_inv k n n1 c css out out i r cs p1 nodes1 cs1) as (css2 & H1 & H2 & H3); try done; [lia|].
    by eexists None, n1, _, css2.
Qed.

Lemma find_replica_spec vec rep i j :
  find_replica vec rep i = Some j →
  ∃ r, vec !! Z.to_nat (j - i) = Some r ∧ rc_backend r = rep ∧ i ≤ j.
Proof.
  revert i. induction vec as [|r vec IH]; intros i; cbn [find_replica]; [done|]. case_bool_decide as Hr.
  - intros [= <-]. exists r. rewrite Z.sub_diag. split; [done|]. split; [done|lia].
  - intros (r' & E & Hb & Hle)%IH. exists r'. split; [|split; [done|lia]].
    replace (Z.to_nat (j - i)) with (S (Z.to_nat (j - (i + 1)))) by lia. done.
Qed.

Lemma find_replica_at vec r rest i :
  rc_backend r ∉ rc_backend <$> vec → find_replica (vec ++ r :: rest) (rc_backend r) i = Some (i + Z.of_nat (length vec)).
Proof.
  revert i. induction vec as [|r1 vec IH]; intros i Hb; cbn [app find_replica].
  - rewrite bool_decide_eq_true_2 by done. cbn. f_equal. lia.
  - cbn in Hb. rewrite bool_decide_eq_false_2 by set_solver. rewrite IH by set_solver. cbn [length]. f_equal. lia.
Qed.

Lemma delete_borrowed n vec css out1 l out2 :
  service_inv n vec css (out1 ++ l :: out2) →
  ∃ n', delete_client n l = Ret n' ∧ service_inv n' vec css (out1 ++ out2).
Proof.
  intros [Hp Hd Ha]. destruct (proj1 (Ha l)) as [tc Etc]; [set_solver|]. rewrite (delete_client_spec _ _ _ Etc).
  rewrite take_out in Hd. apply NoDup_cons in Hd as [Hl Hd]. eexists. split; [done|]. split; [done..|].
  eapply alive_delete; [exact Ha|done|apply take_out].
Qed.

(** The statements of a release that look the vector up, and those after which the
    client is no longer in the hands of the caller. *)
Definition uses_vec (st : release_stage) : bool :=
  match st with Rel_reopen | Rel_delete => false | _ => true end.
Definition hands_over (st : release_stage) : bool :=
  match st with Rel_back | Rel_delete => true | _ => false end.

Lemma clear_error_spec now p :
  health_ok p → ∃ p', clear_error now p = Ret p' ∧ health_ok p' ∧ 0 ≤ cp_error_cnt p' ≤ cp_error_cnt p ∧
    cp_conn_num p' = cp_conn_num p ∧ ∀ n nodes cs out, pool_inv n p nodes cs out → pool_inv n p' nodes cs out.
Proof.
  intros Hh. destruct (is_healthy_total now p) as [s Es]; [apply Hh|]. unfold clear_error. rewrite Es. cbn [obind].
  destruct Hh as [H0 H1]. case_bool_decide; eexists; (split; [done|]).
  - split_and!; try done; lia.
  - cbn. split; [split; cbn; [lia|done]|]. split; [lia|]. split; [done|]. intros n nodes cs out Hi.
    by eapply pool_inv_config; [exact Hi|..].
Qed.

Lemma reopen_inv n vec css out l :
  service_inv n vec css out → l ∈ out →
  ∃ ret1 n1 ret2 n2, close_service n l = Ret (ret1, n1) ∧ open_service n1 l = Ret (ret2, n2) ∧ service_inv n2 vec css out.
Proof.
  intros [Hp Hd Ha] Hl. destruct (proj1 (Ha l)) as [tc Etc]; [set_solver|].
  destruct (close_service_spec n l tc Etc) as (ret1 & n1 & tc1 & E1 & En1 & _).
  destruct (open_service_spec n1 l tc1) as (ret2 & n2 & tc2 & E2 & En2 & _); [rewrite En1; apply lookup_insert_eq|].
  exists ret1, n1, ret2, n2. split; [done|]. split; [done|]. split; [done..|].
  rewrite En2, En1, insert_insert_eq. eapply alive_update; [exact Ha|set_solver].
Qed.

(** One statement of a release. *)
Lemma release_stage_inv k now n c css out1 l out2 i st :
  service_inv n (pc_vec c) css (out1 ++ l :: out2) → errors_below (S k) (pc_vec c) → 0 ≤ i →
  (uses_vec st = true → i < Z.of_nat (length (pc_vec c))) →
  ∃ n' c' css', release_stage_step now n c i l st = Ret (n', c') ∧
    service_inv n' (pc_vec c') css' (if hands_over st then out1 ++ out2 else out1 ++ l :: out2) ∧ kept c c' ∧
    errors_below k (pc_vec c').
Proof.
  intros Hs He Hi0 Hlt. assert (errors_below k (pc_vec c)) as He' by (eapply errors_below_weaken; [|exact He]; lia).
  assert (uses_vec st = true → ∃ r cs nodes, replica_at (pc_vec c) i = Ret r ∧ pc_vec c !! Z.to_nat i = Some r ∧
    css !! Z.to_nat i = Some cs ∧ pool_inv n (rc_pool r) nodes cs (mjoin (delete (Z.to_nat i) css) ++ out1 ++ l :: out2) ∧
    0 ≤ cp_conn_num (rc_pool r) ∧ health_ok (rc_pool r) ∧ cp_error_cnt (rc_pool r) + Z.of_nat (S k) < 2 ^ 31) as Hpool.
  { intros Hu. specialize (Hlt Hu). destruct (lookup_lt_is_Some_2 (pc_vec c) (Z.to_nat i)) as [r Er]; [lia|].
    destruct (service_focus _ _ _ _ _ r Hs Er) as (cs & nodes & Ecs & Hi & Hn & Hh).
    exists r, cs, nodes. split_and!; try done; [by apply replica_at_Some|]. apply (proj1 (Forall_lookup _ _) He _ _ Er). }
  destruct st; cbn [release_stage_step hands_over].
  - destruct Hpool as (r & cs & nodes & -> & Er & Ecs & Hi & Hn & Hh & Her); [done|]. cbn [obind].
    destruct (clear_error_spec now _ Hh) as (p' & -> & Hh' & Hle & Hn' & Hi'). cbn [obind].
    destruct (set_pool_inv k n n c css (out1 ++ l :: out2) (out1 ++ l :: out2) i r cs p' nodes cs) as (css2 & H); [by eauto..|lia|done|lia|].
    by eexists n, _, css2.
  - destruct Hpool as (r & cs & nodes & -> & Er & Ecs & Hi & Hn & Hh & Her); [done|]. cbn [obind].
    destruct (report_error_spec now (rc_pool r)) as [s ->]; [destruct Hh; lia|]. cbn [obind].
    destruct (set_pool_inv k n n c css (out1 ++ l :: out2) (out1 ++ l :: out2) i r cs
      (cp_set_error (cp_error_cnt (rc_pool r) + 1) (Some now) (rc_pool r)) nodes cs) as (css2 & H);
      [done..|by eapply pool_inv_config; [exact Hi|..]|done|split; cbn; [destruct Hh; lia|eauto]|cbn; lia|].
    by eexists n, _, css2.
  - destruct (reopen_inv n _ css _ l Hs) as (r1 & n1 & r2 & n2 & -> & E2 & Hs2); [set_solver|]. cbn [obind]. rewrite E2.
    cbn [obind]. by exists n2, c, css.
  - destruct Hpool as (r & cs & nodes & -> & Er & Ecs & Hi & Hn & Hh & Her); [done|]. cbn [obind]. rewrite app_assoc in Hi.
    destruct (release_inv n (rc_pool r) nodes cs _ l out2 Hi) as (n2 & p2 & nodes2 & cs2 & -> & Hi2 & _ & Hc2). cbn [obind].
    pose proof Hc2 as [= _ _ En _ Ee _]. rewrite <-app_assoc in Hi2.
    destruct (set_pool_inv k n n2 c css (out1 ++ l :: out2) (out1 ++ out2) i r cs p2 nodes2 cs2) as (css2 & H);
      [done..|lia|by apply (config_health (rc_pool r))|lia|].
    by eexists n2, _, css2.
  - destruct (delete_borrowed _ _ _ _ _ _ Hs) as (n' & -> & Hs'). cbn [obind]. by exists n', c, css.
Qed.

(** All statements of a release, with nothing in between. *)
Lemma release_at_inv k now n c css out1 l out2 i error :
  service_inv n (pc_vec c) css (out1 ++ l :: out2) → errors_below (S (S k)) (pc_vec c) →
  0 ≤ i < Z.of_nat (length (pc_vec c)) →
  ∃ n' c' css', release_at now n c i l error = Ret (n', c') ∧
    service_inv n' (pc_vec c') css' (out1 ++ out2) ∧ kept c c' ∧ errors_below k (pc_vec c').
Proof.
  intros Hs He Hi.
  assert (∀ st st', release_stages error = [st; st'] → hands_over st = false → hands_over st' = true →
    ∃ n' c' css', release_at now n c i l error = Ret (n', c') ∧
      service_inv n' (pc_vec c') css' (out1 ++ out2) ∧ kept c c' ∧ errors_below k (pc_vec c')) as Htwo.
  { intros st st' E Ho Ho'. unfold release_at. rewrite E. cbn [run_stages].
    destruct (release_stage_inv (S k) now n c css out1 l out2 i st Hs He) as (n1 & c1 & css1 & -> & Hs1 & Hk1 & He1); [lia..|].
    rewrite Ho in Hs1. cbn [obind].
    destruct (release_stage_inv k now n1 c1 css1 out1 l out2 i st' Hs1 He1) as (n2 & c2 & css2 & -> & Hs2 & Hk2 & He2);
      [lia|rewrite (kept_length _ _ Hk1); lia|].
    rewrite Ho' in Hs2. cbn [obind]. exists n2, c2, css2. split_and!; try done. by eapply kept_trans. }
  destruct error; by eapply Htwo.
Qed.

Lemma find_replica_bound vec rep j : find_replica vec rep 0 = Some j → 0 ≤ j < Z.of_nat (length vec).
Proof. intros (r & E%lookup_lt_Some & _ & Hj)%find_replica_spec. lia. Qed.

Lemma release_thrift_client_inv k now n c css out1 l out2 error :
  service_inv n (pc_vec c) css (out1 ++ l :: out2) → errors_below (S (S k)) (pc_vec c) →
  ∃ b n' c' css', release_thrift_client now n c (Some l) error = Ret (b, n', c') ∧
    service_inv n' (pc_vec c') css' (out1 ++ out2) ∧ kept c c' ∧ errors_below k (pc_vec c').
Proof.
  intros Hs He. unfold release_thrift_client. destruct (proj1 (si_alive _ _ _ _ Hs l)) as [tc Etc]; [set_solver|].
  rewrite (load_Some _ _ _ Etc). cbn [obind]. destruct (find_replica _ _ 0) as [i|] eqn:Ef.
  - apply find_replica_bound in Ef.
    destruct (release_at_inv k now n c css out1 l out2 i error Hs He Ef) as (n' & c' & css' & -> & H).
    cbn [obind]. by exists true, n', c', css'.
  - destruct (delete_borrowed _ _ _ _ _ _ Hs) as (n' & -> & Hs'). cbn [obind]. exists false, n', c, css.
    split_and!; try done. eapply errors_below_weaken; [|exact He]. lia.
Qed.

Lemma release_by_id_inv k now n c css out1 l out2 id error :
  service_inv n (pc_vec c) css (out1 ++ l :: out2) → errors_below k (pc_vec c) →
  (∀ i, pc_map c !! id = Some i → 0 ≤ i < Z.of_nat (length (pc_vec c))) →
  ∃ b n' c' css', release_thrift_client_by_id now n c id (Some l) error = Ret (b, n', c') ∧
    service_inv n' (pc_vec c') css' (out1 ++ out2) ∧ kept c c' ∧ errors_below k (pc_vec c').
Proof.
  intros Hs He Hmap. unfold release_thrift_client_by_id.
  destruct (proj1 (si_alive _ _ _ _ Hs l)) as [tc Etc]; [set_solver|]. rewrite (load_Some _ _ _ Etc). cbn [obind].
  assert (∃ b n' c' css', (let* n := delete_client n l in Ret (false, n, c)) = Ret (b, n', c') ∧
    service_inv n' (pc_vec c') css' (out1 ++ out2) ∧ kept c c' ∧ errors_below k (pc_vec c')) as Hdrop.
  { destruct (delete_borrowed _ _ _ _ _ _ Hs) as (n' & -> & Hs'). cbn [obind]. by exists false, n', c, css. }
  destruct (pc_map c !! id) as [i|]; [|exact Hdrop]. destruct (Hmap i eq_refl) as [Hi0 Hlt].
  destruct (lookup_lt_is_Some_2 (pc_vec c) (Z.to_nat i)) as [r Er]; [lia|].
  rewrite (replica_at_Some _ _ r) by done. cbn [obind]. destruct (_ && _); [|exact Hdrop].
  pose proof (proj1 (Forall_lookup _ _) He _ _ Er) as Her. cbn in Her.
  assert (∀ n1 p1, service_inv n1 (pc_vec c) css (out1 ++ l :: out2) →
    (∀ nodes cs out, pool_inv n1 (rc_pool r) nodes cs out → pool_inv n1 p1 nodes cs out) →
    cp_conn_num p1 = cp_conn_num (rc_pool r) → health_ok p1 → cp_error_cnt p1 ≤ cp_error_cnt (rc_pool r) →
    ∃ b n' c' css', (let* (n, p) := release_client n1 p1 l in Ret (true, n, set_pool_at i p r c)) = Ret (b, n', c') ∧
      service_inv n' (pc_vec c') css' (out1 ++ out2) ∧ kept c c' ∧ errors_below k (pc_vec c')) as Hback.
  { intros n1 p1 Hs1 Hp1 Hn1 Hh1 He1. destruct (service_focus _ _ _ _ _ r Hs1 Er) as (cs & nodes & Ecs & Hi & Hn & Hh).
    apply Hp1 in Hi. rewrite app_assoc in Hi.
    destruct (release_inv n1 p1 nodes cs _ l out2 Hi) as (n2 & p2 & nodes2 & cs2 & -> & Hi2 & _ & Hc2). cbn [obind].
    pose proof Hc2 as [= _ _ En _ Ee _]. rewrite <-app_assoc in Hi2.
    destruct (set_pool_inv k n1 n2 c css (out1 ++ l :: out2) (out1 ++ out2) i r cs p2 nodes2 cs2) as (css2 & H);
      [done..|lia|by apply (config_health p1)|lia|].
    by eexists true, n2, _, css2. }
  destruct (service_focus _ _ _ _ _ r Hs Er) as (cs & nodes & Ecs & Hi & Hn & Hh).
  assert (∃ b n' c' css', (let* (n, p) := (let* (_, n) := close_service n l in let* (_, n) := open_service n l in
      release_client n (rc_pool r) l) in Ret (true, n, set_pool_at i p r c)) = Ret (b, n', c') ∧
    service_inv n' (pc_vec c') css' (out1 ++ out2) ∧ kept c c' ∧ errors_below k (pc_vec c')) as Hre.
  { destruct (reopen_inv n _ css _ l Hs) as (r1 & n1 & r2 & n2 & -> & E2 & Hs2); [set_solver|]. cbn [obind]. rewrite E2.
    cbn [obind]. by apply Hback. }
  destruct error; [|exact Hre..].
  destruct (clear_error_spec now _ Hh) as (p' & -> & Hh' & Hle & Hn' & Hi'). cbn [obind]. apply Hback; [done|by eauto|done|done|lia].
Qed.

(** ** Updates *)
Lemma service_uncons n r vec cs css out :
  service_inv n (r :: vec) (cs :: css) out →
  service_inv n vec css (cs ++ out) ∧ 0 ≤ cp_conn_num (rc_pool r) ∧ health_ok (rc_pool r) ∧
  ∃ nodes, pool_inv n (rc_pool r) nodes cs (mjoin css ++ out).
Proof.
  intros Hs. pose proof Hs as [Hp Hd Ha]. apply Forall2_cons in Hp as [((nodes & Hr) & Hn & Hb & Hh) Hp].
  cbn in Hd. assert (mjoin css ++ cs ++ out ≡ₚ (cs ++ mjoin css) ++ out) as Hperm
    by (by rewrite app_assoc, (Permutation_app_comm (mjoin css))).
  split; [|split; [done|split; [done|exists nodes]]].
  - split; [done|by rewrite Hperm|by eapply alive_perm].
  - split; [done|by rewrite app_assoc| |done]. eapply alive_perm; [exact Ha|by rewrite app_assoc].
Qed.

Lemma service_cons n r vec cs css out nodes :
  service_inv n vec css (cs ++ out) → pool_rep (rc_pool r) nodes cs → 0 ≤ cp_conn_num (rc_pool r) →
  Z.of_nat (length cs) ≤ cp_conn_num (rc_pool r) + 1 → health_ok (rc_pool r) →
  service_inv n (r :: vec) (cs :: css) out.
Proof.
  intros [Hp Hd Ha] Hr Hn Hb Hh.
  assert (mjoin css ++ cs ++ out ≡ₚ mjoin (cs :: css) ++ out) as Hperm
    by (cbn; by rewrite app_assoc, (Permutation_app_comm (mjoin css))).
  split; [constructor; [eauto|done]|by rewrite <-Hperm|by eapply alive_perm].
Qed.

(** Destroying the first pool. *)
Lemma service_destroy n r vec cs css out :
  service_inv n (r :: vec) (cs :: css) out →
  ∃ n' p', clear n (rc_pool r) = Ret (n', p') ∧ service_inv n' vec css out ∧ nt_opens n' = nt_opens n.
Proof.
  intros (Hs & _ & _ & nodes & Hi)%service_uncons.
  destruct (clear_inv _ _ _ _ _ Hi) as (n' & p' & nodes' & -> & [_ Hd' Ha' _] & _ & Ho & _).
  exists n', p'. split; [done|]. split; [|done]. split; [apply Hs|done|done].
Qed.

Lemma destroy_pools_inv n vec css out :
  service_inv n vec css out → ∃ n', destroy_pools n vec = Ret n' ∧ service_inv n' [] [] out.
Proof.
  revert n css. induction vec as [|r vec IH]; intros n css Hs; cbn [destroy_pools].
  { pose proof (si_pools _ _ _ _ Hs) as Hp. apply Forall2_nil_inv_l in Hp as ->. eauto. }
  pose proof (si_pools _ _ _ _ Hs) as Hp. apply Forall2_cons_inv_l in Hp as (cs & css' & _ & _ & ->).
  destruct (service_destroy _ _ _ _ _ _ Hs) as (n' & p' & -> & Hs' & _). cbn [obind]. by eapply IH.
Qed.

(** Erasing keeps the other pools and their entries of the map as they are. *)
Lemma erase_missing_inv riv n vec css map out :
  service_inv n vec css out →
  ∃ n' map' css', erase_missing riv n vec map =
      Ret (n', filter (λ r, existsb (same_replica r) riv = true) vec, map') ∧
    service_inv n' (filter (λ r, existsb (same_replica r) riv = true) vec) css' out ∧
    (∀ id, Forall (λ r, existsb (same_replica r) riv = true ∨ rc_replica_id r ≠ id) vec → map' !! id = map !! id) ∧
    map' ⊆ map ∧ nt_opens n' = nt_opens n.
Proof.
  revert n css map out. induction vec as [|r vec IH]; intros n css map out Hs; cbn [erase_missing].
  { exists n, map, css. done. }
  pose proof (si_pools _ _ _ _ Hs) as Hp. apply Forall2_cons_inv_l in Hp as (cs & css' & _ & _ & ->).
  rewrite filter_cons. destruct (existsb (same_replica r) riv) eqn:Ex.
  - rewrite decide_True by done. destruct (service_uncons _ _ _ _ _ _ Hs) as (Hs' & Hn & Hh & nodes & [Hr _ _ Hb]).
    destruct (IH n css' map _ Hs') as (n' & map' & css2 & -> & Hs2 & Hm & Hrest). cbn [obind].
    exists n', map', (cs :: css2). split; [done|]. split; [by eapply service_cons|]. split; [|done].
    intros id [_ Hid]%Forall_cons. by apply Hm.
  - rewrite decide_False by done. destruct (service_destroy _ _ _ _ _ _ Hs) as (n' & p' & -> & Hs' & Ho'). cbn [obind].
    destruct (IH n' css' (delete (rc_replica_id r) map) _ Hs') as (n2 & map' & css2 & -> & Hs2 & Hm & Hsub & Ho2).
    exists n2, map', css2. split; [done|]. split; [done|]. split; [|split; [|congruence]].
    + intros id [Hid1 Hid]%Forall_cons. rewrite Hm by done. apply lookup_delete_ne. destruct Hid1; congruence.
    + etrans; [exact Hsub|apply delete_subseteq].
Qed.

Lemma erase_server_inv i n vec css map out :
  service_inv n vec css out →
  ∃ n' vec' map' css', erase_server i n vec map = Ret (n', vec', map') ∧ service_inv n' vec' css' out ∧
    vec' `sublist_of` vec ∧ map' ⊆ map.
Proof.
  revert n css map out. induction vec as [|r vec IH]; intros n css map out Hs; cbn [erase_server].
  { exists n, [], map, css. done. }
  pose proof (si_pools _ _ _ _ Hs) as Hp. apply Forall2_cons_inv_l in Hp as (cs & css' & _ & _ & ->).
  destruct (same_server r i).
  - destruct (service_destroy _ _ _ _ _ _ Hs) as (n' & p' & -> & Hs' & _). cbn [obind].
    eexists n', vec, _, css'. split; [done|]. split; [done|]. split; [by constructor|apply delete_subseteq].
  - destruct (service_uncons _ _ _ _ _ _ Hs) as (Hs' & Hn & Hh & nodes & [Hr _ _ Hb]).
    destruct (IH n css' map _ Hs') as (n' & vec' & map' & css2 & -> & Hs2 & Hsub & Hmap). cbn [obind].
    exists n', (r :: vec'), map', (cs :: css2). split; [done|]. split; [by eapply service_cons|]. split; [by constructor|done].
Qed.

(** What the registry knows of a pool. *)
Definition info_of (r : ReplicaConnPool) : ReplicaInfo :=
  mkInfo (rc_backend r).1 (rc_backend r).2 (rc_replica_id r) (rc_protocol r) (rc_status r).
Definition same_info (j i : ReplicaInfo) : bool :=
  bool_decide ((ri_host j, ri_port j) = (ri_host i, ri_port i)) && bool_decide (ri_protocol j = ri_protocol i) &&
  (ri_status j =? ri_status i).

Lemma same_replica_info r i : same_replica r i = same_info (info_of r) i.
Proof. unfold same_replica, same_server, same_info. cbn. by destruct (rc_backend r). Qed.

Lemma existsb_info vec i : existsb (λ r, same_replica r i) vec = existsb (λ j, same_info j i) (info_of <$> vec).
Proof. induction vec as [|r vec IH]; cbn; [done|]. by rewrite IH, same_replica_info. Qed.

(** The replicas of [riv] that get a pool when those of [have] have one.  For every other
    one [num] connections are tried, the answers of the network being [opens], and the
    pool is kept if one of them succeeds. *)
Fixpoint new_replicas (num : nat) (opens : list bool) (have riv : list ReplicaInfo) : list ReplicaInfo :=
  match riv with
  | [] => []
  | i :: riv =>
      if existsb (λ j, same_info j i) have then new_replicas num opens have riv
      else if (0 <? successes num opens)%nat then i :: new_replicas num (drop num opens) (have ++ [i]) riv
      else new_replicas num (drop num opens) have riv
  end.

Lemma same_info_refl i : same_info i i = true.
Proof. unfold same_info. rewrite !bool_decide_eq_true_2, Z.eqb_refl by done. done. Qed.

(** On a network on which every replica answers one of the attempts at least, all get
    their pool. *)
Lemma new_replicas_all num riv : ∀ opens have,
  (∀ k, (k < length riv)%nat → (0 < successes num (drop (k * num) opens))%nat) →
  Forall (λ i, existsb (λ j, same_info j i) (have ++ new_replicas num opens have riv) = true) riv.
Proof.
  assert (∀ have l i, existsb (λ j, same_info j i) have = true → existsb (λ j, same_info j i) (have ++ l) = true) as Hin
    by (intros have l i Hi; by rewrite existsb_app, Hi).
  induction riv as [|i riv IH]; intros opens have Hs; cbn [new_replicas]; [constructor|].
  assert (∀ have', Forall (λ i, existsb (λ j, same_info j i) (have' ++ new_replicas num (drop num opens) have' riv) = true) riv) as IH'.
  { intros have'. apply IH. intros k Hk. rewrite drop_drop. specialize (Hs (S k) ltac:(cbn; lia)).
    by replace (num + k * num)%nat with (S k * num)%nat by lia. }
  destruct (existsb _ have) eqn:Ei.
  - constructor; [by apply Hin|]. destruct (decide (num = 0)%nat) as [->|Hn].
    + apply IH. intros k Hk. rewrite Nat.mul_0_r. specialize (Hs 0%nat ltac:(cbn; lia)). done.
    + apply IH. intros k Hk. apply Hs. cbn. lia.
  - specialize (Hs 0%nat ltac:(cbn; lia)). cbn in Hs. destruct (Nat.ltb_spec 0 (successes num opens)); [|rewrite drop_0 in Hs; lia].
    specialize (IH' (have ++ [i])). rewrite <-app_assoc in IH'. cbn in IH'. constructor; [|exact IH'].
    rewrite existsb_app. cbn. by rewrite same_info_refl, orb_true_r.
Qed.

Lemma add_replica_inv n c css out i :
  service_inv n (pc_vec c) css out → 0 ≤ pc_num_clients c →
  ∃ n' c' css', add_replica n c i = Ret (n', c') ∧ service_inv n' (pc_vec c') css' out ∧
    pc_num_clients c' = pc_num_clients c ∧ nt_opens n' = drop (Z.to_nat (pc_num_clients c)) (nt_opens n) ∧
    if (0 <? successes (Z.to_nat (pc_num_clients c)) (nt_opens n))%nat
    then ∃ r, pc_vec c' = pc_vec c ++ [r] ∧ info_of r = i ∧ cp_error_cnt (rc_pool r) = 0 ∧
      pc_map c' = <[ri_replica_id i := Z.of_nat (length (pc_vec c))]> (pc_map c)
    else c' = c.
Proof.
  intros [Hp Hd Ha] Hn. unfold add_replica.
  destruct (ConnPool_new_inv n (ri_host i) (ri_port i) (pc_num_clients c) (ri_protocol i) (mjoin css ++ out) Hn Hd Ha)
    as (n1 & p & nodes & cs & -> & Hi & Hc & Hlen & Ho). cbn [obind]. pose proof Hc as [= _ _ En _ Ee _].
  rewrite (pool_size_rep _ _ _ (pi_rep _ _ _ _ _ Hi)), <-Hlen.
  destruct (Z.ltb_spec 0 (Z.of_nat (length cs))), (Nat.ltb_spec 0 (length cs)); try lia.
  - pose proof Hi as [Hr Hd1 Ha1 Hb1]. eexists n1, _, (css ++ [cs]). split; [done|].
    assert (mjoin (css ++ [cs]) ++ out ≡ₚ cs ++ mjoin css ++ out) as Hperm.
    { rewrite join_app. cbn. by rewrite app_nil_r, (Permutation_app_comm (mjoin css)), <-app_assoc. }
    split; [|split; [done|split; [done|]]].
    + split; [|by rewrite Hperm|by eapply alive_perm]. cbn. apply Forall2_app; [done|].
      constructor; [|done]. cbn. split; [eauto|]. split; [lia|]. split; [lia|]. split; lia.
    + eexists. split; [done|]. split; [by destruct i|done].
  - destruct (clear_inv _ _ _ _ _ Hi) as (n2 & p2 & nodes2 & -> & [_ Hd2 Ha2 _] & _ & Ho2 & _). cbn [obind].
    exists n2, c, css. split; [done|]. split; [by split|]. split; [done|]. split; [congruence|done].
Qed.

(** The places the map leads to, which may lie past the end of the vector. *)
Definition places_ok (map : gmap Z Z) : Prop := map_Forall (λ _ i, 0 ≤ i) map.

Lemma places_subseteq map map' : map' ⊆ map → places_ok map → places_ok map'.
Proof. intros Hsub Hm id i Hi. apply (Hm id). by eapply lookup_weaken. Qed.

(** The second loop adds what the reference says, at the end of the vector. *)
Lemma add_missing_inv riv n c css out :
  service_inv n (pc_vec c) css out → 0 ≤ pc_num_clients c → places_ok (pc_map c) →
  ∃ n' c' css' new, add_missing riv n c = Ret (n', c') ∧ service_inv n' (pc_vec c') css' out ∧
    pc_num_clients c' = pc_num_clients c ∧ places_ok (pc_map c') ∧ pc_vec c' = pc_vec c ++ new ∧
    info_of <$> new = new_replicas (Z.to_nat (pc_num_clients c)) (nt_opens n) (info_of <$> pc_vec c) riv ∧
    Forall (λ r, cp_error_cnt (rc_pool r) = 0) new.
Proof.
  revert n c css. induction riv as [|i riv IH]; intros n c css Hs Hn Hm; cbn [add_missing new_replicas].
  { exists n, c, css, []. rewrite app_nil_r. by split_and!. }
  rewrite <-existsb_info. destruct (existsb _ _) eqn:Eex; [by apply (IH n c css)|].
  destruct (add_replica_inv n c css out i Hs Hn) as (n1 & c1 & css1 & -> & Hs1 & Hn1 & Ho1 & Hc1). cbn [obind].
  destruct (0 <? successes _ _)%nat; [destruct Hc1 as (r & Ev & Ei & He & Em)|subst c1].
  - destruct (IH n1 c1 css1 Hs1) as (n' & c' & css' & new & H1 & H2 & H3 & H4 & H5 & H6 & H7);
      [lia|rewrite Em; apply map_Forall_insert_2; [lia|done]|].
    exists n', c', css', (r :: new). split_and!; try done; [lia|by rewrite H5, Ev, <-app_assoc| |by constructor].
    cbn [fmap list_fmap]. rewrite Ei. f_equal. rewrite Ev, fmap_app in H6. cbn in H6. by rewrite H6, Hn1, Ho1, Ei.
  - destruct (IH n1 c css1 Hs1 Hn Hm) as (n' & c' & css' & new & H1 & H2 & H3 & H4 & H5 & H6 & H7).
    exists n', c', css', new. split_and!; try done. by rewrite H6, Ho1.
Qed.

(** ** Whole operations *)
Definition live (riv : list ReplicaInfo) : list ReplicaInfo := filter (λ i, ri_status i ≠ 0) riv.
Definition listed (riv : list ReplicaInfo) (r : ReplicaConnPool) : Prop := existsb (same_replica r) riv = true.
#[export] Instance listed_dec riv r : Decision (listed riv r).
Proof. unfold listed. apply _. Defined.

Lemma filter_none vec : filter (listed []) vec = [].
Proof. induction vec as [|r v IH]; [done|]. rewrite filter_cons_False; [done|]. by intros H. Qed.

Lemma refresh_with_inv riv n c css out :
  service_inv n (pc_vec c) css out → 0 ≤ pc_num_clients c → places_ok (pc_map c) →
  ∃ n' c' css' new, refresh_with riv n c = Ret (n', c') ∧ service_inv n' (pc_vec c') css' out ∧
    pc_num_clients c' = pc_num_clients c ∧ places_ok (pc_map c') ∧
    pc_vec c' = filter (listed (live riv)) (pc_vec c) ++ new ∧
    info_of <$> new = new_replicas (Z.to_nat (pc_num_clients c)) (nt_opens n)
      (info_of <$> filter (listed (live riv)) (pc_vec c)) (live riv) ∧
    Forall (λ r, cp_error_cnt (rc_pool r) = 0) new.
Proof.
  intros Hs Hn Hm. unfold refresh_with. fold (live riv). destruct (live riv) as [|i riv'] eqn:El.
  - destruct (destroy_pools_inv _ _ _ _ Hs) as (n' & -> & Hs'). cbn [obind]. exists n', (pc_set [] ∅ c), [], [].
    split_and!; try done. cbn. by rewrite app_nil_r, filter_none.
  - set (riv2 := i :: riv') in *.
    destruct (erase_missing_inv riv2 n (pc_vec c) css (pc_map c) out Hs) as (n1 & map1 & css1 & -> & Hs1 & _ & Hsub & Ho1).
    cbn [obind]. rewrite <-Ho1.
    apply (add_missing_inv riv2 n1 (pc_set (filter (listed riv2) (pc_vec c)) map1 c) css1 out Hs1 Hn).
    by eapply places_subseteq.
Qed.

Lemma change_with_inv i n c css out :
  service_inv n (pc_vec c) css out → 0 ≤ pc_num_clients c → places_ok (pc_map c) →
  ∃ n' c' css', change_with i n c = Ret (n', c') ∧ service_inv n' (pc_vec c') css' out ∧
    pc_num_clients c' = pc_num_clients c ∧ places_ok (pc_map c').
Proof.
  intros Hs Hn Hm. unfold change_with.
  destruct (erase_server_inv i n (pc_vec c) css (pc_map c) out Hs) as (n1 & vec1 & map1 & css1 & -> & Hs1 & _ & Hsub).
  cbn [obind]. set (c1 := pc_set vec1 map1 c).
  assert (places_ok map1) as Hm1 by (by eapply places_subseteq).
  destruct (ri_status i =? 1); [|by exists n1, c1, css1].
  destruct (add_replica_inv n1 c1 css1 out i Hs1 Hn) as (n2 & c2 & css2 & -> & Hs2 & Hn2 & _ & Hc2).
  exists n2, c2, css2. split_and!; try done. destruct (0 <? _)%nat; [destruct Hc2 as (r & _ & _ & _ & ->)|by subst].
  apply map_Forall_insert_2; [lia|done].
Qed.

(** ** Histories *)
(** The clients of the service that callers hold, and the releases under way: the client,
    the place the search found and the statements still to come. *)
Record service_state := mkSvc {
  sv_net : net; sv_client : PooledClientImpl; sv_out : list loc; sv_pend : list (loc * Z * list release_stage) }.

(** The steps of the threads.  A call that holds the lock is one step; a release is a
    step for its search, which holds the lock, and one for each statement after it.
    [Svc_search j e] and [Svc_release_by_id id j e] give back the [j]-th of the borrowed
    clients, [Svc_continue j] goes on with the [j]-th release under way. *)
Inductive service_op :=
  | Svc_acquire | Svc_acquire_by_id (id : Z)
  | Svc_search (j : nat) (e : ConnErrorStatus) | Svc_continue (j : nat)
  | Svc_release_by_id (id : Z) (j : nat) (e : ConnErrorStatus)
  | Svc_refresh (riv : list ReplicaInfo) | Svc_change (i : ReplicaInfo) | Svc_clear.

Definition service_step (now : Z * Z) (o : service_op) (s : service_state) : outcome service_state :=
  let 'mkSvc n c out pend := s in
  match o with
  | Svc_acquire => let* (l, n, c) := acquire_thrift_client now n c in Ret (mkSvc n c (option_list l ++ out) pend)
  | Svc_acquire_by_id id =>
      let* (l, n, c) := acquire_thrift_client_by_id now n c id in Ret (mkSvc n c (option_list l ++ out) pend)
  | Svc_search j e =>
      match out !! j with
      | Some l =>
          let* tc := load (nt_clients n) (Some l) in
          match find_replica (pc_vec c) (tc_replica tc) 0 with
          | Some i => Ret (mkSvc n c (delete j out) ((l, i, release_stages e) :: pend))
          | None => let* n := delete_client n l in Ret (mkSvc n c (delete j out) pend)
          end
      | None => Ret s
      end
  | Svc_continue j =>
      match pend !! j with
      | Some (l, i, st :: sts) =>
          let* (n, c) := release_stage_step now n c i l st in
          Ret (mkSvc n c out (match sts with [] => delete j pend | _ => <[j := (l, i, sts)]> pend end))
      | _ => Ret s
      end
  | Svc_release_by_id id j e =>
      match out !! j with
      | Some l => let* (_, n, c) := release_thrift_client_by_id now n c id (Some l) e in Ret (mkSvc n c (delete j out) pend)
      | None => Ret s
      end
  | Svc_refresh riv => let* (n, c) := refresh_with riv n c in Ret (mkSvc n c out pend)
  | Svc_change i => let* (n, c) := change_with i n c in Ret (mkSvc n c out pend)
  | Svc_clear => let* (n, c) := pc_clear n c in Ret (mkSvc n c out pend)
  end.

(** The clients that are being released. *)
Definition releasing (s : service_state) : list loc := (λ x, x.1.1) <$> sv_pend s.

(** The step uses a place past the end of the vector: one the map leads to, or one that
    was found before. *)
Definition stale_use (o : service_op) (s : service_state) : bool :=
  let past i := Z.of_nat (length (pc_vec (sv_client s))) <=? i in
  let by_id id := match pc_map (sv_client s) !! id with Some i => past i | None => false end in
  match o with
  | Svc_acquire_by_id id => by_id id
  | Svc_release_by_id id j _ => match sv_out s !! j with Some _ => by_id id | None => false end
  | Svc_continue j => match sv_pend s !! j with Some (_, i, st :: _) => uses_vec st && past i | _ => false end
  | _ => false
  end.

(** The states a new client comes to, as long as no error counter is about to
    overflow. *)
Inductive service_reaches (path : cstr) (num : Z) : service_state → Prop :=
  | reaches_new opens : service_reaches path num (mkSvc (mkNet ∅ opens) (PooledClientImpl_new path num) [] [])
  | reaches_step s now o s' :
      service_reaches path num s → errors_below (S (length (pc_vec (sv_client s)))) (pc_vec (sv_client s)) →
      service_step now o s = Ret s' → service_reaches path num s'.

(** A history at a time of day, stopped when an error counter is about to overflow. *)
Fixpoint service_run (now : Z * Z) (os : list service_op) (s : service_state) : outcome service_state :=
  match os with
  | [] => Ret s
  | o :: os =>
      let vec := pc_vec (sv_client s) in
      if forallb (λ r, cp_error_cnt (rc_pool r) + Z.of_nat (S (length vec)) <? 2 ^ 31) vec
      then let* s := service_step now o s in service_run now os s else Fault
  end.

Lemma service_run_reaches path num now os s s' :
  service_reaches path num s → service_run now os s = Ret s' → service_reaches path num s'.
Proof.
  revert s. induction os as [|o os IH]; intros s Hr; cbn [service_run]; [by intros [= <-]|].
  destruct (forallb _ _) eqn:Ef; [|done]. destruct (service_step now o s) as [s1| | | |] eqn:Es; try done. cbn [obind].
  apply IH. eapply reaches_step; [exact Hr| |exact Es]. apply Forall_forall. intros r Hr'.
  rewrite forallb_forall in Ef. apply Z.ltb_lt, Ef. by apply list_elem_of_In.
Qed.

(** A release ends with the statement that hands the client over. *)
Fixpoint stages_ok (sts : list release_stage) : Prop :=
  match sts with
  | [] => False
  | st :: sts => if hands_over st then sts = [] else stages_ok sts
  end.

Record state_inv (num : Z) (s : service_state) (css : list (list loc)) : Prop := {
  sv_service : service_inv (sv_net s) (pc_vec (sv_client s)) css (sv_out s ++ releasing s);
  sv_num : pc_num_clients (sv_client s) = num;
  sv_places : places_ok (pc_map (sv_client s));
  sv_stages : Forall (λ x : loc * Z * list release_stage, 0 ≤ x.1.2 ∧ stages_ok x.2) (sv_pend s) }.

(** A connection that [s'] has lent and [s] has not is open and was nobody's. *)
Definition lends_open (s s' : service_state) : Prop :=
  ∀ l, l ∈ sv_out s' → l ∈ sv_out s ∨
    (l ∉ releasing s) ∧ ∃ tc, nt_clients (sv_net s') !! l = Some tc ∧ tc_is_open tc = true.

Lemma service_perm n vec css out out' : service_inv n vec css out → out' ≡ₚ out → service_inv n vec css out'.
Proof. intros [Hp Hd Ha] Hperm. split; [done|by rewrite Hperm|eapply alive_perm; [exact Ha|by rewrite Hperm]]. Qed.

Lemma replica_at_past vec i : Z.of_nat (length vec) ≤ i → replica_at vec i = Fault.
Proof.
  intros Hi. unfold replica_at. destruct (Z.ltb_spec i 0); [lia|]. by rewrite lookup_ge_None_2 by lia.
Qed.

Lemma stage_past now n c i l st :
  uses_vec st = true → Z.of_nat (length (pc_vec c)) ≤ i → release_stage_step now n c i l st = Fault.
Proof. intros Hu Hi. destruct st; try done; cbn [release_stage_step]; by rewrite replica_at_past. Qed.

Lemma release_at_past now n c i l e : Z.of_nat (length (pc_vec c)) ≤ i → release_at now n c i l e = Fault.
Proof.
  intros Hi. unfold release_at. destruct e; cbn [release_stages run_stages]; [by rewrite stage_past..|].
  cbn [release_stage_step]. destruct (nt_clients n !! l) as [tc|] eqn:E; [|by unfold close_service, load; cbn; rewrite E].
  destruct (close_service_spec n l tc E) as (r1 & n1 & tc1 & -> & En1 & _). cbn [obind].
  destruct (open_service_spec n1 l tc1) as (r2 & n2 & tc2 & -> & _); [rewrite En1; apply lookup_insert_eq|].
  cbn [obind]. by rewrite replica_at_past.
Qed.

Lemma lends_less s s' : sv_out s' ⊆ sv_out s → lends_open s s'.
Proof. intros Hsub l Hl. left. by apply Hsub. Qed.

(** What an acquisition with the given result comes to. *)
Lemma lend_inv num n c out pend css n' c' css' client :
  state_inv num (mkSvc n c out pend) css → kept c c' →
  service_inv n' (pc_vec c') css' (option_list client ++ out ++ releasing (mkSvc n c out pend)) →
  (∀ l, client = Some l → ∃ tc, nt_clients n' !! l = Some tc ∧ tc_is_open tc = true) →
  state_inv num (mkSvc n' c' (option_list client ++ out) pend) css' ∧
  lends_open (mkSvc n c out pend) (mkSvc n' c' (option_list client ++ out) pend).
Proof.
  intros [Hs Hn Hm Hst] (_ & Ek & En & _) Hs' Ho. cbn in *. split.
  - split; cbn; [by rewrite <-app_assoc|congruence|by rewrite Ek|done].
  - intros l. cbn [sv_out sv_net]. destruct client as [k|]; cbn; [|by left]. intros [->|Hl]%elem_of_cons; [|by left].
    right. split; [|by apply Ho]. pose proof (si_distinct _ _ _ _ Hs') as Hd. apply NoDup_app in Hd as (_ & _ & Hd).
    cbn in Hd. apply NoDup_cons in Hd as [Hk _]. intros Hr. apply Hk. apply elem_of_app. by right.
Qed.

(** The releases by the caller's own choice. *)
Lemma give_back_inv num n c out pend css n' c' css' j l :
  state_inv num (mkSvc n c out pend) css → kept c c' → out !! j = Some l →
  service_inv n' (pc_vec c') css' (take j out ++ drop (S j) out ++ releasing (mkSvc n c out pend)) →
  state_inv num (mkSvc n' c' (delete j out) pend) css' ∧
  lends_open (mkSvc n c out pend) (mkSvc n' c' (delete j out) pend).
Proof.
  intros [Hs Hn Hm Hst] (_ & Ek & En & _) El Hs'. cbn in *. split.
  - split; cbn; [by rewrite delete_take_drop, <-app_assoc|congruence|by rewrite Ek|done].
  - apply lends_less, sublist_subseteq, sublist_delete.
Qed.

Lemma out_split (out : list loc) j l rest :
  out !! j = Some l → out ++ rest = take j out ++ l :: drop (S j) out ++ rest.
Proof. intros El. rewrite <-(take_drop_middle _ _ _ El) at 1. by rewrite <-app_assoc. Qed.

(** By-id calls find a place inside the vector, or use a stale one. *)
Lemma by_id_place c id :
  places_ok (pc_map c) →
  match pc_map c !! id with Some i => Z.of_nat (length (pc_vec c)) <=? i | None => false end = false →
  ∀ i, pc_map c !! id = Some i → 0 ≤ i < Z.of_nat (length (pc_vec c)).
Proof. intros Hm Hst i Ei. rewrite Ei in Hst. apply Z.leb_gt in Hst. split; [by apply (Hm id)|done]. Qed.

Lemma search_inv num now n c out pend css j e :
  state_inv num (mkSvc n c out pend) css →
  ∃ s' css', service_step now (Svc_search j e) (mkSvc n c out pend) = Ret s' ∧ state_inv num s' css' ∧
    lends_open (mkSvc n c out pend) s'.
Proof.
  intros Hi. pose proof Hi as [Hs Hn Hm Hst]. cbn [service_step sv_net sv_client sv_out sv_pend] in *. destruct (out !! j) as [l|] eqn:El; [|eexists _, css; split; [done|]; split; [done|by left]].
  destruct (proj1 (si_alive _ _ _ _ Hs l)) as [tc Etc].
  { rewrite (out_split _ _ _ _ El). set_solver. }
  rewrite (load_Some _ _ _ Etc). cbn [obind]. destruct (find_replica _ _ 0) as [i|] eqn:Ef.
  - eexists _, css. split; [done|]. split.
    + split; cbn; [|done|done|].
      * eapply service_perm; [exact Hs|]. rewrite (out_split _ _ _ _ El), delete_take_drop, <-app_assoc.
        apply Permutation_app_head. by rewrite <-Permutation_middle.
      * constructor; [|done]. split; [apply find_replica_bound in Ef; cbn; lia|by destruct e].
    + apply lends_less, sublist_subseteq, sublist_delete.
  - rewrite (out_split _ _ _ _ El) in Hs. destruct (delete_borrowed _ _ _ _ _ _ Hs) as (n' & -> & Hs'). cbn [obind].
    eexists _, css. split; [done|]. by eapply give_back_inv.
Qed.

Lemma continue_inv num now n c out pend css j :
  state_inv num (mkSvc n c out pend) css → errors_below 1 (pc_vec c) →
  stale_use (Svc_continue j) (mkSvc n c out pend) = false →
  ∃ s' css', service_step now (Svc_continue j) (mkSvc n c out pend) = Ret s' ∧ state_inv num s' css' ∧
    lends_open (mkSvc n c out pend) s'.
Proof.
  intros Hi He Hu. pose proof Hi as [Hs Hn Hm Hst]. unfold releasing in Hs.
  cbn [service_step stale_use sv_net sv_client sv_out sv_pend] in *.
  destruct (pend !! j) as [[[l i] sts]|] eqn:Ej; [|eexists _, css; split; [done|]; split; [done|by left]].
  destruct (proj1 (Forall_lookup _ _) Hst _ _ Ej) as [Hi0 Hok]. cbn in Hi0, Hok.
  destruct sts as [|st sts]; [done|]. pose proof (take_drop_middle _ _ _ Ej) as Ep. rewrite <-Ep in Hs, Hst.
  rewrite fmap_app, fmap_cons, app_assoc in Hs. cbn [fst] in Hs.
  destruct (release_stage_inv 0 now n c css _ l _ i st Hs He Hi0) as (n' & c' & css' & -> & Hs' & (_ & Ek & En & _) & _).
  { intros Hv. rewrite Hv in Hu. cbn in Hu. lia. }
  cbn [obind]. eexists _, css'. split; [done|]. split; [|by apply lends_less].
  apply Forall_app in Hst as [Hst1 [_ Hst2]%Forall_cons]. cbn [stages_ok] in Hok.
  split; cbn; [|congruence|by rewrite Ek|]; unfold releasing; cbn; destruct (hands_over st).
  - subst sts. by rewrite delete_take_drop, fmap_app, app_assoc.
  - destruct sts as [|st' sts]; [done|]. rewrite insert_take_drop by (by eapply lookup_lt_Some).
    by rewrite fmap_app, app_assoc.
  - subst sts. rewrite delete_take_drop. by apply Forall_app.
  - destruct sts as [|st' sts]; [done|]. rewrite insert_take_drop by (by eapply lookup_lt_Some).
    apply Forall_app. split; [done|]. by constructor.
Qed.

Lemma update_inv num n c out pend css n' c' css' :
  state_inv num (mkSvc n c out pend) css → service_inv n' (pc_vec c') css' (out ++ releasing (mkSvc n c out pend)) →
  pc_num_clients c' = pc_num_clients c → places_ok (pc_map c') →
  state_inv num (mkSvc n' c' out pend) css' ∧ lends_open (mkSvc n c out pend) (mkSvc n' c' out pend).
Proof. intros [Hs Hn Hm Hst] Hs' En Hm'. cbn in *. split; [by split; cbn; [|congruence|..]|by apply lends_less]. Qed.

(** A step returns and keeps the invariant, unless it uses a stale place. *)
Lemma service_step_inv num now o s css :
  state_inv num s css → 0 ≤ num → errors_below (S (length (pc_vec (sv_client s)))) (pc_vec (sv_client s)) →
  stale_use o s = false →
  ∃ s' css', service_step now o s = Ret s' ∧ state_inv num s' css' ∧ lends_open s s'.
Proof.
  destruct s as [n c out pend]. intros Hi Hnum He Hu. pose proof Hi as [Hs Hn Hm Hst]. cbn in Hs, Hn, Hm, Hst, He.
  assert (errors_below 1 (pc_vec c)) as He1 by (eapply errors_below_weaken; [|exact He]; lia).
  destruct o as [|id|j e|j|id j e|riv|i|]; [| |by eapply search_inv|by eapply continue_inv|..]; cbn [service_step].
  - destruct (acquire_inv_service 0 now n c css _ Hs) as (l & n' & c' & css' & -> & Hs' & Hk & _ & Ho).
    { eapply errors_below_weaken; [|exact He]. lia. }
    cbn [obind]. eexists _, css'. split; [done|]. by eapply lend_inv.
  - destruct (acquire_by_id_inv 0 now n c css _ id Hs He1) as (l & n' & c' & css' & -> & Hs' & Hk & _ & Ho).
    { by apply by_id_place. }
    cbn [obind]. eexists _, css'. split; [done|]. by eapply lend_inv.
  - destruct (out !! j) as [l|] eqn:El; [|eexists _, css; split; [done|]; split; [done|by left]].
    cbn in Hu. rewrite El in Hu. rewrite (out_split _ _ _ _ El) in Hs.
    destruct (release_by_id_inv 1 now n c css _ l _ id e Hs He1) as (b & n' & c' & css' & -> & Hs' & Hk & _).
    { by apply by_id_place. }
    cbn [obind]. eexists _, css'. split; [done|]. by eapply give_back_inv.
  - destruct (refresh_with_inv riv n c css _ Hs) as (n' & c' & css' & new & -> & Hs' & En & Hm' & _); [lia|done|].
    cbn [obind]. eexists _, css'. split; [done|]. by eapply update_inv.
  - destruct (change_with_inv i n c css _ Hs) as (n' & c' & css' & -> & Hs' & En & Hm'); [lia|done|].
    cbn [obind]. eexists _, css'. split; [done|]. by eapply update_inv.
  - unfold pc_clear. destruct (destroy_pools_inv _ _ _ _ Hs) as (n' & -> & Hs'). cbn [obind].
    eexists _, []. split; [done|]. by eapply update_inv.
Qed.

Lemma stale_step_faults num now o s css :
  state_inv num s css → stale_use o s = true → service_step now o s = Fault.
Proof.
  destruct s as [n c out pend]. intros [Hs _ Hm _] Hu. destruct o as [|id|j e|j|id j e|riv|i|]; try done;
    cbn [service_step stale_use sv_net sv_client sv_out sv_pend] in *.
  - unfold acquire_thrift_client_by_id. destruct (pc_map c !! id) as [i|]; [|done]. apply Z.leb_le in Hu.
    by rewrite replica_at_past.
  - destruct (pend !! j) as [[[l i] [|st sts]]|]; try done. apply andb_true_iff in Hu as [Hv Hu%Z.leb_le].
    by rewrite stage_past.
  - destruct (out !! j) as [l|] eqn:El; [|done]. unfold release_thrift_client_by_id.
    destruct (proj1 (si_alive _ _ _ _ Hs l)) as [tc Etc]; [rewrite (out_split _ _ _ _ El); set_solver|].
    rewrite (load_Some _ _ _ Etc). cbn [obind]. destruct (pc_map c !! id) as [i|]; [|done]. apply Z.leb_le in Hu.
    by rewrite replica_at_past.
Qed.

Lemma service_reaches_inv path num s : 0 ≤ num → service_reaches path num s → ∃ css, state_inv num s css.
Proof.
  intros Hnum Hr. induction Hr as [opens|s now o s' _ (css & Hi) He Hstep].
  { exists []. split; cbn; [|done|apply map_Forall_empty|constructor]. split; [constructor|constructor|by apply no_clients]. }
  destruct (stale_use o s) eqn:Eu; [by rewrite (stale_step_faults num now o s css Hi Eu) in Hstep|].
  destruct (service_step_inv num now o s css Hi Hnum He Eu) as (s2 & css2 & Hrun & Hi2 & _).
  rewrite Hrun in Hstep. injection Hstep as <-. by exists css2.
Qed.

Lemma filter_listed riv vec : Forall (listed riv) vec → filter (listed riv) vec = vec.
Proof. induction 1 as [|r vec Hr _ IH]; [done|]. rewrite filter_cons_True by done. by rewrite IH. Qed.

Lemma add_missing_none riv n c :
  Forall (λ i, existsb (λ r, same_replica r i) (pc_vec c) = true) riv → add_missing riv n c = Ret (n, c).
Proof. induction 1 as [|i riv Hi _ IH]; cbn [add_missing]; [done|]. by rewrite Hi. Qed.

(** ** The proxy *)
(** An entry of the log: the attempt, the replica and the result. *)
Definition log_entry : Type := nat * (cstr * Z) * call_result.
Definition threw (e : log_entry) : Prop := ∀ code, e.2 ≠ Call_return code.

(** The calls of a log, played one after the other. *)
Fixpoint replays {W} (call : nat → cstr * Z → W → outcome (call_result * W)) (w : W) (log : list log_entry) (w' : W) : Prop :=
  match log with
  | [] => w' = w
  | (k, a, r) :: log => ∃ w1, replays call w log w1 ∧ call k a w1 = Ret (r, w')
  end.

(** What an invocation comes to: the response of its last call; what the call of the last
    attempt threw; or that there is no service, when the last attempt called no one. *)
Definition result_of (log : list log_entry) : proxy_result :=
  match log with
  | (_, _, Call_return code) :: _ => Proxy_return code
  | (O, _, r) :: _ => snd (after_call r)
  | _ => Proxy_throw TZE_NOSERVICE
  end.

(** The attempts count down, and all calls but the last one threw. *)
Record log_ok (retry : nat) (log : list log_entry) : Prop := {
  lo_order : StronglySorted (λ e f : log_entry, (e.1.1 < f.1.1)%nat) log;
  lo_bound : Forall (λ e : log_entry, (e.1.1 < retry)%nat) log;
  lo_threw : Forall threw (tail log) }.

Lemma log_ok_length retry log : log_ok retry log → (length log ≤ retry)%nat.
Proof.
  intros [Hs Hb _]. cut (∀ k, Forall (λ e : log_entry, (k ≤ e.1.1)%nat) log → (length log + k ≤ retry ∨ log = [])%nat).
  { intros H. destruct (H 0%nat) as [?| ->]; [apply Forall_true; intros; lia|lia|cbn; lia]. }
  induction Hs as [|e log Hs IH He]; intros k Hk; [by right|left].
  apply Forall_cons in Hb as [Hb1 Hb]. apply Forall_cons in Hk as [Hk1 Hk]. cbn in *.
  destruct (IH Hb (S (e.1.1))) as [?| ->]; [exact He|lia|cbn; lia].
Qed.

Lemma log_ok_weaken retry retry' log : (retry ≤ retry')%nat → log_ok retry log → log_ok retry' log.
Proof. intros Hle [H1 H2 H3]. split; [done| |done]. eapply Forall_impl; [exact H2|]. cbn. lia. Qed.

Lemma log_ok_snoc retry log e :
  log_ok retry log → e.1.1 = retry → threw e → log_ok (S retry) (log ++ [e]).
Proof.
  intros [H1 H2 H3] He Ht. split.
  - clear H3. induction H1 as [|x log H1 IH Hx]; cbn; [repeat constructor|].
    apply Forall_cons in H2 as [H2x H2]. constructor; [by apply IH|]. apply Forall_app. split; [done|]. constructor; [cbn in *; lia|done].
  - apply Forall_app. split; [eapply Forall_impl; [exact H2|]; cbn; lia|]. constructor; [cbn; lia|done].
  - destruct log as [|x log]; [constructor|]. cbn in *. apply Forall_app. split; [done|]. by repeat constructor.
Qed.

(** A call that returns is the only one. *)
Lemma log_single retry log e : log_ok retry log → last log = Some e → ¬ threw e → log = [e].
Proof.
  intros [_ _ Ht] Hl He. destruct log as [|x [|y log]]; [done|by injection Hl as ->|]. destruct He. cbn [tail] in Ht.
  apply (proj1 (Forall_forall _ _) Ht). apply last_Some_elem_of. exact Hl.
Qed.

Lemma result_of_snoc log k a r : threw (S k, a, r) → result_of (log ++ [(S k, a, r)]) = result_of log.
Proof. intros Ht. destruct log as [|[[j b] q] log]; [|done]. cbn. destruct r; try done. by destruct (Ht code). Qed.

Lemma replays_snoc {W} (call : nat → cstr * Z → W → outcome (call_result * W)) w log w1 w2 k a r :
  call k a w = Ret (r, w1) → replays call w1 log w2 → replays call w (log ++ [(k, a, r)]) w2.
Proof.
  intros Hc. revert w2. induction log as [|[[j b] q] log IH]; intros w2; cbn; [by intros ->; exists w|].
  intros (w3 & H1 & H2). exists w3. by split; [apply IH|].
Qed.

(** The pool whose turn it is has no errors, and the connection it would lend is open. *)
Definition next_open (n : net) (c : PooledClientImpl) (replica : cstr * Z) : Prop :=
  ∃ r nodes cs l tc, pc_vec c !! Z.to_nat (u64 (pc_cur c) mod Z.of_nat (length (pc_vec c))) = Some r ∧
    rc_status r ≠ 0 ∧ cp_error_cnt (rc_pool r) = 0 ∧ pool_rep (rc_pool r) nodes (cs ++ [l]) ∧
    nt_clients n !! l = Some tc ∧ tc_is_open tc = true ∧ tc_replica tc = replica.

Lemma acquire_next now n c replica :
  next_open n c replica →
  ∃ l tc c', acquire_thrift_client now n c = Ret (Some l, n, c') ∧ nt_clients n !! l = Some tc ∧ tc_replica tc = replica.
Proof.
  intros (r & nodes & cs & l & tc & Er & Hst & He & Hrep & Etc & Ho & Ha). unfold acquire_thrift_client.
  assert (pc_vec c ≠ []) as Hne by (intros Hv; by rewrite Hv in Er).
  destruct (length (pc_vec c)) as [|len] eqn:El; [by destruct (pc_vec c)|]. cbn [acquire_loop]. rewrite El.
  rewrite (replica_at_Some _ _ r); [|apply Z.mod_pos_bound; lia|done]. cbn [obind].
  destruct (Z.eqb_spec (rc_status r) 0); [done|].
  assert (is_healthy now (rc_pool r) = Ret HEALTHY) as -> by (unfold is_healthy; by rewrite He). cbn [obind].
  pose proof (acquire_client_spec _ _ _ Hrep) as Hacq. rewrite last_snoc in Hacq.
  destruct Hacq as (cs' & p' & nodes' & _ & Hacq & _). change (bool_decide (HEALTHY = NOT_HEALTHY_BUT_CAN_HAVEATRY)) with false.
  cbn [obind]. unfold borrow. rewrite Hacq. cbn [obind]. unfold open_service. rewrite (load_Some _ _ _ Etc). cbn [obind].
  rewrite Ho. cbn [obind]. change (0 =? 0) with true. cbn [obind]. eexists l, tc, _. done.
Qed.

Section invoke.
Context {W : Type} (ok : W → Prop) (clock : nat → Z * Z) (call : nat → cstr * Z → W → outcome (call_result * W)).
Context (Hcall : ∀ k a w, ok w → ∃ r w', call k a w = Ret (r, w') ∧ ok w').

(** A whole invocation: it returns, leaves the same clients borrowed, and its result and
    the world are those of the calls it made. *)
Lemma invoke_inv retry w n c css out log :
  ok w → service_inv n (pc_vec c) css out → errors_below (retry * (2 + length (pc_vec c))) (pc_vec c) →
  ∃ w' n' c' css' mine, invoke retry clock call w n c log = Ret (result_of mine, w', n', c', mine ++ log) ∧
    ok w' ∧ service_inv n' (pc_vec c') css' out ∧ kept c c' ∧ log_ok retry mine ∧ replays call w mine w' ∧
    (pc_vec c = [] → mine = []) ∧
    (∀ a, retry ≠ O → next_open n c a → ∃ r, last mine = Some (pred retry, a, r)).
Proof using Hcall.
  revert w n c css log. induction retry as [|retry IH]; intros w n c css log Hw Hs He; cbn [invoke].
  { exists w, n, c, css, []. split_and!; try done. split; constructor. }
  set (len := length (pc_vec c)) in *.
  destruct (acquire_inv_service (2 + retry * (2 + len)) (clock retry) n c css out Hs)
    as (client & n1 & c1 & css1 & Hrun & Hs1 & Hk1 & He1 & _).
  { fold len. eapply errors_below_weaken; [|exact He]. lia. }
  rewrite Hrun. cbn [obind].
  assert (∀ a, next_open n c a → ∃ l tc, client = Some l ∧ nt_clients n1 !! l = Some tc ∧ tc_replica tc = a) as Hnext.
  { intros a Hn. destruct (acquire_next (clock retry) n c a Hn) as (l & tc & c' & Hacq & Etc & Ea).
    rewrite Hrun in Hacq. injection Hacq as -> -> ->. eauto. }
  destruct client as [l|].
  2: { destruct (IH w n1 c1 css1 log Hw Hs1) as (w2 & n2 & c2 & css2 & mine & -> & Hw2 & Hs2 & Hk2 & Hlog & Hre & Hm & _).
       { rewrite (kept_length _ _ Hk1). fold len. eapply errors_below_weaken; [|exact He1]. lia. }
       exists w2, n2, c2, css2, mine. split_and!; try done; [by eapply kept_trans|by eapply log_ok_weaken; [|exact Hlog]; lia| |].
       - intros Hv. apply Hm. pose proof (kept_length _ _ Hk1) as El. rewrite Hv in El. by destruct (pc_vec c1).
       - intros a _ (l & tc & ? & _)%Hnext. done. }
  assert (pc_vec c ≠ []) as Hne by (intros Hv; unfold acquire_thrift_client in Hrun; by rewrite Hv in Hrun).
  destruct (proj1 (si_alive _ _ _ _ Hs1 l)) as [tc Etc]; [set_solver|]. rewrite (load_Some _ _ _ Etc). cbn [obind].
  destruct (Hcall retry (tc_replica tc) w Hw) as (r & w1 & Ec & Hw1). rewrite Ec. cbn [obind].
  destruct (after_call r) as [e result] eqn:Eac.
  destruct (release_thrift_client_inv (retry * (2 + len)) (clock retry) n1 c1 css1 [] l out e Hs1 He1)
    as (b & n2 & c2 & css2 & -> & Hs2 & Hk2 & He2). cbn [obind].
  assert (kept c c2) as Hk by (by eapply kept_trans).
  assert (∀ a, next_open n c a → a = tc_replica tc) as Ha.
  { intros a (l' & tc' & [= <-] & E' & <-)%Hnext. congruence. }
  assert (result = result_of [(retry, tc_replica tc, r)] → ∃ w' n' c' css' mine,
    Ret (result, w1, n2, c2, (retry, tc_replica tc, r) :: log) = Ret (result_of mine, w', n', c', mine ++ log) ∧
    ok w' ∧ service_inv n' (pc_vec c') css' out ∧ kept c c' ∧ log_ok (S retry) mine ∧ replays call w mine w' ∧
    (pc_vec c = [] → mine = []) ∧ (∀ a, S retry ≠ O → next_open n c a → ∃ r, last mine = Some (pred (S retry), a, r))) as Hfin.
  { intros Er. exists w1, n2, c2, css2, [(retry, tc_replica tc, r)]. split_and!; try done; [by rewrite <-Er| |by exists w|].
    - split; repeat constructor.
    - intros a _ Hn. rewrite (Ha a Hn). by exists r. }
  assert (result = snd (after_call r)) as Hsnd by (by rewrite Eac).
  destruct result as [code|e'].
  { apply Hfin. destruct r; cbn in Hsnd |- *; destruct retry; congruence. }
  assert (∀ k, threw (k, tc_replica tc, r)) as Ht by (intros k code Er; cbn in Er; by rewrite Er in Hsnd).
  destruct retry as [|retry]; [apply Hfin; by destruct r|].
  destruct (IH w1 n2 c2 css2 ((S retry, tc_replica tc, r) :: log) Hw1 Hs2)
    as (w3 & n3 & c3 & css3 & mine & -> & Hw3 & Hs3 & Hk3 & Hlog & Hre & _ & _).
  { rewrite (kept_length _ _ Hk). done. }
  exists w3, n3, c3, css3, (mine ++ [(S retry, tc_replica tc, r)]). rewrite <-app_assoc, result_of_snoc by apply Ht.
  split_and!; try done; [by eapply kept_trans|by apply log_ok_snoc|by eapply replays_snoc|].
  intros a _ Hn. rewrite (Ha a Hn), last_snoc. by exists r.
Qed.
End invoke.

(** ** The update thread *)
Lemma parent_path_shorter s p : parent_path s = Some p → (length p < length s)%nat.
Proof.
  revert p. induction s as [|c s IH]; intros p; cbn; [done|]. destruct (parent_path s) as [q|].
  - intros [= <-]. specialize (IH q eq_refl). cbn. lia.
  - destruct (c =? 47); [|done]. intros [= <-]. cbn. lia.
Qed.

(** A message to an open manager with room ends on top of its stack. *)
Lemma put_update_task_top tod m ts busy free type arg :
  um_rep m (mkStack true ts) busy free → (length ts < UPDATE_TASK_POOL_SIZE)%nat → type ≠ TIMED_REFRESH_ALL →
  ∃ m' busy' free', put_update_task tod m type arg = Ret (true, m') ∧
    um_rep m' (mkStack true (mkTask type arg 0 :: ts)) busy' free'.
Proof.
  intros Hr Hlen Ht. unfold put_update_task.
  replace (match type with TIMED_REFRESH_ALL => _ | _ => 0 end) with 0 by (by destruct type).
  destruct (put_task_refines m _ busy free (mkTask type arg 0) Hr) as (m' & b' & f' & -> & Hr').
  cbn [spec_op ts_open ts_tasks andb] in *. destruct (Nat.ltb_spec (length ts) UPDATE_TASK_POOL_SIZE); [|lia].
  exists m', b', f'. done.
Qed.

Lemma notify_top tod f key m ts busy free type arg :
  f !! key = Some m → um_rep m (mkStack true ts) busy free → (length ts < UPDATE_TASK_POOL_SIZE)%nat →
  type ≠ TIMED_REFRESH_ALL →
  ∃ m' busy' free', notify tod f key type arg = Ret (<[key := m']> f) ∧
    um_rep m' (mkStack true (mkTask type arg 0 :: ts)) busy' free'.
Proof.
  intros Em Hr Hlen Ht. unfold notify. rewrite Em.
  destruct (put_update_task_top tod m ts busy free type arg Hr Hlen Ht) as (m' & b' & f' & -> & Hr'). by exists m', b', f'.
Qed.

Section thread.
Context {R : Type} {HR : ZooApi R} (json_node : cstr → outcome (option (cstr * Z * cstr * Z))).

(** A turn handles the task on top. *)
Lemma svc_turn_top zh r now n c m t ts busy free :
  um_rep m (mkStack true (t :: ts)) busy free → task_type t ≠ EXIT → task_type t ≠ TIMED_REFRESH_ALL →
  ∃ m' busy' free', um_rep m' (mkStack true ts) busy' free' ∧
    svc_turn json_node zh r now n c m =
      let* (n, c, m) := process_update_task json_node zh r now n c m' t in Ret (true, n, c, m).
Proof.
  intros Hr H1 H2. destruct (get_task_refines _ _ _ _ Hr) as (m' & busy' & free' & Hg & Hr').
  exists m', busy', free'. split; [done|]. unfold svc_turn. rewrite Hg. cbn [obind]. by destruct (task_type t).
Qed.

(** The first turn of the thread of a new client reads the registry. *)
Lemma new_client_refreshes zh r tod now n clients f path num :
  clients !! path = None → f !! path = None →
  ∃ m f' m', get_pooled_client tod clients f path num true =
      Ret (true, <[path := PooledClientImpl_new path num]> clients, f') ∧ f' !! path = Some m ∧
    svc_turn json_node zh r now n (PooledClientImpl_new path num) m =
      let* (n, c) := refresh_all json_node zh r n (PooledClientImpl_new path num) in Ret (true, n, c, m').
Proof.
  intros Hc Hf. unfold get_pooled_client, PooledClientImpl_open, get_update_task_manager. rewrite Hc, Hf, opened_open.
  cbn [obind]. rewrite lookup_insert_eq. cbn [obind]. destruct opened_rep as [free Hr].
  destruct (put_update_task_top tod opened [] [] free REFRESH_ALL [] Hr) as (m & b & fr & -> & Hm);
    [unfold UPDATE_TASK_POOL_SIZE; cbn; lia|done|]. cbn [obind].
  destruct (svc_turn_top zh r now n (PooledClientImpl_new path num) m _ _ _ _ Hm) as (m' & _ & _ & _ & Ht); [done..|].
  eexists m, _, m'. split; [done|]. split; [apply lookup_insert_eq|]. rewrite Ht. cbn [process_update_task task_type].
  by destruct (refresh_all _ _ _ _ _) as [[]| | | |].
Qed.

(** A timed refresh that is not due goes back on top at once. *)
Lemma timed_refresh_spins zh r now n c m t ts busy free :
  um_rep m (mkStack true (t :: ts)) busy free → task_type t = TIMED_REFRESH_ALL →
  u32 (fst now * 1000 + snd now / 1000) < task_timed t →
  ∃ m' busy' free', svc_turn json_node zh r now n c m = Ret (true, n, c, m') ∧
    um_rep m' (mkStack true (t :: ts)) busy' free'.
Proof.
  intros Hr Ht Hdue. destruct (get_task_refines _ _ _ _ Hr) as (m1 & b1 & f1 & Hg & Hr1).
  destruct (put_task_refines m1 _ _ _ t Hr1) as (m2 & b2 & f2 & Hp & Hr2). cbn [spec_op ts_open ts_tasks andb] in *.
  assert (length ts < UPDATE_TASK_POOL_SIZE)%nat as Hlen.
  { destruct Hr as [_ _ _ Hd _ _ Htot]. apply Forall2_length in Hd. cbn in Hd. lia. }
  destruct (Nat.ltb_spec (length ts) UPDATE_TASK_POOL_SIZE); [|lia].
  exists m2, b2, f2. split; [|done]. unfold svc_turn. rewrite Hg. cbn [obind]. rewrite Ht.
  destruct (Z.leb_spec (task_timed t) (u32 (fst now * 1000 + snd now / 1000))); [lia|]. by rewrite Hp.
Qed.
End thread.

(** ** Access by id *)
(** Asking for a client of replica [id] at the given times. *)
Fixpoint acquire_by_id_at (nows : list (Z * Z)) (id : Z) (n : net) (c : PooledClientImpl)
    : outcome (list ptr * net * PooledClientImpl) :=
  match nows with
  | [] => Ret ([], n, c)
  | now :: nows =>
      let* (l, n, c) := acquire_thrift_client_by_id now n c id in
      let* (ls, n, c) := acquire_by_id_at nows id n c in Ret (l :: ls, n, c)
  end.

(** A pool with an error is never used. *)
Lemma acquire_by_id_unhealthy k now n c css out id i r :
  service_inv n (pc_vec c) css out → errors_below (S k) (pc_vec c) →
  pc_map c !! id = Some i → 0 ≤ i → pc_vec c !! Z.to_nat i = Some r → cp_error_cnt (rc_pool r) ≠ 0 →
  ∃ n' c' css' r', acquire_thrift_client_by_id now n c id = Ret (None, n', c') ∧
    service_inv n' (pc_vec c') css' out ∧ errors_below k (pc_vec c') ∧ pc_map c' = pc_map c ∧
    pc_vec c' !! Z.to_nat i = Some r' ∧ cp_error_cnt (rc_pool r) ≤ cp_error_cnt (rc_pool r').
Proof.
  intros Hs He Em Hi0 Er Herr. unfold acquire_thrift_client_by_id, replica_at. rewrite Em.
  destruct (Z.ltb_spec i 0); [lia|]. rewrite Er. cbn [defined obind].
  assert (errors_below k (pc_vec c)) as He' by (eapply errors_below_weaken; [|exact He]; lia).
  destruct (_ && _); [|exists n, c, css, r; by split_and!].
  destruct (service_focus _ _ _ _ _ r Hs Er) as (cs & nodes & Ecs & Hi & Hn & Hh).
  pose proof (proj1 (Forall_lookup _ _) He _ _ Er) as Her. cbn in Her.
  assert (∀ n' p' nodes' cs', pool_inv n' p' nodes' cs' (mjoin (delete (Z.to_nat i) css) ++ out) →
    0 ≤ cp_conn_num p' → health_ok p' → cp_error_cnt p' + Z.of_nat k < 2 ^ 31 → cp_error_cnt (rc_pool r) ≤ cp_error_cnt p' →
    ∃ n2 c2 css2 r', Ret (@None loc, n', set_pool_at i p' r c) = Ret (None, n2, c2) ∧ service_inv n2 (pc_vec c2) css2 out ∧
      errors_below k (pc_vec c2) ∧ pc_map c2 = pc_map c ∧ pc_vec c2 !! Z.to_nat i = Some r' ∧
      cp_error_cnt (rc_pool r) ≤ cp_error_cnt (rc_pool r')) as Hfin.
  { intros n' p' nodes' cs' Hi' Hn' Hh' Hk Hle. eexists _, _, _, _. split; [done|].
    split; [eapply service_unfocus; [exact Hs|done..]|]. split; [by apply errors_below_insert|]. split; [done|].
    split; [apply list_lookup_insert_eq, lookup_lt_is_Some; eauto|done]. }
  assert (∀ p, health_ok p → cp_error_cnt p ≠ 0 → ∃ s, is_healthy now p = Ret s ∧ s ≠ HEALTHY) as Hsick.
  { intros p [_ Hp] Hpe. unfold is_healthy. destruct (Z.eqb_spec (cp_error_cnt p) 0); [done|].
    destruct (_ <? _); [by eexists|]. destruct (Hp Hpe) as [ts ->]. cbn [defined obind]. destruct (_ || _); by eexists. }
  destruct (Hsick _ Hh Herr) as (s & -> & Hns). cbn [obind]. case_bool_decide.
  - destruct (retry_pool_inv now n (rc_pool r) nodes cs _ Hi Hn Hh) as (n1 & p1 & nodes1 & cs1 & -> & Hi1 & Hn1 & Hh1 & Hle1 & Hle2); [lia|].
    cbn [obind]. destruct (Hsick p1 Hh1) as (s1 & -> & Hns1); [destruct Hh; lia|]. cbn [obind].
    rewrite bool_decide_eq_false_2 by done. eapply Hfin; [exact Hi1|lia|done|lia|lia].
  - cbn [obind]. rewrite bool_decide_eq_false_2 by done. eapply Hfin; [exact Hi|lia|done|lia|lia].
Qed.

(** A service with two live replicas and a network that connects three times. *)
Definition wit_info (host : cstr) : ReplicaInfo := mkInfo host 9090 (genReplicId host 9090) TBINARY_PROTOCOL 1.
Definition wit_host0 : cstr := str "10.0.0.1".
Definition wit_host1 : cstr := str "10.0.0.2".
Definition wit_net : net := mkNet ∅ [true; true; true].
Definition wit_new : PooledClientImpl := PooledClientImpl_new (str "/jdns/im/ms/rpc") 1.
Definition wit_state : net * PooledClientImpl :=
  Eval vm_compute in
    match refresh_with [wit_info wit_host0; wit_info wit_host1] wit_net wit_new with
    | Ret s => s | _ => (wit_net, wit_new) end.

Definition wit_svc : service_state := mkSvc (fst wit_state) (snd wit_state) [] [].

Lemma wit_reaches : service_reaches (str "/jdns/im/ms/rpc") 1 wit_svc.
Proof.
  apply (service_run_reaches _ _ (0, 0) [Svc_refresh [wit_info wit_host0; wit_info wit_host1]] (mkSvc wit_net wit_new [] [])).
  - apply reaches_new.
  - vm_compute. reflexivity.
Defined.

Lemma wit_errors k : Z.of_nat k < 2 ^ 31 → errors_below k (pc_vec (snd wit_state)).
Proof. intros Hk. unfold errors_below, wit_state. cbn. repeat apply Forall_cons_2; cbn; try lia. apply Forall_nil_2. Qed.

(** ** Properties *)





(** C23: refreshing follows the registry.  When the replicas of the service can be read,
    the pools of replicas that are no longer listed as live go and the others stay as
    they are; at the end of the vector come pools of the live replicas without one, in
    the order of the registry, of exactly those for which one of the attempts to connect
    succeeds.  So every live replica has its pool when each answers one of the attempts.
    When the registry cannot be read, nothing changes. *)
Theorem refresh_follows_registry {R : Type} {HR : ZooApi R} json_node zh (r : R) path num s
    (Hnum : 0 ≤ num) (Hr : service_reaches path num s) :
  let n := sv_net s in let c := sv_client s in
  (∀ riv, get_all_replicas json_node zh r (pc_path c) = Ret (Some riv) →
    let stay := filter (listed (live riv)) (pc_vec c) in
    ∃ n' c' new, refresh_all json_node zh r n c = Ret (n', c') ∧ pc_vec c' = stay ++ new ∧
      info_of <$> new = new_replicas (Z.to_nat num) (nt_opens n) (info_of <$> stay) (live riv) ∧
      ((∀ k, (k < length (live riv))%nat → (0 < successes (Z.to_nat num) (drop (k * Z.to_nat num) (nt_opens n)))%nat) →
       ∀ i, i ∈ live riv → existsb (λ r, same_replica r i) (pc_vec c') = true)) ∧
  (get_all_replicas json_node zh r (pc_path c) = Ret None → refresh_all json_node zh r n c = Ret (n, c)).
Proof.
  intros n c. destruct (service_reaches_inv path num s Hnum Hr) as (css & [Hs Hn Hm _]). fold n c in Hs, Hn, Hm. split.
  - intros riv Hget stay. unfold refresh_all. rewrite Hget. cbn [obind].
    destruct (refresh_with_inv riv n c css _ Hs ltac:(lia) Hm) as (n' & c' & _ & new & Hrun & _ & _ & _ & Hv & Hnew & _).
    rewrite Hn in Hnew. fold stay in Hv, Hnew. exists n', c', new. split_and!; [done..|].
    intros Hall i Hi. rewrite existsb_info, Hv, fmap_app, Hnew.
    by apply (proj1 (Forall_forall _ _) (new_replicas_all (Z.to_nat num) (live riv) (nt_opens n) (info_of <$> stay) Hall)).
  - intros Hget. unfold refresh_all. by rewrite Hget.
Qed.

(** The registry lists the first of the two replicas only. *)
Definition wit_registry : gmap cstr cstr :=
  <[str "/jdns/im/ms/rpc/0" := str "0"]> (<[str "/jdns/im/ms/rpc" := str "jd_service"]> ∅).
Definition wit_json (_ : cstr) : outcome (option (cstr * Z * cstr * Z)) := Ret (Some (wit_host0, 9090, TBINARY_PROTOCOL, 1)).

Lemma refresh_follows_registry_witness :
  ∃ n' c' new, refresh_all wit_json true wit_registry (fst wit_state) (snd wit_state) = Ret (n', c') ∧
    pc_vec c' = filter (listed (live [wit_info wit_host0])) (pc_vec (snd wit_state)) ++ new ∧ info_of <$> new = [].
Proof.
  destruct (refresh_follows_registry wit_json true wit_registry (str "/jdns/im/ms/rpc") 1 wit_svc) as [Hthm _];
    [lia|exact wit_reaches|].
  destruct (Hthm [wit_info wit_host0]) as (n' & c' & new & H1 & H2 & H3 & _); [vm_compute; reflexivity|].
  exists n', c', new. split; [exact H1|]. split; [exact H2|]. rewrite H3. vm_compute. reflexivity.
Defined.

(** C27: a call through the proxy, alone on the service.  It never fails otherwise than by
    an exception of its own and leaves exactly the clients borrowed that were borrowed
    before.  It makes at most three calls, one per attempt, and the world is that after
    these calls; all of them but the last threw.  It returns the response of the last
    call, throws what the call of the third attempt threw, or throws that there is no
    service if the third attempt found no client.  Without replicas it calls no one; if
    the pool whose turn it is has an open connection and no errors, the first attempt
    calls that replica. *)
Theorem proxy_within_three_attempts {W} path num clock (call : nat → cstr * Z → W → outcome (call_result * W)) w s
    (Hnum : 0 ≤ num) (Hr : service_reaches path num s)
    (He : errors_below (3 * (2 + length (pc_vec (sv_client s)))) (pc_vec (sv_client s)))
    (Hcall : ∀ k a w, ∃ r w', call k a w = Ret (r, w')) :
  ∃ w' n' c' css' log, MessageProxy_dispatch clock call w (sv_net s) (sv_client s) = Ret (result_of log, w', n', c', log) ∧
    service_inv n' (pc_vec c') css' (sv_out s ++ releasing s) ∧ kept (sv_client s) c' ∧
    (length log ≤ 3)%nat ∧ log_ok 3 log ∧ replays call w log w' ∧ (pc_vec (sv_client s) = [] → log = []) ∧
    (∀ a, next_open (sv_net s) (sv_client s) a → ∃ r, last log = Some (2%nat, a, r)).
Proof.
  destruct (service_reaches_inv path num s Hnum Hr) as (css & [Hs _ _ _]).
  destruct (invoke_inv (λ _, True) clock call) with (retry := 3%nat) (w := w) (n := sv_net s) (c := sv_client s) (css := css)
    (out := sv_out s ++ releasing s) (log := @nil log_entry) as (w' & n' & c' & css' & log & Hrun & _ & Hs' & Hk & Hlog & Hre & Hm & Hnext);
    [by intros k a w0 _; destruct (Hcall k a w0) as (r & w1 & ?); eauto|done..|].
  rewrite app_nil_r in Hrun. exists w', n', c', css', log. split_and!; try done; [by apply log_ok_length|].
  intros a Ha. by apply Hnext.
Qed.

Lemma proxy_within_three_attempts_witness :
  ∃ w' n' c' log, MessageProxy_dispatch (λ _, (0, 0)) (λ _ _ w, Ret (Call_timed_out, S w)) 0%nat (fst wit_state) (snd wit_state) =
      Ret (result_of log, w', n', c', log) ∧ (length log ≤ 3)%nat.
Proof.
  destruct (proxy_within_three_attempts (str "/jdns/im/ms/rpc") 1 (λ _, (0, 0)) (λ _ _ w, Ret (Call_timed_out, S w)) 0%nat wit_svc)
    as (w' & n' & c' & css' & log & H1 & _ & _ & H2 & _).
  - lia.
  - exact wit_reaches.
  - apply wit_errors. reflexivity.
  - intros k a w. by eexists _, _.
  - exists w', n', c', log. split; [exact H1|exact H2].
Defined.

(** C40: erasing a pool leaves the map and the places of others behind.  When the first
    replica goes and the others stay, the map still leads from the id of the last one
    to its old place, past the end of the vector: the next access by that id reads
    out of bounds.  So does giving back a client whose place was searched for
    before, since the lock is dropped between the search and the use. *)
Theorem erasing_leaves_stale_indexes riv n c css out r0 rs r
    (Hs : service_inv n (pc_vec c) css out) (Hv : pc_vec c = r0 :: rs ++ [r])
    (Hm : pc_map c !! rc_replica_id r = Some (Z.of_nat (length (r0 :: rs))))
    (Hid : rc_replica_id r0 ≠ rc_replica_id r)
    (Hgone : ¬ listed (live riv) r0) (Hstay : Forall (listed (live riv)) (rs ++ [r]))
    (Hnew : Forall (λ i, existsb (λ r, same_replica r i) (rs ++ [r]) = true) (live riv)) :
  ∃ n' c', refresh_with riv n c = Ret (n', c') ∧ pc_vec c' = rs ++ [r] ∧
    (∀ now, acquire_thrift_client_by_id now n' c' (rc_replica_id r) = Fault) ∧
    (rc_backend r ∉ rc_backend <$> r0 :: rs → ∃ i, find_replica (pc_vec c) (rc_backend r) 0 = Some i ∧
     ∀ now l e, release_at now n' c' i l e = Fault).
Proof.
  assert (filter (listed (live riv)) (pc_vec c) = rs ++ [r]) as Hf.
  { rewrite Hv, filter_cons_False by done. by apply filter_listed. }
  destruct (erase_missing_inv (live riv) n (pc_vec c) css (pc_map c) out Hs) as (n1 & map1 & css1 & Hrun & Hs1 & Hmap & _).
  fold (listed (live riv)) in Hrun.
  assert (live riv ≠ []) as Hne.
  { intros E. rewrite E in Hstay. apply Forall_app in Hstay as [_ Hl]. by apply Forall_cons in Hl as [Hl _]. }
  assert (Z.of_nat (length (rs ++ [r])) ≤ Z.of_nat (length (r0 :: rs))) as Hout by (rewrite length_app; cbn [length]; lia).
  exists n1, (pc_set (rs ++ [r]) map1 c). split; [|split; [done|split]].
  - unfold refresh_with. fold (live riv). destruct (live riv) as [|i riv'] eqn:El; [done|].
    rewrite Hrun. cbn [obind]. change (filter _ (pc_vec c)) with (filter (listed (i :: riv')) (pc_vec c)).
    rewrite Hf. by apply add_missing_none.
  - intros now. unfold acquire_thrift_client_by_id. cbn [pc_map pc_set pc_vec]. rewrite Hmap, Hm by
      (rewrite Hv; constructor; [by right|eapply Forall_impl; [exact Hstay|by left]]).
    by rewrite replica_at_past.
  - intros Hb. exists (Z.of_nat (length (r0 :: rs))). split.
    + rewrite Hv, app_comm_cons. apply find_replica_at. done.
    + intros now l e. by apply release_at_past.
Qed.

Lemma erasing_leaves_stale_indexes_witness :
  ∃ n' c', refresh_with [wit_info wit_host1] (fst wit_state) (snd wit_state) = Ret (n', c') ∧
    acquire_thrift_client_by_id (0, 0) n' c' (genReplicId wit_host1 9090) = Fault.
Proof.
  destruct (service_reaches_inv _ _ _ (Zle_0_pos 1) wit_reaches) as (css & [Hs _ _ _]).
  change (service_inv (fst wit_state) (pc_vec (snd wit_state)) css []) in Hs.
  destruct (pc_vec (snd wit_state)) as [|r0 [|r []]] eqn:Ev; try discriminate Ev. rewrite <-Ev in Hs.
  pose proof Ev as Ev'. injection Ev' as <- <-.
  edestruct (erasing_leaves_stale_indexes [wit_info wit_host1] (fst wit_state) (snd wit_state) css [])
    with (rs := @nil ReplicaConnPool) as (n' & c' & H1 & _ & H2 & _).
  - exact Hs.
  - exact Ev.
  - vm_compute. reflexivity.
  - vm_compute. discriminate.
  - vm_compute. discriminate.
  - constructor; [vm_compute; reflexivity|constructor].
  - constructor; [vm_compute; reflexivity|constructor].
  - exists n', c'. split; [exact H1|exact (H2 (0, 0))].
Defined.

(** a pool that has had an error is lost for access by id.  Although the pool is
    refreshed when its back-off is over, its error count stays, so no request for a
    client of that replica, however late, is ever served. *)
Theorem by_id_never_recovers nows n c css out id i r
    (Hs : service_inv n (pc_vec c) css out) (He : errors_below (length nows) (pc_vec c))
    (Hm : pc_map c !! id = Some i) (Hi : 0 ≤ i) (Hv : pc_vec c !! Z.to_nat i = Some r)
    (Herr : cp_error_cnt (rc_pool r) ≠ 0) :
  ∃ n' c', acquire_by_id_at nows id n c = Ret (replicate (length nows) None, n', c').
Proof.
  revert n c css r Hs He Hm Hv Herr. induction nows as [|now nows IH]; intros n c css r Hs He Hm Hv Herr;
    cbn [acquire_by_id_at length replicate].
  { by exists n, c. }
  destruct (acquire_by_id_unhealthy (length nows) now n c css out id i r Hs He Hm Hi Hv Herr)
    as (n1 & c1 & css1 & r1 & -> & Hs1 & He1 & Em1 & Er1 & Hle). cbn [obind].
  destruct (service_focus _ _ _ _ _ r Hs Hv) as (_ & _ & _ & _ & _ & Hh).
  destruct (IH n1 c1 css1 r1 Hs1 He1) as (n2 & c2 & ->); try done; [congruence|destruct Hh; lia|].
  cbn [obind]. by exists n2, c2.
Qed.

(** A client of the first replica was dropped, at time 100. *)
Definition wit_dropped : net * PooledClientImpl :=
  Eval vm_compute in
    match (let* (l, n, c) := acquire_thrift_client (100, 0) (fst wit_state) (snd wit_state) in
           let* (_, n, c) := release_thrift_client (100, 0) n c l CONN_DROP in Ret (n, c)) with
    | Ret s => s | _ => wit_state end.

Lemma wit_dropped_reaches : service_reaches (str "/jdns/im/ms/rpc") 1 (mkSvc (fst wit_dropped) (snd wit_dropped) [] []).
Proof.
  apply (service_run_reaches _ _ (100, 0) [Svc_acquire; Svc_search 0 CONN_DROP; Svc_continue 0; Svc_continue 0] wit_svc _ wit_reaches).
  vm_compute. reflexivity.
Defined.

Lemma by_id_never_recovers_witness :
  ∃ n' c', acquire_by_id_at [(200, 0); (300, 0)] (genReplicId wit_host0 9090) (fst wit_dropped) (snd wit_dropped) =
    Ret ([None; None], n', c').
Proof.
  destruct (service_reaches_inv _ _ _ (Zle_0_pos 1) wit_dropped_reaches) as (css & [Hs _ _ _]).
  change (service_inv (fst wit_dropped) (pc_vec (snd wit_dropped)) css []) in Hs.
  eapply (by_id_never_recovers [(200, 0); (300, 0)] (fst wit_dropped) (snd wit_dropped) css [] _ 0).
  - exact Hs.
  - unfold errors_below. repeat apply Forall_cons_2; cbn; try lia. apply Forall_nil_2.
  - vm_compute. reflexivity.
  - lia.
  - vm_compute. reflexivity.
  - vm_compute. discriminate.
Defined.

(** the way of a registry event from the watcher through the task manager of the
    service to its update thread.  A change of the children of the service's node
    makes the thread refresh all pools in its second turn, and a new value of a child
    makes it read that child, the older tasks waiting meanwhile.  But the creation of
    a child is thrown away: the task carries the child's path, which never is the
    path of the service.  No other service sees the event. *)
Theorem registry_events_reach_the_pools {R : Type} {HR : ZooApi R} json_node zh (r : R) tod now f m ts busy free n c
    (Hm : f !! pc_path c = Some m) (Hrep : um_rep m (mkStack true ts) busy free)
    (Hroom : (length ts < UPDATE_TASK_POOL_SIZE)%nat) (Hpath : (length DEFAULT_NAMESPACE < length (pc_path c))%nat) :
  (∃ m1 m2 m3 busy' free', on_child_changed tod f (pc_path c) = Ret (<[pc_path c := m1]> f) ∧
    svc_turn json_node zh r now n c m1 = Ret (true, n, c, m2) ∧ um_rep m3 (mkStack true ts) busy' free' ∧
    svc_turn json_node zh r now n c m2 = let* (n, c) := refresh_all json_node zh r n c in Ret (true, n, c, m3)) ∧
  ∀ path, parent_path path = Some (pc_path c) →
    (∃ m1 m2 busy' free', on_node_value_changed tod f path = Ret (<[pc_path c := m1]> f) ∧
      um_rep m2 (mkStack true ts) busy' free' ∧
      svc_turn json_node zh r now n c m1 = let* (n, c) := value_changed json_node zh r n c path in Ret (true, n, c, m2)) ∧
    (∃ m1 m2 busy' free', on_node_created tod f path = Ret (<[pc_path c := m1]> f) ∧
      um_rep m2 (mkStack true ts) busy' free' ∧ svc_turn json_node zh r now n c m1 = Ret (true, n, c, m2)).
Proof.
  assert (pc_path c ≠ []) as Hne by (intros E; rewrite E in Hpath; cbn in Hpath; lia). split.
  - destruct (notify_top tod f _ m ts busy free CHILD_CHANGED (pc_path c) Hm Hrep Hroom) as (m1 & b1 & f1 & E1 & H1); [done|].
    destruct (svc_turn_top json_node zh r now n c m1 _ _ _ _ H1) as (m2 & b2 & f2 & H2 & E2); [done..|].
    destruct (put_update_task_top now m2 ts b2 f2 REFRESH_ALL [] H2 Hroom) as (m3 & b3 & f3 & E3 & H3); [done|].
    destruct (svc_turn_top json_node zh r now n c m3 _ _ _ _ H3) as (m4 & b4 & f4 & H4 & E4); [done..|].
    exists m1, m3, m4, b4, f4. split; [done|]. split; [|split; [done|]].
    + rewrite E2. cbn [process_update_task task_type task_arg]. rewrite bool_decide_eq_false_2, bool_decide_eq_true_2 by done.
      cbn [negb orb]. by rewrite E3.
    + rewrite E4. cbn [process_update_task task_type]. by destruct (refresh_all json_node zh r n c) as [[]| | | |].
  - intros path Hp. pose proof (parent_path_shorter _ _ Hp) as Hlen.
    assert (path ≠ pc_path c) as Hpc by (intros ->; lia). assert (path ≠ []) as Hp0 by (by intros ->).
    unfold on_node_value_changed, on_node_created, notify_parent. rewrite Hp.
    destruct (Nat.ltb_spec (length DEFAULT_NAMESPACE) (length (pc_path c))); [|lia]. split.
    + destruct (notify_top tod f _ m ts busy free NODE_VALUE_CHANGED path Hm Hrep Hroom) as (m1 & b1 & f1 & E1 & H1); [done|].
      destruct (svc_turn_top json_node zh r now n c m1 _ _ _ _ H1) as (m2 & b2 & f2 & H2 & E2); [done..|].
      exists m1, m2, b2, f2. split; [done|]. split; [done|]. rewrite E2. cbn [process_update_task task_type task_arg].
      rewrite !bool_decide_eq_false_2 by done. cbn [orb]. by destruct (value_changed json_node zh r n c path) as [[]| | | |].
    + destruct (notify_top tod f _ m ts busy free NODE_CREATED path Hm Hrep Hroom) as (m1 & b1 & f1 & E1 & H1); [done|].
      destruct (svc_turn_top json_node zh r now n c m1 _ _ _ _ H1) as (m2 & b2 & f2 & H2 & E2); [done..|].
      exists m1, m2, b2, f2. split; [done|]. split; [done|]. rewrite E2. cbn [process_update_task task_type task_arg].
      rewrite !bool_decide_eq_false_2 by done. done.
Qed.

Lemma registry_events_reach_the_pools_witness :
  ∃ m1, on_child_changed (0, 0) {[pc_path (snd wit_state) := opened]} (pc_path (snd wit_state)) =
    Ret (<[pc_path (snd wit_state) := m1]> {[pc_path (snd wit_state) := opened]}).
Proof.
  destruct opened_rep as [free Hrep].
  destruct (registry_events_reach_the_pools wit_json true wit_registry (0, 0) (0, 0)
    {[pc_path (snd wit_state) := opened]} opened [] [] free (fst wit_state) (snd wit_state)) as [(m1 & _ & _ & _ & _ & H & _) _].
  - apply lookup_singleton_eq.
  - exact Hrep.
  - unfold UPDATE_TASK_POOL_SIZE. cbn. lia.
  - apply (bool_decide_unpack _). vm_compute. exact I.
  - exists m1. exact H.
Defined.
