(* ===== verification/Redis.v ===== *)
(** redisop::RedisOperator and im::RouteInfoPublisher (framework/lib/redis_operator.cpp,
    message/route_info_publisher.cpp): where the server of every user is made known.

    The hiredis library and the redis server behind it are the class [Hiredis]; a
    command is the format string and its arguments ([%d] is passed as printed).
    Replies are heap objects, so that freeing them is visible; the context of an
    operator has one owner and is a value.  [HiredisLaws] states what the documentation
    promises of a server that is up. *)
From S2P Require Import Prelude Heap StringAlgos Ini Util Zookeeper.

Inductive redisReply :=
  | REDIS_REPLY_STRING (s : cstr) | REDIS_REPLY_ARRAY (element : list redisReply) | REDIS_REPLY_INTEGER (n : Z)
  | REDIS_REPLY_NIL | REDIS_REPLY_STATUS (s : cstr) | REDIS_REPLY_ERROR (s : cstr).

(** [C] is the type of contexts; [redis_connect] returns [None] for a null pointer. *)
Class Hiredis (R C : Type) := {
  redisConnectWithTimeout : R → cstr → Z → Z * Z → R * option C;
  redisContext_err : C → bool;
  redisSetTimeout : C → Z * Z → bool;
  redisCommand : R → C → cstr → list cstr → R * C * option redisReply }.

Section operator.
Context {R C : Type} {HR : Hiredis R C}.

Record RedisOperator := mkOperator {
  ro_host : cstr; ro_port : Z; ro_db_index : Z; ro_keys_nbr_per_mget : Z;
  ro_conn_timeout : Z * Z; ro_io_timeout : Z * Z; ro_redis : option C; ro_channel : cstr }.

Definition DEFAULT_CONN_TIMEOUT : Z * Z := (0, 20000).
Definition DEFAULT_IO_TIMEOUT : Z * Z := (0, 10000).
Definition KEYS_NUMBER_PER_MGET : Z := 100.

Definition RedisOperator_new : RedisOperator :=
  mkOperator [] 0 (-1) KEYS_NUMBER_PER_MGET DEFAULT_CONN_TIMEOUT DEFAULT_IO_TIMEOUT None [].
Definition ro_set_redis (c : option C) (o : RedisOperator) : RedisOperator :=
  mkOperator (ro_host o) (ro_port o) (ro_db_index o) (ro_keys_nbr_per_mget o) (ro_conn_timeout o) (ro_io_timeout o)
    c (ro_channel o).

(** The library and the reply objects that are alive. *)
Record redis_world := mkRedis { rw_lib : R; rw_replies : gmap loc redisReply }.
Definition rw_set_lib (r : R) (w : redis_world) : redis_world := mkRedis r (rw_replies w).

Definition FreeRedisConnection (o : RedisOperator) : RedisOperator :=
  match ro_redis o with Some _ => ro_set_redis None o | None => o end.

(** [freeReplyObject], which accepts a null pointer. *)
Definition freeReplyObject (w : redis_world) (reply : ptr) : outcome redis_world :=
  match reply with
  | Some _ => let* h := dealloc (rw_replies w) reply in Ret (mkRedis (rw_lib w) h)
  | None => Ret w
  end.

Definition _CheckReply (w : redis_world) (reply : ptr) : outcome bool :=
  let* r := load (rw_replies w) reply in
  Ret (match r with REDIS_REPLY_ERROR _ => false | _ => true end).

(** [reply == NULL || !_CheckReply(reply)], negated. *)
Definition reply_ok (w : redis_world) (reply : ptr) : outcome bool :=
  match reply with Some _ => _CheckReply w reply | None => Ret false end.

(** A command on [m_redis]. *)
Definition command (fmt : cstr) (args : list cstr) (o : RedisOperator) (w : redis_world)
    : outcome (ptr * RedisOperator * redis_world) :=
  let* c := defined (ro_redis o) in
  let '(r, c, reply) := redisCommand (rw_lib w) c fmt args in
  let o := ro_set_redis (Some c) o in
  match reply with
  | Some rep =>
      let l := fresh (dom (rw_replies w)) in
      Ret (Some l, o, mkRedis r (<[l := rep]> (rw_replies w)))
  | None => Ret (None, o, rw_set_lib r w)
  end.

(** ** Connecting *)
Definition GetRedisConnection (o : RedisOperator) (w : redis_world) : outcome (bool * RedisOperator * redis_world) :=
  if bool_decide (ro_host o = []) || (ro_port o =? 0) then Ret (false, o, w)
  else
    let (r, c) := redisConnectWithTimeout (rw_lib w) (c_str (ro_host o)) (ro_port o) (ro_conn_timeout o) in
    match c with
    | None => Fault (* m_redis->errstr *)
    | Some c => Ret (negb (redisContext_err c), ro_set_redis (Some c) o, rw_set_lib r w)
    end.

Definition SetRedisDB (o : RedisOperator) (w : redis_world) : outcome (bool * RedisOperator * redis_world) :=
  if ro_db_index o =? -1 then Ret (false, o, w)
  else
    match ro_redis o with
    | None => Ret (false, o, w)
    | Some _ =>
        let* idx := print_d (ro_db_index o) in
        let* (reply, o, w) := command (str "SELECT %d") [idx] o w in
        let* ok := reply_ok w reply in
        let* w := freeReplyObject w reply in
        Ret (ok, o, w)
    end.

Definition Connect (o : RedisOperator) (w : redis_world) : outcome (bool * RedisOperator * redis_world) :=
  let* (ok, o, w) := GetRedisConnection o w in
  if negb ok then Ret (false, FreeRedisConnection o, w)
  else
    let* c := defined (ro_redis o) in
    if negb (redisSetTimeout c (ro_io_timeout o)) then Ret (false, FreeRedisConnection o, w)
    else
      let* (ok, o, w) := SetRedisDB o w in
      if (ok : bool) then Ret (true, o, w) else Ret (false, FreeRedisConnection o, w).

(** [m_redis == NULL && !Connect()], negated. *)
Definition connected (o : RedisOperator) (w : redis_world) : outcome (bool * RedisOperator * redis_world) :=
  match ro_redis o with None => Connect o w | Some _ => Ret (true, o, w) end.

(** [reply == NULL && m_redis->err != REDIS_OK] *)
Definition broken (o : RedisOperator) (reply : ptr) : outcome bool :=
  match reply with
  | Some _ => Ret false
  | None => let* c := defined (ro_redis o) in Ret (redisContext_err c)
  end.

(** A command, tried again on a new connection when the old one is broken; [None] is
    the early [return false]. *)
Definition command_retry (fmt : cstr) (args : list cstr) (o : RedisOperator) (w : redis_world)
    : outcome (option ptr * RedisOperator * redis_world) :=
  let* (reply, o, w) := command fmt args o w in
  let* again := broken o reply in
  if (again : bool) then
    let* (ok, o, w) := Connect (FreeRedisConnection o) w in
    if (ok : bool) then let* (reply, o, w) := command fmt args o w in Ret (Some reply, o, w)
    else Ret (None, o, w)
  else Ret (Some reply, o, w).

(** ** Commands *)
(** What [Set] and [MSet] share. *)
Definition simple_command (fmt : cstr) (args : list cstr) (o : RedisOperator) (w : redis_world)
    : outcome (bool * RedisOperator * redis_world) :=
  let* (ok, o, w) := connected o w in
  if negb ok then Ret (false, o, w)
  else
    let* (reply, o, w) := command_retry fmt args o w in
    match reply with
    | None => Ret (false, o, w)
    | Some reply =>
        let* ok := reply_ok w reply in
        let* w := freeReplyObject w reply in Ret (ok, o, w)
    end.

Definition Set_ (key value : cstr) (o : RedisOperator) (w : redis_world) :=
  simple_command (str "SET %s %s") [c_str key; c_str value] o w.

Definition mset_command (pairs : list (cstr * cstr)) : cstr :=
  str "MSET" ++ mjoin ((λ kv, str " " ++ fst kv ++ str " " ++ snd kv) <$> pairs).
Definition MSet (pairs : list (cstr * cstr)) (o : RedisOperator) (w : redis_world) :=
  simple_command (c_str (mset_command pairs)) [] o w.

(** [None] is the result [false]. *)
Definition Get (key : cstr) (o : RedisOperator) (w : redis_world)
    : outcome (option cstr * RedisOperator * redis_world) :=
  let* (ok, o, w) := connected o w in
  if negb ok then Ret (None, o, w)
  else
    let* (reply, o, w) := command_retry (str "GET %s") [c_str key] o w in
    match reply with
    | None => Ret (None, o, w)
    | Some reply =>
        let* ok := reply_ok w reply in
        if negb ok then let* w := freeReplyObject w reply in Ret (None, o, w)
        else
          let* r := load (rw_replies w) reply in
          let* w := freeReplyObject w reply in
          Ret (match r with REDIS_REPLY_STRING s => Some s | _ => None end, o, w)
    end.

(** The reply object of [Pub] is freed only after a reconnection, and then before it
    is checked. *)
Definition Pub (msg : cstr) (o : RedisOperator) (w : redis_world) : outcome (bool * RedisOperator * redis_world) :=
  let* (ok, o, w) := connected o w in
  if negb ok then Ret (false, o, w)
  else if bool_decide (ro_channel o = []) then Abort
  else
    let cmd o w := command (str "%s %s %s") [str "PUBLISH"; c_str (ro_channel o); c_str msg] o w in
    let* (reply, o, w) := cmd o w in
    let* again := broken o reply in
    if (again : bool) then
      let* (ok, o, w) := Connect (FreeRedisConnection o) w in
      if negb ok then Ret (false, o, w)
      else
        let* (reply, o, w) := cmd o w in
        let* w := freeReplyObject w reply in
        let* ok := reply_ok w reply in Ret (ok, o, w)
    else let* ok := reply_ok w reply in Ret (ok, o, w).

Definition reply_strings (element : list redisReply) : list cstr :=
  omap (λ r, match r with REDIS_REPLY_STRING s => Some s | _ => None end) element.

(** [keys] is what the caller passed in. *)
Definition Keys (keys : list cstr) (o : RedisOperator) (w : redis_world)
    : outcome (bool * list cstr * RedisOperator * redis_world) :=
  let* (ok, o, w) := connected o w in
  if negb ok then Ret (false, keys, o, w)
  else
    let* (reply, o, w) := command_retry (str "KEYS *") [] o w in
    match reply with
    | None => Ret (false, keys, o, w)
    | Some reply =>
        let* ok := reply_ok w reply in
        if negb ok then let* w := freeReplyObject w reply in Ret (false, keys, o, w)
        else
          let* r := load (rw_replies w) reply in
          let* w := freeReplyObject w reply in
          Ret (true, keys ++ match r with REDIS_REPLY_ARRAY es => reply_strings es | _ => [] end, o, w)
    end.
(** ** MGET in chunks *)
Definition mget_command (keys : list cstr) : cstr := str "MGET" ++ mjoin ((λ k, str " " ++ k) <$> keys).

(** [values.resize(n)] *)
Definition resize (n : nat) (values : list cstr) : list cstr := take n values ++ replicate (n - length values) [].

(** [std::fill] of [values.begin() + first] to [values.begin() + last] with the empty string. *)
Definition fill_empty (first last : Z) (values : list cstr) : outcome (list cstr) :=
  if last <? first then Fault
  else Ret (take (Z.to_nat first) values ++ replicate (Z.to_nat (last - first)) [] ++ drop (Z.to_nat last) values).

Definition reply_text (r : redisReply) : cstr := match r with REDIS_REPLY_STRING s => s | _ => [] end.

(** [values[i + idx] = ...] for every element. *)
Fixpoint store_elements (i : nat) (element : list redisReply) (values : list cstr) : list cstr :=
  match element with
  | [] => values
  | r :: es => store_elements (S i) es (<[i := reply_text r]> values)
  end.

(** What is done with the reply to one chunk. *)
Definition take_reply (i per_op : Z) (r : redisReply) (values : list cstr) : outcome (list cstr) :=
  match r with
  | REDIS_REPLY_ARRAY es =>
      if negb (Z.of_nat (length es) =? per_op) then fill_empty i per_op values
      else Ret (store_elements (Z.to_nat i) es values)
  | _ => fill_empty i per_op values
  end.

Fixpoint mget_loop (fuel : nat) (i : Z) (keys values : list cstr) (o : RedisOperator) (w : redis_world)
    : outcome (bool * list cstr * RedisOperator * redis_world) :=
  let key_size := Z.of_nat (length keys) in
  let step := u64 (ro_keys_nbr_per_mget o) in
  if key_size <=? i then Ret (true, values, o, w)
  else
    match fuel with
    | O => Diverge
    | S fuel =>
        let per_op := if u64 (i + step) <=? key_size then step else key_size - i in
        let cmd := mget_command (take (Z.to_nat per_op) (drop (Z.to_nat i) keys)) in
        let* (reply, o, w) := command_retry (c_str cmd) [] o w in
        match reply with
        | None => Ret (false, values, o, w)
        | Some reply =>
            let* ok := reply_ok w reply in
            let* values :=
              if (ok : bool) then let* r := load (rw_replies w) reply in take_reply i per_op r values
              else fill_empty i per_op values in
            let* w := freeReplyObject w reply in
            mget_loop fuel (u64 (i + step)) keys values o w
        end
    end.

Definition MGet (keys values : list cstr) (o : RedisOperator) (w : redis_world)
    : outcome (bool * list cstr * RedisOperator * redis_world) :=
  let* (ok, o, w) := connected o w in
  if negb ok then Ret (false, values, o, w)
  else mget_loop (length keys) 0 keys (resize (length keys) values) o w.

(** ** The publisher *)
(** [rp_threads] is the thread-local storage: [_init_done] and [_redis_op]. *)
Record RouteInfoPublisher := mkPublisher {
  rp_host : cstr; rp_port : Z; rp_conn_tv : Z * Z; rp_io_tv : Z * Z; rp_channel : cstr; rp_db_index : Z;
  rp_threads : gmap Z (bool * RedisOperator) }.

Definition publisher_init (host : cstr) (port : Z) (conn_tv io_tv : Z * Z) (channel : cstr) (db_index : Z)
    (p : RouteInfoPublisher) : bool * RouteInfoPublisher :=
  (negb (bool_decide (host = [])) && negb (bool_decide (channel = [])),
   mkPublisher host port conn_tv io_tv channel db_index (rp_threads p)).

(** [ts_get] makes the objects of a thread when it first asks. *)
Definition ts_get (p : RouteInfoPublisher) (tid : Z) : bool * RedisOperator :=
  default (false, RedisOperator_new) (rp_threads p !! tid).
Definition ts_put (p : RouteInfoPublisher) (tid : Z) (o : RedisOperator) : RouteInfoPublisher :=
  mkPublisher (rp_host p) (rp_port p) (rp_conn_tv p) (rp_io_tv p) (rp_channel p) (rp_db_index p)
    (<[tid := (true, o)]> (rp_threads p)).

(** The operator of the thread, configured on first use. *)
Definition thread_operator (p : RouteInfoPublisher) (tid : Z) : RedisOperator :=
  let (init_done, o) := ts_get p tid in
  if init_done then o
  else mkOperator (rp_host p) (rp_port p) (rp_db_index p) (ro_keys_nbr_per_mget o) (rp_conn_tv p) (rp_io_tv p)
         (ro_redis o) (rp_channel p).

Definition publishRouteInfo (tid uid msgh_id : Z) (p : RouteInfoPublisher) (w : redis_world)
    : outcome (bool * RouteInfoPublisher * redis_world) :=
  let o := thread_operator p tid in
  let* uid_str := Int64ToString uid in
  let* msgh_id_str := Uint64ToString msgh_id in
  let* (ok, o, w) := Set_ uid_str msgh_id_str o w in
  if negb ok then Ret (false, ts_put p tid o, w)
  else
    let* (ok, o, w) := Pub (uid_str ++ str ":" ++ msgh_id_str) o w in
    Ret (ok, ts_put p tid o, w).
End operator.
Arguments RedisOperator C : clear implicits.
Arguments redis_world R : clear implicits.
Arguments RouteInfoPublisher C : clear implicits.

(** ** What hiredis and redis promise *)
(** An argument that survives being pasted into a format string. *)
Definition plain (s : cstr) : Prop := s ≠ [] ∧ (0 ∉ s) ∧ (32 ∉ s) ∧ (37 ∉ s).

(** [redis_up] is a server that takes connections and [redis_alive] a context it still
    serves; [redis_data] are its databases and [redis_log] what was published.  A context
    may be dead after any command that changes the server. *)
Class HiredisLaws (R C : Type) `{Hiredis R C} := {
  redis_up : R → bool;
  redis_alive : R → C → bool;
  redis_db : C → Z;
  redis_data : R → gmap (Z * cstr) cstr;
  redis_log : R → list (cstr * cstr);
  connect_law r host port tv : redis_up r = true →
    ∃ c, redisConnectWithTimeout r host port tv = (r, Some c) ∧ redisContext_err c = false ∧ redis_alive r c = true;
  timeout_law r c tv : redis_alive r c = true → redisSetTimeout c tv = true;
  dead_law r c fmt args : redis_alive r c = false →
    ∃ c', redisCommand r c fmt args = (r, c', None) ∧ redisContext_err c' = true;
  select_law r c n s : redis_alive r c = true → print_d n = Ret s → 0 ≤ n < 16 →
    ∃ c', redisCommand r c (str "SELECT %d") [s] = (r, c', Some (REDIS_REPLY_STATUS (str "OK"))) ∧
      redis_db c' = n ∧ redis_alive r c' = true;
  set_law r c k v : redis_alive r c = true →
    ∃ r', redisCommand r c (str "SET %s %s") [k; v] = (r', c, Some (REDIS_REPLY_STATUS (str "OK"))) ∧
      redis_data r' = <[(redis_db c, k) := v]> (redis_data r) ∧ redis_log r' = redis_log r ∧
      redis_up r' = redis_up r;
  publish_law r c channel msg : redis_alive r c = true →
    ∃ r' n, redisCommand r c (str "%s %s %s") [str "PUBLISH"; channel; msg] = (r', c, Some (REDIS_REPLY_INTEGER n)) ∧
      redis_data r' = redis_data r ∧ redis_log r' = redis_log r ++ [(channel, msg)] ∧
      redis_up r' = redis_up r;
  mget_law r c keys : redis_alive r c = true → keys ≠ [] → Forall plain keys →
    redisCommand r c (mget_command keys) [] =
      (r, c, Some (REDIS_REPLY_ARRAY
        ((λ k, match redis_data r !! (redis_db c, k) with Some v => REDIS_REPLY_STRING v | None => REDIS_REPLY_NIL end)
           <$> keys))) }.

(** ** Lemmas *)
Lemma c_str_id s : 0 ∉ s → c_str s = s.
Proof.
  induction s as [|c s IH]; intros Hs; cbn; [done|]. destruct (Z.eqb_spec c 0); [set_solver|]. rewrite IH; set_solver.
Qed.

Lemma print_d_total n : 0 ≤ n < 2 ^ 63 → ∃ s, print_d n = Ret s ∧ Forall is_digit s.
Proof.
  intros Hn. unfold print_d, Int64ToString. destruct (Z.leb_spec 0 n); [|lia].
  destruct (LLToStr_spec n) as (s & -> & Hs & _); [lia|]. by exists s.
Qed.

Section lemmas.
Context {R C : Type} `{HL : HiredisLaws R C}.
Implicit Types (o : RedisOperator C) (w : redis_world R).

(** An operator with all its settings, whose context, if the server still serves it,
    is on the right database. *)
Record configured (o : RedisOperator C) (r : R) : Prop := {
  cf_host : ro_host o ≠ [];
  cf_port : ro_port o ≠ 0;
  cf_db : 0 ≤ ro_db_index o < 16;
  cf_ctx : ∀ c, ro_redis o = Some c → redis_alive r c = true → redis_db c = ro_db_index o }.

(** A context that works. *)
Definition working (o : RedisOperator C) (r : R) (c : C) : Prop :=
  redis_alive r c = true ∧ redis_db c = ro_db_index o.

Lemma freeReplyObject_fresh (r : R) h l rep :
  h !! l = None → freeReplyObject (mkRedis r (<[l := rep]> h)) (Some l) = Ret (mkRedis r h).
Proof.
  intros Hl. unfold freeReplyObject. cbn [rw_replies rw_lib].
  rewrite (dealloc_Some _ _ rep) by apply lookup_insert_eq. cbn [obind]. by rewrite delete_insert_id.
Qed.

Lemma command_alive fmt args o w c r' c' rep :
  ro_redis o = Some c → redisCommand (rw_lib w) c fmt args = (r', c', Some rep) →
  ∃ l, rw_replies w !! l = None ∧
    command fmt args o w = Ret (Some l, ro_set_redis (Some c') o, mkRedis r' (<[l := rep]> (rw_replies w))).
Proof.
  intros Hc Hcmd. exists (fresh (dom (rw_replies w))). split; [apply not_elem_of_dom, is_fresh|].
  unfold command. rewrite Hc. cbn [defined obind]. by rewrite Hcmd.
Qed.

Lemma reply_ok_fresh (r : R) h l rep :
  reply_ok (mkRedis r (<[l := rep]> h)) (Some l) =
  Ret (match rep with REDIS_REPLY_ERROR _ => false | _ => true end).
Proof. unfold reply_ok, _CheckReply. cbn [rw_replies]. by rewrite (load_Some _ _ rep) by apply lookup_insert_eq. Qed.

Lemma Connect_up o w :
  redis_up (rw_lib w) = true → ro_host o ≠ [] → ro_port o ≠ 0 → 0 ≤ ro_db_index o < 16 →
  ∃ c, Connect o w = Ret (true, ro_set_redis (Some c) o, w) ∧ working o (rw_lib w) c.
Proof.
  intros Hup Hh Hp Hdb. unfold Connect, GetRedisConnection.
  rewrite bool_decide_eq_false_2 by done. destruct (Z.eqb_spec (ro_port o) 0); [done|]. cbn [orb].
  destruct (connect_law (rw_lib w) (c_str (ro_host o)) (ro_port o) (ro_conn_timeout o) Hup) as (c & -> & He & Ha).
  rewrite He. cbn [negb obind ro_redis ro_set_redis defined ro_io_timeout]. rewrite (timeout_law _ _ _ Ha). cbn [negb].
  unfold SetRedisDB. cbn [ro_db_index ro_redis ro_set_redis]. destruct (Z.eqb_spec (ro_db_index o) (-1)); [lia|].
  destruct (print_d_total (ro_db_index o)) as (s & Hs & _); [lia|]. rewrite Hs. cbn [obind].
  destruct (select_law _ _ _ _ Ha Hs Hdb) as (c2 & Hsel & Hc2 & Ha2).
  destruct (command_alive (str "SELECT %d") [s] (ro_set_redis (Some c) o) (rw_set_lib (rw_lib w) w) c _ _ _ eq_refl Hsel)
    as (l & Hl & ->). cbn [obind]. rewrite reply_ok_fresh. cbn [obind]. rewrite freeReplyObject_fresh by done. cbn [obind].
  exists c2. split; [by destruct w|done].
Qed.

(** A command that works on a working context works with [command_retry] on any. *)
Lemma command_retry_up fmt args o w c (Q : R → C → redisReply → Prop) :
  redis_up (rw_lib w) = true → configured o (rw_lib w) → ro_redis o = Some c →
  (∀ c, working o (rw_lib w) c → ∃ r' c' rep, redisCommand (rw_lib w) c fmt args = (r', c', Some rep) ∧ Q r' c' rep) →
  ∃ l r' c' rep, command_retry fmt args o w =
      Ret (Some (Some l), ro_set_redis (Some c') o, mkRedis r' (<[l := rep]> (rw_replies w))) ∧
    rw_replies w !! l = None ∧ Q r' c' rep.
Proof.
  intros Hup [Hh Hp Hdb Hctx] Hc Hcmd. unfold command_retry. destruct (redis_alive (rw_lib w) c) eqn:Ha.
  - destruct (Hcmd c) as (r' & c' & rep & Hrun & HQ); [split; eauto|].
    destruct (command_alive fmt args o w c _ _ _ Hc Hrun) as (l & Hl & ->). cbn [obind broken].
    exists l, r', c', rep. done.
  - destruct (dead_law _ _ fmt args Ha) as (c1 & Hdead & He). unfold command at 1. rewrite Hc. cbn [defined obind].
    rewrite Hdead. cbn [obind broken ro_redis ro_set_redis defined]. rewrite He. unfold FreeRedisConnection.
    cbn [ro_redis ro_set_redis]. replace (rw_set_lib (rw_lib w) w) with w by (by destruct w).
    destruct (Connect_up (ro_set_redis None (ro_set_redis (Some c1) o)) w) as (c2 & Hcon & Hw2); [done..|].
    rewrite Hcon. cbn [obind]. destruct (Hcmd c2 Hw2) as (r' & c' & rep & Hrun & HQ).
    destruct (command_alive fmt args (ro_set_redis (Some c2) (ro_set_redis None (ro_set_redis (Some c1) o))) w c2 _ _ _ eq_refl Hrun)
      as (l & Hl & ->). cbn [obind]. exists l, r', c', rep. done.
Qed.

Lemma connected_up o w :
  redis_up (rw_lib w) = true → configured o (rw_lib w) →
  ∃ c, connected o w = Ret (true, ro_set_redis (Some c) o, w) ∧ configured (ro_set_redis (Some c) o) (rw_lib w).
Proof.
  intros Hup Hcf. pose proof Hcf as [Hh Hp Hdb Hctx]. unfold connected. destruct (ro_redis o) as [c|] eqn:Hc.
  - exists c. split; [by destruct o; cbn in *; subst|]. split; [done..|]. cbn. intros c' [= <-]. by apply Hctx.
  - destruct (Connect_up o w Hup Hh Hp Hdb) as (c & -> & Hw & Hcdb). exists c. split; [done|].
    split; [done..|]. cbn. by intros ? [= <-].
Qed.

Lemma Set_up k v o w :
  redis_up (rw_lib w) = true → configured o (rw_lib w) → (0 ∉ k) → (0 ∉ v) →
  ∃ r' c', Set_ k v o w = Ret (true, ro_set_redis (Some c') o, mkRedis r' (rw_replies w)) ∧ redis_db c' = ro_db_index o ∧
    redis_data r' = <[(ro_db_index o, k) := v]> (redis_data (rw_lib w)) ∧ redis_log r' = redis_log (rw_lib w) ∧
    redis_up r' = true.
Proof.
  intros Hup Hcf Hk Hv. unfold Set_, simple_command. rewrite !c_str_id by done.
  destruct (connected_up o w Hup Hcf) as (c & -> & Hcf1). cbn [obind negb].
  destruct (command_retry_up (str "SET %s %s") [k; v] (ro_set_redis (Some c) o) w c (λ r' c' rep,
      rep = REDIS_REPLY_STATUS (str "OK") ∧ redis_db c' = ro_db_index o ∧
      redis_data r' = <[(ro_db_index o, k) := v]> (redis_data (rw_lib w)) ∧ redis_log r' = redis_log (rw_lib w) ∧
      redis_up r' = true) Hup Hcf1 eq_refl) as (l & r' & c' & rep & -> & Hl & -> & HQ).
  - intros c2 [Ha Hdb]. destruct (set_law _ _ k v Ha) as (r' & Hrun & Hd & Hlog & Hup'). rewrite Hdb in Hd.
    eexists r', c2, _. split; [done|]. split; [done|]. split; [done|]. split; [done|]. split; [done|congruence].
  - cbn [obind]. rewrite reply_ok_fresh. cbn [obind]. rewrite freeReplyObject_fresh by done. cbn [obind].
    exists r', c'. done.
Qed.

(** On a working context [Pub] publishes, and its reply object stays behind. *)
Lemma Pub_up msg o w c :
  ro_redis o = Some c → redis_alive (rw_lib w) c = true → ro_channel o ≠ [] → (0 ∉ ro_channel o) → (0 ∉ msg) →
  ∃ r' l n, Pub msg o w = Ret (true, o, mkRedis r' (<[l := REDIS_REPLY_INTEGER n]> (rw_replies w))) ∧
    rw_replies w !! l = None ∧ redis_data r' = redis_data (rw_lib w) ∧
    redis_log r' = redis_log (rw_lib w) ++ [(ro_channel o, msg)] ∧ redis_up r' = redis_up (rw_lib w).
Proof.
  intros Hc Ha Hch Hch0 Hm. unfold Pub, connected. rewrite Hc. cbn [obind negb].
  rewrite bool_decide_eq_false_2 by done. rewrite !c_str_id by done.
  destruct (publish_law _ _ (ro_channel o) msg Ha) as (r' & n & Hrun & Hd & Hlog & Hup).
  destruct (command_alive (str "%s %s %s") [str "PUBLISH"; ro_channel o; msg] o w c _ _ _ Hc Hrun) as (l & Hl & ->).
  cbn [obind broken]. rewrite reply_ok_fresh. cbn [obind]. exists r', l, n.
  split; [|done]. by destruct o; cbn in *; subst.
Qed.

(** On a dead one [Pub] reads a reply it has freed. *)
Lemma Pub_dead msg o w c :
  redis_up (rw_lib w) = true → configured o (rw_lib w) → ro_redis o = Some c → redis_alive (rw_lib w) c = false →
  ro_channel o ≠ [] → (0 ∉ ro_channel o) → (0 ∉ msg) → Pub msg o w = Fault.
Proof.
  intros Hup [Hh Hp Hdb Hctx] Hc Hdead Hch Hch0 Hmsg. unfold Pub, connected. rewrite Hc. cbn [obind negb].
  rewrite bool_decide_eq_false_2 by done.
  destruct (dead_law _ _ (str "%s %s %s") [str "PUBLISH"; c_str (ro_channel o); c_str msg] Hdead) as (c1 & Hrun & He).
  unfold command at 1. rewrite Hc. cbn [defined obind]. rewrite Hrun. cbn [obind broken ro_redis ro_set_redis defined].
  rewrite He. unfold FreeRedisConnection. cbn [ro_redis ro_set_redis].
  replace (rw_set_lib (rw_lib w) w) with w by (by destruct w).
  destruct (Connect_up (ro_set_redis None (ro_set_redis (Some c1) o)) w) as (c2 & Hcon & [Ha2 _]); [done..|].
  rewrite Hcon. cbn [obind negb ro_channel ro_set_redis]. rewrite !c_str_id by done.
  destruct (publish_law _ _ (ro_channel o) msg Ha2) as (r' & n & Hrun2 & _).
  destruct (command_alive _ _ (ro_set_redis (Some c2) (ro_set_redis None (ro_set_redis (Some c1) o))) w c2 _ _ _ eq_refl Hrun2)
    as (l & Hl & Hcmd). unfold ro_set_redis in Hcmd |- *. cbn in Hcmd |- *. rewrite Hcmd. cbn [obind].
  rewrite freeReplyObject_fresh by done. cbn [obind]. unfold reply_ok, _CheckReply. cbn [rw_replies load]. by rewrite Hl.
Qed.

(** ** Chunks *)
(** What a client should read under [k]. *)
Definition redis_value (db : Z) (r : R) (k : cstr) : cstr := default [] (redis_data r !! (db, k)).

Lemma store_elements_spec i es values :
  (i + length es ≤ length values)%nat →
  store_elements i es values = take i values ++ (reply_text <$> es) ++ drop (i + length es) values.
Proof.
  revert i values. induction es as [|e es IH]; intros i values Hlen; cbn [store_elements].
  { cbn. by rewrite Nat.add_0_r, take_drop. }
  cbn in Hlen. rewrite IH by (rewrite length_insert; lia). rewrite drop_insert_lt by lia.
  rewrite (take_S_r _ _ (reply_text e)) by (apply list_lookup_insert_eq; lia).
  rewrite take_insert_ge by lia. cbn. rewrite <-app_assoc. cbn. by rewrite Nat.add_succ_r.
Qed.

Lemma mget_command_plain keys : Forall plain keys → c_str (mget_command keys) = mget_command keys.
Proof.
  intros Hk. apply c_str_id. unfold mget_command. rewrite not_elem_of_app. split; [cbn; set_solver|].
  induction Hk as [|k keys (_ & Hk & _) _ IH]; cbn; [set_solver|].
  rewrite not_elem_of_cons, not_elem_of_app. done.
Qed.

Lemma mget_chunk chunk o w c :
  redis_up (rw_lib w) = true → configured o (rw_lib w) → ro_redis o = Some c → chunk ≠ [] → Forall plain chunk →
  ∃ l c' es, command_retry (c_str (mget_command chunk)) [] o w =
      Ret (Some (Some l), ro_set_redis (Some c') o, mkRedis (rw_lib w) (<[l := REDIS_REPLY_ARRAY es]> (rw_replies w))) ∧
    rw_replies w !! l = None ∧ configured (ro_set_redis (Some c') o) (rw_lib w) ∧
    length es = length chunk ∧ reply_text <$> es = redis_value (ro_db_index o) (rw_lib w) <$> chunk.
Proof.
  intros Hup Hcf Hc Hne Hp. rewrite mget_command_plain by done.
  destruct (command_retry_up (mget_command chunk) [] o w c (λ r' c' rep, r' = rw_lib w ∧ working o r' c' ∧
    ∃ es, rep = REDIS_REPLY_ARRAY es ∧ length es = length chunk ∧
      reply_text <$> es = redis_value (ro_db_index o) (rw_lib w) <$> chunk) Hup Hcf Hc)
    as (l & r' & c' & rep & -> & Hl & -> & [_ Hdb] & es & -> & Hes).
  - intros c2 [Ha Hdb]. eexists _, _, _. split; [by apply mget_law|]. split; [done|]. split; [done|].
    eexists. split; [done|]. split; [by rewrite length_fmap|]. rewrite <-list_fmap_compose. apply list_fmap_ext.
    intros i k _. unfold redis_value, compose. rewrite Hdb. by destruct (redis_data _ !! _).
  - exists l, c', es. split; [done|]. split; [done|]. split; [|done]. destruct Hcf as [H1 H2 H3 _].
    split; [done..|]. cbn. by intros ? [= <-].
Qed.

Lemma mget_loop_up fuel i keys values o w c :
  redis_up (rw_lib w) = true → configured o (rw_lib w) → ro_redis o = Some c → Forall plain keys →
  0 < ro_keys_nbr_per_mget o < 2 ^ 31 → Z.of_nat (length keys) < 2 ^ 62 → length values = length keys →
  (length keys - i ≤ fuel)%nat → Z.of_nat i < 2 ^ 63 →
  ∃ c', mget_loop fuel (Z.of_nat i) keys values o w = Ret (true,
      take i values ++ (redis_value (ro_db_index o) (rw_lib w) <$> drop i keys), ro_set_redis (Some c') o, w).
Proof.
  revert i values o c. induction fuel as [|fuel IH]; intros i values o c Hup Hcf Hc Hp Hn Hlen Hv Hf Hi; cbn [mget_loop];
    (destruct (Z.leb_spec (Z.of_nat (length keys)) (Z.of_nat i));
      [exists c; rewrite take_ge, drop_ge, app_nil_r by lia; by destruct o; cbn in *; subst|]); [lia|].
  assert (u64 (ro_keys_nbr_per_mget o) = ro_keys_nbr_per_mget o) as -> by (unfold u64; rewrite Z.mod_small; lia).
  set (nbr := ro_keys_nbr_per_mget o) in *.
  assert (u64 (Z.of_nat i + nbr) = Z.of_nat (i + Z.to_nat nbr)) as -> by (unfold u64; rewrite Z.mod_small; lia).
  set (per := if Z.of_nat (i + Z.to_nat nbr) <=? Z.of_nat (length keys) then nbr else Z.of_nat (length keys) - Z.of_nat i).
  assert (per = Z.min nbr (Z.of_nat (length keys) - Z.of_nat i)) as Hper.
  { subst per. destruct (Z.leb_spec (Z.of_nat (i + Z.to_nat nbr)) (Z.of_nat (length keys))); lia. }
  clearbody per. rewrite Nat2Z.id. set (chunk := take (Z.to_nat per) (drop i keys)).
  assert (length chunk = Z.to_nat per) as Hchunk by (subst chunk; rewrite length_take, length_drop; lia).
  destruct (mget_chunk chunk o w c Hup Hcf Hc) as (l & c1 & es & -> & Hl & Hcf1 & Hes & Ees).
  { intros E. rewrite E in Hchunk. cbn in Hchunk. lia. } { by apply Forall_take, Forall_drop. }
  cbn [obind]. rewrite reply_ok_fresh. cbn [obind rw_replies]. rewrite (load_Some _ _ _ (lookup_insert_eq _ _ _)). cbn [obind take_reply].
  destruct (Z.eqb_spec (Z.of_nat (length es)) per); [|lia]. cbn [negb obind]. rewrite Nat2Z.id.
  rewrite freeReplyObject_fresh by done. cbn [obind]. rewrite store_elements_spec by lia. rewrite Ees.
  replace {| rw_lib := rw_lib w; rw_replies := rw_replies w |} with w by (by destruct w).
  edestruct (IH (i + Z.to_nat nbr)%nat) as (c2 & ->); [done|exact Hcf1|done|done|done|done| |lia|lia|].
  { rewrite !length_app, length_take, length_fmap, length_drop. lia. }
  exists c2. f_equal. f_equal. f_equal. f_equal. cbn [ro_db_index ro_set_redis].
  rewrite <-(take_drop (Z.to_nat per) (drop i keys)), fmap_app, drop_drop. fold chunk.
  set (ts := redis_value _ _ <$> chunk). assert (length ts = Z.to_nat per) as Hts by (subst ts; by rewrite length_fmap).
  destruct (decide (nbr ≤ Z.of_nat (length keys) - Z.of_nat i)).
  - replace (Z.to_nat nbr) with (Z.to_nat per) by lia. rewrite !app_assoc, take_app_le, take_ge by
      (rewrite !length_app, length_take; lia). done.
  - rewrite (drop_ge keys (i + Z.to_nat nbr)), (drop_ge keys (i + Z.to_nat per)), (drop_ge values) by lia.
    cbn. rewrite !app_nil_r, take_ge; [done|]. rewrite length_app, length_take. lia.
Qed.
End lemmas.

(** ** A server *)
Record sim_server := mkSim { sim_up : bool; sim_data : gmap (Z * cstr) cstr; sim_log : list (cstr * cstr) }.
Record sim_context := mkSimCtx { sx_alive : bool; sx_err : bool; sx_db : Z }.

(** The words of a command. *)
Definition keep_word (w : cstr) : list cstr := match w with [] => [] | _ => [w] end.
Fixpoint words (s cur : cstr) : list cstr :=
  match s with
  | [] => keep_word cur
  | c :: s => if c =? 32 then keep_word cur ++ words s [] else words s (cur ++ [c])
  end.

Definition sim_mget (r : sim_server) (db : Z) (keys : list cstr) : redisReply :=
  REDIS_REPLY_ARRAY ((λ k, match sim_data r !! (db, k) with Some v => REDIS_REPLY_STRING v | None => REDIS_REPLY_NIL end) <$> keys).

(** The commands of the operator differ in the number of their arguments. *)
Definition sim_command (r : sim_server) (c : sim_context) (fmt : cstr) (args : list cstr)
    : sim_server * sim_context * option redisReply :=
  if negb (sim_up r && sx_alive c) then (r, mkSimCtx (sx_alive c) true (sx_db c), None)
  else
    match args with
    | [_; channel; msg] =>
        (mkSim (sim_up r) (sim_data r) (sim_log r ++ [(channel, msg)]), c, Some (REDIS_REPLY_INTEGER 0))
    | [s] => (r, mkSimCtx (sx_alive c) (sx_err c) (digits s 0), Some (REDIS_REPLY_STATUS (str "OK")))
    | [k; v] =>
        (mkSim (sim_up r) (<[(sx_db c, k) := v]> (sim_data r)) (sim_log r), c, Some (REDIS_REPLY_STATUS (str "OK")))
    | _ => (r, c, Some (sim_mget r (sx_db c) (tail (words fmt []))))
    end.

#[export] Instance sim_redis : Hiredis sim_server sim_context := {|
  redisConnectWithTimeout r _ _ _ := (r, Some (mkSimCtx true false 0));
  redisContext_err := sx_err;
  redisSetTimeout _ _ := true;
  redisCommand := sim_command |}.

Lemma words_word k s cur : 32 ∉ k → words (k ++ s) cur = words s (cur ++ k).
Proof.
  revert cur. induction k as [|c k IH]; intros cur Hk; cbn [app words]; [by rewrite app_nil_r|].
  destruct (Z.eqb_spec c 32); [set_solver|]. rewrite IH by set_solver. by rewrite <-app_assoc.
Qed.

Lemma words_keys keys cur :
  Forall plain keys → cur ≠ [] → words (mjoin ((λ k, str " " ++ k) <$> keys)) cur = cur :: keys.
Proof.
  intros Hk. revert cur. induction Hk as [|k keys (Hk0 & _ & Hk & _) _ IH]; intros cur Hcur; cbn; [by destruct cur|].
  rewrite words_word by done. cbn [app]. rewrite IH by done. by destruct cur.
Qed.

#[export] Instance sim_laws : HiredisLaws sim_server sim_context.
Proof.
  refine {| redis_up := sim_up; redis_alive r c := sim_up r && sx_alive c; redis_db := sx_db;
            redis_data := sim_data; redis_log := sim_log |}; unfold redisCommand, sim_redis, sim_command.
  - intros r host port tv Hup. eexists. split; [done|]. split; [done|]. by rewrite Hup.
  - done.
  - intros r c fmt args ->. cbn. eauto.
  - intros r c n s Ha Hs Hn. rewrite Ha. cbn. eexists. split; [done|]. split; [|done].
    unfold print_d, Int64ToString in Hs. destruct (Z.leb_spec 0 n); [|lia].
    destruct (LLToStr_spec n) as (s' & Hs' & _ & _ & Hd & _); [lia|]. rewrite Hs' in Hs. by injection Hs as <-.
  - intros r c k v Ha. rewrite Ha. cbn. eexists. done.
  - intros r c channel msg Ha. rewrite Ha. cbn. eexists _, _. done.
  - intros r c keys Ha Hne Hk. rewrite Ha. unfold mget_command. cbn [negb]. rewrite words_word by (cbn; set_solver). by rewrite words_keys by done.
Defined.

(** ** Properties *)
Lemma digits_no_nul s : Forall is_digit s → 0 ∉ s.
Proof. intros Hs Hin. rewrite Forall_forall in Hs. specialize (Hs 0 Hin). unfold is_digit in Hs. lia. Qed.

Lemma Int64ToString_text v : - 2 ^ 63 < v < 2 ^ 63 → ∃ s, Int64ToString v = Ret s ∧ 0 ∉ s.
Proof.
  intros Hv. unfold Int64ToString. destruct (Z.leb_spec 0 v).
  - destruct (LLToStr_spec v) as (s & -> & Hs & _); [lia|]. exists s. split; [done|]. by apply digits_no_nul.
  - destruct (Z.eqb_spec v (- 2 ^ 63)); [lia|]. destruct (LLToStr_spec (- v)) as (s & -> & Hs & _); [lia|].
    cbn [obind]. eexists. split; [done|]. pose proof (digits_no_nul s Hs). cbn. set_solver.
Qed.

Lemma Uint64ToString_text v : 0 ≤ v < 2 ^ 64 → ∃ s, Uint64ToString v = Ret s ∧ 0 ∉ s.
Proof. intros Hv. destruct (LLToStr_spec v Hv) as (s & Hs & Hd & _). exists s. split; [exact Hs|]. by apply digits_no_nul. Qed.

(** C30: publishing where a user is, while the redis server is up, whatever the state of
    the thread's connection: never opened, open, or broken, in which case it is opened
    anew and the database selected again.  The database then maps the user to his server.
    If the connection is still alive after that, the pair is announced on the channel and
    the call succeeds; the operator is fit for the next call, and a reply object is left
    behind.  If the connection broke in between, the call reads a reply it has freed. *)
Theorem publish_makes_route_known {R C : Type} `{HL : HiredisLaws R C} tid uid msgh_id (p : RouteInfoPublisher C) (w : redis_world R)
    (Hup : redis_up (rw_lib w) = true) (Hcf : configured (thread_operator p tid) (rw_lib w))
    (Hch : ro_channel (thread_operator p tid) ≠ []) (Hch0 : 0 ∉ ro_channel (thread_operator p tid))
    (Huid : - 2 ^ 63 < uid < 2 ^ 63) (Hid : 0 ≤ msgh_id < 2 ^ 64) :
  ∃ us ms o1 w1 c1, Int64ToString uid = Ret us ∧ Uint64ToString msgh_id = Ret ms ∧
    Set_ us ms (thread_operator p tid) w = Ret (true, o1, w1) ∧ ro_redis o1 = Some c1 ∧
    redis_data (rw_lib w1) = <[(ro_db_index (thread_operator p tid), us) := ms]> (redis_data (rw_lib w)) ∧
    redis_log (rw_lib w1) = redis_log (rw_lib w) ∧
    if redis_alive (rw_lib w1) c1 then
      ∃ p' w' l n, publishRouteInfo tid uid msgh_id p w = Ret (true, p', w') ∧
        redis_data (rw_lib w') = redis_data (rw_lib w1) ∧
        redis_log (rw_lib w') = redis_log (rw_lib w) ++ [(ro_channel (thread_operator p tid), us ++ str ":" ++ ms)] ∧
        redis_up (rw_lib w') = true ∧ configured (thread_operator p' tid) (rw_lib w') ∧
        rw_replies w' = <[l := REDIS_REPLY_INTEGER n]> (rw_replies w) ∧ rw_replies w !! l = None
    else publishRouteInfo tid uid msgh_id p w = Fault.
Proof.
  unfold publishRouteInfo. destruct (Int64ToString_text uid Huid) as (us & -> & Hus).
  destruct (Uint64ToString_text msgh_id Hid) as (ms & -> & Hms). cbn [obind]. set (o := thread_operator p tid) in *.
  destruct (Set_up us ms o w Hup Hcf Hus Hms) as (r1 & c1 & Eset & Hdb1 & Hd1 & Hlog1 & Hup1). rewrite Eset. cbn [obind negb].
  set (o1 := ro_set_redis (Some c1) o). destruct Hcf as [H1 H2 H3 _].
  assert (∀ r, configured o1 r) as Hcf1 by (intros r; split; [done..|]; cbn; by intros ? [= <-]).
  assert (0 ∉ us ++ str ":" ++ ms) as Htext.
  { rewrite !not_elem_of_app. split; [done|]. split; [cbn; set_solver|done]. }
  exists us, ms, o1, (mkRedis r1 (rw_replies w)), c1. cbn [rw_lib]. do 6 (split; [done|]).
  destruct (redis_alive r1 c1) eqn:Ha1; [|by rewrite (Pub_dead _ o1 (mkRedis r1 (rw_replies w)) c1) by done].
  destruct (Pub_up (us ++ str ":" ++ ms) o1 (mkRedis r1 (rw_replies w)) c1)
    as (r2 & l & n & -> & Hl & Hd2 & Hlog2 & Hup2); [done..|].
  cbn [obind rw_lib rw_replies] in *. eexists (ts_put p tid o1), _, l, n.
  split; [done|]. cbn [rw_lib rw_replies]. rewrite Hd2, Hlog2, Hup2, Hlog1. split_and!; try done.
  unfold thread_operator, ts_get, ts_put. cbn [rp_threads]. rewrite lookup_insert_eq. cbn [default from_option]. unfold id.
  apply Hcf1.
Qed.

Definition wit_publisher : RouteInfoPublisher sim_context :=
  mkPublisher (str "10.0.0.9") 6379 (0, 20000) (0, 10000) (str "route") 3 ∅.
Definition wit_redis : redis_world sim_server := mkRedis (mkSim true ∅ []) ∅.

Lemma publish_makes_route_known_witness :
  ∃ us ms o1 w1, Int64ToString 42 = Ret us ∧ Uint64ToString 7 = Ret ms ∧
    Set_ us ms (thread_operator wit_publisher 1) wit_redis = Ret (true, o1, w1) ∧
    sim_data (rw_lib w1) = <[(3, us) := ms]> ∅.
Proof.
  destruct (publish_makes_route_known 1 42 7 wit_publisher wit_redis)
    as (us & ms & o1 & w1 & c1 & H1 & H2 & H3 & _ & H4 & _).
  - reflexivity.
  - split; [discriminate|discriminate|split; [discriminate|reflexivity]|discriminate].
  - discriminate.
  - apply (bool_decide_unpack _). vm_compute. exact I.
  - lia.
  - lia.
  - exists us, ms, o1, w1. split; [exact H1|]. split; [exact H2|]. split; [exact H3|exact H4].
Defined.

(** publishing does not survive a broken connection.  When the connection of an
    operator breaks before [Pub], the reply to the repeated command is freed where the
    inner scope ends, and read afterwards. *)
Theorem pub_reads_freed_reply {R C : Type} `{HL : HiredisLaws R C} msg (o : RedisOperator C) (w : redis_world R) c
    (Hup : redis_up (rw_lib w) = true) (Hcf : configured o (rw_lib w)) (Hc : ro_redis o = Some c)
    (Hdead : redis_alive (rw_lib w) c = false) (Hch : ro_channel o ≠ []) (Hch0 : 0 ∉ ro_channel o) (Hmsg : 0 ∉ msg) :
  Pub msg o w = Fault.
Proof.
  by eapply Pub_dead.
Qed.

Lemma pub_reads_freed_reply_witness :
  Pub (str "42:7") (mkOperator (str "10.0.0.9") 6379 3 100 (0, 20000) (0, 10000) (Some (mkSimCtx false false 3)) (str "route"))
    wit_redis = Fault.
Proof.
  eapply (pub_reads_freed_reply (str "42:7") _ wit_redis (mkSimCtx false false 3)).
  - reflexivity.
  - split; [discriminate|discriminate|split; [discriminate|reflexivity]|intros c [= <-]; discriminate].
  - reflexivity.
  - reflexivity.
  - discriminate.
  - apply (bool_decide_unpack _). vm_compute. exact I.
  - apply (bool_decide_unpack _). vm_compute. exact I.
Defined.

(** C32: reading many keys in chunks is reading each of them.  While the server is up,
    [MGet] of any list of plain keys, whatever the chunk size, the state of the
    connection and the vector passed in, ends and gives for each key in its place the
    value the database has for it, or the empty string; all reply objects are freed. *)
Theorem mget_reads_every_key {R C : Type} `{HL : HiredisLaws R C} keys values (o : RedisOperator C) (w : redis_world R)
    (Hup : redis_up (rw_lib w) = true) (Hcf : configured o (rw_lib w)) (Hp : Forall plain keys)
    (Hn : 0 < ro_keys_nbr_per_mget o < 2 ^ 31) (Hlen : Z.of_nat (length keys) < 2 ^ 62) :
  ∃ o', MGet keys values o w = Ret (true, redis_value (ro_db_index o) (rw_lib w) <$> keys, o', w).
Proof.
  unfold MGet. destruct (connected_up o w Hup Hcf) as (c & -> & Hcf1). cbn [obind negb].
  destruct (mget_loop_up (length keys) 0 keys (resize (length keys) values) (ro_set_redis (Some c) o) w c
    Hup Hcf1 eq_refl Hp Hn Hlen) as (c' & Hrun); [|lia|lia|].
  { unfold resize. rewrite length_app, length_take, length_replicate. lia. }
  change (Z.of_nat 0) with 0 in Hrun. rewrite Hrun. rewrite take_0, drop_0. cbn [app ro_db_index ro_set_redis]. eauto.
Qed.

Lemma mget_reads_every_key_witness :
  ∃ o', MGet [str "1"; str "2"; str "3"] [str "old"]
      (mkOperator (str "10.0.0.9") 6379 0 2 (0, 20000) (0, 10000) None [])
      (mkRedis (mkSim true {[(0, str "2") := str "b"]} []) ∅) =
    Ret (true, [[]; str "b"; []], o', mkRedis (mkSim true {[(0, str "2") := str "b"]} []) ∅).
Proof.
  destruct (mget_reads_every_key [str "1"; str "2"; str "3"] [str "old"]
    (mkOperator (str "10.0.0.9") 6379 0 2 (0, 20000) (0, 10000) None [])
    (mkRedis (mkSim true {[(0, str "2") := str "b"]} []) ∅)) as (o' & H).
  - reflexivity.
  - split; [discriminate|discriminate|split; [discriminate|reflexivity]|discriminate].
  - repeat (apply Forall_cons_2; [repeat split; first [discriminate|apply (bool_decide_unpack _); vm_compute; exact I]|]).
    apply Forall_nil_2.
  - cbn. lia.
  - cbn. lia.
  - exists o'. etransitivity; [exact H|]. vm_compute. reflexivity.
Defined.
