(* ===== verification/Settings.v ===== *)
(** Reading the settings and naming the server: im::MessageBroker::initialize,
    [genInstance], [init_rpc_client] and [init_rpc_server]
    (thrift/broker/message_broker.cpp), im::ImMessageAuthProcessor::initialize
    (message/im_message_auth_processor.cpp), the thread numbers of
    im::ImMessageDispatcher::initialize (message/im_message_dispatcher.cpp) and the
    port of io::IoManager::initialize (framework/io/io_manager.cpp).

    A number in the file that no [int] can hold is undefined behaviour of [atoi]; the
    product [redis_io_timeout * 1000] is an [int] too. *)
From S2P Require Import Prelude Bytes StringAlgos Ini UpdateTasks Zookeeper ZkSession Watcher PooledClient Redis.

(** ** Reading a number *)
(** [int v = IniGetIntValue(section, key, d0); if (v <= 0) v = d;] *)
Definition positive_or (ini : IniFileReader) (section key : cstr) (d0 d : Z) : outcome Z :=
  let* v := IniGetIntValue ini section key d0 in
  Ret (if v <=? 0 then d else v).

(** ** im::MessageBroker::initialize *)
Record broker_settings := mkBroker {
  bs_conn_num : Z;
  bs_conn_timeout : Z;
  bs_send_timeout : Z; (** what [instance_simple] takes as its send time-out *)
  bs_recv_timeout : Z;
  bs_port : Z;
  bs_worker_num : Z;
  bs_io_num : Z;
  bs_zk : cstr;
  bs_path : cstr }.

Definition BROKER : cstr := str "BROKER".

Definition MessageBroker_settings (ini : IniFileReader) : outcome broker_settings :=
  let* conn_num := positive_or ini BROKER (str "broker_rpc_conn_num") 0 32 in
  let* conn_timeout := positive_or ini BROKER (str "broker_rpc_conn_timeout") 0 10 in
  let* read_timeout := positive_or ini BROKER (str "broker_rpc_read_timeout") 0 30 in
  let* write_timeout := positive_or ini BROKER (str "broker_rpc_write_timeout") 0 30 in
  let* port := IniGetIntValue ini BROKER (str "broker_port") 0 in
  let* _ := assert_ (negb (port <=? 0)) in
  let* worker_num := positive_or ini BROKER (str "broker_worker_num") 0 1 in
  let* io_num := positive_or ini BROKER (str "broker_io_num") 0 1 in
  let zk := IniGetStrValue ini BROKER (str "broker_rpc_remote_zk") [] in
  let* _ := assert_ (negb (bool_decide (zk = []))) in
  let path := IniGetStrValue ini BROKER (str "broker_rpc_remote_path") [] in
  let* _ := assert_ (negb (bool_decide (path = []))) in
  Ret (mkBroker conn_num conn_timeout read_timeout write_timeout port worker_num io_num zk (fixpath path)).

Definition PATH_MAX : nat := 4096.
(** [strcpy(_conf, conf)]; a missing argument is a null pointer. *)
Definition copy_conf (conf : option cstr) : outcome cstr :=
  match conf with
  | None => Fault
  | Some c => if (length (c_str c) <? PATH_MAX)%nat then Ret (c_str c) else Fault
  end.

(** ** Naming the server *)
Definition genInstance (host : cstr) (port : Z) : Z :=
  match inet_pton_loop host [] None with
  | Some [a; b; c; d] =>
      let ip_binary := a + Z.shiftl b 8 + Z.shiftl c 16 + Z.shiftl d 24 in
      Z.lor (Z.shiftl ip_binary 32) (u64 port)
  | _ => 0
  end.

(** The client for the registry of the other servers. *)
Definition init_rpc_client (zk : cstr) : ZookeeperClient :=
  set_recv_timeout 3 (set_host zk ZookeeperClient_new).

(** The client that registers this server: its session, the watcher and the instance.
    [host] is the answer of [fetch_host]. *)
Definition init_rpc_server (host : cstr) (ini : IniFileReader)
    : outcome (ZookeeperClient * ServerCluster * RegServiceWatcherAction * Z) :=
  let zk := IniGetStrValue ini BROKER (str "broker_rpc_local_zk") [] in
  let* _ := assert_ (negb (bool_decide (zk = []))) in
  let client := set_recv_timeout 3 (set_host zk ZookeeperClient_new) in
  let server_path := IniGetStrValue ini BROKER (str "broker_rpc_local_path") [] in
  let* _ := assert_ (negb (bool_decide (server_path = []))) in
  let* server_port := IniGetIntValue ini BROKER (str "broker_port") 0 in
  let* cluster := ServerCluster_new host server_path (str "TBinaryProtocol") server_port in
  let* watcher := RegServiceWatcherAction_new [cluster] false in
  Ret (client, cluster, watcher, genInstance (sc_host_ip cluster) server_port).

(** ** im::ImMessageAuthProcessor::initialize *)
Definition PUB_REDIS : cstr := str "PUB_REDIS".

Definition publisher_blank {C} : RouteInfoPublisher C := mkPublisher [] 0 (0, 0) (0, 0) [] 0 ∅.

Definition ImMessageAuthProcessor_initialize {C} (ini : IniFileReader) : outcome (RouteInfoPublisher C) :=
  let redis_host := IniGetStrValue ini PUB_REDIS (str "redis_host") [] in
  let* _ := assert_ (negb (bool_decide (redis_host = []))) in
  let* redis_port := IniGetIntValue ini PUB_REDIS (str "redis_port") 0 in
  let* _ := assert_ (0 <? redis_port) in
  let* redis_db_index := IniGetIntValue ini PUB_REDIS (str "redis_db") (-1) in
  let* _ := assert_ (0 <=? redis_db_index) in
  let redis_channel := IniGetStrValue ini PUB_REDIS (str "redis_channel") [] in
  let* _ := assert_ (negb (bool_decide (redis_channel = []))) in
  let* redis_io_timeout := IniGetIntValue ini PUB_REDIS (str "redis_io_timeout") (-1) in
  let* _ := assert_ (0 <? redis_io_timeout) in
  let* io_usec := if redis_io_timeout * 1000 <? 2 ^ 31 then Ret (redis_io_timeout * 1000) else Fault in
  let (_, p) := publisher_init redis_host redis_port (0, 20000) (0, io_usec) redis_channel
                  redis_db_index publisher_blank in
  Ret p.

(** ** The numbers of worker threads, and the client port *)
Definition auth_thread_num (ini : IniFileReader) : outcome Z :=
  positive_or ini (str "APP") (str "auth_thread_num") 1 1.
Definition app_thread_num (ini : IniFileReader) : outcome Z :=
  positive_or ini (str "APP") (str "app_thread_num") 1 1.
Definition io_app_port (ini : IniFileReader) : outcome Z :=
  let* p := IniGetIntValue ini (str "IO") (str "io_app_port") 0 in
  let* _ := assert_ (negb (p <=? 0)) in
  Ret p.

(** ** Addresses *)
(** [htons], whose argument is a [uint16_t]. *)
Definition htons (z : Z) : Z := le_value (rev (le_bytes 2 (u16 z))).

Record sockaddr_in := mkAddr { sin_port : Z; sin_addr : Z }.
(** The port a kernel reads from the structure. *)
Definition ntohs (z : Z) : Z := htons z.

(** The address io::IoBackend::Impl::createSocket connects to. *)
Definition key_address (key : Z) : sockaddr_in :=
  mkAddr (htons (Z.land key 0xFFFFFFFF)) (u32 (Z.shiftr key 32)).

(** ** Lemmas *)
Lemma atoi_cases v : atoi v = Fault ∨ ∃ u, atoi v = Ret u ∧ - 2 ^ 31 ≤ u < 2 ^ 31.
Proof.
  unfold atoi. destruct (_ && _) eqn:E; [|by left]. right. exists (strto v).
  apply andb_true_iff in E as [?%Z.leb_le ?%Z.ltb_lt]. done.
Qed.

(** A setting is undefined only if its text has a number no [int] holds. *)
Lemma int_value_cases ini s k d :
  - 2 ^ 31 ≤ d < 2 ^ 31 →
  IniGetIntValue ini s k d = Fault ∨
  ∃ u, IniGetIntValue ini s k d = Ret u ∧ - 2 ^ 31 ≤ u < 2 ^ 31.
Proof.
  intros Hd. unfold IniGetIntValue. destruct (empty_name s k); [by eauto|].
  destruct (IniGetValue ini s k) as [|c v]; [by eauto|apply atoi_cases].
Qed.

Definition typed (ini : IniFileReader) (s k : cstr) (d0 d v : Z) : Prop :=
  0 < v < 2 ^ 31 ∧ ∃ u, IniGetIntValue ini s k d0 = Ret u ∧ v = (if u <=? 0 then d else u).

Lemma positive_or_cases ini s k d0 d :
  - 2 ^ 31 ≤ d0 < 2 ^ 31 → 0 < d < 2 ^ 31 →
  positive_or ini s k d0 d = Fault ∨ ∃ v, positive_or ini s k d0 d = Ret v ∧ typed ini s k d0 d v.
Proof.
  intros H0 Hd. unfold positive_or, typed.
  destruct (int_value_cases ini s k d0 H0) as [->|(u & -> & Hu)]; [by left|].
  right. cbn [obind]. eexists. split; [done|]. split; [|by eauto]. destruct (Z.leb_spec u 0); lia.
Qed.

(** Four octets. *)
Lemma inet_pton_octets s octets cur os :
  Forall is_byte octets → (∀ v, cur = Some v → is_byte v) → (length octets ≤ 3)%nat →
  inet_pton_loop s octets cur = Some os → length os = 4%nat ∧ Forall is_byte os.
Proof.
  revert octets cur. induction s as [|c s IH]; intros octets cur Ho Hc Hl; cbn [inet_pton_loop].
  - destruct cur as [v|]; [|done]. destruct (Nat.eqb_spec (length octets) 3) as [E|]; [|done].
    intros [= <-]. rewrite length_app, E. split; [done|]. apply Forall_app. split; [done|].
    apply Forall_singleton. by apply Hc.
  - destruct ((48 <=? c) && (c <=? 57)) eqn:Ec.
    + apply andb_true_iff in Ec as [?%Z.leb_le ?%Z.leb_le]. destruct cur as [v|].
      * destruct (v =? 0); [done|]. destruct (Z.ltb_spec 255 (v * 10 + (c - 48))); [done|].
        apply IH; [done| |done]. intros ? [= <-]. specialize (Hc v eq_refl). unfold is_byte in *. lia.
      * apply IH; [done| |done]. intros ? [= <-]. unfold is_byte. lia.
    + destruct (c =? 46); [|done]. destruct cur as [v|]; [|done].
      destruct (Nat.eqb_spec (length octets) 3); [done|].
      apply IH; [|done|rewrite length_app; cbn; lia].
      apply Forall_app. split; [done|]. apply Forall_singleton. by apply Hc.
Qed.

Definition octets_value (os : list Z) : Z := le_value os.

Lemma genInstance_eq host port os :
  inet_pton_loop host [] None = Some os →
  genInstance host port = Z.lor (Z.shiftl (octets_value os) 32) (u64 port) ∧
  genInstance host port = genReplicId host port ∧ 0 ≤ octets_value os < 2 ^ 32.
Proof.
  intros H. destruct (inet_pton_octets host [] None os (Forall_nil_2 _) ltac:(by intros ? [=]) ltac:(cbn; lia) H) as [Hl Hb].
  unfold genInstance, genReplicId. rewrite H.
  destruct os as [|a [|b [|c [|d [|]]]]]; try done.
  assert (octets_value [a; b; c; d] = a + Z.shiftl b 8 + Z.shiftl c 16 + Z.shiftl d 24) as E.
  { unfold octets_value. cbn [le_value]. rewrite !Z.shiftl_mul_pow2 by lia. lia. }
  rewrite E. split; [done|]. split; [done|]. rewrite <-E.
  pose proof (le_value_range [a; b; c; d] Hb) as Hr. exact Hr.
Qed.

Lemma shl_disjoint ip port : 0 ≤ port < 2 ^ 32 → Z.land (Z.shiftl ip 32) port = 0.
Proof.
  intros Hp. apply Z.bits_inj'. intros n Hn. rewrite Z.land_spec, Z.bits_0.
  destruct (Z.ltb_spec n 32).
  - by rewrite Z.shiftl_spec_low by lia.
  - rewrite <-(Z.mod_small port (2 ^ 32)) by lia. rewrite Z.mod_pow2_bits_high by lia.
    apply andb_false_r.
Qed.

(** An address and a port in one word, and back. *)
Lemma pack_word ip port :
  0 ≤ ip < 2 ^ 32 → 0 ≤ port < 2 ^ 32 →
  let id := Z.lor (Z.shiftl ip 32) port in
  id = ip * 2 ^ 32 + port ∧ Z.land id 0xFFFFFFFF = port ∧ Z.shiftr id 32 = ip.
Proof.
  intros Hip Hp id.
  assert (id = ip * 2 ^ 32 + port) as E.
  { unfold id. by rewrite <-Z.add_nocarry_lor, Z.shiftl_mul_pow2 by (lia || by apply shl_disjoint). }
  split; [done|]. change 0xFFFFFFFF with (Z.ones 32).
  rewrite Z.land_ones, Z.shiftr_div_pow2 by lia. rewrite E. split.
  - rewrite Z.add_comm, Z_mod_plus_full. apply Z.mod_small. lia.
  - rewrite Z.add_comm, Z.div_add, Z.div_small by lia. lia.
Qed.

Lemma ntohs_htons z : ntohs (htons z) = u16 z.
Proof.
  unfold ntohs, htons. set (v := u16 z).
  assert (0 ≤ v < 2 ^ 16) as Hv by (unfold v, u16; apply Z.mod_pos_bound; lia).
  cbn [le_bytes rev app le_value].
  rewrite (Z.mod_small (v / 256)) by (Z.div_mod_to_equations; lia).
  assert (u16 (v / 256 + 256 * (v mod 256 + 256 * 0)) = v / 256 + 256 * (v mod 256)) as ->
    by (unfold u16; rewrite Z.mod_small; Z.div_mod_to_equations; lia).
  rewrite (Z.mod_small (_ / 256)); Z.div_mod_to_equations; lia.
Qed.

Lemma key_address_instance ip port :
  0 ≤ ip < 2 ^ 32 → 0 ≤ port < 2 ^ 16 →
  key_address (Z.lor (Z.shiftl ip 32) port) = mkAddr (htons port) ip ∧ ntohs (htons port) = port.
Proof.
  intros Hip Hp. destruct (pack_word ip port Hip ltac:(lia)) as (_ & El & Er).
  unfold key_address. rewrite El, Er. unfold u32. rewrite Z.mod_small by lia. split; [done|].
  rewrite ntohs_htons. unfold u16. apply Z.mod_small. lia.
Qed.

(** What a successful [init_rpc_server] has checked. *)
Lemma init_rpc_server_inv host ini client cluster watcher inst :
  init_rpc_server host ini = Ret (client, cluster, watcher, inst) →
  ∃ port, IniGetIntValue ini BROKER (str "broker_port") 0 = Ret port ∧ 0 < port < 65535 ∧
    sc_host_ip cluster = host ∧ host ≠ [] ∧ inst = genInstance host port ∧
    client = init_rpc_client (IniGetStrValue ini BROKER (str "broker_rpc_local_zk") []).
Proof.
  unfold init_rpc_server. intros H.
  apply obind_Ret_inv in H as (_ & _ & H). apply obind_Ret_inv in H as (_ & _ & H).
  apply obind_Ret_inv in H as (port & Hp & H). apply obind_Ret_inv in H as (c & Hc & H).
  apply obind_Ret_inv in H as (w & _ & H). injection H as <- <- <- <-.
  exists port. split; [done|]. unfold ServerCluster_new in Hc.
  apply obind_Ret_inv in Hc as (_ & _ & Hc). apply obind_Ret_inv in Hc as (_ & _ & Hc).
  apply obind_Ret_inv in Hc as ([] & Hr & Hc). apply obind_Ret_inv in Hc as ([] & Hh & Hc).
  apply obind_Ret_inv in Hc as (dg & _ & Hc). apply obind_Ret_inv in Hc as (v & _ & Hc).
  apply obind_Ret_inv in Hc as (nd & _ & Hc). apply obind_Ret_inv in Hc as (ns & _ & Hc).
  apply obind_Ret_inv in Hc as (_ & _ & [= <-]). cbn.
  unfold assert_ in Hr, Hh. destruct ((0 <? port) && (port <? 65535)) eqn:E; [|done].
  apply andb_true_iff in E as [?%Z.ltb_lt ?%Z.ltb_lt]. split; [lia|]. split; [done|].
  split; [|done]. by destruct (bool_decide_reflect (host = [])).
Qed.

Lemma fixpath_namespace path : path ≠ [] → ∃ rest, fixpath path = DEFAULT_NAMESPACE ++ rest ∧ rest ≠ [].
Proof.
  intros Hp. destruct path as [|c path]; [done|]. unfold fixpath.
  destruct (c =? 47), (last_char (c :: path) =? 47); rewrite <-?app_assoc; eexists; (split; [reflexivity|]); done.
Qed.

(** ** Properties *)
(** One number of the file: undefined, or typed. *)
Ltac number_step Hn key d :=
  let v := fresh "v" in let H := fresh "H" in
  destruct (Hn (str key) d) as [[-> ?]|(v & -> & H)];
  [vm_compute; set_solver|lia|exists (str key); split; [vm_compute; set_solver|done]|]; cbn [obind].

Definition broker_numbers : list cstr :=
  str <$> ["broker_rpc_conn_num"; "broker_rpc_conn_timeout"; "broker_rpc_read_timeout";
           "broker_rpc_write_timeout"; "broker_port"; "broker_worker_num"; "broker_io_num"]%string.

(** whatever the configuration file says, reading the broker's settings gives a
    well-typed record: every number is a positive [int], the one in the file if that is
    positive and the default otherwise, and the registry path lies in the namespace.
    It aborts only when the port is not positive or the registry's address or path is
    missing, and is undefined only when a number does not fit an [int]. *)
Theorem broker_settings_typed ini :
  match MessageBroker_settings ini with
  | Ret st =>
      typed ini BROKER (str "broker_rpc_conn_num") 0 32 (bs_conn_num st) ∧
      typed ini BROKER (str "broker_rpc_conn_timeout") 0 10 (bs_conn_timeout st) ∧
      typed ini BROKER (str "broker_rpc_read_timeout") 0 30 (bs_send_timeout st) ∧
      typed ini BROKER (str "broker_rpc_write_timeout") 0 30 (bs_recv_timeout st) ∧
      typed ini BROKER (str "broker_worker_num") 0 1 (bs_worker_num st) ∧
      typed ini BROKER (str "broker_io_num") 0 1 (bs_io_num st) ∧
      0 < bs_port st < 2 ^ 31 ∧ IniGetIntValue ini BROKER (str "broker_port") 0 = Ret (bs_port st) ∧
      bs_zk st ≠ [] ∧ ∃ rest, bs_path st = DEFAULT_NAMESPACE ++ rest ∧ rest ≠ []
  | Abort =>
      (∃ p, IniGetIntValue ini BROKER (str "broker_port") 0 = Ret p ∧ p ≤ 0) ∨
      IniGetStrValue ini BROKER (str "broker_rpc_remote_zk") [] = [] ∨
      IniGetStrValue ini BROKER (str "broker_rpc_remote_path") [] = []
  | Fault => ∃ k, k ∈ broker_numbers ∧ IniGetIntValue ini BROKER k 0 = Fault
  | _ => False
  end.
Proof.
  unfold MessageBroker_settings.
  assert (∀ k d, k ∈ broker_numbers → 0 < d < 2 ^ 31 →
    (positive_or ini BROKER k 0 d = Fault ∧ IniGetIntValue ini BROKER k 0 = Fault) ∨
    ∃ v, positive_or ini BROKER k 0 d = Ret v ∧ typed ini BROKER k 0 d v) as Hn.
  { intros k d _ Hd. destruct (positive_or_cases ini BROKER k 0 d) as [E|?]; [done|done| |by right].
    left. split; [done|]. unfold positive_or in E. by destruct (IniGetIntValue ini BROKER k 0). }
  number_step Hn "broker_rpc_conn_num"%string 32. number_step Hn "broker_rpc_conn_timeout"%string 10.
  number_step Hn "broker_rpc_read_timeout"%string 30. number_step Hn "broker_rpc_write_timeout"%string 30.
  destruct (int_value_cases ini BROKER (str "broker_port") 0) as [E|(p & E & Hp)]; [lia| |]; rewrite E; cbn [obind].
  { exists (str "broker_port"). split; [vm_compute; set_solver|done]. }
  destruct (Z.leb_spec p 0); cbn [negb assert_ obind]; [left; by exists p|].
  number_step Hn "broker_worker_num"%string 1. number_step Hn "broker_io_num"%string 1.
  destruct (bool_decide_reflect (IniGetStrValue ini BROKER (str "broker_rpc_remote_zk") [] = []));
    cbn [negb assert_ obind]; [by auto|].
  destruct (bool_decide_reflect (IniGetStrValue ini BROKER (str "broker_rpc_remote_path") [] = []));
    cbn [negb assert_ obind]; [by auto|].
  cbn. split_and!; try done; [lia|]. by apply fixpath_namespace.
Qed.

(** C20: the instance number under which a server publishes its users is the number the
    other servers compute for its registry entry, fits an unsigned 64-bit word, and is
    decoded by the backend's [createSocket] to exactly the address and port the server
    registered: the port is checked to be below 65535. *)
Theorem instance_names_server host ini client cluster watcher inst os
    (Hinit : init_rpc_server host ini = Ret (client, cluster, watcher, inst))
    (Hhost : inet_pton_loop host [] None = Some os) :
  ∃ port, IniGetIntValue ini BROKER (str "broker_port") 0 = Ret port ∧
    inst = genReplicId (sc_host_ip cluster) port ∧ 0 < inst < 2 ^ 64 ∧
    key_address inst = mkAddr (htons port) (octets_value os) ∧ ntohs (sin_port (key_address inst)) = port.
Proof.
  apply init_rpc_server_inv in Hinit as (port & Hp & Hr & Eh & _ & -> & _).
  exists port. split; [done|]. rewrite Eh.
  destruct (genInstance_eq host port os Hhost) as (E & <- & Hos). split; [done|].
  assert (u64 port = port) as Eu by (apply Z.mod_small; lia). rewrite Eu in E.
  destruct (pack_word (octets_value os) port) as (Ew & _ & _); [lia|lia|].
  destruct (key_address_instance (octets_value os) port) as [Ek Ep]; [lia|lia|].
  rewrite E, Ek. split; [rewrite Ew; lia|]. done.
Qed.

Definition wit_ini : IniFileReader :=
  match IniFileReader_new
    (λ l, if bool_decide (l = str "[BROKER]") then Some (str "BROKER") else None)
    (λ l, if bool_decide (l = str "a") then Some (str "broker_rpc_local_zk", str "zk:2181")
          else if bool_decide (l = str "b") then Some (str "broker_rpc_local_path", str "im/ms")
          else Some (str "broker_port", str "9090"))
    [str "[BROKER]"; str "a"; str "b"; str "c"] with
  | Ret r => r
  | _ => mkIni ∅ ∅ ∅
  end.

Lemma instance_names_server_witness :
  ∃ client cluster watcher,
    init_rpc_server (str "10.1.2.3") wit_ini =
      Ret (client, cluster, watcher, 0x0302010A00002382) ∧
    ntohs (sin_port (key_address 0x0302010A00002382)) = 9090.
Proof.
  destruct (init_rpc_server (str "10.1.2.3") wit_ini) as [[[[cl sc] wa] inst]| | | |] eqn:E;
    try (exfalso; vm_compute in E; discriminate E).
  assert (inst = 0x0302010A00002382) as -> by (vm_compute in E; injection E; congruence).
  exists cl, sc, wa. split; [done|].
  destruct (instance_names_server (str "10.1.2.3") wit_ini cl sc wa 0x0302010A00002382 [10; 1; 2; 3] E eq_refl)
    as (port & Hp & _ & _ & _ & H).
  vm_compute in Hp. injection Hp as <-. exact H.
Defined.

(** an I/O time-out for redis of a second or more is accepted and gives a [timeval]
    whose microseconds are not below a million; from 2147484 milliseconds on their
    computation overflows. *)
Theorem redis_timeout_not_normalised {C} ini t (p : RouteInfoPublisher C)
    (Ht : IniGetIntValue ini PUB_REDIS (str "redis_io_timeout") (-1) = Ret t) (Hsec : 1000 ≤ t)
    (Hini : ImMessageAuthProcessor_initialize ini = Ret p) :
  fst (rp_io_tv p) = 0 ∧ 1000000 ≤ snd (rp_io_tv p) ∧ t ≤ 2147483.
Proof.
  revert Hini. unfold ImMessageAuthProcessor_initialize. intros H.
  do 6 apply obind_Ret_inv in H as (? & _ & H).
  rewrite Ht in H. cbn [obind] in H. apply obind_Ret_inv in H as (? & _ & H).
  destruct (Z.ltb_spec (t * 1000) (2 ^ 31)); [|done]. cbn [obind publisher_init] in H.
  injection H as <-. cbn. lia.
Qed.
