(* ===== verification/IoBackend.v ===== *)
(** io::IoBackend (framework/io/io_backend.cpp), the I/O thread for connections
    between servers, with io::IoBackendConnection::initialize
    (io_backend_connection.cpp), io::IoBackendCluster (io_backend_cluster.cpp) and
    io::IoBackendAcceptService::run (io_backend_accept_service.cpp).

    Two things the file uses are not in the repository and are interfaces here: the
    class concurrency::Queue of new sockets ([BackendSockets]; its elements are deleted
    as they are taken) and [pushMsgData] of a backend connection ([BackendPush], with
    the fields it needs).  The notification socket pairs that wake the loop up are in
    EventLoop.v.  What [socket] and [setNonblocking] answer to
    [createSocket] is a list, consumed in order; an exhausted list refuses. *)
From S2P Require Import Prelude Heap Bytes MsMessage MsQueues IoPushList IoConnection IoAppConnection LinkedList ConnCache IoApp Settings.

(** ** Interfaces *)
Class BackendSockets (Q : Type) := {
  bsq_put : Q → Z → Z → Q;
  bsq_get : Q → list (Z * Z) * Q }.

Class BackendPush (B : Type) := {
  push_blank : B;
  backend_pushMsgData : IoConnection → mheap → B → loc → outcome (mheap * B) }.

(** ** State *)
(** A connection object: the base class part, whether [_workers] is set, which of the
    two functions [setWhenDestroy] was given, and the rest. *)
Record backend_object (B : Type) := mkBackendObject {
  bo_base : IoConnection;
  bo_workers : bool;
  bo_outstream : bool;
  bo_push : B }.
Arguments mkBackendObject {B}.
Arguments bo_base {B}.
Arguments bo_workers {B}.
Arguments bo_outstream {B}.
Arguments bo_push {B}.

Record IoBackend (S B Q : Type) := mkBackend {
  bk_id : Z;
  bk_rtimeout : Z;
  bk_wtimeout : Z;
  bk_online : conn_register;
  bk_cache : cache_state;
  bk_conns : gmap loc (backend_object B);
  bk_sock_queue : Q;
  bk_msg_queue : MsMessageQueue;
  bk_msgs : mheap;
  bk_pushes : pheap;
  bk_workers : option S;
  bk_answers : list (Z * bool);
  bk_dialled : list (Z * sockaddr_in); (** the calls of [connect] *)
  bk_closed : list Z (** descriptors closed by [createSocket] *) }.
Arguments mkBackend {S B Q}.
Arguments bk_id {S B Q}.
Arguments bk_rtimeout {S B Q}.
Arguments bk_wtimeout {S B Q}.
Arguments bk_online {S B Q}.
Arguments bk_cache {S B Q}.
Arguments bk_conns {S B Q}.
Arguments bk_sock_queue {S B Q}.
Arguments bk_msg_queue {S B Q}.
Arguments bk_msgs {S B Q}.
Arguments bk_pushes {S B Q}.
Arguments bk_workers {S B Q}.
Arguments bk_answers {S B Q}.
Arguments bk_dialled {S B Q}.
Arguments bk_closed {S B Q}.

Section backend.
Context {S B Q : Type} {HS : MsWorkerCluster S} {HB : BackendPush B} {HQ : BackendSockets Q}.
Implicit Types (a : IoBackend S B Q) (o : backend_object B).

Definition bk_set_owner (online : conn_register) (cache : cache_state) a : IoBackend S B Q :=
  mkBackend (bk_id a) (bk_rtimeout a) (bk_wtimeout a) online cache (bk_conns a) (bk_sock_queue a)
    (bk_msg_queue a) (bk_msgs a) (bk_pushes a) (bk_workers a) (bk_answers a) (bk_dialled a) (bk_closed a).
Definition bk_set_conns (cs : gmap loc (backend_object B)) a : IoBackend S B Q :=
  mkBackend (bk_id a) (bk_rtimeout a) (bk_wtimeout a) (bk_online a) (bk_cache a) cs (bk_sock_queue a)
    (bk_msg_queue a) (bk_msgs a) (bk_pushes a) (bk_workers a) (bk_answers a) (bk_dialled a) (bk_closed a).
Definition bk_set_queues (q : Q) (mq : MsMessageQueue) a : IoBackend S B Q :=
  mkBackend (bk_id a) (bk_rtimeout a) (bk_wtimeout a) (bk_online a) (bk_cache a) (bk_conns a) q
    mq (bk_msgs a) (bk_pushes a) (bk_workers a) (bk_answers a) (bk_dialled a) (bk_closed a).
Definition bk_set_heaps (mh : mheap) (ph : pheap) (w : option S) a : IoBackend S B Q :=
  mkBackend (bk_id a) (bk_rtimeout a) (bk_wtimeout a) (bk_online a) (bk_cache a) (bk_conns a) (bk_sock_queue a)
    (bk_msg_queue a) mh ph w (bk_answers a) (bk_dialled a) (bk_closed a).
Definition bk_set_msgs (mh : mheap) a : IoBackend S B Q := bk_set_heaps mh (bk_pushes a) (bk_workers a) a.
Definition bk_set_sys (answers : list (Z * bool)) (dialled : list (Z * sockaddr_in)) (closed : list Z) a
    : IoBackend S B Q :=
  mkBackend (bk_id a) (bk_rtimeout a) (bk_wtimeout a) (bk_online a) (bk_cache a) (bk_conns a) (bk_sock_queue a)
    (bk_msg_queue a) (bk_msgs a) (bk_pushes a) (bk_workers a) answers dialled closed.

Definition IoBackend_new (id : Z) (q : Q) (workers : option S) (answers : list (Z * bool)) : IoBackend S B Q :=
  mkBackend id 0 0 ∅ ConnectionCache_new ∅ q MsMessageQueue_new ∅ ∅ workers answers [] [].

(** [IoBackend::Impl::destroy] *)
Definition IoBackend_destroy a (l : loc) : outcome (IoBackend S B Q) :=
  let* cache := ConnectionCache_recycle (bk_cache a) l in
  Ret (bk_set_owner (bk_online a) cache a).

(** [IoBackend::Impl::outstream_destroy] *)
Definition IoBackend_outstream_destroy a (l : loc) (c : IoConnection) : outcome (IoBackend S B Q) :=
  let online := ConnectionRegister_unset (bk_online a) (c_id c) in
  let* cache := ConnectionCache_recycle (bk_cache a) l in
  Ret (bk_set_owner online cache a).

(** ** The virtual methods of a connection *)
(** The thread, the address of the object and its two settings. *)
Record backend_world := mkBackendWorld {
  bw_thread : IoBackend S B Q; bw_self : loc; bw_has_workers : bool; bw_outstream : bool }.
Definition bw_set (w : backend_world) a : backend_world :=
  mkBackendWorld a (bw_self w) (bw_has_workers w) (bw_outstream w).

#[export] Instance backend_virtual : ConnVirtual backend_world := {|
  w_msgs w := bk_msgs (bw_thread w);
  w_pushes w := bk_pushes (bw_thread w);
  w_set_heaps mh ph w := bw_set w (bk_set_heaps mh ph (bk_workers (bw_thread w)) (bw_thread w));
  whenReceivedFrame c w off size :=
    let a := bw_thread w in
    let* (ret, mh, s) := IoBackendConnection_whenReceivedFrame c (bk_msgs a)
      (if bw_has_workers w then bk_workers a else None) off size in
    Ret (ret, bw_set w (bk_set_heaps mh (bk_pushes a) (if bw_has_workers w then s else bk_workers a) a));
  whenClosed w := Ret w;
  getPushData w := Ret (None, w);
  pendingPushData w _ := Ret w;
  when_destroy c w :=
    let* a := if bw_outstream w then IoBackend_outstream_destroy (bw_thread w) (bw_self w) c
              else IoBackend_destroy (bw_thread w) (bw_self w) in
    Ret (bw_set w a) |}.

Definition backend_conn_world a (l : loc) o : backend_world :=
  mkBackendWorld a l (bo_workers o) (bo_outstream o).
(** The thread after the connection at [l] acted. *)
Definition put_backend_conn (l : loc) (c : IoConnection) o (w : backend_world) : IoBackend S B Q :=
  let a := bw_thread w in
  bk_set_conns (<[l := mkBackendObject c (bo_workers o) (bo_outstream o) (bo_push o)]> (bk_conns a)) a.

Definition IoBackend_read_event (fuel : nat) (which : Z) a (l : loc) (net : socket_io)
    : outcome (IoBackend S B Q * socket_io) :=
  let* o := load (bk_conns a) (Some l) in
  let* (c, w, net) := readHandler fuel which (bo_base o) (backend_conn_world a l o) net in
  Ret (put_backend_conn l c o w, net).

Definition IoBackend_write_event (which : Z) a (l : loc) (net : socket_io)
    : outcome (IoBackend S B Q * socket_io) :=
  let* o := load (bk_conns a) (Some l) in
  let* (c, w, net) := writeHandler which (bo_base o) (backend_conn_world a l o) net in
  Ret (put_backend_conn l c o w, net).

(** ** New sockets *)
(** [_cache.get()] *)
Definition backend_take_conn a : outcome (loc * IoBackend S B Q) :=
  let* (got, cache) := ConnectionCache_get (bk_cache a) in
  let a := bk_set_owner (bk_online a) cache a in
  match got with
  | Some l => Ret (l, a)
  | None =>
      let (l, cs) := alloc (bk_conns a) (mkBackendObject IoConnection_new false false push_blank) in
      Ret (l, bk_set_conns cs a)
  end.

(** The loop of [newConnection], over the elements taken from the queue. *)
Fixpoint backend_new_loop a (list : list (Z * Z)) : outcome (IoBackend S B Q) :=
  match list with
  | [] => Ret a
  | (new_fd, conn_id) :: list =>
      let* (l, a) := backend_take_conn a in
      let* o := load (bk_conns a) (Some l) in
      let c := IoConnection_initialize (bo_base o) new_fd (bk_id a) (u64 conn_id) in
      let c := cset_rtimeout (bk_rtimeout a) c in
      let c := cset_wtimeout (bk_wtimeout a) c in
      let c := cset_when_destroy true c in
      let c := _setRead c true in
      let* cs := store (bk_conns a) (Some l)
                   (mkBackendObject c (bool_decide (is_Some (bk_workers a))) false (bo_push o)) in
      backend_new_loop (bk_set_conns cs a) list
  end.

Definition IoBackend_newConnection a : outcome (IoBackend S B Q) :=
  let (list, q) := bsq_get (bk_sock_queue a) in
  let* a := backend_new_loop (bk_set_queues q (bk_msg_queue a) a) list in
  Ret (bk_set_owner (bk_online a) (cache_next_loop (bk_cache a)) a).

(** ** Messages *)
(** [createSocket]: the descriptor, or -1; the result of [connect] is not looked at. *)
Definition createSocket a (key : Z) : Z * IoBackend S B Q :=
  match bk_answers a with
  | [] => (-1, a)
  | (fd, nonblocking) :: answers =>
      if fd =? -1 then (-1, bk_set_sys answers (bk_dialled a) (bk_closed a) a)
      else if negb nonblocking then (-1, bk_set_sys answers (bk_dialled a) (bk_closed a ++ [fd]) a)
      else (fd, bk_set_sys answers (bk_dialled a ++ [(fd, key_address key)]) (bk_closed a) a)
  end.

(** [conn->pushMsgData(msg)] on the connection at [l], whose base part is [c]. *)
Definition push_on a (l : loc) (c : IoConnection) o (msg : loc) : outcome (IoBackend S B Q) :=
  let* (mh, b) := backend_pushMsgData c (bk_msgs a) (bo_push o) msg in
  let* cs := store (bk_conns a) (Some l) (mkBackendObject c (bo_workers o) (bo_outstream o) b) in
  Ret (bk_set_conns cs (bk_set_msgs mh a)).

Definition IoBackend_pushMessage a (msg : loc) : outcome (IoBackend S B Q) :=
  let* m := load (bk_msgs a) (Some msg) in
  match ConnectionRegister_get (bk_online a) (msg_conn m) with
  | Some l =>
      let* o := load (bk_conns a) (Some l) in
      push_on a l (setWrite (bo_base o) true) o msg
  | None =>
      let (fd, a) := createSocket a (msg_conn m) in
      if negb (fd =? -1) then
        let c := IoConnection_initialize IoConnection_new fd (bk_id a) (msg_conn m) in
        let c := cset_when_destroy true c in
        let c := setConnecting c in
        let o := mkBackendObject c false true push_blank in
        let (l, cs) := alloc (bk_conns a) o in
        let a := bk_set_owner (ConnectionRegister_set (bk_online a) (msg_conn m) l) (bk_cache a)
                   (bk_set_conns cs a) in
        push_on a l c o msg
      else let* mh := releaseIMessage (bk_msgs a) (Some msg) in Ret (bk_set_msgs mh a)
  end.

(** The loop of [push]. *)
Fixpoint backend_push_loop (fuel : nat) a (list : ptr) : outcome (IoBackend S B Q) :=
  match list with
  | None => Ret a
  | Some item =>
      match fuel with
      | O => Diverge
      | Datatypes.S fuel =>
          let* m := load (bk_msgs a) list in
          let* mh := store_next (bk_msgs a) list None in
          let* a := IoBackend_pushMessage (bk_set_msgs mh a) item in
          backend_push_loop fuel a (msg_next m)
      end
  end.

Definition IoBackend_push a : outcome (IoBackend S B Q) :=
  let (list, q) := MsMessageQueue_get (bk_msg_queue a) in
  backend_push_loop (size (bk_msgs a)) (bk_set_queues (bk_sock_queue a) q a) list.

(** ** io::IoBackendCluster *)
(** [run]: one thread, without time-outs; the others need it to have run. *)
Definition IoBackendCluster_run (q : Q) (workers : option S) (answers : list (Z * bool)) : IoBackend S B Q :=
  IoBackend_new 0 q workers answers.

Definition IoBackendCluster_dispatchConnection (core : option (IoBackend S B Q)) (fd id : Z)
    : outcome (IoBackend S B Q) :=
  match core with
  | Some a => Ret (bk_set_queues (bsq_put (bk_sock_queue a) fd id) (bk_msg_queue a) a)
  | None => Fault
  end.

Definition IoBackendCluster_dispatchPushList (core : option (IoBackend S B Q)) (msg : ptr)
    : outcome (IoBackend S B Q) :=
  match core with
  | Some a =>
      let* (mh, mq) := MsMessageQueue_put (bk_msgs a) (bk_msg_queue a) msg in
      Ret (bk_set_queues (bk_sock_queue a) mq (bk_set_msgs mh a))
  | None => Fault
  end.

(** io::IoBackendAcceptService::run; the counter is its [_id]. *)
Definition IoBackendAcceptService_run (id : Z) (core : option (IoBackend S B Q)) (fd : Z)
    : outcome (Z * IoBackend S B Q) :=
  let* a := IoBackendCluster_dispatchConnection core fd (id + 1) in Ret (id + 1, a).
End backend.

(** ** Invariant

    A registered connection is an open outgoing one under its own id; every open
    outgoing one is registered; a closed object waits in the cache, once. *)
Record backend_inv {S B Q} (a : IoBackend S B Q) (ps : list loc) : Prop := {
  bi_online : ∀ key l, bk_online a !! key = Some l →
    ∃ o, bk_conns a !! l = Some o ∧ c_id (bo_base o) = key ∧ bo_outstream o = true ∧
         c_destroy (bo_base o) = 0;
  bi_open : ∀ l o, bk_conns a !! l = Some o → c_destroy (bo_base o) = 0 →
    (l ∉ ps) ∧ c_when_destroy (bo_base o) = true ∧ c_current_push (bo_base o) = None ∧
    (bo_outstream o = true → bk_online a !! c_id (bo_base o) = Some l);
  bi_parked : parked_conns (mkOwner 0 (bk_online a) (bk_cache a)) ps;
  bi_objects : ∀ l, l ∈ ps → is_Some (bk_conns a !! l);
  bi_nodup : NoDup ps }.

Section backend_lemmas.
Context {S B Q : Type} {HS : MsWorkerCluster S} {HB : BackendPush B} {HQ : BackendSockets Q}.
Implicit Types (a : IoBackend S B Q) (o : backend_object B).

(** The invariant looks at the register, the cache and the objects only. *)
Lemma backend_inv_ext a a' ps :
  bk_online a' = bk_online a → bk_cache a' = bk_cache a → bk_conns a' = bk_conns a →
  backend_inv a ps → backend_inv a' ps.
Proof. intros E1 E2 E3 [H1 H2 H3 H4 H5]. split; rewrite ?E1, ?E2, ?E3; done. Qed.

Lemma backend_new_inv id q workers answers :
  backend_inv (IoBackend_new id q workers answers : IoBackend S B Q) [].
Proof.
  split; try done.
  - exists [], [], []. split; [apply cache_new_rep|done].
  - set_solver.
  - constructor.
Qed.

(** Overwriting an object that is neither registered nor parked by an open one. *)
Lemma backend_inv_fresh a ps l o online :
  backend_inv a ps → (∀ key, bk_online a !! key ≠ Some l) → (l ∉ ps) →
  c_destroy (bo_base o) = 0 → c_when_destroy (bo_base o) = true → c_current_push (bo_base o) = None →
  online = (if bo_outstream o then <[c_id (bo_base o) := l]> (bk_online a) else bk_online a) →
  (bo_outstream o = true → bk_online a !! c_id (bo_base o) = None) →
  backend_inv (bk_set_owner online (bk_cache a) (bk_set_conns (<[l := o]> (bk_conns a)) a)) ps.
Proof.
  intros [H1 H2 H3 H4 H5] Hon Hps Hd Hw Hc -> Hnew. split; cbn.
  - intros key l' Hk. destruct (bo_outstream o) eqn:Eo.
    + destruct (decide (key = c_id (bo_base o))) as [->|Hne].
      * rewrite lookup_insert_eq in Hk. injection Hk as <-. exists o. by rewrite lookup_insert_eq.
      * rewrite lookup_insert_ne in Hk by done. destruct (H1 _ _ Hk) as (o' & E & ?).
        exists o'. rewrite lookup_insert_ne; [done|]. intros ->. by eapply Hon.
    + destruct (H1 _ _ Hk) as (o' & E & ?). exists o'. rewrite lookup_insert_ne; [done|].
      intros ->. by eapply Hon.
  - intros l' o' Hl Hd'. destruct (decide (l' = l)) as [->|Hne].
    + rewrite lookup_insert_eq in Hl. injection Hl as <-. split_and!; try done.
      intros ->. apply lookup_insert_eq.
    + rewrite lookup_insert_ne in Hl by done. destruct (H2 _ _ Hl Hd') as (? & ? & ? & Hreg).
      split_and!; try done. intros Ho. specialize (Hreg Ho).
      destruct (bo_outstream o) eqn:Eo; [|done]. rewrite lookup_insert_ne; [done|].
      intros E. rewrite <-E, Hnew in Hreg by done. done.
  - eapply parked_owner; [|exact H3]. done.
  - intros l' Hl. destruct (decide (l' = l)) as [->|Hne]; [done|].
    rewrite lookup_insert_ne by done. by apply H4.
  - done.
Qed.

(** Parking an open object. *)
Lemma backend_inv_park a ps l o c :
  backend_inv a ps → bk_conns a !! l = Some o → c_destroy (bo_base o) = 0 → c_destroy c ≠ 0 →
  ∃ cache, ConnectionCache_recycle (bk_cache a) l = Ret cache ∧
    backend_inv (bk_set_owner (if bo_outstream o then delete (c_id (bo_base o)) (bk_online a) else bk_online a)
      cache (bk_set_conns (<[l := mkBackendObject c (bo_workers o) (bo_outstream o) (bo_push o)]> (bk_conns a)) a))
      (ps ++ [l]).
Proof.
  intros [H1 H2 H3 H4 H5] Hl Hd Hc. destruct (H2 _ _ Hl Hd) as (Hps & _ & _ & Hreg).
  destruct H3 as (ids & xs & rs & Hr & ->).
  destruct (cache_recycle_spec _ _ _ _ l Hr) as (s & n & Es & Hr' & _). cbn in Es.
  exists s. split; [done|]. split; cbn.
  - intros key l' Hk. assert (bk_online a !! key = Some l' ∧ l' ≠ l) as [Hk' Hne].
    { destruct (bo_outstream o) eqn:Eo.
      - apply lookup_delete_Some in Hk as [Hne Hk]. split; [done|]. intros ->.
        destruct (H1 _ _ Hk) as (o' & E & Hid & _). congruence.
      - split; [done|]. intros ->. destruct (H1 _ _ Hk) as (o' & E & _ & Ho' & _). congruence. }
    destruct (H1 _ _ Hk') as (o' & E & ?). exists o'. by rewrite lookup_insert_ne.
  - intros l' o' Hl' Hd'. destruct (decide (l' = l)) as [->|Hne].
    { rewrite lookup_insert_eq in Hl'. injection Hl' as <-. cbn in Hd'. lia. }
    rewrite lookup_insert_ne in Hl' by done. destruct (H2 _ _ Hl' Hd') as (Hps' & ? & ? & Hreg').
    split_and!; try done; [set_solver|]. intros Ho'. specialize (Hreg' Ho').
    destruct (bo_outstream o) eqn:Eo; [|done]. apply lookup_delete_Some. split; [|done].
    intros E. rewrite <-E, (Hreg eq_refl) in Hreg'. congruence.
  - eexists _, xs, _. split; [exact Hr'|]. by rewrite !fmap_app, <-app_assoc.
  - intros l' [Hl'| ->%list_elem_of_singleton]%elem_of_app.
    + destruct (decide (l' = l)) as [->|?]; [rewrite lookup_insert_eq; eauto|].
      rewrite lookup_insert_ne by done. by apply H4.
    + rewrite lookup_insert_eq. eauto.
  - apply NoDup_app. split; [done|]. split; [set_solver|]. apply NoDup_singleton.
Qed.

(** An object changed in place, still open under its id. *)
Lemma backend_inv_update a ps l o c b mh :
  backend_inv a ps → bk_conns a !! l = Some o → c_id c = c_id (bo_base o) →
  c_destroy c = c_destroy (bo_base o) → c_when_destroy c = c_when_destroy (bo_base o) →
  c_current_push c = c_current_push (bo_base o) →
  backend_inv (bk_set_conns (<[l := mkBackendObject c (bo_workers o) (bo_outstream o) b]> (bk_conns a))
    (bk_set_msgs mh a)) ps.
Proof.
  intros [H1 H2 H3 H4 H5] Hl Ei Ed Ew Ep. split; cbn; try done.
  - intros key l' Hk. destruct (H1 _ _ Hk) as (o' & E & ?). destruct (decide (l' = l)) as [->|Hne].
    + assert (o' = o) as -> by congruence. eexists. rewrite lookup_insert_eq. split; [done|]. cbn. by rewrite Ei, Ed.
    + exists o'. by rewrite lookup_insert_ne.
  - intros l' o' Hl' Hd. destruct (decide (l' = l)) as [->|Hne].
    + rewrite lookup_insert_eq in Hl'. injection Hl' as <-. cbn in *. rewrite Ei, Ew, Ep.
      apply H2; [done|congruence].
    + rewrite lookup_insert_ne in Hl' by done. by apply H2.
  - intros l' Hl'. destruct (decide (l' = l)) as [->|?]; [rewrite lookup_insert_eq; eauto|].
    rewrite lookup_insert_ne by done. by apply H4.
Qed.

Lemma backend_take_spec a ps :
  backend_inv a ps →
  ∃ l a' o ps', backend_take_conn a = Ret (l, a') ∧ bk_conns a' !! l = Some o ∧
    bk_online a' = bk_online a ∧ bk_id a' = bk_id a ∧ bk_workers a' = bk_workers a ∧
    (bk_msgs a' = bk_msgs a ∧ bk_answers a' = bk_answers a ∧ bk_dialled a' = bk_dialled a) ∧
    (∀ key, bk_online a' !! key ≠ Some l) ∧ (l ∉ ps') ∧
    (backend_inv (bk_set_conns (delete l (bk_conns a')) a') ps') ∧
    (∀ k o', bk_conns a !! k = Some o' → c_destroy (bo_base o') = 0 → k ≠ l ∧ bk_conns a' !! k = Some o').
Proof.
  intros [H1 H2 H3 H4 H5]. unfold backend_take_conn.
  destruct (parked_get _ _ H3) as (got & cache & E & Hgot). cbn in E. rewrite E. cbn [obind].
  destruct got as [l|].
  - destruct Hgot as (ps' & -> & Hpk). destruct (H4 l) as [o Ho]; [set_solver|].
    apply NoDup_cons in H5 as [Hl Hnd].
    assert (∀ key, bk_online a !! key ≠ Some l) as Hon.
    { intros key Hk. destruct (H1 _ _ Hk) as (o' & E' & _ & _ & Hd).
      destruct (H2 _ _ E' Hd) as [Hn _]. set_solver. }
    eexists l, _, o, ps'. split; [done|]. cbn. split_and!; try done.
    + split; cbn; try done.
      * intros key l' Hk. destruct (H1 _ _ Hk) as (o' & E' & ?). exists o'.
        rewrite lookup_delete_ne; [done|]. intros ->. by eapply Hon.
      * intros l' o' Hl' Hd. apply lookup_delete_Some in Hl' as [Hne Hl'].
        destruct (H2 _ _ Hl' Hd) as (? & ?). split; [set_solver|done].
      * intros l' Hl'. rewrite lookup_delete_ne by set_solver. apply H4. set_solver.
    + intros k o' Hk Hd. split; [|done]. intros ->. destruct (H2 _ _ Hk Hd) as [Hn _]. set_solver.
  - destruct (alloc _ _) as [l cs] eqn:Ea. apply alloc_fresh in Ea as [En ->]. cbn in En.
    eexists l, _, _, ps. split; [done|]. cbn. split_and!; try done.
    + apply lookup_insert_eq.
    + intros key Hk. destruct (H1 _ _ Hk) as (o' & E' & _). congruence.
    + intros Hl. destruct (H4 l Hl). congruence.
    + rewrite delete_insert_id by done. split; cbn; done.
    + intros k o' Hk Hd. assert (k ≠ l) by congruence. by rewrite lookup_insert_ne.
Qed.

(** An accepted socket's object. *)
Definition accepted_object a (fd id : Z) : Prop :=
  ∃ l o, bk_conns a !! l = Some o ∧ c_socket (bo_base o) = fd ∧ c_id (bo_base o) = u64 id ∧
    c_destroy (bo_base o) = 0 ∧ bo_outstream o = false ∧
    bo_workers o = bool_decide (is_Some (bk_workers a)).

Lemma backend_new_loop_spec a ps xs :
  backend_inv a ps →
  ∃ a' ps', backend_new_loop a xs = Ret a' ∧ backend_inv a' ps' ∧
    bk_online a' = bk_online a ∧ bk_workers a' = bk_workers a ∧
    (bk_msgs a' = bk_msgs a ∧ bk_answers a' = bk_answers a ∧ bk_dialled a' = bk_dialled a) ∧
    (∀ fd id, (fd, id) ∈ xs → accepted_object a' fd id) ∧
    (∀ k o, bk_conns a !! k = Some o → c_destroy (bo_base o) = 0 → bk_conns a' !! k = Some o).
Proof.
  revert a ps. induction xs as [|[fd id] xs IH]; intros a ps Hinv; cbn [backend_new_loop].
  { exists a, ps. split_and!; try done. set_solver. }
  destruct (backend_take_spec _ _ Hinv) as (l & a1 & o & ps1 & -> & Ho & Eon & Eid & Ewk & (Em1 & Ea1 & Ed1) & Hon & Hps & Hinv1 & Hk).
  cbn [obind]. rewrite (load_Some _ _ _ Ho). cbn [obind]. rewrite (store_Some _ _ _ _ Ho). cbn [obind].
  set (c := _setRead _ true). set (o1 := mkBackendObject c _ _ _).
  assert (backend_inv (bk_set_conns (<[l := o1]> (bk_conns a1)) a1) ps1) as Hinv2.
  { eapply backend_inv_ext; [..|apply (backend_inv_fresh _ ps1 l o1 (bk_online a1) Hinv1)]; try done.
    cbn. by rewrite insert_delete_eq. }
  destruct (IH _ _ Hinv2) as (a2 & ps2 & -> & Hinv3 & Eon2 & Ewk2 & (Em2 & Ea2 & Ed2) & Hacc & Hkeep).
  exists a2, ps2. split_and!; try done.
  - by rewrite Eon2.
  - by rewrite Ewk2.
  - by rewrite Em2.
  - by rewrite Ea2.
  - by rewrite Ed2.
  - intros fd' id' [[= -> ->]|Hin]%elem_of_cons; [|by apply Hacc].
    exists l, o1. split; [apply Hkeep; [cbn; apply lookup_insert_eq|done]|].
    split_and!; try done. cbn. by rewrite Ewk2.
  - intros k o' Hk' Hd. destruct (Hk _ _ Hk' Hd) as [Hne Hk1]. apply Hkeep; [|done].
    cbn. by rewrite lookup_insert_ne.
Qed.

Lemma createSocket_spec a key fd a' :
  createSocket a key = (fd, a') →
  bk_online a' = bk_online a ∧ bk_cache a' = bk_cache a ∧ bk_conns a' = bk_conns a ∧
  bk_msgs a' = bk_msgs a ∧ bk_id a' = bk_id a ∧
  (if fd =? -1 then bk_dialled a' = bk_dialled a
   else bk_dialled a' = bk_dialled a ++ [(fd, key_address key)] ∧ bk_closed a' = bk_closed a).
Proof.
  unfold createSocket. destruct (bk_answers a) as [|[f nb] ans]; [by intros [= <- <-]|].
  destruct (Z.eqb_spec f (-1)) as [->|Hf]; [by intros [= <- <-]|].
  destruct nb; cbn [negb]; intros [= <- <-]; [|done].
  by rewrite (proj2 (Z.eqb_neq _ _) Hf).
Qed.

Lemma backend_pushMessage_inv a ps msg a' :
  backend_inv a ps → IoBackend_pushMessage a msg = Ret a' → backend_inv a' ps.
Proof.
  intros Hinv. unfold IoBackend_pushMessage. intros (m & _ & H)%obind_Ret_inv.
  unfold ConnectionRegister_get in H. destruct (bk_online a !! msg_conn m) as [l|] eqn:El.
  - destruct (bi_online _ _ Hinv _ _ El) as (o & Ho & _). rewrite (load_Some _ _ _ Ho) in H. cbn [obind] in H.
    unfold push_on in H. apply obind_Ret_inv in H as ([mh b] & _ & H).
    rewrite (store_Some _ _ _ _ Ho) in H. cbn [obind] in H. injection H as <-.
    apply (backend_inv_update a ps l o (setWrite (bo_base o) true) b mh Hinv Ho); unfold setWrite, _setWrite, setWriteFlag;
      repeat case_match; done.
  - destruct (createSocket a (msg_conn m)) as [fd a1] eqn:Ec.
    apply createSocket_spec in Ec as (E1 & E2 & E3 & E4 & E5 & _).
    assert (backend_inv a1 ps) as Hinv1 by by eapply backend_inv_ext.
    destruct (negb (fd =? -1)).
    + destruct (alloc _ _) as [l cs] eqn:Ea. apply alloc_fresh in Ea as [En ->].
      unfold push_on in H. apply obind_Ret_inv in H as ([mh b] & _ & H). cbn [bk_conns bk_set_owner bk_set_conns] in H.
      rewrite (store_Some _ _ _ _ (lookup_insert_eq _ _ _)) in H. cbn [obind] in H. injection H as <-.
      rewrite insert_insert_eq.
      eapply backend_inv_ext; [..|apply (backend_inv_fresh a1 ps l
        (mkBackendObject (setConnecting (cset_when_destroy true
          (IoConnection_initialize IoConnection_new fd (bk_id a1) (msg_conn m)))) false true b)
        (ConnectionRegister_set (bk_online a1) (msg_conn m) l) Hinv1)]; try done.
      * intros key Hk. destruct (bi_online _ _ Hinv1 _ _ Hk) as (o & E & _). congruence.
      * intros Hl. destruct (bi_objects _ _ Hinv1 l Hl). congruence.
      * intros _. cbn. by rewrite E1.
    + apply obind_Ret_inv in H as (mh & _ & [= <-]). by eapply backend_inv_ext; [..|exact Hinv1].
Qed.

Lemma backend_push_loop_inv fuel a ps list a' :
  backend_inv a ps → backend_push_loop fuel a list = Ret a' → backend_inv a' ps.
Proof.
  revert a list. induction fuel as [|fuel IH]; intros a list Hinv; destruct list as [item|];
    cbn [backend_push_loop]; try (by intros [= <-]).
  intros (m & _ & H)%obind_Ret_inv. apply obind_Ret_inv in H as (mh & _ & H).
  apply obind_Ret_inv in H as (a1 & H1 & H). eapply IH; [|exact H].
  eapply backend_pushMessage_inv; [|exact H1]. by eapply backend_inv_ext; [..|exact Hinv].
Qed.

(** Closing an open connection. *)
Lemma backend_tear_down a ps l o :
  backend_inv a ps → bk_conns a !! l = Some o → c_destroy (bo_base o) = 0 →
  ∃ c w, tear_down (bo_base o) (backend_conn_world a l o) = Ret (c, w) ∧
    backend_inv (put_backend_conn l c o w) (ps ++ [l]) ∧ c_destroy c = 1.
Proof.
  intros Hinv Hl Hd. destruct (bi_open _ _ Hinv _ _ Hl Hd) as (_ & Hw & Hp & _).
  unfold tear_down.
  set (c := cset_socket (-1) (_setWrite (_setRead (cset_destroy 1 (bo_base o)) false) false)).
  assert (c_current_push c = None ∧ c_when_destroy c = true ∧ c_id c = c_id (bo_base o) ∧ c_destroy c = 1)
    as (Ep & Ew & Ei & Ed).
  { unfold c, _setWrite, setWriteFlag, _setRead, setReadFlag. repeat case_match; done. }
  rewrite Ep. cbn [obind whenClosed backend_virtual c_when_destroy cset_current_push].
  rewrite Ew. cbn [when_destroy backend_virtual backend_conn_world bw_outstream bw_thread bw_self].
  destruct (backend_inv_park a ps l o (cset_current_push None c) Hinv Hl Hd) as (cache & Er & Hinv').
  { change (c_destroy c ≠ 0). lia. }
  destruct (bo_outstream o) eqn:Eo.
  - unfold IoBackend_outstream_destroy. rewrite Er. cbn [obind]. eexists _, _. split; [reflexivity|].
    split; [|exact Ed]. eapply backend_inv_ext; [..|exact Hinv'].
    + cbn [put_backend_conn bw_set bw_thread bk_set_owner bk_set_conns bk_online].
      by change (c_id (cset_current_push None c)) with (c_id c); rewrite Ei.
    + done.
    + cbn [put_backend_conn bw_set bw_thread bk_set_owner bk_set_conns bk_conns]. by rewrite Eo.
  - unfold IoBackend_destroy. rewrite Er. cbn [obind]. eexists _, _. split; [reflexivity|].
    split; [|exact Ed]. eapply backend_inv_ext; [..|exact Hinv']; [done|done|].
    cbn [put_backend_conn bw_set bw_thread bk_set_owner bk_set_conns bk_conns]. by rewrite Eo.
Qed.

(** The connection at [l] changed, still under its id and neither opened nor closed. *)
Lemma backend_inv_put a ps l o c :
  backend_inv a ps → bk_conns a !! l = Some o → c_id c = c_id (bo_base o) →
  c_destroy c = c_destroy (bo_base o) → c_when_destroy c = c_when_destroy (bo_base o) →
  c_current_push c = c_current_push (bo_base o) →
  backend_inv (put_backend_conn l c o (backend_conn_world a l o)) ps.
Proof.
  intros Hinv Hl E1 E2 E3 E4.
  eapply backend_inv_ext; [..|exact (backend_inv_update a ps l o c (bo_push o) (bk_msgs a) Hinv Hl E1 E2 E3 E4)]; done.
Qed.

Lemma write_idle_fields c :
  c_id (write_idle c) = c_id c ∧ c_destroy (write_idle c) = c_destroy c ∧
  c_when_destroy (write_idle c) = c_when_destroy c ∧ c_current_push (write_idle c) = c_current_push c.
Proof.
  unfold write_idle, _setWrite, setWriteFlag, _setRead, setReadFlag. repeat case_match; done.
Qed.

Lemma backend_write_data a ps l o c net :
  backend_inv a ps → bk_conns a !! l = Some o → c_id c = c_id (bo_base o) →
  c_destroy c = c_destroy (bo_base o) → c_when_destroy c = c_when_destroy (bo_base o) →
  c_current_push c = None → c_current_push (bo_base o) = None →
  ∃ c', write_data_state c (backend_conn_world a l o) net = Ret (c', backend_conn_world a l o, net) ∧
    backend_inv (put_backend_conn l c' o (backend_conn_world a l o)) ps.
Proof.
  intros Hinv Hl E1 E2 E3 E4 E5. unfold write_data_state. rewrite E4.
  cbn [getPushData backend_virtual obind]. eexists. split; [reflexivity|].
  destruct (write_idle_fields (cset_current_push None c)) as (F1 & F2 & F3 & F4).
  apply backend_inv_put; [done|done|rewrite F1|rewrite F2|rewrite F3|rewrite F4]; done || by rewrite E5.
Qed.

Lemma backend_reset_return a ps l o c net :
  backend_inv a ps → bk_conns a !! l = Some o → c_destroy (bo_base o) = 0 → c = bo_base o →
  ∃ c' w', reset_return c (backend_conn_world a l o) net = Ret (c', w', net) ∧
    backend_inv (put_backend_conn l c' o w') (ps ++ [l]).
Proof.
  intros Hinv Hl Hd ->. unfold reset_return, resetSocket.
  destruct (backend_tear_down a ps l o Hinv Hl Hd) as (c' & w' & -> & Hinv' & _). cbn [obind]. eauto.
Qed.

Lemma backend_write_event_inv which a ps l net o :
  backend_inv a ps → bk_conns a !! l = Some o →
  ∃ a' net' ps', IoBackend_write_event which a l net = Ret (a', net') ∧ backend_inv a' ps'.
Proof.
  intros Hinv Hl. unfold IoBackend_write_event. rewrite (load_Some _ _ _ Hl). cbn [obind]. unfold writeHandler.
  destruct (Z.eqb_spec (c_destroy (bo_base o)) 0) as [Hd|Hd]; cbn [negb].
  2:{ cbn [obind]. eexists _, _, ps. split; [reflexivity|]. by apply backend_inv_put. }
  destruct (bi_open _ _ Hinv _ _ Hl Hd) as (_ & _ & Hp & _).
  assert (∃ a' net' ps', (let* (c, w, net) := reset_return (bo_base o) (backend_conn_world a l o) net in
    Ret (put_backend_conn l c o w, net)) = Ret (a', net') ∧ backend_inv a' ps') as Hreset.
  { destruct (backend_reset_return a ps l o (bo_base o) net) as (c' & w' & -> & Hi); [done..|].
    cbn [obind]. eauto. }
  destruct (negb (Z.land which EV_TIMEOUT =? 0)); [exact Hreset|].
  unfold writeSocket. destruct (c_wsock_state (bo_base o)).
  - destruct (negb (net_so_error net =? 0)); [exact Hreset|].
    destruct (backend_write_data a ps l o (cset_wsock_state SOCKET_DATA_WRITE (bo_base o)) net) as (c' & -> & Hi); [done..|].
    cbn [obind]. eauto.
  - destruct (backend_write_data a ps l o (bo_base o) net) as (c' & -> & Hi); [done..|]. cbn [obind]. eauto.
  - exact Hreset.
  - exact Hreset.
Qed.

Lemma backend_timeout_inv fuel a ps l net o :
  backend_inv a ps → bk_conns a !! l = Some o →
  ∃ a' net' ps', IoBackend_read_event fuel EV_TIMEOUT a l net = Ret (a', net') ∧ backend_inv a' ps'.
Proof.
  intros Hinv Hl. unfold IoBackend_read_event. rewrite (load_Some _ _ _ Hl). cbn [obind]. unfold readHandler.
  destruct (Z.eqb_spec (c_destroy (bo_base o)) 0) as [Hd|Hd]; cbn [negb].
  2:{ cbn [obind]. eexists _, _, ps. split; [reflexivity|]. by apply backend_inv_put. }
  change (negb (Z.land EV_TIMEOUT EV_TIMEOUT =? 0)) with true. cbv iota. unfold handleTimeout.
  destruct (backend_reset_return a ps l o (bo_base o) net) as (c' & w' & -> & Hi); [done..|].
  cbn [obind]. eauto.
Qed.

(** ** What the thread does *)
(** All but the read events that bring data. *)
Inductive backend_step : IoBackend S B Q → IoBackend S B Q → Prop :=
| Step_new a a' : IoBackend_newConnection a = Ret a' → backend_step a a'
| Step_push a a' : IoBackend_push a = Ret a' → backend_step a a'
| Step_write which a l net a' net' :
    IoBackend_write_event which a l net = Ret (a', net') → backend_step a a'
| Step_timeout fuel a l net a' net' :
    IoBackend_read_event fuel EV_TIMEOUT a l net = Ret (a', net') → backend_step a a'
| Step_socket a fd id a' :
    IoBackendCluster_dispatchConnection (Some a) fd id = Ret a' → backend_step a a'
| Step_message a msg a' :
    IoBackendCluster_dispatchPushList (Some a) msg = Ret a' → backend_step a a'
(** other threads make messages and change their own *)
| Step_heap a mh : backend_step a (bk_set_msgs mh a).

Lemma event_object (a : IoBackend S B Q) l {A} (k : backend_object B → outcome A) r :
  (let* o := load (bk_conns a) (Some l) in k o) = Ret r → ∃ o, bk_conns a !! l = Some o.
Proof. intros (o & H & _)%obind_Ret_inv. unfold load in H. cbn in H. destruct (bk_conns a !! l); eauto. done. Qed.

Lemma backend_step_inv a a' ps : backend_inv a ps → backend_step a a' → ∃ ps', backend_inv a' ps'.
Proof.
  intros Hinv Hs. destruct Hs as [a a' H|a a' H|which a l net a' net' H|fuel a l net a' net' H|a fd id a' H|a msg a' H|a mh].
  - unfold IoBackend_newConnection in H. destruct (bsq_get _) as [xs q].
    destruct (backend_new_loop_spec (bk_set_queues q (bk_msg_queue a) a) ps xs) as (a1 & ps1 & E & Hinv1 & _).
    { by eapply backend_inv_ext; [..|exact Hinv]. }
    rewrite E in H. cbn [obind] in H. injection H as <-. exists ps1.
    destruct Hinv1 as [? ? (ids & ys & rs & Hr & ->) ? ?]. split; try done.
    exists ids, ys, rs. split; [by apply next_loop_rep|done].
  - unfold IoBackend_push in H. destruct (MsMessageQueue_get _) as [list q]. exists ps.
    eapply backend_push_loop_inv; [|exact H]. by eapply backend_inv_ext; [..|exact Hinv].
  - destruct (event_object _ _ _ _ H) as [o Ho].
    destruct (backend_write_event_inv which a ps l net o Hinv Ho) as (a1 & net1 & ps1 & E & Hi).
    rewrite E in H. injection H as <- _. eauto.
  - destruct (event_object _ _ _ _ H) as [o Ho].
    destruct (backend_timeout_inv fuel a ps l net o Hinv Ho) as (a1 & net1 & ps1 & E & Hi).
    rewrite E in H. injection H as <- _. eauto.
  - injection H as <-. exists ps. by eapply backend_inv_ext; [..|exact Hinv].
  - cbn in H. apply obind_Ret_inv in H as ([mh mq] & _ & [= <-]). exists ps.
    by eapply backend_inv_ext; [..|exact Hinv].
  - exists ps. by eapply backend_inv_ext; [..|exact Hinv].
Qed.
End backend_lemmas.

Lemma backend_reach_inv {S B Q} {HS : MsWorkerCluster S} {HB : BackendPush B} {HQ : BackendSockets Q}
    (a a' : IoBackend S B Q) ps :
  rtc backend_step a a' → backend_inv a ps → ∃ ps', backend_inv a' ps'.
Proof.
  intros Hr. revert ps. induction Hr as [|a b c Hs _ IH]; intros ps Hinv; [by eauto|].
  destruct (backend_step_inv _ _ _ Hinv Hs) as [ps1 H1]. by eapply IH.
Qed.

(** Interfaces for the concrete instances below: a list of sockets, and connections
    that keep the messages pushed to them. *)
Definition wit_sockets : BackendSockets (list (Z * Z)) :=
  {| bsq_put q fd id := q ++ [(fd, id)]; bsq_get q := (q, []) |}.
Definition wit_push : BackendPush (list loc) :=
  {| push_blank := []; backend_pushMsgData _ mh b m := Ret (mh, b ++ [m]) |}.
Definition wit_cluster_schedule : MsWorkerCluster unit := {| schedule mh s _ := Ret (mh, s) |}.
Abbreviation wit_thread_type := (IoBackend unit (list loc) (list (Z * Z))).
Definition wit_backend (answers : list (Z * bool)) : wit_thread_type :=
  @IoBackend_new unit (list loc) (list (Z * Z)) 0 [] (Some tt) answers.
Definition wit_to (conn : Z) : IMessage := set_conn conn (new_message [Some 1] 1 0 1).

(** ** Properties *)

(** Through new sockets, messages, write events and time-outs in any order - the events
    that bring data in are left out, since [readSocket] can reset a connection twice and
    park it twice then - every registered connection is an open outgoing one under
    the key it is registered with, so there is at most one per destination; every open
    outgoing connection is registered; and no open connection waits in the cache, which
    holds no object twice. *)
Theorem backend_one_connection_per_server {S B Q} {HS : MsWorkerCluster S} {HB : BackendPush B}
    {HQ : BackendSockets Q} id (q : Q) workers answers (a : IoBackend S B Q)
    (Hr : rtc backend_step (IoBackend_new id q workers answers) a) :
  (∀ key l, bk_online a !! key = Some l → ∃ o, bk_conns a !! l = Some o ∧
     c_id (bo_base o) = key ∧ bo_outstream o = true ∧ c_destroy (bo_base o) = 0) ∧
  (∀ l o, bk_conns a !! l = Some o → c_destroy (bo_base o) = 0 → bo_outstream o = true →
     bk_online a !! c_id (bo_base o) = Some l) ∧
  ∃ ps, parked_conns (mkOwner 0 (bk_online a) (bk_cache a)) ps ∧ NoDup ps ∧
    ∀ l o, bk_conns a !! l = Some o → c_destroy (bo_base o) = 0 → l ∉ ps.
Proof.
  destruct (backend_reach_inv _ _ _ Hr (backend_new_inv id q workers answers)) as [ps [H1 H2 H3 H4 H5]].
  split; [done|]. split.
  - intros l o Hl Hd Ho. destruct (H2 _ _ Hl Hd) as (_ & _ & _ & H). by apply H.
  - exists ps. split; [done|]. split; [done|]. intros l o Hl Hd. by destruct (H2 _ _ Hl Hd).
Qed.

Definition wit_key : Z := 9 * 2 ^ 32 + 80.
Definition ret_or {A} (d : A) (o : outcome A) : A := match o with Ret a => a | _ => d end.
(** A message for another server is queued and pushed. *)
Definition wit_queued : wit_thread_type :=
  ret_or (wit_backend []) (IoBackendCluster_dispatchPushList
    (Some (bk_set_msgs {[1%positive := wit_to wit_key]} (wit_backend [(7, true)]))) (Some 1%positive)).
Definition wit_pushed : wit_thread_type :=
  ret_or (wit_backend []) (@IoBackend_push unit (list loc) (list (Z * Z)) wit_push wit_queued).

Lemma backend_one_connection_per_server_witness :
  bk_online wit_pushed !! wit_key = Some 1%positive ∧
  ∃ o, bk_conns wit_pushed !! 1%positive = Some o ∧ c_id (bo_base o) = wit_key ∧ bo_outstream o = true ∧
    c_destroy (bo_base o) = 0.
Proof.
  assert (bk_online wit_pushed !! wit_key = Some 1%positive) as E by (vm_compute; reflexivity).
  split; [exact E|].
  destruct (@backend_one_connection_per_server unit (list loc) (list (Z * Z)) wit_cluster_schedule wit_push
    wit_sockets 0 [] (Some tt) [(7, true)] wit_pushed) as [H _]; [|exact (H _ _ E)].
  eapply rtc_l; [apply (Step_heap _ {[1%positive := wit_to wit_key]})|].
  eapply rtc_l; [apply (Step_message _ (Some 1%positive) wit_queued); vm_compute; reflexivity|].
  eapply rtc_l; [apply (Step_push _ wit_pushed); vm_compute; reflexivity|]. apply rtc_refl.
Defined.

(** a message for another server is handed to the connection registered for its
    destination, which is armed for writing; when there is none, one socket is dialled to
    the address the destination number stands for, its connection is registered under
    that number, waits for the connection to be made and gets the message; when no socket
    can be made the message is released.  Nothing else changes. *)
Theorem backend_message_routed {S B Q} {HB : BackendPush B} (a : IoBackend S B Q) ps l0 m
    (Hinv : backend_inv a ps) (Em : bk_msgs a !! l0 = Some m) :
  match bk_online a !! msg_conn m with
  | Some l => ∃ o, bk_conns a !! l = Some o ∧ c_id (bo_base o) = msg_conn m ∧
      ∀ mh b, backend_pushMsgData (setWrite (bo_base o) true) (bk_msgs a) (bo_push o) l0 = Ret (mh, b) →
      ∃ a', IoBackend_pushMessage a l0 = Ret a' ∧ bk_msgs a' = mh ∧ bk_dialled a' = bk_dialled a ∧
        bk_online a' = bk_online a ∧
        bk_conns a' = <[l := mkBackendObject (setWrite (bo_base o) true) (bo_workers o) true b]> (bk_conns a)
  | None =>
      let (fd, _) := createSocket a (msg_conn m) in
      if fd =? -1 then
        ∃ a', IoBackend_pushMessage a l0 = Ret a' ∧ bk_msgs a' = delete l0 (bk_msgs a) ∧
          bk_online a' = bk_online a ∧ bk_conns a' = bk_conns a ∧ bk_dialled a' = bk_dialled a
      else
        (∀ c, ∃ mh b, backend_pushMsgData c (bk_msgs a) push_blank l0 = Ret (mh, b)) →
        ∃ a' l o, IoBackend_pushMessage a l0 = Ret a' ∧ bk_conns a !! l = None ∧
          bk_dialled a' = bk_dialled a ++ [(fd, key_address (msg_conn m))] ∧
          bk_online a' = <[msg_conn m := l]> (bk_online a) ∧ bk_conns a' = <[l := o]> (bk_conns a) ∧
          c_socket (bo_base o) = fd ∧ c_id (bo_base o) = msg_conn m ∧ bo_outstream o = true ∧
          c_wsock_state (bo_base o) = SOCKET_CONNECTING ∧
          c_wevent (bo_base o) = Some (Z.lor EV_WRITE EV_PERSIST, None) ∧
          ∃ mh, backend_pushMsgData (bo_base o) (bk_msgs a) push_blank l0 = Ret (mh, bo_push o) ∧ bk_msgs a' = mh
  end.
Proof.
  unfold IoBackend_pushMessage. rewrite (load_Some _ _ _ Em). cbn [obind]. unfold ConnectionRegister_get.
  destruct (bk_online a !! msg_conn m) as [l|] eqn:El.
  - destruct (bi_online _ _ Hinv _ _ El) as (o & Ho & Hid & Hout & _). exists o. split; [done|]. split; [done|].
    intros mh b Hp. rewrite (load_Some _ _ _ Ho). cbn [obind]. unfold push_on. rewrite Hp. cbn [obind].
    rewrite (store_Some _ _ _ _ Ho). cbn [obind]. eexists. split; [reflexivity|]. cbn. by rewrite Hout.
  - destruct (createSocket a (msg_conn m)) as [fd a1] eqn:Ec.
    apply createSocket_spec in Ec as (E1 & E2 & E3 & E4 & E5 & E6).
    destruct (Z.eqb_spec fd (-1)) as [->|Hfd]; cbn [negb].
    + unfold releaseIMessage. rewrite E4, (dealloc_Some _ _ _ Em). cbn [obind]. eexists. split; [reflexivity|].
      cbn. done.
    + intros Hp. destruct (alloc _ _) as [l cs] eqn:Ea. apply alloc_fresh in Ea as [En ->]. rewrite E3 in En.
      set (c := setConnecting _). destruct (Hp c) as (mh & b & Hc). unfold push_on.
      cbn [bk_msgs bk_set_owner bk_set_conns bo_push]. rewrite E4, Hc. cbn [obind bk_conns bk_set_owner bk_set_conns].
      rewrite (store_Some _ _ _ _ (lookup_insert_eq _ _ _)). cbn [obind].
      eexists _, l, _. split; [reflexivity|]. cbn. rewrite insert_insert_eq, E1, E3.
      destruct E6 as [E6 _]. rewrite E6. split_and!; try done. by exists mh.
Qed.

Lemma backend_message_routed_witness :
  ∃ a', @IoBackend_pushMessage unit (list loc) (list (Z * Z)) wit_push
      (bk_set_msgs {[1%positive := wit_to wit_key]} (wit_backend [(7, true)])) 1%positive = Ret a' ∧
    bk_dialled a' = [(7, mkAddr (htons 80) 9)].
Proof.
  pose proof (@backend_message_routed unit (list loc) (list (Z * Z)) wit_push
    (bk_set_msgs {[1%positive := wit_to wit_key]} (wit_backend [(7, true)])) [] 1%positive (wit_to wit_key)) as H.
  destruct H as (a' & l & o & Hp & _ & Hd & _).
  - eapply backend_inv_ext; [..|apply (backend_new_inv 0 [] (Some tt) [(7, true)])]; reflexivity.
  - reflexivity.
  - intros c. eexists _, _. reflexivity.
  - exists a'. split; [exact Hp|]. exact Hd.
Defined.

(** a connection another server opened is not registered: a message addressed to it is
    not sent on it but on a new socket, dialled to the address 0.0.0.0 with the
    connection's number as the port. *)
Theorem accepted_peer_is_dialled {S B Q} {HS : MsWorkerCluster S} {HB : BackendPush B} {HQ : BackendSockets Q}
    (a : IoBackend S B Q) ps xs fd id l0 m fd' answers q
    (Hinv : backend_inv a ps) (Hq : bsq_get (bk_sock_queue a) = (xs, q)) (Hin : (fd, id) ∈ xs)
    (Hid : 0 < id < 65536) (Hnew : bk_online a !! id = None) (Em : bk_msgs a !! l0 = Some m)
    (Hm : msg_conn m = id) (Hans : bk_answers a = (fd', true) :: answers) (Hfd : fd' ≠ -1)
    (Hp : ∀ c mh, ∃ mh' b, backend_pushMsgData c mh push_blank l0 = Ret (mh', b)) :
  ∃ a1 a2, IoBackend_newConnection a = Ret a1 ∧ accepted_object a1 fd id ∧
    IoBackend_pushMessage a1 l0 = Ret a2 ∧
    bk_dialled a2 = bk_dialled a ++ [(fd', mkAddr (htons id) 0)].
Proof.
  unfold IoBackend_newConnection. rewrite Hq.
  destruct (backend_new_loop_spec (bk_set_queues q (bk_msg_queue a) a) ps xs)
    as (a1 & ps1 & -> & Hinv1 & Eon & _ & (E1 & E2 & E3) & Hacc & _).
  { by eapply backend_inv_ext; [..|exact Hinv]. }
  cbn [obind]. cbn in Eon, E1, E2, E3. eexists _. set (a1' := bk_set_owner _ _ _).
  destruct (key_address_instance 0 id) as [Ek _]; [lia|lia|]. change (Z.lor (Z.shiftl 0 32) id) with id in Ek.
  assert (∃ a2, IoBackend_pushMessage a1' l0 = Ret a2 ∧ bk_dialled a2 = bk_dialled a ++ [(fd', mkAddr (htons id) 0)])
    as (a2 & Hpm & Hd); [|exists a2; split_and!; [done|exact (Hacc _ _ Hin)|done|done]].
  unfold IoBackend_pushMessage, a1'. cbn [bk_msgs bk_set_owner bk_online]. rewrite E1, (load_Some _ _ _ Em).
  cbn [obind]. rewrite Hm, Eon. unfold ConnectionRegister_get. rewrite Hnew.
  unfold createSocket. cbn [bk_answers bk_set_owner]. rewrite E2, Hans.
  rewrite (proj2 (Z.eqb_neq _ _) Hfd). cbn [negb]. rewrite (proj2 (Z.eqb_neq _ _) Hfd). cbn [negb].
  destruct (alloc _ _) as [l cs] eqn:Ea. apply alloc_fresh in Ea as [_ ->]. unfold push_on.
  cbn [bo_push]. edestruct Hp as (mh' & b & ->). cbn [obind bk_conns bk_set_owner bk_set_conns].
  rewrite (store_Some _ _ _ _ (lookup_insert_eq _ _ _)). cbn [obind]. eexists. split; [reflexivity|].
  cbn [bk_dialled bk_set_conns bk_set_msgs bk_set_heaps bk_set_owner bk_set_sys]. by rewrite E3, Ek.
Qed.
