(* ===== verification/Threads.v ===== *)
(** util::PosixThreadFactory (framework/lib/posix_thread_factory.cpp, .h): starting and
    joining a thread.

    [run] hands the new thread an argument on its own stack and waits on a pipe until
    the thread has taken it; both sides are sequences of steps here.  The calls of the
    pthread library are steps that succeed or fail. *)
From S2P Require Import Prelude.

(** ** The factory *)
Inductive POLICY := OTHER | FIFO | ROUND_ROBIN.
Definition SCHED_OTHER : Z := 0.
Definition SCHED_FIFO : Z := 1.
Definition SCHED_RR : Z := 2.
Definition toPthreadPolicy (p : POLICY) : Z :=
  match p with OTHER => SCHED_OTHER | FIFO => SCHED_FIFO | ROUND_ROBIN => SCHED_RR end.

Definition HIGHEST : Z := 6.
Definition LOWEST : Z := 0.
Definition NORMAL : Z := 3.
(** [lo] and [hi] are the least and the greatest priority of the policy.  The [float]
    quotient is taken to be exact; the cast rounds to zero. *)
Definition toPthreadPriority (lo hi priority : Z) : Z :=
  let delta := HIGHEST - LOWEST + 1 in
  let priority := if HIGHEST <? priority then NORMAL else priority in
  Z.quot (lo * delta + (hi - lo) * priority) delta.

(** ** A thread *)
Inductive STATE := UNINIT | STARTING | STARTED | RUNNING | STOPPING | STOPPED.
#[export] Instance STATE_eq : EqDecision STATE. Proof. solve_decision. Defined.

(** Where the caller of [run] is: not in it; waiting in [read]. *)
Inductive caller_pc := Caller_out | Caller_reading.
(** Where the thread is in [thread_fun]. *)
Inductive thread_pc := Thread_copy | Thread_write | Thread_check | Thread_run | Thread_end.
#[export] Instance caller_pc_eq : EqDecision caller_pc. Proof. solve_decision. Defined.
#[export] Instance thread_pc_eq : EqDecision thread_pc. Proof. solve_decision. Defined.

(** [pt_arg] says that [tharg] is in scope, [pt_pipe] that its pipe is open; [pt_selves]
    counts the [shared_ptr]s on the heap and [pt_runs] the calls of the runnable. *)
Record PthreadThread := mkThread {
  pt_state : STATE; pt_arg : bool; pt_pipe : bool; pt_bytes : nat; pt_selves : nat;
  pt_caller : caller_pc; pt_thread : option thread_pc; pt_runs : nat }.

Definition PthreadThread_new : PthreadThread := mkThread UNINIT false false 0 0 Caller_out None 0.

(** [run] up to the [read]; the result is that of an early return. *)
Definition run_start (attr_ok pipe_ok create_ok : bool) (t : PthreadThread) : outcome (option Z * PthreadThread) :=
  if negb (bool_decide (pt_state t = UNINIT)) then Ret (Some 0, t)
  else if negb attr_ok then Ret (Some (-1), t)
  else if negb pipe_ok then Abort
  else if create_ok then
    Ret (None, mkThread STARTING true true 0 (S (pt_selves t)) Caller_reading (Some Thread_copy) (pt_runs t))
  else Ret (Some (-1), mkThread UNINIT false false 0 (S (pt_selves t)) Caller_out (pt_thread t) (pt_runs t)).

(** The [read] returns, with the byte or, if [interrupted], without; [run] closes the
    pipe and returns, and its frame goes. *)
Definition run_finish (interrupted : bool) (t : PthreadThread) : option PthreadThread :=
  match pt_caller t with
  | Caller_reading =>
      if interrupted || (0 <? pt_bytes t)%nat then
        Some (mkThread (pt_state t) false false 0 (pt_selves t) Caller_out (pt_thread t) (pt_runs t))
      else None
  | Caller_out => None
  end.

(** A step of [thread_fun]. *)
Definition thread_step (t : PthreadThread) : option (outcome PthreadThread) :=
  match pt_thread t with
  | Some Thread_copy => (* this_thread = *thread; delete thread; *)
      Some (if pt_arg t then
              Ret (mkThread (pt_state t) (pt_arg t) (pt_pipe t) (pt_bytes t) (pt_selves t - 1) (pt_caller t)
                     (Some Thread_write) (pt_runs t))
            else Fault)
  | Some Thread_write => (* write(tharg->fd[1], ...) *)
      Some (if pt_arg t && pt_pipe t then
              Ret (mkThread (pt_state t) (pt_arg t) (pt_pipe t) (S (pt_bytes t)) (pt_selves t) (pt_caller t)
                     (Some Thread_check) (pt_runs t))
            else Fault)
  | Some Thread_check =>
      Some (Ret (if bool_decide (pt_state t = STARTING) then
                   mkThread RUNNING (pt_arg t) (pt_pipe t) (pt_bytes t) (pt_selves t) (pt_caller t)
                     (Some Thread_run) (pt_runs t)
                 else mkThread (pt_state t) (pt_arg t) (pt_pipe t) (pt_bytes t) (pt_selves t) (pt_caller t)
                        (Some Thread_end) (pt_runs t)))
  | Some Thread_run => (* runnable()->run(); *)
      Some (Ret (mkThread STOPPING (pt_arg t) (pt_pipe t) (pt_bytes t) (pt_selves t) (pt_caller t)
                   (Some Thread_end) (S (pt_runs t))))
  | Some Thread_end | None => None
  end.

(** ** Runs *)
(** [eintr] says whether a signal may interrupt the [read]. *)
Inductive launch_step (eintr : bool) : PthreadThread → outcome PthreadThread → Prop :=
  | launch_start attr_ok create_ok t ret t' :
      pt_caller t = Caller_out → run_start attr_ok true create_ok t = Ret (ret, t') → launch_step eintr t (Ret t')
  | launch_finish interrupted t t' :
      (interrupted = true → eintr = true) → run_finish interrupted t = Some t' → launch_step eintr t (Ret t')
  | launch_thread t o : thread_step t = Some o → launch_step eintr t o.

Inductive launch_reaches (eintr : bool) : PthreadThread → Prop :=
  | launch_new : launch_reaches eintr PthreadThread_new
  | launch_more t t' : launch_reaches eintr t → launch_step eintr t (Ret t') → launch_reaches eintr t'.

(** The caller has left [run] before the thread has taken its argument. *)
Definition left_early (t : PthreadThread) : Prop :=
  pt_caller t = Caller_out ∧ (pt_thread t = Some Thread_copy ∨ pt_thread t = Some Thread_write).
#[export] Instance left_early_dec t : Decision (left_early t) := decide (_ ∧ _).

(** The thread takes its argument while the caller waits, unless a signal has ended the
    wait; it exists from [STARTING] on. *)
Definition launch_inv (eintr : bool) (t : PthreadThread) : Prop :=
  match pt_caller t, pt_thread t with
  | Caller_reading, Some (Thread_copy | Thread_write) =>
      pt_arg t = true ∧ pt_pipe t = true ∧ pt_state t = STARTING ∧ pt_runs t = O
  | Caller_reading, Some _ => pt_bytes t = 1%nat ∧ pt_state t ≠ UNINIT
  | Caller_reading, None => False
  | Caller_out, Some (Thread_copy | Thread_write) => eintr = true ∧ pt_arg t = false ∧ pt_state t ≠ UNINIT
  | Caller_out, Some _ => pt_state t ≠ UNINIT
  | Caller_out, None => pt_state t = UNINIT
  end ∧
  match pt_thread t with
  | None | Some (Thread_copy | Thread_write) => pt_runs t = O ∧ pt_bytes t = O
  | Some (Thread_check | Thread_run) => pt_runs t = O
  | Some Thread_end => (pt_runs t ≤ 1)%nat
  end.

Lemma launch_start_inv eintr attr_ok create_ok t ret t' :
  pt_caller t = Caller_out → run_start attr_ok true create_ok t = Ret (ret, t') →
  launch_inv eintr t → launch_inv eintr t'.
Proof.
  intros Hout Hstart Hi. unfold run_start in Hstart.
  case_bool_decide as Hst; cbn [negb] in Hstart; [|by injection Hstart as <- <-].
  destruct attr_ok; cbn [negb] in Hstart; [|by injection Hstart as <- <-].
  assert (pt_thread t = None) as Hnone.
  { destruct Hi as [Hi _]. rewrite Hout in Hi. destruct (pt_thread t) as [[]|]; naive_solver. }
  destruct Hi as [_ Hruns]. rewrite Hnone in Hruns. destruct Hruns as [Hr _].
  destruct create_ok; injection Hstart as <- <-; unfold launch_inv; cbn; [done|]. by rewrite Hnone.
Qed.

Lemma launch_finish_inv eintr interrupted t t' :
  (interrupted = true → eintr = true) → run_finish interrupted t = Some t' → launch_inv eintr t → launch_inv eintr t'.
Proof.
  intros Heintr Hfin Hi. unfold run_finish in Hfin. destruct (pt_caller t) eqn:Ec; [done|].
  destruct (interrupted || (0 <? pt_bytes t)%nat) eqn:Eb; [|done]. injection Hfin as <-.
  unfold launch_inv in *. cbn. rewrite Ec in Hi. destruct Hi as [H1 H2].
  assert (eintr = true ∨ (0 < pt_bytes t)%nat) as Hb.
  { apply orb_true_iff in Eb as [->|Eb%Nat.ltb_lt]; [left; by apply Heintr|by right]. }
  destruct (pt_thread t) as [[]|]; try done; destruct Hb as [->|Hb];
    repeat match goal with H : _ ∧ _ |- _ => destruct H end;
    repeat split; try done; try lia; congruence.
Qed.

Lemma launch_thread_inv eintr t t' : thread_step t = Some (Ret t') → launch_inv eintr t → launch_inv eintr t'.
Proof.
  intros Hth Hi. unfold thread_step in Hth.
  destruct (pt_thread t) as [[]|] eqn:Et; try done; unfold launch_inv in *; rewrite Et in Hi;
    destruct (pt_caller t) eqn:Ec; destruct Hi as [H1 H2]; try done.
  - destruct H1 as (_ & Ha & _). by rewrite Ha in Hth.
  - destruct H1 as (Ha & Hp & Hst & Hr). rewrite Ha in Hth. injection Hth as <-. cbn. by rewrite ?Ec.
  - destruct H1 as (_ & Ha & _). by rewrite Ha in Hth.
  - destruct H1 as (Ha & Hp & Hst & Hr). rewrite Ha, Hp in Hth. injection Hth as <-. cbn. rewrite ?Ec.
    destruct H2 as [_ ->]. rewrite Hst. naive_solver.
  - injection Hth as <-. case_bool_decide; cbn; rewrite ?Ec; naive_solver lia.
  - injection Hth as <-. case_bool_decide; cbn; rewrite ?Ec; naive_solver lia.
  - injection Hth as <-. cbn; rewrite ?Ec; naive_solver lia.
  - injection Hth as <-. cbn; rewrite ?Ec; naive_solver lia.
Qed.

Lemma launch_reaches_inv eintr t : launch_reaches eintr t → launch_inv eintr t.
Proof.
  induction 1 as [|t t' _ IH Hs]; [by unfold launch_inv|].
  inversion Hs; subst; eauto using launch_start_inv, launch_finish_inv, launch_thread_inv.
Qed.

(** A step of the thread fails exactly when its argument is gone. *)
Lemma launch_inv_step eintr t o :
  launch_inv eintr t → thread_step t = Some o →
  (left_early t → o = Fault) ∧ (¬ left_early t → ∃ t', o = Ret t').
Proof.
  unfold launch_inv, thread_step, left_early. intros [H1 _] Hs.
  destruct (pt_thread t) as [[]|]; try done; destruct (pt_caller t);
    try (injection Hs as <-; split; [naive_solver|by eauto]).
  - destruct H1 as (_ & Ha & _). rewrite Ha in Hs. injection Hs as <-. naive_solver.
  - destruct H1 as (Ha & _). rewrite Ha in Hs. injection Hs as <-. naive_solver.
  - destruct H1 as (_ & Ha & _). rewrite Ha in Hs. injection Hs as <-. naive_solver.
  - destruct H1 as (Ha & Hp & _). rewrite Ha, Hp in Hs. injection Hs as <-. naive_solver.
Qed.

(** The result of [read] is not looked at: a signal ends the wait early. *)
Lemma interrupted_launch_leaves : ∃ t, launch_reaches true t ∧ left_early t.
Proof.
  exists (mkThread STARTING false false 0 1 Caller_out (Some Thread_copy) 0). split; [|by split; [|left]].
  apply (launch_more true (mkThread STARTING true true 0 1 Caller_reading (Some Thread_copy) 0)).
  - apply (launch_more true PthreadThread_new); [apply launch_new|]. by apply (launch_start true true true _ None).
  - by apply (launch_finish true true).
Qed.

(** ** Properties *)

(** C33: what starting a thread hands over, however the caller and the new thread
    interleave and however often [run] is called, with whatever success.  A step of the
    caller or the thread touches memory that is gone exactly in the states where the
    caller has left [run] before the thread has copied its argument and written its
    byte, and then it is the thread's next step.  As long as no signal interrupts the
    caller's [read] ([eintr] is [false]) there is no such state: the thread always has its
    argument; [run] does not look at the result of [read], so with a signal there is one.
    In both cases the runnable is run at most once, and a caller that waits is always
    waiting for a step that is possible. *)
Theorem launch_hands_argument_over eintr t
    (Hr : launch_reaches eintr t) :
  (launch_step eintr t Fault ↔ left_early t) ∧
  (∀ o, launch_step eintr t o → o = Fault ∨ ∃ t', o = Ret t') ∧
  (eintr = false → ¬ left_early t) ∧
  (eintr = true → ∃ t', launch_reaches true t' ∧ left_early t') ∧
  (pt_runs t ≤ 1)%nat ∧
  (pt_caller t = Caller_reading → is_Some (run_finish false t) ∨ ∃ t', thread_step t = Some (Ret t')).
Proof.
  pose proof (launch_reaches_inv eintr t Hr) as Hi. split; [|split; [|split; [|split; [|split]]]].
  - split.
    + intros Hs. inversion Hs as [| |? ? Hth]; subst. destruct (decide (left_early t)) as [|Hno]; [done|].
      apply (launch_inv_step eintr t Fault Hi Hth) in Hno as [? ?]. done.
    + intros Hl. pose proof Hl as [_ Hth]. apply launch_thread.
      assert (∃ o, thread_step t = Some o) as [o Ho]
        by (unfold thread_step; destruct Hth as [-> | ->]; eauto).
      rewrite Ho. f_equal. by apply (launch_inv_step eintr t o Hi Ho).
  - intros o Hs. destruct Hs as [? ? ? ? ? _ _|? ? ? _ _|t o Hs]; [eauto|eauto|].
    destruct (decide (left_early t)) as [Hl|Hl];
      apply (launch_inv_step eintr t o Hi Hs) in Hl; eauto.
  - intros -> [Hc Ht]. destruct Hi as [Hi _]. rewrite Hc in Hi. destruct Ht as [Ht|Ht]; rewrite Ht in Hi; naive_solver.
  - intros _. apply interrupted_launch_leaves.
  - destruct Hi as [_ Hi]. destruct (pt_thread t) as [[]|]; lia.
  - intros Hc. destruct Hi as [Hi _]. unfold run_finish, thread_step. rewrite Hc in *.
    destruct (pt_thread t) as [[]|]; try done.
    + right. destruct Hi as (-> & _). eauto.
    + right. destruct Hi as (-> & -> & _). eauto.
    + right. eauto.
    + right. eauto.
    + left. destruct Hi as [-> _]. by eexists.
Qed.

Lemma launch_hands_argument_over_witness :
  let t := mkThread STARTING true true 0 1 Caller_reading (Some Thread_copy) 0 in
  ¬ left_early t ∧ (is_Some (run_finish false t) ∨ ∃ t', thread_step t = Some (Ret t')).
Proof.
  destruct (launch_hands_argument_over false (mkThread STARTING true true 0 1 Caller_reading (Some Thread_copy) 0))
    as (_ & _ & H & _ & _ & Hw); [|split; [exact (H eq_refl)|exact (Hw eq_refl)]].
  apply (launch_more false PthreadThread_new); [apply launch_new|].
  by apply (launch_start false true true _ None).
Defined.

(** A [pthread_create] that fails leaves the [shared_ptr] it was to be given on the heap,
    and the object that points to it is never freed. *)
Example failed_launch_leaks :
  run_start true true false PthreadThread_new = Ret (Some (-1), mkThread UNINIT false false 0 1 Caller_out None 0).
Proof. reflexivity. Qed.
