(* ===== verification/Startup.v ===== *)
(** Starting the server: main.cpp, io::IoManager (framework/io/io_manager.cpp), the
    listening socket of io::IoAppAcceptService (framework/io/io_app_accept_service.cpp),
    im::MessageBroker::run (thrift/broker/message_broker.cpp) and the worker clusters
    (message/im_auth_worker_cluster.cpp, message/im_app_worker_cluster.cpp,
    thrift/broker/broker_worker_cluster.cpp, framework/ms/ms_worker.cpp).

    The state is what the program has built so far: the threads that run, the
    settings, the pointers that were set.  A thread is started by the factory of
    Threads.v; its callers ignore whether that worked.  What the operating system
    answers to a thread, a socket or the resolver is the argument [sys]; the
    configuration file, which every part opens again, is [file]. *)
From S2P Require Import Prelude Heap Bytes StringAlgos Ini MsMessage MsQueues LibQueues IoAppConnection IoApp IoAppCluster IoAccept MsRouter UpdateTasks Zookeeper ZkSession Watcher PooledClient Redis Threads Settings.

(** ** Threads *)
Inductive thread :=
| Th_collector
| Th_update (** the update thread of the pooled client *)
| Th_auth (i : nat)
| Th_app (i : nat)
| Th_io (i : nat)
| Th_local_router
| Th_broker (i : nat)
| Th_rpc
| Th_accept.
#[export] Instance thread_eq : EqDecision thread. Proof. solve_decision. Defined.

(** What the system answers: for each thread, whether its attributes, its pipe and
    its creation succeed. *)
Record system := mkSys {
  sys_thread : thread → bool * bool * bool;
  sys_socket : Z; (** what [socket] answers *)
  sys_nonblocking : bool;
  sys_bind : bool;
  sys_listen : bool;
  sys_inet_addr : cstr → Z;
  sys_host : outcome cstr; (** the answer of [fetch_host] *)
  sys_tod : Z * Z }.

(** [thread->run()] of a new thread; the result is not looked at. *)
Definition thread_run (sys : system) (t : thread) (ts : list thread) : outcome (list thread) :=
  let '(attr_ok, pipe_ok, create_ok) := sys_thread sys t in
  let* (ret, _) := run_start attr_ok pipe_ok create_ok PthreadThread_new in
  Ret (match ret with None => ts ++ [t] | Some _ => ts end).

(** The loop of a worker cluster's [run] over [_cluster_size] workers. *)
Fixpoint run_workers (sys : system) (name : nat → thread) (ids : list nat) (ts : list thread)
    : outcome (list thread) :=
  match ids with
  | [] => Ret ts
  | i :: ids => let* ts := thread_run sys (name i) ts in run_workers sys name ids ts
  end.

(** The constructor's assertion and [run]. *)
Definition cluster_run (sys : system) (name : nat → thread) (cluster_size : Z) (ts : list thread)
    : outcome (Z * list thread) :=
  let* _ := assert_ (0 <? cluster_size) in
  if cluster_size <=? 0 then Ret (-1, ts)
  else let* ts := run_workers sys name (seq 0 (Z.to_nat cluster_size)) ts in Ret (0, ts).

Definition ImAuthWorkerCluster_run sys := cluster_run sys Th_auth.
Definition ImAppWorkerCluster_run sys := cluster_run sys Th_app.
Definition BrokerWorkerCluster_run sys := cluster_run sys Th_broker.

(** ** The listening socket *)
Record listen_socket := mkListen { ls_fd : Z; ls_addr : sockaddr_in }.

(** [createListenSocket]; the socket options only log their errors. *)
Definition createListenSocket (sys : system) (port : Z) (ip : cstr) : outcome listen_socket :=
  let fd := sys_socket sys in
  let* _ := assert_ (negb (fd =? -1)) in
  let* _ := assert_ (sys_nonblocking sys) in
  let addr := mkAddr (htons port)
    (match ip with [] => htonl 0 | _ => sys_inet_addr sys ip end) in
  let* _ := assert_ (sys_bind sys) in
  let* _ := assert_ (sys_listen sys) in
  Ret (mkListen fd addr).

(** io::IoBackendAcceptService (framework/io/io_backend_accept_service.cpp), which has a copy
    of it; [None] is the null address. *)
Definition backend_createListenSocket (sys : system) (port : Z) (ip : option cstr) : outcome listen_socket :=
  let fd := sys_socket sys in
  let* _ := assert_ (negb (fd =? -1)) in
  let* _ := assert_ (sys_nonblocking sys) in
  let addr := mkAddr (htons port)
    (match ip with None | Some [] => htonl 0 | Some ip => sys_inet_addr sys ip end) in
  let* _ := assert_ (sys_bind sys) in
  let* _ := assert_ (sys_listen sys) in
  Ret (mkListen fd addr).

(** The constructor: the counter and the socket. *)
Definition IoBackendAcceptService_new (sys : system) (port : Z) (ip : option cstr) : outcome (Z * listen_socket) :=
  let* s := backend_createListenSocket sys port ip in Ret (0, s).

Lemma backend_listens_alike sys port ip :
  backend_createListenSocket sys port ip = createListenSocket sys port (default [] ip).
Proof. by destruct ip as [[]|]. Qed.

(** ** The program *)
Section program.
Context {T L C : Type} {HT : IoThread T} {HL : ZkLib L}.

Record server := mkServer {
  sv_threads : list thread;
  sv_conf : option cstr; (** the broker's copy of the file name *)
  sv_broker : option broker_settings;
  sv_tasks : task_managers;
  sv_service : option PooledClientImpl;
  sv_publisher : option (RouteInfoPublisher C);
  sv_cluster : IoAppCluster T;
  sv_local_router : bool; (** whether the router knows the local router *)
  sv_rpc : option (Z * Z); (** the port and the number of I/O threads of the RPC server *)
  sv_zk : list ZookeeperClient * L;
  sv_registered : option ServerCluster;
  sv_instance : Z; (** [g_broker_instance] *)
  sv_services : list (IoAppAcceptService T * listen_socket) }.

Definition server_blank (l : L) : server :=
  mkServer [] None None ∅ None None IoAppCluster_new false None ([], l) None 0 [].

Definition sv_set_threads (ts : list thread) (s : server) : server :=
  mkServer ts (sv_conf s) (sv_broker s) (sv_tasks s) (sv_service s) (sv_publisher s) (sv_cluster s)
    (sv_local_router s) (sv_rpc s) (sv_zk s) (sv_registered s) (sv_instance s) (sv_services s).

Context (sys : system) (file : cstr → outcome IniFileReader) (new_io : app_config → T).

Definition start (t : thread) (s : server) : outcome server :=
  let* ts := thread_run sys t (sv_threads s) in Ret (sv_set_threads ts s).

(** Opening the file whose name [main] was given. *)
Definition open_conf (conf : option cstr) : outcome IniFileReader :=
  match conf with Some c => file (c_str c) | None => Fault end.

(** [instance_simple]: the result of [open], which starts the update thread with
    [pthread_create], is not looked at. *)
Definition instance_simple (st : broker_settings) (s : server) : outcome server :=
  let ok := snd (sys_thread sys Th_update) in
  let* (_, f) := PooledClientImpl_open (sys_tod sys) (sv_tasks s) (bs_path st) ok in
  Ret (mkServer (if ok : bool then sv_threads s ++ [Th_update] else sv_threads s) (sv_conf s) (sv_broker s) f (Some (PooledClientImpl_new (bs_path st) (bs_conn_num st)))
         (sv_publisher s) (sv_cluster s) (sv_local_router s) (sv_rpc s) (sv_zk s) (sv_registered s)
         (sv_instance s) (sv_services s)).

(** [rpc_client->open()] *)
Definition open_session (c : ZookeeperClient) (s : server) : outcome server :=
  let* (_, c, l) := ZookeeperClient_open c (snd (sv_zk s)) in
  Ret (mkServer (sv_threads s) (sv_conf s) (sv_broker s) (sv_tasks s) (sv_service s) (sv_publisher s)
         (sv_cluster s) (sv_local_router s) (sv_rpc s) (fst (sv_zk s) ++ [c], l) (sv_registered s)
         (sv_instance s) (sv_services s)).

Definition MessageBroker_initialize (conf : option cstr) (s : server) : outcome server :=
  let* copy := copy_conf conf in
  let* ini := open_conf conf in
  let* st := MessageBroker_settings ini in
  let client := init_rpc_client (bs_zk st) in
  let s := mkServer (sv_threads s) (Some copy) (Some st) (sv_tasks s) (sv_service s) (sv_publisher s)
             (sv_cluster s) (sv_local_router s) (sv_rpc s) (sv_zk s) (sv_registered s) (sv_instance s)
             (sv_services s) in
  let* s := instance_simple st s in
  open_session client s.

Definition ImMessageDispatcher_initialize (conf : option cstr) (s : server) : outcome server :=
  let* ini := open_conf conf in
  let* p := ImMessageAuthProcessor_initialize ini in
  let* n := auth_thread_num ini in
  let* (_, ts) := ImAuthWorkerCluster_run sys n (sv_threads s) in
  let* n := app_thread_num ini in
  let* (_, ts) := ImAppWorkerCluster_run sys n ts in
  Ret (mkServer ts (sv_conf s) (sv_broker s) (sv_tasks s) (sv_service s) (Some p) (sv_cluster s)
         (sv_local_router s) (sv_rpc s) (sv_zk s) (sv_registered s) (sv_instance s) (sv_services s)).

Definition sv_set_cluster (k : IoAppCluster T) (s : server) : server :=
  mkServer (sv_threads s) (sv_conf s) (sv_broker s) (sv_tasks s) (sv_service s) (sv_publisher s) k
    (sv_local_router s) (sv_rpc s) (sv_zk s) (sv_registered s) (sv_instance s) (sv_services s).

(** [app_io->initialize(conf); app_io->run();] *)
Definition start_app_io (conf : option cstr) (s : server) : outcome server :=
  let* ini := open_conf conf in
  let* k := IoAppCluster_initialize ini (sv_cluster s) in
  let (ret, k) := IoAppCluster_run new_io k in
  let s := sv_set_cluster k s in
  if ret =? 0 then
    let* ts := run_workers sys Th_io (seq 0 (length (cl_core_io k))) (sv_threads s) in
    Ret (sv_set_threads ts s)
  else Ret s.

(** [local_router->run()]: the thread that starts checks the number of I/O threads. *)
Definition start_local_router (s : server) : outcome server :=
  let* s := start Th_local_router s in
  if bool_decide (Th_local_router ∈ sv_threads s) then
    let* _ := MsMessageRouterLocal_run 0 (sv_cluster s) MsMessageBlockQueue_new in Ret s
  else Ret s.

Definition setLocalRouter (s : server) : outcome server :=
  Ret (mkServer (sv_threads s) (sv_conf s) (sv_broker s) (sv_tasks s) (sv_service s) (sv_publisher s)
         (sv_cluster s) true (sv_rpc s) (sv_zk s) (sv_registered s) (sv_instance s) (sv_services s)).

(** [MessageBroker::run]: the workers, the RPC server, then the registration. *)
Definition MessageBroker_run (s : server) : outcome server :=
  let* st := defined (sv_broker s) in
  let* (_, ts) := BrokerWorkerCluster_run sys (bs_worker_num st) (sv_threads s) in
  let* ts := thread_run sys Th_rpc ts in
  let* ini := open_conf (sv_conf s) in
  let* host := sys_host sys in
  let* (client, cluster, _, inst) := init_rpc_server host ini in
  open_session client
    (mkServer ts (sv_conf s) (sv_broker s) (sv_tasks s) (sv_service s) (sv_publisher s) (sv_cluster s)
       (sv_local_router s) (Some (bs_port st, bs_io_num st)) (sv_zk s) (Some cluster) inst (sv_services s)).

(** [IoManager::initialize] with the client cluster set. *)
Definition IoManager_initialize (conf : option cstr) (s : server) : outcome (Z * server) :=
  let* ini := open_conf conf in
  let* app_port := io_app_port ini in
  let* sock := createListenSocket sys app_port [] in
  let (_, services) := IoAccept_addService (sv_services s) (Some (mkAccept 0 (sv_cluster s), sock)) in
  Ret (0, mkServer (sv_threads s) (sv_conf s) (sv_broker s) (sv_tasks s) (sv_service s) (sv_publisher s)
            (sv_cluster s) (sv_local_router s) (sv_rpc s) (sv_zk s) (sv_registered s) (sv_instance s) services).

(** The statements of [main] that have an effect, in order. *)
Definition main_steps (conf : option cstr) : list (server → outcome server) :=
  [ start Th_collector;
    MessageBroker_initialize conf;
    ImMessageDispatcher_initialize conf;
    start_app_io conf;
    start_local_router;
    setLocalRouter;
    MessageBroker_run;
    (λ s, let* (_, s) := IoManager_initialize conf s in Ret s);
    start Th_accept ].

Fixpoint run_steps (steps : list (server → outcome server)) (s : server) : outcome server :=
  match steps with
  | [] => Ret s
  | f :: steps => let* s := f s in run_steps steps s
  end.

(** [main]: [None] is [exit(-1)]; then it waits for the accepting thread. *)
Definition main (argv : list cstr) (l : L) : outcome (option server) :=
  if (length argv <? 1)%nat then Ret None
  else let* s := run_steps (main_steps (argv !! 1%nat)) (server_blank l) in Ret (Some s).
End program.
Arguments server T L C : clear implicits.

(** ** Order of the start *)
(** The step of [main] that starts a thread. *)
Definition rank (t : thread) : nat :=
  match t with
  | Th_collector => 1 | Th_update => 2 | Th_auth _ | Th_app _ => 3 | Th_io _ => 4
  | Th_local_router => 5 | Th_broker _ | Th_rpc => 7 | Th_accept => 9
  end%nat.

(** What holds after [k] steps. *)
Record started {T L C} (sys : system) (k : nat) (s : server T L C) : Prop := {
  sd_rank : ∀ t, t ∈ sv_threads s → (rank t ≤ k)%nat;
  sd_broker : (2 ≤ k)%nat → is_Some (sv_broker s) ∧ is_Some (sv_service s);
  sd_publisher : (3 ≤ k)%nat → is_Some (sv_publisher s);
  sd_cluster : (4 ≤ k)%nat → (0 < length (cl_core_io (sv_cluster s)))%nat;
  sd_few : (5 ≤ k)%nat → Th_local_router ∈ sv_threads s →
    u32 (st_cluster_size (cl_settings (sv_cluster s))) < IMIO_MAX_SIZE;
  sd_router : (6 ≤ k)%nat → sv_local_router s = true;
  sd_registered : (7 ≤ k)%nat → ∃ cluster port, sv_registered s = Some cluster ∧
    sv_instance s = genInstance (sc_host_ip cluster) port ∧ 0 < port < 65535;
  sd_services : if (8 <=? k)%nat then
      ∃ sock, sv_services s = [(mkAccept 0 (sv_cluster s), sock)] ∧ ls_fd sock = sys_socket sys
    else sv_services s = [] }.

(** ** Lemmas *)
Section program_lemmas.
Context {T L C : Type} {HT : IoThread T} {HL : ZkLib L}.
Context (sys : system) (file : cstr → outcome IniFileReader) (new_io : app_config → T).
Implicit Types (s : server T L C) (ts : list thread).

Lemma thread_run_in t ts ts' : thread_run sys t ts = Ret ts' → ∀ u, u ∈ ts' → u ∈ ts ∨ u = t.
Proof.
  unfold thread_run. destruct (sys_thread sys t) as [[a p] c].
  intros ([ret t'] & _ & [= <-])%obind_Ret_inv u. destruct ret; [by left|]. set_solver.
Qed.

Lemma thread_run_mono t ts ts' : thread_run sys t ts = Ret ts' → ts ⊆ ts'.
Proof.
  unfold thread_run. destruct (sys_thread sys t) as [[a p] c].
  intros ([ret t'] & _ & [= <-])%obind_Ret_inv. destruct ret; set_solver.
Qed.

Lemma run_workers_in name ids ts ts' :
  run_workers sys name ids ts = Ret ts' → ∀ u, u ∈ ts' → u ∈ ts ∨ ∃ i, u = name i.
Proof.
  revert ts. induction ids as [|i ids IH]; intros ts; cbn [run_workers].
  { intros [= <-]. by left. }
  intros (ts1 & H1 & H2)%obind_Ret_inv u Hu. destruct (IH _ H2 u Hu) as [Hu1|?]; [|by right].
  destruct (thread_run_in _ _ _ H1 u Hu1) as [?| ->]; eauto.
Qed.

Lemma cluster_run_in name n ts r ts' :
  cluster_run sys name n ts = Ret (r, ts') → ∀ u, u ∈ ts' → u ∈ ts ∨ ∃ i, u = name i.
Proof.
  unfold cluster_run. intros (? & _ & H)%obind_Ret_inv. destruct (n <=? 0).
  { injection H as <- <-. by left. }
  apply obind_Ret_inv in H as (ts1 & H & [= <- <-]). by eapply run_workers_in.
Qed.

(** A step that only adds threads of its own number. *)
Lemma started_threads k s ts :
  started sys k s → (∀ t, t ∈ ts → t ∈ sv_threads s ∨ (rank t ≤ S k)%nat) →
  ∀ t, t ∈ ts → (rank t ≤ S k)%nat.
Proof. intros Hs H t Ht. destruct (H t Ht) as [Ht'|?]; [|done]. pose proof (sd_rank _ _ _ Hs t Ht'). lia. Qed.

Lemma started_blank l : started sys 0 (server_blank l : server T L C).
Proof. split; cbn; try lia; [|done]. by intros t ?%elem_of_nil. Qed.

(** The fields that a step does not touch. *)
Local Ltac keep Hs := first [lia|exact (sd_services _ _ _ Hs)
  |intros _; first [apply (sd_broker _ _ _ Hs)|apply (sd_publisher _ _ _ Hs)|apply (sd_cluster _ _ _ Hs)
    |apply (sd_few _ _ _ Hs)|apply (sd_router _ _ _ Hs)|apply (sd_registered _ _ _ Hs)]; lia].

Lemma start_inv t s s' :
  start sys t s = Ret s' → ∃ ts, thread_run sys t (sv_threads s) = Ret ts ∧ s' = sv_set_threads ts s.
Proof. intros (ts & H & [= <-])%obind_Ret_inv. eauto. Qed.

Lemma started_collector s s' : started sys 0 s → start sys Th_collector s = Ret s' → started sys 1 s'.
Proof.
  intros Hs (ts & H & ->)%start_inv. split; cbn; try keep Hs.
  eapply (started_threads 0 s); [done|]. intros t Ht.
  destruct (thread_run_in _ _ _ H t Ht) as [?| ->]; [by left|by right].
Qed.

Lemma open_session_inv c s s' :
  open_session c s = Ret s' → ∃ zk, s' = mkServer (sv_threads s) (sv_conf s) (sv_broker s) (sv_tasks s)
    (sv_service s) (sv_publisher s) (sv_cluster s) (sv_local_router s) (sv_rpc s) zk (sv_registered s)
    (sv_instance s) (sv_services s).
Proof. intros ([[? ?] ?] & _ & [= <-])%obind_Ret_inv. eauto. Qed.

Lemma started_broker conf s s' :
  started sys 1 s → MessageBroker_initialize sys file conf s = Ret s' → started sys 2 s'.
Proof.
  intros Hs. unfold MessageBroker_initialize.
  intros (copy & _ & H)%obind_Ret_inv. apply obind_Ret_inv in H as (ini & _ & H).
  apply obind_Ret_inv in H as (st & _ & H). apply obind_Ret_inv in H as (s1 & H1 & H).
  apply open_session_inv in H as (zk & ->). unfold instance_simple in H1.
  apply obind_Ret_inv in H1 as ([r f] & _ & [= <-]). split; cbn; try keep Hs; [|by eauto].
  eapply (started_threads 1 s); [done|]. intros t Ht.
  destruct (snd _); [|by left]. apply elem_of_app in Ht as [?| ->%list_elem_of_singleton]; [by left|by right].
Qed.

Lemma started_dispatcher conf s s' :
  started sys 2 s → ImMessageDispatcher_initialize sys file conf s = Ret s' → started sys 3 s'.
Proof.
  intros Hs. unfold ImMessageDispatcher_initialize.
  intros (ini & _ & H)%obind_Ret_inv. apply obind_Ret_inv in H as (pub & _ & H).
  apply obind_Ret_inv in H as (n1 & _ & H). apply obind_Ret_inv in H as ([r1 ts1] & H1 & H).
  apply obind_Ret_inv in H as (n2 & _ & H). apply obind_Ret_inv in H as ([r2 ts2] & H2 & [= <-]).
  split; cbn; try keep Hs; [|by eauto].
  - eapply (started_threads 2 s); [done|]. intros t Ht.
    destruct (cluster_run_in _ _ _ _ _ H2 t Ht) as [Ht1|[i ->]]; [|by right; cbn].
    destruct (cluster_run_in _ _ _ _ _ H1 t Ht1) as [?|[i ->]]; [by left|by right; cbn].
Qed.

Lemma started_app_io conf s s' :
  started sys 3 s → start_app_io sys file new_io conf s = Ret s' → started sys 4 s'.
Proof.
  intros Hs. unfold start_app_io.
  intros (ini & _ & H)%obind_Ret_inv. apply obind_Ret_inv in H as (k & Hk & H).
  unfold IoAppCluster_initialize in Hk. apply obind_Ret_inv in Hk as (st & Hst & [= <-]).
  destruct (settings_cases ini) as [Hf|(st' & Hst' & Hn & _)]; [congruence|].
  assert (st' = st) as -> by congruence. destruct Hn as [Hn _].
  unfold IoAppCluster_run in H. cbn [cl_settings] in H.
  destruct (Z.leb_spec (st_cluster_size st) 0) as [Hle|_]; [lia|]. cbn [Z.eqb] in H.
  apply obind_Ret_inv in H as (ts & Hts & [= <-]). cbn [sv_set_cluster sv_threads cl_core_io] in Hts.
  split; cbn; try keep Hs.
  - eapply (started_threads 3 s); [done|]. intros t Ht.
    destruct (run_workers_in _ _ _ _ Hts t Ht) as [?|[i ->]]; [by left|by right; cbn].
  - intros _. rewrite length_fmap, length_seq. lia.
Qed.

Lemma started_local s s' :
  started sys 4 s → start_local_router sys s = Ret s' → started sys 5 s'.
Proof.
  intros Hs. unfold start_local_router. intros (s1 & H1 & H)%obind_Ret_inv.
  apply start_inv in H1 as (ts & Hts & ->). cbn [sv_set_threads sv_threads sv_cluster] in H.
  assert (s' = sv_set_threads ts s ∧ (Th_local_router ∈ ts →
    u32 (st_cluster_size (cl_settings (sv_cluster s))) < IMIO_MAX_SIZE)) as [-> Hfew].
  { case_bool_decide; [|by injection H as <-]. apply obind_Ret_inv in H as (r & Hr & [= <-]).
    split; [done|]. intros _. unfold MsMessageRouterLocal_run, assert_ in Hr.
    by destruct (Z.ltb_spec (u32 (st_cluster_size (cl_settings (sv_cluster s)))) IMIO_MAX_SIZE). }
  split; cbn; try keep Hs.
  - eapply (started_threads 4 s); [done|]. intros t Ht.
    destruct (thread_run_in _ _ _ Hts t Ht) as [?| ->]; [by left|by right].
  - by intros _.
Qed.

Lemma started_set_local s s' : started sys 5 s → setLocalRouter s = Ret s' → started sys 6 s'.
Proof.
  intros Hs [= <-]. split; cbn; try keep Hs.
  intros t Ht. pose proof (sd_rank _ _ _ Hs t Ht). lia.
Qed.

Lemma started_run s s' :
  started sys 6 s → MessageBroker_run sys file s = Ret s' → started sys 7 s'.
Proof.
  intros Hs. unfold MessageBroker_run.
  intros (st & _ & H)%obind_Ret_inv. apply obind_Ret_inv in H as ([r ts1] & H1 & H).
  apply obind_Ret_inv in H as (ts2 & H2 & H). apply obind_Ret_inv in H as (ini & _ & H).
  apply obind_Ret_inv in H as (host & _ & H). apply obind_Ret_inv in H as ([[[cl sc] wa] inst] & Hi & H).
  apply open_session_inv in H as (zk & ->).
  apply init_rpc_server_inv in Hi as (port & _ & Hp & Eh & _ & Ei & _).
  split; cbn; try keep Hs.
  - eapply (started_threads 6 s); [done|]. intros t Ht.
    destruct (thread_run_in _ _ _ H2 t Ht) as [Ht1| ->]; [|by right; cbn].
    destruct (cluster_run_in _ _ _ _ _ H1 t Ht1) as [?|[i ->]]; [by left|by right; cbn].
  - intros _ Hin. apply (sd_few _ _ _ Hs); [lia|].
    destruct (thread_run_in _ _ _ H2 _ Hin) as [Ht1|?]; [|done].
    destruct (cluster_run_in _ _ _ _ _ H1 _ Ht1) as [?|[i ?]]; done.
  - intros _. exists sc, port. by rewrite Eh.
Qed.

Lemma started_manager conf s s' r :
  started sys 7 s → IoManager_initialize sys file conf s = Ret (r, s') → started sys 8 s'.
Proof.
  intros Hs. unfold IoManager_initialize.
  intros (ini & _ & H)%obind_Ret_inv. apply obind_Ret_inv in H as (p & _ & H).
  apply obind_Ret_inv in H as (sock & Hk & H). pose proof (sd_services _ _ _ Hs) as Hsv. cbn in Hsv.
  rewrite Hsv in H. cbn in H. injection H as <- <-. split; cbn; try keep Hs.
  - intros t Ht. pose proof (sd_rank _ _ _ Hs t Ht). lia.
  - exists sock. split; [done|]. unfold createListenSocket in Hk.
    do 4 apply obind_Ret_inv in Hk as (? & _ & Hk). by injection Hk as <-.
Qed.

Lemma started_accept s s' : started sys 8 s → start sys Th_accept s = Ret s' → started sys 9 s'.
Proof.
  intros Hs (ts & H & ->)%start_inv. split; cbn; try keep Hs.
  - eapply (started_threads 8 s); [done|]. intros t Ht.
    destruct (thread_run_in _ _ _ H t Ht) as [?| ->]; [by left|by right].
  - intros _ Hin. apply (sd_few _ _ _ Hs); [lia|].
    destruct (thread_run_in _ _ _ H _ Hin) as [?|?]; done.
Qed.

Lemma started_step conf k f s s' :
  main_steps sys file new_io conf !! k = Some f → started sys k s → f s = Ret s' → started sys (S k) s'.
Proof.
  intros Hf Hs H.
  destruct k as [|[|[|[|[|[|[|[|[|k]]]]]]]]]; cbn in Hf; [..|done]; injection Hf as <-.
  - by eapply started_collector.
  - by eapply started_broker.
  - by eapply started_dispatcher.
  - by eapply started_app_io.
  - by eapply started_local.
  - by eapply started_set_local.
  - by eapply started_run.
  - apply obind_Ret_inv in H as ([r s1] & H & [= <-]). by eapply started_manager.
  - by eapply started_accept.
Qed.

Lemma run_steps_app (fs gs : list (server T L C → outcome (server T L C))) s :
  run_steps (fs ++ gs) s = (let* s := run_steps fs s in run_steps gs s).
Proof.
  revert s. induction fs as [|f fs IH]; intros s; cbn [app run_steps]; [done|].
  destruct (f s); cbn [obind]; [apply IH|done..].
Qed.

Lemma started_prefix conf n l s :
  (n ≤ 9)%nat → run_steps (take n (main_steps sys file new_io conf)) (server_blank l) = Ret s →
  started sys n s.
Proof.
  revert s. induction n as [|n IH]; intros s Hn.
  { intros [= <-]. apply started_blank. }
  destruct (lookup_lt_is_Some_2 (main_steps (L:=L) (C:=C) sys file new_io conf) n ltac:(cbn; lia)) as [f Hf].
  rewrite (take_S_r _ _ _ Hf), run_steps_app. intros (s1 & H1 & H2)%obind_Ret_inv.
  cbn [run_steps] in H2. apply obind_Ret_inv in H2 as (s2 & H2 & [= <-]).
  eapply started_step; [exact Hf| |exact H2]. apply IH; [lia|done].
Qed.
End program_lemmas.

(** ** The threads that are started *)
(** The system refused the thread: [run], or [pthread_create] for the update thread, failed,
    which no caller looks at. *)
Definition refused (sys : system) (t : thread) : bool :=
  let '(attr_ok, pipe_ok, create_ok) := sys_thread sys t in
  match t with
  | Th_update => negb create_ok
  | _ => match run_start attr_ok pipe_ok create_ok PthreadThread_new with Ret (Some _, _) => true | _ => false end
  end.

(** The threads the configuration asks for. *)
Definition planned (file : cstr → outcome IniFileReader) (conf : option cstr) (t : thread) : Prop :=
  ∃ ini, open_conf file conf = Ret ini ∧
  match t with
  | Th_auth i => ∃ n, auth_thread_num ini = Ret n ∧ Z.of_nat i < n
  | Th_app i => ∃ n, app_thread_num ini = Ret n ∧ Z.of_nat i < n
  | Th_io i => ∃ cs, IoAppCluster_settings ini = Ret cs ∧ Z.of_nat i < st_cluster_size cs
  | Th_broker i => ∃ st, MessageBroker_settings ini = Ret st ∧ Z.of_nat i < bs_worker_num st
  | _ => True
  end.

Section launched.
Context {T L C : Type} {HT : IoThread T} {HL : ZkLib L}.
Context (sys : system) (file : cstr → outcome IniFileReader) (new_io : app_config → T) (conf : option cstr).
Implicit Types (s : server T L C) (ts : list thread).

Definition launched ts (t : thread) : Prop := t ∈ ts ∨ refused sys t = true.

(** After [k] steps the planned threads of these steps run or were refused, and the broker
    has the settings of the file. *)
Record launched_upto (k : nat) s : Prop := {
  lu_threads : ∀ t, planned file conf t → (rank t ≤ k)%nat → launched (sv_threads s) t;
  lu_broker : (2 ≤ k)%nat → ∃ ini st, open_conf file conf = Ret ini ∧ MessageBroker_settings ini = Ret st ∧
    sv_broker s = Some st;
  lu_conf : (2 ≤ k)%nat → ∃ name, conf = Some name }.

Lemma launched_mono ts ts' t : ts ⊆ ts' → launched ts t → launched ts' t.
Proof. intros Hsub [?|?]; [left; by apply Hsub|by right]. Qed.

Lemma thread_run_launched t ts ts' : t ≠ Th_update → thread_run sys t ts = Ret ts' → launched ts' t.
Proof.
  intros Ht. unfold thread_run, launched, refused. destruct (sys_thread sys t) as [[a p] c].
  intros ([ret t'] & Hr & [= <-])%obind_Ret_inv. rewrite Hr.
  destruct ret; [right; by destruct t|left; apply elem_of_app; right; constructor].
Qed.

Lemma run_workers_launched name ids ts ts' :
  (∀ i, name i ≠ Th_update) → run_workers sys name ids ts = Ret ts' →
  ts ⊆ ts' ∧ ∀ i, i ∈ ids → launched ts' (name i).
Proof.
  intros Hname. revert ts. induction ids as [|i ids IH]; intros ts; cbn [run_workers].
  { intros [= <-]. split; [done|]. by intros i ?%elem_of_nil. }
  intros (ts1 & H1 & H2)%obind_Ret_inv. destruct (IH _ H2) as [Hsub Hl].
  split; [etrans; [by eapply thread_run_mono|done]|]. intros j [->|Hj]%elem_of_cons; [|by apply Hl].
  eapply launched_mono; [exact Hsub|]. by eapply thread_run_launched.
Qed.

Lemma cluster_run_launched name n ts r ts' :
  (∀ i, name i ≠ Th_update) → cluster_run sys name n ts = Ret (r, ts') →
  ts ⊆ ts' ∧ ∀ i, Z.of_nat i < n → launched ts' (name i).
Proof.
  intros Hname. unfold cluster_run. intros (? & Ha & H)%obind_Ret_inv. destruct (Z.leb_spec n 0).
  { unfold assert_ in Ha. destruct (Z.ltb_spec 0 n); [lia|done]. }
  apply obind_Ret_inv in H as (ts1 & H & [= <- <-]). destruct (run_workers_launched _ _ _ _ Hname H) as [Hsub Hl].
  split; [done|]. intros i Hi. apply Hl, elem_of_seq. lia.
Qed.

(** A step that starts the threads of its number. *)
Lemma launched_more k s s' :
  launched_upto k s → sv_threads s ⊆ sv_threads s' → sv_broker s' = sv_broker s → (2 ≤ k)%nat ∨ (S k < 2)%nat →
  (∀ t, planned file conf t → rank t = S k → launched (sv_threads s') t) → launched_upto (S k) s'.
Proof.
  intros [Hl Hb Hc] Hsub Eb Hk Hnew. split; [|rewrite Eb; intros ?; apply Hb; lia|intros ?; apply Hc; lia].
  intros t Ht Hr. destruct (decide (rank t = S k)); [by apply Hnew|].
  eapply launched_mono; [exact Hsub|]. apply Hl; [done|lia].
Qed.

Lemma start_launched k t s s' :
  launched_upto k s → t ≠ Th_update → rank t = S k → (∀ u, rank u = S k → u = t) → (2 ≤ k)%nat ∨ (S k < 2)%nat →
  start sys t s = Ret s' → launched_upto (S k) s'.
Proof.
  intros Hl Ht Hr Honly Hk (ts & H & ->)%start_inv. eapply launched_more; [exact Hl| |done|done|].
  - cbn. by eapply thread_run_mono.
  - intros u _ Hu. rewrite (Honly u Hu). by eapply thread_run_launched.
Qed.

Lemma copy_conf_Some copy : copy_conf conf = Ret copy → ∃ name, conf = Some name.
Proof. unfold copy_conf. destruct conf; [eauto|done]. Qed.

Lemma launched_broker s s' :
  launched_upto 1 s → MessageBroker_initialize sys file conf s = Ret s' → launched_upto 2 s'.
Proof.
  intros Hl. unfold MessageBroker_initialize.
  intros (copy & Hcp & H)%obind_Ret_inv. apply obind_Ret_inv in H as (ini & Hini & H).
  apply obind_Ret_inv in H as (st & Hst & H). apply obind_Ret_inv in H as (s1 & H1 & H).
  apply open_session_inv in H as (zk & ->). unfold instance_simple in H1.
  apply obind_Ret_inv in H1 as ([r f] & _ & [= <-]).
  split; cbn; [|by eauto 10|intros _; by eapply copy_conf_Some]. intros t Ht Hr.
  destruct (decide (rank t = 2%nat)) as [E|].
  - destruct t; try done. unfold launched, refused. destruct (sys_thread sys Th_update) as [[a p] c]. cbn.
    destruct c; [left; apply elem_of_app; right; constructor|by right].
  - eapply launched_mono; [|apply (lu_threads _ _ Hl t Ht); lia]. destruct (snd _); set_solver.
Qed.

Lemma planned_ini t ini :
  planned file conf t → open_conf file conf = Ret ini →
  match t with
  | Th_auth i => ∃ n, auth_thread_num ini = Ret n ∧ Z.of_nat i < n
  | Th_app i => ∃ n, app_thread_num ini = Ret n ∧ Z.of_nat i < n
  | Th_io i => ∃ cs, IoAppCluster_settings ini = Ret cs ∧ Z.of_nat i < st_cluster_size cs
  | Th_broker i => ∃ st, MessageBroker_settings ini = Ret st ∧ Z.of_nat i < bs_worker_num st
  | _ => True
  end.
Proof. intros (ini' & E & H) E'. rewrite E in E'. by injection E' as <-. Qed.

Lemma launched_dispatcher s s' :
  launched_upto 2 s → ImMessageDispatcher_initialize sys file conf s = Ret s' → launched_upto 3 s'.
Proof.
  intros Hl. unfold ImMessageDispatcher_initialize.
  intros (ini & Hini & H)%obind_Ret_inv. apply obind_Ret_inv in H as (pub & _ & H).
  apply obind_Ret_inv in H as (n1 & Hn1 & H). apply obind_Ret_inv in H as ([r1 ts1] & H1 & H).
  apply obind_Ret_inv in H as (n2 & Hn2 & H). apply obind_Ret_inv in H as ([r2 ts2] & H2 & [= <-]).
  apply cluster_run_launched in H1 as [Hs1 H1]; [|done]. apply cluster_run_launched in H2 as [Hs2 H2]; [|done].
  eapply launched_more; [exact Hl|cbn; set_solver|done|by left|]. cbn. intros t Ht Hr.
  apply (planned_ini _ ini) in Ht; [|done]. destruct t; try done; destruct Ht as (n & En & Hi).
  - eapply launched_mono; [exact Hs2|]. apply H1. congruence.
  - apply H2. congruence.
Qed.

Lemma launched_app_io s s' :
  launched_upto 3 s → start_app_io sys file new_io conf s = Ret s' → launched_upto 4 s'.
Proof.
  intros Hl. unfold start_app_io.
  intros (ini & Hini & H)%obind_Ret_inv. apply obind_Ret_inv in H as (k & Hk & H).
  unfold IoAppCluster_initialize in Hk. apply obind_Ret_inv in Hk as (st & Hst & [= <-]).
  destruct (settings_cases ini) as [Hf|(st' & Hst' & Hn & _)]; [congruence|].
  assert (st' = st) as -> by congruence. destruct Hn as [Hn _].
  unfold IoAppCluster_run in H. cbn [cl_settings] in H.
  destruct (Z.leb_spec (st_cluster_size st) 0) as [Hle|_]; [lia|]. cbn [Z.eqb] in H.
  apply obind_Ret_inv in H as (ts & Hts & [= <-]). cbn [sv_set_cluster sv_threads cl_core_io] in Hts.
  rewrite length_fmap, length_seq in Hts. apply run_workers_launched in Hts as [Hsub Hio]; [|done].
  eapply launched_more; [exact Hl|exact Hsub|done|by left; lia|]. cbn. intros t Ht Hr.
  apply (planned_ini _ ini) in Ht; [|done]. destruct t; try done; destruct Ht as (cs & Ecs & Hi).
  assert (cs = st) as -> by congruence. apply Hio, elem_of_seq. lia.
Qed.

Lemma launched_local s s' :
  launched_upto 4 s → start_local_router sys s = Ret s' → launched_upto 5 s'.
Proof.
  intros Hl. unfold start_local_router. intros (s1 & H1 & H)%obind_Ret_inv.
  assert (s' = s1) as ->.
  { case_bool_decide; [|by injection H as <-]. by apply obind_Ret_inv in H as (r & Hr & [= <-]). }
  eapply (start_launched _ Th_local_router); [exact Hl|done|done| |left; lia|exact H1]. by intros [].
Qed.

Lemma launched_run s s' :
  launched_upto 6 s → MessageBroker_run sys file s = Ret s' → launched_upto 7 s'.
Proof.
  intros Hl. unfold MessageBroker_run.
  intros (st & Hb & H)%obind_Ret_inv. apply obind_Ret_inv in H as ([r ts1] & H1 & H).
  apply obind_Ret_inv in H as (ts2 & H2 & H). apply obind_Ret_inv in H as (ini & _ & H).
  apply obind_Ret_inv in H as (host & _ & H). apply obind_Ret_inv in H as ([[[cl sc] wa] inst] & Hi & H).
  apply open_session_inv in H as (zk & ->). destruct (lu_broker _ _ Hl) as (ini' & st' & Hini & Hst & Eb); [lia|].
  rewrite Eb in Hb. injection Hb as <-. apply cluster_run_launched in H1 as [Hs1 H1]; [|done].
  pose proof (thread_run_mono _ _ _ _ H2) as Hs2.
  eapply launched_more; [exact Hl|cbn; set_solver|done|left; lia|]. cbn. intros t Ht Hr.
  apply (planned_ini _ ini') in Ht; [|done]. destruct t; try done.
  - destruct Ht as (st & Est & Hlt). eapply launched_mono; [exact Hs2|]. apply H1. congruence.
  - by eapply thread_run_launched.
Qed.

Lemma launched_manager s s' r :
  launched_upto 7 s → IoManager_initialize sys file conf s = Ret (r, s') → launched_upto 8 s'.
Proof.
  intros Hl. unfold IoManager_initialize.
  intros (ini & _ & H)%obind_Ret_inv. apply obind_Ret_inv in H as (p & _ & H).
  apply obind_Ret_inv in H as (sock & _ & H). destruct (IoAccept_addService _ _) as [x services]. injection H as <- <-.
  eapply launched_more; [exact Hl|done|done|left; lia|]. by intros [].
Qed.

Lemma launched_step k f s s' :
  main_steps sys file new_io conf !! k = Some f → launched_upto k s → f s = Ret s' → launched_upto (S k) s'.
Proof.
  intros Hf Hs H.
  destruct k as [|[|[|[|[|[|[|[|[|k]]]]]]]]]; cbn in Hf; [..|done]; injection Hf as <-.
  - eapply (start_launched _ Th_collector); [exact Hs|done|done| |right; lia|exact H]. by intros [].
  - by eapply launched_broker.
  - by eapply launched_dispatcher.
  - by eapply launched_app_io.
  - by eapply launched_local.
  - injection H as <-. eapply launched_more; [exact Hs|done|done|left; lia|]. by intros [].
  - by eapply launched_run.
  - apply obind_Ret_inv in H as ([r s1] & H & [= <-]). by eapply launched_manager.
  - eapply (start_launched _ Th_accept); [exact Hs|done|done| |left; lia|exact H]. by intros [].
Qed.

Lemma launched_prefix n l s :
  (n ≤ 9)%nat → run_steps (take n (main_steps sys file new_io conf)) (server_blank l) = Ret s → launched_upto n s.
Proof.
  revert s. induction n as [|n IH]; intros s Hn.
  { intros [= <-]. split; [|lia|lia]. intros t _ Hr. destruct t; cbn in Hr; lia. }
  destruct (lookup_lt_is_Some_2 (main_steps (L:=L) (C:=C) sys file new_io conf) n ltac:(cbn; lia)) as [f Hf].
  rewrite (take_S_r _ _ _ Hf), run_steps_app. intros (s1 & H1 & H2)%obind_Ret_inv.
  cbn [run_steps] in H2. apply obind_Ret_inv in H2 as (s2 & H2 & [= <-]).
  eapply launched_step; [exact Hf| |exact H2]. apply IH; [lia|done].
Qed.
End launched.

(** ** A start that succeeds *)
(** Every thread, the socket and the session can be made. *)
Record cooperates {L} {HL : ZkLib L} (sys : system) : Prop := {
  co_thread : ∀ t, sys_thread sys t = (true, true, true);
  co_socket : sys_socket sys ≠ -1;
  co_nonblocking : sys_nonblocking sys = true;
  co_bind : sys_bind sys = true;
  co_listen : sys_listen sys = true;
  co_session : ∀ l host t, ∃ h l', zookeeper_init l host t = (Some h, l') }.

(** The settings are accepted by every part. *)
Record accepted {C} (ini : IniFileReader) (host : cstr) (st : broker_settings)
    (pub : RouteInfoPublisher C) (na np : Z) (cs : cluster_settings) (inst port : Z) : Prop := {
  ac_broker : MessageBroker_settings ini = Ret st;
  ac_auth : ImMessageAuthProcessor_initialize ini = Ret pub;
  ac_na : auth_thread_num ini = Ret na;
  ac_np : app_thread_num ini = Ret np;
  ac_io : IoAppCluster_settings ini = Ret cs;
  ac_few : st_cluster_size cs < IMIO_MAX_SIZE;
  ac_server : ∃ cl sc wa, init_rpc_server host ini = Ret (cl, sc, wa, inst);
  ac_port : io_app_port ini = Ret port }.

Definition all_threads (na np nio nb : Z) : list thread :=
  [Th_collector; Th_update] ++ (Th_auth <$> seq 0 (Z.to_nat na)) ++ (Th_app <$> seq 0 (Z.to_nat np)) ++
  (Th_io <$> seq 0 (Z.to_nat nio)) ++ [Th_local_router] ++
  (Th_broker <$> seq 0 (Z.to_nat nb)) ++ [Th_rpc; Th_accept].

Section success.
Context {T L C : Type} {HT : IoThread T} {HL : ZkLib L}.
Context (sys : system) (Hco : @cooperates L HL sys).

Lemma thread_run_ok t ts : thread_run sys t ts = Ret (ts ++ [t]).
Proof. unfold thread_run. by rewrite (co_thread _ Hco). Qed.

Lemma run_workers_ok name ids ts : run_workers sys name ids ts = Ret (ts ++ (name <$> ids)).
Proof.
  revert ts. induction ids as [|i ids IH]; intros ts; cbn [run_workers]; [by rewrite app_nil_r|].
  rewrite thread_run_ok. cbn [obind]. by rewrite IH, <-app_assoc.
Qed.

Lemma cluster_run_ok name n ts :
  0 < n → cluster_run sys name n ts = Ret (0, ts ++ (name <$> seq 0 (Z.to_nat n))).
Proof.
  intros Hn. unfold cluster_run. rewrite (proj2 (Z.ltb_lt 0 n) Hn). cbn [assert_ obind].
  destruct (Z.leb_spec n 0); [lia|]. by rewrite run_workers_ok.
Qed.

Lemma open_ok c (l : L) : zc_zh c = None → ∃ c' l', ZookeeperClient_open c l = Ret (0, c', l').
Proof.
  intros Hc. unfold ZookeeperClient_open, zk_start. rewrite Hc.
  destruct (co_session _ Hco l (zc_host c) (zc_recv_timeout c)) as (h & l' & ->). eauto.
Qed.

Lemma first_open_ok tod path ok : ∃ r f, PooledClientImpl_open tod ∅ path ok = Ret (r, f).
Proof.
  unfold PooledClientImpl_open, get_update_task_manager. rewrite lookup_empty, opened_open.
  cbn [obind]. destruct opened_rep as [free Hr].
  destruct (put_task_refines _ _ _ _ (mkTask REFRESH_ALL [] 0) Hr) as (m' & ? & ? & Hp & _).
  unfold put_update_task. rewrite Hp. cbn [obind]. eauto.
Qed.

Context (file : cstr → outcome IniFileReader) (new_io : app_config → T).
Context (ini : IniFileReader) (host name : cstr).
Context (st : broker_settings) (pub : RouteInfoPublisher C) (na np : Z) (cs : cluster_settings) (inst port : Z).
Context (Hac : accepted ini host st pub na np cs inst port).
Context (Hname : 0 ∉ name) (Hlen : (length name < PATH_MAX)%nat) (Hfile : file name = Ret ini).
Context (Hhost : sys_host sys = Ret host).
Implicit Types (s : server T L C).

Lemma open_conf_ok : open_conf file (Some name) = Ret ini.
Proof. cbn [open_conf]. by rewrite (c_str_id _ Hname). Qed.

Lemma open_session_ok c s :
  zc_zh c = None → ∃ zk, open_session c s = Ret (mkServer (sv_threads s) (sv_conf s) (sv_broker s)
    (sv_tasks s) (sv_service s) (sv_publisher s) (sv_cluster s) (sv_local_router s) (sv_rpc s) zk
    (sv_registered s) (sv_instance s) (sv_services s)).
Proof.
  intros Hc. unfold open_session. destruct (open_ok c (snd (sv_zk s)) Hc) as (c' & l' & ->).
  cbn [obind]. eauto.
Qed.

Lemma broker_initialize_ok s :
  sv_tasks s = ∅ → ∃ f zk, MessageBroker_initialize sys file (Some name) s = Ret
    (mkServer (sv_threads s ++ [Th_update]) (Some name) (Some st) f
       (Some (PooledClientImpl_new (bs_path st) (bs_conn_num st))) (sv_publisher s) (sv_cluster s)
       (sv_local_router s) (sv_rpc s) zk (sv_registered s) (sv_instance s) (sv_services s)).
Proof.
  intros Ht. unfold MessageBroker_initialize. cbn [copy_conf]. rewrite (c_str_id _ Hname).
  rewrite (proj2 (Nat.ltb_lt _ _) Hlen). cbn [obind]. rewrite open_conf_ok. cbn [obind].
  rewrite (ac_broker _ _ _ _ _ _ _ _ _ Hac). cbn [obind]. unfold instance_simple.
  rewrite (co_thread _ Hco). cbn [snd sv_tasks]. rewrite Ht.
  destruct (first_open_ok (sys_tod sys) (bs_path st) true) as (r & f & ->). cbn [obind].
  edestruct open_session_ok as (zk & ->); [|exists f, zk; reflexivity]. done.
Qed.

Lemma settings_positive : 0 < na ∧ 0 < np ∧ 0 < st_cluster_size cs ∧ 0 < bs_worker_num st.
Proof using Hac.
  clear Hlen.
  assert (∀ sec k d0 d v, positive_or ini sec k d0 d = Ret v → 0 < d → 0 < v) as Hpos.
  { intros ? ? ? ? ? H Hd. apply obind_Ret_inv in H as (u & _ & [= <-]). destruct (Z.leb_spec u 0); lia. }
  split; [|split; [|split]].
  - apply (Hpos _ _ _ _ _ (ac_na _ _ _ _ _ _ _ _ _ Hac)). lia.
  - apply (Hpos _ _ _ _ _ (ac_np _ _ _ _ _ _ _ _ _ Hac)). lia.
  - destruct (settings_cases ini) as [H|(cs' & H & [Hn _] & _)];
      rewrite (ac_io _ _ _ _ _ _ _ _ _ Hac) in H; [done|]. by injection H as ->.
  - pose proof (ac_broker _ _ _ _ _ _ _ _ _ Hac) as H. unfold MessageBroker_settings in H.
    do 6 apply obind_Ret_inv in H as (? & _ & H). apply obind_Ret_inv in H as (w & Hw & H).
    do 3 apply obind_Ret_inv in H as (? & _ & H). injection H as <-. cbn.
    apply (Hpos _ _ _ _ _ Hw). lia.
Qed.

Lemma dispatcher_ok s :
  ImMessageDispatcher_initialize sys file (Some name) s = Ret
    (mkServer ((sv_threads s ++ (Th_auth <$> seq 0 (Z.to_nat na))) ++ (Th_app <$> seq 0 (Z.to_nat np)))
       (sv_conf s) (sv_broker s) (sv_tasks s) (sv_service s) (Some pub) (sv_cluster s) (sv_local_router s)
       (sv_rpc s) (sv_zk s) (sv_registered s) (sv_instance s) (sv_services s)).
Proof using Hac Hco Hname Hfile.
  clear Hlen.
  destruct settings_positive as (Hna & Hnp & _). unfold ImMessageDispatcher_initialize.
  rewrite open_conf_ok. cbn [obind]. rewrite (ac_auth _ _ _ _ _ _ _ _ _ Hac). cbn [obind].
  rewrite (ac_na _ _ _ _ _ _ _ _ _ Hac). cbn [obind]. unfold ImAuthWorkerCluster_run.
  rewrite (cluster_run_ok _ _ _ Hna). cbn [obind]. rewrite (ac_np _ _ _ _ _ _ _ _ _ Hac). cbn [obind].
  unfold ImAppWorkerCluster_run. by rewrite (cluster_run_ok _ _ _ Hnp).
Qed.

Lemma app_io_ok s :
  ∃ k, cl_settings k = cs ∧ start_app_io sys file new_io (Some name) s =
    Ret (sv_set_threads (sv_threads s ++ (Th_io <$> seq 0 (Z.to_nat (st_cluster_size cs)))) (sv_set_cluster k s)).
Proof using Hac Hco Hname Hfile.
  clear Hlen.
  destruct settings_positive as (_ & _ & Hcs & _). unfold start_app_io. rewrite open_conf_ok. cbn [obind].
  unfold IoAppCluster_initialize. rewrite (ac_io _ _ _ _ _ _ _ _ _ Hac). cbn [obind].
  unfold IoAppCluster_run. cbn [cl_settings]. destruct (Z.leb_spec (st_cluster_size cs) 0); [lia|].
  cbn [Z.eqb cl_core_io]. rewrite length_fmap, length_seq, run_workers_ok. cbn [obind].
  eexists. split; [|reflexivity]. done.
Qed.

Lemma local_router_ok s :
  cl_settings (sv_cluster s) = cs →
  start_local_router sys s = Ret (sv_set_threads (sv_threads s ++ [Th_local_router]) s).
Proof using Hac Hco.
  clear Hlen.
  intros Hcs. destruct settings_positive as (_ & _ & Hpos & _). unfold start_local_router, start.
  rewrite thread_run_ok. cbn [obind sv_threads sv_set_threads].
  rewrite bool_decide_eq_true_2 by (apply elem_of_app; right; constructor).
  unfold MsMessageRouterLocal_run. cbn [sv_cluster sv_set_threads]. rewrite Hcs.
  pose proof (ac_few _ _ _ _ _ _ _ _ _ Hac) as Hf. unfold IMIO_MAX_SIZE in *. unfold u32.
  rewrite Z.mod_small by lia. by rewrite (proj2 (Z.ltb_lt _ _) Hf).
Qed.

Lemma broker_run_ok s :
  sv_broker s = Some st → sv_conf s = Some name →
  ∃ sc zk, MessageBroker_run sys file s = Ret
    (mkServer ((sv_threads s ++ (Th_broker <$> seq 0 (Z.to_nat (bs_worker_num st)))) ++ [Th_rpc]) (sv_conf s)
       (sv_broker s) (sv_tasks s) (sv_service s) (sv_publisher s) (sv_cluster s) (sv_local_router s)
       (Some (bs_port st, bs_io_num st)) zk (Some sc) inst (sv_services s)).
Proof using Hac Hco Hname Hfile Hhost.
  clear Hlen.
  intros Hb Hc. destruct settings_positive as (_ & _ & _ & Hw). unfold MessageBroker_run. rewrite Hb. cbn [defined obind].
  unfold BrokerWorkerCluster_run. rewrite (cluster_run_ok _ _ _ Hw). cbn [obind].
  rewrite thread_run_ok. cbn [obind]. rewrite Hc, open_conf_ok. cbn [obind]. rewrite Hhost. cbn [obind].
  destruct (ac_server _ _ _ _ _ _ _ _ _ Hac) as (cl & sc & wa & Hi). rewrite Hi. cbn [obind].
  apply init_rpc_server_inv in Hi as (? & _ & _ & _ & _ & _ & ->).
  edestruct open_session_ok as (zk & ->); [|exists sc, zk; reflexivity]. done.
Qed.

Lemma manager_ok s :
  sv_services s = [] →
  IoManager_initialize sys file (Some name) s = Ret (0,
    mkServer (sv_threads s) (sv_conf s) (sv_broker s) (sv_tasks s) (sv_service s) (sv_publisher s)
      (sv_cluster s) (sv_local_router s) (sv_rpc s) (sv_zk s) (sv_registered s) (sv_instance s)
      [(mkAccept 0 (sv_cluster s), mkListen (sys_socket sys) (mkAddr (htons port) (htonl 0)))]).
Proof using Hac Hco Hname Hfile.
  clear Hlen.
  intros Hsv. unfold IoManager_initialize. rewrite open_conf_ok. cbn [obind].
  rewrite (ac_port _ _ _ _ _ _ _ _ _ Hac). cbn [obind]. unfold createListenSocket.
  rewrite (proj2 (Z.eqb_neq _ _) (co_socket _ Hco)), (co_nonblocking _ Hco), (co_bind _ Hco), (co_listen _ Hco).
  cbn [assert_ negb obind]. by rewrite Hsv.
Qed.
End success.

(** ** A configuration *)
Definition wit_items : list (cstr * cstr * cstr) := [
  (str "BROKER", str "broker_port", str "9090"); (str "BROKER", str "broker_worker_num", str "2");
  (str "BROKER", str "broker_rpc_remote_zk", str "zk:2181"); (str "BROKER", str "broker_rpc_remote_path", str "im/ms");
  (str "BROKER", str "broker_rpc_local_zk", str "zk:2181"); (str "BROKER", str "broker_rpc_local_path", str "im/ms");
  (str "PUB_REDIS", str "redis_host", str "redis"); (str "PUB_REDIS", str "redis_port", str "6379");
  (str "PUB_REDIS", str "redis_db", str "0"); (str "PUB_REDIS", str "redis_channel", str "route");
  (str "PUB_REDIS", str "redis_io_timeout", str "500"); (str "IO", str "io_thread_num", str "2");
  (str "IO", str "io_app_port", str "8000")].
Definition wit_conf : IniFileReader :=
  foldl (λ r x, ini_item r x.1.1 x.1.2 x.2) (mkIni ∅ ∅ ∅) wit_items.
Definition wit_sys : system :=
  mkSys (λ _, (true, true, true)) 3 true true true (λ _, 0) (Ret (str "10.1.2.3")) (0, 0).
Definition wit_file (name : cstr) : outcome IniFileReader := Ret wit_conf.

(** ** Properties *)

(** C17: between any two statements of [main], when the accepting thread runs, the client of
    the other servers and the publisher of the dispatcher are set, there are I/O threads to
    hand connections to, the router knows the local router, the server is registered under
    its instance number and listens on one socket, and every thread the configuration asks
    for runs or was refused by the system, which [main] does not look at.  When the thread
    of the RPC server runs, the router knows the local router and the same holds of every
    thread that [main] starts before it.  The local router runs only with fewer I/O
    threads than its table holds. *)
Theorem ready_before_traffic {T L C} {HT : IoThread T} {HL : ZkLib L} (sys : system)
    (file : cstr → outcome IniFileReader) (new_io : app_config → T) conf n l (s : server T L C)
    (Hrun : run_steps (take n (main_steps sys file new_io conf)) (server_blank l) = Ret s) :
  (Th_rpc ∈ sv_threads s ∨ Th_accept ∈ sv_threads s → sv_local_router s = true) ∧
  (Th_rpc ∈ sv_threads s →
     ∀ t, planned file conf t → (rank t ≤ rank Th_rpc)%nat → t ∈ sv_threads s ∨ refused sys t = true) ∧
  (Th_accept ∈ sv_threads s →
     (∀ t, planned file conf t → t ∈ sv_threads s ∨ refused sys t = true) ∧
     is_Some (sv_broker s) ∧ is_Some (sv_service s) ∧ is_Some (sv_publisher s) ∧
     (0 < length (cl_core_io (sv_cluster s)))%nat ∧
     (∃ cluster port, sv_registered s = Some cluster ∧ 0 < port < 65535 ∧
        sv_instance s = genInstance (sc_host_ip cluster) port) ∧
     ∃ sock, sv_services s = [(mkAccept 0 (sv_cluster s), sock)] ∧ ls_fd sock = sys_socket sys) ∧
  (Th_local_router ∈ sv_threads s → u32 (st_cluster_size (cl_settings (sv_cluster s))) < IMIO_MAX_SIZE).
Proof.
  assert (started sys (Nat.min n 9) s ∧ launched_upto sys file conf (Nat.min n 9) s) as [Hs Hl].
  { destruct (Nat.le_ge_cases n 9).
    - rewrite Nat.min_l by done. split; [by eapply started_prefix|by eapply launched_prefix].
    - rewrite Nat.min_r by done. rewrite take_ge in Hrun by (cbn; lia).
      split; [eapply (started_prefix _ _ _ _ 9); [done|exact Hrun]|eapply (launched_prefix _ _ _ _ 9); [done|exact Hrun]]. }
  set (k := Nat.min n 9) in *. split; [|split; [|split]].
  - intros [H|H]; pose proof (sd_rank _ _ _ Hs _ H) as Hr; cbn in Hr; apply (sd_router _ _ _ Hs); lia.
  - intros H t Ht Hrt. pose proof (sd_rank _ _ _ Hs _ H) as Hr. cbn in Hr, Hrt. apply (lu_threads _ _ _ _ _ Hl); [done|lia].
  - intros H. pose proof (sd_rank _ _ _ Hs _ H) as Hr. cbn in Hr.
    destruct (sd_broker _ _ _ Hs) as [? ?]; [lia|].
    destruct (sd_registered _ _ _ Hs) as (? & ? & ? & ? & ?); [lia|].
    pose proof (sd_services _ _ _ Hs) as Hsv. destruct (Nat.leb_spec 8 k); [|lia].
    split_and!; try done; [|apply (sd_publisher _ _ _ Hs); lia|apply (sd_cluster _ _ _ Hs); lia|by eauto].
    intros t Ht. apply (lu_threads _ _ _ _ _ Hl); [done|]. destruct t; cbn; lia.
  - intros H. pose proof (sd_rank _ _ _ Hs _ H) as Hr. cbn in Hr. apply (sd_few _ _ _ Hs); [lia|done].
Qed.

Abbreviation wit_start := (@run_steps Z wit_lib unit
    (take 9 (@main_steps Z wit_lib unit wit_thread wit_zklib wit_sys wit_file cf_id (Some (str "ms.conf"))))
    (server_blank (0, ∅))).

Definition outcome_test {A} (f : A → bool) (o : outcome A) : bool :=
  match o with Ret a => f a | _ => false end.
Lemma outcome_test_Ret {A} (f : A → bool) (o : outcome A) :
  outcome_test f o = true → ∃ a, o = Ret a ∧ f a = true.
Proof. destruct o; [|done..]. eauto. Qed.

Lemma wit_start_accepts : outcome_test (λ s, bool_decide (Th_accept ∈ sv_threads s)) wit_start = true.
Proof. vm_compute. reflexivity. Qed.

Lemma ready_before_traffic_witness :
  ∃ s, wit_start = Ret s ∧ Th_accept ∈ sv_threads s ∧ sv_local_router s = true.
Proof.
  destruct (outcome_test_Ret _ _ wit_start_accepts) as (s & E & H).
  apply bool_decide_eq_true_1 in H. exists s. split; [exact E|]. split; [exact H|].
  destruct (@ready_before_traffic Z wit_lib unit wit_thread wit_zklib wit_sys wit_file cf_id
    (Some (str "ms.conf")) 9 (0, ∅) s E) as (Hr & _). apply Hr. by right.
Defined.

(** Projections of a state that was built, and the next statement. *)
Local Ltac sv_simpl := cbn [obind sv_threads sv_conf sv_broker sv_tasks sv_service sv_publisher sv_cluster
  sv_local_router sv_rpc sv_zk sv_registered sv_instance sv_services sv_set_threads sv_set_cluster
  server_blank setLocalRouter].

(** given a configuration whose settings are accepted and a system that grants what
    is asked of it, [main] gets to the end: all the threads run, as many of each kind as
    configured, in the order in which they are needed, and the server listens on the
    configured port under its instance number. *)
Theorem main_starts_everything {T L C} {HT : IoThread T} {HL : ZkLib L} (sys : system)
    (file : cstr → outcome IniFileReader) (new_io : app_config → T) prog name ini host st
    (pub : RouteInfoPublisher C) na np cs inst port (l : L)
    (Hco : @cooperates L HL sys) (Hac : accepted ini host st pub na np cs inst port)
    (Hname : 0 ∉ name) (Hlen : (length name < PATH_MAX)%nat) (Hfile : file name = Ret ini)
    (Hhost : sys_host sys = Ret host) :
  ∃ s, main sys file new_io [prog; name] l = Ret (Some s) ∧
    sv_threads s = all_threads na np (st_cluster_size cs) (bs_worker_num st) ∧
    sv_instance s = inst ∧ sv_publisher s = Some pub ∧ sv_rpc s = Some (bs_port st, bs_io_num st) ∧
    (ls_addr ∘ snd <$> sv_services s) = [mkAddr (htons port) (htonl 0)].
Proof.
  unfold main. cbn [length Nat.ltb Nat.leb]. change ([prog; name] !! 1%nat) with (Some name).
  unfold main_steps. cbn [run_steps]. unfold start at 1. rewrite (thread_run_ok sys Hco). sv_simpl.
  edestruct (broker_initialize_ok (T:=T) (C:=C) sys Hco file ini host name st pub na np cs inst port Hac Hname Hlen Hfile)
    as (f & zk & ->); [done|]. sv_simpl.
  rewrite (dispatcher_ok sys Hco file ini host name st pub na np cs inst port Hac Hname Hfile). sv_simpl.
  edestruct (app_io_ok sys Hco file new_io ini host name st pub na np cs inst port Hac Hname Hfile)
    as (k & Hk & ->). sv_simpl.
  rewrite (local_router_ok sys Hco ini host st pub na np cs inst port Hac) by done. sv_simpl.
  edestruct (broker_run_ok (T:=T) (C:=C) sys Hco file ini host name st pub na np cs inst port Hac Hname Hfile Hhost)
    as (sc & zk2 & ->); [done|done|]. sv_simpl.
  rewrite (manager_ok sys Hco file ini host name st pub na np cs inst port Hac Hname Hfile) by done. sv_simpl.
  unfold start. rewrite (thread_run_ok sys Hco). sv_simpl.
  eexists. split; [reflexivity|]. sv_simpl. split_and!; try done.
  unfold all_threads. by rewrite <-!app_assoc.
Qed.

Lemma wit_broker : outcome_test (λ st, bs_worker_num st =? 2) (MessageBroker_settings wit_conf) = true.
Proof. vm_compute. reflexivity. Qed.
Lemma wit_auth_conf : outcome_test (λ _, true) (ImMessageAuthProcessor_initialize (C:=unit) wit_conf) = true.
Proof. vm_compute. reflexivity. Qed.
Lemma wit_io : outcome_test (λ cs, st_cluster_size cs =? 2) (IoAppCluster_settings wit_conf) = true.
Proof. vm_compute. reflexivity. Qed.
Lemma wit_registration : outcome_test (λ _, true) (init_rpc_server (str "10.1.2.3") wit_conf) = true.
Proof. vm_compute. reflexivity. Qed.

Lemma main_starts_everything_witness :
  ∃ s : server Z wit_lib unit,
    @main Z wit_lib unit wit_thread wit_zklib wit_sys wit_file cf_id [str "msh"; str "ms.conf"] (0, ∅) = Ret (Some s) ∧
    sv_threads s = [Th_collector; Th_update; Th_auth 0; Th_app 0; Th_io 0; Th_io 1; Th_local_router;
                    Th_broker 0; Th_broker 1; Th_rpc; Th_accept].
Proof.
  destruct (outcome_test_Ret _ _ wit_broker) as (st & E1 & Hst%Z.eqb_eq).
  destruct (outcome_test_Ret _ _ wit_auth_conf) as (pub & E2 & _).
  destruct (outcome_test_Ret _ _ wit_io) as (cs & E3 & Hcs%Z.eqb_eq).
  destruct (outcome_test_Ret _ _ wit_registration) as ([[[cl sc] wa] inst] & E4 & _).
  destruct (@main_starts_everything Z wit_lib unit wit_thread wit_zklib wit_sys wit_file cf_id (str "msh")
    (str "ms.conf") wit_conf (str "10.1.2.3") st pub 1 1 cs inst 8000 (0, ∅)) as (s & Hm & Ht & _).
  - split; [reflexivity|discriminate|reflexivity..|]. intros l host t. eexists _, _. reflexivity.
  - split.
    + exact E1.
    + exact E2.
    + vm_compute. reflexivity.
    + vm_compute. reflexivity.
    + exact E3.
    + rewrite Hcs. reflexivity.
    + exists cl, sc, wa. exact E4.
    + vm_compute. reflexivity.
  - apply (bool_decide_unpack _). vm_compute. exact I.
  - vm_compute. lia.
  - reflexivity.
  - reflexivity.
  - exists s. split; [exact Hm|]. rewrite Ht, Hcs, Hst. reflexivity.
Defined.

(** any positive port number is accepted for the clients, but the socket is bound
    to its low sixteen bits: it listens on the configured port exactly when that is below
    65536. *)
Theorem client_port_bounds ini sys p sock
    (Hp : io_app_port ini = Ret p) (Hs : createListenSocket sys p [] = Ret sock) :
  0 < p < 2 ^ 31 ∧ ntohs (sin_port (ls_addr sock)) = p mod 65536 ∧
  (ntohs (sin_port (ls_addr sock)) = p ↔ p < 65536).
Proof.
  assert (0 < p < 2 ^ 31) as Hr.
  { unfold io_app_port in Hp. apply obind_Ret_inv in Hp as (u & Hu & Hp).
    apply obind_Ret_inv in Hp as ([] & Ha & [= <-]). unfold assert_ in Ha.
    destruct (int_value_cases ini (str "IO") (str "io_app_port") 0) as [?|(v & Hv & ?)]; [lia|congruence|].
    assert (v = u) as -> by congruence. destruct (Z.leb_spec u 0); [done|lia]. }
  assert (ntohs (sin_port (ls_addr sock)) = p mod 65536) as E.
  { unfold createListenSocket in Hs. do 4 apply obind_Ret_inv in Hs as (? & _ & Hs).
    injection Hs as <-. cbn [ls_addr sin_port]. by rewrite ntohs_htons. }
  split; [done|]. split; [done|]. rewrite E. pose proof (Z.mod_pos_bound p 65536).
  split; [lia|]. intros. apply Z.mod_small. lia.
Qed.

Lemma client_port_bounds_witness :
  ∃ sock, createListenSocket wit_sys 8000 [] = Ret sock ∧ ntohs (sin_port (ls_addr sock)) = 8000.
Proof.
  eexists. split; [reflexivity|].
  apply (client_port_bounds wit_conf wit_sys 8000); [vm_compute; reflexivity|reflexivity|lia].
Defined.

(** started without an argument the program does not print its message and exit, as
    the test of [argc] means to: it copies a string from a null pointer. *)
Theorem no_argument_faults {T L C} {HT : IoThread T} {HL : ZkLib L} sys file (new_io : app_config → T) prog l
    (Hp : snd (fst (sys_thread sys Th_collector)) = true) :
  main (C:=C) sys file new_io [prog] l = Fault.
Proof.
  unfold main. cbn [length Nat.ltb Nat.leb]. change ([prog] !! 1%nat) with (@None cstr).
  cbn [main_steps run_steps]. unfold start at 1, thread_run.
  destruct (sys_thread sys Th_collector) as [[a p] c]. cbn in Hp. subst p.
  unfold run_start. cbn [pt_state PthreadThread_new]. rewrite bool_decide_eq_true_2 by done.
  cbn [negb]. destruct a, c; cbn; reflexivity.
Qed.
