(* ===== verification/Client.v ===== *)
(** The test programs (client/client.cpp, client/touch.cpp, client/fakeTouch.cpp,
    client/send_msg.cpp): how a peer of the server builds frames and takes them apart.

    The programs read with a blocking [read]: what it will find is a list of
    [recv_event]s, and a call after the last of them sleeps.  Every program has one
    buffer of 1024 bytes.  [write] is taken to accept all it is given.  What
    [ParseFromArray] leaves in a pack it could not parse is the argument [partial].
    [memcpy] is undefined on overlapping ranges. *)
From S2P Require Import Prelude Heap Bytes MsMessage IoConnection IoAppConnection Protobuf ImPb ImParser StringAlgos Ini.

Definition BUFFER : Z := 1024.
Definition mimi : list Z := str "mimi".

(** What is printed. *)
Inductive printed :=
| P_touch_ack (ts uid : Z)
| P_msg (from to seq id : Z) (text : cstr)
| P_msg_ack (ts id : Z)
| P_error (type : Z)
| P_auth_fail
| P_auth_ok.
(** A program goes on, or leaves by [exit]. *)
Inductive client_result (A : Type) := Goes_on (a : A) | Exits (code : Z).
Arguments Goes_on {A}.
Arguments Exits {A}.

Section client.
Context {HC : ImCodec} (partial : list Z → ImPack).

(** ** Building packs *)
Definition client_ts (now : Z) : Z := i32 (now - TIMESTAMP_20150101000000).
Definition one_touch (uid : Z) : ImPackContent :=
  mkContent (Some (mkTouch (Some uid) [])) None None None None None [].

Definition touch_pack (uid now : Z) : ImPack :=
  mkPack (Some IM_TOUCH) (Some (one_touch uid)) (Some (client_ts now)) [].

Definition auth_pack (uid now : Z) : ImPack :=
  mkPack (Some IM_AUTH)
    (Some (mkContent None None None None
       (Some (mkAuthReq (Some uid) (Some (str "token")) [])) None []))
    (Some (client_ts now)) [].

Definition chat_msg (uid seq : Z) (targets : list Z) (text : cstr) : ImMsg :=
  mkImMsg (Some uid) (Some seq) targets (Some IM_REQUEST) None None None (Some text) None None None [].

(** [seq] is [g_seq], which is incremented. *)
Definition msg_pack (uid seq : Z) (text : cstr) (targets : list Z) (now : Z) : ImPack :=
  mkPack (Some IM_MSG) (Some (mkContent None None (Some (chat_msg uid seq targets (c_str text))) None None None []))
    (Some (client_ts now)) [].

(** ** Sending *)
(** [char buf[1024]; ...; write(fd, buf, size + 8);]: the bytes written. *)
Definition send_frame (pack : ImPack) : outcome (list Z) :=
  let bs := encode_pack pack in
  let size := Z.of_nat (length bs) in
  let buf := raw_buffer BUFFER in
  let* buf := write_bytes buf 0 (le_bytes 4 (htonl (u32 (size + 4)))) in
  let* buf := write_bytes buf 4 mimi in
  let* buf := write_bytes buf 8 bs in
  read_bytes buf 0 (size + 8).

Definition setTouch (uid now : Z) : outcome (list Z) := send_frame (touch_pack uid now).
Definition setMsg (uid seq : Z) (text : cstr) (targets : list Z) (now : Z) : outcome (list Z * Z) :=
  let* bs := send_frame (msg_pack uid seq text targets now) in
  if seq <? 2 ^ 31 - 1 then Ret (bs, seq + 1) else Fault.

(** ** Receiving *)
Definition got_pack (bs : list Z) : ImPack := default (partial bs) (decode_pack bs).

(** [unsigned long long id; memcpy(&id, msg_id.c_str(), msg_id.size());] and printing it *)
Definition copy_id (bs : cstr) : outcome Z :=
  if (length bs =? 8)%nat then Ret (le_value bs) else Fault.

(** [me] is [g_me]. *)
Definition printMsg (me : Z) (pack : ImPack) : outcome printed :=
  let msg := pack_msg pack in
  match im_target_uid msg with
  | [target_uid] =>
      if negb (target_uid =? me) then Abort
      else
        let* id := copy_id (default [] (im_msg_id msg)) in
        let text := default [] (im_text_content msg) in
        Ret (P_msg (default 0 (im_uid msg)) target_uid (default 0 (im_seq msg)) id (c_str text))
  | _ => Abort
  end.

Definition printMsgAck (pack : ImPack) : outcome printed :=
  let ack := default empty_ack (c_msg_ack (content pack)) in
  let* _ := assert_ (bool_decide (is_Some (ack_msg_id ack))) in
  let* id := copy_id (default [] (ack_msg_id ack)) in
  Ret (P_msg_ack (default 0 (p_ts pack)) id).

(** The [switch] of [main]. *)
Definition client_handle (me : Z) (pack : ImPack) : outcome printed :=
  let type := default IM_UNKNOW (p_type pack) in
  if type =? IM_TOUCH_ACK then
    Ret (P_touch_ack (default 0 (p_ts pack))
           (default 0 (default empty_touch_rep (c_touch_rep (content pack))).(touch_rep_uid)))
  else if type =? IM_MSG then printMsg me pack
  else if type =? IM_MSG_ACK then printMsgAck pack
  else Ret (P_error type).

(** [frame_size = ntohl(...)]; the sum is an [int]. *)
Definition client_frame_size (buf : buffer) : outcome Z :=
  let* w := read_bytes buf 0 4 in
  let n := i32 (ntohl (le_value w)) in
  if n + 4 <? 2 ^ 31 then Ret n else Fault.

(** [ParseFromArray(p + 8, frame_size - 4)] *)
Definition client_parse (buf : buffer) (frame_size : Z) : outcome ImPack :=
  if frame_size - 4 <? 0 then Fault
  else let* body := read_bytes buf 8 (frame_size - 4) in Ret (got_pack body).

(** [while (pos > sizeof(int)) ...]: what is printed and what is left. *)
Fixpoint client_frames (fuel : nat) (me : Z) (buf : buffer) (pos : Z) : outcome (list printed * buffer * Z) :=
  if pos <=? 4 then Ret ([], buf, pos)
  else
    let* frame_size := client_frame_size buf in
    if frame_size + 4 <=? pos then
      match fuel with
      | O => Diverge
      | S fuel =>
          let* pack := client_parse buf frame_size in
          let* out := client_handle me pack in
          let* buf := memcpy_within buf 0 (frame_size + 4) (pos - frame_size - 4) in
          let* (outs, buf, pos) := client_frames fuel me buf (pos - frame_size - 4) in
          Ret (out :: outs, buf, pos)
      end
    else Ret ([], buf, pos).

(** What [read(fd, p, want)] leaves of an event. *)
Definition push_back (rest : list Z) (evs : list recv_event) : list recv_event :=
  match rest with [] => evs | _ => RecvData rest :: evs end.

(** The read of a turn of [main]: none when the buffer is full, [None] when the turn is
    left by [continue]. *)
Definition client_read (evs : list recv_event) (buf : buffer) (pos : Z)
    : outcome (client_result (option (buffer * Z) * list recv_event)) :=
  if pos <? BUFFER then
    match evs with
    | [] => Wait
    | RecvEof :: _ => Ret (Exits 0)
    | RecvEintr :: evs => Ret (Goes_on (None, evs))
    | RecvEagain :: _ | RecvError :: _ => Ret (Exits (-1))
    | RecvData bs :: evs =>
        let want := Z.to_nat (BUFFER - pos) in
        let* buf := write_bytes buf pos (take want bs) in
        Ret (Goes_on (Some (buf, pos + Z.of_nat (length (take want bs))), push_back (drop want bs) evs))
    end
  else Ret (Goes_on (Some (buf, pos), evs)).

(** A turn of the loop of [main] after its [setMsg]. *)
Definition client_turn (me : Z) (evs : list recv_event) (buf : buffer) (pos : Z)
    : outcome (client_result (list printed * buffer * Z * list recv_event)) :=
  let* r := client_read evs buf pos in
  match r with
  | Exits code => Ret (Exits code)
  | Goes_on (None, evs) => Ret (Goes_on ([], buf, pos, evs))
  | Goes_on (Some (buf, pos), evs) =>
      let* (outs, buf, pos) := client_frames (Z.to_nat pos) me buf pos in
      Ret (Goes_on (outs, buf, pos, evs))
  end.

(** The whole turn: [send] holds the text and the targets when there are any; [g_seq]
    counts the messages. *)
Definition client_loop_turn (me : Z) (send : option (cstr * list Z)) (seq now : Z) (evs : list recv_event)
    (buf : buffer) (pos : Z)
    : outcome (list Z * Z * client_result (list printed * buffer * Z * list recv_event)) :=
  let* (sent, seq) := match send with
                      | Some (text, targets) => setMsg me seq text targets now
                      | None => Ret ([], seq)
                      end in
  let* r := client_turn me evs buf pos in
  Ret (sent, seq, r).

(** [n] turns that only receive. *)
Fixpoint client_turns (n : nat) (me : Z) (evs : list recv_event) (buf : buffer) (pos : Z)
    : outcome (client_result (list printed * buffer * Z * list recv_event)) :=
  match n with
  | O => Ret (Goes_on ([], buf, pos, evs))
  | S n =>
      let* r := client_turn me evs buf pos in
      match r with
      | Exits code => Ret (Exits code)
      | Goes_on (outs, buf, pos, evs) =>
          let* r := client_turns n me evs buf pos in
          match r with
          | Exits code => Ret (Exits code)
          | Goes_on (outs', buf, pos, evs) => Ret (Goes_on (outs ++ outs', buf, pos, evs))
          end
      end
  end.

(** The loop of [auth]: the first frame of the buffer is looked at after every read; the
    bytes read are gone when it returns. *)
Fixpoint auth_loop (evs : list recv_event) (buf : buffer) (pos : Z)
    : outcome (client_result (list recv_event) * list printed) :=
  if BUFFER - pos =? 0 then Ret (Exits 0, [])
  else match evs with
  | [] => Wait
  | RecvEof :: _ => Ret (Exits 0, [])
  | RecvEintr :: evs => auth_loop evs buf pos
  | RecvEagain :: _ | RecvError :: _ => Ret (Exits (-1), [])
  | RecvData bs :: evs =>
      let want := Z.to_nat (BUFFER - pos) in
      let* buf := write_bytes buf pos (take want bs) in
      let pos := pos + Z.of_nat (length (take want bs)) in
      if pos <? 4 then auth_loop evs buf pos
      else
        let* frame_size := client_frame_size buf in
        if frame_size + 4 <=? pos then
          let* pack := client_parse buf frame_size in
          if negb (default IM_UNKNOW (p_type pack) =? IM_AUTH_RESPONSE) then Ret (Exits (-1), [])
          else
            let* rep := match c_auth_rep (content pack) with Some r => Ret r | None => Abort end in
            if default false (rep_auth_success rep) then
              Ret (Goes_on (push_back (drop want bs) evs), [P_auth_ok])
            else let* (r, outs) := auth_loop evs buf pos in Ret (r, P_auth_fail :: outs)
        else auth_loop evs buf pos
  end.

(** [auth]: the bytes written, then the loop. *)
Definition client_auth (uid now : Z) (evs : list recv_event)
    : outcome (list Z * (client_result (list recv_event) * list printed)) :=
  let* bs := send_frame (auth_pack uid now) in
  let* buf := write_bytes (raw_buffer BUFFER) 0 bs in
  let* r := auth_loop evs buf 0 in
  Ret (bs, r).

(** The arguments of [main]: everything after the text is a target. *)
Definition client_targets (argv : list cstr) : outcome (list Z) :=
  let targets := drop 5 argv in
  if (1024 <? length targets)%nat then Fault
  else foldr (λ s acc, let* u := atoi s in let* us := acc in Ret (u :: us)) (Ret []) targets.

(** ** touch.cpp and fakeTouch.cpp *)
(** The second leaves the type of the pack unset. *)
Definition touch_request (fake : bool) (uid : Z) : ImPack :=
  mkPack (if fake then None else Some IM_TOUCH) (Some (one_touch uid)) None [].

(** A turn: the bytes written, and the user printed; the answer is parsed from what one
    [read] returned. *)
Definition touch_turn (fake : bool) (uid : Z) (ev : recv_event) : outcome (list Z * Z) :=
  let* bs := send_frame (touch_request fake uid) in
  let ret := match ev with RecvData r => Z.of_nat (length (take 1024 r)) | RecvEof => 0 | _ => -1 end in
  if ret - 8 <? 0 then Fault
  else
    let answer := match ev with RecvData r => take 1024 r | _ => [] end in
    let pack := got_pack (drop 8 answer) in
    Ret (bs, default 0 (default empty_touch_rep (c_touch_rep (content pack))).(touch_rep_uid)).

(** ** send_msg.cpp *)
(** The request of the [n]-th turn. *)
Definition send_msg_pack (uid seq : Z) (targets : list Z) (text : cstr) : ImPack :=
  mkPack (Some IM_MSG) (Some (mkContent None None (Some (chat_msg uid seq targets (c_str text))) None None None [])) None [].
Definition send_msg_request (argv : list cstr) (seq : Z) : outcome (client_result cstr) :=
  match argv with
  | _ :: _ :: _ :: text :: uid :: targets =>
      if (length argv <? 6)%nat then Ret (Exits (-1))
      else
        let* u := atoi uid in
        let* us := foldr (λ s acc, let* u := atoi s in let* us := acc in Ret (u :: us)) (Ret []) targets in
        Ret (Goes_on (encode_pack (send_msg_pack u (seq + 1) us text)))
  | _ => Ret (Exits (-1))
  end.
End client.

(** ** Lemmas *)
(** A buffer of the program's size that starts with [p]. *)
Definition holds (buf : buffer) (p : list Z) : Prop :=
  ∃ rest, buf = (Some <$> p) ++ rest ∧ (length p + length rest)%nat = 1024%nat.

Lemma holds_read buf X Y Z' : holds buf (X ++ Y ++ Z') →
  read_bytes buf (Z.of_nat (length X)) (Z.of_nat (length Y)) = Ret Y.
Proof. intros (rest & -> & _). rewrite !fmap_app, <-!app_assoc. apply read_bytes_mid. Qed.

Lemma holds_append buf p bs :
  holds buf p → (length p + length bs ≤ 1024)%nat →
  ∃ buf', write_bytes buf (Z.of_nat (length p)) bs = Ret buf' ∧ holds buf' (p ++ bs).
Proof.
  intros (rest & -> & Hl) Hle. rewrite write_bytes_end by lia. eexists. split; [done|].
  eexists. split; [done|]. rewrite length_app, length_drop. lia.
Qed.

Lemma holds_start buf p bs :
  holds buf p → (length bs ≤ 1024)%nat → ∃ buf', write_bytes buf 0 bs = Ret buf' ∧ holds buf' bs.
Proof.
  intros (rest & -> & Hl) Hle.
  rewrite write_bytes_start by (rewrite length_app, length_fmap; lia). eexists. split; [done|].
  eexists. split; [done|]. rewrite length_drop, length_app, length_fmap. lia.
Qed.

Lemma raw_holds : holds (raw_buffer BUFFER) [].
Proof. exists (raw_buffer BUFFER). split; [done|]. reflexivity. Qed.

(** The four bytes in front of a frame. *)
Lemma announced_word n :
  0 ≤ n < 2 ^ 32 - 4 → ∀ rest, announced_size (le_bytes 4 (htonl (u32 n)) ++ rest) = n + 4.
Proof.
  intros Hn rest. unfold announced_size. rewrite take_app_length' by (by rewrite length_le_bytes).
  rewrite le_value_bytes. unfold u32. rewrite (Z.mod_small n) by lia.
  pose proof (htonl_range n). rewrite (Z.mod_small (htonl n)) by (change (256 ^ Z.of_nat 4) with (2 ^ 32); lia).
  rewrite ntohl_htonl by lia. apply Z.mod_small. lia.
Qed.

Section client_lemmas.
Context {HC : ImCodec} (partial : list Z → ImPack).

Definition client_frame (pack : ImPack) : list Z :=
  le_bytes 4 (htonl (u32 (Z.of_nat (length (encode_pack pack)) + 4))) ++ mimi ++ encode_pack pack.

Lemma length_client_frame pack : length (client_frame pack) = (8 + length (encode_pack pack))%nat.
Proof. unfold client_frame. rewrite !length_app, length_le_bytes. done. Qed.

Lemma send_frame_ok pack :
  (length (encode_pack pack) ≤ 1016)%nat → send_frame pack = Ret (client_frame pack).
Proof.
  intros Hl. unfold send_frame. set (bs := encode_pack pack) in *. set (hdr := le_bytes 4 _).
  assert (length hdr = 4%nat) as Hh by (unfold hdr; apply length_le_bytes).
  destruct (holds_start (raw_buffer BUFFER) [] hdr raw_holds) as (b1 & -> & H1); [lia|].
  cbn [obind]. replace 4 with (Z.of_nat (length hdr)) at 1 by lia.
  destruct (holds_append b1 hdr mimi H1) as (b2 & -> & H2); [rewrite Hh; cbn; lia|].
  cbn [obind]. replace 8 with (Z.of_nat (length (hdr ++ mimi))) at 1
    by (rewrite length_app, Hh; reflexivity).
  destruct (holds_append b2 (hdr ++ mimi) bs H2) as (b3 & -> & H3);
    [rewrite !length_app, Hh; cbn; lia|].
  cbn [obind].
  replace (Z.of_nat (length bs) + 8) with (Z.of_nat (length (client_frame pack)))
    by (rewrite length_client_frame; fold bs; lia).
  apply (holds_read b3 [] (client_frame pack) []). cbn [app] in *.
  unfold client_frame. fold bs. rewrite app_nil_r. by rewrite <-app_assoc in H3.
Qed.

Lemma send_frame_overflow pack : (1016 < length (encode_pack pack))%nat → send_frame pack = Fault.
Proof.
  intros Hl. unfold send_frame. set (bs := encode_pack pack) in *. set (hdr := le_bytes 4 _).
  assert (length hdr = 4%nat) as Hh by (unfold hdr; apply length_le_bytes).
  destruct (holds_start (raw_buffer BUFFER) [] hdr raw_holds) as (b1 & -> & H1); [lia|].
  cbn [obind]. replace 4 with (Z.of_nat (length hdr)) at 1 by lia.
  destruct (holds_append b1 hdr mimi H1) as (b2 & -> & (rest & -> & Hr)); [rewrite Hh; cbn; lia|].
  cbn [obind]. unfold write_bytes, in_bounds. rewrite !length_app, !length_fmap in *.
  cbn [length app] in *. rewrite length_app in *. rewrite Hh in *. change (length mimi) with 4%nat in *.
  rewrite (proj2 (Z.leb_gt (8 + Z.of_nat (length bs)) _)) by lia. by rewrite andb_false_r.
Qed.

Lemma client_frame_good pack :
  (length (encode_pack pack) ≤ 1016)%nat →
  good_frame (client_frame pack) ∧ frame_word (client_frame pack) = magic ∧
  drop 8 (client_frame pack) = encode_pack pack.
Proof.
  intros Hl. split; [split|split].
  - rewrite length_client_frame. lia.
  - rewrite length_client_frame. unfold client_frame. rewrite announced_word by lia. lia.
  - unfold frame_word, client_frame. by rewrite drop_app_length' by (by rewrite length_le_bytes).
  - unfold client_frame. rewrite app_assoc. apply drop_app_length'. by rewrite length_app, length_le_bytes.
Qed.

(** ** Receiving *)
Lemma client_frame_size_ok buf q r :
  holds buf (q ++ r) → (4 ≤ length q)%nat → 4 ≤ announced_size q ≤ 1024 →
  client_frame_size buf = Ret (announced_size q - 4).
Proof.
  intros Hh Hq Ha. unfold client_frame_size. rewrite <-(take_drop 4 q), <-app_assoc in Hh.
  assert (length (take 4 q) = 4%nat) as L4 by (rewrite length_take; lia).
  pose proof (holds_read buf [] (take 4 q) (drop 4 q ++ r) Hh) as Hr. rewrite L4 in Hr.
  change (Z.of_nat (length (@nil Z))) with 0 in Hr. change (Z.of_nat 4) with 4 in Hr. rewrite Hr. cbn [obind].
  unfold announced_size in *. set (x := ntohl (le_value (take 4 q))) in *.
  assert (0 ≤ x < 2 ^ 32) as Hx by apply htonl_range.
  assert (u32 (x + 4) = x + 4) as E.
  { unfold u32 in *. destruct (decide (x + 4 < 2 ^ 32)); [apply Z.mod_small; lia|].
    rewrite <-(Z_mod_plus_full _ (-1)), Z.mod_small in Ha by lia. lia. }
  rewrite E in *. rewrite (i32_id x) by lia. rewrite (proj2 (Z.ltb_lt _ _)) by lia. f_equal. lia.
Qed.

(** A frame the client can take. *)
Definition printable (me : Z) (f : list Z) (out : printed) : Prop :=
  good_frame f ∧ client_handle me (got_pack partial (drop 8 f)) = Ret out.

Lemma printable_good me fs outs : Forall2 (printable me) fs outs → Forall good_frame fs.
Proof. induction 1 as [|f out fs outs [Hg _] _ IH]; by constructor. Qed.

Lemma client_parse_ok buf f r :
  holds buf (f ++ r) → (8 ≤ length f)%nat →
  client_parse partial buf (Z.of_nat (length f) - 4) = Ret (got_pack partial (drop 8 f)).
Proof.
  intros Hh Hf. unfold client_parse. destruct (Z.ltb_spec (Z.of_nat (length f) - 4 - 4) 0); [lia|].
  rewrite <-(take_drop 8 f), <-app_assoc in Hh.
  assert (length (take 8 f) = 8%nat) as L8 by (rewrite length_take; lia).
  pose proof (holds_read buf (take 8 f) (drop 8 f) r Hh) as Hr. rewrite L8, length_drop in Hr.
  replace (Z.of_nat (length f) - 4 - 4) with (Z.of_nat (length f - 8)) by lia.
  change (Z.of_nat 8) with 8 in Hr. by rewrite Hr.
Qed.

(** What is behind each frame in the buffer is no longer than the frame: the bytes can be
    moved. *)
Fixpoint shifts_apart (fs : list (list Z)) (p : list Z) : bool :=
  match fs with
  | [] => true
  | f :: fs => (length (mjoin fs ++ p) <=? length f)%nat && shifts_apart fs p
  end.

(** A frame in front of the buffer is printed and the rest is moved. *)
Lemma client_frames_step me f out R fuel buf :
  printable me f out → holds buf (f ++ R) →
  client_frames partial (S fuel) me buf (Z.of_nat (length (f ++ R))) =
    let* buf := memcpy_within buf 0 (Z.of_nat (length f)) (Z.of_nat (length R)) in
    let* (outs, buf, pos) := client_frames partial fuel me buf (Z.of_nat (length R)) in
    Ret (out :: outs, buf, pos).
Proof.
  intros [[Hl Ha] Hh] Hb. cbn [client_frames].
  destruct (Z.leb_spec (Z.of_nat (length (f ++ R))) 4) as [Hle|_]; [rewrite length_app in Hle; lia|].
  rewrite (client_frame_size_ok buf f R) by (done || lia). cbn [obind]. rewrite Ha.
  rewrite (proj2 (Z.leb_le _ _)) by (rewrite length_app; lia).
  rewrite (client_parse_ok buf f R) by (done || lia). cbn [obind]. rewrite Hh. cbn [obind].
  replace (Z.of_nat (length f) - 4 + 4) with (Z.of_nat (length f)) by lia.
  by replace (Z.of_nat (length (f ++ R)) - (Z.of_nat (length f) - 4) - 4) with (Z.of_nat (length R))
    by (rewrite length_app; lia).
Qed.

Lemma holds_shift buf f R :
  holds buf (f ++ R) → (length R ≤ length f)%nat →
  ∃ buf', memcpy_within buf 0 (Z.of_nat (length f)) (Z.of_nat (length R)) = Ret buf' ∧ holds buf' R.
Proof.
  intros (rest & -> & Hl) Hle. rewrite memcpy_front by done. eexists. split; [done|].
  eexists. split; [done|]. rewrite length_drop, length_app, length_fmap, length_app in *. lia.
Qed.

Lemma client_frames_ok me fs outs : Forall2 (printable me) fs outs →
  ∀ fuel buf p, holds buf (mjoin fs ++ p) → incomplete p → (length fs ≤ fuel)%nat → shifts_apart fs p = true →
  ∃ buf', client_frames partial fuel me buf (Z.of_nat (length (mjoin fs ++ p))) =
      Ret (outs, buf', Z.of_nat (length p)) ∧ holds buf' p.
Proof.
  induction 1 as [|f out fs outs Hf _ IH]; intros fuel buf p Hb Hp Hfuel Hap.
  - cbn [mjoin list_join app]. destruct fuel as [|fuel]; cbn [client_frames];
      (destruct (Z.leb_spec (Z.of_nat (length p)) 4); [by eauto|];
       pose proof (incomplete_announced p Hp ltac:(lia)) as Hi;
       rewrite (client_frame_size_ok buf p []) by (rewrite ?app_nil_r; done || lia);
       cbn [obind]; destruct (Z.leb_spec (announced_size p - 4 + 4) (Z.of_nat (length p))); [lia|by eauto]).
  - destruct fuel as [|fuel]; [cbn in Hfuel; lia|]. cbn [shifts_apart] in Hap.
    apply andb_true_iff in Hap as [Hle%Nat.leb_le Hap].
    change (mjoin (f :: fs)) with (f ++ mjoin fs) in *. rewrite <-app_assoc in *.
    rewrite (client_frames_step me f out) by done. destruct (holds_shift _ _ _ Hb Hle) as (b1 & -> & Hb1). cbn [obind].
    destruct (IH fuel b1 p Hb1 Hp) as (b2 & Hrun & Hb2); [cbn in Hfuel; lia|done|].
    rewrite Hrun. cbn [obind]. eauto.
Qed.

Lemma client_frames_overlap me fs outs : Forall2 (printable me) fs outs →
  ∀ fuel buf p, holds buf (mjoin fs ++ p) → (length fs ≤ fuel)%nat → shifts_apart fs p = false →
  client_frames partial fuel me buf (Z.of_nat (length (mjoin fs ++ p))) = Fault.
Proof.
  induction 1 as [|f out fs outs Hf _ IH]; intros fuel buf p Hb Hfuel Hap; [done|].
  destruct fuel as [|fuel]; [cbn in Hfuel; lia|]. cbn [shifts_apart] in Hap.
  change (mjoin (f :: fs)) with (f ++ mjoin fs) in *. rewrite <-app_assoc in *.
  rewrite (client_frames_step me f out) by done.
  destruct (Nat.leb_spec (length (mjoin fs ++ p)) (length f)) as [Hle|Hlt].
  - destruct (holds_shift _ _ _ Hb Hle) as (b1 & -> & Hb1). cbn [obind].
    by rewrite IH by (done || (cbn in Hfuel; lia)).
  - by rewrite memcpy_front_overlap.
Qed.

Lemma mjoin_frames_length me fs outs :
  Forall2 (printable me) fs outs → (length fs ≤ length (mjoin fs))%nat.
Proof.
  induction 1 as [|f out fs outs [[H8 _] _] _ IH]; [done|]. change (mjoin (f :: fs)) with (f ++ mjoin fs).
  rewrite length_app. cbn [length]. lia.
Qed.

(** Only data and interruptions arrive. *)
Definition talks (evs : list recv_event) : Prop :=
  Forall (λ e, match e with RecvData bs => bs ≠ [] | RecvEintr => True | _ => False end) evs.

Lemma push_back_spec rest evs :
  talks evs → talks (push_back rest evs) ∧ in_bytes (push_back rest evs) = rest ++ in_bytes evs ∧
  (in_measure (push_back rest evs) ≤ in_measure evs + length rest + 1)%nat ∧
  (rest = [] → in_measure (push_back rest evs) = in_measure evs).
Proof.
  intros Ht. destruct rest as [|x rest]; cbn [push_back]; [split_and!; done || lia|].
  split_and!; [by constructor|done| |done]. unfold in_measure. cbn [sum_list_with length]. lia.
Qed.

(** The frames in the buffer after a read cannot all be moved out one by one. *)
Definition squeezed (B : list Z) : Prop :=
  ∃ fs p, B = mjoin fs ++ p ∧ Forall good_frame fs ∧ incomplete p ∧ shifts_apart fs p = false.

Lemma split_squeezed fs p :
  Forall good_frame fs → incomplete p → shifts_apart fs p = false ↔ squeezed (mjoin fs ++ p).
Proof.
  intros HF Hp. split.
  - intros Ha. by exists fs, p.
  - intros (g & q & E & HF' & Hq & Ha). by destruct (frames_unique _ _ _ _ E HF HF' Hp Hq) as [-> ->].
Qed.

Lemma holds_unique buf P Q : holds buf P → holds buf Q → length P = length Q → P = Q.
Proof.
  intros (r1 & -> & _) (r2 & E & _) Hl. apply app_inj_1 in E as [E _]; [by apply (inj (fmap Some)) in E|].
  by rewrite !length_fmap.
Qed.

(** A turn of which the read leaves such a buffer. *)
Definition turn_squeezes (evs : list recv_event) (buf : buffer) (pos : Z) : Prop :=
  ∃ buf' B evs', client_read evs buf pos = Ret (Goes_on (Some (buf', Z.of_nat (length B)), evs')) ∧
    holds buf' B ∧ squeezed B.

(** What a turn reads. *)
Lemma client_read_ok evs buf P :
  holds buf P → (length P < 1024)%nat → talks evs → evs ≠ [] →
  ∃ evs', talks evs' ∧ (in_measure evs' < in_measure evs)%nat ∧
    ((client_read evs buf (Z.of_nat (length P)) = Ret (Goes_on (None, evs')) ∧ in_bytes evs' = in_bytes evs) ∨
     ∃ got buf', client_read evs buf (Z.of_nat (length P)) = Ret (Goes_on (Some (buf', Z.of_nat (length (P ++ got))), evs')) ∧
       holds buf' (P ++ got) ∧ got ++ in_bytes evs' = in_bytes evs).
Proof.
  intros Hb HlP Ht Hne. unfold client_read. rewrite (proj2 (Z.ltb_lt _ _)) by (unfold BUFFER; lia).
  destruct Ht as [|e evs He Ht]; [done|]. destruct e as [bs| | | |]; try done; last first.
  { exists evs. split; [done|]. split; [unfold in_measure; cbn [sum_list_with]; lia|]. by left. }
  set (want := Z.to_nat (BUFFER - Z.of_nat (length P))). set (got := take want bs).
  assert (length got ≤ 1024 - length P)%nat as Hgot
    by (unfold got; rewrite length_take; unfold want, BUFFER; lia).
  assert (0 < length got)%nat as Hgne.
  { unfold got, want, BUFFER. destruct bs as [|b bs]; [done|].
    destruct (Z.to_nat (1024 - Z.of_nat (length P))) eqn:E; [lia|cbn; lia]. }
  destruct (holds_append buf P got Hb) as (b1 & -> & Hb1); [lia|]. cbn [obind].
  destruct (push_back_spec (drop want bs) evs Ht) as (Ht' & Hin & Hme & Hme0).
  exists (push_back (drop want bs) evs). split; [done|]. split.
  - assert (length bs = length got + length (drop want bs))%nat as Hlen
      by (unfold got; by rewrite <-length_app, take_drop).
    cbn [in_measure sum_list_with]. destruct (drop want bs) as [|x rest] eqn:Ed.
    + rewrite Hme0 by done. cbn in Hlen. unfold in_measure in *. lia.
    + cbn [length] in *. unfold in_measure in *. lia.
  - right. exists got, b1. rewrite length_app, Nat2Z.inj_add. split; [done|]. split; [done|].
    rewrite Hin. unfold got. by rewrite app_assoc, take_drop.
Qed.

(** A turn, with something to read. *)
Lemma client_turn_ok me evs buf P fs outs tail :
  holds buf P → incomplete P → talks evs → evs ≠ [] →
  P ++ in_bytes evs = mjoin fs ++ tail → Forall2 (printable me) fs outs → incomplete tail →
  (turn_squeezes evs buf (Z.of_nat (length P)) ∧ client_turn partial me evs buf (Z.of_nat (length P)) = Fault) ∨
  (¬ turn_squeezes evs buf (Z.of_nat (length P)) ∧
   ∃ outs1 outs2 fs2 buf' p evs', client_turn partial me evs buf (Z.of_nat (length P)) =
      Ret (Goes_on (outs1, buf', Z.of_nat (length p), evs')) ∧
    outs = outs1 ++ outs2 ∧ Forall2 (printable me) fs2 outs2 ∧ holds buf' p ∧ incomplete p ∧ talks evs' ∧
    p ++ in_bytes evs' = mjoin fs2 ++ tail ∧ (in_measure evs' < in_measure evs)%nat).
Proof.
  intros Hb HP Ht Hne HE HF Htail. unfold client_turn, turn_squeezes.
  destruct (client_read_ok evs buf P Hb (incomplete_length P HP) Ht Hne)
    as (evs' & Ht' & Hm & [[-> Hin]|(got & b1 & -> & Hb1 & Hin)]); cbn [obind].
  { right. split; [by intros (? & ? & ? & ? & _)|]. exists [], outs, fs, buf, P, evs'. rewrite Hin. done. }
  assert ((P ++ got) ++ in_bytes evs' = mjoin fs ++ tail) as HE' by (by rewrite <-app_assoc, Hin).
  destruct (split_stream _ _ _ _ HE' (printable_good _ _ _ HF) Htail) as (fs1 & fs2 & p & -> & HB & Hp & HE2).
  apply Forall2_app_inv_l in HF as (outs1 & outs2 & HF1 & HF2 & ->). rewrite HB in *.
  pose proof (mjoin_frames_length _ _ _ HF1) as Hml. pose proof (printable_good _ _ _ HF1) as Hg1.
  destruct (shifts_apart fs1 p) eqn:Hap.
  - right. split.
    + intros (b & B & e & [= <- Hl <-] & Hb' & Hs). rewrite (holds_unique _ _ _ Hb' Hb1) in Hs by lia.
      apply split_squeezed in Hs; congruence.
    + destruct (client_frames_ok me fs1 outs1 HF1 (Z.to_nat (Z.of_nat (length (mjoin fs1 ++ p)))) b1 p Hb1 Hp)
        as (b2 & -> & Hb2); [rewrite length_app; lia|done|].
      cbn [obind]. exists outs1, outs2, fs2, b2, p, evs'. done.
  - left. split.
    + exists b1, (mjoin fs1 ++ p), evs'. split; [done|]. split; [done|]. by apply split_squeezed.
    + by rewrite (client_frames_overlap me fs1 outs1 HF1) by (done || (rewrite length_app; lia)).
Qed.

(** One of the turns that read the events leaves such a buffer. *)
Inductive client_stumbles (me : Z) : list recv_event → buffer → Z → Prop :=
| client_stumbles_now evs buf pos : turn_squeezes evs buf pos → client_stumbles me evs buf pos
| client_stumbles_later evs buf pos outs buf' pos' evs' :
    client_turn partial me evs buf pos = Ret (Goes_on (outs, buf', pos', evs')) →
    client_stumbles me evs' buf' pos' → client_stumbles me evs buf pos.

Lemma client_turns_ok me n : ∀ evs buf P fs outs tail,
  (in_measure evs ≤ n)%nat → holds buf P → incomplete P → talks evs →
  P ++ in_bytes evs = mjoin fs ++ tail → Forall2 (printable me) fs outs → incomplete tail →
  (¬ client_stumbles me evs buf (Z.of_nat (length P)) ∧
   ∃ k buf', (k ≤ n)%nat ∧ client_turns partial k me evs buf (Z.of_nat (length P)) =
    Ret (Goes_on (outs, buf', Z.of_nat (length tail), [])) ∧ holds buf' tail) ∨
  (client_stumbles me evs buf (Z.of_nat (length P)) ∧
   ∃ k, (k ≤ n)%nat ∧ client_turns partial k me evs buf (Z.of_nat (length P)) = Fault).
Proof.
  induction n as [|n IH]; intros evs buf P fs outs tail Hn Hb HP Ht HE HF Htail;
    destruct (decide (evs = [])) as [->|Hne].
  1, 3: left; cbn in HE; rewrite app_nil_r in HE; subst P;
    assert (fs = []) as -> by (eapply incomplete_no_frame; [exact HP|by eapply printable_good]);
    apply Forall2_nil_inv_l in HF as ->; split;
    [pose proof (incomplete_length _ HP) as Hl|exists 0%nat, buf; split_and!; done || lia];
    assert (client_read [] buf (Z.of_nat (length (mjoin [] ++ tail))) = Wait) as Hw
      by (unfold client_read; by rewrite (proj2 (Z.ltb_lt _ _)) by (unfold BUFFER; lia));
    intros Hs; inversion Hs as [? ? ? (? & ? & ? & Hr & _)|? ? ? ? ? ? ? Hr]; subst;
    [by rewrite Hw in Hr|unfold client_turn in Hr; by rewrite Hw in Hr].
  - destruct evs as [|e evs]; [done|]. destruct e; cbn in Hn; lia.
  - destruct (client_turn_ok me evs buf P fs outs tail Hb HP Ht Hne HE HF Htail) as [[Hs Hturn]|(Hns &
      o1 & o2 & fs2 & b1 & p & evs' & Hturn & -> & HF2 & Hb1 & Hp & Ht' & HE2 & Hm)].
    { right. split; [by constructor|]. exists 1%nat. split; [lia|]. cbn [client_turns]. by rewrite Hturn. }
    destruct (IH evs' b1 p fs2 o2 tail) as [(Hns' & k & b2 & Hk & Hrun & Hb2)|(Hs & k & Hk & Hrun)]; try done; [lia| |].
    + left. split.
      * intros Hs. inversion Hs as [|? ? ? ? ? ? ? Hr Hs']; subst; [done|]. rewrite Hturn in Hr.
        by injection Hr as <- <- <- <-.
      * exists (S k), b2. split; [lia|]. cbn [client_turns]. rewrite Hturn. cbn [obind]. rewrite Hrun. done.
    + right. split; [by eapply client_stumbles_later|]. exists (S k). split; [lia|]. cbn [client_turns].
      rewrite Hturn. cbn [obind]. by rewrite Hrun.
Qed.
End client_lemmas.

(** ** Properties *)

(** C37: a test program writes a frame exactly as the server reads it - its first word
    announces its length, its second is the magic number, the rest is the pack - as long
    as the pack takes at most 1016 bytes; a longer one is serialised past the end of the
    buffer on the stack. *)
Theorem client_send_bounds {HC : ImCodec} pack :
  if (length (encode_pack pack) <=? 1016)%nat then
    ∃ f, send_frame pack = Ret f ∧ good_frame f ∧ frame_word f = magic ∧ drop 8 f = encode_pack pack
  else send_frame pack = Fault.
Proof.
  destruct (Nat.leb_spec (length (encode_pack pack)) 1016).
  - exists (client_frame pack). split; [by apply send_frame_ok|by apply client_frame_good].
  - by apply send_frame_overflow.
Qed.

(** C18: whatever chunks the network delivers and however often a read is interrupted,
    the client prints the server's frames one by one, completely and in order, within as
    many turns as there are bytes and events, and what is left in its buffer is the start of
    the next frame; unless a read leaves a frame in the buffer with more bytes behind it than
    it has itself.  Then, and only then, the behaviour is undefined: the bytes are moved to
    the front with a [memcpy] of overlapping ranges. *)
Theorem client_prints_stream {HC : ImCodec} partial me evs fs outs tail
    (Ht : talks evs) (HE : in_bytes evs = mjoin fs ++ tail)
    (HF : Forall2 (printable partial me) fs outs) (Htail : incomplete tail) :
  let run k := client_turns partial k me evs (raw_buffer BUFFER) 0 in
  (¬ client_stumbles partial me evs (raw_buffer BUFFER) 0 ∧
   ∃ k buf', (k ≤ in_measure evs)%nat ∧ run k = Ret (Goes_on (outs, buf', Z.of_nat (length tail), [])) ∧
     holds buf' tail) ∨
  (client_stumbles partial me evs (raw_buffer BUFFER) 0 ∧ ∃ k, (k ≤ in_measure evs)%nat ∧ run k = Fault).
Proof.
  apply (client_turns_ok partial me (in_measure evs) evs (raw_buffer BUFFER) [] fs outs tail); try done.
  - apply raw_holds.
  - exists [0; 0; 0; 4; 0; 0; 0; 0]. split; [done|]. split; [cbn; lia|]. reflexivity.
Qed.

(** The answer to a keep-alive, cut in the middle of its header. *)
Definition wit_ack : ImPack :=
  mkPack (Some IM_TOUCH_ACK)
    (Some (mkContent None (Some (mkTouchRep (Some 7) [])) None None None None [])) (Some 5) [].
Definition wit_ack_frame : list Z := @client_frame plain_codec wit_ack.
Definition wit_events : list recv_event :=
  [RecvData (take 3 wit_ack_frame); RecvEintr; RecvData (drop 3 wit_ack_frame)].

Lemma wit_ack_short : (length (@encode_pack plain_codec wit_ack) ≤ 1016)%nat.
Proof. apply Nat.leb_le. vm_compute. reflexivity. Qed.

Lemma wit_ack_printable : Forall2 (@printable plain_codec (λ _, wit_ack) 7)
  (replicate 3 wit_ack_frame) (replicate 3 (P_touch_ack 5 7)).
Proof.
  destruct (@client_frame_good plain_codec wit_ack wit_ack_short) as (Hg & _ & Hd).
  repeat (constructor; [split; [exact Hg|];
    change (drop 8 wit_ack_frame) with (drop 8 (@client_frame plain_codec wit_ack)); rewrite Hd; vm_compute; reflexivity|]).
  constructor.
Qed.

(** One answer cut in its header is printed; three in one read make the client stumble. *)
Lemma client_prints_stream_witness :
  let run evs k := @client_turns plain_codec (λ _, wit_ack) k 7 evs (raw_buffer BUFFER) 0 in
  (∃ k buf', run wit_events k = Ret (Goes_on ([P_touch_ack 5 7], buf', 0, []))) ∧
  ∃ k, run [RecvData (mjoin (replicate 3 wit_ack_frame))] k = Fault.
Proof.
  pose proof wit_ack_printable as H3. pose proof H3 as H1. apply Forall2_cons in H1 as [H1 _].
  assert (incomplete []) as Hi by (exists [0; 0; 0; 4; 0; 0; 0; 0]; split; [done|]; split; [cbn; lia|reflexivity]).
  intros run. split.
  - destruct (@client_prints_stream plain_codec (λ _, wit_ack) 7 wit_events [wit_ack_frame] [P_touch_ack 5 7] [])
      as [(_ & k & buf' & _ & H & _)|[Hs _]].
    + repeat constructor; vm_compute; discriminate.
    + vm_compute. reflexivity.
    + by constructor.
    + exact Hi.
    + exists k, buf'. exact H.
    + exists 3%nat, (match run wit_events 3%nat with Ret (Goes_on (_, b, _, _)) => b | _ => [] end).
      vm_compute. reflexivity.
  - destruct (@client_prints_stream plain_codec (λ _, wit_ack) 7 [RecvData (mjoin (replicate 3 wit_ack_frame))]
      (replicate 3 wit_ack_frame) (replicate 3 (P_touch_ack 5 7)) []) as [[Hns _]|(_ & k & _ & H)].
    + repeat constructor; vm_compute; discriminate.
    + vm_compute. reflexivity.
    + exact H3.
    + exact Hi.
    + exists 1%nat. vm_compute. reflexivity.
    + exists k. exact H.
Defined.

(** a pack that a client sends is the pack the server's parser gets from the frame. *)
Theorem client_pack_roundtrip {HC : ImCodec} mh pack
    (Hc : complete pack = true) (Hok : codec_ok pack) (Hl : (length (encode_pack pack) ≤ 1016)%nat) :
  ∃ f l mh', send_frame pack = Ret f ∧ createIMessage_frame mh f (Z.of_nat (length f)) = Ret (l, mh') ∧
    parse mh' (Some l) = Ret (Some (mkIPack (Some l) pack None)).
Proof.
  exists (client_frame pack). rewrite (send_frame_ok pack Hl).
  destruct (client_frame_good pack Hl) as (_ & _ & Hd).
  destruct (createIMessage_frame_spec mh (client_frame pack)) as (l & m & E & _ & _ & Hr & _).
  { rewrite length_client_frame. lia. }
  exists l, (<[l := m]> mh). split; [done|]. split; [done|]. unfold parse.
  rewrite (load_Some _ _ _ (lookup_insert_eq _ _ _)). cbn [obind]. rewrite Hr, Hd. cbn [obind].
  rewrite (decode_encode_pack pack Hok Hc) by (unfold short, STREAM_MAX; lia).
  by apply complete_has in Hc as [-> ->].
Qed.

Lemma client_pack_roundtrip_witness :
  ∃ f l mh', @send_frame plain_codec wit_ack = Ret f ∧
    createIMessage_frame ∅ f (Z.of_nat (length f)) = Ret (l, mh') ∧
    @parse plain_codec mh' (Some l) = Ret (Some (mkIPack (Some l) wit_ack None)).
Proof. apply (@client_pack_roundtrip plain_codec ∅ wit_ack); [vm_compute; reflexivity|by apply codec_ok_made|exact wit_ack_short]. Defined.

(** a frame longer than the client's buffer stops it for good: it never reads again and
    turns forever on the same bytes. *)
Theorem long_frame_stalls_client {HC : ImCodec} partial me n evs buf P
    (Hb : holds buf P) (Hl : length P = 1024%nat) (Ha : 1024 < announced_size P < 2 ^ 31) :
  client_turns partial n me evs buf 1024 = Ret (Goes_on ([], buf, 1024, evs)).
Proof.
  assert (client_frame_size buf = Ret (announced_size P - 4)) as Hs.
  { unfold client_frame_size. rewrite <-(take_drop 4 P) in Hb.
    assert (length (take 4 P) = 4%nat) as L4 by (rewrite length_take; lia).
    pose proof (holds_read buf [] (take 4 P) (drop 4 P) Hb) as Hr. rewrite L4 in Hr.
    change (Z.of_nat (length (@nil Z))) with 0 in Hr. change (Z.of_nat 4) with 4 in Hr. rewrite Hr. cbn [obind].
    unfold announced_size in *. set (x := ntohl (le_value (take 4 P))) in *.
    assert (0 ≤ x < 2 ^ 32) as Hx by apply htonl_range.
    assert (u32 (x + 4) = x + 4) as E.
    { unfold u32 in *. destruct (decide (x + 4 < 2 ^ 32)); [apply Z.mod_small; lia|].
      rewrite <-(Z_mod_plus_full _ (-1)), Z.mod_small in Ha by lia. lia. }
    rewrite E in *. rewrite (i32_id x) by lia. rewrite (proj2 (Z.ltb_lt _ _)) by lia. f_equal. lia. }
  assert (∀ fuel, client_frames partial fuel me buf 1024 = Ret ([], buf, 1024)) as Hnone.
  { intros fuel. destruct fuel; cbn [client_frames]; rewrite Hs; cbn [obind];
      rewrite (proj2 (Z.leb_gt (announced_size P - 4 + 4) 1024)) by lia; done. }
  induction n as [|n IH]; [done|]. cbn [client_turns]. unfold client_turn, client_read.
  rewrite (proj2 (Z.ltb_ge 1024 BUFFER)) by (unfold BUFFER; lia). cbn [obind]. rewrite Hnone. cbn [obind].
  by rewrite IH.
Qed.

(** what arrives in the same read behind the answer to [auth] is lost: the next frames,
    or the first part of one. *)
Theorem auth_loses_following_bytes {HC : ImCodec} partial buf P f rest evs rep
    (Hb : holds buf P) (Hf : good_frame f)
    (Hl : (length (f ++ rest) ≤ 1024)%nat)
    (Htype : p_type (got_pack partial (drop 8 f)) = Some IM_AUTH_RESPONSE)
    (Hrep : c_auth_rep (content (got_pack partial (drop 8 f))) = Some rep)
    (Hok : rep_auth_success rep = Some true) :
  auth_loop partial (RecvData (f ++ rest) :: evs) buf 0 = Ret (Goes_on evs, [P_auth_ok]).
Proof.
  destruct Hf as [Hlf Ha]. cbn [auth_loop]. rewrite (proj2 (Z.eqb_neq (BUFFER - 0) 0)) by (unfold BUFFER; lia).
  rewrite take_ge, drop_ge by (unfold BUFFER; lia).
  destruct (holds_start buf P (f ++ rest) Hb Hl) as (b1 & -> & Hb1). cbn [obind].
  destruct (Z.ltb_spec (0 + Z.of_nat (length (f ++ rest))) 4) as [Hlt|_]; [rewrite length_app in Hlt; lia|].
  rewrite (client_frame_size_ok b1 f rest) by (done || lia). cbn [obind]. rewrite Ha.
  rewrite (proj2 (Z.leb_le _ _)) by (rewrite length_app; lia).
  rewrite (client_parse_ok partial b1 f rest) by (done || lia). cbn [obind]. rewrite Htype, Hrep.
  cbn [default from_option id]. change (IM_AUTH_RESPONSE =? IM_AUTH_RESPONSE) with true. cbn [negb obind].
  by rewrite Hok.
Qed.
