(* ===== verification/Locks.v ===== *)
(** Locks and their guards (framework/lib/lock.h; thrift/pilot/lock.h has the same
    classes): a mutex, a readers-writer lock, and the objects whose constructor takes a
    lock and whose destructor gives it back.

    The locks are those of POSIX: a call that has to wait is not enabled, and giving back
    what is not held is undefined.  A thread holds the guards of its open scopes, the
    innermost first. *)
From S2P Require Import Prelude.

Abbreviation tid := nat.

(** ** The locks of POSIX *)
(** [Shared n] has [S n] readers. *)
Inductive rwlock := Free | Shared (more : nat) | Exclusive (t : tid).

Definition pthread_rwlock_rdlock (l : rwlock) : option rwlock :=
  match l with Free => Some (Shared 0) | Shared n => Some (Shared (S n)) | Exclusive _ => None end.
Definition pthread_rwlock_wrlock (t : tid) (l : rwlock) : option rwlock :=
  match l with Free => Some (Exclusive t) | _ => None end.
Definition pthread_rwlock_unlock (t : tid) (l : rwlock) : outcome rwlock :=
  match l with
  | Free => Fault
  | Shared O => Ret Free
  | Shared (S n) => Ret (Shared n)
  | Exclusive u => if (u =? t)%nat then Ret Free else Fault
  end.

(** A mutex is owned by the thread that locked it. *)
Abbreviation mutex := (option tid).
Definition pthread_mutex_lock (t : tid) (l : mutex) : option mutex :=
  match l with None => Some (Some t) | Some _ => None end.
Definition pthread_mutex_unlock (t : tid) (l : mutex) : outcome mutex :=
  match l with Some u => if (u =? t)%nat then Ret None else Fault | None => Fault end.

(** ** Guards *)
Inductive guard := ReaderLock | WriterLock.
#[export] Instance guard_eq : EqDecision guard. Proof. solve_decision. Defined.

(** One lock and the guards of it that are in scope. *)
Record guarded := mkGuarded { gu_lock : rwlock; gu_held : gmap tid (list guard) }.
Definition gu_of (w : guarded) (t : tid) : list guard := default [] (gu_held w !! t).

(** ReaderLock::ReaderLock, WriterLock::WriterLock *)
Definition guard_enter (g : guard) (t : tid) (w : guarded) : option guarded :=
  l ← (match g with ReaderLock => pthread_rwlock_rdlock (gu_lock w) | WriterLock => pthread_rwlock_wrlock t (gu_lock w) end);
  Some (mkGuarded l (<[t := g :: gu_of w t]> (gu_held w))).

(** The end of the innermost scope: ReaderLock::~ReaderLock, WriterLock::~WriterLock *)
Definition guard_leave (t : tid) (w : guarded) : option (outcome guarded) :=
  match gu_of w t with
  | [] => None
  | _ :: gs => Some (let* l := pthread_rwlock_unlock t (gu_lock w) in Ret (mkGuarded l (<[t := gs]> (gu_held w))))
  end.

(** MutexLock::MutexLock, MutexLock::~MutexLock *)
Definition MutexLock_enter (t : tid) (l : mutex) : option mutex := pthread_mutex_lock t l.
Definition MutexLock_leave (t : tid) (l : mutex) : outcome mutex := pthread_mutex_unlock t l.

Inductive guard_step : guarded → outcome guarded → Prop :=
  | step_enter g t w w' : guard_enter g t w = Some w' → guard_step w (Ret w')
  | step_leave t w o : guard_leave t w = Some o → guard_step w o.

Inductive guard_reaches : guarded → Prop :=
  | guard_start : guard_reaches (mkGuarded Free ∅)
  | guard_more w w' : guard_reaches w → guard_step w (Ret w') → guard_reaches w'.

(** ** Invariant *)
(** The guards in scope, in no particular order, with their threads. *)
Definition all_guards (w : guarded) : list (tid * guard) :=
  '(t, gs) ← map_to_list (gu_held w); (λ g, (t, g)) <$> gs.

Definition guard_inv (w : guarded) : Prop :=
  match gu_lock w with
  | Free => all_guards w = []
  | Shared n => length (all_guards w) = S n ∧ Forall (λ p, p.2 = ReaderLock) (all_guards w)
  | Exclusive t => all_guards w = [(t, WriterLock)]
  end.

(** Changing the guards of one thread. *)
Lemma all_guards_insert l held t gs :
  all_guards (mkGuarded l (<[t := gs]> held)) ≡ₚ ((λ g, (t, g)) <$> gs) ++ all_guards (mkGuarded l (delete t held)).
Proof.
  unfold all_guards. cbn [gu_held]. rewrite <-insert_delete_eq.
  rewrite map_to_list_insert by apply lookup_delete_eq. done.
Qed.

Lemma all_guards_delete w t :
  all_guards w ≡ₚ ((λ g, (t, g)) <$> gu_of w t) ++ all_guards (mkGuarded (gu_lock w) (delete t (gu_held w))).
Proof.
  unfold gu_of. destruct (gu_held w !! t) as [gs|] eqn:E; cbn [default].
  - rewrite <-(all_guards_insert (gu_lock w)). unfold all_guards. cbn [gu_held]. by rewrite insert_id.
  - unfold all_guards. cbn [gu_held fmap list_fmap app]. by rewrite delete_id.
Qed.

Lemma guards_push w l t g : all_guards (mkGuarded l (<[t := g :: gu_of w t]> (gu_held w))) ≡ₚ (t, g) :: all_guards w.
Proof. rewrite all_guards_insert, (all_guards_delete w t). done. Qed.

Lemma guards_pop w l t g gs : gu_of w t = g :: gs → all_guards w ≡ₚ (t, g) :: all_guards (mkGuarded l (<[t := gs]> (gu_held w))).
Proof. intros E. rewrite (all_guards_delete w t), E, all_guards_insert. done. Qed.

Lemma guard_enter_inv g t w w' : guard_enter g t w = Some w' → guard_inv w → guard_inv w'.
Proof.
  unfold guard_enter. intros H Hi. apply bind_Some in H as (l & El & [= <-]). unfold guard_inv in *. cbn [gu_lock].
  pose proof (guards_push w l t g) as Hp. destruct g; destruct (gu_lock w) as [|n|u]; simplify_eq/=.
  - rewrite Hi in Hp. apply Permutation_singleton_r in Hp. rewrite Hp. split; [done|by repeat constructor].
  - destruct Hi as [Hl Hf]. rewrite Hp. cbn. split; [lia|]. by constructor.
  - rewrite Hi in Hp. by apply Permutation_singleton_r in Hp.
Qed.

Lemma guard_leave_inv t w o : guard_leave t w = Some o → guard_inv w → ∃ w', o = Ret w' ∧ guard_inv w'.
Proof.
  unfold guard_leave. intros H Hi. destruct (gu_of w t) as [|g gs] eqn:E; [done|]. injection H as <-.
  pose proof (guards_pop w Free t g gs E) as Hp. unfold guard_inv in Hi. destruct (gu_lock w) as [|n|u] eqn:El.
  - rewrite Hi in Hp. by apply Permutation_nil_cons in Hp.
  - destruct Hi as [Hl Hf]. rewrite Hp in Hf. apply Forall_cons in Hf as [_ Hf].
    apply Permutation_length in Hp. rewrite Hl in Hp. cbn [length] in Hp.
    destruct n as [|n]; cbn; eexists; (split; [reflexivity|]); unfold guard_inv; cbn [gu_lock].
    + apply nil_length_inv. lia.
    + split; [unfold all_guards in *; cbn in *; lia|exact Hf].
  - rewrite Hi in Hp. symmetry in Hp. apply Permutation_singleton_r in Hp. injection Hp as -> -> Hn.
    cbn. rewrite Nat.eqb_refl. eexists. split; [reflexivity|]. exact Hn.
Qed.

Lemma guard_reaches_inv w : guard_reaches w → guard_inv w.
Proof.
  induction 1 as [|w w' _ IH Hs]; [done|]. inversion Hs as [g t ? ? He|t ? o Hl]; subst.
  - by eapply guard_enter_inv.
  - destruct (guard_leave_inv _ _ _ Hl IH) as (w2 & [= ->] & Hw). done.
Qed.

Lemma gu_of_all w t g : g ∈ gu_of w t → (t, g) ∈ all_guards w.
Proof. intros Hg. rewrite (all_guards_delete w t), elem_of_app. left. by apply list_elem_of_fmap_2. Qed.

(** ** Properties *)

(** scoped guards are safe.  In any interleaving of scopes of any threads, leaving a
    scope never gives back a lock that is not held, a writer is alone, and when no guard
    is in scope every thread that asks is let in. *)
Theorem guards_exclude w (Hr : guard_reaches w) :
  (∀ o, guard_step w o → ∃ w', o = Ret w') ∧
  (∀ t, WriterLock ∈ gu_of w t → gu_of w t = [WriterLock] ∧ ∀ u, u ≠ t → gu_of w u = []) ∧
  ((∀ t, gu_of w t = []) → ∀ g t, is_Some (guard_enter g t w)).
Proof.
  pose proof (guard_reaches_inv w Hr) as Hi. split; [|split].
  - intros o Hs. destruct Hs as [? ? ? w' _|t w o Hl]; [by eexists|].
    destruct (guard_leave_inv _ _ _ Hl Hi) as (w' & -> & _). by eexists.
  - intros t Ht. pose proof (gu_of_all _ _ _ Ht) as Hin. unfold guard_inv in Hi. destruct (gu_lock w) as [|n|v].
    + rewrite Hi in Hin. set_solver.
    + destruct Hi as [_ Hf]. rewrite Forall_forall in Hf. by specialize (Hf _ Hin).
    + rewrite Hi, list_elem_of_singleton in Hin. injection Hin as ->. split.
      * pose proof (all_guards_delete w v) as Hp. rewrite Hi in Hp. symmetry in Hp. apply Permutation_singleton_r in Hp.
        destruct (gu_of w v) as [|g [|g2 gs]]; [set_solver| |done]. by set_solver.
      * intros u Hu. destruct (gu_of w u) as [|g gs] eqn:Eu; [done|]. exfalso.
        assert ((u, g) ∈ all_guards w) as Hg by (apply gu_of_all; rewrite Eu; set_solver).
        rewrite Hi, list_elem_of_singleton in Hg. congruence.
  - intros Hno g t. assert (all_guards w = []) as Hn.
    { destruct (all_guards w) as [|[u g'] ps] eqn:E; [done|]. exfalso.
      assert ((u, g') ∈ all_guards w) as Hin by (rewrite E; set_solver).
      unfold all_guards in Hin. apply list_elem_of_bind in Hin as ([u' gs] & Hg & Hin).
      apply elem_of_map_to_list in Hin. apply list_elem_of_fmap in Hg as (g2 & [= -> ->] & Hg2).
      specialize (Hno u'). unfold gu_of in Hno. rewrite Hin in Hno. cbn in Hno. subst gs. set_solver. }
    unfold guard_inv in Hi. destruct (gu_lock w) as [|n|v] eqn:El; rewrite Hn in Hi; cbn in Hi; [|by destruct Hi|done].
    unfold guard_enter. rewrite El. by destruct g.
Qed.

Lemma guards_exclude_witness :
  let w := mkGuarded (Exclusive 7) {[7%nat := [WriterLock]]} in
  gu_of w 7 = [WriterLock] ∧ (∀ u, u ≠ 7%nat → gu_of w u = []).
Proof.
  refine (proj1 (proj2 (guards_exclude (mkGuarded (Exclusive 7) {[7%nat := [WriterLock]]}) _)) 7%nat _).
  - apply (guard_more (mkGuarded Free ∅)); [apply guard_start|]. by apply (step_enter WriterLock 7).
  - apply list_elem_of_singleton. reflexivity.
Defined.

(** Guards do not nest: a reader that opens a scope as a writer waits for itself. *)
Example upgrade_waits_for_itself w t :
  guard_reaches w → ReaderLock ∈ gu_of w t → guard_enter WriterLock t w = None.
Proof.
  intros Hr Hg%gu_of_all. pose proof (guard_reaches_inv w Hr) as Hi. unfold guard_inv in Hi. unfold guard_enter.
  destruct (gu_lock w) as [|n|u]; [|done..]. rewrite Hi in Hg. set_solver.
Qed.
