(* ===== verification/OnceInit.v ===== *)
(** Objects that are made at first use: util::TLS (framework/lib/TLS.h), an object per
    thread, and SingletonAdapter with ObjectLifeCycleManager (thrift/pilot), one object
    for all threads.

    Both test a flag without the lock, then again with it.  The two classes are step
    relations in which the threads interleave after every access of shared data; memory
    is taken to be sequentially consistent, as [volatile] on the machines the program
    is for. *)
From S2P Require Import Prelude Heap Locks.

(** A map after one entry was changed. *)
Lemma lookup_set_pc {A} t (pc : option A) u (m : gmap tid A) :
  partial_alter (λ _, pc) t m !! u = if decide (u = t) then pc else m !! u.
Proof. case_decide; subst; [by rewrite lookup_partial_alter_eq|by rewrite lookup_partial_alter_ne]. Qed.

(** ** Thread-local storage *)
Module Tls.
(** Where a thread is in [ts_get]. *)
Inductive get_pc :=
| At_once            (** [if (once_ == 0)] of [ts_get] *)
| At_lock            (** [pthread_mutex_lock] of [ts_init] *)
| At_check           (** [if (once_ == 0)] of [ts_init], and [pthread_key_create] *)
| At_set             (** [once_ = 1] *)
| At_unlock (r : bool)
| At_get             (** [pthread_getspecific] *)
| At_new.            (** [new TYPE()] and [pthread_setspecific] *)

(** [tl_keys] are the keys that exist, [tl_vals] the values of the keys in the threads
    and [tl_objs] the objects that are not deleted; [tl_got] is what [ts_get] last
    returned to a thread. *)
Record TLS := mkTLS {
  tl_once : bool; tl_key : Z; tl_mutex : mutex;
  tl_keys : gset Z; tl_vals : gmap (Z * tid) loc; tl_objs : gset loc;
  tl_pc : gmap tid get_pc; tl_got : gmap tid loc }.

Definition set_pc (t : tid) (pc : option get_pc) (s : TLS) : TLS :=
  mkTLS (tl_once s) (tl_key s) (tl_mutex s) (tl_keys s) (tl_vals s) (tl_objs s) (partial_alter (λ _, pc) t (tl_pc s)) (tl_got s).
Definition set_once (s : TLS) : TLS :=
  mkTLS true (tl_key s) (tl_mutex s) (tl_keys s) (tl_vals s) (tl_objs s) (tl_pc s) (tl_got s).
Definition set_mutex (m : mutex) (s : TLS) : TLS :=
  mkTLS (tl_once s) (tl_key s) m (tl_keys s) (tl_vals s) (tl_objs s) (tl_pc s) (tl_got s).
(** [pthread_key_create(&key_, cleanup)] *)
Definition key_create (k : Z) (s : TLS) : TLS :=
  mkTLS (tl_once s) k (tl_mutex s) ({[k]} ∪ tl_keys s) (tl_vals s) (tl_objs s) (tl_pc s) (tl_got s).
(** [pthread_setspecific(key_, l)] with a new object *)
Definition setspecific (t : tid) (l : loc) (s : TLS) : TLS :=
  mkTLS (tl_once s) (tl_key s) (tl_mutex s) (tl_keys s) (<[(tl_key s, t) := l]> (tl_vals s)) ({[l]} ∪ tl_objs s)
    (tl_pc s) (tl_got s).
(** [ts_get] returns [l]. *)
Definition return_obj (t : tid) (l : loc) (s : TLS) : TLS :=
  mkTLS (tl_once s) (tl_key s) (tl_mutex s) (tl_keys s) (tl_vals s) (tl_objs s)
    (delete t (tl_pc s)) (<[t := l]> (tl_got s)).

(** TLS::TLS without an object *)
Definition TLS_new : TLS := mkTLS false 0 None ∅ ∅ ∅ ∅ ∅.

(** TLS::TLS with an object for the thread that makes it: [key_ok] and [set_ok] are the
    answers of the two calls.  An object that could not be stored stays the caller's. *)
Definition TLS_new_with (key_ok set_ok : bool) (k : Z) (l : loc) (t : tid) : TLS :=
  if key_ok then
    let s := set_once (key_create k TLS_new) in if set_ok then setspecific t l s else s
  else TLS_new.

(** A step of [ts_init]: [ok] is the answer of [pthread_key_create], [k] the key. *)
Definition ts_init_step (ok : bool) (k : Z) (t : tid) (pc : get_pc) (s : TLS) : option (outcome TLS) :=
  match pc with
  | At_lock => m ← pthread_mutex_lock t (tl_mutex s); Some (Ret (set_pc t (Some At_check) (set_mutex m s)))
  | At_check =>
      Some (Ret (if tl_once s then set_pc t (Some (At_unlock true)) s
                 else if ok then set_pc t (Some At_set) (key_create k s)
                 else set_pc t (Some (At_unlock false)) s))
  | At_set => Some (Ret (set_pc t (Some (At_unlock true)) (set_once s)))
  | At_unlock r =>
      Some (let* m := pthread_mutex_unlock t (tl_mutex s) in
            Ret (set_pc t (if r then Some At_get else None) (set_mutex m s)))
  | _ => None
  end.

(** A step of [ts_get]: [ok] is the answer of the POSIX call in it, [k] the key or [l]
    the address it gives. *)
Definition ts_get_step (ok : bool) (k : Z) (l : loc) (t : tid) (s : TLS) : option (outcome TLS) :=
  match tl_pc s !! t with
  | None => Some (Ret (set_pc t (Some At_once) s))
  | Some At_once => Some (Ret (set_pc t (Some (if tl_once s then At_get else At_lock)) s))
  | Some At_get =>
      Some (if bool_decide (tl_key s ∈ tl_keys s) then
              Ret (match tl_vals s !! (tl_key s, t) with
                   | Some l => return_obj t l s
                   | None => set_pc t (Some At_new) s
                   end)
            else Fault)
  | Some At_new =>
      Some (Ret (if ok then return_obj t l (setspecific t l s) else set_pc t None s))
  | Some pc => ts_init_step ok k t pc s
  end.

(** The thread ends: [cleanup] deletes its object. *)
Definition thread_exit (t : tid) (s : TLS) : option TLS :=
  match tl_pc s !! t with
  | Some _ => None
  | None =>
      Some (mkTLS (tl_once s) (tl_key s) (tl_mutex s) (tl_keys s) (delete (tl_key s, t) (tl_vals s))
              (match tl_vals s !! (tl_key s, t) with Some l => tl_objs s ∖ {[l]} | None => tl_objs s end)
              (tl_pc s) (delete t (tl_got s)))
  end.

(** TLS::~TLS: the key goes, and no destructor is called for its values. *)
Definition TLS_delete (s : TLS) : TLS :=
  mkTLS (tl_once s) (tl_key s) (tl_mutex s) (if tl_once s then tl_keys s ∖ {[tl_key s]} else tl_keys s)
    (if tl_once s then filter (λ p, p.1.1 ≠ tl_key s) (tl_vals s) else tl_vals s) (tl_objs s) (tl_pc s) (tl_got s).

Inductive tls_step : TLS → outcome TLS → Prop :=
  | tls_get ok k l t s o : k ∉ tl_keys s → l ∉ tl_objs s → ts_get_step ok k l t s = Some o → tls_step s o
  | tls_exit t s s' : thread_exit t s = Some s' → tls_step s (Ret s').

Inductive tls_reaches : TLS → Prop :=
  | tls_start : tls_reaches TLS_new
  | tls_start_with key_ok set_ok k l t : tls_reaches (TLS_new_with key_ok set_ok k l t)
  | tls_more s s' : tls_reaches s → tls_step s (Ret s') → tls_reaches s'.

(** *** Invariant *)
Definition holds_lock (pc : get_pc) : bool := match pc with At_check | At_set | At_unlock _ => true | _ => false end.
Definition after_init (pc : get_pc) : bool := match pc with At_unlock true | At_get | At_new => true | _ => false end.

Record tls_inv (s : TLS) : Prop := {
  ti_mutex : ∀ t, tl_mutex s = Some t ↔ ∃ pc, tl_pc s !! t = Some pc ∧ holds_lock pc;
  ti_set : ∀ t, tl_pc s !! t = Some At_set → tl_once s = false ∧ tl_keys s = {[tl_key s]};
  ti_once : tl_once s = true → tl_keys s = {[tl_key s]};
  ti_none : tl_once s = false → (∃ t, tl_pc s !! t = Some At_set) ∨ tl_keys s = ∅;
  ti_after : ∀ t pc, tl_pc s !! t = Some pc → after_init pc → tl_once s = true;
  ti_vals : ∀ k t l, tl_vals s !! (k, t) = Some l → tl_once s = true ∧ k = tl_key s ∧ l ∈ tl_objs s;
  ti_inj : ∀ x y l, tl_vals s !! x = Some l → tl_vals s !! y = Some l → x = y;
  ti_objs : ∀ l, l ∈ tl_objs s → ∃ x, tl_vals s !! x = Some l;
  ti_got : ∀ t l, tl_got s !! t = Some l → tl_vals s !! (tl_key s, t) = Some l;
  ti_new : ∀ t, tl_pc s !! t = Some At_new → tl_vals s !! (tl_key s, t) = None }.


Lemma tls_new_inv : tls_inv TLS_new.
Proof. split; cbn; try done; [|by right]. intros t. split; [done|]. by intros (? & ? & _). Qed.

Lemma tls_new_with_inv key_ok set_ok k l t : tls_inv (TLS_new_with key_ok set_ok k l t).
Proof.
  destruct key_ok; [|apply tls_new_inv]. assert (∀ u, @lookup _ get_pc _ _ u (∅ : gmap tid get_pc) = None) as He by done.
  destruct set_ok; split; cbn; try done; try (intros u; split; [done|]; by intros (? & ? & _)); try set_solver.
  - intros k' u l'. rewrite lookup_insert_Some. intros [[[= <- <-] <-]|[_ H]]; [set_solver|done].
  - intros x y l'. rewrite !lookup_insert_Some. intros [[<- <-]|[_ Hx]] [[<- ?]|[_ Hy]]; done.
  - intros l' Hl. exists (k, t). rewrite lookup_insert_eq. set_solver.
Qed.

(** Only the place of one thread changes, outside the lock. *)
Lemma inv_move s t pc :
  tls_inv s → (∀ p, tl_pc s !! t = Some p → holds_lock p = false) →
  match pc with
  | None | Some At_once | Some At_lock => True
  | Some At_get => tl_once s = true
  | Some At_new => tl_once s = true ∧ tl_vals s !! (tl_key s, t) = None
  | _ => False
  end → tls_inv (set_pc t pc s).
Proof.
  intros [Hm Hs Ho Hn Ha Hv Hj Hb Hg Hw] Hold Hpc. split; cbn; try done.
  - intros u. rewrite Hm, lookup_set_pc. case_decide; [subst u|done]. split.
    + intros (p & Ep & Hp). by rewrite (Hold _ Ep) in Hp.
    + intros (p & -> & Hp). by destruct p.
  - intros u. rewrite lookup_set_pc. case_decide; [intros ->; done|apply Hs].
  - intros H. destruct (Hn H) as [[u Hu]|]; [left|by right]. exists u. rewrite lookup_set_pc. case_decide; [|done].
    subst u. by specialize (Hold _ Hu).
  - intros u p. rewrite lookup_set_pc. case_decide; [|apply Ha]. intros -> Hp. destruct p as [| | | |[]| |]; naive_solver.
  - intros u. rewrite lookup_set_pc. case_decide; [subst u; intros ->; naive_solver|apply Hw].
Qed.

(** Only one thread is between [lock] and [unlock]. *)
Lemma one_holder s t u p q :
  tls_inv s → tl_pc s !! t = Some p → holds_lock p → tl_pc s !! u = Some q → holds_lock q → u = t.
Proof.
  intros Hi Ht Hp Hu Hq. assert (tl_mutex s = Some t) as E1 by (apply (ti_mutex s Hi); eauto).
  assert (tl_mutex s = Some u) as E2 by (apply (ti_mutex s Hi); eauto). congruence.
Qed.

Lemma inv_lock s t : tls_inv s → tl_mutex s = None → tl_pc s !! t = Some At_lock →
  tls_inv (set_pc t (Some At_check) (set_mutex (Some t) s)).
Proof.
  intros Hi Em Et. pose proof Hi as [Hm Hs Ho Hn Ha Hv Hj Hb Hg Hw].
  assert (∀ u p, tl_pc s !! u = Some p → holds_lock p = false) as Hno.
  { intros u p Hu. destruct (holds_lock p) eqn:Hp; [|done]. exfalso.
    assert (tl_mutex s = Some u) by (apply Hm; exists p; by rewrite Hp). congruence. }
  split; cbn; try done.
  - intros u. rewrite lookup_set_pc. case_decide; [subst u; split; [by eexists|done]|]. split; [by intros [= ->]|].
    intros (p & Hp & Hl). by rewrite (Hno _ _ Hp) in Hl.
  - intros u. rewrite lookup_set_pc. case_decide; [done|apply Hs].
  - intros H. destruct (Hn H) as [[u Hu]|]; [|by right]. by specialize (Hno _ _ Hu).
  - intros u p. rewrite lookup_set_pc. case_decide; [by intros [= <-]|apply Ha].
  - intros u. rewrite lookup_set_pc. case_decide; [done|apply Hw].
Qed.

(** The thread that has the lock moves on, and keeps it. *)
Lemma inv_check s t r : tls_inv s → tl_pc s !! t = Some At_check → (r = true → tl_once s = true) →
  tls_inv (set_pc t (Some (At_unlock r)) s).
Proof.
  intros Hi Et Hr. pose proof Hi as [Hm Hs Ho Hn Ha Hv Hj Hb Hg Hw]. split; cbn; try done.
  - intros u. rewrite Hm, lookup_set_pc. case_decide; [subst u|done]. rewrite Et. split; intros _; by eexists.
  - intros u. rewrite lookup_set_pc. case_decide; [done|apply Hs].
  - intros H. destruct (Hn H) as [[u Hu]|]; [|by right].
    assert (u = t) as -> by (by eapply one_holder). congruence.
  - intros u p. rewrite lookup_set_pc. case_decide; [|apply Ha]. intros [= <-]. destruct r; [naive_solver|done].
  - intros u. rewrite lookup_set_pc. case_decide; [done|apply Hw].
Qed.

Lemma inv_create s t k : tls_inv s → tl_pc s !! t = Some At_check → tl_once s = false →
  tls_inv (set_pc t (Some At_set) (key_create k s)).
Proof.
  intros Hi Et Eo. pose proof Hi as [Hm Hs Ho Hn Ha Hv Hj Hb Hg Hw].
  assert (tl_keys s = ∅) as Ek.
  { destruct (Hn Eo) as [[u Hu]|]; [|done]. assert (u = t) as -> by (by eapply one_holder). congruence. }
  assert (tl_vals s = ∅) as Ev.
  { apply map_empty. intros [k' u]. destruct (tl_vals s !! (k', u)) eqn:E; [|done]. destruct (Hv _ _ _ E). congruence. }
  split; cbn; try done.
  - intros u. rewrite Hm, lookup_set_pc. case_decide; [subst u|done]. rewrite Et. split; intros _; by eexists.
  - intros u _. split; [done|]. rewrite Ek. set_solver.
  - congruence.
  - intros _. left. exists t. by rewrite lookup_set_pc, decide_True.
  - intros u p. rewrite lookup_set_pc. case_decide; [by intros [= <-]|apply Ha].
  - intros k' u l. rewrite Ev. by rewrite lookup_empty.
  - intros u l H%Hg. by rewrite Ev, lookup_empty in H.
  - intros u _. by rewrite Ev.
Qed.

Lemma inv_set_once s t : tls_inv s → tl_pc s !! t = Some At_set → tls_inv (set_pc t (Some (At_unlock true)) (set_once s)).
Proof.
  intros Hi Et. pose proof Hi as [Hm Hs Ho Hn Ha Hv Hj Hb Hg Hw]. destruct (Hs t Et) as [Eo Ek].
  assert (∀ k u l, tl_vals s !! (k, u) = Some l → False) as Hnone by (intros k u l H; destruct (Hv _ _ _ H); congruence).
  split; cbn; try done.
  - intros u. rewrite Hm, lookup_set_pc. case_decide; [subst u|done]. rewrite Et. split; intros _; by eexists.
  - intros u. rewrite lookup_set_pc. case_decide; [done|]. intros Hu.
    assert (u = t) by (by eapply one_holder). done.
  - intros k u l H. by apply Hnone in H.
  - intros u. rewrite lookup_set_pc. case_decide; [done|apply Hw].
Qed.

Lemma inv_unlock s t r : tls_inv s → tl_pc s !! t = Some (At_unlock r) →
  tl_mutex s = Some t ∧ tls_inv (set_pc t (if r then Some At_get else None) (set_mutex None s)).
Proof.
  intros Hi Et. pose proof Hi as [Hm Hs Ho Hn Ha Hv Hj Hb Hg Hw].
  assert (tl_mutex s = Some t) as Em by (apply Hm; by eexists). split; [done|]. split; cbn; try done.
  - intros u. rewrite lookup_set_pc. split; [done|]. intros (p & Hp & Hl). case_decide.
    + destruct r; [|done]. by injection Hp as <-.
    + by assert (u = t) by (by eapply one_holder).
  - intros u. rewrite lookup_set_pc. case_decide; [by destruct r|apply Hs].
  - intros H. destruct (Hn H) as [[u Hu]|]; [|by right]. assert (u = t) as -> by (by eapply one_holder). congruence.
  - intros u p. rewrite lookup_set_pc. case_decide; [|apply Ha]. destruct r; [|done]. intros _ _. by eapply Ha.
  - intros u. rewrite lookup_set_pc. case_decide; [by destruct r|apply Hw].
Qed.

(** [ts_get] returns the object of its thread. *)
Lemma inv_return s t l p : tls_inv s → tl_pc s !! t = Some p → holds_lock p = false →
  tl_vals s !! (tl_key s, t) = Some l → tls_inv (return_obj t l s).
Proof.
  intros Hi Et Hp El. assert (tls_inv (set_pc t None s)) as [Hm Hs Ho Hn Ha Hv Hj Hb Hg Hw].
  { apply inv_move; [done| |done]. intros q Hq. by simplify_eq. }
  assert (partial_alter (λ _, None) t (tl_pc s) = delete t (tl_pc s)) as Ed by done.
  cbn in *. rewrite Ed in *. split; cbn; try done.
  intros u l'. rewrite lookup_insert_Some. intros [[<- <-]|[_ H]]; [done|by apply Hg].
Qed.

Lemma inv_setspecific s t l : tls_inv s → tl_pc s !! t = Some At_new → l ∉ tl_objs s →
  tls_inv (return_obj t l (setspecific t l s)).
Proof.
  intros Hi Et Hl. pose proof Hi as [Hm Hs Ho Hn Ha Hv Hj Hb Hg Hw]. pose proof (Hw t Et) as Ev.
  assert (tl_once s = true) as Eo by (by eapply Ha).
  assert (∀ x, tl_vals s !! x = Some l → False) as Hfresh by (intros [k u] H; by destruct (Hv _ _ _ H) as (_ & _ & ?)).
  split; cbn; try done.
  - intros u. rewrite Hm. setoid_rewrite lookup_delete_Some. split.
    + intros (p & Hp & Hq). exists p. split; [|done]. split; [|done]. intros ->. rewrite Et in Hp. by injection Hp as <-.
    + intros (p & [_ Hp] & Hq). by exists p.
  - intros u [_ Hu]%lookup_delete_Some. by apply Hs in Hu.
  - congruence.
  - intros k u l'. rewrite lookup_insert_Some. intros [[[= <- <-] <-]|[_ H]]; [set_solver|].
    destruct (Hv _ _ _ H) as (? & ? & ?). set_solver.
  - intros x y l'. rewrite !lookup_insert_Some. intros [[<- <-]|[_ Hx]] [[<- ?]|[_ Hy]]; subst; [done|..].
    + by apply Hfresh in Hy.
    + by apply Hfresh in Hx.
    + by eapply Hj.
  - intros l' [->%elem_of_singleton|H]%elem_of_union; [eexists; apply lookup_insert_eq|].
    destruct (Hb _ H) as [x Hx]. exists x. rewrite lookup_insert_ne; [done|]. intros <-. congruence.
  - intros u l'. rewrite lookup_insert_Some. intros [[<- <-]|[Hne H]]; [apply lookup_insert_eq|].
    rewrite lookup_insert_ne; [by apply Hg|]. congruence.
  - intros u [Hne Hu]%lookup_delete_Some. rewrite lookup_insert_ne; [by apply Hw|]. congruence.
Qed.

Lemma inv_exit s t s' : tls_inv s → thread_exit t s = Some s' → tls_inv s'.
Proof.
  intros Hi. unfold thread_exit. destruct (tl_pc s !! t) eqn:Et; [done|]. intros [= <-].
  pose proof Hi as [Hm Hs Ho Hn Ha Hv Hj Hb Hg Hw]. split; cbn; try done.
  - intros k u l [Hne H]%lookup_delete_Some. destruct (Hv _ _ _ H) as (? & -> & Hl). split; [done|]. split; [done|].
    destruct (tl_vals s !! (tl_key s, t)) as [l'|] eqn:E; [|done]. apply elem_of_difference. split; [done|].
    rewrite elem_of_singleton. intros ->. by specialize (Hj _ _ _ H E).
  - intros x y l [_ Hx]%lookup_delete_Some [_ Hy]%lookup_delete_Some. by eapply Hj.
  - intros l Hl. destruct (tl_vals s !! (tl_key s, t)) as [l'|] eqn:E.
    + apply elem_of_difference in Hl as [Hl Hne]. destruct (Hb _ Hl) as [x Hx]. exists x.
      rewrite lookup_delete_ne; [done|]. intros <-. rewrite E in Hx. set_solver.
    + destruct (Hb _ Hl) as [x Hx]. exists x. rewrite lookup_delete_ne; [done|]. intros <-. congruence.
  - intros u l [Hne H]%lookup_delete_Some. rewrite lookup_delete_ne; [by apply Hg|]. congruence.
  - intros u Hu. apply lookup_delete_None. right. by apply Hw.
Qed.

Lemma ts_get_step_inv ok k l t s o : tls_inv s → l ∉ tl_objs s →
  ts_get_step ok k l t s = Some o → ∃ s', o = Ret s' ∧ tls_inv s'.
Proof.
  intros Hi Hl. unfold ts_get_step, ts_init_step. destruct (tl_pc s !! t) as [[| | | |r| |]|] eqn:Et.
  - intros [= <-]. eexists. split; [done|]. apply inv_move; [done|naive_solver|]. by destruct (tl_once s) eqn:E.
  - intros (m & Em & [= <-])%bind_Some. eexists. split; [done|]. destruct (tl_mutex s) eqn:E; [done|].
    injection Em as <-. by apply inv_lock.
  - intros [= <-]. eexists. split; [done|]. destruct (tl_once s) eqn:E; [by apply inv_check|].
    destruct ok; [by apply inv_create|by apply inv_check].
  - intros [= <-]. eexists. split; [done|]. by apply inv_set_once.
  - intros [= <-]. destruct (inv_unlock s t r Hi Et) as [Em Hi']. unfold pthread_mutex_unlock.
    rewrite Em, Nat.eqb_refl. cbn [obind]. eauto.
  - intros [= <-]. assert (tl_once s = true) as Eo by (by eapply (ti_after s Hi)).
    rewrite bool_decide_eq_true_2 by (rewrite (ti_once s Hi Eo); set_solver). eexists. split; [done|].
    destruct (tl_vals s !! (tl_key s, t)) as [l'|] eqn:E; [by eapply inv_return|].
    apply inv_move; [done|naive_solver|done].
  - intros [= <-]. eexists. split; [done|]. destruct ok; [by apply inv_setspecific|].
    apply inv_move; [done|naive_solver|done].
  - intros [= <-]. eexists. split; [done|]. apply inv_move; [done|naive_solver|done].
Qed.

Lemma tls_reaches_inv s : tls_reaches s → tls_inv s.
Proof.
  induction 1 as [|key_ok set_ok k l t|s s' _ IH Hs]; [apply tls_new_inv|apply tls_new_with_inv|].
  inversion Hs as [ok k l t ? o _ Hl Hst|t ? ? Hx]; subst.
  - destruct (ts_get_step_inv _ _ _ _ _ _ IH Hl Hst) as (s2 & [= ->] & Hi). done.
  - by eapply inv_exit.
Qed.

(** What a thread was given stays its own until it ends. *)
Lemma ts_get_keeps ok k l t s s' u l' : tls_inv s →
  ts_get_step ok k l t s = Some (Ret s') → tl_got s !! u = Some l' → tl_got s' !! u = Some l'.
Proof.
  intros Hi Hst Hg. pose proof (ti_got s Hi _ _ Hg) as Hv. pose proof (ti_new s Hi t) as Hw.
  unfold ts_get_step, ts_init_step in Hst. destruct (tl_pc s !! t) as [[| | | |r| |]|] eqn:Et; simplify_eq/=; try done.
  - apply bind_Some in Hst as (m & _ & [= <-]). done.
  - by repeat case_match; simplify_eq/=.
  - unfold pthread_mutex_unlock in Hst. by repeat case_match; simplify_eq/=.
  - case_bool_decide; simplify_eq/=. destruct (tl_vals s !! (tl_key s, t)) as [l2|] eqn:E; [|done]. cbn.
    rewrite lookup_insert_Some. destruct (decide (t = u)); [subst|auto]. left. split; congruence.
  - destruct ok; [|done]. cbn. rewrite lookup_insert_ne; [done|]. intros ->. specialize (Hw eq_refl). congruence.
Qed.

(** C35: an object per thread.  However the threads interleave, and whatever calls of
    POSIX fail: no call is made with a key that does not exist, at most one key is ever
    made, an object that [ts_get] gave to a thread is alive and given to no other
    thread, every later [ts_get] of the thread gives the same one, and no object is left
    over when its thread ends. *)
Theorem tls_object_per_thread s (Hr : tls_reaches s) :
  (∀ o, tls_step s o → ∃ s', o = Ret s') ∧
  (size (tl_keys s) ≤ 1)%nat ∧
  (∀ t l, tl_got s !! t = Some l → l ∈ tl_objs s ∧ ∀ u, tl_got s !! u = Some l → u = t) ∧
  (∀ ok k x t s' u l, ts_get_step ok k x t s = Some (Ret s') → tl_got s !! u = Some l → tl_got s' !! u = Some l) ∧
  (∀ l, l ∈ tl_objs s → ∃ t, tl_vals s !! (tl_key s, t) = Some l).
Proof.
  pose proof (tls_reaches_inv s Hr) as Hi. split_and!.
  - intros o Hs. destruct Hs as [ok k l t s o _ Hl Hst|]; [|by eexists].
    destruct (ts_get_step_inv _ _ _ _ _ _ Hi Hl Hst) as (s' & -> & _). by eexists.
  - destruct (tl_once s) eqn:E; [rewrite (ti_once s Hi E), size_singleton; lia|].
    destruct (ti_none s Hi E) as [[t Ht]| ->]; [|by rewrite size_empty; lia].
    rewrite (proj2 (ti_set s Hi t Ht)), size_singleton. lia.
  - intros t l Hg%(ti_got s Hi). split; [by destruct (ti_vals s Hi _ _ _ Hg) as (_ & _ & ?)|]. intros u Hu%(ti_got s Hi).
    by pose proof (ti_inj s Hi _ _ _ Hg Hu) as [=].
  - intros. by eapply ts_get_keeps.
  - intros l Hl. destruct (ti_objs s Hi l Hl) as [[k t] Hv]. exists t. by destruct (ti_vals s Hi _ _ _ Hv) as (_ & -> & _).
Qed.

(** Two threads, one of which has made the key and its object. *)
Definition wit_tls : TLS := mkTLS true 5 None {[5]} {[(5, 1%nat) := 9%positive]} {[9%positive]} ∅ {[1%nat := 9%positive]}.

(** Steps of [ts_get], by their arguments. *)
Fixpoint run_gets (args : list (Z * loc * tid)) (s : TLS) : option TLS :=
  match args with
  | [] => Some s
  | (k, l, t) :: args =>
      if bool_decide (k ∉ tl_keys s) && bool_decide (l ∉ tl_objs s) then
        match ts_get_step true k l t s with Some (Ret s) => run_gets args s | _ => None end
      else None
  end.

Lemma run_gets_reaches args s s' : tls_reaches s → run_gets args s = Some s' → tls_reaches s'.
Proof.
  revert s. induction args as [|[[k l] t] args IH]; intros s Hr; cbn; [by intros [= <-]|].
  repeat case_bool_decide; cbn; try done. destruct (ts_get_step true k l t s) as [[s1| | | |]|] eqn:E; try done.
  apply IH. eapply tls_more; [done|]. by apply (tls_get true k l t).
Qed.

Lemma wit_tls_reaches : tls_reaches wit_tls.
Proof.
  apply (run_gets_reaches (replicate 4 (5, 9%positive, 1%nat) ++ replicate 4 (6, 9%positive, 1%nat)) TLS_new);
    [apply tls_start|]. vm_compute. reflexivity.
Qed.

Lemma tls_object_per_thread_witness :
  9%positive ∈ tl_objs wit_tls ∧ ∀ u, tl_got wit_tls !! u = Some 9%positive → u = 1%nat.
Proof. exact (proj1 (proj2 (proj2 (tls_object_per_thread wit_tls wit_tls_reaches))) 1%nat 9%positive eq_refl). Defined.

(** Deleting the storage while a thread still runs leaves its object behind: POSIX calls
    no destructor for a key that is deleted. *)
Example tls_delete_leaks :
  9%positive ∈ tl_objs (TLS_delete wit_tls) ∧ tl_vals (TLS_delete wit_tls) = ∅.
Proof. split; [set_solver|reflexivity]. Qed.
End Tls.

(** ** Singletons *)
Module Singleton.
(** Where a thread is in SingletonAdapter::instance. *)
Inductive inst_pc :=
| At_flag            (** [if(flag_==0)] *)
| At_lock
| At_check           (** [if(singleton_==0)] and [new] *)
| At_register        (** [ObjectLifeCycleManager::at_exit] *)
| At_set             (** [flag_=1] *)
| At_unlock
| At_return.         (** [return &singleton_->instance_] *)

(** [sg_objs] are the objects that exist, [sg_vec] those to be cleaned up at the end, and
    [sg_got] what the threads got. *)
Record adapter := mkAdapter {
  sg_flag : bool; sg_singleton : ptr; sg_mutex : mutex; sg_vec : list loc; sg_objs : gset loc;
  sg_pc : gmap tid inst_pc; sg_got : list loc }.

Definition adapter_new : adapter := mkAdapter false None None [] ∅ ∅ [].
Definition sg_set_pc (t : tid) (pc : inst_pc) (s : adapter) : adapter :=
  mkAdapter (sg_flag s) (sg_singleton s) (sg_mutex s) (sg_vec s) (sg_objs s) (<[t := pc]> (sg_pc s)) (sg_got s).
Definition sg_set_mutex (m : mutex) (s : adapter) : adapter :=
  mkAdapter (sg_flag s) (sg_singleton s) m (sg_vec s) (sg_objs s) (sg_pc s) (sg_got s).
Definition sg_set_flag (s : adapter) : adapter :=
  mkAdapter true (sg_singleton s) (sg_mutex s) (sg_vec s) (sg_objs s) (sg_pc s) (sg_got s).
Definition make (l : loc) (s : adapter) : adapter :=
  mkAdapter (sg_flag s) (Some l) (sg_mutex s) (sg_vec s) ({[l]} ∪ sg_objs s) (sg_pc s) (sg_got s).
Definition at_exit (l : loc) (s : adapter) : adapter :=
  mkAdapter (sg_flag s) (sg_singleton s) (sg_mutex s) (sg_vec s ++ [l]) (sg_objs s) (sg_pc s) (sg_got s).
Definition returns (t : tid) (l : loc) (s : adapter) : adapter :=
  mkAdapter (sg_flag s) (sg_singleton s) (sg_mutex s) (sg_vec s) (sg_objs s) (delete t (sg_pc s)) (l :: sg_got s).

(** A step of SingletonAdapter::instance; [l] is the address [new] gives. *)
Definition instance_step (l : loc) (t : tid) (s : adapter) : option (outcome adapter) :=
  match sg_pc s !! t with
  | None => Some (Ret (sg_set_pc t At_flag s))
  | Some At_flag => Some (Ret (sg_set_pc t (if sg_flag s then At_return else At_lock) s))
  | Some At_lock => m ← MutexLock_enter t (sg_mutex s); Some (Ret (sg_set_pc t At_check (sg_set_mutex m s)))
  | Some At_check =>
      Some (Ret (match sg_singleton s with
                 | None => sg_set_pc t At_register (make l s)
                 | Some _ => sg_set_pc t At_set s
                 end))
  | Some At_register =>
      Some (match sg_singleton s with Some o => Ret (sg_set_pc t At_set (at_exit o s)) | None => Fault end)
  | Some At_set => Some (Ret (sg_set_pc t At_unlock (sg_set_flag s)))
  | Some At_unlock =>
      Some (let* m := MutexLock_leave t (sg_mutex s) in Ret (sg_set_pc t At_return (sg_set_mutex m s)))
  | Some At_return =>
      Some (match sg_singleton s with
            | Some o => if bool_decide (o ∈ sg_objs s) then Ret (returns t o s) else Fault
            | None => Fault
            end)
  end.

Inductive instance_reaches : adapter → Prop :=
  | instance_start : instance_reaches adapter_new
  | instance_more l t s s' : instance_reaches s → l ∉ sg_objs s →
      instance_step l t s = Some (Ret s') → instance_reaches s'.

(** ObjectLifeCycleManager::~ObjectLifeCycleManager: the objects are deleted from the
    last to the first; deleting one twice is undefined. *)
Fixpoint cleanup_all (vec : list loc) (objs : gset loc) : outcome (gset loc) :=
  match vec with
  | [] => Ret objs
  | o :: vec => if bool_decide (o ∈ objs) then cleanup_all vec (objs ∖ {[o]}) else Fault
  end.
Definition manager_destroy (s : adapter) : outcome (gset loc) := cleanup_all (rev (sg_vec s)) (sg_objs s).

Definition sg_holds (pc : inst_pc) : bool :=
  match pc with At_check | At_register | At_set | At_unlock => true | _ => false end.

(** What is true at a place: the object made, registered, the flag set. *)
Definition place_ok (s : adapter) (pc : inst_pc) : Prop :=
  match pc with
  | At_register => ∃ o, sg_singleton s = Some o ∧ sg_vec s = [] ∧ sg_flag s = false
  | At_check => sg_singleton s = None ∨ ∃ o, sg_singleton s = Some o ∧ sg_vec s = [o]
  | At_set | At_unlock => ∃ o, sg_singleton s = Some o ∧ sg_vec s = [o]
  | _ => True
  end ∧
  match pc with At_unlock | At_return => sg_flag s = true | _ => True end.

Record adapter_inv (s : adapter) : Prop := {
  ai_mutex : ∀ t, sg_mutex s = Some t ↔ ∃ pc, sg_pc s !! t = Some pc ∧ sg_holds pc;
  ai_place : ∀ t pc, sg_pc s !! t = Some pc → place_ok s pc;
  ai_free : sg_mutex s = None → place_ok s At_check;
  ai_flag : sg_flag s = true → ∃ o, sg_singleton s = Some o ∧ sg_vec s = [o];
  ai_none : sg_singleton s = None → sg_vec s = [] ∧ sg_objs s = ∅;
  ai_some : ∀ o, sg_singleton s = Some o → sg_objs s = {[o]};
  ai_got : ∀ o, o ∈ sg_got s → sg_singleton s = Some o ∧ sg_flag s = true }.

Lemma sg_one_holder s t u p q : adapter_inv s →
  sg_pc s !! t = Some p → sg_holds p → sg_pc s !! u = Some q → sg_holds q → u = t.
Proof.
  intros Hi Ht Hp Hu Hq. assert (sg_mutex s = Some t) as E1 by (apply (ai_mutex s Hi); eauto).
  assert (sg_mutex s = Some u) as E2 by (apply (ai_mutex s Hi); eauto). congruence.
Qed.

Lemma adapter_new_inv : adapter_inv adapter_new.
Proof.
  split; cbn; try done; [|by split; [left|]|set_solver]. intros t. split; [done|]. by intros (? & ? & _).
Qed.

Lemma sg_lookup_pc t pc u s : sg_pc (sg_set_pc t pc s) !! u = if decide (u = t) then Some pc else sg_pc s !! u.
Proof. apply (lookup_set_pc t (Some pc)). Qed.

(** A thread moves outside the lock. *)
Lemma sg_move_inv s t pc : adapter_inv s → (∀ p, sg_pc s !! t = Some p → sg_holds p = false) →
  match pc with At_flag | At_lock => True | At_return => sg_flag s = true | _ => False end →
  adapter_inv (sg_set_pc t pc s).
Proof.
  intros [Hm Hp Hf Hg Hn Hs Ho] Hold Hpc. split; try done.
  - intros u. rewrite sg_lookup_pc. case_decide; [subst u|apply Hm]. cbn. rewrite Hm. split.
    + intros (p & Ep & Hl). by rewrite (Hold _ Ep) in Hl.
    + intros (p & [= <-] & Hl). by destruct pc.
  - intros u p. rewrite sg_lookup_pc. case_decide; [|apply Hp]. intros [= <-]. by destruct pc.
Qed.

(** The thread with the lock changes the state and keeps the lock. *)
Lemma sg_held_inv s s1 t p q : adapter_inv s → sg_pc s !! t = Some p → sg_holds p → sg_holds q →
  sg_pc s1 = sg_pc s → sg_mutex s1 = sg_mutex s → (sg_flag s = true → sg_flag s1 = true) → place_ok s1 q →
  (sg_flag s1 = true → ∃ o, sg_singleton s1 = Some o ∧ sg_vec s1 = [o]) →
  (sg_singleton s1 = None → sg_vec s1 = [] ∧ sg_objs s1 = ∅) →
  (∀ o, sg_singleton s1 = Some o → sg_objs s1 = {[o]}) →
  (∀ o, o ∈ sg_got s1 → sg_singleton s1 = Some o ∧ sg_flag s1 = true) → adapter_inv (sg_set_pc t q s1).
Proof.
  intros Hi Et Hp Hq Epc Em Hfl Hpl Hflag Hnone Hsome Hgot. split; try done.
  - intros u. rewrite sg_lookup_pc, Epc. cbn. rewrite Em, (ai_mutex s Hi). case_decide; [subst u|done].
    rewrite Et. split; intros _; by eexists.
  - intros u r. rewrite sg_lookup_pc, Epc. case_decide; [by intros [= <-]|]. intros Hu.
    destruct (sg_holds r) eqn:Hr; [by assert (u = t) by (eapply sg_one_holder; [done|exact Et|done|exact Hu|by rewrite Hr])|].
    pose proof (ai_place s Hi u r Hu) as [_ H2]. by destruct r; split; cbn; auto.
  - cbn. rewrite Em. intros H. assert (sg_mutex s = Some t) by (apply (ai_mutex s Hi); by eexists). congruence.
Qed.

Lemma sg_lock_inv s t : adapter_inv s → sg_mutex s = None → sg_pc s !! t = Some At_lock →
  adapter_inv (sg_set_pc t At_check (sg_set_mutex (Some t) s)).
Proof.
  intros Hi Em Et. pose proof Hi as [Hm Hp Hf Hg Hn Hs Ho]. split; try done.
  - intros u. rewrite sg_lookup_pc. cbn. case_decide; [subst u; split; [by eexists|done]|]. split; [by intros [= ->]|].
    intros (p & Hu & Hl). assert (sg_mutex s = Some u) by (apply Hm; by eexists). congruence.
  - intros u p. rewrite sg_lookup_pc. case_decide; [intros [= <-]; by apply Hf|]. apply Hp.
Qed.

Lemma sg_unlock_inv s t : adapter_inv s → sg_pc s !! t = Some At_unlock →
  sg_mutex s = Some t ∧ adapter_inv (sg_set_pc t At_return (sg_set_mutex None s)).
Proof.
  intros Hi Et. pose proof Hi as [Hm Hp Hf Hg Hn Hs Ho].
  assert (sg_mutex s = Some t) as Em by (apply Hm; by eexists). destruct (Hp t _ Et) as [H1 H2]. split; [done|]. split; try done.
  - intros u. rewrite sg_lookup_pc. cbn. split; [done|]. intros (p & Hu & Hl). case_decide; [by injection Hu as <-|].
    by assert (u = t) by (by eapply sg_one_holder).
  - intros u p. rewrite sg_lookup_pc. case_decide; [by intros [= <-]|]. apply Hp.
  - intros _. split; [by right|done].
Qed.

Lemma sg_return_inv s t o : adapter_inv s → sg_pc s !! t = Some At_return → sg_singleton s = Some o → adapter_inv (returns t o s).
Proof.
  intros [Hm Hp Hf Hg Hn Hs Ho] Et Eo. split; try done.
  - intros u. cbn. rewrite Hm. setoid_rewrite lookup_delete_Some. split.
    + intros (p & Hu & Hl). exists p. split; [|done]. split; [|done]. intros ->. by simplify_eq.
    + intros (p & [_ Hu] & Hl). by exists p.
  - intros u p Hu. cbn in Hu. apply lookup_delete_Some in Hu as [_ Hu]. exact (Hp u p Hu).
  - intros x Hx. cbn in Hx. apply elem_of_cons in Hx as [->|Hx]; [|by apply Ho]. split; [done|]. by destruct (Hp t _ Et).
Qed.

Lemma instance_step_inv l t s o : adapter_inv s → l ∉ sg_objs s →
  instance_step l t s = Some o → ∃ s', o = Ret s' ∧ adapter_inv s'.
Proof.
  intros Hi Hl. pose proof Hi as [Hm Hp Hf Hg Hn Hs Ho]. unfold instance_step.
  destruct (sg_pc s !! t) as [[]|] eqn:Et; [..|intros [= <-]; eexists; (split; [done|]); apply sg_move_inv; [done|naive_solver|done]].
  - intros [= <-]. eexists. split; [done|]. apply sg_move_inv; [done|naive_solver|]. by destruct (sg_flag s).
  - intros (m & Em & [= <-])%bind_Some. eexists. split; [done|]. destruct (sg_mutex s) eqn:E; [done|].
    injection Em as <-. by apply sg_lock_inv.
  - intros [= <-]. destruct (Hp t _ Et) as [Hpl _]. eexists. split; [done|].
    destruct (sg_singleton s) as [o|] eqn:Eo.
    + eapply sg_held_inv; try done; [|naive_solver..]. split; [|done]. destruct Hpl as [|Hpl]; [done|]. naive_solver.
    + destruct (Hn eq_refl) as [Hv Hob]. assert (sg_flag s = false) as Efl.
      { destruct (sg_flag s); [|done]. destruct (Hg eq_refl) as (? & ? & _). done. }
      eapply (sg_held_inv s (make l s)); try done; cbn.
      * split; [|done]. by exists l.
      * congruence.
      * intros x [= <-]. rewrite Hob. set_solver.
      * intros x Hx. by destruct (Ho _ Hx).
  - intros [= <-]. destruct (Hp t _ Et) as [(o & Eo & Ev & Efl) _]. rewrite Eo. eexists. split; [done|].
    eapply (sg_held_inv s (at_exit o s)); try done; cbn; rewrite ?Ev, ?Efl; try done.
    + split; [|done]. exists o. cbn. by rewrite Ev.
    + congruence.
  - intros [= <-]. destruct (Hp t _ Et) as [Hpl _]. eexists. split; [done|].
    eapply (sg_held_inv s (sg_set_flag s)); try done; cbn; naive_solver.
  - intros [= <-]. destruct (sg_unlock_inv s t Hi Et) as [Em Hi']. unfold MutexLock_leave, pthread_mutex_unlock.
    rewrite Em, Nat.eqb_refl. cbn [obind]. eauto.
  - intros [= <-]. destruct (Hp t _ Et) as [_ Hfl]. destruct (Hg Hfl) as (o & Eo & _). rewrite Eo.
    rewrite bool_decide_eq_true_2 by (rewrite (Hs o Eo); set_solver). eexists. split; [done|]. by apply sg_return_inv.
Qed.

Lemma instance_reaches_inv s : instance_reaches s → adapter_inv s.
Proof.
  induction 1 as [|l t s s' _ IH Hl Hst]; [apply adapter_new_inv|].
  by destruct (instance_step_inv _ _ _ _ IH Hl Hst) as (s2 & [= ->] & Hi).
Qed.

(** C36: a singleton is made once.  However the threads interleave, no step of [instance]
    touches an object that is not there, at most one object is made, every thread gets
    that one, once a thread has it it is registered for the end exactly once, and then
    cleaning up at any moment deletes every object once. *)
Theorem singleton_made_once s (Hr : instance_reaches s) :
  (∀ l t o, l ∉ sg_objs s → instance_step l t s = Some o → ∃ s', o = Ret s') ∧
  (size (sg_objs s) ≤ 1)%nat ∧
  (∀ o, o ∈ sg_got s → sg_singleton s = Some o ∧ sg_vec s = [o] ∧ manager_destroy s = Ret ∅).
Proof.
  pose proof (instance_reaches_inv s Hr) as Hi. split; [|split].
  - intros l t o Hl Hst. destruct (instance_step_inv _ _ _ _ Hi Hl Hst) as (s' & -> & _). by eexists.
  - destruct (sg_singleton s) as [o|] eqn:E; [rewrite (ai_some s Hi o E), size_singleton; lia|].
    destruct (ai_none s Hi E) as [_ ->]. rewrite size_empty. lia.
  - intros o Ho. destruct (ai_got s Hi o Ho) as [Es Ef]. destruct (ai_flag s Hi Ef) as (o' & Eo' & Ev).
    assert (o' = o) as -> by congruence. split; [done|]. split; [done|].
    unfold manager_destroy. rewrite Ev, (ai_some s Hi o Es). cbn. rewrite bool_decide_eq_true_2 by set_solver.
    f_equal. set_solver.
Qed.

(** Steps of threads, by thread. *)
Fixpoint run_instance (ts : list tid) (l : loc) (s : adapter) : option adapter :=
  match ts with
  | [] => Some s
  | t :: ts =>
      let l := if bool_decide (l ∈ sg_objs s) then fresh (sg_objs s) else l in
      match instance_step l t s with Some (Ret s) => run_instance ts l s | _ => None end
  end.

Lemma run_instance_reaches ts l s s' : instance_reaches s → run_instance ts l s = Some s' → instance_reaches s'.
Proof.
  revert l s. induction ts as [|t ts IH]; intros l s Hr; cbn; [by intros [= <-]|].
  destruct (instance_step _ t s) as [[s1| | | |]|] eqn:E; try done. apply IH. eapply instance_more; [done| |exact E].
  case_bool_decide; [apply is_fresh|done].
Qed.

(** Thread 2 asks while thread 1 is making the object. *)
Definition wit_adapter : adapter :=
  default adapter_new (run_instance [1; 2; 1; 2; 1; 1; 1; 1; 1; 2; 2; 2; 2; 2; 1]%nat 9%positive adapter_new).

Lemma singleton_made_once_witness :
  sg_singleton wit_adapter = Some 9%positive ∧ sg_vec wit_adapter = [9%positive] ∧ manager_destroy wit_adapter = Ret ∅.
Proof.
  refine (proj2 (proj2 (singleton_made_once wit_adapter _)) 9%positive _).
  - apply (run_instance_reaches [1; 2; 1; 2; 1; 1; 1; 1; 1; 2; 2; 2; 2; 2; 1]%nat 9%positive adapter_new); [apply instance_start|].
    vm_compute. reflexivity.
  - apply (bool_decide_unpack _). vm_compute. exact I.
Defined.
End Singleton.
