(* ===== verification/ThreadLife.v ===== *)
(** How long a thread object and its work live: util::Runnable and util::Thread
    (framework/lib/thread.h), the destructor, [stop] and [join] of a thread and
    [newThread] (framework/lib/posix_thread_factory.cpp), and the [run] every class with
    a thread of its own has (IoApp::run and its copies, IoAccept::run).

    [run] wraps the class's raw pointer [_core] in a [shared_ptr], gives it to a new
    thread object and lets both go out of scope, so that the thread keeps itself alive.
    A [shared_ptr] is a flag here that says it points to its object; the object is
    deleted when the last flag goes. *)
From S2P Require Import Prelude Threads.

(** ** Joining *)
(** The members of PthreadThread [stop] and [join] read; [_thread_id] is not initialised. *)
Record thread_handle := mkHandle { th_id : option Z; th_state : STATE; th_detached : bool }.
Definition INVALID_THREAD_ID : Z := 0.

(** Where a call of [join] ends: in a return, or in the end of the calling thread. *)
Inductive join_result := Joined (h : thread_handle) | Thread_exits.

(** [self] is the calling thread, [ended] says that the other one has ended. *)
Definition PthreadThread_join (self : Z) (ended : bool) (h : thread_handle) : outcome join_result :=
  if negb (th_detached h) && negb (bool_decide (th_state h = UNINIT)) then
    let* id := defined (th_id h) in
    if id =? self then Ret Thread_exits
    else if id =? INVALID_THREAD_ID then Fault
    else if ended then Ret (Joined (mkHandle (Some INVALID_THREAD_ID) (th_state h) (th_detached h)))
    else Wait
  else Ret (Joined h).

(** [stop] is [runnable()->stop()], which is [answer]. *)
Definition PthreadThread_stop (answer : Z) (h : thread_handle) : Z :=
  if negb (bool_decide (th_state h = UNINIT)) then answer else 0.

(** PthreadThread::~PthreadThread, up to the release of the runnable *)
Definition PthreadThread_delete (self : Z) (ended : bool) (h : thread_handle) : outcome join_result :=
  let* id := defined (th_id h) in
  if negb (id =? INVALID_THREAD_ID) then PthreadThread_join self ended h else Ret (Joined h).

(** ** Life times *)
(** Where the caller of [run] is. *)
Inductive run_pc :=
| Run_begin
| Run_core       (** [shared_ptr<Runnable> core(_core)] is made *)
| Run_thread     (** [thread = ptf.newThread(core)] is made *)
| Run_wait       (** in [thread->run()], waiting for the thread *)
| Run_drop       (** [thread->run()] has returned: [thread] goes, *)
| Run_drop_core  (** and [core] *)
| Run_done.
(** Where the thread is in [thread_fun]. *)
Inductive fun_pc := Fun_begin | Fun_call | Fun_running | Fun_leave | Fun_end.

(** [lf_heap], [lf_local], [lf_global] and [lf_this] are the [shared_ptr]s to the thread
    object: the one made for [pthread_create], the variable of [run], the global variable
    [io_thread], and [this_thread].  [lf_core], [lf_bound] and [lf_temp] are those to the
    runnable: the variable of [run], the member of the thread object, and the result of
    [runnable()] during the call.  [lf_thread_gone] and [lf_core_gone] count deletions. *)
Record life := mkLife {
  lf_caller : run_pc; lf_fun : option fun_pc;
  lf_heap : bool; lf_local : bool; lf_global : bool; lf_this : bool;
  lf_core : bool; lf_bound : bool; lf_temp : bool;
  lf_thread_gone : nat; lf_core_gone : nat }.

Definition life_new : life := mkLife Run_begin None false false false false false false false 0 0.

Definition thread_refs (s : life) : bool := lf_heap s || lf_local s || lf_global s || lf_this s.
Definition core_refs (s : life) : bool := lf_core s || lf_bound s || lf_temp s.

(** A [shared_ptr] to the runnable has gone. *)
Definition core_released (s : life) : life :=
  if core_refs s then s
  else mkLife (lf_caller s) (lf_fun s) (lf_heap s) (lf_local s) (lf_global s) (lf_this s)
         (lf_core s) (lf_bound s) (lf_temp s) (lf_thread_gone s) (S (lf_core_gone s)).
(** A [shared_ptr] to the thread object has gone: with the last the object goes, and with
    it its [shared_ptr] to the runnable. *)
Definition thread_released (s : life) : life :=
  if thread_refs s then s
  else core_released (mkLife (lf_caller s) (lf_fun s) (lf_heap s) (lf_local s) (lf_global s) (lf_this s)
         (lf_core s) false (lf_temp s) (S (lf_thread_gone s)) (lf_core_gone s)).

(** PosixThreadFactory::newThread: the thread object takes a [shared_ptr] to the runnable;
    the links back ([weakRef], Runnable::thread) are weak and keep nothing alive. *)
Definition newThread (global : bool) (s : life) : life :=
  mkLife Run_thread (lf_fun s) (lf_heap s) (negb global) global (lf_this s) (lf_core s) true (lf_temp s)
    (lf_thread_gone s) (lf_core_gone s).

(** A step of [run].  [ok] is the answer of [pthread_create]; [global] says that the
    thread object goes to a global variable, as IoAccept::run has it. *)
Definition run_step (global ok : bool) (s : life) : option life :=
  let '(mkLife c f heap loc_ glob this core bound temp tg cg) := s in
  match c with
  | Run_begin => Some (mkLife Run_core f heap loc_ glob this true bound temp tg cg)
  | Run_core => Some (newThread global s)
  | Run_thread =>
      Some (if ok then mkLife Run_wait (Some Fun_begin) true loc_ glob this core bound temp tg cg
            else mkLife Run_drop f true loc_ glob this core bound temp tg cg)
  | Run_wait =>
      match f with
      | Some Fun_begin | None => None
      | _ => Some (mkLife Run_drop f heap loc_ glob this core bound temp tg cg)
      end
  | Run_drop => Some (thread_released (mkLife Run_drop_core f heap false glob this core bound temp tg cg))
  | Run_drop_core => Some (core_released (mkLife Run_done f heap loc_ glob this false bound temp tg cg))
  | Run_done => None
  end.

(** A step of [thread_fun]: the argument is taken over, [runnable()->run()] is called and
    returns, [this_thread] goes.  It uses both objects. *)
Definition fun_step (s : life) : option (outcome life) :=
  let '(mkLife c f heap loc_ glob this core bound temp tg cg) := s in
  match f with
  | None | Some Fun_end => None
  | Some Fun_begin =>
      Some (if (tg =? 0)%nat && heap then Ret (mkLife c (Some Fun_call) false loc_ glob true core bound temp tg cg) else Fault)
  | Some Fun_call =>
      Some (if (tg =? 0)%nat && (cg =? 0)%nat then Ret (mkLife c (Some Fun_running) heap loc_ glob this core bound true tg cg)
            else Fault)
  | Some Fun_running =>
      Some (if (tg =? 0)%nat && (cg =? 0)%nat then
              Ret (core_released (mkLife c (Some Fun_leave) heap loc_ glob this core bound false tg cg))
            else Fault)
  | Some Fun_leave =>
      Some (Ret (thread_released (mkLife c (Some Fun_end) heap loc_ glob false core bound temp tg cg)))
  end.

(** IoApp::~IoApp and its copies: [delete _core] *)
Definition owner_delete (s : life) : outcome life :=
  if (lf_core_gone s =? 0)%nat then
    Ret (mkLife (lf_caller s) (lf_fun s) (lf_heap s) (lf_local s) (lf_global s) (lf_this s)
           (lf_core s) (lf_bound s) (lf_temp s) (lf_thread_gone s) 1)
  else Fault.

Inductive life_step (global : bool) : life → outcome life → Prop :=
  | life_run ok s s' : run_step global ok s = Some s' → life_step global s (Ret s')
  | life_fun s o : fun_step s = Some o → life_step global s o.

Inductive life_reaches (global : bool) : life → Prop :=
  | life_start : life_reaches global life_new
  | life_more s s' : life_reaches global s → life_step global s (Ret s') → life_reaches global s'.

(** ** All states *)
(** A thread is started once, so there are few states: they are listed. *)
#[export] Instance run_pc_eq : EqDecision run_pc. Proof. solve_decision. Defined.
#[export] Instance fun_pc_eq : EqDecision fun_pc. Proof. solve_decision. Defined.
#[export] Instance life_eq : EqDecision life. Proof. solve_decision. Defined.

Definition life_next (global : bool) (s : life) : list life :=
  option_list (run_step global true s) ++ option_list (run_step global false s) ++
  match fun_step s with Some (Ret s') => [s'] | _ => [] end.

(** The states found from [todo], besides those in [seen]. *)
Fixpoint explore (fuel : nat) (global : bool) (todo seen : list life) : list life :=
  match fuel, todo with
  | S fuel, s :: todo =>
      if bool_decide (s ∈ seen) then explore fuel global todo seen
      else explore fuel global (life_next global s ++ todo) (s :: seen)
  | _, _ => seen
  end.
Definition life_states (global : bool) : list life := explore 200 global [life_new] [].

Lemma life_states_closed global :
  forallb (λ s, forallb (λ s', bool_decide (s' ∈ life_states global)) (life_next global s)) (life_states global) = true.
Proof. destruct global; vm_compute; reflexivity. Qed.

Lemma life_step_next global s s' : life_step global s (Ret s') → s' ∈ life_next global s.
Proof.
  unfold life_next. intros H. inversion H as [[] ? ? E|? ? E]; subst; rewrite E; cbn [option_list]; set_solver.
Qed.

Lemma life_reaches_states global s : life_reaches global s → s ∈ life_states global.
Proof.
  induction 1 as [|s s' _ IH Hs].
  - apply (bool_decide_unpack _). destruct global; vm_compute; exact I.
  - pose proof (life_states_closed global) as Hc. rewrite forallb_forall in Hc.
    specialize (Hc s (proj1 (list_elem_of_In _ _) IH)). rewrite forallb_forall in Hc.
    apply (bool_decide_eq_true_1 _). apply Hc, list_elem_of_In. by apply life_step_next.
Qed.

(** What holds in every state, by looking at all of them. *)
Lemma life_check global (P : life → bool) s :
  forallb P (life_states global) = true → life_reaches global s → P s = true.
Proof.
  intros Hc Hr%life_reaches_states. rewrite forallb_forall in Hc. by apply Hc, list_elem_of_In.
Qed.

Definition life_safe (s : life) : bool := match fun_step s with Some (Ret _) | None => true | _ => false end.
Definition gone_ok (global : bool) (s : life) : bool :=
  (lf_thread_gone s <=? 1)%nat && (lf_core_gone s <=? 1)%nat &&
  match lf_fun s with
  | Some Fun_running => (lf_thread_gone s =? 0)%nat && (lf_core_gone s =? 0)%nat
  | Some Fun_end =>
      match lf_caller s with
      | Run_done => if global then (lf_core_gone s =? 0)%nat else (lf_thread_gone s =? 1)%nat && (lf_core_gone s =? 1)%nat
      | _ => true
      end
  | _ => true
  end.
Definition progress_ok (global : bool) (s : life) : bool :=
  match lf_caller s with Run_done => true | _ => bool_decide (life_next global s ≠ []) end.

Lemma life_all global s : life_reaches global s →
  life_safe s = true ∧ gone_ok global s = true ∧ progress_ok global s = true.
Proof.
  intros Hr. split; [|split]; (eapply life_check; [|exact Hr]); destruct global; vm_compute; reflexivity.
Qed.

(** ** Properties *)

(** C34: a thread keeps its work alive.  However the caller of [run] and the new thread
    interleave, and whether or not the thread can be created, the thread never uses an
    object that is gone, neither object is deleted twice, both exist as long as the work
    runs, [run] returns, and when it has returned and the thread has ended both objects
    are gone, or, for the accepting thread, still there. *)
Theorem thread_keeps_its_work global s (Hr : life_reaches global s) :
  (∀ o, life_step global s o → ∃ s', o = Ret s') ∧
  (lf_thread_gone s ≤ 1 ∧ lf_core_gone s ≤ 1)%nat ∧
  (lf_fun s = Some Fun_running → lf_thread_gone s = 0%nat ∧ lf_core_gone s = 0%nat) ∧
  (lf_caller s ≠ Run_done → ∃ s', life_step global s (Ret s')) ∧
  (lf_caller s = Run_done → lf_fun s = Some Fun_end →
    if global then lf_core_gone s = 0%nat else lf_thread_gone s = 1%nat ∧ lf_core_gone s = 1%nat).
Proof.
  destruct (life_all global s Hr) as (Hsafe & Hgone & Hprog). unfold gone_ok in Hgone.
  apply andb_true_iff in Hgone as [[H1%Nat.leb_le H2%Nat.leb_le]%andb_true_iff H3]. split_and!; [| done.. | | |].
  - intros o Hs. destruct Hs as [ok s s' E|s o E]; [by eexists|]. unfold life_safe in Hsafe. rewrite E in Hsafe.
    destruct o; try done. by eexists.
  - intros E. rewrite E in H3. by apply andb_true_iff in H3 as [?%Nat.eqb_eq ?%Nat.eqb_eq].
  - intros Hc. unfold progress_ok, life_next in Hprog. assert (run_step global true s = None → run_step global false s = None →
      ∃ s', fun_step s = Some (Ret s')) as Hn.
    { intros E1 E2. rewrite E1, E2 in Hprog. destruct (fun_step s) as [[]|]; destruct (lf_caller s); eauto; done. }
    destruct (run_step global true s) as [s1|] eqn:E1; [exists s1; by apply (life_run _ true)|].
    destruct (run_step global false s) as [s1|] eqn:E2; [exists s1; by apply (life_run _ false)|].
    destruct (Hn eq_refl eq_refl) as [s' E]. exists s'. by apply life_fun.
  - intros Ec Ef. rewrite Ec, Ef in H3. destruct global; [by apply Nat.eqb_eq|].
    by apply andb_true_iff in H3 as [?%Nat.eqb_eq ?%Nat.eqb_eq].
Qed.

(** The steps of [run] and of the thread, one after the other. *)
Fixpoint life_play (global : bool) (who : list bool) (s : life) : option life :=
  match who with
  | [] => Some s
  | true :: who => s ← run_step global true s; life_play global who s
  | false :: who => match fun_step s with Some (Ret s) => life_play global who s | _ => None end
  end.
Lemma life_play_reaches global who s s' : life_reaches global s → life_play global who s = Some s' → life_reaches global s'.
Proof.
  revert s. induction who as [|[] who IH]; intros s Hr; cbn [life_play]; [by intros [= <-]| |].
  - intros (s1 & E & H)%bind_Some. apply (IH s1); [|done]. eapply life_more; [done|]. by apply (life_run _ true).
  - destruct (fun_step s) as [[s1| | | |]|] eqn:E; try done. apply IH. eapply life_more; [done|]. by apply life_fun.
Qed.

Definition ended : life := mkLife Run_done (Some Fun_end) false false false false false false false 1 1.
Definition running : life := mkLife Run_done (Some Fun_running) false false false true false true true 0 0.

Lemma ended_reached : life_reaches false ended.
Proof.
  apply (life_play_reaches false [true; true; true; false; true; false; true; true; false; false] life_new);
    [apply life_start|reflexivity].
Qed.
Lemma running_reached : life_reaches false running.
Proof.
  apply (life_play_reaches false [true; true; true; false; true; false; true; true] life_new); [apply life_start|reflexivity].
Qed.

Lemma thread_keeps_its_work_witness : lf_thread_gone ended = 1%nat ∧ lf_core_gone ended = 1%nat.
Proof.
  exact (proj2 (proj2 (proj2 (proj2 (thread_keeps_its_work false ended ended_reached)))) eq_refl eq_refl).
Defined.

(** the owner of the work must not delete it after [run]: its destructor frees an
    object that is shared.  When the thread has ended this frees it a second time; while
    the thread runs, the thread goes on with an object that is gone. *)
Theorem owner_delete_is_wrong s (Hr : life_reaches false s) :
  (lf_caller s = Run_done → lf_fun s = Some Fun_end → owner_delete s = Fault) ∧
  (lf_fun s = Some Fun_running → ∃ s', owner_delete s = Ret s' ∧ fun_step s' = Some Fault).
Proof.
  destruct (life_all false s Hr) as (_ & Hgone & _). unfold gone_ok in Hgone.
  apply andb_true_iff in Hgone as [_ H3]. unfold owner_delete. split.
  - intros Ec Ef. rewrite Ec, Ef in H3. apply andb_true_iff in H3 as [_ H%Nat.eqb_eq]. by rewrite H.
  - intros Ef. rewrite Ef in H3. apply andb_true_iff in H3 as [_ H%Nat.eqb_eq]. rewrite H. eexists. split; [reflexivity|].
    cbn. rewrite Ef. by rewrite andb_false_r.
Qed.

Lemma owner_delete_is_wrong_witness :
  owner_delete ended = Fault ∧ ∃ s', owner_delete running = Ret s' ∧ fun_step s' = Some Fault.
Proof.
  split.
  - exact (proj1 (owner_delete_is_wrong ended ended_reached) eq_refl eq_refl).
  - exact (proj2 (owner_delete_is_wrong running running_reached) eq_refl).
Defined.

(** Joining a second time passes an id to [pthread_join] that is no thread's. *)
Example second_join_faults self id : id ≠ 0 → id ≠ self → self ≠ 0 →
  ∃ h, PthreadThread_join self true (mkHandle (Some id) STOPPING false) = Ret (Joined h) ∧
    PthreadThread_join self true h = Fault ∧ PthreadThread_delete self true h = Ret (Joined h).
Proof.
  intros H0 Hs Hself. exists (mkHandle (Some 0) STOPPING false). unfold PthreadThread_join, PthreadThread_delete. cbn.
  rewrite (proj2 (Z.eqb_neq _ _) Hs). unfold INVALID_THREAD_ID. rewrite (proj2 (Z.eqb_neq _ _) H0). cbn.
  by destruct self.
Qed.

(** A thread object that is never run reads an id that was never set when it goes. *)
Example unstarted_thread_faults self : PthreadThread_delete self false (mkHandle None UNINIT true) = Fault.
Proof. reflexivity. Qed.
