(* ===== verification/ClientThreads.v ===== *)
(** The threads of a pooled client: PooledClientImpl::open_thread, [run_svc], [svc],
    [stop], the destructor, the monitor, and how a client is found by its path
    (thrift/pilot/pooled_client.inl, conn_pool_factory.inl).

    The answers of [malloc] and [pthread_create] are arguments.  [svc] is the endless
    loop over [svc_turn]; a run of it is given by the number of its turns. *)
From S2P Require Import Prelude Heap Bytes StringAlgos UpdateTasks ConnPool Zookeeper PooledClient.

(** ** Starting the threads *)
(** [thread_num_], and [thread_]: [None] is the null pointer, [Some n] an array of which
    the first [n] entries hold a thread. *)
Record client_threads := mkThreads { ct_num : Z; ct_thread : option nat }.

(** The members after the constructor, which does not set [thread_]. *)
Definition client_threads_new : client_threads := mkThreads 1 None.

(** The loop: how many threads were created before one failed. *)
Fixpoint create_threads (n : nat) (creates : list bool) : nat :=
  match n, creates with
  | S n, true :: creates => S (create_threads n creates)
  | _, _ => O
  end.

(** [creates] are the answers of [pthread_create], the first one first. *)
Definition open_thread (malloc_ok : bool) (creates : list bool) (t : client_threads) : Z * client_threads :=
  if (ct_num t =? 0) || negb malloc_ok then (-1, mkThreads 0 None)
  else
    let started := create_threads (Z.to_nat (ct_num t)) creates in
    let t := mkThreads (Z.of_nat started) (Some started) in
    if ct_num t =? 0 then (-1, t) else (0, t).

(** PooledClientImpl::open *)
Definition client_open (tod : Z * Z) (malloc_ok : bool) (creates : list bool) (f : task_managers) (path : cstr)
    (t : client_threads) : outcome (Z * client_threads * task_managers) :=
  let* (m, f) := get_update_task_manager f path in
  let* (_, m) := put_update_task tod m REFRESH_ALL [] in
  let (ret, t) := open_thread malloc_ok creates t in
  Ret (ret, t, <[path := m]> f).

(** ** Stopping *)
(** [pthread_kill(thread, SIGKILL)]: the signal cannot be caught and ends the process. *)
Definition pthread_sigkill : outcome unit := Abort.

Fixpoint kill_threads (n : nat) : outcome unit :=
  match n with O => Ret tt | S n => let* _ := pthread_sigkill in kill_threads n end.

(** PooledClientImpl::stop *)
Definition client_stop (t : client_threads) : outcome client_threads :=
  let* _ := kill_threads (Z.to_nat (ct_num t)) in
  Ret (mkThreads (ct_num t) None).

(** PooledClientImpl::~PooledClientImpl *)
Definition client_delete (n : net) (c : PooledClientImpl) (t : client_threads) : outcome (net * PooledClientImpl * client_threads) :=
  let* t := client_stop t in
  let* (n, c) := pc_clear n c in
  Ret (n, c, t).

(** ** The loops of the threads *)
Section loops.
Context {R : Type} {HZ : ZooApi R} (json_node : cstr → outcome (option (cstr * Z * cstr * Z))).

(** PooledClientImpl::svc, as many turns as there are times: the flag says that the loop
    still goes on. *)
Fixpoint svc (zh : bool) (r : R) (times : list (Z * Z)) (n : net) (c : PooledClientImpl) (m : UpdateTaskManager)
    : outcome (bool * net * PooledClientImpl * UpdateTaskManager) :=
  match times with
  | [] => Ret (true, n, c, m)
  | now :: times =>
      let* (go, n, c, m) := svc_turn json_node zh r now n c m in
      if (go : bool) then svc zh r times n c m else Ret (false, n, c, m)
  end.
End loops.

(** PooledClientImpl::monitor_proc: a turn, every half hour *)
Definition monitor_turn (tod : Z * Z) (f : task_managers) (path : cstr) : outcome task_managers :=
  let* (m, f) := get_update_task_manager f path in
  let* (_, m) := put_update_task tod m REFRESH_ALL [] in
  Ret (<[path := m]> f).

(** PooledClientImpl::start_monitor throws when there is no thread. *)
Definition start_monitor (create_ok : bool) : option unit := if create_ok then Some tt else None.

(** ** Finding a client *)
(** PooledClientImpl::instance: the flag says that the result is not null. *)
Definition instance (tod : Z * Z) (clients : gmap cstr PooledClientImpl) (f : task_managers) (path : cstr) (num : Z)
    (thread_ok : bool) : outcome (bool * gmap cstr PooledClientImpl * task_managers) :=
  match path with
  | [] => Ret (false, clients, f)
  | c :: _ =>
      let tmp := DEFAULT_NAMESPACE ++ (if c =? 47 then path else str "/" ++ path) in
      let tmp := tmp ++ (if last_char path =? 47 then str "rpc" else str "/rpc") in
      get_pooled_client tod clients f tmp num thread_ok
  end.

(** ** Lemmas *)
Lemma create_threads_spec n creates :
  (create_threads n creates ≤ n)%nat ∧ (create_threads n creates ≤ length creates)%nat ∧
  take (create_threads n creates) creates = replicate (create_threads n creates) true ∧
  ((create_threads n creates < n)%nat → creates !! create_threads n creates ≠ Some true).
Proof.
  revert creates. induction n as [|n IH]; intros creates; cbn [create_threads]; [split_and!; [lia..|done|lia]|].
  destruct creates as [|[] creates]; [by split_and!; [cbn; lia..|done|]| |by split_and!; [cbn; lia..|done|]].
  destruct (IH creates) as (H1 & H2 & H3 & H4). cbn [length take replicate]. rewrite H3. split_and!; [lia..|done|].
  intros H. cbn. apply H4. lia.
Qed.

Lemma instance_fixpath tod clients f path num ok : path ≠ [] →
  instance tod clients f path num ok = get_pooled_client tod clients f (fixpath path) num ok.
Proof.
  intros Hp. destruct path as [|c path]; [done|]. unfold instance, fixpath.
  destruct (c =? 47), (last_char (c :: path) =? 47); by rewrite <-?app_assoc.
Qed.

(** ** Properties *)

(** opening starts as many threads as the system allows.  The threads recorded are
    those created before the first failure, at most the number asked for, and the result
    is 0 exactly when there is one; in that case, and for no other, the client has a
    thread that reads the registry. *)
Theorem open_starts_threads malloc_ok creates t
    (Hn : 0 ≤ ct_num t) :
  let (ret, t') := open_thread malloc_ok creates t in
  (ret = 0 ↔ 0 < ct_num t') ∧ (ret = 0 ∨ ret = -1) ∧ 0 ≤ ct_num t' ≤ ct_num t ∧
  take (Z.to_nat (ct_num t')) creates = replicate (Z.to_nat (ct_num t')) true ∧
  (malloc_ok = true → ct_num t' < ct_num t → creates !! Z.to_nat (ct_num t') ≠ Some true).
Proof.
  unfold open_thread. destruct (create_threads_spec (Z.to_nat (ct_num t)) creates) as (H1 & H2 & H3 & H4).
  destruct (Z.eqb_spec (ct_num t) 0) as [E|E]; cbn [orb].
  { split_and!; cbn; try lia; done. }
  destruct malloc_ok; cbn [negb]; [|by split_and!; cbn; try lia].
  cbn [ct_num]. destruct (Z.eqb_spec (Z.of_nat (create_threads (Z.to_nat (ct_num t)) creates)) 0) as [E0|E0]; cbn [ct_num];
    rewrite Nat2Z.id; (split_and!; [lia|by auto|lia|lia|done|]); intros _ Hlt; apply H4; lia.
Qed.

Lemma open_starts_threads_witness :
  let (ret, t') := open_thread true [true; false] (mkThreads 3 None) in ret = 0 ↔ 0 < ct_num t'.
Proof. exact (proj1 (open_starts_threads true [true; false] (mkThreads 3 None) ltac:(cbn; lia))). Defined.

(** a client is found by its path: a path with a slash in front, or one at the end,
    names the same client as without; a client that exists is given to everyone who asks
    and is never replaced; and only a client whose thread could be started is kept. *)
Theorem instance_by_path tod clients f c path num ok
    (Hc : c ≠ 47) :
  instance tod clients f (47 :: c :: path) num ok = instance tod clients f (c :: path) num ok ∧
  (last_char (c :: path) ≠ 47 →
    instance tod clients f (c :: path ++ [47]) num ok = instance tod clients f (c :: path) num ok) ∧
  (is_Some (clients !! fixpath (c :: path)) → instance tod clients f (c :: path) num ok = Ret (true, clients, f)) ∧
  (∀ found clients' f', instance tod clients f (c :: path) num ok = Ret (found, clients', f') →
    clients ⊆ clients' ∧ (found = true ↔ is_Some (clients' !! fixpath (c :: path)))).
Proof.
  assert (∀ p, last_char (47 :: c :: p) = last_char (c :: p)) as Hl by done.
  assert (last_char (c :: path ++ [47]) = 47) as Hsnoc.
  { unfold last_char. change (c :: path ++ [47]) with ((c :: path) ++ [47]). by rewrite last_snoc. }
  rewrite !instance_fixpath by done. split_and!.
  - f_equal. unfold fixpath. rewrite Hl, (proj2 (Z.eqb_neq c 47) Hc). done.
  - intros Hn. f_equal. unfold fixpath. rewrite Hsnoc, (proj2 (Z.eqb_neq c 47) Hc), (proj2 (Z.eqb_neq _ 47) Hn). cbn [Z.eqb Pos.eqb].
    rewrite <-!app_assoc. f_equal. f_equal. cbn [app]. f_equal. by rewrite <-app_assoc.
  - intros [x Hx]. unfold get_pooled_client. by rewrite Hx.
  - intros found clients' f'. unfold get_pooled_client. destruct (clients !! fixpath (c :: path)) as [x|] eqn:E.
    + intros [= <- <- _]. split; [done|]. rewrite E. split; [by eexists|done].
    + intros ([m f1] & _ & ([ret f2] & _ & H)%obind_Ret_inv)%obind_Ret_inv. destruct (ret =? 0); injection H as <- <- _.
      * split; [by apply insert_subseteq|]. rewrite lookup_insert_eq. split; [by eexists|done].
      * split; [done|]. rewrite E. split; [done|by intros []].
Qed.

Lemma instance_by_path_witness :
  instance (0, 0) ∅ ∅ (str "/chat") 4 true = instance (0, 0) ∅ ∅ (str "chat") 4 true.
Proof. exact (proj1 (instance_by_path (0, 0) ∅ ∅ 99 (str "hat") 4 true ltac:(done))). Defined.

(** the monitor keeps the pools in step with the registry: when its half hour is over
    and the tasks of the client are not full, the next turn of the client's thread reads
    all replicas again, whatever the turn would have done otherwise, and then goes on
    with the tasks that were there. *)
Theorem monitor_refreshes {R} `{ZooApi R} (json_node : cstr → outcome (option (cstr * Z * cstr * Z)))
    zh (r : R) tod now n c f path m ts busy free
    (Hf : f !! path = Some m) (Hm : um_rep m (mkStack true ts) busy free)
    (Hroom : (length ts < UPDATE_TASK_POOL_SIZE)%nat) :
  ∃ m1 m2 busy' free', monitor_turn tod f path = Ret (<[path := m1]> f) ∧
    um_rep m2 (mkStack true ts) busy' free' ∧
    svc json_node zh r [now] n c m1 = let* (n, c) := refresh_all json_node zh r n c in Ret (true, n, c, m2).
Proof.
  destruct (put_update_task_top tod m ts busy free REFRESH_ALL [] Hm Hroom) as (m1 & b1 & fr1 & E1 & H1); [done|].
  destruct (svc_turn_top json_node zh r now n c m1 _ _ _ _ H1) as (m2 & b2 & fr2 & H2 & Et); [done..|].
  exists m1, m2, b2, fr2. split.
  - unfold monitor_turn, get_update_task_manager. rewrite Hf. cbn [obind]. by rewrite E1.
  - split; [done|]. cbn [svc]. rewrite Et. cbn [process_update_task task_type].
    by destruct (refresh_all json_node zh r n c) as [[n' c']| | | |].
Qed.

Lemma monitor_refreshes_witness :
  ∃ m1, monitor_turn (0, 0) {[str "/x" := opened]} (str "/x") = Ret (<[str "/x" := m1]> {[str "/x" := opened]}).
Proof.
  destruct opened_rep as [free Hr].
  destruct (monitor_refreshes (R := gmap cstr cstr)
    (λ _, Ret None) true ∅ (0, 0) (0, 0) (mkNet ∅ []) (PooledClientImpl_new (str "/x") 1) {[str "/x" := opened]} (str "/x")
    opened [] [] free) as (m1 & m2 & b & fr & E & _); [apply lookup_singleton_eq|exact Hr|unfold UPDATE_TASK_POOL_SIZE; cbn; lia|].
  by exists m1.
Defined.

(** Deleting a client whose threads run ends the process: SIGKILL is not for a thread. *)
Example deleting_client_kills_process n c started :
  client_delete n c (mkThreads (Z.of_nat (S started)) (Some (S started))) = Abort.
Proof. unfold client_delete, client_stop. cbn [ct_num]. rewrite Nat2Z.id. reflexivity. Qed.
