(* ===== verification/ThriftRpc.v ===== *)
(** The RPC between two servers: the service Message of thrift/gen (Message.cpp, .h,
    ms_types.cpp, .h), with the client MessageClient and the server side
    MessageProcessor, and what the broker puts on either end.

    The thrift library is a parameter: a protocol writes a frame call by call and reads
    one call by call ([TProtocol]).  What the program relies on ([TProtocolLaws]) is that
    the calls that read find what the matching calls wrote, and that [skip] passes over a
    whole value.  The counts of transferred bytes, which no caller looks at, and the
    event handler of the processor, which the program does not set, are left out.

    Between the broker and the other servers is the proxy of PooledClient.v: [broker_call]
    makes its attempts through it, and what the network does with each is its [fate]. *)
From S2P Require Import Prelude Heap Bytes MsMessage MsQueues ImParser Processors ConnPool PooledClient.

(** ** Exceptions *)
(** TTransportException, TApplicationException, another TException, and an exception of
    the handler that is no TException; each with its [what()]. *)
Inductive transport_type := NOT_OPEN | TIMED_OUT | END_OF_FILE | Transport_other.
Inductive texn :=
| TTransport (etype : transport_type) (what : cstr)
| TApplication (type : Z) (what : cstr)
| TOther (what : cstr)
| StdException (what : cstr).

(** Code that may throw. *)
Abbreviation thrift A := (outcome (texn + A)).
Definition tret {A} (a : A) : thrift A := Ret (inr a).
Definition throw {A} (e : texn) : thrift A := Ret (inl e).
Definition tbind {A B} (c : thrift A) (k : A → thrift B) : thrift B :=
  let* r := c in match r with inl e => throw e | inr a => k a end.
Notation "'let?' x ':=' c 'in' k" := (tbind c (λ x, k))
  (at level 10, x pattern, c at level 100, k at level 200,
   format "'[v' 'let?'  x  ':='  c  'in' '/' k ']'") : outcome_scope.

Lemma tbind_tret {A B} (a : A) (k : A → thrift B) : tbind (tret a) k = k a.
Proof. done. Qed.

(** ** The protocol *)
Definition T_STOP : Z := 0.
Definition T_I32 : Z := 8.
Definition T_I64 : Z := 10.
Definition T_STRING : Z := 11.
Definition T_STRUCT : Z := 12.
Definition T_CALL : Z := 1.
Definition T_REPLY : Z := 2.
Definition T_EXCEPTION : Z := 3.
(** TApplicationException: UNKNOWN is the type of one made from a string only. *)
Definition EX_UNKNOWN : Z := 0.
Definition UNKNOWN_METHOD : Z := 1.
Definition MISSING_RESULT : Z := 5.

(** A call of a [write] method, with its arguments. *)
Inductive token :=
| TkMessageBegin (name : cstr) (mtype seqid : Z)
| TkMessageEnd
| TkStructBegin (name : cstr)
| TkStructEnd
| TkFieldBegin (name : cstr) (ftype fid : Z)
| TkFieldEnd
| TkFieldStop
| TkI32 (v : Z)
| TkI64 (v : Z)
| TkBinary (v : cstr)
| TkException (type : Z) (what : cstr).

(** [O] is a frame that is written and [I] what is left to read.  [flush] gives what the
    other end reads.  [tp_size] counts the bytes that are left. *)
Class TProtocol (O I : Type) := {
  tp_open : O;
  put : O → token → O;
  flush : O → thrift I;
  readMessageBegin : I → thrift (cstr * Z * Z * I);
  readMessageEnd : I → thrift I;
  readStructBegin : I → thrift (cstr * I);
  readStructEnd : I → thrift I;
  readFieldBegin : I → thrift (cstr * Z * Z * I);
  readFieldEnd : I → thrift I;
  readI32 : I → thrift (Z * I);
  readI64 : I → thrift (Z * I);
  readBinary : I → thrift (cstr * I);
  readException : I → thrift (Z * cstr * I);
  skip : I → Z → thrift I;
  tp_size : I → nat }.

(** A typed value and the calls that write it. *)
Inductive tvalue :=
| VI32 (v : Z)
| VI64 (v : Z)
| VBinary (v : cstr)
| VStruct (name : cstr) (fields : list (cstr * Z * tvalue)).

Definition type_of (v : tvalue) : Z :=
  match v with VI32 _ => T_I32 | VI64 _ => T_I64 | VBinary _ => T_STRING | VStruct _ _ => T_STRUCT end.

Definition field_tokens (value_tokens : tvalue → list token) (f : cstr * Z * tvalue) : list token :=
  TkFieldBegin f.1.1 (type_of f.2) f.1.2 :: value_tokens f.2 ++ [TkFieldEnd].

Fixpoint value_tokens (v : tvalue) : list token :=
  match v with
  | VI32 z => [TkI32 z]
  | VI64 z => [TkI64 z]
  | VBinary bs => [TkBinary bs]
  | VStruct name fs => TkStructBegin name :: mjoin (field_tokens value_tokens <$> fs) ++ [TkFieldStop; TkStructEnd]
  end.

(** What a protocol of the library promises: [tp_wrote] are the calls made so far and
    [tp_holds i ts] says that [i] starts with what the calls [ts] wrote. *)
Class TProtocolLaws (O I : Type) `{TProtocol O I} := {
  tp_wrote : O → list token;
  tp_holds : I → list token → Prop;
  open_law : tp_wrote tp_open = [];
  put_law o t : tp_wrote (put o t) = tp_wrote o ++ [t];
  flush_law o i : flush o = Ret (inr i) → tp_holds i (tp_wrote o);
  message_begin_law i name t s ts : tp_holds i (TkMessageBegin name t s :: ts) →
    ∃ i', readMessageBegin i = tret (name, t, s, i') ∧ tp_holds i' ts;
  message_end_law i ts : tp_holds i (TkMessageEnd :: ts) → ∃ i', readMessageEnd i = tret i' ∧ tp_holds i' ts;
  struct_begin_law i name ts : tp_holds i (TkStructBegin name :: ts) →
    ∃ name' i', readStructBegin i = tret (name', i') ∧ tp_holds i' ts;
  struct_end_law i ts : tp_holds i (TkStructEnd :: ts) → ∃ i', readStructEnd i = tret i' ∧ tp_holds i' ts;
  field_begin_law i name t id ts : tp_holds i (TkFieldBegin name t id :: ts) →
    ∃ name' i', readFieldBegin i = tret (name', t, id, i') ∧ tp_holds i' ts;
  field_stop_law i ts : tp_holds i (TkFieldStop :: ts) →
    ∃ name' id' i', readFieldBegin i = tret (name', T_STOP, id', i') ∧ tp_holds i' ts;
  field_end_law i ts : tp_holds i (TkFieldEnd :: ts) → ∃ i', readFieldEnd i = tret i' ∧ tp_holds i' ts;
  i32_law i v ts : - 2 ^ 31 ≤ v < 2 ^ 31 → tp_holds i (TkI32 v :: ts) →
    ∃ i', readI32 i = tret (v, i') ∧ tp_holds i' ts;
  i64_law i v ts : - 2 ^ 63 ≤ v < 2 ^ 63 → tp_holds i (TkI64 v :: ts) →
    ∃ i', readI64 i = tret (v, i') ∧ tp_holds i' ts;
  binary_law i v ts : tp_holds i (TkBinary v :: ts) → ∃ i', readBinary i = tret (v, i') ∧ tp_holds i' ts;
  exception_law i t what ts : tp_holds i (TkException t what :: ts) →
    ∃ i', readException i = tret (t, what, i') ∧ tp_holds i' ts;
  skip_law i v ts : tp_holds i (value_tokens v ++ ts) → ∃ i', skip i (type_of v) = tret i' ∧ tp_holds i' ts }.

(** A call that returns or throws. *)
Definition reads {A} (c : thrift A) (P : A → Prop) : Prop :=
  match c with Ret (inl _) => True | Ret (inr a) => P a | _ => False end.

(** The reading calls return or throw, never add input, and a field takes some. *)
Class TProtocolReads (O I : Type) `{TProtocol O I} := {
  struct_begin_reads i : reads (readStructBegin i) (λ r, (tp_size r.2 ≤ tp_size i)%nat);
  struct_end_reads i : reads (readStructEnd i) (λ j, (tp_size j ≤ tp_size i)%nat);
  field_begin_reads i : reads (readFieldBegin i) (λ r, (tp_size r.2 < tp_size i)%nat);
  field_end_reads i : reads (readFieldEnd i) (λ j, (tp_size j ≤ tp_size i)%nat);
  i32_reads i : reads (readI32 i) (λ r, (tp_size r.2 ≤ tp_size i)%nat);
  i64_reads i : reads (readI64 i) (λ r, (tp_size r.2 ≤ tp_size i)%nat);
  binary_reads i : reads (readBinary i) (λ r, (tp_size r.2 ≤ tp_size i)%nat);
  skip_reads i t : reads (skip i t) (λ j, (tp_size j ≤ tp_size i)%nat) }.

(** ** The structures of the service *)
(** ms::MessageRequest and ms::MessageResponse, with their [__isset] *)
Record wire_request := mkWireRequest {
  wq_msh_id : Z; wq_msg_id : cstr; wq_msg : cstr;
  wq_set_msh_id : bool; wq_set_msg_id : bool; wq_set_msg : bool }.
Record wire_response := mkWireResponse {
  ws_code : Z; ws_msg : cstr; ws_set_code : bool; ws_set_msg : bool }.

Definition wire_request_new : wire_request := mkWireRequest 0 [] [] false false false.
Definition wire_response_new : wire_response := mkWireResponse 0 [] false false.

Definition wire_set_msh_id (v : Z) (r : wire_request) : wire_request :=
  mkWireRequest v (wq_msg_id r) (wq_msg r) true (wq_set_msg_id r) (wq_set_msg r).
Definition wire_set_msg_id (v : cstr) (r : wire_request) : wire_request :=
  mkWireRequest (wq_msh_id r) v (wq_msg r) (wq_set_msh_id r) true (wq_set_msg r).
Definition wire_set_msg (v : cstr) (r : wire_request) : wire_request :=
  mkWireRequest (wq_msh_id r) (wq_msg_id r) v (wq_set_msh_id r) (wq_set_msg_id r) true.
Definition set_code (v : Z) (r : wire_response) : wire_response :=
  mkWireResponse v (ws_msg r) true (ws_set_msg r).
Definition set_response_msg (v : cstr) (r : wire_response) : wire_response :=
  mkWireResponse (ws_code r) v (ws_set_code r) true.

(** [operator==] *)
Definition same_field {A} `{EqDecision A} (set1 set2 : bool) (a b : A) : bool :=
  if negb (bool_decide (set1 = set2)) then false
  else if set1 && negb (bool_decide (a = b)) then false else true.
Definition request_eqb (a b : wire_request) : bool :=
  same_field (wq_set_msh_id a) (wq_set_msh_id b) (wq_msh_id a) (wq_msh_id b) &&
  same_field (wq_set_msg_id a) (wq_set_msg_id b) (wq_msg_id a) (wq_msg_id b) &&
  same_field (wq_set_msg a) (wq_set_msg b) (wq_msg a) (wq_msg b).
Definition response_eqb (a b : wire_response) : bool :=
  same_field (ws_set_code a) (ws_set_code b) (ws_code a) (ws_code b) &&
  same_field (ws_set_msg a) (ws_set_msg b) (ws_msg a) (ws_msg b).

(** Message_dispatch_args and _result; _pargs and _presult hold a pointer instead. *)
Record dispatch_args := mkArgs { da_request : wire_request; da_set_request : bool }.
Record dispatch_result := mkResult { dr_success : wire_response; dr_set_success : bool }.

Section rpc.
Context {O I : Type} {HP : TProtocol O I}.
Implicit Types (i : I) (o : O).

(** ** Reading *)
(** The loop of every [read]: [field] is the [switch] on the number of the field. *)
Fixpoint read_loop {A} (fuel : nat) (field : Z → Z → A → I → thrift (A * I)) (a : A) i : thrift (A * I) :=
  match fuel with
  | Datatypes.O => Diverge
  | S fuel =>
      let? (fname, ftype, fid, i) := readFieldBegin i in
      if ftype =? T_STOP then tret (a, i)
      else
        let? (a, i) := field fid ftype a i in
        let? i := readFieldEnd i in
        read_loop fuel field a i
  end.

Definition read_struct {A} (field : Z → Z → A → I → thrift (A * I)) (a : A) i : thrift (A * I) :=
  let? (fname, i) := readStructBegin i in
  let? (a, i) := read_loop (S (tp_size i)) field a i in
  let? i := readStructEnd i in
  tret (a, i).

Definition skip_field {A} (ftype : Z) (a : A) i : thrift (A * I) := let? i := skip i ftype in tret (a, i).

Definition MessageRequest_field (fid ftype : Z) (r : wire_request) i : thrift (wire_request * I) :=
  if fid =? 1 then
    if ftype =? T_I64 then let? (v, i) := readI64 i in tret (wire_set_msh_id v r, i) else skip_field ftype r i
  else if fid =? 2 then
    if ftype =? T_STRING then let? (v, i) := readBinary i in tret (wire_set_msg_id v r, i) else skip_field ftype r i
  else if fid =? 3 then
    if ftype =? T_STRING then let? (v, i) := readBinary i in tret (wire_set_msg v r, i) else skip_field ftype r i
  else skip_field ftype r i.
Definition MessageRequest_read (r : wire_request) i := read_struct MessageRequest_field r i.

Definition MessageResponse_field (fid ftype : Z) (r : wire_response) i : thrift (wire_response * I) :=
  if fid =? 1 then
    if ftype =? T_I32 then let? (v, i) := readI32 i in tret (set_code v r, i) else skip_field ftype r i
  else if fid =? 2 then
    if ftype =? T_STRING then let? (v, i) := readBinary i in tret (set_response_msg v r, i) else skip_field ftype r i
  else skip_field ftype r i.
Definition MessageResponse_read (r : wire_response) i := read_struct MessageResponse_field r i.

Definition dispatch_args_field (fid ftype : Z) (a : dispatch_args) i : thrift (dispatch_args * I) :=
  if fid =? 1 then
    if ftype =? T_STRUCT then let? (r, i) := MessageRequest_read (da_request a) i in tret (mkArgs r true, i)
    else skip_field ftype a i
  else skip_field ftype a i.
Definition dispatch_args_read (a : dispatch_args) i := read_struct dispatch_args_field a i.

Definition dispatch_result_field (fid ftype : Z) (a : dispatch_result) i : thrift (dispatch_result * I) :=
  if fid =? 0 then
    if ftype =? T_STRUCT then let? (r, i) := MessageResponse_read (dr_success a) i in tret (mkResult r true, i)
    else skip_field ftype a i
  else skip_field ftype a i.
Definition dispatch_result_read (a : dispatch_result) i := read_struct dispatch_result_field a i.
(** Message_dispatch_presult fills the response it points to. *)
Definition dispatch_presult_read (success : wire_response) i : thrift (dispatch_result * I) :=
  read_struct dispatch_result_field (mkResult success false) i.

(** ** Writing *)
Definition puts o (ts : list token) : O := foldl put o ts.

(** A field that is written if [set]: its name, type and number, and the value. *)
Definition write_field (set : bool) (name : cstr) (ftype fid : Z) (value : O → O) o : O :=
  if set then put (value (put o (TkFieldBegin name ftype fid))) TkFieldEnd else o.
Definition write_stop o : O := puts o [TkFieldStop; TkStructEnd].

Definition MessageRequest_write (r : wire_request) o : O :=
  let o := put o (TkStructBegin (str "MessageRequest")) in
  let o := write_field (wq_set_msh_id r) (str "msh_id") T_I64 1 (λ o, put o (TkI64 (wq_msh_id r))) o in
  let o := write_field (wq_set_msg_id r) (str "msg_id") T_STRING 2 (λ o, put o (TkBinary (wq_msg_id r))) o in
  let o := write_field (wq_set_msg r) (str "msg") T_STRING 3 (λ o, put o (TkBinary (wq_msg r))) o in
  write_stop o.

Definition MessageResponse_write (r : wire_response) o : O :=
  let o := put o (TkStructBegin (str "MessageResponse")) in
  let o := write_field (ws_set_code r) (str "code") T_I32 1 (λ o, put o (TkI32 (ws_code r))) o in
  let o := write_field (ws_set_msg r) (str "msg") T_STRING 2 (λ o, put o (TkBinary (ws_msg r))) o in
  write_stop o.

Definition dispatch_args_write (a : dispatch_args) o : O :=
  let o := put o (TkStructBegin (str "Message_dispatch_args")) in
  let o := write_field true (str "request") T_STRUCT 1 (MessageRequest_write (da_request a)) o in
  write_stop o.
Definition dispatch_pargs_write (request : wire_request) o : O :=
  let o := put o (TkStructBegin (str "Message_dispatch_pargs")) in
  let o := write_field true (str "request") T_STRUCT 1 (MessageRequest_write request) o in
  write_stop o.

Definition dispatch_result_write (a : dispatch_result) o : O :=
  let o := put o (TkStructBegin (str "Message_dispatch_result")) in
  let o := write_field (dr_set_success a) (str "success") T_STRUCT 0 (MessageResponse_write (dr_success a)) o in
  write_stop o.

(** ** The client *)
(** MessageClient::send_dispatch: what reaches the server *)
Definition send_dispatch (request : wire_request) : thrift I :=
  let o := put tp_open (TkMessageBegin (str "dispatch") T_CALL 0) in
  let o := dispatch_pargs_write request o in
  flush (put o TkMessageEnd).

(** Passing over a message that is not understood. *)
Definition skip_message i : thrift I := let? i := skip i T_STRUCT in readMessageEnd i.

(** MessageClient::recv_dispatch: the response it fills, and what it leaves unread *)
Definition recv_dispatch (response : wire_response) i : thrift (wire_response * I) :=
  let? (fname, mtype, rseqid, i) := readMessageBegin i in
  if mtype =? T_EXCEPTION then
    let? (t, what, i) := readException i in
    let? i := readMessageEnd i in
    throw (TApplication t what)
  else
    let? i := (if negb (mtype =? T_REPLY) then skip_message i else tret i) in
    let? i := (if negb (bool_decide (fname = str "dispatch")) then skip_message i else tret i) in
    let? (result, i) := dispatch_presult_read response i in
    let? i := readMessageEnd i in
    if dr_set_success result then tret (dr_success result, i)
    else throw (TApplication MISSING_RESULT (str "dispatch failed: unknown result")).

(** ** The server *)
Section processor.
(** [iface_->dispatch]: it fills the response it is given, or throws. *)
Context {S : Type} (iface : S → wire_response → wire_request → outcome ((texn + wire_response) * S)).

Definition write_exception (name : cstr) (seqid type : Z) (what : cstr) : thrift I :=
  flush (puts tp_open [TkMessageBegin name T_EXCEPTION seqid; TkException type what; TkMessageEnd]).

(** [e.what()] *)
Definition what_of (e : texn) : cstr :=
  match e with TTransport _ what | TApplication _ what | TOther what | StdException what => what end.

(** MessageProcessor::process_dispatch: the reply and the state of the handler.  An
    exception of the protocol goes to the server, which closes the connection. *)
Definition process_dispatch (seqid : Z) (s : S) i : outcome ((texn + I) * S) :=
  let* args := (let? (args, i) := dispatch_args_read (mkArgs wire_request_new false) i in
                let? _ := readMessageEnd i in tret args) in
  match args with
  | inl e => Ret (inl e, s)
  | inr args =>
      let* (r, s) := iface s wire_response_new (da_request args) in
      let* reply := match r with
        | inl e => write_exception (str "dispatch") seqid EX_UNKNOWN (what_of e)
        | inr success =>
            let o := put tp_open (TkMessageBegin (str "dispatch") T_REPLY seqid) in
            let o := dispatch_result_write (mkResult success true) o in
            flush (put o TkMessageEnd)
        end in
      Ret (reply, s)
  end.

(** MessageProcessor::dispatchCall: [processMap_] has one entry. *)
Definition dispatchCall (fname : cstr) (seqid : Z) (s : S) i : outcome ((texn + I) * S) :=
  if bool_decide (fname = str "dispatch") then process_dispatch seqid s i
  else
    let* reply := (let? _ := skip_message i in
                   write_exception fname seqid UNKNOWN_METHOD (str "Invalid method name: '" ++ fname ++ str "'")) in
    Ret (reply, s).

(** What the server of the library does with a frame. *)
Definition serve_frame (s : S) i : outcome ((texn + I) * S) :=
  let* m := readMessageBegin i in
  match m with
  | inl e => Ret (inl e, s)
  | inr (fname, _, seqid, i) => dispatchCall fname seqid s i
  end.

(** What the library throws when the input ends. *)
Definition end_of_file : texn := TTransport END_OF_FILE (str "No more data to read.").

(** MessageClient::dispatch against this server.  A server that throws closes the
    connection, which the client sees as the end of the input. *)
Definition rpc_dispatch (response : wire_response) (request : wire_request) (s : S)
    : outcome ((texn + wire_response) * S) :=
  let* sent := send_dispatch request in
  match sent with
  | inl e => Ret (inl e, s)
  | inr i =>
      let* (reply, s) := serve_frame s i in
      match reply with
      | inl _ => Ret (inl end_of_file, s)
      | inr i => let* r := (let? (response, _) := recv_dispatch response i in tret response) in Ret (r, s)
      end
  end.

(** MessageMultiface::dispatch: the loop runs to [sz - 1], which wraps when there is no
    interface. *)
Fixpoint multiface_loop (ifaces : list (S → wire_response → wire_request → outcome ((texn + wire_response) * S)))
    (response : wire_response) (request : wire_request) (s : S) : outcome ((texn + wire_response) * S) :=
  match ifaces with
  | [] => Fault
  | [f] => f s response request
  | f :: fs =>
      let* (r, s) := f s response request in
      match r with inl e => Ret (inl e, s) | inr response => multiface_loop fs response request s end
  end.
End processor.
End rpc.

(** ** The two ends the program has *)
(** The request MessageBroker::dispatch fills; [msh_id] is signed. *)
Definition to_wire (r : MessageRequest) : wire_request :=
  wire_set_msg (rq_msg r) (wire_set_msg_id (rq_msg_id r) (wire_set_msh_id (i64 (rq_msh_id r)) wire_request_new)).
Definition from_wire (r : wire_request) : MessageRequest := mkRequest (wq_msh_id r) (wq_msg_id r) (wq_msg r).

Definition code_number (c : ResponseCode) : Z := match c with RC_UNKNOWN => 0 | RC_OK => 1 | RC_ERROR => 2 end.
Definition number_code (z : Z) : ResponseCode := if z =? 1 then RC_OK else if z =? 2 then RC_ERROR else RC_UNKNOWN.

(** The handler of the broker as the interface of the processor. *)
Definition broker_iface (s : mheap * MsMessageBlockQueue) (response : wire_response) (request : wire_request)
    : outcome ((texn + wire_response) * (mheap * MsMessageBlockQueue)) :=
  let* (code, h, q) := MessageHandler_dispatch s.1 s.2 (from_wire request) in
  Ret (inr (set_code (code_number code) response), (h, q)).

(** What an attempt of the proxy sees of a call. *)
Definition as_call_result (r : texn + wire_response) : call_result :=
  match r with
  | inr response => Call_return (number_code (ws_code response))
  | inl (TTransport TIMED_OUT _) => Call_timed_out
  | inl (TTransport NOT_OPEN _) => Call_not_open
  | inl (TTransport _ _) => Call_transport
  | inl (TApplication _ _) => Call_application
  | inl _ => Call_other
  end.

(** ** Lemmas *)
(** What a structure holds after a field was read. *)
Definition request_update (r : wire_request) (f : cstr * Z * tvalue) : wire_request :=
  match f.2 with
  | VI64 v => if f.1.2 =? 1 then wire_set_msh_id v r else r
  | VBinary v => if f.1.2 =? 2 then wire_set_msg_id v r else if f.1.2 =? 3 then wire_set_msg v r else r
  | _ => r
  end.
Definition response_update (r : wire_response) (f : cstr * Z * tvalue) : wire_response :=
  match f.2 with
  | VI32 v => if f.1.2 =? 1 then set_code v r else r
  | VBinary v => if f.1.2 =? 2 then set_response_msg v r else r
  | _ => r
  end.
Definition args_update (a : dispatch_args) (f : cstr * Z * tvalue) : dispatch_args :=
  match f.2 with
  | VStruct _ fs => if f.1.2 =? 1 then mkArgs (foldl request_update (da_request a) fs) true else a
  | _ => a
  end.
Definition result_update (a : dispatch_result) (f : cstr * Z * tvalue) : dispatch_result :=
  match f.2 with
  | VStruct _ fs => if f.1.2 =? 0 then mkResult (foldl response_update (dr_success a) fs) true else a
  | _ => a
  end.

(** The numbers in a field fit their type. *)
Definition in_range (v : tvalue) : Prop :=
  match v with VI32 z => - 2 ^ 31 ≤ z < 2 ^ 31 | VI64 z => - 2 ^ 63 ≤ z < 2 ^ 63 | _ => True end.
Definition fields_ok (v : tvalue) : Prop :=
  match v with VStruct _ fs => Forall (λ f, in_range f.2) fs | _ => True end.

(** The fields a structure is written with. *)
Definition request_fields (r : wire_request) : list (cstr * Z * tvalue) :=
  (if wq_set_msh_id r then [(str "msh_id", 1, VI64 (wq_msh_id r))] else []) ++
  (if wq_set_msg_id r then [(str "msg_id", 2, VBinary (wq_msg_id r))] else []) ++
  (if wq_set_msg r then [(str "msg", 3, VBinary (wq_msg r))] else []).
Definition response_fields (r : wire_response) : list (cstr * Z * tvalue) :=
  (if ws_set_code r then [(str "code", 1, VI32 (ws_code r))] else []) ++
  (if ws_set_msg r then [(str "msg", 2, VBinary (ws_msg r))] else []).
Definition request_value (r : wire_request) : tvalue := VStruct (str "MessageRequest") (request_fields r).
Definition response_value (r : wire_response) : tvalue := VStruct (str "MessageResponse") (response_fields r).
Definition pargs_value (r : wire_request) : tvalue :=
  VStruct (str "Message_dispatch_pargs") [(str "request", 1, request_value r)].
Definition result_value (r : wire_response) : tvalue :=
  VStruct (str "Message_dispatch_result") [(str "success", 0, response_value r)].

(** What was not set reads as the default. *)
Definition request_seen (r : wire_request) : wire_request := foldl request_update wire_request_new (request_fields r).
Definition response_seen (r : wire_response) : wire_response := foldl response_update wire_response_new (response_fields r).

Lemma request_seen_eqb r : request_eqb r (request_seen r) = true.
Proof.
  destruct r as [a b c [] [] []]; unfold request_eqb, same_field; cbn; rewrite ?bool_decide_eq_true_2 by done; done.
Qed.
Lemma response_seen_eqb r : response_eqb r (response_seen r) = true.
Proof.
  destruct r as [a b [] []]; unfold response_eqb, same_field; cbn; rewrite ?bool_decide_eq_true_2 by done; done.
Qed.

Section rpc_lemmas.
Context {O I : Type} {HP : TProtocol O I} {HL : TProtocolLaws O I} {HR : TProtocolReads O I}.
Implicit Types (i : I) (o : O).

(** *** Size *)
Definition shrinks {A} (i : I) (r : A * I) : Prop := (tp_size r.2 ≤ tp_size i)%nat.

Lemma reads_bind {A B} (c : thrift A) (k : A → thrift B) P Q :
  reads c P → (∀ a, P a → reads (k a) Q) → reads (tbind c k) Q.
Proof. destruct c as [[]| | | |]; cbn; naive_solver. Qed.

Lemma reads_weaken {A} (c : thrift A) (P Q : A → Prop) : reads c P → (∀ a, P a → Q a) → reads c Q.
Proof. destruct c as [[]| | | |]; cbn; naive_solver. Qed.

Lemma read_loop_reads {A} (field : Z → Z → A → I → thrift (A * I)) :
  (∀ fid ty a i, reads (field fid ty a i) (shrinks i)) →
  ∀ fuel a i, (tp_size i < fuel)%nat → reads (read_loop fuel field a i) (shrinks i).
Proof using HR.
  intros Hf fuel. induction fuel as [|fuel IH]; intros a i Hl; [lia|]. cbn [read_loop].
  eapply reads_bind; [apply field_begin_reads|]. intros [[[fname ty] fid] i1] H1. cbn in H1.
  destruct (ty =? T_STOP); [unfold shrinks; cbn; lia|].
  eapply reads_bind; [apply Hf|]. intros [a' i2] H2. unfold shrinks in H2. cbn in H2.
  eapply reads_bind; [apply field_end_reads|]. intros i3 H3. cbn in H3.
  eapply reads_weaken; [apply IH; lia|]. unfold shrinks. intros r ?. lia.
Qed.

Lemma read_struct_reads {A} (field : Z → Z → A → I → thrift (A * I)) :
  (∀ fid ty a i, reads (field fid ty a i) (shrinks i)) → ∀ a i, reads (read_struct field a i) (shrinks i).
Proof using HR.
  intros Hf a i. unfold read_struct. eapply reads_bind; [apply struct_begin_reads|]. intros [fname i1] H1. cbn in H1.
  eapply reads_bind; [apply read_loop_reads; [done|lia]|]. intros [a' i2] H2. unfold shrinks in H2. cbn in H2.
  eapply reads_bind; [apply struct_end_reads|]. intros i3 H3. unfold shrinks; cbn in *; lia.
Qed.

Lemma skip_field_reads {A} ty (a : A) i : reads (skip_field ty a i) (shrinks i).
Proof using HR. unfold skip_field. eapply reads_bind; [apply skip_reads|]. by intros. Qed.

Ltac field_reads :=
  repeat match goal with |- context [if ?b then _ else _] => destruct b end;
  first [apply skip_field_reads
        |eapply reads_bind; [first [apply i64_reads|apply i32_reads|apply binary_reads]|]; by intros [? ?]].

Lemma request_field_reads fid ty r i : reads (MessageRequest_field fid ty r i) (shrinks i).
Proof using HR. unfold MessageRequest_field. field_reads. Qed.
Lemma response_field_reads fid ty r i : reads (MessageResponse_field fid ty r i) (shrinks i).
Proof using HR. unfold MessageResponse_field. field_reads. Qed.

Lemma args_field_reads fid ty a i : reads (dispatch_args_field fid ty a i) (shrinks i).
Proof using HR.
  unfold dispatch_args_field. destruct (fid =? 1); [|apply skip_field_reads].
  destruct (ty =? T_STRUCT); [|apply skip_field_reads].
  eapply reads_bind; [apply read_struct_reads, request_field_reads|]. by intros [].
Qed.
Lemma result_field_reads fid ty a i : reads (dispatch_result_field fid ty a i) (shrinks i).
Proof using HR.
  unfold dispatch_result_field. destruct (fid =? 0); [|apply skip_field_reads].
  destruct (ty =? T_STRUCT); [|apply skip_field_reads].
  eapply reads_bind; [apply read_struct_reads, response_field_reads|]. by intros [].
Qed.

(** *** Contents *)
(** [field] reads a field with the effect [upd]. *)
Definition reads_field {A} (field : Z → Z → A → I → thrift (A * I)) (upd : A → cstr * Z * tvalue → A)
    (ok : tvalue → Prop) : Prop :=
  ∀ a f i ts, ok f.2 → tp_holds i (value_tokens f.2 ++ ts) →
    ∃ i', field f.1.2 (type_of f.2) a i = tret (upd a f, i') ∧ tp_holds i' ts.

Lemma type_not_stop v : (type_of v =? T_STOP) = false.
Proof. by destruct v. Qed.

Lemma read_loop_spec {A} (field : Z → Z → A → I → thrift (A * I)) upd ok :
  reads_field field upd ok → (∀ fid ty a i, reads (field fid ty a i) (shrinks i)) →
  ∀ fs fuel a i ts, Forall (λ f, ok f.2) fs → (tp_size i < fuel)%nat →
    tp_holds i (mjoin (field_tokens value_tokens <$> fs) ++ TkFieldStop :: ts) →
    ∃ i', read_loop fuel field a i = tret (foldl upd a fs, i') ∧ tp_holds i' ts.
Proof using HL HR.
  intros Hf Hs fs. induction fs as [|f fs IH]; intros [|fuel] a i ts Hok Hl Hh; [lia| |lia|]; cbn [read_loop].
  - destruct (field_stop_law i ts Hh) as (n & id & i' & -> & Hi). rewrite tbind_tret. eauto.
  - apply Forall_cons in Hok as [Hok1 Hok]. rewrite fmap_cons in Hh.
    change (mjoin (?x :: ?xs)) with (x ++ mjoin xs) in Hh. unfold field_tokens at 1 in Hh.
    cbn [app] in Hh. rewrite <-!app_assoc in Hh. cbn [app] in Hh.
    destruct (field_begin_law _ _ _ _ _ Hh) as (n & i1 & E1 & H1). rewrite E1, tbind_tret, type_not_stop.
    destruct (Hf a f i1 _ Hok1 H1) as (i2 & E2 & H2). rewrite E2, tbind_tret.
    destruct (field_end_law _ _ H2) as (i3 & E3 & H3). rewrite E3, tbind_tret. cbn [foldl].
    apply IH; [done| |done].
    pose proof (field_begin_reads i) as G1. rewrite E1 in G1. pose proof (Hs f.1.2 (type_of f.2) a i1) as G2.
    rewrite E2 in G2. pose proof (field_end_reads i2) as G3. rewrite E3 in G3.
    unfold reads, tret, shrinks in *. cbn [snd] in *. lia.
Qed.

Lemma read_struct_spec {A} (field : Z → Z → A → I → thrift (A * I)) upd ok :
  reads_field field upd ok → (∀ fid ty a i, reads (field fid ty a i) (shrinks i)) →
  ∀ name fs a i ts, Forall (λ f, ok f.2) fs → tp_holds i (value_tokens (VStruct name fs) ++ ts) →
    ∃ i', read_struct field a i = tret (foldl upd a fs, i') ∧ tp_holds i' ts.
Proof using HL HR.
  intros Hf Hs name fs a i ts Hok Hh. unfold read_struct. cbn [value_tokens app] in Hh.
  destruct (struct_begin_law _ _ _ Hh) as (n & i1 & E1 & H1). rewrite E1, tbind_tret.
  rewrite <-app_assoc in H1. cbn [app] in H1.
  destruct (read_loop_spec field upd ok Hf Hs fs (S (tp_size i1)) a i1 _ Hok ltac:(lia) H1) as (i2 & -> & H2).
  rewrite tbind_tret. destruct (struct_end_law _ _ H2) as (i3 & -> & H3). rewrite tbind_tret. eauto.
Qed.

Lemma skip_field_spec {A} (a : A) v i ts :
  tp_holds i (value_tokens v ++ ts) → ∃ i', skip_field (type_of v) a i = tret (a, i') ∧ tp_holds i' ts.
Proof using HL. intros (i' & E & H)%skip_law. exists i'. unfold skip_field. by rewrite E. Qed.

Lemma request_field_spec : reads_field MessageRequest_field request_update in_range.
Proof using HL.
  intros r [[name fid] v] i ts Hv Hh. cbn [fst snd] in *. unfold MessageRequest_field, request_update. cbn [fst snd].
  destruct (Z.eqb_spec fid 1) as [->|]; [|destruct (Z.eqb_spec fid 2) as [->|]; [|destruct (Z.eqb_spec fid 3) as [->|]]];
    destruct v as [z|z|bs|nm fs]; cbn -[skip_field value_tokens type_of];
    try (by apply (skip_field_spec r _ i ts Hh)); cbn in Hh.
  - destruct (i64_law i z ts Hv Hh) as (i' & -> & Hi). by exists i'.
  - destruct (binary_law i bs ts Hh) as (i' & -> & Hi). by exists i'.
  - destruct (binary_law i bs ts Hh) as (i' & -> & Hi). by exists i'.
Qed.

Lemma response_field_spec : reads_field MessageResponse_field response_update in_range.
Proof using HL.
  intros r [[name fid] v] i ts Hv Hh. cbn [fst snd] in *. unfold MessageResponse_field, response_update. cbn [fst snd].
  destruct (Z.eqb_spec fid 1) as [->|]; [|destruct (Z.eqb_spec fid 2) as [->|]];
    destruct v as [z|z|bs|nm fs]; cbn -[skip_field value_tokens type_of];
    try (by apply (skip_field_spec r _ i ts Hh)); cbn in Hh.
  - destruct (i32_law i z ts Hv Hh) as (i' & -> & Hi). by exists i'.
  - destruct (binary_law i bs ts Hh) as (i' & -> & Hi). by exists i'.
Qed.

Lemma args_field_spec : reads_field dispatch_args_field args_update fields_ok.
Proof using HL HR.
  intros a [[name fid] v] i ts Hv Hh. cbn [fst snd] in *. unfold dispatch_args_field, args_update. cbn [fst snd].
  destruct (Z.eqb_spec fid 1) as [->|]; destruct v as [z|z|bs|nm fs]; cbn -[skip_field value_tokens type_of];
    try (by apply (skip_field_spec a _ i ts Hh)).
  destruct (read_struct_spec _ _ _ request_field_spec request_field_reads nm fs (da_request a) i ts Hv Hh)
    as (i' & E & Hi). exists i'. unfold MessageRequest_read. by rewrite E.
Qed.

Lemma result_field_spec : reads_field dispatch_result_field result_update fields_ok.
Proof using HL HR.
  intros a [[name fid] v] i ts Hv Hh. cbn [fst snd] in *. unfold dispatch_result_field, result_update. cbn [fst snd].
  destruct (Z.eqb_spec fid 0) as [->|]; destruct v as [z|z|bs|nm fs]; cbn -[skip_field value_tokens type_of];
    try (by apply (skip_field_spec a _ i ts Hh)).
  destruct (read_struct_spec _ _ _ response_field_spec response_field_reads nm fs (dr_success a) i ts Hv Hh)
    as (i' & E & Hi). exists i'. unfold MessageResponse_read. by rewrite E.
Qed.

(** *** Writing *)
Lemma puts_wrote o ts : tp_wrote (puts o ts) = tp_wrote o ++ ts.
Proof using HL.
  unfold puts. revert o. induction ts as [|t ts IH]; intros o; cbn [foldl]; [by rewrite app_nil_r|].
  by rewrite IH, put_law, <-app_assoc.
Qed.

(** [w] writes the tokens [ts]. *)
Definition writes (w : O → O) (ts : list token) : Prop := ∀ o, tp_wrote (w o) = tp_wrote o ++ ts.

Lemma write_field_wrote set name ftype fid value ts :
  writes value ts →
  writes (write_field set name ftype fid value) (if set then TkFieldBegin name ftype fid :: ts ++ [TkFieldEnd] else []).
Proof using HL.
  intros Hv o. unfold write_field. destruct set; [|by rewrite app_nil_r].
  rewrite put_law, Hv, put_law, <-!app_assoc. done.
Qed.

Lemma put_wrote t : writes (λ o, put o t) [t].
Proof using HL. intros o. apply put_law. Qed.

Lemma request_wrote r : writes (MessageRequest_write r) (value_tokens (request_value r)).
Proof using HL.
  intros o. unfold MessageRequest_write, write_stop. rewrite puts_wrote.
  do 3 (erewrite write_field_wrote by apply put_wrote). rewrite put_law. unfold request_value, request_fields.
  destruct (wq_set_msh_id r), (wq_set_msg_id r), (wq_set_msg r); cbn; rewrite <-!app_assoc; done.
Qed.

Lemma response_wrote r : writes (MessageResponse_write r) (value_tokens (response_value r)).
Proof using HL.
  intros o. unfold MessageResponse_write, write_stop. rewrite puts_wrote.
  do 2 (erewrite write_field_wrote by apply put_wrote). rewrite put_law. unfold response_value, response_fields.
  destruct (ws_set_code r), (ws_set_msg r); cbn; rewrite <-!app_assoc; done.
Qed.

Lemma one_field_tokens name fname id v :
  value_tokens (VStruct name [(fname, id, v)]) =
  TkStructBegin name :: TkFieldBegin fname (type_of v) id :: value_tokens v ++ [TkFieldEnd; TkFieldStop; TkStructEnd].
Proof using.
  cbn [value_tokens fmap list_fmap]. unfold field_tokens. cbn [fst snd].
  change (mjoin [?x]) with (x ++ []). by rewrite app_nil_r, <-app_comm_cons, <-app_assoc.
Qed.

Lemma pargs_wrote r : writes (dispatch_pargs_write r) (value_tokens (pargs_value r)).
Proof using HL.
  intros o. unfold dispatch_pargs_write, write_stop. rewrite puts_wrote.
  erewrite write_field_wrote by apply request_wrote. rewrite put_law.
  unfold pargs_value. rewrite one_field_tokens, <-!app_assoc. cbn [app]. by rewrite <-!app_assoc.
Qed.

Lemma result_wrote r : writes (dispatch_result_write (mkResult r true)) (value_tokens (result_value r)).
Proof using HL.
  intros o. unfold dispatch_result_write, write_stop. rewrite puts_wrote. cbn [dr_set_success dr_success].
  erewrite write_field_wrote by apply response_wrote. rewrite put_law.
  unfold result_value. rewrite one_field_tokens, <-!app_assoc. cbn [app]. by rewrite <-!app_assoc.
Qed.

Lemma request_fields_ok r : - 2 ^ 63 ≤ wq_msh_id r < 2 ^ 63 → fields_ok (request_value r).
Proof using. intros H. destruct r as [a b c [] [] []]; cbn in *; rewrite ?Forall_cons, ?Forall_nil; cbn; split_and?; try done; lia. Qed.
Lemma response_fields_ok r : - 2 ^ 31 ≤ ws_code r < 2 ^ 31 → fields_ok (response_value r).
Proof using. intros H. destruct r as [a b [] []]; cbn in *; rewrite ?Forall_cons, ?Forall_nil; cbn; split_and?; try done; lia. Qed.

(** *** Calls *)
Section calls.
Context (Hnet : ∀ o, ∃ i, flush o = tret i).

Lemma send_dispatch_spec r :
  ∃ i, send_dispatch r = tret i ∧
    tp_holds i (TkMessageBegin (str "dispatch") T_CALL 0 :: value_tokens (pargs_value r) ++ [TkMessageEnd]).
Proof using HL Hnet.
  unfold send_dispatch. destruct (Hnet (put (dispatch_pargs_write r (put tp_open
    (TkMessageBegin (str "dispatch") T_CALL 0))) TkMessageEnd)) as [i E]. exists i. split; [done|].
  apply flush_law in E. rewrite put_law, pargs_wrote, put_law, open_law in E. done.
Qed.

Lemma write_exception_spec name seqid t what :
  ∃ i, write_exception name seqid t what = tret i ∧
    tp_holds i [TkMessageBegin name T_EXCEPTION seqid; TkException t what; TkMessageEnd].
Proof using HL Hnet.
  unfold write_exception. match goal with |- context [flush ?o] => destruct (Hnet o) as [i E] end.
  exists i. split; [done|]. apply flush_law in E. by rewrite puts_wrote, open_law in E.
Qed.

Lemma recv_exception response i name seqid t what :
  tp_holds i [TkMessageBegin name T_EXCEPTION seqid; TkException t what; TkMessageEnd] →
  recv_dispatch response i = throw (TApplication t what).
Proof using HL.
  intros Hh. unfold recv_dispatch. destruct (message_begin_law _ _ _ _ _ Hh) as (i1 & -> & H1).
  rewrite tbind_tret. cbn [Z.eqb T_EXCEPTION Pos.eqb].
  destruct (exception_law _ _ _ _ H1) as (i2 & -> & H2). rewrite tbind_tret.
  destruct (message_end_law _ _ H2) as (i3 & -> & _). done.
Qed.

Lemma recv_reply response i seqid success ts :
  - 2 ^ 31 ≤ ws_code success < 2 ^ 31 →
  tp_holds i (TkMessageBegin (str "dispatch") T_REPLY seqid :: value_tokens (result_value success) ++ TkMessageEnd :: ts) →
  ∃ i', recv_dispatch response i = tret (foldl response_update response (response_fields success), i') ∧ tp_holds i' ts.
Proof using HL HR.
  intros Hc Hh. unfold recv_dispatch. destruct (message_begin_law _ _ _ _ _ Hh) as (i1 & -> & H1).
  rewrite tbind_tret. cbn [Z.eqb T_EXCEPTION T_REPLY Pos.eqb negb]. rewrite tbind_tret.
  rewrite bool_decide_eq_true_2 by done. cbn [negb]. rewrite tbind_tret.
  unfold dispatch_presult_read.
  destruct (read_struct_spec _ _ _ result_field_spec result_field_reads (str "Message_dispatch_result")
    [(str "success", 0, response_value success)] (mkResult response false) i1 (TkMessageEnd :: ts))
    as (i2 & -> & H2); [|done|].
  { apply Forall_singleton. by apply response_fields_ok. }
  rewrite tbind_tret. destruct (message_end_law _ _ H2) as (i3 & -> & H3). rewrite tbind_tret. by exists i3.
Qed.

Context {S : Type} (iface : S → wire_response → wire_request → outcome ((texn + wire_response) * S)).

Lemma process_dispatch_spec seqid s i request r s' :
  - 2 ^ 63 ≤ wq_msh_id request < 2 ^ 63 →
  iface s wire_response_new (request_seen request) = Ret (r, s') →
  tp_holds i (value_tokens (pargs_value request) ++ [TkMessageEnd]) →
  ∃ j, process_dispatch iface seqid s i = Ret (inr j, s') ∧
    match r with
    | inl e => tp_holds j [TkMessageBegin (str "dispatch") T_EXCEPTION seqid; TkException EX_UNKNOWN (what_of e); TkMessageEnd]
    | inr success => tp_holds j (TkMessageBegin (str "dispatch") T_REPLY seqid ::
        value_tokens (result_value success) ++ [TkMessageEnd])
    end.
Proof using HL HR Hnet.
  intros Hr Hi Hh. unfold process_dispatch, dispatch_args_read.
  destruct (read_struct_spec _ _ _ args_field_spec args_field_reads (str "Message_dispatch_pargs")
    [(str "request", 1, request_value request)] (mkArgs wire_request_new false) i [TkMessageEnd])
    as (i2 & -> & H2); [|done|].
  { apply Forall_singleton. by apply request_fields_ok. }
  rewrite tbind_tret. destruct (message_end_law _ _ H2) as (i3 & -> & _). rewrite tbind_tret.
  unfold tret at 1. cbn [obind]. change (da_request _) with (request_seen request). rewrite Hi. cbn [obind].
  destruct r as [e|success].
  - destruct (write_exception_spec (str "dispatch") seqid EX_UNKNOWN (what_of e)) as (j & -> & Hj).
    exists j. by split.
  - match goal with |- context [flush ?o] => destruct (Hnet o) as [j E] end. rewrite E. cbn [obind].
    exists j. split; [done|]. apply flush_law in E. rewrite put_law, result_wrote, put_law, open_law in E. done.
Qed.

Lemma rpc_dispatch_spec response request s r s' :
  - 2 ^ 63 ≤ wq_msh_id request < 2 ^ 63 →
  iface s wire_response_new (request_seen request) = Ret (r, s') →
  match r with inr success => - 2 ^ 31 ≤ ws_code success < 2 ^ 31 | _ => True end →
  rpc_dispatch iface response request s = Ret (match r with
    | inl e => inl (TApplication EX_UNKNOWN (what_of e))
    | inr success => inr (foldl response_update response (response_fields success)) end, s').
Proof using HL HR Hnet.
  intros Hr Hi Hc. unfold rpc_dispatch. destruct (send_dispatch_spec request) as (i & -> & Hh). cbn [obind tret].
  unfold serve_frame. destruct (message_begin_law _ _ _ _ _ Hh) as (i1 & -> & H1). cbn [obind tret].
  unfold dispatchCall. rewrite bool_decide_eq_true_2 by done.
  destruct (process_dispatch_spec 0 s i1 request r s' Hr Hi H1) as (j & -> & Hj). cbn [obind].
  destruct r as [e|success].
  - by rewrite (recv_exception _ _ _ _ _ _ Hj).
  - destruct (recv_reply response j 0 success [] Hc Hj) as (j' & -> & _). done.
Qed.
End calls.
End rpc_lemmas.

(** ** A protocol that passes the calls on as they are *)
Definition expect {A} (p : token → option A) (ts : list token) : thrift (A * list token) :=
  match ts with
  | [] => throw end_of_file
  | t :: ts => match p t with Some a => tret (a, ts) | None => throw (TOther (str "unexpected")) end
  end.
Definition expect_only (p : token → bool) (ts : list token) : thrift (list token) :=
  let? (_, ts) := expect (λ t, if p t then Some tt else None) ts in tret ts.

(** Passing over a structure: [depth] of them are open. *)
Fixpoint skip_struct (depth : nat) (ts : list token) : thrift (list token) :=
  match ts with
  | [] => throw end_of_file
  | TkStructBegin _ :: ts => skip_struct (S depth) ts
  | TkStructEnd :: ts => match depth with S (S d) => skip_struct (S d) ts | _ => tret ts end
  | _ :: ts => skip_struct depth ts
  end.

#[export] Instance token_protocol : TProtocol (list token) (list token) := {|
  tp_open := [];
  put o t := o ++ [t];
  flush o := tret o;
  readMessageBegin ts :=
    let? (r, ts) := expect (λ t, match t with TkMessageBegin n m s => Some (n, m, s) | _ => None end) ts in tret (r, ts);
  readMessageEnd := expect_only (λ t, match t with TkMessageEnd => true | _ => false end);
  readStructBegin := expect (λ t, match t with TkStructBegin n => Some n | _ => None end);
  readStructEnd := expect_only (λ t, match t with TkStructEnd => true | _ => false end);
  readFieldBegin ts :=
    expect (λ t, match t with TkFieldBegin n ty id => Some (n, ty, id) | TkFieldStop => Some ([], T_STOP, 0) | _ => None end) ts;
  readFieldEnd := expect_only (λ t, match t with TkFieldEnd => true | _ => false end);
  readI32 := expect (λ t, match t with TkI32 v => Some v | _ => None end);
  readI64 := expect (λ t, match t with TkI64 v => Some v | _ => None end);
  readBinary := expect (λ t, match t with TkBinary v => Some v | _ => None end);
  readException := expect (λ t, match t with TkException ty what => Some (ty, what) | _ => None end);
  skip ts ty := if ty =? T_STRUCT then skip_struct 0 ts else let? (_, ts) := expect Some ts in tret ts;
  tp_size := length |}.

Lemma skip_struct_value v : ∀ d ts, skip_struct (S d) (value_tokens v ++ ts) = skip_struct (S d) ts.
Proof.
  revert v. fix IH 1. intros [z|z|bs|name fs] d ts; [reflexivity..|]. cbn [value_tokens app skip_struct].
  assert (∀ ts, skip_struct (S (S d)) (mjoin (field_tokens value_tokens <$> fs) ++ ts) = skip_struct (S (S d)) ts) as Hfs.
  { induction fs as [|[[n id] v] fs IHfs]; intros us; [done|]. rewrite fmap_cons.
    change (mjoin (?x :: ?xs)) with (x ++ mjoin xs). unfold field_tokens at 1. cbn [fst snd app skip_struct].
    rewrite <-!app_assoc, IH. cbn [app skip_struct]. apply IHfs. }
  by rewrite <-app_assoc, Hfs.
Qed.

Lemma skip_token_value v ts : skip (value_tokens v ++ ts) (type_of v) = tret ts.
Proof.
  destruct v as [z|z|bs|name fs]; [done..|].
  unfold skip, token_protocol. cbn [type_of Z.eqb T_STRUCT Pos.eqb value_tokens app skip_struct].
  assert (∀ us, skip_struct 1 (mjoin (field_tokens value_tokens <$> fs) ++ us) = skip_struct 1 us) as Hfs.
  { induction fs as [|[[n id] v] fs IHfs]; intros us; [done|]. rewrite fmap_cons.
    change (mjoin (?x :: ?xs)) with (x ++ mjoin xs). unfold field_tokens at 1. cbn [fst snd app skip_struct].
    rewrite <-!app_assoc, skip_struct_value. cbn [app skip_struct]. apply IHfs. }
  by rewrite <-app_assoc, Hfs.
Qed.

#[export] Instance token_protocol_laws : TProtocolLaws (list token) (list token).
Proof.
  refine {| tp_wrote o := o; tp_holds i ts := i = ts |}; try (intros; subst; cbn; eauto; done).
  - by intros o i [= ->].
  - intros i v ts ->. exists ts. split; [|done]. apply skip_token_value.
Defined.

Lemma skip_struct_reads d ts : reads (skip_struct d ts) (λ us, (length us ≤ length ts)%nat).
Proof.
  revert d. induction ts as [|t ts IH]; intros d; [done|].
  destruct t; cbn [skip_struct]; try (eapply reads_weaken; [apply IH|]; cbn; lia).
  destruct d as [|[|d]]; [cbn; lia..|]. eapply reads_weaken; [apply IH|]. cbn; lia.
Qed.

#[export] Instance token_protocol_reads : TProtocolReads (list token) (list token).
Proof.
  split; intros i; try (destruct i as [|[] i]; cbn; lia).
  intros t. cbn. destruct (t =? T_STRUCT); [apply skip_struct_reads|]. destruct i; cbn; lia.
Qed.

(** ** The broker at the other end *)
Lemma MessageHandler_dispatch_spec h q ls request :
  bq_rep h q ls → 0 < Z.of_nat (length (rq_msg request)) < 2 ^ 31 - 8 →
  ∃ h' q' l m, MessageHandler_dispatch h q request = Ret (RC_OK, h', q') ∧
    bq_rep h' q' (ls ++ [l]) ∧ h !! l = None ∧ h' !! l = Some m ∧
    read_data m = Ret (rq_msg request) ∧ msg_priority m = 1.
Proof.
  intros Hq Hl. unfold MessageHandler_dispatch.
  destruct (rq_msg request) as [|b0 bs0] eqn:Em; [cbn in Hl; lia|]. rewrite <-Em. rewrite <-Em in Hl. clear b0 bs0 Em.
  rewrite i32_id by lia.
  destruct (createIMessage_spec h (Z.of_nat (length (rq_msg request)))) as (l & m & -> & Hn & Hf & Hd & Hs & Hm); [lia|].
  cbn [obind]. rewrite (modify_Some _ _ m) by apply lookup_insert_eq. cbn [obind]. rewrite insert_insert_eq.
  set (m1 := set_priority (bits 4 1) m).
  assert (framed m1) as Hf1 by done.
  destruct (write_data_spec (<[l := m1]> h) l m1 (rq_msg request)) as (buf & -> & Hf2 & Hr);
    [apply lookup_insert_eq|done|done|]. cbn [obind]. rewrite insert_insert_eq.
  assert (l ∉ ls) as Hnl.
  { intros Hin. destruct (lseg_in _ _ _ _ _ (proj1 (proj1 Hq)) Hin) as [? ?]. congruence. }
  destruct (bq_put_spec (<[l := set_b buf m1]> h) q ls l (set_b buf m1)) as (h' & q' & -> & Hq' & Hrel);
    [by apply bq_rep_store|apply lookup_insert_eq|done|]. cbn [obind].
  destruct (links_only_Some _ _ l (set_b buf m1) (proj1 Hrel)) as (m' & Em' & Hu); [apply lookup_insert_eq|].
  exists h', q', l, m'. split; [done|]. split; [done|]. split; [done|]. split; [done|].
  unfold unlink in Hu. cbn in Hu. split.
  - rewrite <-Hr. exact (f_equal read_data Hu).
  - exact (f_equal msg_priority Hu).
Qed.

(** The servers of the service, each with its messages and the workers' queue, and what
    the network does with the call of an attempt: it carries the request and the reply,
    or loses one of them, which the client sees as an exception. *)
Abbreviation servers := (gmap (cstr * Z) (mheap * MsMessageBlockQueue)).
Inductive fate := Delivers | Request_lost (e : texn) | Reply_lost (e : texn).

(** [clientp->get_client()->dispatch(response, request)] with a client of the replica [a];
    where no server is any more the connection ends. *)
Definition replica_call {O I} `{TProtocol O I} (fates : nat → fate) (request : MessageRequest) (k : nat) (a : cstr * Z)
    (w : servers) : outcome (call_result * servers) :=
  match w !! a, fates k with
  | _, Request_lost e => Ret (as_call_result (inl e), w)
  | None, _ => Ret (as_call_result (inl end_of_file), w)
  | Some s, Delivers =>
      let* (r, s) := rpc_dispatch broker_iface wire_response_new (to_wire request) s in
      Ret (as_call_result r, <[a := s]> w)
  | Some s, Reply_lost e =>
      let* (_, s) := rpc_dispatch broker_iface wire_response_new (to_wire request) s in
      Ret (as_call_result (inl e), <[a := s]> w)
  end.

(** [_service->acquire()->dispatch(response, request)] of MessageBroker::dispatch: the
    proxy of the service with its three attempts. *)
Definition broker_call {O I} `{TProtocol O I} (clock : nat → Z * Z) (fates : nat → fate) (w : servers) (n : net)
    (c : PooledClientImpl) (request : MessageRequest)
    : outcome (proxy_result * servers * net * PooledClientImpl * list (nat * (cstr * Z) * call_result)) :=
  MessageProxy_dispatch clock (replica_call fates request) w n c.
Definition answered (c : outcome (proxy_result * servers * net * PooledClientImpl * list (nat * (cstr * Z) * call_result)))
    : rpc_result :=
  match c with Ret (r, _, _, _, _) => as_rpc_result r | _ => Rpc_exception end.

Lemma request_seen_to_wire request : request_seen (to_wire request) = to_wire request.
Proof. done. Qed.

(** Every server's queue is in order. *)
Definition servers_ok (w : servers) : Prop := map_Forall (λ _ s, ∃ ls, bq_rep s.1 s.2 ls) w.

(** [w'] is [w] after [k] messages with the bytes [bs] were put, each new and at the end of
    the queue of one of the servers. *)
Inductive delivered (bs : list Z) (w : servers) : nat → servers → Prop :=
  | delivered_none : delivered bs w 0 w
  | delivered_one k w1 a h q ls h' q' l m :
      delivered bs w k w1 → w1 !! a = Some (h, q) → bq_rep h q ls → bq_rep h' q' (ls ++ [l]) →
      h !! l = None → h' !! l = Some m → read_data m = Ret bs → delivered bs w (S k) (<[a := (h', q')]> w1).

(** The call of an entry of the proxy's log got to a server. *)
Definition arrives (fates : nat → fate) (w : servers) (e : log_entry) : bool :=
  match w !! e.1.2, fates e.1.1 with Some _, Request_lost _ => false | Some _, _ => true | None, _ => false end.
Definition arrivals (fates : nat → fate) (w : servers) (log : list log_entry) : nat :=
  length (filter (λ e, arrives fates w e = true) log).

Section crossing.
Context {O I : Type} {HP : TProtocol O I} {HL : TProtocolLaws O I} {HR : TProtocolReads O I}.
Context (Hnet : ∀ o : O, ∃ i : I, flush o = tret i).
Context (fates : nat → fate) (request : MessageRequest) (Hlen : 0 < Z.of_nat (length (rq_msg request)) < 2 ^ 31 - 8).
Context (w0 : servers).

(** The states the servers come to. *)
Definition serving (w : servers) : Prop := servers_ok w ∧ dom w = dom w0.

Lemma serving_lookup w a : serving w → is_Some (w !! a) ↔ is_Some (w0 !! a).
Proof. intros [_ Hd]. rewrite <-!(elem_of_dom (D := gset (cstr * Z))). by rewrite Hd. Qed.

(** A request that gets to a server is put at the end of its queue. *)
Lemma rpc_serves w a h q :
  serving w → w !! a = Some (h, q) →
  ∃ ls h' q' l m, rpc_dispatch broker_iface wire_response_new (to_wire request) (h, q) =
      Ret (inr (set_code 1 wire_response_new), (h', q')) ∧ serving (<[a := (h', q')]> w) ∧
    bq_rep h q ls ∧ bq_rep h' q' (ls ++ [l]) ∧ h !! l = None ∧ h' !! l = Some m ∧ read_data m = Ret (rq_msg request).
Proof using HL HR Hlen Hnet.
  intros [Hok Hdom] Ea. destruct (Hok _ _ Ea) as [ls Hq].
  destruct (MessageHandler_dispatch_spec h q ls (from_wire (to_wire request))) as (h' & q' & l & m & Eh & Hq' & Hn & Em & Hr & _);
    [exact Hq|exact Hlen|].
  exists ls, h', q', l, m. split; [|split; [split|done]].
  - rewrite (rpc_dispatch_spec Hnet broker_iface _ _ _ (inr (set_code 1 wire_response_new)) (h', q')); [reflexivity| | |].
    + cbn. pose proof (Z.mod_pos_bound (rq_msh_id request + 2 ^ 63) (2 ^ 64)). unfold i64. lia.
    + rewrite request_seen_to_wire. unfold broker_iface. cbn [fst snd]. rewrite Eh. reflexivity.
    + cbn. lia.
  - apply map_Forall_insert_2; [by exists (ls ++ [l])|done].
  - rewrite dom_insert_lookup_L; [done|eauto].
Qed.

(** A call delivers one message or none. *)
Lemma replica_call_spec w k i a :
  serving w → delivered (rq_msg request) w0 i w →
  ∃ r w', replica_call fates request k a w = Ret (r, w') ∧ serving w' ∧
    delivered (rq_msg request) w0 ((if arrives fates w0 (k, a, r) then 1 else 0) + i) w' ∧
    (is_Some (w0 !! a) → fates k = Delivers → r = Call_return RC_OK) ∧
    (∀ code, r = Call_return code → arrives fates w0 (k, a, r) = true).
Proof using HL HR Hlen Hnet.
  intros Hw Hdel. unfold replica_call, arrives. cbn [fst snd]. pose proof (serving_lookup w a Hw) as Hl.
  assert (∀ e code, as_call_result (inl e) = Call_return code → False) as Hthrow.
  { intros [[] ?| | |]; done. }
  destruct (w !! a) as [[h q]|] eqn:Ea.
  - destruct (proj1 Hl) as [s0 Es0]; [by eexists|]. rewrite Es0.
    destruct (rpc_serves w a h q Hw Ea) as (ls & h' & q' & l & m & Hrpc & Hw' & Hq & Hq' & Hn & Em & Hr).
    pose proof (delivered_one _ _ _ _ _ _ _ _ _ _ _ _ Hdel Ea Hq Hq' Hn Em Hr) as Hdel'.
    destruct (fates k) as [|e|e]; [rewrite Hrpc; cbn [obind]| |rewrite Hrpc; cbn [obind]].
    + eexists _, _. split; [done|]. split_and!; done.
    + eexists _, w. split; [done|]. split_and!; [done..|]. by intros code ?%Hthrow.
    + eexists _, _. split; [done|]. by split_and!.
  - assert (w0 !! a = None) as -> by (apply eq_None_not_Some; by intros []%Hl).
    destruct (fates k) as [|e|e]; (eexists _, w; split; [done|]; split_and!; [done..|by intros []|by intros code ?%Hthrow]).
Qed.

Lemma replica_call_total w k a :
  serving w → ∃ r w', replica_call fates request k a w = Ret (r, w') ∧ serving w'.
Proof using HL HR Hlen Hnet.
  intros Hw. unfold replica_call. destruct (w !! a) as [[h q]|] eqn:Ea; [|destruct (fates k); eauto].
  destruct (rpc_serves w a h q Hw Ea) as (ls & h' & q' & l & m & Hrpc & Hw' & _).
  destruct (fates k); rewrite ?Hrpc; cbn [obind]; eauto.
Qed.

(** The servers after the calls of a log. *)
Lemma replays_delivered log w' :
  servers_ok w0 → replays (replica_call fates request) w0 log w' →
  serving w' ∧ delivered (rq_msg request) w0 (arrivals fates w0 log) w' ∧
  Forall (λ e : log_entry, (is_Some (w0 !! e.1.2) → fates e.1.1 = Delivers → e.2 = Call_return RC_OK) ∧
    (∀ code, e.2 = Call_return code → arrives fates w0 e = true)) log.
Proof using HL HR Hlen Hnet.
  intros Hok. revert w'. induction log as [|[[k a] r] log IH]; intros w'; cbn [replays].
  { intros ->. split; [done|]. split; [constructor|constructor]. }
  intros (w1 & Hre & Hc). destruct (IH w1 Hre) as (Hw1 & Hdel & Hall).
  destruct (replica_call_spec w1 k _ a Hw1 Hdel) as (r' & w2 & Hc' & Hw2 & Hdel2 & H1 & H2).
  rewrite Hc in Hc'. injection Hc' as <- <-. split; [done|]. split; [|by constructor].
  unfold arrivals in *. rewrite filter_cons. cbv beta. destruct (arrives fates w0 (k, a, r)) eqn:Ea.
  - by rewrite decide_True by done.
  - by rewrite decide_False by done.
Qed.
End crossing.

(** ** Properties *)

(** C22: a remote call reaches the handler exactly once and brings its answer back.  Over
    any protocol that reads what it wrote, and a network that delivers, the handler is
    called with a request equal (by [operator==]) to the one that was sent; the response
    the caller gets is equal to the one the handler gave; if the handler throws, the
    caller gets a TApplicationException with the same text. *)
Theorem rpc_reaches_handler {O I S} `{TProtocolLaws O I} `{!TProtocolReads O I}
    (iface : S → wire_response → wire_request → outcome ((texn + wire_response) * S)) (s : S) (request : wire_request)
    (Hnet : ∀ o : O, ∃ i : I, flush o = tret i)
    (Hid : - 2 ^ 63 ≤ wq_msh_id request < 2 ^ 63) :
  ∃ seen, request_eqb request seen = true ∧
    (∀ success s', iface s wire_response_new seen = Ret (inr success, s') → - 2 ^ 31 ≤ ws_code success < 2 ^ 31 →
      ∃ response, rpc_dispatch iface wire_response_new request s = Ret (inr response, s') ∧
        response_eqb success response = true) ∧
    (∀ e s', iface s wire_response_new seen = Ret (inl e, s') →
      rpc_dispatch iface wire_response_new request s = Ret (inl (TApplication EX_UNKNOWN (what_of e)), s')).
Proof.
  exists (request_seen request). split; [apply request_seen_eqb|]. split.
  - intros success s' Hi Hc. exists (response_seen success). split; [|apply response_seen_eqb].
    by rewrite (rpc_dispatch_spec Hnet iface _ _ _ _ _ Hid Hi).
  - intros e s' Hi. by rewrite (rpc_dispatch_spec Hnet iface _ _ _ _ _ Hid Hi).
Qed.

(** A handler that counts its calls and repeats the text of the request. *)
Definition wit_handler (n : nat) (response : wire_response) (request : wire_request)
    : outcome ((texn + wire_response) * nat) :=
  Ret (inr (set_response_msg (wq_msg request) (set_code 1 response)), S n).

Lemma rpc_reaches_handler_witness :
  ∃ response, rpc_dispatch (O := list token) (I := list token) wit_handler wire_response_new
      (wire_set_msg [7; 8] wire_request_new) 0%nat = Ret (inr response, 1%nat) ∧ ws_msg response = [7; 8].
Proof.
  destruct (rpc_reaches_handler (O := list token) (I := list token) wit_handler 0%nat (wire_set_msg [7; 8] wire_request_new))
    as (seen & Hs & Hok & _); [by intros o; exists o|cbn; lia|].
  assert (wq_msg seen = [7; 8]) as Hm.
  { destruct seen as [a b c [] [] []]; unfold request_eqb, same_field in Hs; cbn in Hs; try done.
    repeat case_bool_decide; cbn in Hs; by subst. }
  destruct (Hok (set_response_msg (wq_msg seen) (set_code 1 wire_response_new)) 1%nat) as (r & Er & He); [done|cbn; lia|].
  exists r. split; [exact Er|]. rewrite Hm in He. destruct r as [c m [] []]; unfold response_eqb, same_field in He; cbn in He; try done.
  all: repeat case_bool_decide; cbn in He; by subst.
Defined.

(** C14: a chat message that goes to another server: MessageBroker::dispatch at one end,
    through the proxy of the service with its pools and three attempts, and the handlers
    with the workers' queues at the other.  For every choice of what the network does with
    each attempt, the queues of the servers together get one message for every attempt
    that got through, at most three, each with the bytes of the one that was sent, and no
    client stays borrowed.  The sender is told that it can drop its own message (0) only
    if one arrived at least; it is told to keep it (-1) otherwise, when copies may have
    arrived all the same.  If the pool whose turn it is has an open connection and no
    errors, a server is there and the network carries the first attempt, exactly one
    message arrives and the answer is 0. *)
Theorem chat_crosses_servers {O I} `{TProtocolLaws O I} `{!TProtocolReads O I} path num clock fates e m id bs s w
    (Hnum : 0 ≤ num) (Hr : service_reaches path num s)
    (He : errors_below (3 * (2 + length (pc_vec (sv_client s)))) (pc_vec (sv_client s)))
    (Hnet : ∀ o : O, ∃ i : I, flush o = tret i)
    (Hid : msg_id m = Some id)
    (Hdata : read_data m = Ret bs)
    (Hlen : 0 < Z.of_nat (length bs) < 2 ^ 31 - 8)
    (Hw : servers_ok w) :
  let call request := broker_call (O := O) (I := I) clock fates w (sv_net s) (sv_client s) request in
  ∃ code w' n' c' css' log,
    MessageBroker_dispatch (λ request, answered (call request)) e m = Ret code ∧
    call (mkRequest (ev_broker_instance e) id bs) = Ret (result_of log, w', n', c', log) ∧
    service_inv n' (pc_vec c') css' (sv_out s ++ releasing s) ∧
    delivered bs w (arrivals fates w log) w' ∧ (arrivals fates w log ≤ 3)%nat ∧
    (code = 0 ∧ (1 ≤ arrivals fates w log)%nat ∨ code = -1) ∧
    (∀ a, next_open (sv_net s) (sv_client s) a → is_Some (w !! a) → fates 2%nat = Delivers →
      code = 0 ∧ arrivals fates w log = 1%nat).
Proof.
  intros call. set (request := mkRequest (ev_broker_instance e) id bs).
  destruct (service_reaches_inv path num s Hnum Hr) as (css & [Hs _ _ _]).
  destruct (invoke_inv (serving w) clock (replica_call (O := O) (I := I) fates request)) with (retry := 3%nat) (w := w)
    (n := sv_net s) (c := sv_client s) (css := css) (out := sv_out s ++ releasing s) (log := @nil log_entry)
    as (w' & n' & c' & css' & log & Hrun & _ & Hs' & _ & Hlog & Hre & _ & Hnext); [|by split|done|done|].
  { intros k a w1 Hw1. by apply (replica_call_total Hnet fates request Hlen w). }
  rewrite app_nil_r in Hrun. destruct (replays_delivered Hnet fates request Hlen w log w' Hw Hre) as (_ & Hdel & Hall).
  exists (match result_of log with Proxy_return _ => 0 | _ => -1 end), w', n', c', css', log.
  assert (arrivals fates w log ≤ length log)%nat as Hle by apply length_filter.
  pose proof (log_ok_length _ _ Hlog). split_and!; [|exact Hrun|done|done|lia|..].
  - unfold MessageBroker_dispatch. rewrite Hid, Hdata. cbn [defined obind]. fold request.
    assert (call request = Ret (result_of log, w', n', c', log)) as -> by exact Hrun. by destruct (result_of log).
  - destruct log as [|[[k a] r] log]; [by right|]. apply Forall_cons in Hall as [[_ Hret] _].
    destruct r as [code| | | | |]; [|right; by destruct k..]. left. split; [by destruct k|].
    unfold arrivals. rewrite filter_cons_True by (by eapply Hret). cbn. lia.
  - intros a Hn Ha Hf. destruct (Hnext a) as [r Hlast]; [done..|].
    assert ((2%nat, a, r) ∈ log) as Hin by (by apply last_Some_elem_of).
    destruct (proj1 (Forall_forall _ _) Hall _ Hin) as [Hok Harr]. cbn in Hok, Harr. specialize (Hok Ha Hf). subst r.
    rewrite (log_single 3 log _ Hlog Hlast) by (intros Ht; by apply (Ht RC_OK)). split; [done|].
    unfold arrivals. rewrite filter_cons_True; [done|]. by apply (Harr RC_OK).
Qed.

Definition wit_sent : IMessage := set_id (Some [1; 2; 3; 4; 5; 6; 7; 8]) (new_message (Some <$> [0; 0; 0; 0; 0; 0; 0; 0; 9; 9]) 10 2 10).
(** The two replicas are up. *)
Definition wit_servers : servers :=
  <[(wit_host0, 9090) := (∅, MsMessageBlockQueue_new)]> (<[(wit_host1, 9090) := (∅, MsMessageBlockQueue_new)]> ∅).

Lemma chat_crosses_servers_witness :
  ∃ code, MessageBroker_dispatch (λ request, answered (broker_call (O := list token) (I := list token) (λ _, (0, 0))
      (λ k, if (k =? 2)%nat then Reply_lost end_of_file else Delivers) wit_servers (fst wit_state) (snd wit_state) request))
    (mkEnv 0 (0, 0) 0 77) wit_sent = Ret code ∧ (code = 0 ∨ code = -1).
Proof.
  destruct (chat_crosses_servers (O := list token) (I := list token) (str "/jdns/im/ms/rpc") 1 (λ _, (0, 0))
    (λ k, if (k =? 2)%nat then Reply_lost end_of_file else Delivers) (mkEnv 0 (0, 0) 0 77) wit_sent
    [1; 2; 3; 4; 5; 6; 7; 8] [9; 9] wit_svc wit_servers) as (code & w' & n' & c' & css' & log & H1 & _ & _ & _ & _ & H2 & _).
  - lia.
  - exact wit_reaches.
  - apply wit_errors. reflexivity.
  - by intros o; exists o.
  - reflexivity.
  - reflexivity.
  - cbn. lia.
  - unfold wit_servers, servers_ok. repeat (apply map_Forall_insert_2; [exists []; apply bq_new_rep|]). apply map_Forall_empty.
  - exists code. split; [exact H1|]. destruct H2 as [[H2 _]|H2]; [by left|by right].
Defined.

(** C29: reading a request or a result ends whatever the bytes are: for every input, also
    one that no thrift writer made, the loops over the fields return or throw. *)
Theorem rpc_reading_ends {O I} `{TProtocolReads O I} (i : I) (a : dispatch_args) (r : dispatch_result) :
  reads (dispatch_args_read a i) (λ x, (tp_size x.2 ≤ tp_size i)%nat) ∧
  reads (dispatch_result_read r i) (λ x, (tp_size x.2 ≤ tp_size i)%nat).
Proof.
  split; [apply read_struct_reads, args_field_reads|apply read_struct_reads, result_field_reads].
Qed.

(** Input no writer made: a structure that opens again and again. *)
Lemma rpc_reading_ends_witness :
  reads (dispatch_args_read (O := list token) (mkArgs wire_request_new false)
    [TkStructBegin []; TkFieldBegin [] T_STRUCT 1; TkStructBegin []; TkFieldBegin [] T_STRUCT 9; TkStructBegin []])
    (λ x, (length x.2 ≤ 5)%nat).
Proof.
  exact (proj1 (rpc_reading_ends (O := list token)
    [TkStructBegin []; TkFieldBegin [] T_STRUCT 1; TkStructBegin []; TkFieldBegin [] T_STRUCT 9; TkStructBegin []]
    (mkArgs wire_request_new false) (mkResult wire_response_new false))).
Defined.

(** a request is read field by field whatever their order: fields with a number or a
    type that is not known are passed over, and of a field that is there twice the last
    one counts. *)
Theorem request_read_by_fields {O I} `{TProtocolLaws O I} `{!TProtocolReads O I} (i : I) name fs ts r
    (Hok : Forall (λ f, in_range f.2) fs)
    (Hh : tp_holds i (value_tokens (VStruct name fs) ++ ts)) :
  ∃ i', MessageRequest_read r i = tret (foldl request_update r fs, i') ∧ tp_holds i' ts.
Proof. exact (read_struct_spec _ _ _ request_field_spec request_field_reads name fs r i ts Hok Hh). Qed.

Lemma request_read_by_fields_witness :
  ∃ i', MessageRequest_read wire_request_new (value_tokens (VStruct (str "x")
      [(str "msg", 3, VBinary [1]); (str "new", 9, VStruct (str "y") [(str "z", 1, VI32 5)]); (str "msg", 3, VBinary [2])])) =
    tret (wire_set_msg [2] wire_request_new, i') ∧ i' = [].
Proof.
  refine (request_read_by_fields (O := list token) (value_tokens (VStruct (str "x")
      [(str "msg", 3, VBinary [1]); (str "new", 9, VStruct (str "y") [(str "z", 1, VI32 5)]); (str "msg", 3, VBinary [2])]))
    (str "x") [(str "msg", 3, VBinary [1]); (str "new", 9, VStruct (str "y") [(str "z", 1, VI32 5)]); (str "msg", 3, VBinary [2])]
    [] wire_request_new _ _).
  - repeat constructor.
  - rewrite app_nil_r. reflexivity.
Defined.

(** The client throws nothing when a reply has another name: it passes over it and takes
    the bytes after it for the result, so that it waits for a message that does not come. *)
Example misnamed_reply_is_read_past (response : wire_response) :
  recv_dispatch (O := list token) response
    (TkMessageBegin (str "other") T_REPLY 0 :: value_tokens (result_value wire_response_new) ++ [TkMessageEnd]) =
  throw end_of_file.
Proof. reflexivity. Qed.

(** Several handlers are called in turn; with none the loop runs off the end. *)
Example multiface_without_handler {S} (response : wire_response) (request : wire_request) (s : S) :
  multiface_loop [] response request s = Fault.
Proof. reflexivity. Qed.
