(* ===== verification/Delivery.v ===== *)
(** From the local router to the wire: the queues of ms::MsMessageRouterLocal and of
    the I/O threads (framework/ms/ms_message_router_local.cpp, framework/io/
    io_app_cluster.cpp), the push handlers and the write handlers
    (framework/io/io_app.cpp, io_connection.cpp) put together.

    The components share one store of messages; a message belongs to one of them at a
    time: the router's queue, the queue of a thread, the outbox of a connection, or the
    queue of the collector.  Each turn of a thread touches the messages it owns only, so
    the turns of different threads are steps that may come in any order.  Connections
    neither open nor close here; messages that close their connection are left out. *)
From S2P Require Import Prelude Heap MsMessage MsQueues LibQueues IoPushList IoConnection IoAppConnection LinkedList ConnCache IoApp IoAppCluster MsRouter.

(** ** Messages on their way *)
(** A message, the I/O thread and the connection it is for, and its frame. *)
Record item := mkItem { it_loc : loc; it_io : Z; it_conn : Z; it_frame : list Z }.

Definition item_ok (mh : mheap) (it : item) : Prop :=
  frame_ready mh (it_loc it) (it_frame it) ∧
  ∃ m, mh !! it_loc it = Some m ∧ u32 (msg_io m) = it_io it ∧ msg_conn m = it_conn it ∧
    (msg_switch_state m = None ∨ is_Some (msg_state m)).

Definition locs_of (its : list item) : list loc := it_loc <$> its.
(** The items for a thread, and those for a connection. *)
Definition for_io (i : Z) (its : list item) : list item := filter (λ it, it_io it = i) its.
Definition for_conn (id : Z) (its : list item) : list item := filter (λ it, it_conn it = id) its.
Definition frames (its : list item) : list Z := mjoin (it_frame <$> its).

Lemma item_ok_frame mh mh' it : mh' !! it_loc it = mh !! it_loc it → item_ok mh it → item_ok mh' it.
Proof. unfold item_ok, frame_ready. by intros ->. Qed.

Lemma item_ok_unlinked mh mh' it :
  unlink <$> mh' !! it_loc it = unlink <$> mh !! it_loc it → item_ok mh it → item_ok mh' it.
Proof.
  intros E [(m & Em & H1 & H2 & H3) (m1 & Em1 & H)]. assert (m1 = m) as -> by congruence.
  rewrite Em in E. apply fmap_Some in E as (m' & Em' & Hu). unfold unlink in Hu. cbn in Hu.
  assert (∀ A (f : IMessage → A), (∀ p x, f (set_next p x) = f x) → f m' = f m) as Hf.
  { intros A f Hf. rewrite <-(Hf None m), <-(Hf None m'). by rewrite Hu. }
  split; exists m'; (split; [done|]).
  - by rewrite (Hf _ msg_close_conn), (Hf _ msg_frame_len), (Hf _ msg_b).
  - by rewrite (Hf _ msg_io), (Hf _ msg_conn), (Hf _ msg_switch_state), (Hf _ msg_state).
Qed.

Lemma item_ok_links mh mh' it : mh ≃ mh' → item_ok mh it → item_ok mh' it.
Proof. intros E. apply item_ok_unlinked. symmetry. by apply links_only_lookup. Qed.

Lemma items_ok_frame mh mh' its :
  (∀ l, l ∈ locs_of its → mh' !! l = mh !! l) → Forall (item_ok mh) its → Forall (item_ok mh') its.
Proof.
  rewrite !Forall_forall. intros Hf H it Hit. eapply item_ok_frame; [|by apply H].
  apply Hf. unfold locs_of. set_solver.
Qed.

(** ** A connection that can be written to *)
Definition EV_WRITING : Z := Z.lor EV_WRITE EV_PERSIST.

(** Its write event is registered. *)
Definition armed (c : IoConnection) : Prop :=
  c_wevent_flag c = EV_WRITING ∧ c_wevent c = Some (EV_WRITING, event_timeout (c_wtimeout c)).

(** Open, and waiting to write whenever there is something to write. *)
Definition writable (id : Z) (c : IoConnection) (o : outbox) : Prop :=
  c_id c = id ∧ c_destroy c = 0 ∧ c_socket c ≠ -1 ∧ c_wsock_state c = SOCKET_DATA_WRITE ∧
  (c_wevent_flag c = 0 ∨ armed c) ∧ (ob_all o ≠ [] → armed c).

Lemma setWrite_writable id c o o' : writable id c o → writable id (setWrite c true) o' ∧
  c_current_push (setWrite c true) = c_current_push c.
Proof.
  intros (H1 & H2 & H3 & H4 & H5 & _). unfold setWrite. rewrite H4. unfold _setWrite, setWriteFlag.
  change (Z.lor EV_WRITE EV_PERSIST) with EV_WRITING.
  destruct H5 as [H5|[H5 H6]]; rewrite H5.
  - cbn. split; [|done]. unfold writable, armed. cbn. auto 10.
  - rewrite Z.eqb_refl. split; [|done]. unfold writable, armed. auto 10.
Qed.

Lemma after_write_writable id c o o' :
  writable id c o → (ob_cur o' = None → ob_queue o' = []) → ob_all o' `suffix_of` ob_all o →
  writable id (after_write c o') o'.
Proof.
  intros (H1 & H2 & H3 & H4 & H5 & H6) Hidle Hsuf.
  destruct (after_write_fields c o') as (F1 & F2 & F3 & F4 & _).
  split_and!; rewrite ?F1, ?F2, ?F3, ?F4; try done.
  - unfold after_write. destruct (ob_cur o') as [[x k]|]; [done|]. left.
    unfold write_idle, _setRead, setReadFlag, _setWrite, setWriteFlag. cbn.
    destruct H5 as [H5|[H5 _]]; rewrite H5; cbn; repeat case_match; done.
  - intros Hne. assert (armed c) as Ha.
    { apply H6. destruct Hsuf as [ys Hs]. rewrite Hs. by destruct ys, (ob_all o'). }
    unfold after_write, ob_all in *. destruct (ob_cur o') as [[x k]|]; [done|]. by rewrite Hidle in Hne.
Qed.

(** ** One I/O thread *)
Section thread.
Context {S : Type}.
Implicit Types (a : IoApp S) (os : gmap Z outbox).

(** The messages of all the outboxes of a thread. *)
Definition os_msgs os : list loc := mjoin (ob_msgs <$> (map_to_list os).*2).

Lemma elem_of_os_msgs os l : l ∈ os_msgs os ↔ ∃ id o, os !! id = Some o ∧ l ∈ ob_msgs o.
Proof.
  unfold os_msgs. rewrite list_elem_of_join. split.
  - intros (ls & Hl & (o & -> & ([id o'] & -> & Ho)%list_elem_of_fmap)%list_elem_of_fmap).
    apply elem_of_map_to_list in Ho. by exists id, o'.
  - intros (id & o & Ho & Hl). exists (ob_msgs o). split; [done|]. apply list_elem_of_fmap. exists o.
    split; [done|]. apply list_elem_of_fmap. exists (id, o). split; [done|]. by apply elem_of_map_to_list.
Qed.

(** What [f] gives of different outboxes is disjoint. *)
Definition apart (f : outbox → list loc) os : Prop :=
  ∀ i j oi oj, i ≠ j → os !! i = Some oi → os !! j = Some oj → f oi ## f oj.

Lemma apart_insert f os id o' :
  apart f os → (∀ j oj, j ≠ id → os !! j = Some oj → f oj ## f o') → apart f (<[id := o']> os).
Proof.
  intros Ha Hd i j oi oj Hij [[<- <-]|[Hi0 Hi]]%lookup_insert_Some [[<- <-]|[Hj0 Hj]]%lookup_insert_Some;
    [done|specialize (Hd j oj (not_eq_sym Hij) Hj); set_solver|eauto|eauto].
Qed.

(** Every open connection has an outbox of its own in the stores [mh] and that of the
    thread's nodes. *)
Record thread_ok (mh : mheap) a os : Prop := {
  to_open : ∀ id l, ao_online (ia_owner a) !! id = Some l →
    ∃ c ap o, ia_conns a !! l = Some (c, ap) ∧ os !! id = Some o ∧ writable id c o ∧
      outbox_rep mh (ia_pushes a) (ap_push_buffer ap) (c_current_push c) o;
  to_known : ∀ id, is_Some (os !! id) → is_Some (ao_online (ia_owner a) !! id);
  to_nodes : apart ob_nodes os;
  to_msgs : apart ob_msgs os }.

Lemma thread_ok_frame mh mh' a a' os :
  ia_owner a' = ia_owner a → ia_conns a' = ia_conns a → ia_pushes a' = ia_pushes a →
  (∀ l, l ∈ os_msgs os → mh' !! l = mh !! l) → thread_ok mh a os → thread_ok mh' a' os.
Proof.
  intros E1 E2 E3 Hf [Ho Hk Hn Hm]. split; rewrite ?E1, ?E2, ?E3; try done. intros id l Hl.
  destruct (Ho id l Hl) as (c & ap & o & H1 & H2 & H3 & H4). exists c, ap, o.
  split; [done|]. split; [done|]. split; [done|]. eapply outbox_rep_frame; [|done|exact H4].
  intros k Hk'. apply Hf, elem_of_os_msgs. eauto.
Qed.

(** The thread with one outbox changed within what it owned and fresh objects. *)
Lemma thread_ok_update mh a os id l c ap o mh' ph' c' ap' o' :
  thread_ok mh a os → ao_online (ia_owner a) !! id = Some l → ia_conns a !! l = Some (c, ap) →
  os !! id = Some o → writable id c' o' →
  outbox_rep mh' ph' (ap_push_buffer ap') (c_current_push c') o' →
  (∃ ms, same_outside ms mh mh' ∧ (∀ j oj, j ≠ id → os !! j = Some oj → ob_msgs oj ## ms) ∧ ob_msgs o' ⊆ ms) →
  (∃ ds, same_outside ds (ia_pushes a) ph' ∧ (∀ j oj, j ≠ id → os !! j = Some oj → ob_nodes oj ## ds) ∧
     ob_nodes o' ⊆ ds) →
  thread_ok mh' (ia_set_out (<[l := (c', ap')]> (ia_conns a)) mh' ph' a) (<[id := o']> os).
Proof.
  intros [Ho Hk Hn Hm] Hl Hc Hos Hw Hrep (ms & Hms & Hdm & Hsm) (ds & Hds & Hdd & Hsd). split.
  - cbn [ia_set_out ia_owner ia_conns ia_pushes]. intros j lj Hj. destruct (decide (j = id)) as [->|Hne].
    + assert (lj = l) as -> by congruence. exists c', ap', o'. by rewrite !lookup_insert_eq.
    + destruct (Ho j lj Hj) as (cj & apj & oj & H1 & H2 & H3 & H4). exists cj, apj, oj.
      assert (l ≠ lj) as Hll.
      { intros ->. destruct (Ho id lj Hl) as (c0 & ap0 & o0 & E0 & _ & W0 & _).
        destruct W0 as [W0 _], H3 as [W1 _]. rewrite E0 in H1. injection H1 as -> _. congruence. }
      rewrite !lookup_insert_ne by done. split; [done|]. split; [done|]. split; [done|].
      eapply outbox_rep_frame; [| |exact H4].
      * apply (same_outside_on ms); [done|by eapply Hdm].
      * apply (same_outside_on ds); [done|by eapply Hdd].
  - intros j [x Hj]. destruct (decide (j = id)) as [->|Hne]; [by eexists|].
    rewrite lookup_insert_ne in Hj by done. apply Hk. by eexists.
  - apply (apart_insert ob_nodes); [exact Hn|]. intros j oj Hj Eo. specialize (Hdd j oj Hj Eo). set_solver.
  - apply (apart_insert ob_msgs); [exact Hm|]. intros j oj Hj Eo. specialize (Hdm j oj Hj Eo). set_solver.
Qed.

(** The collector's queue, when there is a collector. *)
Definition collected_rep (mh : mheap) (k : option MsMessageBlockQueue) (ks : list loc) : Prop :=
  match k with Some q => bq_rep mh q ks | None => ks = [] end.

Lemma collected_rep_frame mh mh' k ks :
  (∀ l, l ∈ ks → mh' !! l = mh !! l) → collected_rep mh k ks → collected_rep mh' k ks.
Proof. destruct k; [|done]. apply bq_rep_frame. Qed.

(** The items no open connection takes. *)
Definition orphans os (its : list item) : list item := filter (λ it, os !! it_conn it = None) its.

(** Pushing [its]: each open connection has its frames behind what it had; the other
    messages are collected, or released when there is no collector. *)
Record delivered (collects : bool) os ks (its : list item) os' ks' : Prop := {
  dl_none : ∀ id, os !! id = None → os' !! id = None;
  dl_some : ∀ id o, os !! id = Some o → ∃ o', os' !! id = Some o' ∧
    ob_bytes o' = ob_bytes o ++ frames (for_conn id its) ∧
    ob_msgs o' = ob_msgs o ++ locs_of (for_conn id its);
  dl_collected : ks' = ks ++ (if collects then locs_of (orphans os its) else []) }.

Lemma delivered_nil b os ks : delivered b os ks [] os ks.
Proof.
  split; [done| |by destruct b; rewrite app_nil_r]. intros id o Ho. exists o. cbn. by rewrite !app_nil_r.
Qed.

Lemma for_conn_app id xs ys : for_conn id (xs ++ ys) = for_conn id xs ++ for_conn id ys.
Proof. apply filter_app. Qed.

Lemma frames_app xs ys : frames (xs ++ ys) = frames xs ++ frames ys.
Proof. unfold frames. by rewrite fmap_app, join_app. Qed.

Lemma delivered_none b os ks its os' ks' id :
  delivered b os ks its os' ks' → os' !! id = None ↔ os !! id = None.
Proof.
  intros [H1 H2 _]. split; [|apply H1]. destruct (os !! id) as [o|] eqn:E; [|done].
  destruct (H2 id o E) as (o' & -> & _). done.
Qed.

Lemma delivered_app b os ks its1 os1 ks1 its2 os2 ks2 :
  delivered b os ks its1 os1 ks1 → delivered b os1 ks1 its2 os2 ks2 →
  delivered b os ks (its1 ++ its2) os2 ks2.
Proof.
  intros D1 D2. split.
  - intros id Hn. by apply (dl_none _ _ _ _ _ _ D2), (dl_none _ _ _ _ _ _ D1).
  - intros id o Ho. destruct (dl_some _ _ _ _ _ _ D1 id o Ho) as (o1 & E1 & B1 & M1).
    destruct (dl_some _ _ _ _ _ _ D2 id o1 E1) as (o2 & E2 & B2 & M2). exists o2. split; [done|].
    unfold locs_of in *. rewrite for_conn_app, frames_app, fmap_app, B2, B1, M2, M1, !app_assoc. done.
  - rewrite (dl_collected _ _ _ _ _ _ D2), (dl_collected _ _ _ _ _ _ D1). destruct b; [|by rewrite !app_nil_r].
    rewrite <-app_assoc. unfold locs_of, orphans. rewrite filter_app, fmap_app. do 3 f_equal.
    apply list_filter_iff. intros it. by apply (delivered_none true os ks its1 os1 ks1).
Qed.

Lemma delivered_msgs b os ks its os' ks' l :
  delivered b os ks its os' ks' → l ∈ os_msgs os' ∨ l ∈ ks' → l ∈ os_msgs os ∨ l ∈ ks ∨ l ∈ locs_of its.
Proof.
  intros D [(id & o' & Ho' & Hl)%elem_of_os_msgs|Hl].
  - destruct (os !! id) as [o|] eqn:E.
    + destruct (dl_some _ _ _ _ _ _ D id o E) as (o1 & E1 & _ & M1).
      assert (o1 = o') as -> by congruence. rewrite M1 in Hl. apply elem_of_app in Hl as [Hl|Hl].
      * left. apply elem_of_os_msgs. eauto.
      * right; right. unfold locs_of, for_conn in *. apply list_elem_of_fmap in Hl as (it & -> & Hit).
        apply list_elem_of_filter in Hit as [_ Hit]. set_solver.
    + apply (dl_none _ _ _ _ _ _ D) in E. congruence.
  - rewrite (dl_collected _ _ _ _ _ _ D) in Hl. apply elem_of_app in Hl as [Hl|Hl]; [auto|].
    right; right. destruct b; [|set_solver]. unfold locs_of, orphans in *.
    apply list_elem_of_fmap in Hl as (it & -> & Hit). apply list_elem_of_filter in Hit as [_ Hit]. set_solver.
Qed.

(** What a turn of the push handler leaves alone. *)
Definition same_thread a a' : Prop :=
  ia_config a' = ia_config a ∧ ia_owner a' = ia_owner a ∧ ia_socks a' = ia_socks a ∧
  ia_sock_queue a' = ia_sock_queue a ∧ ia_msg_queue a' = ia_msg_queue a ∧ ia_proc a' = ia_proc a ∧
  ia_now a' = ia_now a ∧ (is_Some (ia_collector a') ↔ is_Some (ia_collector a)).

Definition collects a : bool := bool_decide (is_Some (ia_collector a)).

Lemma same_thread_trans a1 a2 a3 : same_thread a1 a2 → same_thread a2 a3 → same_thread a1 a3.
Proof. unfold same_thread. intuition congruence. Qed.

Lemma same_thread_collects a a' : same_thread a a' → collects a' = collects a.
Proof. intros H. unfold collects. apply bool_decide_ext, H. Qed.
End thread.

Section pushing.
Context {S : Type}.
Implicit Types (a : IoApp S) (os : gmap Z outbox).

(** The item goes to the open connection it is for. *)
Lemma pushMessage_open a os ks it l :
  thread_ok (ia_msgs a) a os → collected_rep (ia_msgs a) (ia_collector a) ks → item_ok (ia_msgs a) it →
  it_loc it ∉ os_msgs os → it_loc it ∉ ks → (∀ l, l ∈ ks → l ∉ os_msgs os) →
  ao_online (ia_owner a) !! it_conn it = Some l →
  ∃ a' os', IoApp_pushMessage a (it_loc it) = Ret a' ∧ thread_ok (ia_msgs a') a' os' ∧
    collected_rep (ia_msgs a') (ia_collector a') ks ∧ delivered (collects a) os ks [it] os' ks ∧
    same_outside (it_loc it :: os_msgs os ++ ks) (ia_msgs a) (ia_msgs a') ∧ same_thread a a'.
Proof.
  intros Hth Hk [Hf (m & Em & _ & Hconn & Hsw)] Hl1 Hl2 Hks Hon. set (id := it_conn it) in *.
  destruct (to_open _ _ _ Hth id l Hon) as (c & ap & o & Ec & Eo & Hw & Hrep).
  assert (∀ k, k ∈ ob_msgs o → k ∈ os_msgs os) as Hsub by (intros k Hk'; apply elem_of_os_msgs; eauto).
  assert (is_Some (switched_state m ap)) as Hst.
  { unfold switched_state. destruct Hsw as [->|Hst]; [by eexists|]. destruct (msg_switch_state m); [done|by eexists]. }
  destruct (pushMessage_online a (it_loc it) m l c ap o (it_frame it) Em Hst) as
    (ap' & mh & ph & d & Ed & -> & Hrep' & Hm & Hp & _); [by rewrite Hconn|done|done|done|set_solver|].
  destruct (setWrite_writable id c o (ob_snoc o (d, it_loc it, it_frame it)) Hw) as [Hw' Ecp].
  eexists _, (<[id := ob_snoc o (d, it_loc it, it_frame it)]> os). split; [done|].
  assert (∀ j oj, os !! j = Some oj → d ∉ ob_nodes oj) as Hd.
  { intros j oj Hj. destruct (to_known _ _ _ Hth j) as [lj Hlj]; [by eexists|].
    destruct (to_open _ _ _ Hth j lj Hlj) as (cj & apj & oj' & _ & Ej & _ & Hr).
    assert (oj' = oj) as -> by congruence. intros Hin.
    destruct (outbox_node_alive _ _ _ _ _ _ Hr Hin) as [nd End]. congruence. }
  split; [|split; [|split; [|split]]].
  - eapply thread_ok_update; try done.
    + by rewrite Ecp.
    + exists (it_loc it :: ob_msgs o). split; [done|]. split.
      * intros j oj Hj Ej. pose proof (to_msgs _ _ _ Hth j id oj o Hj Ej Eo).
        assert (it_loc it ∉ ob_msgs oj) by (intros Hin; apply Hl1, elem_of_os_msgs; eauto). set_solver.
      * unfold ob_msgs. rewrite ob_snoc_all, fmap_app. cbn. set_solver.
    + exists (d :: ob_nodes o). split; [done|]. split.
      * intros j oj Hj Ej. pose proof (to_nodes _ _ _ Hth j id oj o Hj Ej Eo). specialize (Hd j oj Ej). set_solver.
      * unfold ob_nodes. rewrite ob_snoc_all, fmap_app. cbn. set_solver.
  - cbn [ia_set_out ia_msgs ia_collector]. eapply collected_rep_frame; [|exact Hk]. intros k Hk'. apply Hm.
    specialize (Hks k Hk'). set_solver.
  - split.
    + intros j Hj. rewrite lookup_insert_ne; [done|congruence].
    + intros j oj Hj. unfold for_conn. rewrite filter_cons, filter_nil. fold id.
      destruct (decide (id = j)) as [<-|Hne].
      * rewrite lookup_insert_eq. assert (oj = o) as -> by congruence. eexists. split; [done|].
        rewrite ob_snoc_bytes. unfold frames, locs_of, ob_msgs. rewrite ob_snoc_all, fmap_app. cbn. by rewrite app_nil_r.
      * rewrite lookup_insert_ne by done. exists oj. split; [done|]. cbn. by rewrite !app_nil_r.
    + unfold orphans. rewrite filter_cons_False, filter_nil; [by destruct (collects a); rewrite app_nil_r|].
      fold id. by rewrite Eo.
  - eapply same_outside_weaken; [|exact Hm]. set_solver.
  - done.
Qed.

(** The item whose connection is closed goes to the collector, or is released. *)
Lemma pushMessage_closed a os ks it :
  thread_ok (ia_msgs a) a os → collected_rep (ia_msgs a) (ia_collector a) ks → item_ok (ia_msgs a) it →
  it_loc it ∉ os_msgs os → it_loc it ∉ ks → (∀ l, l ∈ ks → l ∉ os_msgs os) →
  ao_online (ia_owner a) !! it_conn it = None →
  ∃ a' ks', IoApp_pushMessage a (it_loc it) = Ret a' ∧ thread_ok (ia_msgs a') a' os ∧
    collected_rep (ia_msgs a') (ia_collector a') ks' ∧ delivered (collects a) os ks [it] os ks' ∧
    same_outside (it_loc it :: os_msgs os ++ ks) (ia_msgs a) (ia_msgs a') ∧ same_thread a a'.
Proof.
  intros Hth Hk [_ (m & Em & _ & Hconn & _)] Hl1 Hl2 Hks Hon.
  assert (os !! it_conn it = None) as Hno.
  { apply eq_None_not_Some. intros Hs. apply (to_known _ _ _ Hth) in Hs as [x Hx]. congruence. }
  assert (∀ ks', ks' = ks ++ (if collects a then [it_loc it] else []) →
    delivered (collects a) os ks [it] os ks') as Hdel.
  { intros ks' ->. split; [done| |].
    - intros j oj Hj. exists oj. unfold for_conn. rewrite filter_cons_False, filter_nil by congruence.
      cbn. by rewrite !app_nil_r.
    - unfold orphans. by rewrite filter_cons_True, filter_nil. }
  unfold IoApp_pushMessage. rewrite (load_Some _ _ _ Em). cbn [obind].
  unfold ConnectionRegister_get. rewrite Hconn, Hon. unfold collects in *.
  destruct (ia_collector a) as [q|] eqn:Eq.
  - destruct (bq_put_spec _ _ _ _ _ Hk Em Hl2) as (mh & q' & -> & Hk' & Hrel%relinks_outside). cbn [obind].
    eexists _, (ks ++ [it_loc it]). split; [done|]. split; [|split; [done|split; [by apply Hdel|split]]].
    + eapply (thread_ok_frame _ _ a); [done..| |exact Hth]. intros l Hl. apply Hrel. specialize (Hks l). set_solver.
    + eapply same_outside_weaken; [|exact Hrel]. set_solver.
    + unfold same_thread. cbn. rewrite Eq. by split_and!.
  - unfold releaseIMessage. rewrite (dealloc_Some _ _ _ Em). cbn [obind].
    eexists _, ks. split; [done|]. cbn in Hk. subst ks. split; [|split; [|split; [by apply Hdel|split]]].
    + eapply (thread_ok_frame _ _ a); [done..| |exact Hth]. intros l Hl. apply lookup_delete_ne. set_solver.
    + cbn. by rewrite Eq.
    + apply same_outside_delete. set_solver.
    + done.
Qed.

Lemma push_loop_items its fuel a p os ks :
  thread_ok (ia_msgs a) a os → collected_rep (ia_msgs a) (ia_collector a) ks →
  lseg (ia_msgs a) p (locs_of its) None → Forall (item_ok (ia_msgs a)) its →
  (∀ l, l ∈ locs_of its → (l ∉ os_msgs os) ∧ (l ∉ ks)) → (∀ l, l ∈ ks → l ∉ os_msgs os) →
  (length its ≤ fuel)%nat →
  ∃ a' os' ks', push_loop fuel a p = Ret a' ∧ thread_ok (ia_msgs a') a' os' ∧
    collected_rep (ia_msgs a') (ia_collector a') ks' ∧ delivered (collects a) os ks its os' ks' ∧
    same_outside (locs_of its ++ os_msgs os ++ ks) (ia_msgs a) (ia_msgs a') ∧ same_thread a a' ∧
    (∀ l, l ∈ ks' → l ∉ os_msgs os').
Proof.
  revert fuel a p os ks. induction its as [|it its IH]; intros fuel a p os ks Hth Hk Hseg Hok Hdis Hks Hf.
  { cbn in Hseg. subst p. exists a, os, ks. destruct fuel; cbn [push_loop];
      (split; [done|split; [done|split; [done|split; [apply delivered_nil|done]]]]). }
  destruct fuel as [|fuel]; [cbn in Hf; lia|]. pose proof (lseg_NoDup _ _ _ Hseg) as [Hnd _]%NoDup_cons.
  destruct Hseg as (-> & m & Em & Hseg). apply Forall_cons in Hok as [Hit Hok]. cbn [push_loop].
  rewrite (load_Some _ _ _ Em). cbn [obind]. rewrite (msg_store_next _ _ _ _ Em). cbn [obind].
  set (mh1 := <[it_loc it := set_next None m]> (ia_msgs a)).
  destruct (Hdis (it_loc it)) as [Hd1 Hd2]; [unfold locs_of; set_solver|].
  assert (same_outside [it_loc it] (ia_msgs a) mh1) as Hs1 by (apply same_outside_insert; set_solver).
  set (a1 := ia_set_msgs mh1 a).
  assert (thread_ok (ia_msgs a1) a1 os) as Hth1.
  { eapply (thread_ok_frame _ _ a); [done..| |exact Hth]. intros l Hl. apply Hs1. set_solver. }
  assert (collected_rep (ia_msgs a1) (ia_collector a1) ks) as Hk1.
  { eapply collected_rep_frame; [|exact Hk]. intros l Hl. apply Hs1. set_solver. }
  assert (item_ok (ia_msgs a1) it) as Hit1.
  { eapply item_ok_links; [|exact Hit]. exact (links_only_set _ _ _ None Em). }
  assert (∃ a2 os2 ks2, IoApp_pushMessage a1 (it_loc it) = Ret a2 ∧ thread_ok (ia_msgs a2) a2 os2 ∧
    collected_rep (ia_msgs a2) (ia_collector a2) ks2 ∧ delivered (collects a) os ks [it] os2 ks2 ∧
    same_outside (it_loc it :: os_msgs os ++ ks) (ia_msgs a1) (ia_msgs a2) ∧ same_thread a1 a2)
    as (a2 & os2 & ks2 & -> & Hth2 & Hk2 & D2 & Hs2 & Hsame2).
  { destruct (ao_online (ia_owner a) !! it_conn it) as [l|] eqn:Eon.
    - destruct (pushMessage_open a1 os ks it l) as (a2 & os2 & ?); try done. by exists a2, os2, ks.
    - destruct (pushMessage_closed a1 os ks it) as (a2 & ks2 & ?); try done. by exists a2, os, ks2. }
  cbn [obind].
  assert (same_outside (it_loc it :: os_msgs os ++ ks) (ia_msgs a) (ia_msgs a2)) as Hs.
  { eapply same_outside_trans; [|exact Hs2]. eapply same_outside_weaken; [|exact Hs1]. set_solver. }
  assert (∀ l, l ∈ locs_of its → ia_msgs a2 !! l = ia_msgs a !! l) as Hsame.
  { intros l Hl. apply Hs. destruct (Hdis l); [unfold locs_of in *; set_solver|].
    assert (l ≠ it_loc it) by (intros ->; done). set_solver. }
  pose proof (λ l, delivered_msgs _ _ _ _ _ _ l D2) as Hown.
  destruct (IH fuel a2 (msg_next m) os2 ks2) as (a3 & os3 & ks3 & -> & Hth3 & Hk3 & D3 & Hs3 & Hsame3 & Hap3).
  - done.
  - done.
  - by eapply lseg_frame; [|exact Hseg].
  - by eapply items_ok_frame.
  - intros l Hl. destruct (Hdis l) as [H1 H2]; [unfold locs_of in *; set_solver|].
    assert (l ≠ it_loc it) as Hne by (intros ->; done).
    split; intros Hin; destruct (Hown l) as [?|[?|?]]; auto; unfold locs_of in *; set_solver.
  - intros l Hl Hin. rewrite (dl_collected _ _ _ _ _ _ D2) in Hl.
    apply elem_of_os_msgs in Hin as (id & o2 & Eo2 & Hin).
    destruct (os !! id) as [o|] eqn:Eo; [|apply (dl_none _ _ _ _ _ _ D2) in Eo; congruence].
    destruct (dl_some _ _ _ _ _ _ D2 id o Eo) as (o' & Eo' & _ & M). assert (o' = o2) as -> by congruence.
    assert (∀ k, k ∈ ob_msgs o → k ∈ os_msgs os) as Hsub by (intros k Hk'; apply elem_of_os_msgs; eauto).
    rewrite M in Hin. unfold for_conn, orphans in *. rewrite filter_cons, filter_nil in Hin, Hl.
    destruct (decide (it_conn it = id)) as [<-|]; [rewrite decide_False in Hl by congruence|];
      destruct (collects a); try case_decide; unfold locs_of in *; cbn in *; specialize (Hks l); set_solver.
  - cbn in Hf. lia.
  - rewrite (same_thread_collects _ _ Hsame2) in D3.
    exists a3, os3, ks3. split; [done|]. split; [done|]. split; [done|]. split; [|split; [|split; [|done]]].
    + exact (delivered_app _ _ _ [it] _ _ _ _ _ D2 D3).
    + eapply same_outside_trans; (eapply same_outside_weaken; [|eassumption]).
      * unfold locs_of. set_solver.
      * intros l Hl. rewrite !elem_of_app in *. destruct Hl as [Hl|Hl]; [left; unfold locs_of in *; set_solver|].
        destruct (Hown l) as [?|[?|?]]; auto. left. unfold locs_of in *. set_solver.
    + by eapply same_thread_trans; [|exact Hsame3].
Qed.

(** [push] empties the thread's queue. *)
Lemma IoApp_push_items its a os ks :
  thread_ok (ia_msgs a) a os → collected_rep (ia_msgs a) (ia_collector a) ks →
  mq_rep (ia_msgs a) (ia_msg_queue a) (locs_of its) → Forall (item_ok (ia_msgs a)) its →
  (∀ l, l ∈ locs_of its → (l ∉ os_msgs os) ∧ (l ∉ ks)) → (∀ l, l ∈ ks → l ∉ os_msgs os) →
  ∃ a' os' ks', IoApp_push a = Ret a' ∧ thread_ok (ia_msgs a') a' os' ∧
    collected_rep (ia_msgs a') (ia_collector a') ks' ∧ delivered (collects a) os ks its os' ks' ∧
    same_outside (locs_of its ++ os_msgs os ++ ks) (ia_msgs a) (ia_msgs a') ∧
    ia_owner a' = ia_owner a ∧ ia_msg_queue a' = MsMessageQueue_new ∧
    (∀ l, l ∈ ks' → l ∉ os_msgs os').
Proof.
  intros Hth Hk [Hseg _] Hok Hdis Hks. unfold IoApp_push, MsMessageQueue_get.
  destruct (push_loop_items its (size (ia_msgs a)) (ia_set_msg_queue MsMessageQueue_new a)
    (mq_head (ia_msg_queue a)) os ks) as (a' & os' & ks' & Hp & ? & ? & ? & ? & Hsame & ?); try done.
  - by eapply (thread_ok_frame _ _ a); [..|exact Hth].
  - apply lseg_length in Hseg. unfold locs_of in Hseg. by rewrite length_fmap in Hseg.
  - exists a', os', ks'. destruct Hsame as (_ & E1 & _ & _ & E2 & _). done.
Qed.
End pushing.
