(* ===== verification/ServerFlow.v ===== *)
(** The way of a reply: the local router and the I/O threads put together
    (framework/ms/ms_message_router_local.cpp, framework/io/io_app_cluster.cpp,
    io_app.cpp): what becomes of the messages the workers route, through all the queues,
    until their bytes are with the kernel.

    The threads share the store of messages, the queues of the cluster, which
    [IoAppCluster::run] gives to the threads by address, and the queue of the collector.
    A turn of a thread works on that shared state ([thread_view]) and leaves it for the
    others.  Each connection has its socket in [rl_nets]. *)
From S2P Require Import Prelude Heap MsMessage MsQueues LibQueues IoPushList IoConnection IoAppConnection LinkedList ConnCache IoApp IoAppCluster MsRouter Delivery.

(** ** The state *)
Section relay.
Context {S : Type} {HS : IoProcessor S}.

Record relay := mkRelay {
  rl_cluster : IoAppCluster (IoApp S);
  rl_router : MsMessageBlockQueue; (** of the local router *)
  rl_collector : option MsMessageBlockQueue;
  rl_nets : list (gmap Z socket_io) (** by thread and connection *) }.
Implicit Types (s : relay) (a : IoApp S) (k : IoAppCluster (IoApp S)).

Definition rl_msgs s : mheap := cl_msgs (rl_cluster s).

(** The thread with the shared objects it was constructed with. *)
Definition thread_view s (q : MsMessageQueue) a : IoApp S :=
  ia_set_collector (rl_collector s) (ia_set_msg_queue q (ia_set_msgs (rl_msgs s) a)).

(** The state after thread [i] acted. *)
Definition put_thread s (i : nat) a (nets : list (gmap Z socket_io)) : relay :=
  let k := rl_cluster s in
  mkRelay (mkCluster (cl_settings k) (cl_sock_queue k) (ia_msgs a)
              (<[i := ia_msg_queue a]> (cl_msg_queue k)) (<[i := a]> (cl_core_io k)))
    (rl_router s) (ia_collector a) nets.

(** A worker routes the messages [ms] it made, linked from [p]. *)
Definition rl_route s (ms : mheap) (p : ptr) : outcome relay :=
  let k := rl_cluster s in
  let* (h, q) := MsMessageRouterLocal_route (ms ∪ cl_msgs k) (rl_router s) p in
  Ret (mkRelay (cl_set_msgs h k) q (rl_collector s) (rl_nets s)).

Definition rl_turn s : outcome relay :=
  let* (k, q) := MsMessageRouterLocal_turn (rl_cluster s) (rl_router s) in
  Ret (mkRelay k q (rl_collector s) (rl_nets s)).

(** The push handler of thread [i]. *)
Definition rl_push s (i : nat) : outcome relay :=
  let* a := defined (cl_core_io (rl_cluster s) !! i) in
  let* q := defined (cl_msg_queue (rl_cluster s) !! i) in
  let* a := IoApp_push (thread_view s q a) in
  Ret (put_thread s i a (rl_nets s)).

(** The socket of a connection becomes writable and the kernel answers as in
    [sends]. *)
Definition rl_write s (i : nat) (id : Z) (sends : list send_event) : outcome relay :=
  let* a := defined (cl_core_io (rl_cluster s) !! i) in
  let* q := defined (cl_msg_queue (rl_cluster s) !! i) in
  let* l := defined (ConnectionRegister_get (ao_online (ia_owner a)) id) in
  let* nets := defined (rl_nets s !! i) in
  let* net := defined (nets !! id) in
  let* (a, net) := IoApp_write_event EV_WRITE (thread_view s q a) l (with_sends sends net) in
  Ret (put_thread s i a (<[i := <[id := net]> nets]> (rl_nets s))).

(** The bytes of a connection the kernel has. *)
Definition rl_sent s (i : nat) (id : Z) : list Z :=
  match rl_nets s !! i with
  | Some nets => match nets !! id with Some net => net_out net | None => [] end
  | None => []
  end.

Definition rl_online s (i : nat) (id : Z) : Prop :=
  ∃ a l, cl_core_io (rl_cluster s) !! i = Some a ∧ ao_online (ia_owner a) !! id = Some l.
End relay.
Arguments relay S : clear implicits.

(** ** Who holds a message *)
Inductive holder := InRouter | InQueue (i : nat) | InOutbox (i : nat) | InCollector.

(** What is on its way: in the router's queue, in the threads' queues, in the outboxes,
    with the collector. *)
Record flow := mkFlow {
  fl_router : list item;
  fl_queues : list (list item);
  fl_boxes : list (gmap Z outbox);
  fl_collected : list loc }.

Definition carries_msg (f : flow) (h : holder) (l : loc) : Prop :=
  match h with
  | InRouter => l ∈ locs_of (fl_router f)
  | InQueue i => ∃ its, fl_queues f !! i = Some its ∧ l ∈ locs_of its
  | InOutbox i => ∃ os, fl_boxes f !! i = Some os ∧ l ∈ os_msgs os
  | InCollector => l ∈ fl_collected f
  end.

(** A message has one holder. *)
Definition single_holder (f : flow) : Prop := ∀ l h1 h2, carries_msg f h1 l → carries_msg f h2 l → h1 = h2.

Section flow.
Context {S : Type} {HS : IoProcessor S}.
Implicit Types (s : relay S) (a : IoApp S) (f : flow).

Record flow_ok s f : Prop := {
  fo_cluster : ∃ qs, cluster_rep (rl_cluster s) qs (locs_of <$> fl_queues f);
  fo_size : st_cluster_size (cl_settings (rl_cluster s)) = Z.of_nat (length (fl_queues f));
  fo_router : bq_rep (rl_msgs s) (rl_router s) (locs_of (fl_router f));
  fo_collector : collected_rep (rl_msgs s) (rl_collector s) (fl_collected f);
  fo_range : Forall (λ it, it_io it < Z.of_nat (length (fl_queues f))) (fl_router f);
  fo_routed : Forall (item_ok (rl_msgs s)) (fl_router f);
  fo_queued : ∀ i its, fl_queues f !! i = Some its → Forall (item_ok (rl_msgs s)) its;
  fo_boxes : length (fl_boxes f) = length (fl_queues f);
  fo_threads : ∀ i a os, cl_core_io (rl_cluster s) !! i = Some a → fl_boxes f !! i = Some os →
    thread_ok (rl_msgs s) a os;
  fo_holder : single_holder f }.

(** What a connection has sent, still has to send and will be given is what was routed
    to it. *)
Definition accounted (log : list item) s f : Prop :=
  ∀ i id, rl_online s i id →
    ∃ nets net os o its, rl_nets s !! i = Some nets ∧ nets !! id = Some net ∧ fl_boxes f !! i = Some os ∧
      os !! id = Some o ∧ fl_queues f !! i = Some its ∧
      net_out net ++ ob_bytes o ++ frames (for_conn id its) ++
        frames (for_conn id (for_io (Z.of_nat i) (fl_router f))) =
      frames (for_conn id (for_io (Z.of_nat i) log)).

(** Every message that is on its way is allocated. *)
Lemma flow_alive s f h l : flow_ok s f → carries_msg f h l → is_Some (rl_msgs s !! l).
Proof.
  intros Hf. destruct h as [|i|i|]; cbn [carries_msg].
  - apply lseg_in with (1 := proj1 (proj1 (fo_router _ _ Hf))).
  - intros (its & Ei & Hl). destruct (fo_cluster _ _ Hf) as [qs Hr]. pose proof (cr_msgs _ _ _ Hr) as HF.
    assert ((locs_of <$> fl_queues f) !! i = Some (locs_of its)) as Ej by (by rewrite list_lookup_fmap, Ei).
    destruct (Forall2_lookup_r _ _ _ _ _ HF Ej) as (q & _ & [Hs _]). by apply lseg_in with (1 := Hs).
  - intros (os & Ei & (id & o & Ho & Hl)%elem_of_os_msgs). destruct (fo_cluster _ _ Hf) as [qs Hr].
    destruct (lookup_lt_is_Some_2 (cl_core_io (rl_cluster s)) i) as [a Ea].
    { rewrite <-(cr_msgs_len _ _ _ Hr), length_fmap, <-(fo_boxes _ _ Hf). by eapply lookup_lt_Some. }
    pose proof (fo_threads _ _ Hf i a os Ea Ei) as Hth.
    destruct (to_known _ _ _ Hth id) as [lc Hlc]; [by eexists|].
    destruct (to_open _ _ _ Hth id lc Hlc) as (c & ap & o' & _ & Eo & _ & Hrep).
    assert (o' = o) as -> by congruence. by eapply outbox_rep_alive.
  - pose proof (fo_collector _ _ Hf) as Hc. destruct (rl_collector s); cbn in Hc; [|by rewrite Hc; set_solver].
    apply lseg_in with (1 := proj1 (proj1 Hc)).
Qed.

Lemma queue_held f i its l : fl_queues f !! i = Some its → l ∈ locs_of its → carries_msg f (InQueue i) l.
Proof. by exists its. Qed.

Lemma mjoin_held f l : l ∈ mjoin (locs_of <$> fl_queues f) → ∃ i, carries_msg f (InQueue i) l.
Proof.
  intros (ls & Hl & (i & Hi)%list_elem_of_lookup)%list_elem_of_join.
  rewrite list_lookup_fmap in Hi. destruct (fl_queues f !! i) as [its|] eqn:Ei; [|done].
  injection Hi as <-. exists i. by exists its.
Qed.

(** Parts of the flow keep their meaning when their messages do. *)
Lemma threads_frame s f mh i a os :
  flow_ok s f → (∀ l, carries_msg f (InOutbox i) l → mh !! l = rl_msgs s !! l) →
  cl_core_io (rl_cluster s) !! i = Some a → fl_boxes f !! i = Some os → thread_ok mh a os.
Proof.
  intros Hf Hm Ea Eo. eapply (thread_ok_frame _ _ a); [done..| |exact (fo_threads _ _ Hf i a os Ea Eo)].
  intros l Hl. apply Hm. by exists os.
Qed.

Lemma collector_frame s f mh :
  flow_ok s f → (∀ l, carries_msg f InCollector l → mh !! l = rl_msgs s !! l) →
  collected_rep mh (rl_collector s) (fl_collected f).
Proof. intros Hf Hm. by eapply collected_rep_frame; [|exact (fo_collector _ _ Hf)]. Qed.

(** ** Routing *)
(** New messages come to the router, and some to the collector. *)
Lemma flow_extend log s f h' q' k' its ks' :
  flow_ok s f → accounted log s f →
  bq_rep h' q' (locs_of (fl_router f) ++ locs_of its) → collected_rep h' k' (fl_collected f ++ ks') →
  (∀ l, l ∈ locs_of (fl_router f) → unlink <$> h' !! l = unlink <$> rl_msgs s !! l) →
  (∀ i l, carries_msg f (InQueue i) l ∨ carries_msg f (InOutbox i) l → h' !! l = rl_msgs s !! l) →
  (∀ h l, l ∈ locs_of its ++ ks' → ¬ carries_msg f h l) → locs_of its ## ks' → Forall (item_ok h') its →
  Forall (λ it, it_io it < st_cluster_size (cl_settings (rl_cluster s))) its →
  let s' := mkRelay (cl_set_msgs h' (rl_cluster s)) q' k' (rl_nets s) in
  let f' := mkFlow (fl_router f ++ its) (fl_queues f) (fl_boxes f) (fl_collected f ++ ks') in
  flow_ok s' f' ∧ accounted (log ++ its) s' f' ∧ (∀ i id, rl_online s' i id ↔ rl_online s i id).
Proof.
  intros Hf Hacc Hq Hc Hlinks Hkeep Hnew Hdis Hok Hrng s' f'. split; [|split; [|done]].
  - destruct (fo_cluster _ _ Hf) as [qs Hcl]. split; cbn [fl_router fl_queues fl_boxes fl_collected f'].
    + exists qs. apply cluster_rep_frame; [|exact Hcl]. intros l [i Hi]%mjoin_held. apply (Hkeep i). by left.
    + exact (fo_size _ _ Hf).
    + unfold locs_of in *. by rewrite fmap_app.
    + done.
    + rewrite (fo_size _ _ Hf) in Hrng. apply Forall_app. split; [exact (fo_range _ _ Hf)|done].
    + apply Forall_app. split; [|done]. apply Forall_forall. intros it Hit.
      eapply item_ok_unlinked; [|by eapply Forall_forall; [exact (fo_routed _ _ Hf)|]].
      apply Hlinks. unfold locs_of. by apply list_elem_of_fmap_2.
    + intros i its' Hi. eapply items_ok_frame; [|exact (fo_queued _ _ Hf i its' Hi)].
      intros l Hl. apply (Hkeep i). left. by exists its'.
    + exact (fo_boxes _ _ Hf).
    + intros i a os Ea Eo. eapply (threads_frame s f); try done. intros l Hl. apply (Hkeep i). by right.
    + assert (∀ h l, carries_msg f' h l → carries_msg f h l ∨ (h = InRouter ∧ l ∈ locs_of its) ∨
        (h = InCollector ∧ l ∈ ks')) as Hh.
      { intros [| | |] l Hl; cbn in *; auto; [unfold locs_of in *; rewrite fmap_app in Hl|];
          apply elem_of_app in Hl as [Hl|Hl]; auto. }
      assert (∀ h l, l ∈ locs_of its ∨ l ∈ ks' → ¬ carries_msg f h l) as Hno
        by (intros h l Hl; by apply Hnew, elem_of_app).
      intros l h1 h2 [H1|[[-> H1]|[-> H1]]]%Hh [H2|[[-> H2]|[-> H2]]]%Hh;
        solve [done | by apply (fo_holder _ _ Hf l) | exfalso; exact (Hno _ l ltac:(auto) H1) | exfalso; exact (Hno _ l ltac:(auto) H2)
          | exfalso; exact (Hdis l ltac:(done) ltac:(done))].
  - intros i id Hon. destruct (Hacc i id Hon) as (nets & net & os & o & its' & H1 & H2 & H3 & H4 & H5 & H6).
    exists nets, net, os, o, its'. split_and!; try done. cbn [fl_router f'].
    unfold for_io, for_conn in *. rewrite !filter_app, !frames_app, <-H6, <-!app_assoc. done.
Qed.

Lemma flow_route log s f ms v its :
  flow_ok s f → accounted log s f → ms ##ₘ rl_msgs s → lseg ms (Some v) (locs_of its) None →
  Forall (item_ok ms) its → Forall (λ it, it_io it < st_cluster_size (cl_settings (rl_cluster s))) its →
  ∃ s' f', rl_route s ms (Some v) = Ret s' ∧ flow_ok s' f' ∧ accounted (log ++ its) s' f' ∧
    fl_router f' = fl_router f ++ its ∧ (∀ i id, rl_online s' i id ↔ rl_online s i id).
Proof.
  intros Hf Hacc Hd Hseg Hok Hrng. unfold rl_route, MsMessageRouterLocal_route. fold (rl_msgs s).
  assert (∀ h l, carries_msg f h l → (ms ∪ rl_msgs s) !! l = rl_msgs s !! l) as Hold.
  { intros h l Hl. destruct (flow_alive _ _ _ _ Hf Hl) as [m Em].
    rewrite lookup_union_r; [done|]. exact (map_disjoint_Some_r _ _ _ _ Hd Em). }
  assert (∀ l, l ∈ locs_of its → (ms ∪ rl_msgs s) !! l = ms !! l ∧ ∀ h, ¬ carries_msg f h l) as Hnew.
  { intros l Hl. destruct (lseg_in _ _ _ _ _ Hseg Hl) as [m Em]. split.
    - rewrite lookup_union_l'; [done|by eexists].
    - intros h Hh. destruct (flow_alive _ _ _ _ Hf Hh) as [m' Em'].
      by eapply (map_disjoint_spec ms (rl_msgs s)). }
  pose proof Hseg as (ls' & m0 & Els & _)%lseg_Some.
  assert (bq_rep (ms ∪ rl_msgs s) (rl_router s) (locs_of (fl_router f))) as Hr1.
  { eapply bq_rep_frame; [|exact (fo_router _ _ Hf)]. intros l Hl. by apply (Hold InRouter). }
  destruct (bq_putList_spec (ms ∪ rl_msgs s) (rl_router s) (locs_of (fl_router f)) v ls' Hr1)
    as (h' & q' & -> & Hq' & Hrel).
  { rewrite <-Els. eapply lseg_frame; [|exact Hseg]. intros l Hl. by apply Hnew. }
  { rewrite <-Els. intros l H1 H2. by destruct (proj2 (Hnew l H2) InRouter). }
  rewrite <-Els in Hq'. cbn [obind].
  assert (∀ h l, h ≠ InRouter → carries_msg f h l → h' !! l = rl_msgs s !! l) as Hkeep.
  { intros h l Hne Hl. rewrite (proj2 Hrel); [by apply (Hold h)|]. intros Hin.
    by apply Hne, (fo_holder _ _ Hf l). }
  destruct (flow_extend log s f h' q' (rl_collector s) its []) as (H1 & H2 & H3); try done.
  - rewrite app_nil_r. apply (collector_frame s f); [done|]. intros l Hl. by apply (Hkeep InCollector).
  - intros l Hl. rewrite <-(Hold InRouter l Hl). symmetry. apply links_only_lookup, Hrel.
  - intros i l [Hl|Hl]; [by apply (Hkeep (InQueue i))|by apply (Hkeep (InOutbox i))].
  - intros h l. rewrite app_nil_r. intros Hl. by apply Hnew.
  - set_solver.
  - eapply Forall_impl; [|intros it; apply item_ok_links, (proj1 Hrel)].
    eapply items_ok_frame; [|exact Hok]. intros l Hl. by apply Hnew.
  - eexists _, _. split; [done|]. split; [exact H1|]. done.
Qed.

(** ** A turn of the router *)
Lemma items_with_key mh i its :
  Forall (item_ok mh) its → with_key io_key mh i (locs_of its) = locs_of (for_io i its).
Proof.
  unfold with_key, locs_of, for_io. induction 1 as [|it its [_ (m & Em & Hio & _)] _ IH]; [done|].
  assert (keyof io_key mh (it_loc it) = it_io it) as Hk by (unfold keyof; by rewrite Em).
  rewrite fmap_cons, !filter_cons. destruct (decide (it_io it = i)).
  - rewrite decide_True by congruence. cbn. by rewrite IH.
  - rewrite decide_False by congruence. exact IH.
Qed.

Lemma flow_turn log s f :
  flow_ok s f → accounted log s f → fl_router f ≠ [] →
  ∃ s' f', rl_turn s = Ret s' ∧ flow_ok s' f' ∧ accounted log s' f' ∧ fl_router f' = [] ∧
    (∀ i id, rl_online s' i id ↔ rl_online s i id).
Proof.
  intros Hf Hacc Hne. destruct (fo_cluster _ _ Hf) as [qs Hc].
  set (rs := fl_router f) in *. set (lss := fl_queues f) in *.
  pose proof (local_turn_spec (rl_cluster s) (rl_router s) qs (locs_of <$> lss) (locs_of rs) Hc) as H.
  rewrite length_fmap in H. specialize (H (fo_size _ _ Hf) (fo_router _ _ Hf)).
  assert (locs_of rs ≠ []) as Hne' by (unfold locs_of; by destruct rs). specialize (H Hne').
  assert (∀ l, l ∈ locs_of rs → l ∉ mjoin (locs_of <$> lss)) as Hd.
  { intros l H1 [i H2]%mjoin_held. by specialize (fo_holder _ _ Hf l InRouter (InQueue i) H1 H2). }
  specialize (H Hd). rewrite decide_True in H.
  2:{ pose proof (fo_routed _ _ Hf) as Hok. pose proof (fo_range _ _ Hf) as Hrg. fold rs in Hok, Hrg.
      unfold locs_of. apply Forall_fmap. rewrite Forall_forall in *. intros it Hit. cbn.
      destruct (Hok it Hit) as [_ (m & Em & Hio & _)]. unfold keyof. unfold rl_msgs in Em. rewrite Em, Hio. by apply Hrg. }
  destruct H as (k' & lss' & Ht & Hc' & Hlk & Hso & [Est Ethr] & Hlen & Hget).
  unfold rl_turn. rewrite Ht. cbn [obind].
  specialize (Ethr (λ _, eq_refl)).
  set (qs' := imap (λ i its, its ++ for_io (Z.of_nat i) rs) lss).
  assert (lss' = locs_of <$> qs') as ->.
  { apply list_eq. intros i. unfold qs'. rewrite list_lookup_fmap, list_lookup_imap.
    destruct (lss !! i) as [its|] eqn:Ei.
    - rewrite (Hget i (locs_of its)) by (by rewrite list_lookup_fmap, Ei). cbn.
      rewrite (items_with_key (cl_msgs (rl_cluster s))) by exact (fo_routed _ _ Hf). unfold locs_of. by rewrite fmap_app.
    - apply lookup_ge_None in Ei. cbn. apply lookup_ge_None. by rewrite Hlen. }
  set (f' := mkFlow [] qs' (fl_boxes f) (fl_collected f)).
  assert (length qs' = length lss) as El by (unfold qs'; by rewrite length_imap).
  assert (∀ i its', qs' !! i = Some its' → ∃ its, lss !! i = Some its ∧ its' = its ++ for_io (Z.of_nat i) rs) as Hq'.
  { intros i its' Hi. unfold qs' in Hi. rewrite list_lookup_imap in Hi.
    destruct (lss !! i) as [its|]; [|done]. injection Hi as <-. by exists its. }
  assert (∀ h l, h ≠ InRouter → (∀ i, h ≠ InQueue i) → carries_msg f h l → cl_msgs k' !! l = rl_msgs s !! l) as Hkeep.
  { intros h l Hr Hq Hl. apply Hso. rewrite elem_of_app. intros [Hin|[i Hin]%mjoin_held].
    - by apply Hr, (fo_holder _ _ Hf l).
    - by apply (Hq i), (fo_holder _ _ Hf l). }
  assert (∀ its, Forall (item_ok (rl_msgs s)) its → Forall (item_ok (cl_msgs k')) its) as Hitems.
  { intros its Hits. eapply Forall_impl; [exact Hits|]. intros it. by apply item_ok_links. }
  eexists _, f'. split; [done|]. unfold f'. split; [|split; [|split; [done|]]].
  - split; cbn [fl_router fl_queues fl_boxes fl_collected rl_cluster rl_router rl_collector rl_msgs].
    + by exists qs.
    + rewrite Est, El. exact (fo_size _ _ Hf).
    + apply bq_new_rep.
    + apply (collector_frame s f); [done|]. intros l Hl. by apply (Hkeep InCollector).
    + constructor.
    + constructor.
    + intros i its' (its & Hi & ->)%Hq'. apply Hitems, Forall_app. split; [exact (fo_queued _ _ Hf i its Hi)|].
      pose proof (fo_routed _ _ Hf) as Hr. rewrite Forall_forall in *. intros it [_ Hit]%list_elem_of_filter. by apply Hr.
    + rewrite El. exact (fo_boxes _ _ Hf).
    + intros i a os Ea Eo. rewrite Ethr in Ea. eapply (threads_frame s f); try done.
      intros l Hl. by apply (Hkeep (InOutbox i)).
    + assert (∀ h l, carries_msg f' h l → carries_msg f h l ∨
        ∃ i, h = InQueue i ∧ l ∈ locs_of rs ∧ keyof io_key (rl_msgs s) l = Z.of_nat i) as Hh.
      { intros [|i|i|] l Hl; cbn in Hl; [set_solver| |auto|auto].
        destruct Hl as (its' & (its & Hi & ->)%Hq' & Hl). unfold locs_of in Hl. rewrite fmap_app in Hl.
        apply elem_of_app in Hl as [Hl|Hl]; [left; by exists its|]. right. exists i. split; [done|].
        change (it_loc <$> for_io (Z.of_nat i) rs) with (locs_of (for_io (Z.of_nat i) rs)) in Hl.
        rewrite <-(items_with_key (rl_msgs s)) in Hl by exact (fo_routed _ _ Hf). by apply with_key_sub in Hl. }
      intros l h1 h2 H1 H2. destruct (Hh h1 l H1) as [H3|(i & -> & H3 & E3)], (Hh h2 l H2) as [H4|(j & -> & H4 & E4)].
      * by apply (fo_holder _ _ Hf l).
      * assert (h1 = InRouter) as -> by (by apply (fo_holder _ _ Hf l)). cbn in H1. set_solver.
      * assert (h2 = InRouter) as -> by (by apply (fo_holder _ _ Hf l)). cbn in H2. set_solver.
      * f_equal. lia.
  - intros i id (a & l & Ea & Hl). cbn in Ea. rewrite Ethr in Ea.
    destruct (Hacc i id) as (nets & net & os & o & its & H1 & H2 & H3 & H4 & H5 & H6); [by exists a, l|].
    exists nets, net, os, o, (its ++ for_io (Z.of_nat i) rs). split_and!; try done.
    + cbn. unfold qs'. rewrite list_lookup_imap. fold lss in H5. by rewrite H5.
    + rewrite <-H6. cbn [fl_router]. rewrite for_conn_app, frames_app. cbn. by rewrite app_nil_r.
  - intros i id. unfold rl_online. cbn. by rewrite Ethr.
Qed.

(** ** A turn of an I/O thread *)
Lemma NoDup_mjoin_empty {A} (lss : list (list A)) i : NoDup (mjoin lss) → NoDup (mjoin (<[i := []]> lss)).
Proof.
  destruct (lss !! i) as [ls|] eqn:E.
  - intros Hnd. rewrite <-(take_drop_middle lss i ls E), join_app in Hnd.
    rewrite insert_take_drop by (by eapply lookup_lt_Some). rewrite join_app. cbn in *.
    apply NoDup_app in Hnd as (H1 & H2 & H3). apply NoDup_app in H3 as (_ & _ & H3).
    apply NoDup_app. split; [done|]. split; [|done]. intros x Hx Hin. apply (H2 x Hx). set_solver.
  - apply lookup_ge_None in E. by rewrite list_insert_ge.
Qed.

(** The holders thread [i] works on. *)
Definition of_thread (i : nat) (h : holder) : Prop := h = InQueue i ∨ h = InOutbox i ∨ h = InCollector.

Section thread_turn.
Context (s : relay S) (f : flow) (i : nat) (a a' : IoApp S) (os os' : gmap Z outbox)
  (its its' : list item) (ks' : list loc).
Context (Hf : flow_ok s f) (Ea : cl_core_io (rl_cluster s) !! i = Some a)
  (Eo : fl_boxes f !! i = Some os) (Ei : fl_queues f !! i = Some its)
  (Hth : thread_ok (ia_msgs a') a' os') (Hk : collected_rep (ia_msgs a') (ia_collector a') ks')
  (Hq : mq_rep (ia_msgs a') (ia_msg_queue a') (locs_of its')) (Hits : its' = its ∨ its' = [])
  (Hok : Forall (item_ok (ia_msgs a')) its')
  (Hso : same_outside (locs_of its ++ os_msgs os ++ fl_collected f) (rl_msgs s) (ia_msgs a'))
  (Hown : ∀ l, l ∈ os_msgs os' ∨ l ∈ ks' → l ∈ os_msgs os ∨ l ∈ fl_collected f ∨ l ∈ locs_of its)
  (Hap : ∀ l, l ∈ ks' → l ∉ os_msgs os')
  (Hap' : ∀ l, l ∈ locs_of its' → (l ∉ os_msgs os') ∧ (l ∉ ks')).

Let f' : flow := mkFlow (fl_router f) (<[i := its']> (fl_queues f)) (<[i := os']> (fl_boxes f)) ks'.

Lemma thread_turn_keeps h l : ¬ of_thread i h → carries_msg f h l → ia_msgs a' !! l = rl_msgs s !! l.
Proof using Hf Eo Ei Hso.
  clear -Hf Eo Ei Hso.
  intros Hno Hl. apply Hso. rewrite !elem_of_app. intros [Hin|[Hin|Hin]]; apply Hno.
  - left. apply (fo_holder _ _ Hf l); [done|]. by exists its.
  - right; left. apply (fo_holder _ _ Hf l); [done|]. by exists os.
  - right; right. by apply (fo_holder _ _ Hf l).
Qed.

(** Afterwards a message has the same holder, or one of the thread's instead of another
    of the thread's. *)
Lemma thread_turn_moves h l :
  carries_msg f' h l → ∃ h0, carries_msg f h0 l ∧ ((h = h0 ∧ ¬ of_thread i h) ∨ (of_thread i h ∧ of_thread i h0)).
Proof using Hown Hits Ei Eo.
  clear -Hown Hits Ei Eo.
  assert (∀ l, l ∈ os_msgs os' ∨ l ∈ ks' → ∃ h0, carries_msg f h0 l ∧ of_thread i h0) as Hfrom.
  { intros k [Hk'|[Hk'|Hk']]%Hown.
    - exists (InOutbox i). split; [by exists os|]. unfold of_thread. auto.
    - exists InCollector. split; [done|]. unfold of_thread. auto.
    - exists (InQueue i). split; [by exists its|]. unfold of_thread. auto. }
  unfold of_thread in *. destruct h as [|j|j|]; cbn [carries_msg f' fl_router fl_queues fl_boxes fl_collected].
  - intros Hl. exists InRouter. split; [done|]. left. split; [done|]. naive_solver.
  - intros (x & [(-> & <- & _)|[Hne Hx]]%list_lookup_insert_Some & Hl).
    + exists (InQueue j). split; [|by auto]. destruct Hits as [->| ->]; [by exists its|set_solver].
    + exists (InQueue j). split; [by exists x|]. left. split; [done|]. naive_solver.
  - intros (x & [(-> & <- & _)|[Hne Hx]]%list_lookup_insert_Some & Hl).
    + destruct (Hfrom l) as (h0 & H0 & H1); eauto 10.
    + exists (InOutbox j). split; [by exists x|]. left. split; [done|]. naive_solver.
  - intros Hl. destruct (Hfrom l) as (h0 & H0 & H1); eauto 10.
Qed.

Lemma thread_turn_holder : single_holder f'.
Proof using Hown Hits Ei Eo Hf Hap Hap'.
  clear -Hown Hits Ei Eo Hf Hap Hap'.
  assert (∀ l j, carries_msg f' (InQueue j) l → j = i → l ∈ locs_of its') as HQ.
  { intros l j (x & [(_ & <- & _)|[Hne _]]%list_lookup_insert_Some & Hl) ->; [done|done]. }
  assert (∀ l j, carries_msg f' (InOutbox j) l → j = i → l ∈ os_msgs os') as HO.
  { intros l j (x & [(_ & <- & _)|[Hne _]]%list_lookup_insert_Some & Hl) ->; [done|done]. }
  intros l h1 h2 H1 H2. destruct (thread_turn_moves h1 l H1) as (g1 & G1 & C1).
  destruct (thread_turn_moves h2 l H2) as (g2 & G2 & C2).
  assert (g1 = g2) as -> by (by apply (fo_holder _ _ Hf l)).
  destruct C1 as [[-> N1]|[T1 O1]], C2 as [[-> N2]|[T2 O2]]; try done.
  destruct T1 as [-> |[-> | ->]], T2 as [-> |[-> | ->]]; try done; exfalso.
  - destruct (Hap' l (HQ _ _ H1 eq_refl)) as [Hn _]. by apply Hn, (HO _ i).
  - by destruct (Hap' l (HQ _ _ H1 eq_refl)) as [_ Hn].
  - destruct (Hap' l (HQ _ _ H2 eq_refl)) as [Hn _]. by apply Hn, (HO _ i).
  - by apply (Hap l H2), (HO _ i).
  - by destruct (Hap' l (HQ _ _ H2 eq_refl)) as [_ Hn].
  - by apply (Hap l H1), (HO _ i).
Qed.

Lemma flow_thread nets : flow_ok (put_thread s i a' nets) f'.
Proof using All.
  destruct (fo_cluster _ _ Hf) as [qs Hc].
  split; cbn [fl_router fl_queues fl_boxes fl_collected f' put_thread rl_cluster rl_router rl_collector rl_msgs cl_settings cl_msgs cl_core_io].
  - exists qs. destruct Hc as [Hrun Hs Hsl Hm Hml Hd]. split; cbn; rewrite ?length_insert; try done.
    + apply Forall2_same_length_lookup. split.
      { rewrite list_fmap_insert, !length_insert. by eapply Forall2_length. }
      intros j q ls Hj Hl. rewrite list_fmap_insert in Hl.
      apply list_lookup_insert_Some in Hj as [(-> & <- & _)|[Hne Hj]].
      * rewrite list_lookup_insert_eq in Hl; [by injection Hl as <-|].
        rewrite length_fmap. by eapply lookup_lt_Some.
      * rewrite list_lookup_insert_ne in Hl by done.
        eapply is_queue_frame; [|exact (Forall2_lookup_lr _ _ _ _ _ _ Hm Hj Hl)].
        intros l Hin. rewrite list_lookup_fmap in Hl. destruct (fl_queues f !! j) as [x|] eqn:Ej; [|done].
        injection Hl as <-. apply (thread_turn_keeps (InQueue j)); [|by exists x].
        intros [[= ->]|[?|?]]; done.
    + by rewrite list_fmap_insert, length_insert.
    + rewrite list_fmap_insert. destruct Hits as [->| ->]; [|by apply NoDup_mjoin_empty].
      rewrite list_insert_id; [done|]. by rewrite list_lookup_fmap, Ei.
  - rewrite length_insert. exact (fo_size _ _ Hf).
  - eapply bq_rep_frame; [|exact (fo_router _ _ Hf)]. intros l Hl. apply (thread_turn_keeps InRouter); [|done].
    intros [?|[?|?]]; done.
  - exact Hk.
  - rewrite length_insert. exact (fo_range _ _ Hf).
  - eapply items_ok_frame; [|exact (fo_routed _ _ Hf)]. intros l Hl. apply (thread_turn_keeps InRouter); [|done].
    intros [?|[?|?]]; done.
  - intros j x [(-> & <- & _)|[Hne Hx]]%list_lookup_insert_Some; [done|].
    eapply items_ok_frame; [|exact (fo_queued _ _ Hf j x Hx)]. intros l Hl.
    apply (thread_turn_keeps (InQueue j)); [|by exists x]. intros [[= ->]|[?|?]]; done.
  - rewrite !length_insert. exact (fo_boxes _ _ Hf).
  - intros j b x [(-> & <- & _)|[Hne Hb]]%list_lookup_insert_Some Hx.
    + rewrite list_lookup_insert_eq in Hx; [by injection Hx as <-|]. by eapply lookup_lt_Some.
    + rewrite list_lookup_insert_ne in Hx by done. eapply (threads_frame s f); try done.
      intros l Hl. apply (thread_turn_keeps (InOutbox j)); [|done]. intros [?|[[= ->]|?]]; done.
  - exact thread_turn_holder.
Qed.
End thread_turn.

(** The parts of thread [i]. *)
Lemma flow_parts s f i a :
  flow_ok s f → cl_core_io (rl_cluster s) !! i = Some a →
  ∃ q its os, cl_msg_queue (rl_cluster s) !! i = Some q ∧ fl_queues f !! i = Some its ∧
    fl_boxes f !! i = Some os ∧ mq_rep (rl_msgs s) q (locs_of its) ∧ thread_ok (rl_msgs s) a os.
Proof.
  intros Hf Ea. destruct (fo_cluster _ _ Hf) as [qs Hc].
  assert (i < length (fl_queues f))%nat as Hi.
  { rewrite <-(length_fmap locs_of), (cr_msgs_len _ _ _ Hc). by eapply lookup_lt_Some. }
  destruct (lookup_lt_is_Some_2 (fl_queues f) i Hi) as [its Ei].
  destruct (lookup_lt_is_Some_2 (fl_boxes f) i) as [os Eo]; [by rewrite (fo_boxes _ _ Hf)|].
  assert ((locs_of <$> fl_queues f) !! i = Some (locs_of its)) as Ej by (by rewrite list_lookup_fmap, Ei).
  destruct (Forall2_lookup_r _ _ _ _ _ (cr_msgs _ _ _ Hc) Ej) as (q & Eq & Hq).
  exists q, its, os. split; [done|]. split; [done|]. split; [done|]. split; [done|].
  exact (fo_threads _ _ Hf i a os Ea Eo).
Qed.

(** The messages of thread [i] and of the collector are apart. *)
Lemma flow_apart s f i its os :
  flow_ok s f → fl_queues f !! i = Some its → fl_boxes f !! i = Some os →
  (∀ l, l ∈ locs_of its → (l ∉ os_msgs os) ∧ (l ∉ fl_collected f)) ∧
  (∀ l, l ∈ fl_collected f → l ∉ os_msgs os).
Proof.
  intros Hf Ei Eo. pose proof (fo_holder _ _ Hf) as Hh.
  assert (∀ l, l ∈ locs_of its → carries_msg f (InQueue i) l) as HQ by (intros l Hl; by exists its).
  assert (∀ l, l ∈ os_msgs os → carries_msg f (InOutbox i) l) as HO by (intros l Hl; by exists os).
  split; [intros l Hl; split; intros Hin|intros l Hl Hin].
  - by specialize (Hh l _ _ (HQ l Hl) (HO l Hin)).
  - by specialize (Hh l _ InCollector (HQ l Hl) Hin).
  - by specialize (Hh l InCollector _ Hl (HO l Hin)).
Qed.

Lemma online_put s i a a' nets j id :
  cl_core_io (rl_cluster s) !! i = Some a → ia_owner a' = ia_owner a →
  rl_online (put_thread s i a' nets) j id ↔ rl_online s j id.
Proof.
  intros Ea Ew. unfold rl_online. cbn. destruct (decide (i = j)) as [<-|Hne].
  - rewrite list_lookup_insert_eq by (by eapply lookup_lt_Some). split.
    + intros (b & l & [= <-] & Hl). exists a, l. by rewrite <-Ew.
    + intros (b & l & Eb & Hl). exists a', l. rewrite Ew. split; [done|]. congruence.
  - by rewrite list_lookup_insert_ne.
Qed.

Lemma flow_push log s f i :
  flow_ok s f → accounted log s f → is_Some (cl_core_io (rl_cluster s) !! i) →
  ∃ s' f', rl_push s i = Ret s' ∧ flow_ok s' f' ∧ accounted log s' f' ∧ fl_router f' = fl_router f ∧
    fl_queues f' = <[i := []]> (fl_queues f) ∧ (∀ j id, rl_online s' j id ↔ rl_online s j id).
Proof.
  intros Hf Hacc [a Ea]. destruct (flow_parts s f i a Hf Ea) as (q & its & os & Eq & Ei & Eo & Hq & Hth).
  destruct (flow_apart s f i its os Hf Ei Eo) as [Hd1 Hd2].
  unfold rl_push. rewrite Ea. cbn [obind defined]. rewrite Eq. cbn [obind defined].
  destruct (IoApp_push_items its (thread_view s q a) os (fl_collected f))
    as (a' & os' & ks' & -> & Hth' & Hk' & Hdel & Hso & Ew & Emq & Hap); try done.
  { by eapply (thread_ok_frame _ _ a). }
  { exact (fo_collector _ _ Hf). }
  { exact (fo_queued _ _ Hf i its Ei). }
  cbn [obind].
  set (f' := mkFlow (fl_router f) (<[i := []]> (fl_queues f)) (<[i := os']> (fl_boxes f)) ks').
  exists (put_thread s i a' (rl_nets s)), f'.
  split; [done|]. split; [|split; [|split; [done|split; [done|by intros; apply (online_put s i a)]]]].
  - eapply (flow_thread s f i a a' os os' its []); try done.
    + by rewrite Emq.
    + by right.
    + intros l Hl. exact (delivered_msgs _ _ _ _ _ _ l Hdel Hl).
    + intros l Hl. unfold locs_of in Hl. set_solver.
  - intros j id Hon. apply (online_put s i a) in Hon; [|done|done].
    destruct (Hacc j id Hon) as (nets & net & os1 & o & its1 & H1 & H2 & H3 & H4 & H5 & H6).
    destruct (decide (i = j)) as [<-|Hne].
    + assert (os1 = os) as -> by congruence. assert (its1 = its) as -> by congruence.
      destruct (dl_some _ _ _ _ _ _ Hdel id o H4) as (o' & Eo' & Hb & _).
      exists nets, net, os', o', []. split; [done|]. split; [done|]. cbn.
      rewrite !list_lookup_insert_eq by (by eapply lookup_lt_Some). split; [done|]. split; [done|]. split; [done|].
      rewrite <-H6, Hb, <-!app_assoc. done.
    + exists nets, net, os1, o, its1. cbn. by rewrite !list_lookup_insert_ne.
Qed.

(** How much of a connection is unsent. *)
Definition box_measure f (i : nat) (id : Z) : nat :=
  match fl_boxes f !! i with
  | Some os => match os !! id with Some o => ob_measure o | None => 0%nat end
  | None => 0%nat
  end.

Lemma flow_write log s f i id sends :
  flow_ok s f → accounted log s f → rl_online s i id → sends_ok sends →
  ∃ s' f', rl_write s i id sends = Ret s' ∧ flow_ok s' f' ∧ accounted log s' f' ∧
    fl_router f' = fl_router f ∧ fl_queues f' = fl_queues f ∧ (∀ j id, rl_online s' j id ↔ rl_online s j id) ∧
    (box_measure f' i id ≤ box_measure f i id)%nat ∧
    (accepts sends → box_measure f i id ≠ 0%nat → (box_measure f' i id < box_measure f i id)%nat).
Proof.
  intros Hf Hacc Hon Hok. pose proof Hon as (a & l & Ea & Hl).
  destruct (flow_parts s f i a Hf Ea) as (q & its & os & Eq & Ei & Eo & Hq & Hth).
  destruct (flow_apart s f i its os Hf Ei Eo) as [Hd1 Hd2].
  destruct (to_open _ _ _ Hth id l Hl) as (c & ap & o & Ec & Eob & Hw & Hrep).
  destruct (Hacc i id Hon) as (nets & net & os1 & o1 & its1 & N1 & N2 & N3 & N4 & N5 & N6).
  assert (os1 = os) as -> by congruence. assert (o1 = o) as -> by congruence. assert (its1 = its) as -> by congruence.
  unfold rl_write. rewrite Ea. cbn [obind defined]. rewrite Eq. cbn [obind defined].
  unfold ConnectionRegister_get. rewrite Hl. cbn [obind defined]. rewrite N1. cbn [obind defined].
  rewrite N2. cbn [obind defined]. pose proof Hw as (W1 & W2 & W3 & W4 & _).
  destruct (write_event_outbox EV_WRITE (thread_view s q a) l c ap o (with_sends sends net))
    as (pq & mh & ph & net' & o' & -> & Hrep' & Hb & Hsuf & Hidle & Hm & Hp & Hmeas); try done.
  cbn [obind]. set (a' := ia_set_out _ _ _ _).
  assert (∀ k, k ∈ ob_msgs o → k ∈ os_msgs os) as Hsub by (intros k Hk; apply elem_of_os_msgs; eauto).
  assert (ob_msgs o' ⊆ ob_msgs o ∧ ob_nodes o' ⊆ ob_nodes o) as [Hs1 Hs2].
  { unfold ob_msgs, ob_nodes. destruct Hsuf as [ys ->]. rewrite !fmap_app. set_solver. }
  assert (os_msgs (<[id := o']> os) ⊆ os_msgs os) as Hsub'.
  { intros k (j & oj & [[<- <-]|[_ Hj]]%lookup_insert_Some & Hk)%elem_of_os_msgs; [auto|].
    apply elem_of_os_msgs. eauto. }
  set (f' := mkFlow (fl_router f) (<[i := its]> (fl_queues f)) (<[i := <[id := o']> os]> (fl_boxes f)) (fl_collected f)).
  exists (put_thread s i a' (<[i := <[id := net']> nets]> (rl_nets s))), f'.
  split; [done|]. split; [|split; [|split; [done|split; [by apply list_insert_id|split; [by intros; apply (online_put s i a)|]]]]].
  - eapply (flow_thread s f i a a' os (<[id := o']> os) its its); try done.
    + change (ia_msgs a') with mh. eapply (thread_ok_update (rl_msgs s) (thread_view s q a) os id l c ap o); try done.
      * by eapply (thread_ok_frame _ _ a).
      * by eapply after_write_writable.
      * exists (ob_msgs o). split; [done|]. split; [|done]. intros j oj Hj Ej.
        exact (to_msgs _ _ _ Hth j id oj o Hj Ej Eob).
      * exists (ob_nodes o). split; [done|]. split; [|done]. intros j oj Hj Ej.
        exact (to_nodes _ _ _ Hth j id oj o Hj Ej Eob).
    + eapply collected_rep_frame; [|exact (fo_collector _ _ Hf)]. intros k Hk. apply Hm. specialize (Hd2 k Hk). set_solver.
    + eapply is_queue_frame; [|exact Hq]. intros k Hk. apply Hm. destruct (Hd1 k Hk). set_solver.
    + by left.
    + eapply items_ok_frame; [|exact (fo_queued _ _ Hf i its Ei)]. intros k Hk. apply Hm. destruct (Hd1 k Hk). set_solver.
    + eapply same_outside_weaken; [|exact Hm]. set_solver.
    + set_solver.
    + intros k Hk Hin. by apply (Hd2 k Hk), Hsub'.
    + intros k Hk. destruct (Hd1 k Hk) as [H1 H2]. split; [|done]. intros Hin. by apply H1, Hsub'.
  - intros j id' Hon'. apply (online_put s i a) in Hon'; [|done|done].
    destruct (Hacc j id' Hon') as (nets1 & net1 & os1 & o1 & its1 & H1 & H2 & H3 & H4 & H5 & H6).
    destruct (decide (i = j)) as [<-|Hne].
    + assert (nets1 = nets) as -> by congruence. assert (os1 = os) as -> by congruence.
      assert (its1 = its) as -> by congruence. destruct (decide (id = id')) as [<-|Hne].
      * exists (<[id := net']> nets), net', (<[id := o']> os), o', its. cbn.
        rewrite !list_lookup_insert_eq, !lookup_insert_eq by (by eapply lookup_lt_Some).
        split_and!; try done. rewrite <-N6, !app_assoc. do 2 f_equal. exact Hb.
      * exists (<[id := net']> nets), net1, (<[id := o']> os), o1, its. cbn.
        rewrite !list_lookup_insert_eq, !lookup_insert_ne by (done || by eapply lookup_lt_Some). done.
    + exists nets1, net1, os1, o1, its1. cbn. by rewrite !list_lookup_insert_ne.
  - unfold box_measure. cbn. rewrite list_lookup_insert_eq by (by eapply lookup_lt_Some).
    rewrite Eo, Eob, lookup_insert_eq. split; [apply Hmeas|]. intros Ha Hne. apply Hmeas; [done|]. intros Hall. apply Hne.
    unfold ob_measure, ob_bytes, ob_left. unfold ob_all in *. destruct (ob_cur o) as [[x k]|]; [done|]. by rewrite Hall.
Qed.
End flow.
