(* ===== verification/ChatFlow.v ===== *)
(** A chat message from the broker to the sockets: the handler of the message broker
    (thrift/broker/message_broker_processor.cpp) put together with the router and the I/O
    threads, and the histories of all of them.

    The broker's worker has the message it took from its queue to itself; it makes the
    copies in the store the threads share, gives those of users in the table to the local
    router and the others to the collector, which the threads use too (main.cpp).  A
    history interleaves such turns with those of other workers, the router, the threads
    and the kernel; its log says what was routed, in order. *)
From S2P Require Import Prelude Heap Bytes MsMessage MsQueues LibQueues IoPushList IoConnection IoAppConnection LinkedList ConnCache IoApp IoAppCluster MsRouter UserRouter ImPb ImParser Processors Delivery ServerFlow.

(** ** A turn of the broker *)
Section chat.
Context {S : Type} {HS : IoProcessor S} {HC : ImCodec}.
Implicit Types (s : relay S) (f : flow) (t : channel_table) (p : ImPack).

(** The worker processes the message [m] at [l]; [t] is the table of the users'
    connections. *)
Definition rl_chat s t (l : loc) (m : IMessage) : outcome (relay S) :=
  let k := rl_cluster s in
  let* (_, w) := MessageBrokerProcessor_process
                   (mkIm (<[l := m]> (cl_msgs k)) (mkRouter t (rl_router s)) (rl_collector s) []) (Some l) in
  Ret (mkRelay (cl_set_msgs (iw_msgs w) k) (ur_local (iw_router w)) (iw_collector w) (rl_nets s)).

(** A chat message the broker can send on. *)
Record chat_for s t (l : loc) (m : IMessage) p : Prop := {
  cf_new : rl_msgs s !! l = None;
  cf_wf : wf_msg m;
  cf_alone : msg_next m = None;
  cf_unmarked : unmarked m;
  cf_data : ∃ bs, read_data m = Ret bs ∧ decode_pack bs = Some p;
  cf_type : p_type p = Some IM_MSG;
  cf_sender : getMsgPackUser (mkIPack None p None) ≠ -1;
  cf_targets : im_target_uid (pack_msg p) ≠ [];
  cf_max : (length (im_target_uid (pack_msg p)) ≤ TARGET_MAX)%nat;
  cf_fits : Forall (λ v, fits (update_msg (im_set_target_uid [v]) p)) (im_target_uid (pack_msg p));
  cf_threads : ∀ v c, v ∈ im_target_uid (pack_msg p) → found t v = Some c →
    u32 (ch_io c) < st_cluster_size (cl_settings (rl_cluster s)) }.

(** The frame of the copy for [v], and the items for the users in the table. *)
Definition chat_frame p (v : Z) : list Z :=
  let bs := encode_pack (update_msg (im_set_target_uid [v]) p) in header_bytes (Z.of_nat (length bs)) ++ bs.
Definition chat_item t p (x : loc * Z) : option item :=
  match found t x.2 with
  | Some c => Some (mkItem x.1 (u32 (ch_io c)) (ch_conn c) (chat_frame p x.2))
  | None => None
  end.

(** The items as the log has them: the log says what is sent and where to, and the
    copies stand under the location of the message they were made from. *)
Definition chat_items t p (l : loc) : list item := omap (λ v, chat_item t p (l, v)) (im_target_uid (pack_msg p)).

(** The user is to be reached on connection [id] of thread [i]. *)
Definition reads_at t (i : nat) (id v : Z) : bool :=
  match found t v with Some c => (u32 (ch_io c) =? Z.of_nat i) && (ch_conn c =? id) | None => false end.

(** The frames routed to a connection. *)
Definition routed_to (i : nat) (id : Z) (log : list item) : list Z :=
  frames (for_conn id (for_io (Z.of_nat i) log)).

Lemma routed_to_app i id log log' : routed_to i id (log ++ log') = routed_to i id log ++ routed_to i id log'.
Proof. unfold routed_to, for_io, for_conn. by rewrite !filter_app, frames_app. Qed.

(** Where the copies are does not matter to what is routed. *)
Lemma routed_to_copies i id t p (xs : list (loc * Z)) :
  routed_to i id (omap (chat_item t p) xs) = mjoin (chat_frame p <$> filter (λ v, reads_at t i id v = true) xs.*2).
Proof.
  induction xs as [|[k v] xs IH]; [done|]. change (((k, v) :: xs).*2) with (v :: xs.*2). rewrite filter_cons.
  cbn [omap list_omap]. unfold chat_item at 1. cbn [fst snd].
  destruct (decide (reads_at t i id v = true)) as [Hr|Hr]; unfold reads_at in Hr; destruct (found t v) as [c|]; try done.
  - apply andb_true_iff in Hr as [Hi%Z.eqb_eq Hc%Z.eqb_eq]. unfold routed_to, for_io, for_conn in *.
    rewrite filter_cons, decide_True, filter_cons, decide_True by done. unfold frames in *. rewrite !fmap_cons.
    cbn [mjoin list_join it_frame]. f_equal. exact IH.
  - rewrite <-IH. unfold routed_to, for_io, for_conn. rewrite filter_cons. cbn [it_io].
    destruct (decide _) as [Hi|]; [|done]. rewrite filter_cons, decide_False; [done|]. cbn. intros Hc. apply Hr.
    by rewrite Hi, Hc, !Z.eqb_refl.
Qed.

Lemma routed_to_chat i id t p l :
  routed_to i id (chat_items t p l) =
    mjoin (chat_frame p <$> filter (λ v, reads_at t i id v = true) (im_target_uid (pack_msg p))).
Proof.
  unfold chat_items. set (us := im_target_uid (pack_msg p)).
  assert (omap (λ v, chat_item t p (l, v)) us = omap (chat_item t p) (pair l <$> us)) as ->
    by (induction us as [|v us IH]; [done|]; cbn [omap list_omap fmap list_fmap]; by rewrite <-IH).
  rewrite routed_to_copies. f_equal. f_equal. f_equal. induction us as [|v us IH]; [done|]. cbn. by rewrite IH.
Qed.

Lemma locs_of_copies t p (xs : list (loc * Z)) :
  locs_of (omap (chat_item t p) xs) = (filter (λ x, online t x = true) xs).*1.
Proof.
  induction xs as [|[k v] xs IH]; [done|]. rewrite filter_cons. cbn [omap list_omap].
  unfold chat_item at 1. cbn [fst snd].
  destruct (decide (online t (k, v) = true)) as [Ho|Ho]; unfold online in Ho; cbn in Ho; destruct (found t v) as [c|]; try done.
  unfold locs_of in *. by rewrite !fmap_cons, IH.
Qed.

Lemma read_bytes_prefix b n xs : read_bytes b 0 n = Ret xs → ∃ rest, b = (Some <$> xs) ++ rest.
Proof.
  unfold read_bytes. destruct (in_bounds b 0 n); [|done]. rewrite drop_0.
  destruct (mapM id _) as [ys|] eqn:E; [|done]. intros [= ->]. exists (drop (Z.to_nat n) b).
  apply mapM_Some in E. rewrite <-(take_drop (Z.to_nat n) b) at 1. f_equal.
  induction E as [|x y xs' ys' Hxy _ IH]; [done|]. unfold id in Hxy. subst x. by rewrite fmap_cons, IH.
Qed.

Lemma copy_item_ok h t p x it :
  chat_item t p x = Some it → (∃ m, h !! x.1 = Some m ∧ sent t p x.2 m) → (∃ m, h !! x.1 = Some m ∧ unmarked m) →
  item_ok h it.
Proof.
  unfold chat_item. intros Hit (m & Em & Hd & Hs) (m1 & Em1 & Hc & Hw). assert (m1 = m) as -> by congruence.
  destruct (found t x.2) as [c|]; [|done]. injection Hit as <-. destruct Hs as [Hio Hcn].
  destruct (dv_framed _ _ _ _ _ _ Hd) as [(H1 & H2 & H3 & H4 & H5 & H6) Hh].
  pose proof (dv_bytes _ _ _ _ _ _ Hd) as Hr. unfold read_data in Hr. rewrite H2 in Hr.
  pose proof (read_bytes_length _ _ _ _ Hr) as Hlen. split; exists m; cbn [it_loc it_io it_conn it_frame].
  - split; [done|]. split; [done|]. unfold chat_frame. rewrite Hlen.
    pose proof (read_bytes_app _ _ _ _ _ _ Hh Hr) as Hall. split; [|by eapply read_bytes_prefix].
    rewrite (read_bytes_length _ _ _ _ Hall). lia.
  - split; [done|]. rewrite Hio. split; [done|]. split; [done|]. by left.
Qed.

Section copies.
Context (h : mheap) (t : channel_table) (p : ImPack) (xs : list (loc * Z)).
Context (Hsent : ∀ x, x ∈ filter (λ x, online t x = true) xs → ∃ m, h !! x.1 = Some m ∧ sent t p x.2 m).

Lemma copies_item_ok :
  (∀ x, x ∈ filter (λ x, online t x = true) xs → ∃ m, h !! x.1 = Some m ∧ unmarked m) →
  Forall (item_ok h) (omap (chat_item t p) xs).
Proof.
  intros Hun. apply Forall_forall. intros it (x & Hx & Hit)%list_elem_of_omap.
  assert (x ∈ filter (λ x, online t x = true) xs) as Hx'; [|by eapply copy_item_ok; eauto].
  apply list_elem_of_filter. split; [|done]. unfold chat_item in Hit. unfold online.
  destruct (found t x.2); [|done]. by apply bool_decide_true.
Qed.

(** No message is sent and kept: it is for one user. *)
Lemma copies_apart :
  (∀ x, x ∈ filter (λ x, online t x = false) xs → ∃ m, h !! x.1 = Some m ∧ delivers p None BACKEND APP x.2 m) →
  (filter (λ x, online t x = true) xs).*1 ## (filter (λ x, online t x = false) xs).*1.
Proof.
  intros Hkept k ([k1 v1] & -> & H1)%list_elem_of_fmap ([k2 v2] & Hk2 & H2)%list_elem_of_fmap. cbn in Hk2. subst k2.
  destruct (Hsent _ H1) as (m1 & E1 & [Hd1 _]). destruct (Hkept _ H2) as (m2 & E2 & Hd2). cbn in *.
  assert (m2 = m1) as -> by congruence. apply list_elem_of_filter in H1 as [H1 _], H2 as [H2 _].
  assert (v2 = v1) as ->; [|congruence].
  rewrite <-(dv_uid _ _ _ _ _ _ Hd1). symmetry. exact (dv_uid _ _ _ _ _ _ Hd2).
Qed.

Lemma copies_in_range n :
  (∀ v c, v ∈ xs.*2 → found t v = Some c → u32 (ch_io c) < n) → Forall (λ it, it_io it < n) (omap (chat_item t p) xs).
Proof.
  intros Hthr. apply Forall_forall. intros it ([k v] & Hx & Hit)%list_elem_of_omap. unfold chat_item in Hit. cbn in Hit.
  destruct (found t v) as [c|] eqn:Ec; [|done]. injection Hit as <-. apply (Hthr v c); [|done].
  by apply (list_elem_of_fmap_2 snd) in Hx.
Qed.
End copies.

Lemma fst_of_filter {A B} (P : A * B → Prop) `{∀ x, Decision (P x)} (xs : list (A * B)) k :
  k ∈ (filter P xs).*1 → k ∈ xs.*1.
Proof. intros (x & -> & [_ Hx]%list_elem_of_filter)%list_elem_of_fmap. by apply list_elem_of_fmap_2. Qed.

(** The messages nobody reads now, as far as they are kept. *)
Definition unread s t (xs : list (loc * Z)) : list loc :=
  match rl_collector s with Some _ => (filter (λ x, online t x = false) xs).*1 | None => [] end.

Lemma held_beside_new s f l m h k :
  flow_ok s f → rl_msgs s !! l = None → carries_msg f h k →
  is_Some (rl_msgs s !! k) ∧ <[l := m]> (rl_msgs s) !! k = rl_msgs s !! k ∧ k ≠ l.
Proof.
  intros Hf Hnew Hk. pose proof (flow_alive _ _ _ _ Hf Hk) as [x Hx]. assert (k ≠ l) by congruence.
  by rewrite lookup_insert_ne.
Qed.

Lemma accounted_copies log s f t p l xs :
  xs.*2 = im_target_uid (pack_msg p) → accounted (log ++ omap (chat_item t p) xs) s f →
  accounted (log ++ chat_items t p l) s f.
Proof.
  intros Hx Ha i id Ho. destruct (Ha i id Ho) as (nets & net & os & o & its & H1 & H2 & H3 & H4 & H5 & H6).
  exists nets, net, os, o, its. split_and!; try done. rewrite H6. fold (routed_to i id (log ++ chat_items t p l)).
  fold (routed_to i id (log ++ omap (chat_item t p) xs)).
  by rewrite !routed_to_app, routed_to_chat, routed_to_copies, Hx.
Qed.

Lemma flow_chat log s f t l m p :
  flow_ok s f → accounted log s f → chat_for s t l m p →
  ∃ s' f', rl_chat s t l m = Ret s' ∧ flow_ok s' f' ∧ accounted (log ++ chat_items t p l) s' f' ∧
    (∀ i id, rl_online s' i id ↔ rl_online s i id).
Proof.
  intros Hf Hacc [Hnew Hw Hn Hum (bs & Hr & Hp) Hty Hu Hne Hmax Hfit Hthr].
  pose proof (λ h k, held_beside_new s f l m h k Hf Hnew) as Hal.
  destruct (im_target_uid (pack_msg p)) as [|u us] eqn:Ht; [done|]. clear Hne.
  set (w := mkIm (<[l := m]> (rl_msgs s)) (mkRouter t (rl_router s)) (rl_collector s) []).
  assert (sendable p (u :: us)) as Hsend by (by eapply decoded_sendable).
  destruct (broker_handler_full w l m p u us (locs_of (fl_router f)) (fl_collected f)) as
    (w' & ls & Hh & Hlen & Htab & Hq & Hsent & Hkof & Hfresh & Hframe & Hlinks & Hcn & Hun); try done.
  { apply lookup_insert_eq. }
  { eapply bq_rep_frame; [|exact (fo_router _ _ Hf)]. intros k Hk. by apply (Hal InRouter). }
  { intros Hk. by destruct (Hal InRouter l Hk) as (_ & _ & ?). }
  { eapply collected_rep_frame; [|exact (fo_collector _ _ Hf)]. intros k Hk. by apply (Hal InCollector). }
  { intros Hk. by destruct (Hal InCollector l Hk) as (_ & _ & ?). }
  { intros k H1 H2. by specialize (fo_holder _ _ Hf k InCollector InRouter H1 H2). }
  set (xs := zip ls (u :: us)) in *. cbn [iw_router ur_table w] in *.
  assert (∀ k, k ∈ xs.*1 → ∀ h, ¬ carries_msg f h k) as Hno.
  { intros k Hk h Hc. destruct (Hal h k Hc) as (Hs & E & Hkl). unfold xs in Hk.
    rewrite fst_zip in Hk by lia. destruct (Hfresh k Hk) as [->|Hx]; [done|]. cbn in Hx. rewrite E in Hx.
    rewrite Hx in Hs. by destruct Hs. }
  destruct (flow_extend log s f (iw_msgs w') (ur_local (iw_router w')) (iw_collector w')
    (omap (chat_item t p) xs) (unread s t xs)) as (Hf' & Ha' & Hon).
  - done.
  - done.
  - by rewrite locs_of_copies.
  - unfold unread. unfold kept_or_freed in Hkof. cbn [iw_collector w] in *. destruct (rl_collector s) eqn:Ec.
    + by destruct Hkof.
    + assert (fl_collected f = []) as -> by (pose proof (fo_collector _ _ Hf) as Hc; by rewrite Ec in Hc).
      by rewrite (proj2 Hcn).
  - intros k Hk. specialize (Hlinks k Hk). cbn in Hlinks. destruct (Hal InRouter k Hk) as (_ & E & _).
    rewrite E in Hlinks. exact Hlinks.
  - intros i k Hk. assert (∃ h, carries_msg f h k ∧ h ≠ InRouter ∧ h ≠ InCollector) as (h & Hc & H1 & H2)
      by (destruct Hk; eauto 6).
    destruct (Hal h k Hc) as (Hs & E & Hkl). rewrite <-E. apply Hframe; [cbn; by rewrite E|done| |].
    + intros Hk'. by apply H1, (fo_holder _ _ Hf k).
    + intros Hk'. by apply H2, (fo_holder _ _ Hf k).
  - intros h k [Hk|Hk]%elem_of_app; apply Hno; [rewrite locs_of_copies in Hk; by eapply fst_of_filter|].
    unfold unread in Hk. destruct (rl_collector s); [by eapply fst_of_filter|by apply not_elem_of_nil in Hk].
  - rewrite locs_of_copies. unfold unread. unfold kept_or_freed in Hkof. cbn [iw_collector w] in Hkof.
    destruct (rl_collector s); [|by intros ? _ ?%not_elem_of_nil]. by eapply copies_apart, Hkof.
  - by apply copies_item_ok; [|apply Hun].
  - apply copies_in_range. unfold xs. by rewrite snd_zip by lia.
  - eexists _, _. split.
    { unfold rl_chat. fold (rl_msgs s). fold w.
      rewrite (broker_process_chat w l m bs p w') by (done || apply lookup_insert_eq). done. }
    split; [exact Hf'|]. split; [|done]. apply (accounted_copies _ _ _ _ _ _ xs); [|exact Ha'].
    unfold xs. by rewrite snd_zip by lia.
Qed.

(** ** Histories *)
(** Nothing is on its way. *)
Record idle_relay s : Prop := {
  id_cluster : ∃ qs, cluster_rep (rl_cluster s) qs (replicate (length (cl_core_io (rl_cluster s))) []);
  id_size : st_cluster_size (cl_settings (rl_cluster s)) = Z.of_nat (length (cl_core_io (rl_cluster s)));
  id_router : bq_rep (rl_msgs s) (rl_router s) [];
  id_collector : collected_rep (rl_msgs s) (rl_collector s) [];
  id_threads : ∀ i a, cl_core_io (rl_cluster s) !! i = Some a →
    thread_ok (rl_msgs s) a ((λ _, mkOutbox None []) <$> ao_online (ia_owner a));
  id_nets : ∀ i id, rl_online s i id → ∃ nets net, rl_nets s !! i = Some nets ∧ nets !! id = Some net ∧
    net_out net = [] }.

(** The items [log] were routed so far. *)
Inductive served : list item → relay S → Prop :=
| served_start s : idle_relay s → served [] s
| served_route log s ms v its s' :
    served log s → ms ##ₘ rl_msgs s → lseg ms (Some v) (locs_of its) None → Forall (item_ok ms) its →
    Forall (λ it, it_io it < st_cluster_size (cl_settings (rl_cluster s))) its →
    rl_route s ms (Some v) = Ret s' → served (log ++ its) s'
| served_chat log s t l m p s' :
    served log s → chat_for s t l m p → rl_chat s t l m = Ret s' → served (log ++ chat_items t p l) s'
| served_turn log s s' : served log s → rl_turn s = Ret s' → served log s'
| served_push log s i s' : served log s → rl_push s i = Ret s' → served log s'
| served_write log s i id sends s' :
    served log s → rl_online s i id → sends_ok sends → rl_write s i id sends = Ret s' → served log s'.

(** ** Reachable states *)

Definition no_outboxes (on : conn_register) : gmap Z outbox := (λ _, mkOutbox None []) <$> on.

Lemma no_outboxes_Some on id o : no_outboxes on !! id = Some o → o = mkOutbox None [].
Proof. unfold no_outboxes. rewrite lookup_fmap. by intros (x & _ & ->)%fmap_Some. Qed.

Lemma os_msgs_none on : os_msgs (no_outboxes on) = [].
Proof.
  destruct (os_msgs (no_outboxes on)) as [|l ls] eqn:E; [done|]. exfalso.
  assert (l ∈ os_msgs (no_outboxes on)) as (id & o & Ho & Hl)%elem_of_os_msgs by (rewrite E; set_solver).
  apply no_outboxes_Some in Ho as ->. unfold ob_msgs in Hl. cbn in Hl. set_solver.
Qed.

Lemma idle_flow s : idle_relay s → ∃ f, flow_ok s f ∧ accounted [] s f.
Proof.
  intros [[qs Hc] Hsz Hr Hk Hth Hnet]. set (n := length (cl_core_io (rl_cluster s))) in *.
  set (os := (λ a, no_outboxes (ao_online (ia_owner a))) <$> cl_core_io (rl_cluster s)).
  exists (mkFlow [] (replicate n []) os []). split.
  - split; cbn [fl_router fl_queues fl_boxes fl_collected].
    + exists qs. by rewrite fmap_replicate.
    + by rewrite length_replicate.
    + done.
    + done.
    + constructor.
    + constructor.
    + intros i its [-> _]%lookup_replicate_1. constructor.
    + unfold os. by rewrite length_fmap, length_replicate.
    + intros i a x Ea Ex. unfold os in Ex. rewrite list_lookup_fmap, Ea in Ex. injection Ex as <-. exact (Hth i a Ea).
    + assert (∀ h l, carries_msg (mkFlow [] (replicate n []) os []) h l → False) as Hno.
      { intros [|i|i|] l; cbn; [set_solver| | |set_solver].
        - intros (its & [-> _]%lookup_replicate_1 & Hl). set_solver.
        - intros (x & Ex & Hl). unfold os in Ex. rewrite list_lookup_fmap in Ex.
          destruct (cl_core_io (rl_cluster s) !! i); [|done]. injection Ex as <-. rewrite os_msgs_none in Hl. set_solver. }
      intros l h1 h2 H1. by destruct (Hno h1 l).
  - intros i id Hon. destruct (Hnet i id Hon) as (nets & net & H1 & H2 & H3). destruct Hon as (a & l & Ea & Hl).
    exists nets, net, (no_outboxes (ao_online (ia_owner a))), (mkOutbox None []), [].
    split; [done|]. split; [done|]. cbn. unfold os. rewrite list_lookup_fmap, Ea. split; [done|].
    unfold no_outboxes. rewrite lookup_fmap, Hl. split; [done|].
    split; [apply lookup_replicate_2; by eapply lookup_lt_Some|]. by rewrite H3.
Qed.

(** With an empty queue the router sleeps. *)
Lemma turn_waits s f : flow_ok s f → fl_router f = [] → rl_turn s = Wait.
Proof.
  intros Hf He. pose proof (fo_router _ _ Hf) as Hr. rewrite He in Hr.
  unfold rl_turn, MsMessageRouterLocal_turn. by rewrite (bq_get_spec _ _ _ Hr).
Qed.

Lemma served_flow log s : served log s → ∃ f, flow_ok s f ∧ accounted log s f.
Proof.
  induction 1 as [s Hs|log s ms v its s' _ (f & Hf & Ha) Hd Hseg Hok Hrg Hr|log s t l m p s' _ (f & Hf & Ha) Hm Hr
    |log s s' _ (f & Hf & Ha) Ht|log s i s' _ (f & Hf & Ha) Hp|log s i id sends s' _ (f & Hf & Ha) Hon Hok Hw].
  - by apply idle_flow.
  - destruct (flow_route log s f ms v its Hf Ha Hd Hseg Hok Hrg) as (s2 & f2 & E & Hf2 & Ha2 & _).
    rewrite Hr in E. injection E as <-. by exists f2.
  - destruct (flow_chat log s f t l m p Hf Ha Hm) as (s2 & f2 & E & Hf2 & Ha2 & _).
    rewrite Hr in E. injection E as <-. by exists f2.
  - destruct (decide (fl_router f = [])) as [He|Hne].
    { by rewrite (turn_waits s f Hf He) in Ht. }
    destruct (flow_turn log s f Hf Ha Hne) as (s2 & f2 & E & Hf2 & Ha2 & _).
    rewrite Ht in E. injection E as <-. by exists f2.
  - assert (is_Some (cl_core_io (rl_cluster s) !! i)) as Hi.
    { unfold rl_push in Hp. apply obind_Ret_inv in Hp as (a & Ea & _). unfold defined in Ea.
      destruct (cl_core_io (rl_cluster s) !! i); [by eexists|done]. }
    destruct (flow_push log s f i Hf Ha Hi) as (s2 & f2 & E & Hf2 & Ha2 & _).
    rewrite Hp in E. injection E as <-. by exists f2.
  - destruct (flow_write log s f i id sends Hf Ha Hon Hok) as (s2 & f2 & E & Hf2 & Ha2 & _).
    rewrite Hw in E. injection E as <-. by exists f2.
Qed.

(** A turn of the router, if it has something to do, and one of thread [i]. *)
Definition rl_settle s (i : nat) : outcome (relay S) :=
  let* s := match rl_turn s with Wait => Ret s | r => r end in rl_push s i.

(** The socket becomes writable as often as [ks] is long; the kernel takes up to
    [k + 1] bytes each time. *)
Fixpoint rl_writes s (i : nat) (id : Z) (ks : list nat) : outcome (relay S) :=
  match ks with
  | [] => Ret s
  | k :: ks => let* s := rl_write s i id [SendTakes k] in rl_writes s i id ks
  end.

Lemma settle_flow log s f i id :
  flow_ok s f → accounted log s f → rl_online s i id →
  ∃ s' f', rl_settle s i = Ret s' ∧ flow_ok s' f' ∧ accounted log s' f' ∧ rl_online s' i id ∧
    fl_router f' = [] ∧ fl_queues f' !! i = Some [].
Proof.
  intros Hf Ha Hon. unfold rl_settle.
  assert (∃ s1 f1, match rl_turn s with Wait => Ret s | r => r end = Ret s1 ∧ flow_ok s1 f1 ∧ accounted log s1 f1 ∧
    fl_router f1 = [] ∧ rl_online s1 i id) as (s1 & f1 & -> & Hf1 & Ha1 & E1 & Hon1).
  { destruct (decide (fl_router f = [])) as [He|Hne].
    - rewrite (turn_waits s f Hf He). eauto 10.
    - destruct (flow_turn log s f Hf Ha Hne) as (s1 & f1 & -> & Hf1 & Ha1 & E1 & Ho).
      exists s1, f1. split_and!; try done. by apply Ho. }
  cbn [obind]. destruct Hon1 as (a & l & Ea & Hl).
  destruct (flow_push log s1 f1 i Hf1 Ha1) as (s2 & f2 & -> & Hf2 & Ha2 & E2 & E3 & Ho); [by eexists|].
  exists s2, f2. rewrite E2, E3. split; [done|]. split; [done|]. split; [done|].
  split; [apply Ho; by exists a, l|]. split; [done|].
  apply list_lookup_insert_eq. destruct (flow_parts s1 f1 i a Hf1 Ea) as (q & its & os & _ & Ei & _).
  by eapply lookup_lt_Some.
Qed.

Lemma writes_flow log s f i id ks :
  flow_ok s f → accounted log s f → rl_online s i id → fl_router f = [] → fl_queues f !! i = Some [] →
  ∃ s' f', rl_writes s i id ks = Ret s' ∧ flow_ok s' f' ∧ accounted log s' f' ∧ rl_online s' i id ∧
    fl_router f' = [] ∧ fl_queues f' !! i = Some [] ∧
    ((box_measure f i id ≤ length ks)%nat → box_measure f' i id = 0%nat).
Proof.
  revert s f. induction ks as [|k ks IH]; intros s f Hf Ha Hon Hr Hq.
  { exists s, f. split_and!; try done. cbn. lia. }
  cbn [rl_writes]. destruct (flow_write log s f i id [SendTakes k] Hf Ha Hon) as
    (s1 & f1 & -> & Hf1 & Ha1 & E1 & E2 & Ho & Hle1 & Hm); [by repeat constructor|].
  cbn [obind]. rewrite <-E1 in Hr. rewrite <-E2 in Hq.
  destruct (IH s1 f1) as (s2 & f2 & -> & Hf2 & Ha2 & Hon2 & Hr2 & Hq2 & Hz); try done; [by apply Ho|].
  exists s2, f2. split_and!; try done. cbn. intros Hle. apply Hz.
  destruct (decide (box_measure f i id = 0%nat)) as [H0|Hnz]; [lia|].
  specialize (Hm ltac:(by eexists _, _) Hnz). lia.
Qed.

(** The write event of the connection is registered. *)
Definition write_armed s (i : nat) (id : Z) : Prop :=
  ∃ a l c ap, cl_core_io (rl_cluster s) !! i = Some a ∧ ao_online (ia_owner a) !! id = Some l ∧
    ia_conns a !! l = Some (c, ap) ∧ armed c.

(** When the queues are empty, what is unsent is in the outbox, and the thread waits to
    send it. *)
Lemma settled_flow log s f i id :
  flow_ok s f → accounted log s f → rl_online s i id → fl_router f = [] → fl_queues f !! i = Some [] →
  (rl_sent s i id = routed_to i id log ∨ write_armed s i id) ∧
  (box_measure f i id = 0%nat → rl_sent s i id = routed_to i id log).
Proof.
  intros Hf Ha Hon Hr Hq. destruct (Ha i id Hon) as (nets & net & os & o & its & H1 & H2 & H3 & H4 & H5 & H6).
  assert (its = []) as -> by congruence. rewrite Hr in H6. cbn in H6. rewrite !app_nil_r in H6.
  unfold rl_sent, routed_to. rewrite H1, H2, <-H6. split.
  - destruct (decide (ob_all o = [])) as [He|Hne].
    + left. unfold ob_bytes, ob_left. unfold ob_all in He. destruct (ob_cur o) as [[x k]|]; [done|].
      rewrite He. cbn. by rewrite app_nil_r.
    + right. destruct Hon as (a & l & Ea & Hl).
      destruct (to_open _ _ _ (fo_threads _ _ Hf i a os Ea H3) id l Hl) as (c & ap & o' & Ec & Eo & Hw & _).
      assert (o' = o) as -> by congruence. exists a, l, c, ap. split_and!; try done. by apply Hw.
  - unfold box_measure, ob_measure. rewrite H3, H4. intros Hz.
    assert (ob_bytes o = []) as -> by (apply nil_length_inv; lia). by rewrite app_nil_r.
Qed.

Lemma chat_frame_decodes s t l m p v :
  chat_for s t l m p → v ∈ im_target_uid (pack_msg p) →
  decode_pack (drop 8 (chat_frame p v)) = Some (update_msg (im_set_target_uid [v]) p).
Proof.
  intros Hm Hv. destruct (cf_data _ _ _ _ _ Hm) as (bs & _ & Hp). unfold chat_frame.
  rewrite drop_app_length' by (unfold header_bytes; by rewrite length_app, !length_le_bytes).
  eapply sendable_decode; [|exact Hv]. eapply decoded_sendable; [done|apply Hm|done|apply Hm].
Qed.
End chat.

(** One thread with one open connection. *)
Definition flow_conn : IoConnection := setup_base (IoApp_config_new 0) IoConnection_new 5 77.
Definition flow_thread_1 : IoApp (list ptr) :=
  ia_set_conns {[4%positive := (flow_conn, IoAppConnection_new 0)]}
    (ia_set_owner (mkOwner 1 {[77 := 4%positive]} ConnectionCache_new) wit_ioapp).
Definition flow_relay : relay (list ptr) :=
  mkRelay (mkCluster (mkSettings 1 10 10 10 3 30 500) [(∅, Queue_new)] ∅ [MsMessageQueue_new] [flow_thread_1])
    MsMessageBlockQueue_new None
    [{[77 := {| net_in := []; net_send := []; net_out := []; net_so_error := 0 |}]}].
Definition flow_message : IMessage := set_conn 77 (set_io 0 (new_message [Some 1; Some 2] 2 0 2)).
Definition flow_item : item := mkItem 1%positive 0 77 [1; 2].

Lemma flow_relay_idle : idle_relay flow_relay.
Proof.
  split.
  - exists [[]]. split; cbn; try lia; try done.
    + by repeat constructor; exists [].
    + by repeat constructor.
    + constructor.
  - done.
  - done.
  - done.
  - intros [|i] a Ea; [|done]. injection Ea as <-. split.
    + intros id l Hl. cbn in Hl. apply lookup_singleton_Some in Hl as [<- <-].
      exists flow_conn, (IoAppConnection_new 0), (mkOutbox None []). split; [done|]. split; [done|].
      split; [unfold writable; cbn; split_and!; try done; by left|]. split; [|done]. split; [apply pl_new_rep|constructor].
    + intros id [x Hx]. rewrite lookup_fmap in Hx. apply fmap_Some in Hx as (y & Hy & _). by eexists.
    + intros i j oi oj _ Hi _. apply no_outboxes_Some in Hi as ->. unfold ob_nodes. cbn. set_solver.
    + intros i j oi oj _ Hi _. apply no_outboxes_Some in Hi as ->. unfold ob_msgs. cbn. set_solver.
  - intros [|i] id (a & l & Ea & Hl); [|done]. injection Ea as <-. cbn in Hl.
    apply lookup_singleton_Some in Hl as [<- _]. eexists _, _. split; [done|]. by rewrite lookup_singleton_eq.
Qed.

Lemma flow_relay_online : rl_online flow_relay 0 77.
Proof. by exists flow_thread_1, 4%positive. Qed.

Lemma flow_routed {HC : ImCodec} :
  let HS := list_processor in
  ∃ s, rl_route flow_relay {[1%positive := flow_message]} (Some 1%positive) = Ret s ∧
    served (S := list ptr) [flow_item] s ∧ rl_online s 0 77.
Proof.
  intros HS. eexists. split; [vm_compute; reflexivity|]. split; [|by exists flow_thread_1, 4%positive].
  eapply (served_route [] flow_relay {[1%positive := flow_message]} 1%positive [flow_item]).
  - apply served_start, flow_relay_idle.
  - apply map_disjoint_empty_r.
  - cbn. split; [done|]. eexists. by rewrite lookup_singleton_eq.
  - constructor; [|constructor]. split; exists flow_message; (split; [apply lookup_singleton_eq|]).
    + split_and!; try done. by exists [].
    + split_and!; try done. by left.
  - repeat constructor.
  - vm_compute. reflexivity.
Qed.

(** ** Properties *)

(** C3: whatever the turns of the broker, the other workers, the router, the I/O threads and the kernel,
    in whatever order, the bytes the kernel has of a connection are a prefix of the frames
    of the messages routed to that connection, in the order they were routed; and no turn
    goes wrong: the router sleeps or sorts, the thread pushes, the connection writes. *)
Theorem frames_sent_in_order {S} `{HS : IoProcessor S} {HC : ImCodec} log (s : relay S) i id
    (Hs : served log s) (Hon : rl_online s i id) :
  rl_sent s i id `prefix_of` routed_to i id log ∧
  (rl_turn s = Wait ∨ ∃ s', rl_turn s = Ret s') ∧ (∃ s', rl_push s i = Ret s') ∧
  (∀ sends, sends_ok sends → ∃ s', rl_write s i id sends = Ret s').
Proof.
  destruct (served_flow log s Hs) as (f & Hf & Ha). split; [|split; [|split]].
  - destruct (Ha i id Hon) as (nets & net & os & o & its & H1 & H2 & _ & _ & _ & H6).
    unfold rl_sent, routed_to. rewrite H1, H2, <-H6. by apply prefix_app_r.
  - destruct (decide (fl_router f = [])) as [He|Hne]; [left; by eapply turn_waits|right].
    destruct (flow_turn log s f Hf Ha Hne) as (s' & _ & E & _). eauto.
  - destruct Hon as (a & l & Ea & _). destruct (flow_push log s f i Hf Ha) as (s' & _ & E & _); eauto.
  - intros sends Hok. destruct (flow_write log s f i id sends Hf Ha Hon Hok) as (s' & _ & E & _). eauto.
Qed.

Lemma frames_sent_in_order_witness :
  let HS := list_processor in let HC := plain_codec in
  ∃ s, served (S := list ptr) [flow_item] s ∧ rl_sent s 0 77 `prefix_of` [1; 2] ∧
    ∃ s', rl_push s 0 = Ret s'.
Proof.
  intros HS HC. destruct flow_routed as (s & _ & Hs & Hon).
  destruct (frames_sent_in_order (S := list ptr) [flow_item] s 0 77 Hs Hon) as (H1 & _ & H2 & _).
  exists s. done.
Defined.

(** C4: nothing is left behind.  After a turn of the router and one of the thread, the
    write event of the connection stays registered as long as bytes routed to it are
    unsent, and there is a number of writable events after which the kernel has all of
    them, however few bytes it takes each time. *)
Theorem routed_frames_all_sent {S} `{HS : IoProcessor S} {HC : ImCodec} log (s : relay S) i id
    (Hs : served log s) (Hon : rl_online s i id) :
  ∃ s1 n, rl_settle s i = Ret s1 ∧
    ∀ ks, ∃ s2, rl_writes s1 i id ks = Ret s2 ∧
      (rl_sent s2 i id = routed_to i id log ∨ write_armed s2 i id) ∧
      ((n ≤ length ks)%nat → rl_sent s2 i id = routed_to i id log).
Proof.
  destruct (served_flow log s Hs) as (f & Hf & Ha).
  destruct (settle_flow log s f i id Hf Ha Hon) as (s1 & f1 & E1 & Hf1 & Ha1 & Hon1 & Hr1 & Hq1).
  exists s1, (box_measure f1 i id). split; [done|]. intros ks.
  destruct (writes_flow log s1 f1 i id ks Hf1 Ha1 Hon1 Hr1 Hq1) as (s2 & f2 & E2 & Hf2 & Ha2 & Hon2 & Hr2 & Hq2 & Hz).
  destruct (settled_flow log s2 f2 i id Hf2 Ha2 Hon2 Hr2 Hq2) as [H1 H2]. exists s2. split; [done|]. split; [done|]. auto.
Qed.

Lemma routed_frames_all_sent_witness :
  let HS := list_processor in let HC := plain_codec in
  ∃ s s1 s2, served (S := list ptr) [flow_item] s ∧ rl_settle s 0 = Ret s1 ∧
    ∃ n, rl_writes s1 0 77 (replicate n 0%nat) = Ret s2 ∧ rl_sent s2 0 77 = [1; 2].
Proof.
  intros HS HC. destruct flow_routed as (s & _ & Hs & Hon).
  destruct (routed_frames_all_sent (S := list ptr) [flow_item] s 0 77 Hs Hon) as (s1 & n & E1 & H).
  destruct (H (replicate n 0%nat)) as (s2 & E2 & _ & Hz). exists s, s1, s2. split; [done|]. split; [done|].
  exists n. split; [done|]. rewrite Hz by (by rewrite length_replicate). done.
Defined.

(** A table in which user 7 reads on the connection, and user 8 on none. *)
Definition flow_table : channel_table := {[7 := mkChannel 7 0 77 5]}.

(** C2: a chat message reaches its readers.  At any point of a history the broker's
    handling of a message succeeds; once the router and the thread have had their turn,
    finitely many writable events bring a connection to where it has sent, behind all that
    was routed to it before, exactly one frame for each target that reads there, in the
    order of the targets; the frame carries the pack for that target alone. *)
Theorem chat_reaches_sockets {S} `{HS : IoProcessor S} {HC : ImCodec} log (s : relay S) t l m p
    (Hs : served log s) (Hm : chat_for s t l m p) :
  let us := im_target_uid (pack_msg p) in
  ∃ s', rl_chat s t l m = Ret s' ∧ served (log ++ chat_items t p l) s' ∧
    (∀ v, v ∈ us → decode_pack (drop 8 (chat_frame p v)) = Some (update_msg (im_set_target_uid [v]) p)) ∧
    ∀ i id, rl_online s i id → ∃ s1 n, rl_settle s' i = Ret s1 ∧
      ∀ ks, (n ≤ length ks)%nat → ∃ s2, rl_writes s1 i id ks = Ret s2 ∧
        rl_sent s2 i id = routed_to i id log ++ mjoin (chat_frame p <$> filter (λ v, reads_at t i id v = true) us).
Proof.
  intros us. destruct (served_flow log s Hs) as (f & Hf & Ha).
  destruct (flow_chat log s f t l m p Hf Ha Hm) as (s' & f' & E & Hf' & Ha' & Ho). exists s'. split; [done|].
  split; [by eapply served_chat|]. split; [intros v Hv; by eapply chat_frame_decodes|].
  intros i id Hon. apply Ho in Hon.
  destruct (settle_flow _ s' f' i id Hf' Ha' Hon) as (s1 & f1 & E1 & Hf1 & Ha1 & Hon1 & Hr1 & Hq1).
  exists s1, (box_measure f1 i id). split; [done|]. intros ks Hks.
  destruct (writes_flow _ s1 f1 i id ks Hf1 Ha1 Hon1 Hr1 Hq1) as (s2 & f2 & E2 & Hf2 & Ha2 & Hon2 & Hr2 & Hq2 & Hz).
  destruct (settled_flow _ s2 f2 i id Hf2 Ha2 Hon2 Hr2 Hq2) as [_ H2]. exists s2. split; [done|].
  rewrite H2 by auto. by rewrite routed_to_app, routed_to_chat.
Qed.

Lemma chat_reaches_sockets_witness :
  let HS := list_processor in let HC := plain_codec in
  ∃ s' s1 s2 n, rl_chat flow_relay flow_table 1%positive (wit_frame (wit_chat [7; 8])) = Ret s' ∧
    rl_settle s' 0 = Ret s1 ∧ rl_writes s1 0 77 (replicate n 0%nat) = Ret s2 ∧
    rl_sent s2 0 77 = chat_frame (wit_chat [7; 8]) 7.
Proof.
  intros HS HC. pose proof (@chat_reaches_sockets (list ptr) HS HC) as Hthm. subst HC.
  destruct (Hthm [] flow_relay flow_table 1%positive (@wit_frame plain_codec (wit_chat [7; 8])) (wit_chat [7; 8]))
    as (s' & H1 & _ & _ & H).
  - apply served_start, flow_relay_idle.
  - split.
    + reflexivity.
    + apply (@wf_wit_frame plain_codec). vm_compute. reflexivity.
    + reflexivity.
    + by split.
    + exists (@encode_pack plain_codec (wit_chat [7; 8])). split; vm_compute; reflexivity.
    + reflexivity.
    + done.
    + done.
    + vm_compute. lia.
    + repeat constructor; vm_compute; reflexivity.
    + intros v c Hv Hc. vm_compute in Hv.
      assert (v = 7 ∨ v = 8) as [->| ->] by set_solver; vm_compute in Hc; [|done]. injection Hc as <-. done.
  - destruct (H 0%nat 77 flow_relay_online) as (s1 & n & H2 & Hw).
    destruct (Hw (replicate n 0%nat)) as (s2 & H3 & H4); [by rewrite length_replicate|].
    exists s', s1, s2, n. split; [exact H1|]. split; [exact H2|]. split; [exact H3|].
    rewrite H4. vm_compute. reflexivity.
Defined.
