(* ===== verification/EventLoop.v ===== *)
(** Setting the event loops up: IoApp::Impl and IoBackend::Impl (framework/io/io_app.cpp,
    io_backend.cpp: createEvent, run, newNotify, pushNotify, the constructor and the
    setters), and IoAccept::Impl (framework/io/io_accept.cpp: the constructor, run and the
    destructor).

    libevent is a parameter ([Libevent]); the code uses of it that an event registered with
    EV_READ and EV_PERSIST is called back whenever its descriptor is readable
    ([LibeventLaws]).  Of the kernel it uses that a byte written to one end of a socket
    pair makes the other end readable until it is read, and that the pair has room.  What
    socketpair, fcntl, event_base_new and new answer is an argument.  A descriptor field
    has no value before it is assigned. *)
From S2P Require Import Prelude IoNotify Heap MsMessage MsQueues LibQueues IoConnection IoAppConnection ConnCache IoApp StringAlgos Ini IoAppCluster IoAccept.

(** ** Events *)
Inductive callback := Cb_connection | Cb_push | Cb_accept (service : nat).
Record event_reg := mkEvent { ev_fd : Z; ev_flags : Z; ev_callback : callback }.

(** [event_set], [event_base_set] and [event_add] without a timeout. *)
Definition event_register (fd flags : Z) (cb : callback) (base : list event_reg) : list event_reg :=
  base ++ [mkEvent fd flags cb].

(** The callbacks that a pass of [event_base_loop] calls when the descriptors [fds] are
    readable. *)
Class Libevent := dispatch : list event_reg → gset Z → list callback.

(** The documentation of [event_set]: an event with EV_READ becomes active when its
    descriptor is readable, and with EV_PERSIST it stays added after its callback. *)
Class LibeventLaws `{Libevent} :=
  read_persist_law base fds cb :
    Forall (λ e, ev_flags e = Z.lor EV_READ EV_PERSIST) base →
    cb ∈ dispatch base fds ↔ ∃ e, e ∈ base ∧ ev_fd e ∈ fds ∧ ev_callback e = cb.

(** ** The loop of an I/O thread *)
Record io_loop := mkLoop {
  lp_base : list event_reg;
  lp_new_rnotify : option Z; lp_new_wnotify : option Z;
  lp_push_rnotify : option Z; lp_push_wnotify : option Z;
  lp_pairs : list (Z * Z); (** the socket pairs *)
  lp_in : gmap Z nat (** bytes that wait at a descriptor *) }.

(** The constructor aborts without an event base. *)
Definition IoApp_Impl_new (base_ok : bool) : outcome io_loop :=
  let* _ := assert_ base_ok in Ret (mkLoop [] None None None None [] ∅).
Definition IoBackend_Impl_new (base_ok : bool) : outcome io_loop :=
  let* _ := assert_ base_ok in Ret (mkLoop [] None None None None [] ∅).

(** One answer of [socketpair], and whether its first end can be made non-blocking. *)
Definition pair_answer : Type := option (Z * Z) * bool.

(** [socketpair] and [setNonblocking], which abort. *)
Definition make_pair (ans : pair_answer) : outcome (Z * Z) :=
  match ans with
  | (None, _) => Abort
  | (Some p, nonblocking) => let* _ := assert_ nonblocking in Ret p
  end.

Definition IoApp_createEvent (ans1 ans2 : pair_answer) (lp : io_loop) : outcome io_loop :=
  let* notify := make_pair ans1 in
  let lp := mkLoop (lp_base lp) (Some notify.1) (Some notify.2) (lp_push_rnotify lp) (lp_push_wnotify lp)
              (lp_pairs lp ++ [notify]) (lp_in lp) in
  let* notify := make_pair ans2 in
  Ret (mkLoop (lp_base lp) (lp_new_rnotify lp) (lp_new_wnotify lp) (Some notify.1) (Some notify.2)
         (lp_pairs lp ++ [notify]) (lp_in lp)).

(** [run] up to [event_base_loop]. *)
Definition IoApp_Impl_run (ans1 ans2 : pair_answer) (lp : io_loop) : outcome io_loop :=
  let* lp := IoApp_createEvent ans1 ans2 lp in
  let* new_fd := defined (lp_new_rnotify lp) in
  let base := event_register new_fd (Z.lor EV_READ EV_PERSIST) Cb_connection (lp_base lp) in
  let* push_fd := defined (lp_push_rnotify lp) in
  let base := event_register push_fd (Z.lor EV_READ EV_PERSIST) Cb_push base in
  Ret (mkLoop base (lp_new_rnotify lp) (lp_new_wnotify lp) (lp_push_rnotify lp) (lp_push_wnotify lp)
         (lp_pairs lp) (lp_in lp)).

(** The same statements in io_backend.cpp. *)
Definition IoBackend_createEvent (ans1 ans2 : pair_answer) (lp : io_loop) : outcome io_loop :=
  let* notify := make_pair ans1 in
  let lp := mkLoop (lp_base lp) (Some notify.1) (Some notify.2) (lp_push_rnotify lp) (lp_push_wnotify lp)
              (lp_pairs lp ++ [notify]) (lp_in lp) in
  let* notify := make_pair ans2 in
  Ret (mkLoop (lp_base lp) (lp_new_rnotify lp) (lp_new_wnotify lp) (Some notify.1) (Some notify.2)
         (lp_pairs lp ++ [notify]) (lp_in lp)).

Definition IoBackend_Impl_run (ans1 ans2 : pair_answer) (lp : io_loop) : outcome io_loop :=
  let* lp := IoBackend_createEvent ans1 ans2 lp in
  let* new_fd := defined (lp_new_rnotify lp) in
  let base := event_register new_fd (Z.lor EV_READ EV_PERSIST) Cb_connection (lp_base lp) in
  let* push_fd := defined (lp_push_rnotify lp) in
  let base := event_register push_fd (Z.lor EV_READ EV_PERSIST) Cb_push base in
  Ret (mkLoop base (lp_new_rnotify lp) (lp_new_wnotify lp) (lp_push_rnotify lp) (lp_push_wnotify lp)
         (lp_pairs lp) (lp_in lp)).

(** The other end of a descriptor. *)
Fixpoint peer (pairs : list (Z * Z)) (fd : Z) : option Z :=
  match pairs with
  | [] => None
  | (r, w) :: pairs => if fd =? w then Some r else if fd =? r then Some w else peer pairs fd
  end.

(** [write(fd, "", 1)]: a descriptor without a value, or one that is not an end of a pair,
    writes anywhere. *)
Definition write_notify (fd : option Z) (lp : io_loop) : outcome io_loop :=
  let* fd := defined fd in
  let* r := defined (peer (lp_pairs lp) fd) in
  Ret (mkLoop (lp_base lp) (lp_new_rnotify lp) (lp_new_wnotify lp) (lp_push_rnotify lp) (lp_push_wnotify lp)
         (lp_pairs lp) (<[r := S (default O (lp_in lp !! r))]> (lp_in lp))).

Definition IoApp_newNotify (lp : io_loop) : outcome io_loop := write_notify (lp_new_wnotify lp) lp.
Definition IoApp_pushNotify (lp : io_loop) : outcome io_loop := write_notify (lp_push_wnotify lp) lp.
Definition IoBackend_newNotify (lp : io_loop) : outcome io_loop := write_notify (lp_new_wnotify lp) lp.
Definition IoBackend_pushNotify (lp : io_loop) : outcome io_loop := write_notify (lp_push_wnotify lp) lp.

(** The end of a handler that has taken [count] items: [read(fd, buf, count)] after
    [count] is limited, on an end that does not block. *)
Definition read_notify (fd : Z) (count : nat) (lp : io_loop) : io_loop :=
  mkLoop (lp_base lp) (lp_new_rnotify lp) (lp_new_wnotify lp) (lp_push_rnotify lp) (lp_push_wnotify lp)
    (lp_pairs lp) (<[fd := (default O (lp_in lp !! fd) - read_size count)%nat]> (lp_in lp)).

(** libevent calls a handler back with the descriptor of its event. *)
#[export] Instance callback_eq : EqDecision callback. Proof. solve_decision. Defined.
Definition call_handler (cb : callback) (count : nat) (lp : io_loop) : io_loop :=
  match list_find (λ e, ev_callback e = cb) (lp_base lp) with
  | Some (_, e) => read_notify (ev_fd e) count lp
  | None => lp
  end.

(** The two classes that have such a loop. *)
Inductive loop_owner := Own_app | Own_backend.
Definition loop_setup (o : loop_owner) (ans1 ans2 : pair_answer) : outcome io_loop :=
  match o with
  | Own_app => let* lp := IoApp_Impl_new true in IoApp_Impl_run ans1 ans2 lp
  | Own_backend => let* lp := IoBackend_Impl_new true in IoBackend_Impl_run ans1 ans2 lp
  end.
Definition newNotify (o : loop_owner) : io_loop → outcome io_loop :=
  match o with Own_app => IoApp_newNotify | Own_backend => IoBackend_newNotify end.
Definition pushNotify (o : loop_owner) : io_loop → outcome io_loop :=
  match o with Own_app => IoApp_pushNotify | Own_backend => IoBackend_pushNotify end.

(** What happens at a loop: a notification, or the run of a handler that took [count]
    items. *)
Inductive wakeup := Wake_new | Wake_push | Done_new (count : nat) | Done_push (count : nat).
Fixpoint run_wakeups (o : loop_owner) (ws : list wakeup) (lp : io_loop) : outcome io_loop :=
  match ws with
  | [] => Ret lp
  | Wake_new :: ws => let* lp := newNotify o lp in run_wakeups o ws lp
  | Wake_push :: ws => let* lp := pushNotify o lp in run_wakeups o ws lp
  | Done_new count :: ws => run_wakeups o ws (call_handler Cb_connection count lp)
  | Done_push count :: ws => run_wakeups o ws (call_handler Cb_push count lp)
  end.

(** The descriptors at which bytes wait. *)
Definition readable (inp : gmap Z nat) : gset Z := dom (filter (λ kv : Z * nat, kv.2 ≠ O) inp).

(** ** The settings of an I/O thread *)
Definition cf_set_limits (s m h : Z) (cf : app_config) : app_config :=
  {| cf_id := cf_id cf; cf_rtimeout := cf_rtimeout cf; cf_wtimeout := cf_wtimeout cf;
     cf_second_limit := s; cf_minute_limit := m; cf_hour_limit := h |}.
Definition IoApp_setReadTimeout (timeout : Z) (cf : app_config) : app_config :=
  {| cf_id := cf_id cf; cf_rtimeout := timeout; cf_wtimeout := cf_wtimeout cf;
     cf_second_limit := cf_second_limit cf; cf_minute_limit := cf_minute_limit cf; cf_hour_limit := cf_hour_limit cf |}.
Definition IoApp_setWriteTimeout (timeout : Z) (cf : app_config) : app_config :=
  {| cf_id := cf_id cf; cf_rtimeout := cf_rtimeout cf; cf_wtimeout := timeout;
     cf_second_limit := cf_second_limit cf; cf_minute_limit := cf_minute_limit cf; cf_hour_limit := cf_hour_limit cf |}.
(** The limits are assigned, then checked. *)
Definition IoApp_setSecondLimit (limit : Z) (cf : app_config) : outcome app_config :=
  let cf := cf_set_limits limit (cf_minute_limit cf) (cf_hour_limit cf) cf in
  let* _ := assert_ (0 <? cf_second_limit cf) in Ret cf.
Definition IoApp_setMinuteLimit (limit : Z) (cf : app_config) : outcome app_config :=
  let cf := cf_set_limits (cf_second_limit cf) limit (cf_hour_limit cf) cf in
  let* _ := assert_ (0 <? cf_minute_limit cf) in Ret cf.
Definition IoApp_setHourLimit (limit : Z) (cf : app_config) : outcome app_config :=
  let cf := cf_set_limits (cf_second_limit cf) (cf_minute_limit cf) limit cf in
  let* _ := assert_ (0 <? cf_hour_limit cf) in Ret cf.

(** The body of the loop of IoAppCluster::run: [new IoApp] and the setters. *)
Definition create_thread (st : cluster_settings) (i : nat) (mem_ok : bool) : outcome app_config :=
  let* _ := assert_ mem_ok in
  let cf := IoApp_config_new (Z.of_nat i) in
  let cf := IoApp_setReadTimeout (st_read_timeout st) cf in
  let cf := IoApp_setWriteTimeout (st_write_timeout st) cf in
  let* cf := IoApp_setSecondLimit (st_second_limit st) cf in
  let* cf := IoApp_setMinuteLimit (st_minute_limit st) cf in
  IoApp_setHourLimit (st_hour_limit st) cf.

(** ** The accepting thread *)
(** A service with its listening socket, and whether it is alive. *)
Record IoAccept (A : Type) := mkIoAccept {
  ac_base : list event_reg;
  ac_service : list (A * Z);
  ac_deleted : list A;
  ac_base_freed : bool }.
Arguments mkIoAccept {A}.
Arguments ac_base {A}.
Arguments ac_service {A}.
Arguments ac_deleted {A}.
Arguments ac_base_freed {A}.

Section accepting.
Context {A : Type}.
Implicit Types (ac : IoAccept A).

Definition IoAccept_Impl_new (base_ok : bool) : outcome (IoAccept A) :=
  let* _ := assert_ base_ok in Ret (mkIoAccept [] [] [] false).

Definition IoAccept_Impl_addService ac (s : option (A * Z)) : Z * IoAccept A :=
  let (ret, service) := IoAccept_addService (ac_service ac) s in
  (ret, mkIoAccept (ac_base ac) service (ac_deleted ac) (ac_base_freed ac)).

(** The loop of [run] that registers the services from [i] on. *)
Fixpoint register_services (i : nat) (ss : list (A * Z)) (base : list event_reg) : list event_reg :=
  match ss with
  | [] => base
  | (_, fd) :: ss =>
      register_services (S i) ss (event_register fd (Z.lor EV_READ EV_PERSIST) (Cb_accept i) base)
  end.

(** [run]: it returns at once without a service, and enters its loop otherwise. *)
Definition IoAccept_Impl_run ac : bool * IoAccept A :=
  match ac_service ac with
  | [] => (false, ac)
  | ss => (true, mkIoAccept (register_services 0 ss (ac_base ac)) ss (ac_deleted ac) (ac_base_freed ac))
  end.

(** The destructor. *)
Definition IoAccept_Impl_delete ac : IoAccept A :=
  mkIoAccept (ac_base ac) [] (ac_deleted ac ++ (fst <$> ac_service ac)) true.

(** Adding services one after another, with the results. *)
Fixpoint add_services (ss : list (A * Z)) ac : list Z * IoAccept A :=
  match ss with
  | [] => ([], ac)
  | s :: ss =>
      let (r, ac) := IoAccept_Impl_addService ac (Some s) in
      let (rs, ac) := add_services ss ac in (r :: rs, ac)
  end.
End accepting.

(** ** Lemmas *)
(** The notifications that are not read yet, counted from [n]. *)
Fixpoint unread_new (n : nat) (ws : list wakeup) : nat :=
  match ws with
  | [] => n
  | Wake_new :: ws => unread_new (S n) ws
  | Done_new count :: ws => unread_new (n - Nat.max 1 (Nat.min count 256)) ws
  | _ :: ws => unread_new n ws
  end.
Fixpoint unread_push (n : nat) (ws : list wakeup) : nat :=
  match ws with
  | [] => n
  | Wake_push :: ws => unread_push (S n) ws
  | Done_push count :: ws => unread_push (n - Nat.max 1 (Nat.min count 256)) ws
  | _ :: ws => unread_push n ws
  end.

Lemma read_size_max n : read_size n = Nat.max 1 (Nat.min n 256).
Proof. unfold read_size. destruct (Nat.ltb_spec 256 n); [lia|]. destruct (Nat.eqb_spec n 0); lia. Qed.

Lemma elem_of_readable inp fd : fd ∈ readable inp ↔ default O (inp !! fd) ≠ O.
Proof.
  unfold readable. rewrite elem_of_dom. unfold is_Some. setoid_rewrite map_lookup_filter_Some. cbn [snd].
  destruct (inp !! fd) as [n|]; cbn [default]; [split; [by intros (m & [= ->] & ?)|eauto]|].
  split; [by intros (m & ? & _)|done].
Qed.

(** A loop that is set up on the pairs [(r1, w1)] and [(r2, w2)]. *)
Definition loop_on (r1 w1 r2 w2 : Z) (inp : gmap Z nat) : io_loop :=
  mkLoop [mkEvent r1 (Z.lor EV_READ EV_PERSIST) Cb_connection; mkEvent r2 (Z.lor EV_READ EV_PERSIST) Cb_push]
    (Some r1) (Some w1) (Some r2) (Some w2) [(r1, w1); (r2, w2)] inp.

Lemma run_sets_up o r1 w1 r2 w2 :
  loop_setup o (Some (r1, w1), true) (Some (r2, w2), true) = Ret (loop_on r1 w1 r2 w2 ∅).
Proof. by destruct o. Qed.

Section notifying.
Context (r1 w1 r2 w2 : Z) (Hnd : NoDup [r1; w1; r2; w2]).

Lemma ends_differ : r1 ≠ w1 ∧ r1 ≠ r2 ∧ r1 ≠ w2 ∧ w1 ≠ r2 ∧ w1 ≠ w2 ∧ r2 ≠ w2.
Proof using Hnd. clear -Hnd. rewrite !NoDup_cons in Hnd. set_solver. Qed.

(** A notification adds a byte at its own end, and a handler reads from its own end. *)
Lemma notify_one o inp :
  newNotify o (loop_on r1 w1 r2 w2 inp) = Ret (loop_on r1 w1 r2 w2 (<[r1 := S (default O (inp !! r1))]> inp)) ∧
  pushNotify o (loop_on r1 w1 r2 w2 inp) = Ret (loop_on r1 w1 r2 w2 (<[r2 := S (default O (inp !! r2))]> inp)).
Proof using Hnd.
  destruct ends_differ as (H1 & H2 & H3 & H4 & H5 & H6).
  destruct o; cbn [newNotify pushNotify];
    unfold IoApp_newNotify, IoApp_pushNotify, IoBackend_newNotify, IoBackend_pushNotify, write_notify;
    cbn [loop_on lp_new_wnotify lp_push_wnotify lp_pairs defined obind peer];
    rewrite Z.eqb_refl; rewrite (proj2 (Z.eqb_neq w2 w1)), (proj2 (Z.eqb_neq w2 r1)), Z.eqb_refl by lia; done.
Qed.

Lemma call_one count inp :
  call_handler Cb_connection count (loop_on r1 w1 r2 w2 inp) =
    loop_on r1 w1 r2 w2 (<[r1 := (default O (inp !! r1) - read_size count)%nat]> inp) ∧
  call_handler Cb_push count (loop_on r1 w1 r2 w2 inp) =
    loop_on r1 w1 r2 w2 (<[r2 := (default O (inp !! r2) - read_size count)%nat]> inp).
Proof using. done. Qed.

Lemma run_wakeups_spec o ws inp :
  ∃ inp', run_wakeups o ws (loop_on r1 w1 r2 w2 inp) = Ret (loop_on r1 w1 r2 w2 inp') ∧
    default O (inp' !! r1) = unread_new (default O (inp !! r1)) ws ∧
    default O (inp' !! r2) = unread_push (default O (inp !! r2)) ws.
Proof using Hnd.
  destruct ends_differ as (_ & Hr & _). revert inp. induction ws as [|w ws IH]; intros inp; [by exists inp|].
  destruct (notify_one o inp) as [E1 E2]. destruct w as [| |count|count]; cbn [run_wakeups unread_new unread_push].
  - rewrite E1. cbn [obind]. destruct (IH (<[r1 := S (default O (inp !! r1))]> inp)) as (inp' & -> & H1 & H2).
    exists inp'. by rewrite H1, H2, lookup_insert_eq, lookup_insert_ne.
  - rewrite E2. cbn [obind]. destruct (IH (<[r2 := S (default O (inp !! r2))]> inp)) as (inp' & -> & H1 & H2).
    exists inp'. by rewrite H1, H2, lookup_insert_eq, lookup_insert_ne.
  - rewrite (proj1 (call_one count inp)).
    destruct (IH (<[r1 := (default O (inp !! r1) - read_size count)%nat]> inp)) as (inp' & -> & H1 & H2).
    exists inp'. by rewrite H1, H2, lookup_insert_eq, lookup_insert_ne, read_size_max.
  - rewrite (proj2 (call_one count inp)).
    destruct (IH (<[r2 := (default O (inp !! r2) - read_size count)%nat]> inp)) as (inp' & -> & H1 & H2).
    exists inp'. by rewrite H1, H2, lookup_insert_eq, lookup_insert_ne, read_size_max.
Qed.

(** A handler is called as long as its end is readable. *)
Lemma dispatch_loop `{LibeventLaws} inp cb :
  cb ∈ dispatch (lp_base (loop_on r1 w1 r2 w2 inp)) (readable inp) ↔
    (cb = Cb_connection ∧ default O (inp !! r1) ≠ O) ∨ (cb = Cb_push ∧ default O (inp !! r2) ≠ O).
Proof using.
  rewrite read_persist_law by (by repeat constructor). setoid_rewrite elem_of_readable. cbn [loop_on lp_base]. split.
  - intros (e & He & Hin & <-). apply elem_of_cons in He as [->|He]; [by left|].
    apply list_elem_of_singleton in He as ->. by right.
  - intros [[-> Hin]|[-> Hin]].
    + eexists. split; [apply list_elem_of_here|]. done.
    + eexists. split; [apply list_elem_of_further, list_elem_of_here|]. done.
Qed.
End notifying.

(** The events of the services, numbered from [k]. *)
Definition service_events {A} (k : nat) (ss : list (A * Z)) : list event_reg :=
  imap (λ j s, mkEvent s.2 (Z.lor EV_READ EV_PERSIST) (Cb_accept (k + j))) ss.

Lemma service_events_cons {A} k (s : A * Z) ss :
  service_events k (s :: ss) = mkEvent s.2 (Z.lor EV_READ EV_PERSIST) (Cb_accept k) :: service_events (S k) ss.
Proof.
  unfold service_events. cbn [imap]. rewrite Nat.add_0_r. f_equal. apply imap_ext. intros j z _. unfold compose.
  do 2 f_equal. lia.
Qed.

Lemma register_services_spec {A} i (ss : list (A * Z)) base :
  register_services i ss base =
    base ++ service_events i ss.
Proof.
  revert i base. induction ss as [|[s fd] ss IH]; intros i base; cbn [register_services]; [by rewrite app_nil_r|].
  rewrite IH, service_events_cons. unfold event_register. by rewrite <-app_assoc.
Qed.

Lemma add_services_spec {A} (ss : list (A * Z)) (ac : IoAccept A) :
  add_services ss ac =
    (imap (λ i _, if (EVENT_MAX <=? length (ac_service ac) + i)%nat then -1 else 0) ss,
     mkIoAccept (ac_base ac) (ac_service ac ++ take (EVENT_MAX - length (ac_service ac)) ss)
       (ac_deleted ac) (ac_base_freed ac)).
Proof.
  revert ac. induction ss as [|s ss IH]; intros ac; cbn [add_services].
  { rewrite take_nil, app_nil_r. by destruct ac. }
  unfold IoAccept_Impl_addService, IoAccept_addService.
  destruct (Nat.leb_spec EVENT_MAX (length (ac_service ac))) as [Hle|Hlt].
  - rewrite IH. cbn [ac_service ac_base ac_deleted ac_base_freed].
    replace (EVENT_MAX - length (ac_service ac))%nat with O by lia. cbn [take imap]. f_equal.
    rewrite Nat.add_0_r, (proj2 (Nat.leb_le _ _)) by lia. f_equal.
    apply imap_ext. intros i x _. unfold compose. by rewrite !(proj2 (Nat.leb_le _ _)) by lia.
  - rewrite IH. cbn [ac_service ac_base ac_deleted ac_base_freed]. rewrite length_app. cbn [length imap].
    rewrite Nat.add_0_r, (proj2 (Nat.leb_gt _ _)) by lia. f_equal.
    + f_equal. apply imap_ext. intros i x _. unfold compose. by replace (length (ac_service ac) + 1 + i)%nat
      with (length (ac_service ac) + S i)%nat by lia.
    + replace (EVENT_MAX - length (ac_service ac))%nat with (S (EVENT_MAX - (length (ac_service ac) + 1)))%nat by lia.
      cbn [take]. by rewrite <-app_assoc.
Qed.

Lemma service_events_flags {A} k (ss : list (A * Z)) :
  Forall (λ e, ev_flags e = Z.lor EV_READ EV_PERSIST) (service_events k ss).
Proof.
  revert k. induction ss as [|s ss IH]; intros k; [constructor|]. rewrite service_events_cons. by constructor.
Qed.

(** Each service is called for its own descriptor. *)
Lemma dispatch_services `{LibeventLaws} {A} k (ss : list (A * Z)) fds cb :
  cb ∈ dispatch (service_events k ss) fds ↔ ∃ i s, ss !! i = Some s ∧ s.2 ∈ fds ∧ cb = Cb_accept (k + i).
Proof.
  rewrite read_persist_law by apply service_events_flags. unfold service_events. split.
  - intros (e & [j Hj]%list_elem_of_lookup & Hfd & <-). rewrite list_lookup_imap in Hj.
    destruct (ss !! j) as [s|] eqn:Es; [|done]. injection Hj as <-. by exists j, s.
  - intros (i & s & Hi & Hfd & ->). eexists (mkEvent s.2 _ (Cb_accept (k + i))). split; [|by split].
    apply list_elem_of_lookup. exists i. rewrite list_lookup_imap, Hi. reflexivity.
Qed.

(** A libevent that calls every event whose descriptor is readable, in the order of the
    registration. *)
Definition simple_libevent : Libevent :=
  λ base fds, ev_callback <$> filter (λ e, Z.land (ev_flags e) EV_READ ≠ 0 ∧ ev_fd e ∈ fds) base.
Lemma simple_libevent_laws : @LibeventLaws simple_libevent.
Proof.
  intros base fds cb Hb. unfold dispatch, simple_libevent. rewrite list_elem_of_fmap. split.
  - intros (e & -> & [[_ Hfd] He]%list_elem_of_filter). by exists e.
  - intros (e & He & Hfd & <-). exists e. split; [done|]. apply list_elem_of_filter. split; [|done]. split; [|done].
    rewrite Forall_forall in Hb. by rewrite (Hb e He).
Qed.

(** Every run of a handler reads a byte, if there is one. *)
Lemma unread_new_drained counts n : (n ≤ length counts)%nat → unread_new n (Done_new <$> counts) = O.
Proof.
  revert n. induction counts as [|c counts IH]; intros n Hn; cbn [length] in Hn; [cbn; lia|].
  cbn [fmap list_fmap unread_new]. apply IH. lia.
Qed.
Lemma unread_push_drained counts n : (n ≤ length counts)%nat → unread_push n (Done_push <$> counts) = O.
Proof.
  revert n. induction counts as [|c counts IH]; intros n Hn; cbn [length] in Hn; [cbn; lia|].
  cbn [fmap list_fmap unread_push]. apply IH. lia.
Qed.
Lemma unread_other counts n :
  unread_new n (Done_push <$> counts) = n ∧ unread_push n (Done_new <$> counts) = n.
Proof. by induction counts. Qed.

(** ** Properties *)

(** C38: once the loop of an I/O thread, or of the backend, is set up, notifications reach
    their own handlers, for any libevent that calls an EV_READ|EV_PERSIST event whenever
    its descriptor is readable.  Over any sequence of notifications and runs of the
    handlers, each of which takes any number of items and then reads as many bytes, one at
    least and 256 at most: nothing is written to a descriptor without a value; libevent
    calls the connection handler exactly while one of the notifications for sockets is not
    read, the push handler exactly while one of those for messages is not read, and no
    other handler; and as many runs of a handler as it has unread notifications end its
    calls, whatever they take, and leave the other's as they were. *)
Theorem notifications_reach_handlers `{LibeventLaws} o r1 w1 r2 w2 ws (Hnd : NoDup [r1; w1; r2; w2]) :
  ∃ lp lp', loop_setup o (Some (r1, w1), true) (Some (r2, w2), true) = Ret lp ∧ run_wakeups o ws lp = Ret lp' ∧
    let calls l := dispatch (lp_base l) (readable (lp_in l)) in
    (∀ cb, cb ∈ calls lp' ↔ (cb = Cb_connection ∧ unread_new 0 ws ≠ O) ∨ (cb = Cb_push ∧ unread_push 0 ws ≠ O)) ∧
    (∀ counts, (unread_new 0 ws ≤ length counts)%nat →
       ∃ l, run_wakeups o (Done_new <$> counts) lp' = Ret l ∧
         (∀ cb, cb ∈ calls l ↔ cb = Cb_push ∧ unread_push 0 ws ≠ O)) ∧
    (∀ counts, (unread_push 0 ws ≤ length counts)%nat →
       ∃ l, run_wakeups o (Done_push <$> counts) lp' = Ret l ∧
         (∀ cb, cb ∈ calls l ↔ cb = Cb_connection ∧ unread_new 0 ws ≠ O)).
Proof.
  destruct (run_wakeups_spec r1 w1 r2 w2 Hnd o ws ∅) as (inp & E & H1 & H2).
  rewrite lookup_empty in H1, H2. cbn [default] in H1, H2.
  exists (loop_on r1 w1 r2 w2 ∅), (loop_on r1 w1 r2 w2 inp). split; [apply run_sets_up|]. split; [done|]. cbv zeta.
  split; [|split].
  - intros cb. cbn [lp_in loop_on]. rewrite dispatch_loop by done. by rewrite H1, H2.
  - intros counts Hc. destruct (run_wakeups_spec r1 w1 r2 w2 Hnd o (Done_new <$> counts) inp) as (inp' & E' & H1' & H2').
    eexists. split; [exact E'|]. intros cb. cbn [lp_in loop_on]. rewrite dispatch_loop by done. rewrite H1', H2', H1, H2.
    rewrite unread_new_drained, (proj2 (unread_other counts _)) by done. naive_solver.
  - intros counts Hc. destruct (run_wakeups_spec r1 w1 r2 w2 Hnd o (Done_push <$> counts) inp) as (inp' & E' & H1' & H2').
    eexists. split; [exact E'|]. intros cb. cbn [lp_in loop_on]. rewrite dispatch_loop by done. rewrite H1', H2', H1, H2.
    rewrite unread_push_drained, (proj1 (unread_other counts _)) by done. naive_solver.
Qed.

Lemma notifications_reach_handlers_witness :
  ∃ lp, run_wakeups Own_backend [Wake_push; Wake_new; Wake_push; Done_push 1; Done_new 1] (loop_on 3 4 5 6 ∅) = Ret lp ∧
    Cb_push ∈ simple_libevent (lp_base lp) (readable (lp_in lp)) ∧
    ¬ Cb_connection ∈ simple_libevent (lp_base lp) (readable (lp_in lp)).
Proof.
  destruct (@notifications_reach_handlers simple_libevent simple_libevent_laws Own_backend 3 4 5 6 [Wake_push; Wake_new; Wake_push; Done_push 1; Done_new 1])
    as (lp & lp' & E1 & E2 & H & _).
  - repeat constructor; set_solver.
  - injection E1 as <-. exists lp'. split; [exact E2|]. rewrite !(H _). cbn. split; [by right|]. intros [[_ ?]|[? _]]; done.
Defined.

(** setting a loop up aborts unless the event base, both socket pairs and their
    non-blocking mode are obtained; and before a thread has set its loop up, a notification
    writes to a descriptor that was never assigned.  [IoApp::run] returns when the thread
    has started, not when it has created its pairs. *)
Theorem early_notification_undefined base_ok (ans1 ans2 : pair_answer) :
  match IoApp_Impl_new base_ok with
  | Ret lp => base_ok = true ∧ IoApp_newNotify lp = Fault ∧ IoApp_pushNotify lp = Fault ∧
      match ans1, ans2 with
      | (Some _, true), (Some _, true) => ∃ lp', IoApp_Impl_run ans1 ans2 lp = Ret lp'
      | _, _ => IoApp_Impl_run ans1 ans2 lp = Abort
      end
  | r => base_ok = false ∧ r = Abort
  end.
Proof.
  destruct base_ok; [|done]. cbn [IoApp_Impl_new assert_ obind]. split; [done|]. split; [done|]. split; [done|].
  destruct ans1 as [[p1|] []], ans2 as [[p2|] []]; try done. by eexists.
Qed.

(** the settings the cluster has read are those of every thread it creates: the
    setters' assertions hold for what [initialize] accepts, and for the defaults, so
    creating a thread fails only without memory; with a limit that is not positive it
    aborts. *)
Theorem threads_get_cluster_settings st i :
  create_thread st i true =
    (if (0 <? st_second_limit st) && (0 <? st_minute_limit st) && (0 <? st_hour_limit st)
     then Ret (thread_config st i) else Abort) ∧
  create_thread settings_default i true = Ret (thread_config settings_default i) ∧
  (∀ ini, IoAppCluster_settings ini = Ret st → create_thread st i true = Ret (thread_config st i)).
Proof.
  assert (create_thread st i true =
    (if (0 <? st_second_limit st) && (0 <? st_minute_limit st) && (0 <? st_hour_limit st)
     then Ret (thread_config st i) else Abort)) as H.
  { unfold create_thread, IoApp_setSecondLimit, IoApp_setMinuteLimit, IoApp_setHourLimit.
    cbn [assert_ obind cf_set_limits cf_second_limit cf_minute_limit cf_hour_limit].
    destruct (0 <? st_second_limit st); cbn [assert_ obind andb]; [|done].
    destruct (0 <? st_minute_limit st); cbn [assert_ obind andb]; [|done].
    destruct (0 <? st_hour_limit st); done. }
  split; [exact H|]. split; [done|]. intros ini E. rewrite H.
  destruct (settings_cases ini) as [E'|(st' & E' & _ & _ & _ & _ & [H1 _] & [H2 _] & [H3 _])]; rewrite E in E'; [done|].
  injection E' as <-. by rewrite !(proj2 (Z.ltb_lt 0 _)).
Qed.

(** the accepting thread.  Of the services added the first eight are taken and the
    others refused, without a write beyond the array.  With a service it enters its loop,
    where a connection on the listening socket of a service calls that service and no
    other, when the sockets differ; without one it ends.  The destructor deletes each
    service that was taken once and frees the base. *)
Theorem accepting_serves_each `{LibeventLaws} {A} (ss : list (A * Z)) :
  ∃ ac0 rs ac, IoAccept_Impl_new true = Ret ac0 ∧ add_services ss ac0 = (rs, ac) ∧
    ac_service ac = take EVENT_MAX ss ∧
    (∀ i s, ss !! i = Some s → rs !! i = Some (if (i <? EVENT_MAX)%nat then 0 else -1)) ∧
    (IoAccept_Impl_run ac).1 = bool_decide (ss ≠ []) ∧
    (NoDup (take EVENT_MAX ss).*2 → ∀ i s cb, take EVENT_MAX ss !! i = Some s →
       cb ∈ dispatch (ac_base (IoAccept_Impl_run ac).2) {[s.2]} ↔ cb = Cb_accept i) ∧
    ac_deleted (IoAccept_Impl_delete ac) = (take EVENT_MAX ss).*1 ∧ ac_base_freed (IoAccept_Impl_delete ac) = true.
Proof.
  eexists _, _, _. split; [done|]. rewrite add_services_spec. split; [done|].
  cbn [ac_service ac_base ac_deleted ac_base_freed length app]. rewrite Nat.sub_0_r. split; [done|].
  split; [|split; [|split; [|done]]].
  - intros i s Hi. rewrite list_lookup_imap, Hi. cbn [fmap option_fmap option_map Nat.add]. f_equal.
    destruct (Nat.leb_spec EVENT_MAX i), (Nat.ltb_spec i EVENT_MAX); lia.
  - unfold IoAccept_Impl_run. cbn [ac_service]. by destruct ss as [|s ss].
  - intros Hnd i s cb Hi. unfold IoAccept_Impl_run. cbn [ac_service ac_base].
    destruct (take EVENT_MAX ss) as [|x xs] eqn:E; [done|]. cbn [snd ac_base].
    rewrite register_services_spec. cbn [app]. rewrite dispatch_services by done. cbn [Nat.add]. split.
    + intros (j & s' & Hj & Hs%elem_of_singleton & ->). f_equal.
      apply (NoDup_lookup (x :: xs).*2 j i s.2); [done| |]; rewrite list_lookup_fmap; [by rewrite Hj, <-Hs|by rewrite Hi].
    + intros ->. exists i, s. set_solver.
Qed.
