(* ===== verification/ThreadBase.v ===== *)
(** The base class for objects with a thread of their own (thrift/pilot/thread_base.h,
    thread_base.cc): open starts the thread, which waits at a barrier until activate is
    called, and join ends it.

    The caller and the thread take turns in any order.  A barrier of n lets nobody through
    until n threads have come to it; what malloc and pthread_create answer is an argument.
    The signal that join sends has its default action, the end of the process. *)
From S2P Require Import Prelude.

(** ** State *)
(** Where the thread is in [run]. *)
Inductive tb_pc := Tb_begin | Tb_waits | Tb_svc | Tb_ended.
(** Where the caller is in [activate]. *)
Inductive act_pc := Act_idle | Act_waits | Act_returned.

Record ThreadBase := mkTB {
  tb_allocated : bool; (** [thread_ != NULL] *)
  tb_thread_num : nat; (** [thread_num_] *)
  tb_barrier : option (nat * nat); (** how many it takes, and how many have come *)
  tb_threads : list tb_pc;
  tb_activate : act_pc }.

Definition ThreadBase_new : ThreadBase := mkTB false 0 None [] Act_idle.

(** ** Operations *)
(** The loop of [open]: how many of the threads are created. *)
Fixpoint create_loop (created : list bool) : nat :=
  match created with
  | true :: created => S (create_loop created)
  | _ => O
  end.

(** [thread_num] is 1. *)
Definition ThreadBase_open (mem : bool) (created : list bool) (t : ThreadBase) : Z * ThreadBase :=
  let thread_num := 1%nat in
  if negb mem then (-1, mkTB false (tb_thread_num t) (tb_barrier t) (tb_threads t) (tb_activate t))
  else
    let i := create_loop (take thread_num created) in
    let t := mkTB true i (Some (thread_num + 1, 0)%nat) (replicate i Tb_begin) (tb_activate t) in
    if (i =? thread_num)%nat then (0, t) else (-1, t).

Definition release_waiting (pc : tb_pc) : tb_pc := match pc with Tb_waits => Tb_svc | pc => pc end.

(** Somebody comes to the barrier; the last one lets all through. *)
Definition arrive (t : ThreadBase) : outcome ThreadBase :=
  let* (n, k) := defined (tb_barrier t) in
  if (S k =? n)%nat then
    Ret (mkTB (tb_allocated t) (tb_thread_num t) (Some (n, O)) (release_waiting <$> tb_threads t)
           (match tb_activate t with Act_waits => Act_returned | a => a end))
  else Ret (mkTB (tb_allocated t) (tb_thread_num t) (Some (n, S k)) (tb_threads t) (tb_activate t)).

Definition tb_set_pc (i : nat) (pc : tb_pc) (t : ThreadBase) : ThreadBase :=
  mkTB (tb_allocated t) (tb_thread_num t) (tb_barrier t) (<[i := pc]> (tb_threads t)) (tb_activate t).
Definition set_act (a : act_pc) (t : ThreadBase) : ThreadBase :=
  mkTB (tb_allocated t) (tb_thread_num t) (tb_barrier t) (tb_threads t) a.

(** A turn of thread [i] in [run]; [None] when it waits or has ended. *)
Definition run_turn (i : nat) (t : ThreadBase) : option (outcome ThreadBase) :=
  match tb_threads t !! i with
  | Some Tb_begin => Some (arrive (tb_set_pc i Tb_waits t))
  | Some Tb_svc => Some (Ret (tb_set_pc i Tb_ended t))
  | _ => None
  end.

(** [activate] comes to the barrier. *)
Definition ThreadBase_activate (t : ThreadBase) : outcome ThreadBase := arrive (set_act Act_waits t).

(** [pthread_kill(SIGTERM)] ends the process while the thread lives; a thread that has
    ended is joined. *)
Fixpoint tb_join_loop (pcs : list tb_pc) : outcome unit :=
  match pcs with
  | [] => Ret tt
  | Tb_ended :: pcs => tb_join_loop pcs
  | _ :: _ => Abort
  end.
Definition ThreadBase_join (t : ThreadBase) : outcome (Z * ThreadBase) :=
  if tb_allocated t then
    let* _ := tb_join_loop (take (tb_thread_num t) (tb_threads t)) in
    Ret (0, mkTB false (tb_thread_num t) None (tb_threads t) (tb_activate t))
  else Ret (0, t).

(** ** Histories after [open] *)
Inductive tb_reached : ThreadBase → Prop :=
  | tb_open mem created t : ThreadBase_open mem created ThreadBase_new = (0, t) → tb_reached t
  | tb_turn i t t' : tb_reached t → run_turn i t = Some (Ret t') → tb_reached t'
  | tb_act t t' : tb_reached t → tb_activate t = Act_idle → ThreadBase_activate t = Ret t' → tb_reached t'.

(** One thread and a barrier of two, on which those wait who have come. *)
Definition tb_inv (t : ThreadBase) : Prop :=
  tb_allocated t = true ∧ tb_thread_num t = 1%nat ∧
  ∃ pc k, tb_threads t = [pc] ∧ tb_barrier t = Some (2%nat, k) ∧
    match pc, tb_activate t with
    | Tb_begin, Act_idle => k = O
    | Tb_begin, Act_waits | Tb_waits, Act_idle => k = 1%nat
    | Tb_svc, Act_returned | Tb_ended, Act_returned => k = O
    | _, _ => False
    end.

Lemma tb_reached_inv t : tb_reached t → tb_inv t.
Proof.
  induction 1 as [mem created t E|i t t' _ (Ha & Hn & pc & k & Hp & Hb & Hk) E|t t' _ (Ha & Hn & pc & k & Hp & Hb & Hk) Hi E].
  - unfold ThreadBase_open in E. destruct mem; [|done]. destruct created as [|[] created]; cbn in E; try done.
    injection E as <-. split; [done|]. split; [done|]. by exists Tb_begin, O.
  - unfold run_turn in E. rewrite Hp in E. destruct i as [|i]; [|done]. cbn in E.
    destruct pc; try done; injection E as E.
    + unfold arrive, tb_set_pc in E. cbn in E. rewrite Hb, Hp in E. cbn in E.
      destruct (tb_activate t) eqn:Et; cbn in Hk; try done; subst k; cbn in E; injection E as <-;
        (split; [done|]; split; [done|]); [by exists Tb_waits, 1%nat|by exists Tb_svc, O].
    + subst t'. split; [done|]. split; [done|]. exists Tb_ended, k. unfold tb_set_pc. rewrite Hp. cbn.
      by destruct (tb_activate t).
  - unfold ThreadBase_activate, arrive, set_act in E. cbn in E. rewrite Hb, Hp in E. rewrite Hi in Hk.
    destruct pc; try done; subst k; cbn in E; injection E as <-; (split; [done|]; split; [done|]);
      [by exists Tb_begin, 1%nat|by exists Tb_svc, O].
Qed.

(** ** Properties *)

(** the thread begins its work only after activate was called, and then it does: in
    every reachable state a thread that works or has worked was activated, activate has
    not returned before; while activate waits, the thread's next turn lets both go on;
    and while the thread waits, the call does. *)
Theorem svc_after_activate t (Ht : tb_reached t) :
  (∀ i pc, tb_threads t !! i = Some pc → pc = Tb_svc ∨ pc = Tb_ended → tb_activate t = Act_returned) ∧
  (tb_activate t = Act_waits → ∃ t', run_turn 0 t = Some (Ret t') ∧ tb_threads t' = [Tb_svc] ∧ tb_activate t' = Act_returned) ∧
  (tb_threads t = [Tb_waits] → ∃ t', ThreadBase_activate t = Ret t' ∧ tb_threads t' = [Tb_svc] ∧ tb_activate t' = Act_returned) ∧
  (ThreadBase_join t = Abort ∨
   tb_threads t = [Tb_ended] ∧ ThreadBase_join t = Ret (0, mkTB false 1 None [Tb_ended] Act_returned)).
Proof.
  apply tb_reached_inv in Ht as (Ha & Hn & pc & k & Hp & Hb & Hk). split; [|split; [|split]].
  - intros [|i] pc' Hl Hpc; rewrite Hp in Hl; [|done]. injection Hl as <-.
    destruct Hpc as [->| ->]; by destruct (tb_activate t).
  - intros Hw. rewrite Hw in Hk. destruct pc; try done. subst k. unfold run_turn. rewrite Hp. cbn.
    unfold arrive, tb_set_pc. cbn. rewrite Hb, Hp, Hw. cbn. by eexists.
  - intros Hw. rewrite Hp in Hw. injection Hw as ->. destruct (tb_activate t) eqn:Et; try done. subst k.
    unfold ThreadBase_activate, arrive, set_act. cbn. rewrite Hb, Hp. cbn. by eexists.
  - unfold ThreadBase_join. rewrite Ha, Hn, Hp. cbn. destruct pc; cbn; auto. right.
    by destruct (tb_activate t).
Qed.

Lemma svc_after_activate_witness :
  ∃ t t', tb_reached t ∧ run_turn 0 t = Some (Ret t') ∧ tb_threads t' = [Tb_svc].
Proof.
  set (t := mkTB true 1 (Some (2%nat, 1%nat)) [Tb_begin] Act_waits).
  assert (tb_reached t) as Ht.
  { eapply (tb_act (mkTB true 1 (Some (2%nat, 0%nat)) [Tb_begin] Act_idle)); [|reflexivity|reflexivity].
    by eapply (tb_open true [true]). }
  destruct (svc_after_activate t Ht) as (_ & H & _). destruct (H eq_refl) as (t' & E & Et & _). by exists t, t'.
Defined.

(** when the thread cannot be created, open reports it, but the barrier still takes two:
    activate then waits for ever, and without memory there is no barrier at all. *)
Theorem open_failed_activate_hangs mem created :
  match ThreadBase_open mem created ThreadBase_new with
  | (0, t) => mem = true ∧ head created = Some true ∧ tb_threads t = [Tb_begin]
  | (r, t) => r = -1 ∧
      if mem then tb_threads t = [] ∧ ∃ t', ThreadBase_activate t = Ret t' ∧ tb_activate t' = Act_waits ∧ ∀ i, run_turn i t' = None
      else ThreadBase_activate t = Fault
  end.
Proof.
  destruct mem; [|done]. destruct created as [|[] created]; cbn; try done; (split; [done|]; split; [done|]);
    eexists; done.
Qed.
